(* ===== verification/_CoqProject ===== *)
-Q . S2P
Prelude.v
Memory.v
CircularBuffer.v
DeviceSpec.v
Kernel.v
Steps.v
CharDriver.v
CharDriverSpec.v
RelyGuarantee.v
CharDriverInv.v
CharDriverWrite.v
CharDriverRead.v
CharDriverSeek.v
CharDriverModule.v
CharDriverClient.v
CharDriverThreads.v
OneWriter.v
CharDriverProperties.v
CharDriverConcurrency.v
CharDriverTypes.v
Schedules.v
FileOps.v
CharDriverFile.v
CString.v
Calendar.v
Server.v
ServerSpec.v
ServerProperties.v
RegularFile.v
Timer.v
ServerClients.v
ServerParts.v
ServerSerial.v
ServerOnDriver.v
ServerStuck.v
ServerSerialProperties.v
ServerTimer.v
SystemCalls.v
Writer.v
Autotest.v
Threading.v
Slist.v
Queue.v
ListMacros.v
TailQueue.v
SinglyTailQueue.v
Connections.v
ServerMain.v
ServerLoop.v
ServerSystem.v
ServerSystemInv.v
ServerSystemProperties.v
