(* ===== verification/Prelude.v ===== *)
(** * The AESD assignment sources, modelled and verified

    This library models the C code of the repository and proves what makes it
    correct, and where it is not, that it is not.  The code has four parts:

    - the character driver, [src/aesd-char-driver/]: [main.c] keeps the last
      ten lines written to [/dev/aesdchar] in the circular buffer of
      [aesd-circular-buffer.{h,c}], and the bytes of a line that has not ended
      in [dev->partial]; [aesd_ioctl.h] defines a seek command;
    - the server, [src/server/aesdsocket.c]: a thread per client writes the
      lines it receives to the device and sends the whole device back; the
      main thread accepts clients and collects the ones that have finished; a
      build without the device has a timer that writes the time;
    - the list macros of [src/server/queue.h]; the server keeps its connections
      in a list made with the SLIST ones;
    - small programs: [src/examples/systemcalls/systemcalls.c] (fork and
      exec), [src/examples/threading/threading.c] (threads on a mutex),
      [src/finder-app/writer.c], and [src/examples/autotest-validate/] with
      its test in [src/student-test/].

    ** How the code is modelled

    A C function is a computation of the monad [M S A] below: it reads and
    changes a state [S] and ends with a result, in a [fault] (what C leaves
    undefined, a panic, and waiting for a mutex nobody will release) or not at
    all.
    [wp m F Q s] says that [m] run from [s] ends, in a result that satisfies
    [Q] or in a fault that satisfies [F]; [safe] allows no fault.  So every
    [wp] is a statement of total correctness.  Integers are [Z] with their
    wrap-around written out ([u64], [s32], ...).  [goto] targets are local
    functions; out parameters are components of the result.

    A system call of the driver is finer: a tree ([prog]) of atomic statements,
    each a computation of [M] on the shared memory, and of uses of the device's
    mutex.  Other threads may move in front of each of them; [run] executes the
    tree without other threads.  The server's threads are cut in pieces the same
    way, at their locks, lines and reads of the socket ([thread_step]).

    ** The files

    Shared: [Prelude] (this file: machine integers, list lemmas, the monad and
    its rules, tactics) and [Memory] (pointers, heaps as finite maps with an
    ownership predicate [heap_is], byte arrays).

    The driver:
    - [CircularBuffer]: [aesd_circular_buffer_init], [.._add_entry],
      [.._find_entry_offset_for_fpos] and the [FOREACH] macro over the record
      of the C struct; the invariant [cb_wf]; the queue a buffer stands for
      ([queue]); the search as a function on sizes ([locate]).
    - [DeviceSpec]: the contract of the device: [adev] is a list of at most ten
      lines and a pending line, with [awrite], [aread] and [aseekto].
    - [Kernel]: the services of the kernel the driver calls.  What they answer
      is a parameter (class [Kernel]), indexed by the number of calls made so
      far; what their documentation promises is [KernelLaws]; a kernel that
      refuses nothing is [KernelReliable].  [sample_kernel] is an instance
      with chosen refusals.
    - [Steps]: [prog], the trees of atomic statements, and [run_with], what
      they do when nobody else moves.
    - [CharDriver]: the functions of [main.c], each in full: [aesd_read],
      [aesd_write] (its loop is [write_lines], the part under the mutex
      [write_locked], the labels [write_release] and [write_out]),
      [aesd_llseek], [aesd_adjust_file_offset], [aesd_ioctl], and module
      init and exit.
    - [CharDriverSpec]: what every call may answer and do to the abstract
      device, on each of its branches ([performs]), and sequences of such
      calls ([history]).
    - [RelyGuarantee]: trees run among other threads.  A [role] says what a
      thread relies on and guarantees; [rg] is its triple, with a rule for each
      kind of statement.
    - [CharDriverInv]: [driver_repr s a leaks] says that the driver state [s]
      holds the abstract device [a], that the mutex is free, and that the heap
      is exactly the blocks of the lines, of the pending line and of the
      entry structures lost so far; [dev_ok] is what holds while calls are
      being made; the roles of a [reader] and of the [writer].
    - [CharDriverWrite], [CharDriverRead], [CharDriverSeek],
      [CharDriverModule]: each function, among other threads, does what
      [CharDriverSpec] says at one moment of the call; alone it preserves
      [driver_repr].  The states reachable by system calls ([reachable]).
    - [CharDriverClient]: a reliable kernel; loops of writes and of reads.
    - [CharDriverThreads]: any number of threads that make system calls one
      after the other, under a schedule ([run_turns]).  [OneWriter]: the
      invariant of such a system when one thread writes.
      [CharDriverConcurrency]: its theorems, and two writers.
    - [CharDriverProperties]: the driver's other theorems and concrete runs.
    - [CharDriverTypes]: what the fields of a reachable device can hold.

    The server:
    - [FileOps]: what the server needs of its file, a class [FileOps] of
      operations and a class [LogFile] of their laws: the file holds a log of
      lines, and a write appends to it.
    - [CharDriverFile]: [aesd_open], [aesd_release] and the system calls on an
      open device; the instance of [LogFile] the driver gives, a log of ten
      lines.  [RegularFile]: the instance of a regular file, which keeps
      everything.
    - [Schedules]: systems of threads, whatever their steps are: what every
      turn keeps ([run_schedule_inv]), where fair schedules end ([rounds_end]),
      and when the steps of a thread alone are a function ([steps_as]).
    - [CString]: [strchr], [strncmp], [sscanf] and the seek command as text.
    - [Server]: [write_buffer] and [handle_client_connection] over a scripted
      socket and any [FileOps] ([send_file] is the loop that returns the file,
      [handle_line] what is done with a line, [handle_next] a turn of the loop
      over lines, [handle_lines] that loop, [receive] and [start_packet] the
      parts of the outer loop in front of it, [connection_loop] the outer loop).
    - [ServerSpec]: what a packet does ([serve_lines]) and that the thread does
      it.  [ServerProperties]: the theorems.  [ServerOnDriver]: the server on
      the driver, without the interface in between.
    - [ServerClients]: several connection threads over one file and one lock
      ([server], [client]); [thread_step] is [handle_client_connection] cut
      where another thread can come in between, [run_threads] runs a schedule.
      [ServerParts]: what the parts of the thread leave alone ([keeps]), and
      mutual exclusion for sockets that do anything ([exclusive]).
    - [ServerSerial]: the sequential server ([serve_next], one whole packet of
      one client), how large the contents become (class [LogBound]) and the
      simulation between it and the schedules; [ServerSerialProperties]: the
      theorems for every schedule, and for clients on the driver.
      [ServerStuck]: the threads once [file_lock] is never released again.
    - [Calendar]: [localtime] and [strftime] as the timer uses them.  [Timer]:
      [timer], over the same shared state as the connection threads.
      [ServerTimer]: the thread cut at its locks ([timer_step]), its turns
      between those of the clients ([run_site]), and the theorems about all of
      them on one file; the timer is a client of the sequential server whose
      packets are the timestamps.  The thread tests [should_exit] in front of
      each turn; a run that ends while it sleeps has no more times for it.
    - [Slist]: the SLIST macros over nodes in a heap, generic in the node type
      (class [SListEntry]), with the list predicate [slist], programs of
      insertions and removals, and the traversal rules of the loops.
    - [Queue]: memory for the other macros, in which the address of a link is a
      value ([link]: of a head or of an element), with the lemmas on splicing,
      back links and last links; the checks of a build with INVARIANTS; loops;
      lists as programs of edits see them.
      [ListMacros], [TailQueue], [SinglyTailQueue]: the LIST, TAILQ and STAILQ
      macros with their list predicates [blist], [tailq] and [stailq].
    - [Connections]: the list of connections, [mark_all_threads_complete] and
      [collect_complete_threads].
    - [ServerMain]: [parseArgs], the start of [main] with [deamonize], one turn
      of the accepting loop ([accept_client]), [cleanUpAndExit], the signal
      handler.  [ServerLoop]: [main] as a whole, over a list of events (a
      client connects, a client finishes, a signal), and what a stopped server
      leaves behind.
    - [ServerSystem]: everything together: the main thread cut at
      [pthread_create], its lock and its collection ([main_turn]), the
      connection threads, the timer and signals, each handled by any thread
      ([signal_turn]), under a schedule ([run_system]); [should_exit] is one
      variable, which every thread finds in the process ([shared]).  [ServerSystemInv]: its invariant ([main_ok],
      [threads_ok]) and the steps that end the process ([ends_at]);
      [ServerSystemProperties]: the theorems, from the start of the process.

    The programs: [SystemCalls], [Threading], [Writer], [Autotest].

    ** What the theorems show

    - Driver, all kernels: every call implements the contract or fails as the
      code says, no sequence of calls corrupts memory or keeps the mutex, and
      the only fault is the [NULL] dereference behind an unchecked [kmalloc].
    - Driver, reliable kernel: what is read is the last ten lines written,
      however the bytes are cut into writes and reads; after unloading, one
      entry structure per line is still allocated.
    - Driver, concurrency: with one writing thread and any number of others,
      under every schedule of statements, the calls are linearizable.
    - Driver, defects: two writers can free twice, overflow or duplicate the
      pending line; an interrupted write loses it; a refused seek moves the
      position; the seek command accepts positions outside the line.
    - Driver, types: entries are zeroed or point to different live allocations
      of exactly their size, indices address slots, sizes do not overflow.
    - Server: a client gets what [serve_packets] says for every pattern of
      short writes; on the driver, the last ten lines after each line.
    - Server, many clients: whatever the sockets do, at most one thread is
      between lock and unlock, the lock is held then, and only this thread
      changes the file.  With clients that behave (no read error but [EAGAIN],
      no failing send) the packets take effect one after the other under every
      schedule, and under a fair one every client is served; on the driver all
      clients see one log.
    - Server, whole, with clients that behave: for every schedule of all its
      threads and signals, what holds until a step ends the process, which steps
      do, and how.
    - Server, timer: every line fits its buffer, is complete and is written
      under the lock; in the build for a regular file, clients and timer under
      a fair schedule see one log of all lines and timestamps.
    - Server, defects: a failed send leaves [file_lock] held, and no schedule
      serves a packet after that; a read error stores in front of the buffer;
      a line in two packets loses its start;
      [collect_complete_threads] is safe only when it has nothing to collect,
      so that the server ends with the first client or signal after a client
      has finished, also in the system of all its threads, where a client that
      is gone before its connection is listed ends it at once;
      a signal may deadlock the exit; the exit leaves the listening socket
      open, removes the device node and cancels the timer thread, which the
      default build does not have.
    - Lists: for SLIST, LIST, TAILQ and STAILQ any program of insertions and
      removals does what it does to a list, and the SAFE loops may free what
      they visit.  With INVARIANTS no check panics in such a program, and a
      check panics whenever the links it looks at disagree.
    - Programs: when [do_exec] is true and what it leaks, mutual exclusion
      and termination of the threads, and what [writer] reports.

    ** Bounds

    Loops have a bound ([fuel]) and end with [Diverge] when it is used up.
    [find_fuel] is 11, one more than the slots; [write_lines] gets one more
    turn than bytes and every turn consumes a byte; list walks get one more
    turn than allocated nodes.  The loops of the server and of a reader get a
    bound as an argument, and the theorems say what is enough: the lengths of
    the contents, of the packets and of the script, and the 1024 bytes of a
    buffer.  With several clients the contents are at most [size_max]: on
    the device [content_max], ten lines of a packet's size, on a regular file
    what is there and what will be written; a thread makes at most 1030 steps for each
    packet ([steps_left]), the timer four for each tick and one more
    ([timer_left]), and a fair schedule gives every thread that many turns.
    The timer's buffer of 64 bytes takes a line of at most [max_stamp] = 37.

    ** What is not modelled

    Log output; device numbers; the VFS but for the position and the sign of
    results; [fcntl], [usleep], [sleep] and [fdatasync] of the server; the
    branches behind a failing mutex; [umask] and [chdir].  In [ServerLoop] a
    turn of the accepting loop is one step; in [ServerSystem] it is four.  A
    signal handler is one step: what other threads do between its
    [should_exit = 1] and [exit] is left out, and a handler in a thread that
    would wait for [connections_lock] is not begun.  Those theorems about
    several clients that say that they are served assume clients that behave;
    failing sends and read errors are in the model, in the theorems about one
    client, in those on mutual exclusion and in [ServerStuck].  The traces of
    QUEUE_MACRO_DEBUG, shell scripts, build files and the test submodule are
    left out. *)

From Stdlib Require Import ZArith Lia.
From stdpp Require Export base list list_numbers numbers option fin_maps gmap sets.

#[global] Set Default Goal Selector "!".

Declare Scope aesd_scope.
Delimit Scope aesd_scope with aesd.

(** ** Machine integers

    A C integer is a [Z] in the range of its type; the conversions below write
    out what a conversion to that type does.  Unsigned conversions reduce
    modulo [2^w]; signed ones pick the representative in [[-2^(w-1), 2^(w-1))]
    (what gcc and the kernel's [-fno-strict-overflow] do). *)

Definition u_wrap (w x : Z) : Z := (x `mod` 2 ^ w)%Z.

Definition s_wrap (w x : Z) : Z :=
  let y := (x `mod` 2 ^ w)%Z in
  if decide (y < 2 ^ (w - 1))%Z then y else (y - 2 ^ w)%Z.

Definition u8 : Z → Z := u_wrap 8.
Definition u16 : Z → Z := u_wrap 16.
Definition u32 : Z → Z := u_wrap 32.
Definition u64 : Z → Z := u_wrap 64.
Definition s32 : Z → Z := s_wrap 32.
Definition s64 : Z → Z := s_wrap 64.

(** Bytes are the values of an [unsigned char]. *)
Abbreviation byte := Z (only parsing).

Section machine_integers.
Open Scope Z_scope.
Implicit Types w x y : Z.

Lemma u_wrap_small w x : 0 ≤ x < 2 ^ w → u_wrap w x = x.
Proof. intros. by apply Z.mod_small. Qed.

Lemma u_wrap_range w x : 0 ≤ w → 0 ≤ u_wrap w x < 2 ^ w.
Proof. intros. apply Z.mod_pos_bound. by apply Z.pow_pos_nonneg. Qed.

Lemma u_wrap_idemp w x : u_wrap w (u_wrap w x) = u_wrap w x.
Proof. apply Zmod_mod. Qed.

Lemma s_wrap_small w x :
  0 < w → - 2 ^ (w - 1) ≤ x < 2 ^ (w - 1) → s_wrap w x = x.
Proof.
  intros Hw Hx. unfold s_wrap.
  assert (2 ^ w = 2 * 2 ^ (w - 1)) as E.
  { rewrite <-Z.pow_succ_r by lia. f_equal; lia. }
  destruct (decide (0 ≤ x)).
  - rewrite Z.mod_small by lia. case_decide; lia.
  - rewrite <-(Z.mod_add x 1), Z.mod_small by lia. case_decide; lia.
Qed.

Lemma s_wrap_range w x :
  0 < w → - 2 ^ (w - 1) ≤ s_wrap w x < 2 ^ (w - 1).
Proof.
  intros Hw. unfold s_wrap.
  assert (2 ^ w = 2 * 2 ^ (w - 1)) as E.
  { rewrite <-Z.pow_succ_r by lia. f_equal; lia. }
  assert (0 < 2 ^ (w - 1)) by (apply Z.pow_pos_nonneg; lia).
  pose proof (Z.mod_pos_bound x (2 ^ w) ltac:(lia)).
  case_decide; lia.
Qed.

Lemma u64_small x : 0 ≤ x < 2 ^ 64 → u64 x = x.
Proof. apply u_wrap_small. Qed.
Lemma u32_small x : 0 ≤ x < 2 ^ 32 → u32 x = x.
Proof. apply u_wrap_small. Qed.
Lemma u8_small x : 0 ≤ x < 2 ^ 8 → u8 x = x.
Proof. apply u_wrap_small. Qed.
Lemma s64_small x : - 2 ^ 63 ≤ x < 2 ^ 63 → s64 x = x.
Proof. intros. by apply (s_wrap_small _ x). Qed.
Lemma s32_small x : - 2 ^ 31 ≤ x < 2 ^ 31 → s32 x = x.
Proof. intros. by apply (s_wrap_small _ x). Qed.

Lemma u64_s64 x : u64 (s64 x) = u64 x.
Proof.
  unfold u64, u_wrap, s64, s_wrap. case_decide.
  - apply Zmod_mod.
  - rewrite <-(Z.mod_add _ 1) by done.
    replace (x `mod` 2 ^ 64 - 2 ^ 64 + 1 * 2 ^ 64) with (x `mod` 2 ^ 64) by lia.
    apply Zmod_mod.
Qed.
End machine_integers.

(** Arithmetic goals with [mod] and [/] by a constant. *)
Ltac zmod_lia := Z.div_mod_to_equations; lia.

Ltac wrap_small :=
  repeat first [ rewrite u64_small by lia | rewrite s64_small by lia
               | rewrite u32_small by lia | rewrite s32_small by lia
               | rewrite u8_small by lia ].

(** ** List lemmas shared by the components *)

(** The last [n] elements of a list. *)
Definition lastn {A} (n : nat) (l : list A) : list A := drop (length l - n) l.

Fixpoint sum_list_Z (l : list Z) : Z :=
  match l with [] => 0%Z | x :: l => (x + sum_list_Z l)%Z end.

Section lists.
Context {A B : Type}.
Implicit Types l k : list A.

Lemma length_lastn n l : length (lastn n l) = n `min` length l.
Proof. unfold lastn. rewrite length_drop. lia. Qed.

Lemma lastn_all n l : length l ≤ n → lastn n l = l.
Proof. intros. unfold lastn. replace (length l - n) with 0 by lia. done. Qed.

Lemma lastn_app_lastn n l k : lastn n (lastn n l ++ k) = lastn n (l ++ k).
Proof.
  destruct (decide (length l ≤ n)); [by rewrite (lastn_all n l)|].
  unfold lastn. rewrite !length_app, length_drop, !drop_app, drop_drop.
  rewrite length_drop. f_equal; f_equal; lia.
Qed.

Lemma fmap_lastn (f : A → B) n l : f <$> lastn n l = lastn n (f <$> l).
Proof. unfold lastn. by rewrite length_fmap, fmap_drop. Qed.

Lemma lastn_suffix n l : lastn n l `suffix_of` l.
Proof. exists (take (length l - n) l). unfold lastn. by rewrite take_drop. Qed.

Lemma lastn_snoc_elem n l x : 0 < n → x ∈ lastn n (l ++ [x]).
Proof.
  intros Hn. unfold lastn. rewrite length_app. simpl.
  rewrite drop_app_le by lia. set_solver.
Qed.

Lemma Forall_lastn (P : A → Prop) n l : Forall P l → Forall P (lastn n l).
Proof. apply Forall_drop. Qed.
End lists.

Lemma sum_list_Z_app l k : sum_list_Z (l ++ k) = (sum_list_Z l + sum_list_Z k)%Z.
Proof. induction l as [|x l IH]; simpl; [done|]. rewrite IH. lia. Qed.

Lemma sum_list_Z_zeros n : sum_list_Z (replicate n 0%Z) = 0%Z.
Proof. by induction n. Qed.

#[export] Instance sum_list_Z_proper : Proper ((≡ₚ) ==> (=)) sum_list_Z.
Proof. induction 1; simpl; lia. Qed.

Lemma sum_list_Z_length_concat {A} (ls : list (list A)) :
  sum_list_Z ((λ l, Z.of_nat (length l)) <$> ls) = Z.of_nat (length (concat ls)).
Proof.
  induction ls as [|l ls IH]; csimpl; [done|]. rewrite IH, length_app. lia.
Qed.

(** ** Stateful computations that can go wrong

    [Fault] is undefined behaviour or a kernel oops (the program has no
    meaning from there on), [Diverge] a loop that does not end within its
    fuel.  Every specification of the library is total: it allows a fault only
    when it says which, and never allows [Diverge]. *)

Inductive fault :=
  | NullDeref | UseAfterFree | BadFree | OutOfBounds | Deadlock | BadUnlock | Panic | NoSuchThread.

#[export] Instance fault_eq_dec : EqDecision fault.
Proof. solve_decision. Defined.

Inductive outcome (S A : Type) :=
  | Ok (a : A) (s : S)
  | Fault (f : fault)
  | Diverge.
Arguments Ok {S A} a s.
Arguments Fault {S A} f.
Arguments Diverge {S A}.

Definition M (S A : Type) : Type := S → outcome S A.

#[export] Instance M_ret {S} : MRet (M S) := λ A a s, Ok a s.
#[export] Instance M_bind {S} : MBind (M S) := λ A B k m s,
  match m s with
  | Ok a s' => k a s'
  | Fault f => Fault f
  | Diverge => Diverge
  end.

Definition fail {S A} (f : fault) : M S A := λ _, Fault f.
Definition diverge {S A} : M S A := λ _, Diverge.
Definition gets {S A} (g : S → A) : M S A := λ s, Ok (g s) s.
Definition modify {S} (g : S → S) : M S () := λ s, Ok () (g s).

(** A lookup in an array or a heap: [None] is the fault [f]. *)
Definition lift {S A} (f : fault) (o : option A) : M S A :=
  match o with Some a => mret a | None => fail f end.

Create HintDb wp.
Create HintDb aesd.

(** Total-correctness weakest precondition: [m], run from [s], ends with a
    result in [Q] or with a fault in [F]. *)
Definition wp {S A} (m : M S A) (F : fault → Prop) (Q : A → S → Prop) (s : S) : Prop :=
  match m s with
  | Ok a s' => Q a s'
  | Fault f => F f
  | Diverge => False
  end.

(** No fault at all. *)
Abbreviation safe := (λ _ : fault, False).

Section wp.
Context {S : Type}.
Implicit Types (F : fault → Prop) (s : S).

Lemma wp_ret {A} (a : A) F (Q : A → S → Prop) s : Q a s → wp (mret a) F Q s.
Proof. done. Qed.

Lemma wp_bind {A B} (m : M S A) (k : A → M S B) F (Q : B → S → Prop) s :
  wp m F (λ a, wp (k a) F Q) s → wp (m ≫= k) F Q s.
Proof. unfold wp, mbind, M_bind. by destruct (m s). Qed.

Lemma wp_mono {A} (m : M S A) F F' (Q Q' : A → S → Prop) s :
  wp m F Q s → (∀ f, F f → F' f) → (∀ a s', Q a s' → Q' a s') → wp m F' Q' s.
Proof. unfold wp. destruct (m s); naive_solver. Qed.

Lemma wp_gets {A} (g : S → A) F (Q : A → S → Prop) s :
  Q (g s) s → wp (gets g) F Q s.
Proof. done. Qed.

Lemma wp_modify (g : S → S) F (Q : () → S → Prop) s :
  Q () (g s) → wp (modify g) F Q s.
Proof. done. Qed.

Lemma wp_lift {A} f (o : option A) (a : A) F (Q : A → S → Prop) s :
  o = Some a → Q a s → wp (lift f o) F Q s.
Proof. by intros ->. Qed.

Lemma bind_Ok {A B} (m : M S A) (k : A → M S B) s a s' :
  m s = Ok a s' → (m ≫= k) s = k a s'.
Proof. unfold mbind, M_bind. by intros ->. Qed.

Lemma bind_inv {A B} (m : M S A) (k : A → M S B) s b s' :
  (m ≫= k) s = Ok b s' → ∃ a s1, m s = Ok a s1 ∧ k a s1 = Ok b s'.
Proof. unfold mbind, M_bind. destruct (m s); naive_solver. Qed.

(** Reading a specification back as an equation on the run. *)
Lemma wp_safe_inv {A} (m : M S A) (Q : A → S → Prop) s :
  wp m safe Q s → ∃ a s', m s = Ok a s' ∧ Q a s'.
Proof. unfold wp. destruct (m s); naive_solver. Qed.
Lemma wp_fault_inv {A} (m : M S A) f s :
  wp m (λ g, g = f) (λ _ _, False) s → m s = Fault f.
Proof. unfold wp. destruct (m s); naive_solver. Qed.
End wp.

#[export] Hint Resolve wp_ret wp_gets wp_modify : wp.

(** One structural step of a weakest precondition. *)
Ltac wp_step :=
  lazymatch goal with
  | |- wp (_ ≫= _) _ _ _ => apply wp_bind
  | |- wp (mret _) _ _ _ => apply wp_ret
  | |- wp (gets _) _ _ _ => apply wp_gets
  | |- wp (modify _) _ _ _ => apply wp_modify
  | |- wp (lift _ (Some _)) _ _ _ => eapply wp_lift; [reflexivity|]
  end.

Ltac wp_steps := repeat (wp_step; cbn beta).

(** Use the specification lemma [H] for the head call. *)
Tactic Notation "wp_apply" uconstr(H) := eapply wp_mono; [eapply H| |]; cbn beta.
