(* ===== verification/Memory.v ===== *)
(** * Pointers and heaps

    A pointer is [NULL] or a byte offset into an allocated block; a heap maps
    the locations of the live blocks to their contents, so a freed block is an
    absent key and a use after free is a failed lookup.  [heap_is h cells]
    says that the cells listed, at distinct locations, are the whole heap: it
    is the library's ownership predicate, and it is stable under permutation
    of the list, so that an operation's specification exposes the cell it
    touches by reordering. *)

From S2P Require Import Prelude.

Abbreviation loc := positive.

Inductive ptr :=
  | NULL
  | Ptr (l : loc) (off : Z).

#[export] Instance ptr_eq_dec : EqDecision ptr.
Proof. solve_decision. Defined.
#[export] Instance ptr_inhabited : Inhabited ptr := populate NULL.

(** [p + n], and [p - q] within one block (otherwise undefined in C). *)
Definition ptr_add (p : ptr) (n : Z) : ptr :=
  match p with NULL => NULL | Ptr l off => Ptr l (off + n) end.

Definition ptr_diff (p q : ptr) : option Z :=
  match p, q with
  | Ptr l o, Ptr l' o' => if decide (l = l') then Some (o - o')%Z else None
  | _, _ => None
  end.

(** The location a [free] of the pointer releases. *)
Definition ptr_base (p : ptr) : option loc :=
  match p with Ptr l o => if decide (o = 0%Z) then Some l else None | NULL => None end.

Section heap.
Context {B : Type}.
Implicit Types (h : gmap loc B) (cells : list (loc * B)) (l : loc) (b : B).

Definition heap_is h cells : Prop := NoDup cells.*1 ∧ h = list_to_map cells.

#[global] Instance heap_is_proper h : Proper ((≡ₚ) ==> iff) (heap_is h).
Proof.
  intros cells cells' HP. unfold heap_is. split; intros [Hnd ->].
  - split; [by rewrite <-HP|]. by apply list_to_map_proper.
  - split; [by rewrite HP|]. by apply list_to_map_proper.
Qed.

Lemma heap_is_nil : heap_is ∅ [].
Proof. split; [constructor|done]. Qed.

Lemma heap_is_lookup h cells l b : heap_is h cells → (l, b) ∈ cells → h !! l = Some b.
Proof. intros [Hnd ->] ?. by apply elem_of_list_to_map_1. Qed.

Lemma heap_is_lookup_cons h cells l b : heap_is h ((l, b) :: cells) → h !! l = Some b.
Proof. intros H. eapply heap_is_lookup; [done|]. left. Qed.

Lemma heap_is_alloc h cells l b :
  l ∉ dom h → heap_is h cells → heap_is (<[l := b]> h) ((l, b) :: cells).
Proof.
  intros Hl [Hnd ->]. split; [|done].
  csimpl. constructor; [|done]. intros Hin. apply Hl, elem_of_dom.
  apply list_elem_of_fmap in Hin as ([l' b'] & -> & Hin).
  exists b'. by apply elem_of_list_to_map_1.
Qed.

Lemma heap_is_free h cells l b :
  heap_is h ((l, b) :: cells) → heap_is (delete l h) cells.
Proof.
  intros [Hnd ->]. csimpl in *. apply NoDup_cons in Hnd as [Hl Hnd].
  split; [done|]. simpl. rewrite delete_insert_id; [done|].
  by apply not_elem_of_list_to_map_1.
Qed.

Lemma heap_is_update h cells l b b' :
  heap_is h ((l, b) :: cells) → heap_is (<[l := b']> h) ((l, b') :: cells).
Proof.
  intros [Hnd ->]. split; [done|]. simpl. by rewrite insert_insert_eq.
Qed.

Lemma heap_is_dom h cells : heap_is h cells → dom h = list_to_set cells.*1.
Proof. intros [_ ->]. apply dom_list_to_map_L. Qed.

Lemma heap_is_fresh h cells l b :
  l ∉ dom h → heap_is h cells → (l, b) ∉ cells.
Proof.
  intros Hl HH Hin. apply Hl, elem_of_dom. exists b. by eapply heap_is_lookup.
Qed.

Lemma heap_is_size h cells : heap_is h cells → size h = length cells.
Proof.
  intros [Hnd ->]. rewrite <-length_map_to_list.
  by rewrite map_to_list_to_map.
Qed.

(** Two descriptions of one heap list the same cells. *)
Lemma heap_is_perm h cells cells' :
  heap_is h cells → heap_is h cells' → cells ≡ₚ cells'.
Proof. intros [? ->] [? E]. by eapply (list_to_map_inj (M := gmap loc)). Qed.
End heap.

(** Find a known location among the cells, from the right of each append. *)
Ltac cell_in :=
  solve [ repeat first [ apply list_elem_of_here | apply list_elem_of_further
                       | apply elem_of_app; right ] ].

(** ** Byte blocks *)

(** [memcpy] into a block: the bytes from [off] on are replaced by [data];
    out of the block's range there is no result. *)
Definition bytes_store (bs : list byte) (off : Z) (data : list byte) : option (list byte) :=
  if decide (0 ≤ off ∧ off + Z.of_nat (length data) ≤ Z.of_nat (length bs))%Z then
    Some (take (Z.to_nat off) bs ++ data ++ drop (Z.to_nat off + length data) bs)
  else None.

Definition bytes_load (bs : list byte) (off n : Z) : option (list byte) :=
  if decide (0 ≤ off ∧ 0 ≤ n ∧ off + n ≤ Z.of_nat (length bs))%Z then
    Some (take (Z.to_nat n) (drop (Z.to_nat off) bs))
  else None.

(** Index of the first occurrence of a byte: what [memchr] and [strchr] scan for. *)
Definition index_of (c : byte) (bs : list byte) : option nat :=
  fst <$> list_find (λ x, x = c) bs.

Section bytes.
Implicit Types (bs pre data : list byte).

Lemma bytes_load_app pre bs off n :
  off = Z.of_nat (length pre) → n = Z.of_nat (length bs) →
  bytes_load (pre ++ bs) off n = Some bs.
Proof.
  intros -> ->. unfold bytes_load. rewrite decide_True by (rewrite length_app; lia).
  by rewrite !Nat2Z.id, drop_app_length, take_ge.
Qed.

Lemma bytes_load_middle pre bs post off n :
  off = Z.of_nat (length pre) → n = Z.of_nat (length bs) →
  bytes_load (pre ++ bs ++ post) off n = Some bs.
Proof.
  intros -> ->. unfold bytes_load. rewrite decide_True by (rewrite !length_app; lia).
  by rewrite !Nat2Z.id, drop_app_length, take_app_length.
Qed.

Lemma bytes_store_app pre mid post data off :
  off = Z.of_nat (length pre) → length mid = length data →
  bytes_store (pre ++ mid ++ post) off data = Some (pre ++ data ++ post).
Proof.
  intros -> Hl. unfold bytes_store.
  rewrite decide_True by (rewrite !length_app; lia).
  rewrite Nat2Z.id, take_app_length, <-Hl.
  by rewrite (assoc_L (++) pre mid post), <-length_app, drop_app_length.
Qed.

Lemma bytes_load_prefix bs rest n :
  n = Z.of_nat (length bs) → bytes_load (bs ++ rest) 0 n = Some bs.
Proof.
  intros ->. unfold bytes_load. rewrite decide_True by (rewrite length_app; lia).
  by rewrite Nat2Z.id, drop_0, take_app_length.
Qed.

Lemma index_of_cons c x bs :
  index_of c (x :: bs) = if decide (x = c) then Some 0 else S <$> index_of c bs.
Proof.
  unfold index_of. simpl. case_decide; [done|].
  by destruct (list_find _ bs) as [[i y]|].
Qed.

Lemma index_of_None c bs : index_of c bs = None ↔ c ∉ bs.
Proof.
  unfold index_of. rewrite fmap_None, list_find_None, Forall_forall. naive_solver.
Qed.

Lemma index_of_app_l c bs bs' : c ∉ bs → index_of c (bs ++ (c :: bs')) = Some (length bs).
Proof.
  intros Hc. unfold index_of.
  assert (list_find (λ x, x = c) bs = None) as E.
  { apply list_find_None, Forall_forall. naive_solver. }
  rewrite list_find_app_r by done. simpl. rewrite decide_True by done.
  done.
Qed.

Lemma index_of_Some c bs i :
  index_of c bs = Some i →
  bs = take i bs ++ (c :: drop (S i) bs) ∧ (c ∉ take i bs) ∧ i < length bs.
Proof.
  unfold index_of. intros Hi. apply fmap_Some in Hi as ([j x] & Hf & ->). simpl.
  apply list_find_Some in Hf as (Hl & -> & Hlt). split_and!.
  - symmetry. by apply take_drop_middle.
  - intros Hin. apply list_elem_of_lookup in Hin as [k Hk].
    apply lookup_take_Some in Hk as [Hk ?]. by eapply Hlt.
  - by eapply lookup_lt_Some.
Qed.
End bytes.
