(* ===== verification/CircularBuffer.v ===== *)
(** * The circular buffer ([aesd-char-driver/aesd-circular-buffer.{h,c}])

    The record and the three functions of the C file, as computations over the
    buffer; then the queue a well-formed buffer stands for, and the proof that
    the functions implement a bounded FIFO queue with an offset search. *)

From S2P Require Import Prelude Memory.

Definition AESDCHAR_MAX_WRITE_OPERATIONS_SUPPORTED : Z := 10.
Abbreviation MAX_OPS := AESDCHAR_MAX_WRITE_OPERATIONS_SUPPORTED.
Abbreviation max_ops := (Z.to_nat MAX_OPS).

(** [lia] with the constant unfolded. *)
Ltac cb_lia := unfold AESDCHAR_MAX_WRITE_OPERATIONS_SUPPORTED in *; lia.
Ltac zcb_lia := unfold AESDCHAR_MAX_WRITE_OPERATIONS_SUPPORTED in *; zmod_lia.

(** [size] is a [size_t]; the offsets are [uint8_t]. *)
Record aesd_buffer_entry := mk_entry { buffptr : ptr; esize : Z }.

Record aesd_circular_buffer := mk_buffer {
  entry : list aesd_buffer_entry;
  in_offs : Z;
  out_offs : Z;
  full : bool }.

#[export] Instance aesd_buffer_entry_eq_dec : EqDecision aesd_buffer_entry.
Proof. solve_decision. Defined.

(** What [memset(.., 0, ..)] leaves in an entry. *)
Definition null_entry : aesd_buffer_entry := mk_entry NULL 0.
#[export] Instance entry_inhabited : Inhabited aesd_buffer_entry := populate null_entry.

Definition set_entry (es : list aesd_buffer_entry) (b : aesd_circular_buffer) :=
  mk_buffer es (in_offs b) (out_offs b) (full b).
Definition set_in_offs (i : Z) (b : aesd_circular_buffer) :=
  mk_buffer (entry b) i (out_offs b) (full b).
Definition set_out_offs (o : Z) (b : aesd_circular_buffer) :=
  mk_buffer (entry b) (in_offs b) o (full b).
Definition set_full (f : bool) (b : aesd_circular_buffer) :=
  mk_buffer (entry b) (in_offs b) (out_offs b) f.

(** [buffer->entry[i]], read and written; [i >= 10] is out of the array. *)
Definition load_entry (i : Z) : M aesd_circular_buffer aesd_buffer_entry :=
  b ← gets id; lift OutOfBounds (entry b !! Z.to_nat i).

Definition store_entry (i : Z) (e : aesd_buffer_entry) : M aesd_circular_buffer () :=
  b ← gets id;
  if decide (Z.to_nat i < length (entry b)) then
    modify (set_entry (<[Z.to_nat i := e]> (entry b)))
  else fail OutOfBounds.

(** One evaluation of [buffer->full && count-- > 0]: the decrement happens only
    when the left operand holds, and wraps at [uint8_t]. *)
Definition full_and_count (b : aesd_circular_buffer) (count : Z) : bool * Z :=
  if full b then (bool_decide (0 < count)%Z, u8 (count - 1)) else (false, count).

(** The loop of [find]; the result is the index in [entry] and the value stored
    through [entry_offset_byte_rtn], or [None] for the [NULL] return. *)
Fixpoint find_loop (fuel : nat) (char_offset count offset : Z) :
    M aesd_circular_buffer (option (Z * Z)) :=
  match fuel with
  | O => diverge
  | S fuel =>
     b ← gets id;
     let '(taken, count) := full_and_count b count in
     if bool_decide (0 ≤ char_offset)%Z && (taken || bool_decide (offset ≠ in_offs b)) then
       e ← load_entry offset;
       if decide (char_offset < esize e)%Z then mret (Some (offset, char_offset))
       else
         find_loop fuel (u64 (char_offset - esize e)) count
           ((offset + 1) `mod` MAX_OPS)
     else mret None
  end.

(** Ten entries and the final test: the loop of a well-formed buffer ends in at
    most eleven evaluations of its condition. *)
Definition find_fuel : nat := 11.

Definition aesd_circular_buffer_find_entry_offset_for_fpos (char_offset : Z) :
    M aesd_circular_buffer (option (Z * Z)) :=
  out ← gets out_offs;
  find_loop find_fuel char_offset MAX_OPS out.

Definition aesd_circular_buffer_add_entry (add_entry : aesd_buffer_entry) :
    M aesd_circular_buffer ptr :=
  b ← gets id;
  garbage ← (if full b then e ← load_entry (in_offs b); mret (buffptr e)
             else mret NULL);
  store_entry (in_offs b) add_entry;;
  modify (λ b, set_in_offs ((in_offs b + 1) `mod` MAX_OPS) b);;
  b ← gets id;
  if full b then
    modify (λ b, set_out_offs ((out_offs b + 1) `mod` MAX_OPS) b);;
    mret garbage
  else if decide (in_offs b = out_offs b) then
    modify (set_full true);;
    mret NULL
  else mret NULL.

(** [memset] of the whole struct. *)
Definition aesd_circular_buffer_init : M aesd_circular_buffer () :=
  modify (λ _, mk_buffer (replicate max_ops null_entry) 0 0 false).

(** [AESD_CIRCULAR_BUFFER_FOREACH]: the body runs on each of the ten slots in
    index order. *)
Definition AESD_CIRCULAR_BUFFER_FOREACH {S} (body : Z → M S ()) : M S () :=
  foldr (λ i k, body (Z.of_nat i);; k) (mret ()) (seq 0 max_ops).

(** ** The queue a buffer stands for *)

(** The invariant.  [full] never goes back to false, so that the slots of a
    buffer that is not full yet are filled from index 0 and the others are
    still zero; this is what lets [aesd_llseek] sum all ten sizes. *)
Record cb_wf (b : aesd_circular_buffer) : Prop := {
  wf_len : length (entry b) = max_ops;
  wf_in : (0 ≤ in_offs b < MAX_OPS)%Z;
  wf_out : (0 ≤ out_offs b < MAX_OPS)%Z;
  wf_full : full b = true → in_offs b = out_offs b;
  wf_not_full : full b = false →
    out_offs b = 0%Z ∧ drop (Z.to_nat (in_offs b)) (entry b)
                       = replicate (max_ops - Z.to_nat (in_offs b)) null_entry }.

(** Oldest entry first. *)
Definition queue (b : aesd_circular_buffer) : list aesd_buffer_entry :=
  if full b then rotate (Z.to_nat (out_offs b)) (entry b)
  else take (Z.to_nat (in_offs b)) (entry b).

(** The specification of the search: skip whole entries, oldest first. *)
Fixpoint locate (sizes : list Z) (off : Z) : option (nat * Z) :=
  match sizes with
  | [] => None
  | s :: sizes =>
     if decide (off < s)%Z then Some (0, off)
     else prod_map S id <$> locate sizes (off - s)
  end.

(** The specification of the insertion: a queue of at most ten entries, whose
    oldest entry is returned when there is no room. *)
Definition push (q : list aesd_buffer_entry) (e : aesd_buffer_entry) :
    list aesd_buffer_entry * ptr :=
  if decide (length q < max_ops) then (q ++ [e], NULL)
  else (tail q ++ [e], from_option buffptr NULL (head q)).

Section queue.
Implicit Types (b : aesd_circular_buffer) (e : aesd_buffer_entry).

Lemma queue_full b : full b = true → queue b = rotate (Z.to_nat (out_offs b)) (entry b).
Proof. unfold queue. by intros ->. Qed.

Lemma queue_not_full b : full b = false → queue b = take (Z.to_nat (in_offs b)) (entry b).
Proof. unfold queue. by intros ->. Qed.

Lemma length_queue b :
  cb_wf b → length (queue b) = if full b then max_ops else Z.to_nat (in_offs b).
Proof.
  intros [Hl Hi Ho _ _]. unfold queue. destruct (full b).
  - by rewrite length_rotate.
  - rewrite length_take, Hl. lia.
Qed.

Lemma length_queue_le b : cb_wf b → length (queue b) ≤ max_ops.
Proof. intros H. rewrite length_queue by done. destruct H, (full b); lia. Qed.

(** The slot of the [k]-th oldest entry. *)
Lemma queue_lookup b k :
  cb_wf b → k < length (queue b) →
  queue b !! k = entry b !! Z.to_nat ((out_offs b + Z.of_nat k) `mod` MAX_OPS).
Proof.
  intros Hwf Hk. rewrite length_queue in Hk by done. destruct Hwf as [Hl Hi Ho Hf Hnf].
  unfold queue. destruct (full b).
  - rewrite lookup_rotate_r by (rewrite Hl; done).
    unfold rotate_nat_add. rewrite Hl, !Z2Nat.id by lia. done.
  - destruct (Hnf eq_refl) as [-> _]. rewrite lookup_take_lt by done.
    rewrite Z.add_0_l, Z.mod_small by lia. by rewrite Nat2Z.id.
Qed.

(** Past the end of the queue the slots hold null entries. *)
Lemma slot_lookup_total b k :
  cb_wf b → k < max_ops →
  entry b !! Z.to_nat ((out_offs b + Z.of_nat k) `mod` MAX_OPS)
  = Some (default null_entry (queue b !! k)).
Proof.
  intros Hwf Hk. destruct (decide (k < length (queue b))) as [Hlt|Hge].
  - destruct (lookup_lt_is_Some_2 _ _ Hlt) as [e He].
    by rewrite <-queue_lookup, He by done.
  - rewrite (lookup_ge_None_2 (queue b)) by lia. rewrite length_queue in Hge by done.
    destruct Hwf as [Hl Hi Ho Hf Hnf]. destruct (full b); [lia|].
    destruct (Hnf eq_refl) as [-> Hz]. rewrite Z.add_0_l, Z.mod_small by cb_lia.
    rewrite Nat2Z.id. replace k with (Z.to_nat (in_offs b) + (k - Z.to_nat (in_offs b))) by lia.
    rewrite <-lookup_drop, Hz, lookup_replicate_2 by lia. done.
Qed.

(** Every slot outside the queue is zero: the ten slots and the queue have
    the same entries up to order and null entries. *)
Lemma entry_queue_perm b :
  cb_wf b → entry b ≡ₚ queue b ++ replicate (max_ops - length (queue b)) null_entry.
Proof.
  intros Hwf. rewrite (length_queue b) by done. unfold queue.
  destruct Hwf as [Hl Hi Ho Hf Hnf]. destruct (full b).
  - rewrite Nat.sub_diag, app_nil_r. unfold rotate.
    rewrite Permutation_app_comm. by rewrite take_drop.
  - destruct (Hnf eq_refl) as [_ <-]. by rewrite take_drop.
Qed.

Lemma sum_sizes_queue b :
  cb_wf b → sum_list_Z (esize <$> entry b) = sum_list_Z (esize <$> queue b).
Proof.
  intros Hwf. rewrite (entry_queue_perm b Hwf), fmap_app, sum_list_Z_app.
  rewrite fmap_replicate. simpl (esize null_entry). rewrite sum_list_Z_zeros. lia.
Qed.

Lemma cb_init_wf : cb_wf (mk_buffer (replicate max_ops null_entry) 0 0 false).
Proof. split; done || (simpl; lia). Qed.

Lemma init_spec b :
  wp aesd_circular_buffer_init safe (λ _ b', cb_wf b' ∧ queue b' = []) b.
Proof. split; [apply cb_init_wf|done]. Qed.
End queue.

(** ** Insertion *)

Section add_entry.
Implicit Types (b : aesd_circular_buffer) (e : aesd_buffer_entry).

(** [mod 10] of a successor of an offset. *)
Lemma succ_mod i :
  (0 ≤ i < MAX_OPS)%Z →
  ((i + 1) `mod` MAX_OPS)%Z = if decide (i = 9)%Z then 0%Z else (i + 1)%Z.
Proof. intros. case_decide; [by subst|]. apply Z.mod_small. cb_lia. Qed.

Lemma rotate_insert_succ {A} (l : list A) (o : nat) (x : A) :
  o < length l →
  rotate (if decide (S o = length l) then 0 else S o) (<[o := x]> l)
  = tail (rotate o l) ++ [x].
Proof.
  intros Ho. destruct (lookup_lt_is_Some_2 l o Ho) as [y Hy].
  unfold rotate. rewrite length_insert, (Nat.mod_small o) by done.
  rewrite (drop_S l y) by done. simpl.
  rewrite insert_take_drop by done. case_decide as E.
  - rewrite Nat.Div0.mod_0_l. rewrite E, !drop_all. simpl. by rewrite app_nil_r.
  - rewrite Nat.mod_small by lia.
    rewrite drop_app_ge, take_app_ge; rewrite length_take_le by lia; [|lia..].
    replace (S o - o) with 1 by lia. simpl. by rewrite take_0, (assoc_L (++)).
Qed.

Lemma add_entry_full b e :
  cb_wf b → full b = true →
  aesd_circular_buffer_add_entry e b
  = Ok (from_option buffptr NULL (head (queue b)))
       (mk_buffer (<[Z.to_nat (in_offs b) := e]> (entry b))
          ((in_offs b + 1) `mod` MAX_OPS) ((out_offs b + 1) `mod` MAX_OPS) true).
Proof.
  intros Hwf Hfull. pose proof (queue_lookup b 0 Hwf) as Hq.
  rewrite length_queue in Hq by done. rewrite Hfull in Hq.
  destruct Hwf as [Hl Hi Ho Hf Hnf], b as [es i o f]; simpl in *; subst f.
  rewrite Z.add_0_r, Z.mod_small in Hq by done. rewrite <-(Hf eq_refl) in *.
  assert (Z.to_nat i < length es) as Hlt by lia.
  destruct (lookup_lt_is_Some_2 es _ Hlt) as [old Hold].
  rewrite head_lookup, Hq, Hold by cb_lia.
  unfold aesd_circular_buffer_add_entry, load_entry, store_entry.
  cbv [mbind M_bind gets]; simpl. rewrite Hold. simpl.
  by rewrite decide_True.
Qed.

Lemma add_entry_not_full b e :
  cb_wf b → full b = false →
  aesd_circular_buffer_add_entry e b
  = Ok NULL
       (mk_buffer (<[Z.to_nat (in_offs b) := e]> (entry b))
          ((in_offs b + 1) `mod` MAX_OPS) 0 (bool_decide (in_offs b = 9)%Z)).
Proof.
  intros [Hl Hi Ho Hf Hnf] Hfull. destruct b as [es i o f]; simpl in *; subst f.
  destruct (Hnf eq_refl) as [-> _].
  unfold aesd_circular_buffer_add_entry, load_entry, store_entry.
  cbv [mbind M_bind gets]; simpl. rewrite decide_True by cb_lia. simpl.
  rewrite succ_mod by done. case_bool_decide; subst; simpl; [done|].
  by repeat (case_decide; try lia).
Qed.

(** The slots behind the insertion point stay zero. *)
Lemma insert_not_full es i e :
  (0 ≤ i < MAX_OPS)%Z → length es = max_ops →
  drop (S (Z.to_nat i)) (<[Z.to_nat i := e]> es) = drop (S (Z.to_nat i)) es ∧
  take (S (Z.to_nat i)) (<[Z.to_nat i := e]> es) = take (Z.to_nat i) es ++ [e].
Proof.
  intros Hi Hl. split; [apply drop_insert_lt; lia|].
  rewrite insert_take_drop, take_app_ge; rewrite ?length_take_le by cb_lia; [|cb_lia..].
  by replace (S (Z.to_nat i) - Z.to_nat i) with 1 by lia.
Qed.

Lemma add_entry_spec b e :
  cb_wf b →
  wp (aesd_circular_buffer_add_entry e) safe
    (λ r b', cb_wf b' ∧ (queue b', r) = push (queue b) e) b.
Proof.
  intros Hwf. unfold wp, push. rewrite length_queue by done.
  destruct (full b) eqn:Hfull.
  - rewrite add_entry_full by done. rewrite decide_False by lia.
    destruct Hwf as [Hl Hi Ho Hf Hnf]. split.
    + pose proof (Z.mod_pos_bound (in_offs b + 1) MAX_OPS).
      pose proof (Z.mod_pos_bound (out_offs b + 1) MAX_OPS).
      split; simpl; rewrite ?length_insert; try (done || cb_lia).
      intros _. by rewrite (Hf Hfull).
    + f_equal. rewrite (queue_full b) by done. unfold queue; simpl.
      rewrite <-rotate_insert_succ by cb_lia. rewrite (Hf Hfull).
      rewrite succ_mod by done. rewrite Hl. f_equal.
      repeat case_decide; cb_lia.
  - rewrite add_entry_not_full by done.
    rewrite (queue_not_full b) by done.
    destruct Hwf as [Hl Hi Ho Hf Hnf]. destruct (Hnf Hfull) as [Hout Hz].
    destruct (insert_not_full (entry b) (in_offs b) e Hi Hl) as [Hd Ht].
    rewrite decide_True by cb_lia. unfold queue; simpl.
    rewrite succ_mod by done. case_bool_decide as E.
    + rewrite decide_True by done. rewrite E in *. split.
      * split; simpl; rewrite ?length_insert; done || cb_lia.
      * f_equal. rewrite <-Ht. unfold rotate. rewrite length_insert, Hl.
        rewrite (take_ge _ (S _)) by (by rewrite length_insert, Hl).
        apply app_nil_r.
    + rewrite decide_False by done. split.
      * split; simpl; rewrite ?length_insert; try (done || cb_lia).
        intros _. split; [done|].
        replace (Z.to_nat (in_offs b + 1)) with (S (Z.to_nat (in_offs b))) by lia.
        rewrite Hd. rewrite <-Nat.add_1_r, <-drop_drop, Hz, drop_replicate.
        f_equal. lia.
      * f_equal. rewrite <-Ht. f_equal. lia.
Qed.

(** In one equation: the queue keeps the last ten entries. *)
Lemma push_lastn q e : length q ≤ max_ops → (push q e).1 = lastn max_ops (q ++ [e]).
Proof.
  intros Hq. unfold push. change max_ops with 10 in *. case_decide as Hlt; simpl.
  - rewrite lastn_all; [done|]. rewrite length_app. simpl. lia.
  - unfold lastn. rewrite length_app. destruct q as [|x q]; simpl in *; [lia|].
    replace (length q + 1 - 9) with 1 by lia. simpl. by rewrite drop_0.
Qed.
End add_entry.

(** ** Search *)

Section find.
Implicit Types (b : aesd_circular_buffer) (e : aesd_buffer_entry).

(** The index in [entry] of a position in the queue. *)
Definition slot b (k : nat) : Z := ((out_offs b + Z.of_nat k) `mod` MAX_OPS)%Z.

Lemma slot_S b k : ((slot b k + 1) `mod` MAX_OPS)%Z = slot b (S k).
Proof. unfold slot. rewrite Zplus_mod_idemp_l. f_equal. lia. Qed.

(** What the loop carries in [count] after [k] entries. *)
Definition count_after b (k : nat) : Z :=
  if full b then (MAX_OPS - Z.of_nat k)%Z else MAX_OPS.

(** The loop condition holds exactly while entries are left. *)
Lemma find_guard b k :
  cb_wf b → k ≤ length (queue b) →
  let '(taken, count) := full_and_count b (count_after b k) in
  taken || bool_decide (slot b k ≠ in_offs b) = bool_decide (k < length (queue b)) ∧
  (k < length (queue b) → count = count_after b (S k)).
Proof.
  intros Hwf Hk. rewrite length_queue in * by done.
  destruct Hwf as [Hl Hi Ho Hf Hnf]. unfold full_and_count, count_after, slot.
  destruct (full b).
  - rewrite Hf by done. split; [|intros; rewrite u8_small; cb_lia].
    repeat case_bool_decide; try done; exfalso; cb_lia || zcb_lia.
  - destruct (Hnf eq_refl) as [-> _]. rewrite Z.add_0_l, Z.mod_small by cb_lia.
    split; [|done]. repeat case_bool_decide; done || lia.
Qed.

Lemma locate_cons s sizes off :
  locate (s :: sizes) off =
    if decide (off < s)%Z then Some (0, off)
    else prod_map S id <$> locate sizes (off - s).
Proof. done. Qed.

Lemma find_loop_spec b fuel k off :
  cb_wf b → Forall (λ e, 0 ≤ esize e)%Z (queue b) →
  k ≤ length (queue b) → length (queue b) - k < fuel → (0 ≤ off < 2 ^ 64)%Z →
  find_loop fuel off (count_after b k) (slot b k) b
  = Ok (prod_map (λ i, slot b (k + i)) id <$>
          locate (esize <$> drop k (queue b)) off) b.
Proof.
  intros Hwf Hpos. revert k off.
  induction fuel as [|fuel IH]; intros k off Hk Hfuel Hoff; [lia|].
  pose proof (find_guard b k Hwf Hk) as Hg. cbn [find_loop].
  cbv [mbind M_bind gets id]. destruct (full_and_count _ _) as [taken count].
  destruct Hg as [-> Hcount]. rewrite (bool_decide_true (0 ≤ off)%Z) by lia. simpl.
  case_bool_decide as Hlt; cycle 1.
  { rewrite drop_ge by lia. done. }
  destruct (lookup_lt_is_Some_2 _ _ Hlt) as [e He]. rewrite (drop_S _ e) by done.
  rewrite queue_lookup in He by done. unfold load_entry, slot.
  cbv [mbind M_bind gets id]. rewrite He. cbn [lift mret M_ret].
  assert (0 ≤ esize e)%Z.
  { rewrite <-queue_lookup in He by done. by eapply Forall_lookup_1 in Hpos. }
  rewrite fmap_cons, locate_cons. case_decide.
  - cbn. unfold slot. by rewrite Nat.add_0_r.
  - rewrite Hcount by done. fold (slot b k). rewrite slot_S, u64_small by lia.
    rewrite IH by lia. f_equal. rewrite <-option_fmap_compose.
    apply option_fmap_ext. intros [i o]. cbn. by rewrite Nat.add_succ_r.
Qed.

(** The search is [locate] on the queue of sizes, for every offset and every
    well-formed buffer; [find_fuel] is enough and no slot is out of range. *)
Lemma find_spec b off :
  cb_wf b → Forall (λ e, 0 ≤ esize e)%Z (queue b) → (0 ≤ off < 2 ^ 64)%Z →
  aesd_circular_buffer_find_entry_offset_for_fpos off b
  = Ok (prod_map (slot b) id <$> locate (esize <$> queue b) off) b.
Proof.
  intros Hwf Hpos Hoff. pose proof (length_queue_le b Hwf).
  pose proof (find_loop_spec b find_fuel 0 off) as Hl.
  unfold aesd_circular_buffer_find_entry_offset_for_fpos. cbv [mbind M_bind gets].
  etransitivity; [|apply Hl; done || (unfold find_fuel; cb_lia)].
  unfold count_after, slot. rewrite Z.add_0_r, Z.sub_0_r, Z.mod_small.
  - by destruct (full b).
  - by destruct Hwf.
Qed.
End find.

(** ** The search specification against the concatenated contents *)

Section locate.
Context {A : Type}.
Implicit Types (ls : list (list A)).

Abbreviation sizes := (fmap (λ l, Z.of_nat (length l))).

Lemma locate_Some ls off i o :
  (0 ≤ off)%Z → locate (sizes ls) off = Some (i, o) →
  ∃ l, ls !! i = Some l ∧ (0 ≤ o < Z.of_nat (length l))%Z ∧
       off = (Z.of_nat (length (concat (take i ls))) + o)%Z.
Proof.
  revert off i. induction ls as [|l ls IH]; intros off i Hoff; [done|].
  rewrite fmap_cons, locate_cons. case_decide.
  - intros [= <- <-]. exists l. simpl. split; [done|lia].
  - intros Hf. apply fmap_Some in Hf as ([i' o'] & Hloc & [= -> ->]).
    apply IH in Hloc as (l' & ? & ? & E); [|lia].
    exists l'. split; [done|]. split; [done|].
    cbn [take concat]. rewrite length_app. unfold id. lia.
Qed.

Lemma locate_None ls off :
  (0 ≤ off)%Z → locate (sizes ls) off = None →
  (Z.of_nat (length (concat ls)) ≤ off)%Z.
Proof.
  revert off. induction ls as [|l ls IH]; intros off Hoff; [done|].
  rewrite fmap_cons, locate_cons. case_decide; [done|].
  intros Hf. apply fmap_None in Hf. apply IH in Hf; [|lia].
  cbn [concat]. rewrite length_app. lia.
Qed.

(** The rest of the located entry is where the contents continue. *)
Lemma locate_drop ls off i o l :
  (0 ≤ off)%Z → locate (sizes ls) off = Some (i, o) → ls !! i = Some l →
  drop (Z.to_nat off) (concat ls)
  = drop (Z.to_nat o) l ++ concat (drop (S i) ls).
Proof.
  intros Hoff Hloc Hl. destruct (locate_Some _ _ _ _ Hoff Hloc) as (l' & Hl' & Ho & ->).
  simplify_eq. clear Hloc. rewrite <-(take_drop_middle ls i l) at 2 by done.
  rewrite concat_app. cbn [concat].
  rewrite Z2Nat.inj_add, Nat2Z.id by lia.
  rewrite <-drop_drop, drop_app_length, drop_app_le by lia. done.
Qed.
End locate.

(** ** The component's theorems *)

(** Insertions in sequence, with what each returned. *)
Fixpoint add_entries (es : list aesd_buffer_entry) : M aesd_circular_buffer (list ptr) :=
  match es with
  | [] => mret []
  | e :: es =>
     garbage ← aesd_circular_buffer_add_entry e;
     rest ← add_entries es;
     mret (garbage :: rest)
  end.

(** The first insertions return [NULL] while there is room. *)
Definition evictions (q es : list aesd_buffer_entry) : list ptr :=
  take (length es) (replicate (max_ops - length q) NULL ++ (buffptr <$> q ++ es)).

Lemma push_evictions q e es :
  length q ≤ max_ops → evictions q (e :: es) = (push q e).2 :: evictions (push q e).1 es.
Proof.
  intros Hq. unfold evictions, push. case_decide as Hlt; cbn [fst snd].
  - replace (max_ops - length q) with (S (max_ops - S (length q))) by lia.
    rewrite length_app. simpl length. rewrite Nat.add_1_r, <-(assoc_L (++)). done.
  - replace (max_ops - length q) with 0 by lia. destruct q as [|x q]; [by destruct Hlt; simpl; cb_lia|].
    simpl length in *. rewrite length_app. simpl length.
    replace (max_ops - _) with 0 by lia. by rewrite <-(assoc_L (++)).
Qed.

Lemma add_entries_spec es b :
  cb_wf b →
  wp (add_entries es) safe
    (λ r b', cb_wf b' ∧ queue b' = lastn max_ops (queue b ++ es) ∧ r = evictions (queue b) es) b.
Proof.
  revert b. induction es as [|e es IH]; intros b Hb; simpl.
  { wp_steps. pose proof (length_queue_le b Hb). by rewrite app_nil_r, lastn_all. }
  wp_step. wp_apply add_entry_spec; [done|done|]. intros g b1 [Hb1 Hq].
  pose proof (length_queue_le b Hb) as Hlen.
  wp_step. wp_apply IH; [done|done|]. intros r b2 (Hb2 & Hq2 & ->). wp_steps.
  split; [done|]. rewrite push_evictions, <-Hq by done. cbn [fst snd].
  split; [|done]. rewrite Hq2. replace (queue b1) with (push (queue b) e).1 by (by rewrite <-Hq).
  rewrite push_lastn, lastn_app_lastn, <-(assoc_L (++)) by done. done.
Qed.

(** The search specification in terms of sums of sizes. *)
Lemma locate_sum sizes off :
  Forall (λ n, 0 ≤ n)%Z sizes → (0 ≤ off)%Z →
  match locate sizes off with
  | Some (k, o) => ∃ n, sizes !! k = Some n ∧ (0 ≤ o < n)%Z ∧
                        off = (sum_list_Z (take k sizes) + o)%Z
  | None => (sum_list_Z sizes ≤ off)%Z
  end.
Proof.
  intros Hs. revert off. induction Hs as [|n sizes Hn Hs IH]; intros off Ho; simpl; [done|].
  case_decide; [by exists n|]. specialize (IH (off - n)%Z ltac:(lia)).
  destruct (locate sizes (off - n)) as [[k o]|]; simpl; [|lia].
  destruct IH as (n' & ? & ? & Hoff). exists n'. simpl. split_and!; [done|lia..].
Qed.

(** C13: an initialised buffer is a queue of at most ten entries: after any
    insertions it holds the last ten in order, and what the insertions
    returned for the caller to free are the buffers of the older ones, oldest
    first, after a [NULL] for each of the first ten. *)
Theorem buffer_keeps_last_ten es b :
  ∃ b', (aesd_circular_buffer_init;; add_entries es) b
        = Ok (take (length es) (replicate 10 NULL ++ (buffptr <$> es))) b' ∧
        cb_wf b' ∧ queue b' = lastn 10 es.
Proof.
  pose proof (init_spec b) as Hw. apply wp_safe_inv in Hw as ([] & b0 & Hrun & Hb0 & Hq0).
  pose proof (add_entries_spec es b0 Hb0) as Hw. apply wp_safe_inv in Hw as (r & b1 & Hrun1 & Hb1 & Hq & ->).
  exists b1. rewrite (bind_Ok _ _ _ _ _ Hrun), Hrun1, Hq. unfold evictions. by rewrite Hq0.
Qed.

(** C14: on a well-formed buffer, for every offset of a [size_t], the search ends
    within its bound, changes nothing, and finds the entry and the byte in it
    that the offset falls on when the entries are laid end to end, oldest
    first; it returns [NULL] exactly for the offsets past their total size. *)
Theorem find_entry_offset_correct b off :
  cb_wf b → Forall (λ e, 0 ≤ esize e)%Z (queue b) → (0 ≤ off < 2 ^ 64)%Z →
  wp (aesd_circular_buffer_find_entry_offset_for_fpos off) safe
    (λ r b', b' = b ∧
       match r with
       | Some (i, o) =>
          ∃ k e, queue b !! k = Some e ∧ entry b !! Z.to_nat i = Some e ∧
            (0 ≤ o < esize e)%Z ∧ off = (sum_list_Z (esize <$> take k (queue b)) + o)%Z
       | None => (sum_list_Z (esize <$> queue b) ≤ off)%Z
       end) b.
Proof.
  intros Hb Hs Ho. unfold wp. rewrite find_spec by done. split; [done|].
  pose proof (locate_sum (esize <$> queue b) off) as Hloc.
  rewrite Forall_fmap in Hloc. specialize (Hloc Hs ltac:(lia)).
  destruct (locate _ _) as [[k o]|]; simpl; [|done]. destruct Hloc as (n & Hn & Hr & Hoff).
  rewrite list_lookup_fmap in Hn. destruct (queue b !! k) as [e|] eqn:He; simplify_eq/=.
  exists k, e. rewrite fmap_take. split_and!; try lia; [done|].
  apply lookup_lt_Some in He as Hk. unfold slot. by rewrite <-queue_lookup.
Qed.

(** A buffer that went once around. *)
Definition sample_buffer : aesd_circular_buffer :=
  mk_buffer ((λ n, mk_entry (Ptr (Pos.of_nat n) 0) 3) <$> seq 1 10) 4 4 true.

Lemma sample_buffer_wf : cb_wf sample_buffer.
Proof. split; done. Qed.

Lemma find_entry_offset_correct_witness :
  wp (aesd_circular_buffer_find_entry_offset_for_fpos 20) safe
    (λ r _, r ≠ None) sample_buffer.
Proof.
  eapply wp_mono; [apply (find_entry_offset_correct _ 20 sample_buffer_wf)|done|].
  - repeat constructor; vm_compute; done.
  - lia.
  - intros [x|] b' [_ Hr]; [done|]. vm_compute in Hr. done.
Defined.
