(* ===== verification/DeviceSpec.v ===== *)
(** * What the character device promises

    The abstract device is the list of the complete lines it keeps (at most
    ten, oldest first) and the bytes of a line that has not ended yet.  The
    operations below are the contract of [aesd_write], [aesd_read] and the two
    seeks; [CharDriver*.v] prove that the driver implements them. *)

From S2P Require Import Prelude Memory CircularBuffer.

Definition newline : byte := 10%Z.

(** ** Lines *)

(** The complete lines of a byte string, each with its newline, and the rest. *)
Fixpoint split_lines (bs : list byte) : list (list byte) * list byte :=
  match bs with
  | [] => ([], [])
  | c :: bs =>
     let '(ls, r) := split_lines bs in
     if decide (c = newline) then ([c] :: ls, r)
     else match ls with
          | [] => ([], c :: r)
          | l :: ls => ((c :: l) :: ls, r)
          end
  end.

Definition is_line (l : list byte) : Prop :=
  ∃ body, l = body ++ [newline] ∧ newline ∉ body.

Section lines.
Implicit Types (bs l r : list byte) (ls : list (list byte)).

Lemma split_lines_no_newline r : newline ∉ r → split_lines r = ([], r).
Proof.
  induction r as [|c r IH]; [done|]. rewrite not_elem_of_cons. intros [? ?].
  simpl. rewrite IH, decide_False by done. done.
Qed.

Lemma split_lines_cons_line l bs :
  is_line l → split_lines (l ++ bs) = (l :: (split_lines bs).1, (split_lines bs).2).
Proof.
  intros (body & -> & Hb). rewrite <-(assoc_L (++)). simpl.
  induction body as [|c body IH]; simpl.
  - by destruct (split_lines bs).
  - apply not_elem_of_cons in Hb as [? ?]. rewrite IH by done. simpl.
    by rewrite decide_False by done.
Qed.

(** [split_lines] is characterised by its three properties. *)
Lemma split_lines_unique ls r :
  Forall is_line ls → newline ∉ r → split_lines (concat ls ++ r) = (ls, r).
Proof.
  intros Hls Hr. induction Hls as [|l ls Hl Hls IH]; simpl.
  - by apply split_lines_no_newline.
  - rewrite <-(assoc_L (++)), split_lines_cons_line, IH by done. done.
Qed.

Lemma split_lines_spec bs :
  bs = concat (split_lines bs).1 ++ (split_lines bs).2
  ∧ Forall is_line (split_lines bs).1 ∧ newline ∉ (split_lines bs).2.
Proof.
  induction bs as [|c bs IH]; simpl.
  { split_and!; [done|constructor|apply not_elem_of_nil]. }
  destruct (split_lines bs) as [ls r]; simpl in *. destruct IH as (-> & Hls & Hr).
  case_decide as Hc; simpl.
  - split_and!; [done| |done]. constructor; [|done]. exists []. subst c.
    split; [done|apply not_elem_of_nil].
  - destruct ls as [|l ls]; simpl.
    + split_and!; [done|constructor|]. apply not_elem_of_cons. by split; [congruence|].
    + apply Forall_cons_1 in Hls as [(body & -> & Hb) Hls].
      split_and!; [by rewrite <-(assoc_L (++))| |done]. constructor; [|done].
      exists (c :: body). split; [done|]. apply not_elem_of_cons. split; [congruence|done].
Qed.

Lemma split_lines_inv bs ls r :
  split_lines bs = (ls, r) → bs = concat ls ++ r ∧ Forall is_line ls ∧ newline ∉ r.
Proof. intros E. pose proof (split_lines_spec bs) as H. by rewrite E in H. Qed.

Lemma split_lines_app bs bs' :
  split_lines (bs ++ bs')
  = ((split_lines bs).1 ++ (split_lines ((split_lines bs).2 ++ bs')).1,
     (split_lines ((split_lines bs).2 ++ bs')).2).
Proof.
  destruct (split_lines bs) as [ls r] eqn:E. simpl.
  destruct (split_lines (r ++ bs')) as [ls' r'] eqn:E'. simpl.
  apply split_lines_inv in E as (-> & Hls & Hr).
  apply split_lines_inv in E' as (E' & Hls' & Hr').
  rewrite <-(assoc_L (++)), E', (assoc_L (++)), <-concat_app.
  apply split_lines_unique; [|done]. by apply Forall_app.
Qed.

(** One turn of a loop that scans for the next newline. *)
Lemma split_lines_index bs :
  match index_of newline bs with
  | None => split_lines bs = ([], bs)
  | Some i =>
     i < length bs ∧ is_line (take (S i) bs) ∧
     split_lines bs = (take (S i) bs :: (split_lines (drop (S i) bs)).1,
                       (split_lines (drop (S i) bs)).2)
  end.
Proof.
  destruct (index_of newline bs) as [i|] eqn:E.
  - apply index_of_Some in E as (E & Hn & Hi).
    assert (is_line (take (S i) bs)) as Hline.
    { exists (take i bs). split; [|done]. apply take_S_r. rewrite E.
      rewrite lookup_app_r; rewrite length_take_le by lia; [|lia].
      by rewrite Nat.sub_diag. }
    split_and!; [done..|]. rewrite <-(split_lines_cons_line _ _ Hline).
    by rewrite take_drop.
  - apply index_of_None in E. by apply split_lines_no_newline.
Qed.

Lemma is_line_length l : is_line l → 0 < length l.
Proof. intros (body & -> & _). rewrite length_app. simpl. lia. Qed.
End lines.

#[export] Hint Resolve is_line_length : aesd.

(** ** The abstract device *)

Record adev := ADev { alines : list (list byte); apart : list byte }.

Definition adev_empty : adev := ADev [] [].

Record adev_wf (a : adev) : Prop := {
  awf_lines : Forall is_line (alines a);
  awf_count : length (alines a) ≤ max_ops;
  awf_part : newline ∉ apart a }.

Definition acontent (a : adev) : list byte := concat (alines a).

(** A write appends its bytes to the pending line, commits the lines that are
    complete and keeps the last ten. *)
Definition awrite (a : adev) (data : list byte) : adev :=
  ADev (lastn max_ops (alines a ++ (split_lines (apart a ++ data)).1))
       (split_lines (apart a ++ data)).2.

Abbreviation asizes a := ((λ l : list byte, Z.of_nat (length l)) <$> alines a).

(** A read returns bytes of one line only, from [pos] on. *)
Definition aread (a : adev) (pos count : Z) : list byte :=
  match locate (asizes a) pos with
  | Some (i, o) => take (Z.to_nat count) (drop (Z.to_nat o) (alines a !!! i))
  | None => []
  end.

(** A reader that reads until it gets 0 bytes. *)
Fixpoint aread_all (fuel : nat) (a : adev) (pos count : Z) : option (list byte) :=
  match fuel with
  | O => None
  | S fuel =>
     match aread a pos count with
     | [] => Some []
     | bs => (bs ++.) <$> aread_all fuel a (pos + Z.of_nat (length bs)) count
     end
  end.

(** The position of byte [off] of line [cmd]; [off] may be the line's length. *)
Definition aseekto (a : adev) (cmd off : Z) : option Z :=
  let len := from_option (λ l : list byte, Z.of_nat (length l)) 0%Z (alines a !! Z.to_nat cmd) in
  if decide (0 ≤ cmd < MAX_OPS ∧ off ≤ len)%Z then
    Some (Z.of_nat (length (concat (take (Z.to_nat cmd) (alines a)))) + off)%Z
  else None.

Section adev.
Implicit Types (a : adev) (data : list byte).

Lemma adev_empty_wf : adev_wf adev_empty.
Proof. split; simpl; [constructor|lia|apply not_elem_of_nil]. Qed.

Lemma awrite_wf a data : adev_wf a → adev_wf (awrite a data).
Proof.
  intros [Hl Hc Hp]. destruct (split_lines_spec (apart a ++ data)) as (_ & Hls & Hr).
  split; simpl; [|rewrite length_lastn; lia|done].
  apply Forall_lastn, Forall_app. done.
Qed.

(** Writing in two pieces is writing at once. *)
Lemma awrite_app a data data' :
  awrite (awrite a data) data' = awrite a (data ++ data').
Proof.
  unfold awrite. cbn [alines apart]. rewrite (assoc_L (++) (apart a)).
  rewrite (split_lines_app (apart a ++ data)). cbn [fst snd].
  by rewrite lastn_app_lastn, (assoc_L (++)).
Qed.

Lemma awrite_nil a : adev_wf a → awrite a [] = a.
Proof.
  intros [Hl Hc Hp]. unfold awrite. rewrite app_nil_r, split_lines_no_newline by done.
  cbn [fst snd]. rewrite app_nil_r, lastn_all by done. by destruct a.
Qed.

(** The kept contents are no longer than everything there was to keep. *)
Lemma acontent_awrite_length a data :
  length (acontent (awrite a data)) ≤ length (acontent a) + length (apart a ++ data).
Proof.
  pose proof (split_lines_spec (apart a ++ data)) as (Hsp & _).
  apply (f_equal length) in Hsp. rewrite (length_app (concat _)) in Hsp.
  unfold acontent, awrite. cbn [alines].
  destruct (lastn_suffix max_ops (alines a ++ (split_lines (apart a ++ data)).1)) as [pre Hpre].
  apply (f_equal (λ l, length (concat l))) in Hpre. rewrite !concat_app, !length_app in Hpre.
  lia.
Qed.

(** A whole line written to a device without a pending line. *)
Lemma awrite_line a l :
  apart a = [] → is_line l → awrite a l = ADev (lastn max_ops (alines a ++ [l])) [].
Proof.
  intros Ha Hl. unfold awrite. rewrite Ha. simpl.
  assert (split_lines l = ([l], [])) as -> by
    (rewrite <-(app_nil_r l) at 1; by rewrite split_lines_cons_line).
  done.
Qed.

Lemma aread_prefix a pos count :
  (0 ≤ pos)%Z → aread a pos count `prefix_of` drop (Z.to_nat pos) (acontent a).
Proof.
  intros Hpos. unfold aread, acontent.
  destruct (locate (asizes a) pos) as [[i o]|] eqn:E; [|apply prefix_nil].
  destruct (locate_Some _ _ _ _ Hpos E) as (l & Hl & _ & _).
  rewrite (locate_drop _ _ _ _ _ Hpos E Hl), (list_lookup_total_correct _ _ _ Hl).
  by apply prefix_app_r, prefix_take.
Qed.

(** A read makes progress until the end of the contents. *)
Lemma aread_nil a pos count :
  (0 ≤ pos)%Z → (0 < count)%Z →
  aread a pos count = [] → (Z.of_nat (length (acontent a)) ≤ pos)%Z.
Proof.
  intros Hpos Hcount. unfold aread.
  destruct (locate (asizes a) pos) as [[i o]|] eqn:E.
  - destruct (locate_Some _ _ _ _ Hpos E) as (l & Hl & Ho & _).
    rewrite (list_lookup_total_correct _ _ _ Hl).
    intros Hnil%(f_equal length). rewrite length_take, length_drop in Hnil.
    simpl in Hnil. lia.
  - intros _. by apply locate_None.
Qed.

(** A read inside the contents stays inside the line the position is in. *)
Lemma aread_line a pos count :
  (0 ≤ pos < Z.of_nat (length (acontent a)))%Z →
  ∃ i l o, alines a !! i = Some l ∧ (0 ≤ o < Z.of_nat (length l))%Z ∧
    pos = (Z.of_nat (length (concat (take i (alines a)))) + o)%Z ∧
    aread a pos count = take (Z.to_nat count) (drop (Z.to_nat o) l).
Proof.
  intros Hpos. unfold aread. destruct (locate (asizes a) pos) as [[i o]|] eqn:E.
  - destruct (locate_Some _ _ _ _ (proj1 Hpos) E) as (l & Hl & Ho & Heq).
    exists i, l, o. by rewrite (list_lookup_total_correct _ _ _ Hl).
  - apply locate_None in E; [|lia]. unfold acontent in Hpos. lia.
Qed.

Lemma aread_past_end a pos count :
  (Z.of_nat (length (acontent a)) ≤ pos)%Z → aread a pos count = [].
Proof.
  intros Hp. unfold aread. destruct (locate _ _) as [[i o]|] eqn:Hl; [|done].
  apply locate_Some in Hl as (l & Hli & Ho & Hpos); [|lia].
  apply take_drop_middle in Hli. unfold acontent in Hp. rewrite <-Hli in Hp.
  rewrite concat_app, length_app in Hp. simpl in Hp. rewrite length_app in Hp. lia.
Qed.

Lemma aread_all_correct a count fuel pos :
  (0 < count)%Z → (0 ≤ pos)%Z →
  length (acontent a) - Z.to_nat pos < fuel →
  aread_all fuel a pos count = Some (drop (Z.to_nat pos) (acontent a)).
Proof.
  intros Hcount. revert pos.
  induction fuel as [|fuel IH]; intros pos Hpos Hfuel; [lia|]. simpl.
  pose proof (aread_prefix a pos count Hpos) as [rest Hrest].
  destruct (aread a pos count) as [|c bs] eqn:E.
  - apply aread_nil in E; [|done..]. by rewrite drop_ge by lia.
  - assert (0 < length (acontent a) - Z.to_nat pos) as Hlt.
    { rewrite <-length_drop, Hrest. simpl. lia. }
    rewrite IH by (simpl; lia). simpl. f_equal.
    rewrite Z2Nat.inj_add, Nat2Z.id, <-drop_drop, Hrest by lia.
    simpl. by rewrite drop_app_length.
Qed.
End adev.
