(* ===== verification/Kernel.v ===== *)
(** * The kernel services the character driver calls

    The kernel is not part of the repository: what its services return is a
    parameter, the operations of the class [Kernel], indexed by the number of
    calls made so far so that every call may answer differently, and what
    their documentation promises is [KernelLaws].  The memory of the driver is
    modelled: the heap of live blocks, with loads, stores and frees that fault
    where C is undefined. *)

From S2P Require Import Prelude Memory CircularBuffer.

(** Error numbers of the kernel's uapi headers. *)
Definition EINTR : Z := 4.
Definition ENOMEM : Z := 12.
Definition EFAULT : Z := 14.
Definition EINVAL : Z := 22.
Definition ENOTTY : Z := 25.
Definition ERESTARTSYS : Z := 512.

Definition SEEK_SET : Z := 0.
Definition SEEK_CUR : Z := 1.
Definition SEEK_END : Z := 2.

Definition sizeof_aesd_buffer_entry : Z := 16.

Class Kernel := {
  (** the location [kmalloc] finds for a size, given the live blocks *)
  kmalloc_result : nat → gset loc → Z → option loc;
  (** what a block holds before it is written *)
  kmalloc_junk : nat → Z → list byte;
  kmalloc_junk_entry : nat → aesd_buffer_entry;
  KMALLOC_MAX_SIZE : Z;
  (** how many bytes [copy_from_user] / [copy_to_user] could not copy *)
  user_uncopied : nat → Z → Z;
  (** whether [mutex_lock_interruptible] returns because of a signal *)
  lock_interrupted : nat → bool;
  (** result for the file position, offset, whence and device size *)
  fixed_size_llseek : Z → Z → Z → Z → Z;
  _IOC_TYPE : Z → Z;
  _IOC_NR : Z → Z;
  _IOWR : Z → Z → Z → Z;
  alloc_chrdev_region_result : nat → Z;
  cdev_add_result : nat → Z }.

Class KernelLaws (K : Kernel) : Prop := {
  kmalloc_fresh t d n l : kmalloc_result t d n = Some l → l ∉ d;
  kmalloc_bound t d n l : kmalloc_result t d n = Some l → (n ≤ KMALLOC_MAX_SIZE)%Z;
  kmalloc_max : (KMALLOC_MAX_SIZE < 2 ^ 32)%Z;
  kmalloc_junk_length t n : (0 ≤ n)%Z → Z.of_nat (length (kmalloc_junk t n)) = n;
  user_uncopied_range t n : (0 ≤ n)%Z → (0 ≤ user_uncopied t n ≤ n)%Z;
  llseek_set pos off size :
    (0 ≤ off ≤ size)%Z → fixed_size_llseek pos off SEEK_SET size = off;
  llseek_set_range pos off size :
    (0 ≤ size)%Z → ¬ (0 ≤ off ≤ size)%Z →
    fixed_size_llseek pos off SEEK_SET size = (- EINVAL)%Z;
  llseek_cur pos off size :
    (0 ≤ pos + off ≤ size)%Z → fixed_size_llseek pos off SEEK_CUR size = (pos + off)%Z;
  llseek_end pos off size :
    (0 ≤ size + off ≤ size)%Z → fixed_size_llseek pos off SEEK_END size = (size + off)%Z;
  ioc_type_iowr t nr sz :
    (0 ≤ t < 256)%Z → (0 ≤ nr < 256)%Z → (0 ≤ sz < 2 ^ 14)%Z → _IOC_TYPE (_IOWR t nr sz) = t;
  ioc_nr_iowr t nr sz :
    (0 ≤ t < 256)%Z → (0 ≤ nr < 256)%Z → (0 ≤ sz < 2 ^ 14)%Z → _IOC_NR (_IOWR t nr sz) = nr }.

(** A block is a byte array or a [struct aesd_buffer_entry]. *)
Inductive block :=
  | Bytes (bs : list byte)
  | EntryBlk (e : aesd_buffer_entry).

(** The driver's memory, the number of kernel calls made, and the driver's
    global data [D]. *)
Record kstate (D : Type) := KS {
  kheap : gmap loc block;
  ktick : nat;
  kdev : D }.
Arguments KS {D} _ _ _.
Arguments kheap {D} _.
Arguments ktick {D} _.
Arguments kdev {D} _.

Section primitives.
Context `{K : Kernel} {D : Type}.
Abbreviation C := (M (kstate D)).

Definition set_heap (h : gmap loc block) (s : kstate D) := KS h (ktick s) (kdev s).
Definition set_dev (d : D) (s : kstate D) := KS (kheap s) (ktick s) d.

Definition tick : C nat :=
  t ← gets ktick; modify (λ s, KS (kheap s) (S t) (kdev s));; mret t.

Definition kread (p : ptr) (n : Z) : C (list byte) :=
  match p with
  | NULL => fail NullDeref
  | Ptr l off =>
     h ← gets kheap;
     match h !! l with
     | None => fail UseAfterFree
     | Some (Bytes bs) => lift OutOfBounds (bytes_load bs off n)
     | Some (EntryBlk _) => fail OutOfBounds
     end
  end.

Definition kwrite (p : ptr) (data : list byte) : C () :=
  match p with
  | NULL => fail NullDeref
  | Ptr l off =>
     h ← gets kheap;
     match h !! l with
     | None => fail UseAfterFree
     | Some (Bytes bs) =>
        bs ← lift OutOfBounds (bytes_store bs off data);
        modify (λ s, set_heap (<[l := Bytes bs]> (kheap s)) s)
     | Some (EntryBlk _) => fail OutOfBounds
     end
  end.

Definition kread_entry (p : ptr) : C aesd_buffer_entry :=
  match p with
  | NULL => fail NullDeref
  | Ptr l _ =>
     h ← gets kheap;
     match h !! l with
     | None => fail UseAfterFree
     | Some (EntryBlk e) => mret e
     | Some (Bytes _) => fail OutOfBounds
     end
  end.

Definition kwrite_entry (p : ptr) (f : aesd_buffer_entry → aesd_buffer_entry) : C () :=
  e ← kread_entry p;
  match p with
  | Ptr l _ => modify (λ s, set_heap (<[l := EntryBlk (f e)]> (kheap s)) s)
  | NULL => fail NullDeref
  end.

Definition kalloc_block (n : Z) (b : nat → block) : C ptr :=
  t ← tick;
  h ← gets kheap;
  match kmalloc_result t (dom h) n with
  | None => mret NULL
  | Some l => modify (λ s, set_heap (<[l := b t]> (kheap s)) s);; mret (Ptr l 0)
  end.

Definition kmalloc (n : Z) : C ptr := kalloc_block n (λ t, Bytes (kmalloc_junk t n)).
Definition kmalloc_entry : C ptr :=
  kalloc_block sizeof_aesd_buffer_entry (λ t, EntryBlk (kmalloc_junk_entry t)).

(** [kfree(NULL)] does nothing; [kfree] of anything but the start of a live
    block is a double free or a bad free. *)
Definition kfree_const (p : ptr) : C () :=
  match p with
  | NULL => mret ()
  | Ptr l off =>
     h ← gets kheap;
     if decide (off = 0%Z ∧ is_Some (h !! l)) then
       modify (λ s, set_heap (delete l (kheap s)) s)
     else fail BadFree
  end.

Definition memcpy (dst src : ptr) (n : Z) : C () :=
  bs ← kread src n; kwrite dst bs.

Definition memchr (p : ptr) (c : byte) (n : Z) : C ptr :=
  bs ← kread p n;
  mret (match index_of c bs with
        | None => NULL
        | Some i => ptr_add p (Z.of_nat i)
        end).

Definition kmemdup (src : ptr) (n : Z) : C ptr :=
  p ← kmalloc n;
  match p with
  | NULL => mret NULL
  | Ptr _ _ => memcpy p src n;; mret p
  end.

(** The bytes that could not be copied are zeroed in the kernel's buffer; the
    result is their number. *)
Definition copy_from_user (dst : ptr) (buf : list byte) (n : Z) : C Z :=
  t ← tick;
  let r := user_uncopied t n in
  kwrite dst (take (Z.to_nat (n - r)) buf ++ replicate (Z.to_nat r) 0%Z);;
  mret r.

(** The result is the number of bytes not copied and those that were. *)
Definition copy_to_user (src : ptr) (n : Z) : C (Z * list byte) :=
  bs ← kread src n;
  t ← tick;
  let r := user_uncopied t n in
  mret (r, take (Z.to_nat (n - r)) bs).
End primitives.

(** ** Specifications *)

(** The kernel refused an allocation of [n] bytes at some call. *)
Definition alloc_failed `{Kernel} (n : Z) : Prop := ∃ t d, kmalloc_result t d n = None.
Definition copy_failed `{Kernel} (n : Z) : Prop := ∃ t, user_uncopied t n ≠ 0%Z.
Definition lock_failed `{Kernel} : Prop := ∃ t, lock_interrupted t = true.

Section specs.
Context `{K : Kernel} {HK : KernelLaws K} {D : Type}.
Implicit Types (s : kstate D) (d : D) (cells : list (loc * block)) (F : fault → Prop).

(** The device's data and the whole heap. *)
Definition st s d cells : Prop := kdev s = d ∧ heap_is (kheap s) cells.

#[global] Instance st_proper s d : Proper ((≡ₚ) ==> iff) (st s d).
Proof. intros c c' Hc. unfold st. by rewrite Hc. Qed.

Lemma st_perm s d cells cells' : st s d cells → cells ≡ₚ cells' → st s d cells'.
Proof. by intros ? <-. Qed.

Lemma st_tick s d cells t : st s d cells → st (KS (kheap s) t (kdev s)) d cells.
Proof. done. Qed.

Lemma wp_tick s d cells F (Q : nat → kstate D → Prop) :
  st s d cells → (∀ t s', st s' d cells → Q t s') → wp tick F Q s.
Proof. intros Hs HQ. apply HQ. by apply st_tick. Qed.

Lemma wp_get_dev s d cells F (Q : D → kstate D → Prop) :
  st s d cells → Q d s → wp (gets kdev) F Q s.
Proof. intros [<- _]. done. Qed.

Lemma wp_set_dev s d cells F (Q : () → kstate D → Prop) (f : D → D) :
  st s d cells → (∀ s', st s' (f d) cells → Q () s') →
  wp (modify (λ s, set_dev (f (kdev s)) s)) F Q s.
Proof. intros [<- Hh] HQ. by apply HQ. Qed.

Lemma wp_kread s d cells l bs off n r F (Q : list byte → kstate D → Prop) :
  st s d cells → (l, Bytes bs) ∈ cells → bytes_load bs off n = Some r →
  Q r s → wp (kread (Ptr l off) n) F Q s.
Proof.
  intros [_ Hh] Hin Hr HQ. unfold kread. wp_steps.
  rewrite (heap_is_lookup _ _ _ _ Hh Hin), Hr. done.
Qed.

Lemma wp_kwrite s d cells cells' l bs bs' off data F (Q : () → kstate D → Prop) :
  st s d cells → cells ≡ₚ (l, Bytes bs) :: cells' → bytes_store bs off data = Some bs' →
  (∀ s', st s' d ((l, Bytes bs') :: cells') → Q () s') →
  wp (kwrite (Ptr l off) data) F Q s.
Proof.
  intros [Hd Hh] Hp Hst HQ. rewrite Hp in Hh. unfold kwrite. wp_steps.
  rewrite (heap_is_lookup_cons _ _ _ _ Hh). wp_steps. rewrite Hst. wp_steps.
  apply HQ. split; [done|]. by eapply heap_is_update.
Qed.

Lemma wp_kwrite_entry s d cells cells' l e f F (Q : () → kstate D → Prop) :
  st s d cells → cells ≡ₚ (l, EntryBlk e) :: cells' →
  (∀ s', st s' d ((l, EntryBlk (f e)) :: cells') → Q () s') →
  wp (kwrite_entry (Ptr l 0) f) F Q s.
Proof.
  intros [Hd Hh] Hp HQ. rewrite Hp in Hh. unfold kwrite_entry, kread_entry. wp_steps.
  rewrite (heap_is_lookup_cons _ _ _ _ Hh). wp_steps.
  apply HQ. split; [done|]. by eapply heap_is_update.
Qed.

Lemma wp_kread_entry s d cells l e F (Q : aesd_buffer_entry → kstate D → Prop) :
  st s d cells → (l, EntryBlk e) ∈ cells → Q e s → wp (kread_entry (Ptr l 0)) F Q s.
Proof.
  intros [Hd Hh] Hin HQ. unfold kread_entry. wp_steps.
  by rewrite (heap_is_lookup _ _ _ _ Hh Hin).
Qed.

Lemma wp_kalloc_block s d cells n b F (Q : ptr → kstate D → Prop) :
  st s d cells →
  (∀ s', alloc_failed n → st s' d cells → Q NULL s') →
  (∀ s' l t, (n ≤ KMALLOC_MAX_SIZE)%Z → st s' d ((l, b t) :: cells) → Q (Ptr l 0) s') →
  wp (kalloc_block n b) F Q s.
Proof.
  intros Hs HN HP. unfold kalloc_block. wp_step. eapply wp_tick; [done|].
  intros t s' Hs'. wp_steps. destruct (kmalloc_result _ _ _) as [l|] eqn:E.
  - wp_steps. eapply HP; [by eapply kmalloc_bound|]. destruct Hs' as [Hd Hh].
    split; [done|]. apply heap_is_alloc; [|done]. by eapply kmalloc_fresh.
  - wp_steps. apply HN; [|done]. by eexists _, _.
Qed.

Lemma wp_kmalloc s d cells n F (Q : ptr → kstate D → Prop) :
  st s d cells → (0 ≤ n)%Z →
  (∀ s', alloc_failed n → st s' d cells → Q NULL s') →
  (∀ s' l bs, Z.of_nat (length bs) = n → (n ≤ KMALLOC_MAX_SIZE)%Z →
     st s' d ((l, Bytes bs) :: cells) → Q (Ptr l 0) s') →
  wp (kmalloc n) F Q s.
Proof.
  intros Hs Hn HN HP. eapply wp_kalloc_block; [done..|].
  intros s' l t Hmax Hs'. eapply HP; [|done..]. by apply kmalloc_junk_length.
Qed.

Lemma wp_kfree s d cells cells' l b F (Q : () → kstate D → Prop) :
  st s d cells → cells ≡ₚ (l, b) :: cells' →
  (∀ s', st s' d cells' → Q () s') →
  wp (kfree_const (Ptr l 0)) F Q s.
Proof.
  intros [Hd Hh] Hp HQ. rewrite Hp in Hh. unfold kfree_const. wp_steps.
  rewrite decide_True by (rewrite (heap_is_lookup_cons _ _ _ _ Hh); eauto).
  wp_steps. apply HQ. split; [done|]. by eapply heap_is_free.
Qed.

Lemma wp_memcpy s d cells cells' l src bs bs' off off' n data F (Q : () → kstate D → Prop) :
  st s d cells →
  (src, Bytes data) ∈ cells → cells ≡ₚ (l, Bytes bs) :: cells' →
  ∀ r, bytes_load data off' n = Some r → bytes_store bs off r = Some bs' →
  (∀ s', st s' d ((l, Bytes bs') :: cells') → Q () s') →
  wp (memcpy (Ptr l off) (Ptr src off') n) F Q s.
Proof.
  intros Hs Hin Hp r Hr Hst HQ. unfold memcpy. wp_step.
  eapply wp_kread; [done..|]. by eapply wp_kwrite.
Qed.

Lemma wp_memchr s d cells l bs off n r c F (Q : ptr → kstate D → Prop) :
  st s d cells → (l, Bytes bs) ∈ cells → bytes_load bs off n = Some r →
  Q (match index_of c r with None => NULL | Some i => Ptr l (off + Z.of_nat i) end) s →
  wp (memchr (Ptr l off) c n) F Q s.
Proof.
  intros Hs Hin Hr HQ. unfold memchr. wp_step. eapply wp_kread; [done..|]. wp_steps.
  simpl in HQ. by destruct (index_of c r).
Qed.

Lemma wp_kmemdup s d cells l bs off n r F (Q : ptr → kstate D → Prop) :
  st s d cells → (l, Bytes bs) ∈ cells → bytes_load bs off n = Some r →
  (∀ s', alloc_failed n → st s' d cells → Q NULL s') →
  (∀ s' l', st s' d ((l', Bytes r) :: cells) → (n ≤ KMALLOC_MAX_SIZE)%Z → Q (Ptr l' 0) s') →
  wp (kmemdup (Ptr l off) n) F Q s.
Proof.
  intros Hs Hin Hr HN HP. unfold kmemdup. wp_step.
  assert (0 ≤ n ∧ Z.of_nat (length r) = n)%Z as [Hn Hlr].
  { unfold bytes_load in Hr. case_decide; simplify_eq.
    rewrite length_take, length_drop. lia. }
  eapply wp_kmalloc; [done..| |].
  { intros s' Hf Hs'. by apply HN. }
  intros s' l' junk Hlen Hmax Hs'. wp_step.
  eapply (wp_memcpy _ _ _ cells _ _ junk r); [done|by right|done|done| |].
  - pose proof (bytes_store_app [] junk [] r 0 eq_refl) as Hb.
    simpl in Hb. rewrite !app_nil_r in Hb. apply Hb. lia.
  - intros s'' Hs''. wp_steps. by apply HP.
Qed.

Lemma wp_copy_from_user s d cells cells' l pre mid post off buf n F (Q : Z → kstate D → Prop) :
  st s d cells → cells ≡ₚ (l, Bytes (pre ++ mid ++ post)) :: cells' →
  off = Z.of_nat (length pre) → n = Z.of_nat (length mid) → n = Z.of_nat (length buf) →
  (∀ s', st s' d ((l, Bytes (pre ++ buf ++ post)) :: cells') → Q 0%Z s') →
  (∀ s' r junk, copy_failed n → r ≠ 0%Z → length junk = length mid →
     st s' d ((l, Bytes (pre ++ junk ++ post)) :: cells') → Q r s') →
  wp (copy_from_user (Ptr l off) buf n) F Q s.
Proof.
  intros Hs Hp -> Hn Hbuf Hok Hfail. unfold copy_from_user. wp_step.
  eapply wp_tick; [done|]. intros t s' Hs'. wp_step.
  pose proof (user_uncopied_range t n ltac:(lia)) as Hr.
  set (data := _ ++ replicate _ _).
  assert (length mid = length data) as Hdata.
  { unfold data. rewrite length_app, length_take, length_replicate. lia. }
  eapply wp_kwrite; [done..|by apply bytes_store_app|]. intros s'' Hs''. wp_steps.
  destruct (decide (user_uncopied t n = 0%Z)) as [E|E].
  - rewrite E. apply Hok. unfold data in Hs''. rewrite E, Z.sub_0_r in Hs''.
    rewrite take_ge, app_nil_r in Hs'' by lia. done.
  - eapply Hfail; [by exists t|done|by symmetry|done].
Qed.

Lemma wp_copy_to_user s d cells l bs off n r F (Q : Z * list byte → kstate D → Prop) :
  st s d cells → (l, Bytes bs) ∈ cells → bytes_load bs off n = Some r →
  (∀ s', st s' d cells → Q (0%Z, r) s') →
  (∀ s' left bs', copy_failed n → left ≠ 0%Z → st s' d cells → Q (left, bs') s') →
  wp (copy_to_user (Ptr l off) n) F Q s.
Proof.
  intros Hs Hin Hr Hok Hfail. unfold copy_to_user. wp_step.
  eapply wp_kread; [done..|]. wp_step. eapply wp_tick; [done|]. intros t s' Hs'. wp_step.
  destruct (decide (user_uncopied t n = 0%Z)) as [E|E].
  - rewrite E, Z.sub_0_r, take_ge; [by apply Hok|].
    unfold bytes_load in Hr. case_decide; simplify_eq. rewrite length_take. lia.
  - apply Hfail; [by exists t|done..].
Qed.
End specs.

(** ** Kernels to run the driver on

    A kernel with 4 MiB allocations at the first free location, the encodings
    of asm-generic/ioctl.h and the seek arithmetic of fs/read_write.c, whose
    refusals are chosen per call. *)
Definition sample_llseek (pos off whence size : Z) : Z :=
  let target := if decide (whence = SEEK_SET) then off
                else if decide (whence = SEEK_CUR) then (pos + off)%Z
                else (size + off)%Z in
  if decide (0 ≤ target ≤ size)%Z then target else (- EINVAL)%Z.

Definition sample_kernel (no_mem : nat → bool) (no_copy : nat → bool) (signal : nat → bool) :
    Kernel := {|
  kmalloc_result t d n :=
    if no_mem t then None else if decide (n ≤ 2 ^ 22)%Z then Some (fresh d) else None;
  kmalloc_junk t n := replicate (Z.to_nat n) 170%Z;
  kmalloc_junk_entry t := mk_entry NULL 170;
  KMALLOC_MAX_SIZE := (2 ^ 22)%Z;
  user_uncopied t n := if no_copy t then n else 0%Z;
  lock_interrupted := signal;
  fixed_size_llseek := sample_llseek;
  _IOC_TYPE cmd := (Z.shiftr cmd 8 `mod` 256)%Z;
  _IOC_NR cmd := (cmd `mod` 256)%Z;
  _IOWR t nr sz := (3 * 2 ^ 30 + sz * 2 ^ 16 + t * 2 ^ 8 + nr)%Z;
  alloc_chrdev_region_result _ := 0%Z;
  cdev_add_result _ := 0%Z |}.

Definition never (_ : nat) : bool := false.
Definition at_call (n : nat) (t : nat) : bool := bool_decide (t = n).

#[export] Instance sample_kernel_laws no_mem no_copy signal :
  KernelLaws (sample_kernel no_mem no_copy signal).
Proof.
  split; simpl.
  - intros t d n l Hl. destruct (no_mem t); [done|]. case_decide; simplify_eq. apply is_fresh.
  - intros t d n l Hl. destruct (no_mem t); [done|]. by case_decide; simplify_eq.
  - lia.
  - intros t n Hn. rewrite length_replicate. lia.
  - intros t n Hn. destruct (no_copy t); lia.
  - intros pos off size Hr. unfold sample_llseek. by rewrite !decide_True.
  - intros pos off size Hs Hr. unfold sample_llseek.
    rewrite (decide_True (P := SEEK_SET = SEEK_SET)) by done. by rewrite decide_False.
  - intros pos off size Hr. unfold sample_llseek. simpl. by rewrite decide_True.
  - intros pos off size Hr. unfold sample_llseek. simpl. by rewrite decide_True.
  - intros t nr sz Ht Hn Hz. rewrite Z.shiftr_div_pow2 by lia. zmod_lia.
  - intros t nr sz Ht Hn Hz. zmod_lia.
Qed.

(** A kernel that refuses nothing up to its size limit. *)
Class KernelReliable (K : Kernel) : Prop := {
  reliable_alloc t d n : (n ≤ KMALLOC_MAX_SIZE)%Z → kmalloc_result t d n ≠ None;
  reliable_copy t n : user_uncopied t n = 0%Z;
  reliable_lock t : lock_interrupted t = false;
  reliable_entry : (sizeof_aesd_buffer_entry ≤ KMALLOC_MAX_SIZE)%Z }.

Section reliable.
Context `{K : Kernel} {HR : KernelReliable K}.

Lemma reliable_not_alloc_failed n : (n ≤ KMALLOC_MAX_SIZE)%Z → ¬ alloc_failed n.
Proof. intros Hn (t & d & Hf). by eapply reliable_alloc. Qed.
Lemma reliable_not_copy_failed n : ¬ copy_failed n.
Proof. intros (t & Hf). by rewrite reliable_copy in Hf. Qed.
Lemma reliable_not_lock_failed : ¬ lock_failed.
Proof. intros (t & Hf). by rewrite reliable_lock in Hf. Qed.
End reliable.

#[export] Instance sample_kernel_reliable : KernelReliable (sample_kernel never never never).
Proof.
  split; simpl; [|done..]. intros t d n Hn. by rewrite decide_True.
Qed.
