(* ===== verification/Steps.v ===== *)
(** * Calls as sequences of atomic statements

    Between two statements of a driver function other threads run.  A call is
    therefore a tree of statements: [Act m k] is the atomic statement [m]
    followed by [k]; the two mutex operations are constructors of their own,
    because they wait for and hand over to other threads.  [run] is what a call
    does when no other thread interferes. *)

From S2P Require Import Prelude.

Inductive prog (S A : Type) : Type :=
  | Ret (a : A)
  | Act {B : Type} (m : M S B) (k : B → prog S A)
  | Lock (k : Z → prog S A)
  | Unlock (k : prog S A).
Arguments Ret {S A} a.
Arguments Act {S A B} m k.
Arguments Lock {S A} k.
Arguments Unlock {S A} k.

Section prog.
Context {S : Type}.

Fixpoint prog_bind {A B} (f : A → prog S B) (p : prog S A) : prog S B :=
  match p with
  | Ret a => f a
  | Act m k => Act m (λ b, prog_bind f (k b))
  | Lock k => Lock (λ r, prog_bind f (k r))
  | Unlock k => Unlock (prog_bind f k)
  end.

#[export] Instance prog_mret : MRet (prog S) := λ A a, Ret a.
#[export] Instance prog_mbind : MBind (prog S) := λ A B f p, prog_bind f p.

(** The three kinds of statement. *)
Definition act {B} (m : M S B) : prog S B := Act m Ret.
Definition lock_statement : prog S Z := Lock Ret.
Definition unlock_statement : prog S () := Unlock (Ret ()).

Section run.
Context (acquire : M S Z) (release : M S ()).

Fixpoint run_with {A} (p : prog S A) : M S A :=
  match p with
  | Ret a => mret a
  | Act m k => b ← m; run_with (k b)
  | Lock k => r ← acquire; run_with (k r)
  | Unlock k => release;; run_with k
  end.

(** Sequencing of trees is sequencing of their runs. *)
Lemma run_with_bind {A B} (p : prog S A) (f : A → prog S B) s :
  run_with (p ≫= f) s = (a ← run_with p; run_with (f a)) s.
Proof.
  revert s. induction p as [a|B' m k IH|k IH|k IH]; intros s; [done|..];
    unfold mbind, M_bind in *; simpl; unfold mbind, M_bind.
  - destruct (m s); [apply IH|done..].
  - destruct (acquire s); [apply IH|done..].
  - destruct (release s); [apply IH|done..].
Qed.
End run.
End prog.
