(* ===== verification/CharDriver.v ===== *)
(** * The character driver ([aesd-char-driver/main.c])

    The functions of [main.c], statement by statement, over the driver's
    memory and its global device.  A file operation is a [prog] of atomic
    statements, since system calls of several threads interleave; loading and
    unloading, during which there are none, are plain computations.  [goto out]
    and [goto release] are local functions with the code behind the label.
    [PDEBUG] output is left out. *)

From S2P Require Import Prelude Memory CircularBuffer DeviceSpec Kernel Steps.

(** [struct aesd_dev]; [cdev] and [lock] record whether the device is live and
    whether the mutex is held. *)
Record aesd_dev := mk_dev {
  cdev : bool;
  lock : bool;
  circular_buffer : aesd_circular_buffer;
  partial : aesd_buffer_entry }.

(** The module's globals: [aesd_device] and its registered device region. *)
Record module_state := mk_module {
  aesd_device : aesd_dev;
  region : bool }.

(** [struct aesd_seekto]: two [uint32_t]. *)
Record aesd_seekto := mk_seekto { write_cmd : Z; write_cmd_offset : Z }.

Definition on_dev (f : aesd_dev → aesd_dev) (m : module_state) : module_state :=
  mk_module (f (aesd_device m)) (region m).
Definition set_cdev c (m : module_state) : module_state :=
  on_dev (λ d, mk_dev c (lock d) (circular_buffer d) (partial d)) m.
Definition set_lock l (m : module_state) : module_state :=
  on_dev (λ d, mk_dev (cdev d) l (circular_buffer d) (partial d)) m.
Definition set_cb b (m : module_state) : module_state :=
  on_dev (λ d, mk_dev (cdev d) (lock d) b (partial d)) m.
Definition set_partial p (m : module_state) : module_state :=
  on_dev (λ d, mk_dev (cdev d) (lock d) (circular_buffer d) p) m.
Definition set_region r (m : module_state) : module_state :=
  mk_module (aesd_device m) r.

Definition AESD_IOC_MAGIC : Z := 0x74.
Definition AESDCHAR_IOC_MAXNR : Z := 1.
Definition sizeof_aesd_seekto : Z := 8.

Section driver.
Context `{K : Kernel}.
Abbreviation C := (M (kstate module_state)).

Definition AESDCHAR_IOCSEEKTO : Z := _IOWR AESD_IOC_MAGIC 1 sizeof_aesd_seekto.

Definition get_dev : C aesd_dev := m ← gets kdev; mret (aesd_device m).
Definition update (f : module_state → module_state) : C () :=
  modify (λ s, set_dev (f (kdev s)) s).

Definition get_partial : C aesd_buffer_entry := d ← get_dev; mret (partial d).
Definition update_partial (f : aesd_buffer_entry → aesd_buffer_entry) : C () :=
  update (λ m, set_partial (f (partial (aesd_device m))) m).

(** Run a circular-buffer function on [&dev->circular_buffer]. *)
Definition cb_run {A} (m : M aesd_circular_buffer A) : C A := λ s,
  match m (circular_buffer (aesd_device (kdev s))) with
  | Ok a b => Ok a (set_dev (set_cb b (kdev s)) s)
  | Fault f => Fault f
  | Diverge => Diverge
  end.

(** [mutex_lock_interruptible]: non-zero when a signal arrives; a thread that
    already holds the mutex would block for ever. *)
Definition mutex_lock_interruptible : C Z :=
  t ← tick;
  if lock_interrupted t then mret (- EINTR)%Z
  else
    d ← get_dev;
    if lock d then fail Deadlock else update (set_lock true);; mret 0%Z.

Definition mutex_unlock : C () :=
  d ← get_dev;
  if lock d then update (set_lock false) else fail BadUnlock.

(** A system call of a thread, and the call without other threads. *)
Abbreviation P := (prog (kstate module_state)).
Definition run {A} (p : P A) : C A := run_with mutex_lock_interruptible mutex_unlock p.

(** The result, the new [*f_pos] and the bytes put in the user's buffer. *)
Definition aesd_read (count f_pos : Z) : P (Z * Z * list byte) :=
  r ← lock_statement;
  if decide (r ≠ 0)%Z then mret ((- ERESTARTSYS)%Z, f_pos, [])
  else
    let out (retval f_pos : Z) (bytes : list byte) : P (Z * Z * list byte) :=
      unlock_statement;; mret (retval, f_pos, bytes) in
    found ← act (cb_run (aesd_circular_buffer_find_entry_offset_for_fpos (u64 f_pos)));
    match found with
    | None => out 0%Z f_pos []
    | Some (i, entry_offset_byte_rtn) =>
       e ← act (cb_run (load_entry i));
       let bytes_to_copy := s64 (u64 (esize e - entry_offset_byte_rtn) `min` count) in
       if decide (bytes_to_copy = 0)%Z then out 0%Z f_pos []
       else
         left_bytes ← act (copy_to_user (ptr_add (buffptr e) entry_offset_byte_rtn)
                             (u64 bytes_to_copy));
         if decide (left_bytes.1 ≠ 0)%Z then out (- EFAULT)%Z f_pos left_bytes.2
         else out bytes_to_copy (s64 (f_pos + bytes_to_copy)) left_bytes.2
    end.

(** The loop of [aesd_write] over the complete lines: [inl] is the
    [goto release] with its result, [inr] what is left in [working]. *)
Fixpoint write_lines (fuel : nat) (working : aesd_buffer_entry) (new_line_ptr : ptr) :
    P (Z + aesd_buffer_entry) :=
  match fuel with
  | O => act diverge
  | S fuel =>
     if decide (0 < esize working ∧ new_line_ptr ≠ NULL)%Z then
       d ← act (lift OutOfBounds (ptr_diff new_line_ptr (buffptr working)));
       let bytes_to_copy := u64 (d + 1) in
       entry ← act kmalloc_entry;
       p ← act (kmemdup (buffptr working) bytes_to_copy);
       act (kwrite_entry entry (λ e, mk_entry p (esize e)));;
       if decide (p = NULL) then mret (inl (- EINVAL)%Z)
       else
         act (kwrite_entry entry (λ e, mk_entry (buffptr e) bytes_to_copy));;
         e ← act (kread_entry entry);
         garbage ← act (cb_run (aesd_circular_buffer_add_entry e));
         (if decide (garbage ≠ NULL) then act (kfree_const garbage) else mret ());;
         let working := mk_entry (ptr_add (buffptr working) bytes_to_copy)
                          (u64 (esize working - bytes_to_copy)) in
         new_line_ptr ← act (memchr (buffptr working) newline (esize working));
         write_lines fuel working new_line_ptr
     else mret (inr working)
  end.

(** [out:] and [release:]. *)
Definition write_out (buffer : ptr) (retval f_pos : Z) : P (Z * Z) :=
  (if decide (buffer ≠ NULL) then act (kfree_const buffer) else mret ());;
  mret (retval, f_pos).

Definition write_release (buffer : ptr) (retval f_pos : Z) : P (Z * Z) :=
  unlock_statement;; write_out buffer retval f_pos.

(** [aesd_write] from the acquired mutex on.  Each turn of the loop consumes a
    byte, so that one more than the number of bytes is fuel enough. *)
Definition write_locked (buffer : ptr) (working : aesd_buffer_entry) (count f_pos : Z) :
    P (Z * Z) :=
  new_line_ptr ← act (memchr (buffptr working) newline (esize working));
  res ← write_lines (S (Z.to_nat (esize working))) working new_line_ptr;
  match res with
  | inl retval => write_release buffer retval f_pos
  | inr working =>
     if decide (0 < esize working)%Z then
       p ← act (kmemdup (buffptr working) (esize working));
       act (update_partial (λ e, mk_entry p (esize e)));;
       if decide (p = NULL) then write_release buffer (- ENOMEM)%Z f_pos
       else
         act (update_partial (λ e, mk_entry (buffptr e) (esize working)));;
         write_release buffer (s64 count) (s64 (f_pos + count))
     else write_release buffer (s64 count) (s64 (f_pos + count))
  end.

(** The result and the new [*f_pos]. *)
Definition aesd_write (buf : list byte) (count f_pos : Z) : P (Z * Z) :=
  partial ← act get_partial;
  let combined_count := s64 (esize partial + count) in
  buffer ← act (kmalloc (u64 combined_count));
  let working := mk_entry buffer (u64 combined_count) in
  if decide (buffptr working = NULL) then write_out buffer (- ENOMEM)%Z f_pos
  else
    partial ← act get_partial;
    (if decide (buffptr partial ≠ NULL) then
       partial ← act get_partial;
       act (memcpy (buffptr working) (buffptr partial) (esize partial))
     else mret ());;
    partial ← act get_partial;
    uncopied ← act (copy_from_user (ptr_add (buffptr working) (esize partial)) buf count);
    if decide (uncopied ≠ 0)%Z then write_out buffer (- ENOMEM)%Z f_pos
    else
      partial ← act get_partial;
      (if decide (buffptr partial ≠ NULL) then
         partial ← act get_partial;
         act (kfree_const (buffptr partial));;
         act (update_partial (λ e, mk_entry NULL (esize e)));;
         act (update_partial (λ e, mk_entry (buffptr e) 0))
       else mret ());;
      r ← lock_statement;
      if decide (r ≠ 0)%Z then write_out buffer (- ERESTARTSYS)%Z f_pos
      else write_locked buffer working count f_pos.

(** [for (i = 0; i < 10; i++) totalSize += entry[i].size]. *)
Fixpoint total_size (n : nat) (i : Z) (totalSize : Z) : P Z :=
  match n with
  | O => mret totalSize
  | S n =>
     e ← act (cb_run (load_entry i));
     total_size n (i + 1) (s64 (totalSize + esize e))
  end.

(** The result and the new [filp->f_pos]. *)
Definition aesd_llseek (f_pos offset whence : Z) : P (Z * Z) :=
  r ← lock_statement;
  if decide (r ≠ 0)%Z then mret ((- ERESTARTSYS)%Z, f_pos)
  else
    totalSize ← total_size max_ops 0 0;
    let new_pos := fixed_size_llseek f_pos offset whence totalSize in
    let f_pos := new_pos in
    unlock_statement;;
    mret (new_pos, f_pos).

(** [entry[(out_offs + i) % 10]] *)
Definition load_from_out (i : Z) : P aesd_buffer_entry :=
  d ← act get_dev;
  act (cb_run (load_entry ((out_offs (circular_buffer d) + i) `mod` MAX_OPS))).

(** [for (i = 0; i < write_cmd; i++) pos += ...]: the sum and the last [i]. *)
Fixpoint sum_before (n : nat) (i pos : Z) : P (Z * Z) :=
  match n with
  | O => mret (pos, i)
  | S n =>
     e ← load_from_out i;
     sum_before n (i + 1) (s64 (pos + esize e))
  end.

Definition aesd_adjust_file_offset (f_pos : Z) (seekto : aesd_seekto) : P (Z * Z) :=
  if decide (MAX_OPS ≤ write_cmd seekto)%Z then mret ((- EINVAL)%Z, f_pos)
  else
    r ← lock_statement;
    if decide (r ≠ 0)%Z then mret ((- ERESTARTSYS)%Z, f_pos)
    else
      pos_i ← sum_before (Z.to_nat (write_cmd seekto)) 0 0;
      e ← load_from_out pos_i.2;
      if decide (esize e < write_cmd_offset seekto)%Z then
        unlock_statement;; mret ((- EINVAL)%Z, f_pos)
      else
        unlock_statement;;
        mret (0%Z, s64 (pos_i.1 + write_cmd_offset seekto)).

(** [arg] is the structure the user's pointer points to; the result is the
    number of bytes that could not be copied. *)
Definition copy_seekto : C Z := t ← tick; mret (user_uncopied t sizeof_aesd_seekto).

Definition aesd_ioctl (f_pos cmd : Z) (arg : aesd_seekto) : P (Z * Z) :=
  if decide (_IOC_TYPE cmd ≠ AESD_IOC_MAGIC) then mret ((- ENOTTY)%Z, f_pos)
  else if decide (AESDCHAR_IOC_MAXNR < _IOC_NR cmd)%Z then mret ((- ENOTTY)%Z, f_pos)
  else if decide (cmd = AESDCHAR_IOCSEEKTO) then
    uncopied ← act copy_seekto;
    if decide (uncopied ≠ 0)%Z then mret ((- EFAULT)%Z, f_pos)
    else aesd_adjust_file_offset f_pos arg
  else mret ((- ENOTTY)%Z, f_pos).

Definition aesd_setup_cdev : C Z :=
  t ← tick;
  let err := cdev_add_result t in
  (if decide (err = 0)%Z then update (set_cdev true) else mret ());;
  mret err.

Definition aesd_init_module : C Z :=
  t ← tick;
  let result := alloc_chrdev_region_result t in
  if decide (result < 0)%Z then mret result
  else
    update (set_region true);;
    (* memset, then mutex_init *)
    update (on_dev (λ _, mk_dev false false
              (mk_buffer (replicate max_ops null_entry) 0 0 false) null_entry));;
    cb_run aesd_circular_buffer_init;;
    result ← aesd_setup_cdev;
    (if decide (result ≠ 0)%Z then update (set_region false) else mret ());;
    mret result.

Definition aesd_cleanup_module : C () :=
  update (set_cdev false);;
  AESD_CIRCULAR_BUFFER_FOREACH (λ i,
    e ← cb_run (load_entry i);
    if decide (buffptr e ≠ NULL) then
      kfree_const (buffptr e);;
      cb_run (store_entry i (mk_entry NULL (esize e)))
    else mret ());;
  partial ← get_partial;
  (if decide (buffptr partial ≠ NULL) then
     kfree_const (buffptr partial);;
     update_partial (λ _, mk_entry NULL 0)
   else mret ());;
  update (set_region false).
End driver.

#[global] Arguments run {K A} p : simpl never.
