(* ===== verification/CharDriverSpec.v ===== *)
(** * The contract of the system calls

    What each file operation may answer and do to the abstract device, as
    relations; every failure carries the refusal of the kernel behind it.
    [CharDriver{Write,Read,Seek}.v] prove that the functions of [CharDriver]
    stay within them. *)

From S2P Require Import Prelude Memory CircularBuffer DeviceSpec Kernel Steps CharDriver.

Abbreviation state := (kstate module_state).
Abbreviation len l := (Z.of_nat (length l)).

(** The VFS limits a transfer to this many bytes. *)
Definition MAX_RW_COUNT : Z := 0x7ffff000.

Definition u32_range (x : Z) : Prop := (0 ≤ x < 2 ^ 32)%Z.

(** The system calls a thread makes on an open device, with the position. *)
Inductive request :=
  | Read (count f_pos : Z)
  | Write (data : list byte) (f_pos : Z)
  | Llseek (f_pos offset whence : Z)
  | Ioctl (f_pos cmd : Z) (arg : aesd_seekto).

(** What the VFS passes to a driver. *)
Definition vfs_ok (r : request) : Prop :=
  match r with
  | Read count f_pos => (0 ≤ count ≤ MAX_RW_COUNT ∧ - 2 ^ 63 ≤ f_pos < 2 ^ 63)%Z
  | Write data f_pos => (len data ≤ MAX_RW_COUNT ∧ 0 ≤ f_pos ∧ f_pos + len data < 2 ^ 63)%Z
  | Llseek _ _ _ => True
  | Ioctl _ _ arg => u32_range (write_cmd arg) ∧ u32_range (write_cmd_offset arg)
  end.

(** The result, the new position and the bytes read. *)
Abbreviation answer := (Z * Z * list byte)%type.

Definition without_bytes (r : Z * Z) : answer := (r.1, r.2, []).

Section contract.
Context `{K : Kernel}.

(** [aesd_fops] *)
Definition serve (r : request) : prog state answer :=
  match r with
  | Read count f_pos => aesd_read count f_pos
  | Write data f_pos => x ← aesd_write data (len data) f_pos; mret (without_bytes x)
  | Llseek f_pos offset whence => x ← aesd_llseek f_pos offset whence; mret (without_bytes x)
  | Ioctl f_pos cmd arg => x ← aesd_ioctl f_pos cmd arg; mret (without_bytes x)
  end.

Inductive read_result (a : adev) (count f_pos : Z) : Z → Z → list byte → Prop :=
| read_ok bs :
    bs = aread a (u64 f_pos) count →
    read_result a count f_pos (len bs) (f_pos + len bs) bs
| read_fault n bs :
    copy_failed n → read_result a count f_pos (- EFAULT) f_pos bs
| read_interrupted :
    lock_failed → read_result a count f_pos (- ERESTARTSYS) f_pos [].

(** The one unchecked allocation. *)
Definition entry_oops (f : fault) : Prop :=
  f = NullDeref ∧ alloc_failed sizeof_aesd_buffer_entry.

(** The result, the new position, the new device and how many entry structures
    a write leaks. *)
Inductive write_result (a : adev) (data : list byte) (f_pos : Z) :
    Z → Z → adev → nat → Prop :=
| write_ok :
    write_result a data f_pos (len data) (f_pos + len data) (awrite a data)
      (length (split_lines (apart a ++ data)).1)
| write_no_buffer :
    alloc_failed (len (apart a ++ data)) →
    write_result a data f_pos (- ENOMEM) f_pos a 0
| write_no_copy :
    copy_failed (len data) →
    write_result a data f_pos (- ENOMEM) f_pos a 0
| write_interrupted :
    lock_failed →
    write_result a data f_pos (- ERESTARTSYS) f_pos (ADev (alines a) []) 0
| write_no_line k n :
    k < length (split_lines (apart a ++ data)).1 → alloc_failed n →
    (n ≤ len (apart a ++ data))%Z →
    write_result a data f_pos (- EINVAL) f_pos
      (ADev (lastn max_ops (alines a ++ take k (split_lines (apart a ++ data)).1)) []) (S k)
| write_no_rest :
    (split_lines (apart a ++ data)).2 ≠ [] →
    alloc_failed (len (split_lines (apart a ++ data)).2) →
    write_result a data f_pos (- ENOMEM) f_pos
      (ADev (lastn max_ops (alines a ++ (split_lines (apart a ++ data)).1)) [])
      (length (split_lines (apart a ++ data)).1).

(** [lseek] hands the kernel the length of the contents and stores whatever
    comes back, errors included, in [f_pos]. *)
Definition llseek_post (a : adev) f_pos offset whence (r : Z * Z) : Prop :=
  (lock_failed ∧ r = ((- ERESTARTSYS)%Z, f_pos)) ∨
  r = (fixed_size_llseek f_pos offset whence (len (acontent a)),
       fixed_size_llseek f_pos offset whence (len (acontent a))).

Definition seek_post (a : adev) f_pos (arg : aesd_seekto) (r : Z * Z) : Prop :=
  (lock_failed ∧ r = ((- ERESTARTSYS)%Z, f_pos)) ∨
  r = match aseekto a (write_cmd arg) (write_cmd_offset arg) with
      | Some pos => (0%Z, pos)
      | None => ((- EINVAL)%Z, f_pos)
      end.

Definition ioctl_post (a : adev) f_pos cmd (arg : aesd_seekto) (r : Z * Z) : Prop :=
  if decide (cmd = AESDCHAR_IOCSEEKTO) then
    seek_post a f_pos arg r ∨
    (copy_failed sizeof_aesd_seekto ∧ r = ((- EFAULT)%Z, f_pos))
  else r = ((- ENOTTY)%Z, f_pos).

(** One call on the abstract device: from [a], request [r] may be answered
    [x] and leave [a']. *)
Inductive performs (a : adev) : request → answer → adev → Prop :=
| do_read count f_pos r p bs :
    read_result a count f_pos r p bs → performs a (Read count f_pos) (r, p, bs) a
| do_write data f_pos r p a' n :
    write_result a data f_pos r p a' n → performs a (Write data f_pos) (r, p, []) a'
| do_llseek f_pos offset whence r :
    llseek_post a f_pos offset whence r →
    performs a (Llseek f_pos offset whence) (without_bytes r) a
| do_ioctl f_pos cmd arg r :
    ioctl_post a f_pos cmd arg r → performs a (Ioctl f_pos cmd arg) (without_bytes r) a.

(** A sequence of calls, one after the other. *)
Inductive history : adev → list (request * answer) → adev → Prop :=
| history_nil a : history a [] a
| history_snoc a h a' r x a'' :
    history a h a' → performs a' r x a'' → history a (h ++ [(r, x)]) a''.
End contract.
