(* ===== verification/RelyGuarantee.v ===== *)
(** * Rely-guarantee reasoning about system calls

    [rg h pr p Q s]: the call [p], run from [s] with other threads in between,
    does no harm and ends in [Q].  What the others may do between two of its
    statements is the relation [rely], what each of its statements does to
    them is [guar]; both depend on whether the call holds the mutex ([h]).  A
    call takes effect when it releases the mutex: there it must [commit] to an
    answer ([pr] from then on), which is the one it returns.  A call that
    returns without having taken the mutex has to [back_out] there.

    [rg_run] is the special case without other threads. *)

From S2P Require Import Prelude Memory CircularBuffer DeviceSpec Kernel Steps CharDriver.
From S2P Require Import CharDriverSpec.

Abbreviation held s := (lock (aesd_device (kdev s))).
Abbreviation cb s := (circular_buffer (aesd_device (kdev s))).

(** The abstract device a call leaves and the entry structures leaked so far. *)
Abbreviation ghost := (prod adev (list (loc * aesd_buffer_entry))).

Definition with_lock (h : bool) (s : state) : state := set_dev (set_lock h (kdev s)) s.

(** Only the number of kernel calls differs. *)
Definition ticked (s s' : state) : Prop := kheap s' = kheap s ∧ kdev s' = kdev s.

(** And the lock. *)
Definition unlocked_same (s s' : state) : Prop :=
  kheap s' = kheap s ∧ set_lock false (kdev s') = set_lock false (kdev s).

(** How a thread and the others treat each other while it makes a call. *)
Record role := Role {
  rely : bool → state → state → Prop;
  guar : bool → state → state → Prop;
  lock_inv : state → Prop;
  commit : answer → ghost → state → Prop;
  back_out : answer → ghost → state → Prop;
  final : ghost → state → Prop;
  oops : fault → Prop }.

Class RoleLaws (ro : role) : Prop := {
  rely_preorder h :: PreOrder (rely ro h);
  guar_held h s s' : guar ro h s s' → held s' = held s;
  guar_inv h s s' : lock_inv ro s → guar ro h s s' → lock_inv ro s';
  inv_ticked s s' : lock_inv ro s → unlocked_same s s' → lock_inv ro s' }.

Section rely_guarantee.
Context `{K : Kernel} (ro : role) {Hro : RoleLaws ro}.
Abbreviation post A := (bool → option (answer * ghost) → A → state → Prop).

Fixpoint rg {A} (h : bool) (pr : option (answer * ghost)) (p : prog state A) (Q : post A)
    (s : state) : Prop :=
  ∀ s0, rely ro h s s0 →
  match p with
  | Ret a => Q h pr a s0
  | Act m k => wp m (oops ro) (λ b s', guar ro h s0 s' ∧ rg h pr (k b) Q s') s0
  | Lock k =>
     h = false ∧
     (∀ s1, ticked s0 s1 → held s1 = false → lock_inv ro s1 →
            rg true pr (k 0%Z) Q (with_lock true s1)) ∧
     (∀ s1, lock_failed → ticked s0 s1 → rg false pr (k (- EINTR)%Z) Q s1)
  | Unlock k =>
     h = true ∧ pr = None ∧
     ∃ x g, commit ro x g s0 ∧ rg false (Some (x, g)) k Q (with_lock false s0)
  end.

(** The end of a call: the answer is the one it committed to. *)
Definition returns {A} (ans : A → answer) : post A := λ h pr a s,
  h = false ∧ ∃ g, final ro g s ∧
  match pr with
  | Some (x, g') => ans a = x ∧ g = g'
  | None => back_out ro (ans a) g s
  end.

(** *** Rules *)

Lemma rg_stable {A} h pr (p : prog state A) Q s s' :
  rg h pr p Q s → rely ro h s s' → rg h pr p Q s'.
Proof.
  intros Hp Hr. pose proof (rely_preorder h : PreOrder (rely ro h)) as Hpre.
  destruct p; intros s0 Hs0; by apply Hp; etransitivity.
Qed.

Lemma rg_ret {A} h pr (a : A) (Q : post A) s :
  (∀ s0, rely ro h s s0 → Q h pr a s0) → rg h pr (mret a) Q s.
Proof. done. Qed.

Lemma rg_act {A B} h pr (m : M state B) (k : B → prog state A) (Q : post A) s :
  (∀ s0, rely ro h s s0 →
     wp m (oops ro) (λ b s', guar ro h s0 s' ∧ rg h pr (k b) Q s') s0) →
  rg h pr (act m ≫= k) Q s.
Proof. done. Qed.

Lemma rg_lock {A} pr (k : Z → prog state A) (Q : post A) s :
  (∀ s0 s1, rely ro false s s0 → ticked s0 s1 → held s1 = false → lock_inv ro s1 →
     rg true pr (k 0%Z) Q (with_lock true s1)) →
  (∀ s0 s1, lock_failed → rely ro false s s0 → ticked s0 s1 → rg false pr (k (- EINTR)%Z) Q s1) →
  rg false pr (lock_statement ≫= k) Q s.
Proof. intros Hl Hf s0 Hs0. split; [done|]. eauto. Qed.

Lemma rg_unlock {A} (k : () → prog state A) (Q : post A) s :
  (∀ s0, rely ro true s s0 → ∃ x g, commit ro x g s0 ∧
     rg false (Some (x, g)) (k ()) Q (with_lock false s0)) →
  rg true None (unlock_statement ≫= k) Q s.
Proof. intros Hk s0 Hs0. by split_and!; [..|apply Hk]. Qed.

Lemma rg_mono {A} h pr (p : prog state A) (Q Q' : post A) s :
  rg h pr p Q s → (∀ h pr a s, Q h pr a s → Q' h pr a s) → rg h pr p Q' s.
Proof.
  intros Hp HQ. revert h pr s Hp.
  induction p as [a|B m k IH|k IH|k IH]; intros h pr s Hp s0 Hs0; specialize (Hp s0 Hs0).
  - by apply HQ.
  - eapply wp_mono; [exact Hp|done|]. intros b s' [Hg Hb]. split; [done|]. by apply IH.
  - destruct Hp as (-> & H1 & H2). split_and!; [done|..]; intros; apply IH; [by apply H1|by apply H2].
  - destruct Hp as (-> & -> & x & g & Hc & Hk). split_and!; [done..|]. exists x, g.
    split; [done|]. by apply IH.
Qed.

Lemma rg_bind {A B} h pr (p : prog state A) (f : A → prog state B) (Q : post B) s :
  rg h pr p (λ h pr a s, rg h pr (f a) Q s) s → rg h pr (p ≫= f) Q s.
Proof.
  revert h pr s. induction p as [a|B' m k IH|k IH|k IH]; intros h pr s Hp.
  - pose proof (rely_preorder h : PreOrder (rely ro h)) as Hpre. apply (Hp s). done.
  - intros s0 Hs0. eapply wp_mono; [exact (Hp s0 Hs0)|done|].
    intros b s' [Hg Hb]. split; [done|]. by apply IH.
  - intros s0 Hs0. destruct (Hp s0 Hs0) as (-> & H1 & H2).
    split_and!; [done|..]; intros; apply IH; [by apply H1|by apply H2].
  - intros s0 Hs0. destruct (Hp s0 Hs0) as (-> & -> & x & g & Hc & Hk).
    split_and!; [done..|]. exists x, g. split; [done|]. by apply IH.
Qed.

(** A call and what is done with its result. *)
Lemma rg_fmap {A B} h pr (p : prog state A) (f : A → B) (Q : post B) s :
  rg h pr p (λ h pr a s, Q h pr (f a) s) s → rg h pr (x ← p; mret (f x)) Q s.
Proof.
  revert h pr s. induction p as [a|B' m k IH|k IH|k IH]; intros h pr s Hp s0 Hs0;
    specialize (Hp s0 Hs0).
  - done.
  - eapply wp_mono; [exact Hp|done|]. intros b s' [Hg Hb]. split; [done|]. by apply IH.
  - destruct Hp as (-> & H1 & H2). split_and!; [done|..]; intros; apply IH; [by apply H1|by apply H2].
  - destruct Hp as (-> & -> & x & g & Hc & Hk). split_and!; [done..|]. exists x, g.
    split; [done|]. by apply IH.
Qed.

(** *** Without other threads *)

(** What a call that ends with [pr'] committed to, if it had not from the
    start, it did in a state that it reached. *)
Definition committed (T : state → Prop) (pr pr' : option (answer * ghost)) : Prop :=
  match pr' with
  | Some (x, g) => pr = pr' ∨ ∃ s, T s ∧ commit ro x g s
  | None => True
  end.

Lemma ticked_unlocked s s' b : ticked s s' → unlocked_same s (with_lock b s').
Proof. intros [Hh Hd]. split; [done|]. simpl. by rewrite Hd. Qed.

Lemma ticked_same s s' : ticked s s' → unlocked_same s s'.
Proof. intros [Hh Hd]. split; [done|]. by rewrite Hd. Qed.

Lemma wp_acquire s F (Q : Z → state → Prop) :
  held s = false →
  (∀ s', ticked s s' → Q 0%Z (with_lock true s')) →
  (∀ s', lock_failed → ticked s s' → Q (- EINTR)%Z s') →
  wp mutex_lock_interruptible F Q s.
Proof.
  intros Hl Hok Hfail. unfold mutex_lock_interruptible, tick. wp_steps. simpl.
  destruct (lock_interrupted _) eqn:E.
  - wp_steps. apply Hfail; [by eexists|done].
  - unfold get_dev. wp_steps. simpl. rewrite Hl. unfold update. wp_steps.
    by apply (Hok (KS (kheap s) (S (ktick s)) (kdev s))).
Qed.

Lemma wp_release s F (Q : () → state → Prop) :
  held s = true → Q () (with_lock false s) → wp mutex_unlock F Q s.
Proof. intros Hl HQ. unfold mutex_unlock, get_dev. wp_steps. by rewrite Hl. Qed.

(** [T] is what the statements of the call do to the state, locks included. *)
Context (T : state → state → Prop) {HT : PreOrder T}.
Context (guar_T : ∀ h s s', guar ro h s s' → T s s').
Context (same_T : ∀ s s', unlocked_same s s' → T s s').

Definition run_post {A} pr (Q : post A) s (a : A) s' : Prop :=
  T s s' ∧ ∃ h' pr', held s' = h' ∧ committed (T s) pr pr' ∧ Q h' pr' a s'.

Lemma run_post_step {A} pr (Q : post A) s s1 a s' :
  T s s1 → run_post pr Q s1 a s' → run_post pr Q s a s'.
Proof.
  intros H1 (H2 & h' & pr' & Hl & Hc & HQ). split; [by etransitivity|]. exists h', pr'.
  split_and!; [done| |done]. destruct pr' as [[x g]|]; [|done].
  destruct Hc as [?|(s2 & ? & ?)]; [by left|right]. exists s2. split; [by etransitivity|done].
Qed.

Lemma rg_run {A} h pr (p : prog state A) (Q : post A) s :
  held s = h → lock_inv ro s → rg h pr p Q s →
  wp (run p) (oops ro) (run_post pr Q s) s.
Proof.
  revert h pr s.
  induction p as [a|B m k IH|k IH|k IH]; intros h pr s Hl Hinv Hp;
    specialize (Hp s (reflexivity s)); unfold run in *; cbn [run_with].
  - apply wp_ret. split; [done|]. exists h, pr. split_and!; [done| |done].
    destruct pr as [[x g]|]; [by left|done].
  - apply wp_bind. eapply wp_mono; [exact Hp|done|]. intros b s' [Hg Hk].
    eapply wp_mono; [apply (IH b h pr s'); [|by eapply guar_inv|done]|done|].
    + rewrite (guar_held h s s') by done. done.
    + intros a s2. eapply run_post_step, guar_T. done.
  - destruct Hp as (-> & H1 & H2). apply wp_bind.
    assert (∀ r h' s', held s' = h' → unlocked_same s s' → rg h' pr (k r) Q s' →
      wp (run_with mutex_lock_interruptible mutex_unlock (k r)) (oops ro)
        (run_post pr Q s) s') as Hnext.
    { intros r h' s' Hl' Hs' Hk. eapply wp_mono; [apply (IH r h' pr s' Hl')|done|];
        [by eapply inv_ticked|done|]. intros a s2. by eapply run_post_step, same_T. }
    apply wp_acquire; [done|..].
    + intros s' Ht. eapply Hnext; [done|by apply ticked_unlocked|]. apply H1; [done| |].
      * by destruct Ht as [_ ->].
      * eapply inv_ticked; [done|by apply ticked_same].
    + intros s' Hf Ht. eapply (Hnext _ false); [by destruct Ht as [_ ->]|by apply ticked_same|].
      by apply H2.
  - destruct Hp as (-> & -> & x & g & Hc & Hk). apply wp_bind. apply wp_release; [done|].
    assert (unlocked_same s (with_lock false s)) as Hu by done.
    eapply wp_mono; [apply (IH false (Some (x, g))); [done| |done]|done|].
    + by eapply inv_ticked.
    + intros a s2 (H2 & h' & pr' & Hl' & Hc' & HQ). pose proof (same_T _ _ Hu) as HTu.
      split; [by etransitivity|]. exists h', pr'. split_and!; [done| |done].
      destruct pr' as [[x' g']|]; [|done]. right.
      destruct Hc' as [[= <- <-]|(s3 & ? & ?)]; [by exists s|].
      exists s3. split; [by etransitivity|done].
Qed.
End rely_guarantee.
