(* ===== verification/CharDriverInv.v ===== *)
(** * The driver's invariant: memory ownership and the abstract device

    [repr] ties a driver state to the lines it keeps.  Every block of the heap
    is accounted for: one byte block per kept line, one for the pending line,
    the [struct aesd_buffer_entry] blocks that [aesd_write] allocates and
    never frees ([leaks]), and what a running call holds ([extra]).  [view] is
    the part of it that the mutex protects, which is all a reader looks at. *)

From S2P Require Import Prelude Memory CircularBuffer DeviceSpec Kernel Steps CharDriver.
From S2P Require Import CharDriverSpec RelyGuarantee.

(** A line with the location of its block. *)
Abbreviation placed := (prod loc (list byte)).

Definition line_entry (x : placed) : aesd_buffer_entry :=
  mk_entry (Ptr x.1 0) (Z.of_nat (length x.2)).
Definition line_cell (x : placed) : loc * block := (x.1, Bytes x.2).
Definition leak_cell (x : loc * aesd_buffer_entry) : loc * block := (x.1, EntryBlk x.2).

Definition partial_entry (pt : option placed) : aesd_buffer_entry :=
  from_option line_entry null_entry pt.

Definition cells (ll : list placed) (pt : option placed)
    (leaks : list (loc * aesd_buffer_entry)) : list (loc * block) :=
  (line_cell <$> ll) ++ (line_cell <$> option_list pt) ++ (leak_cell <$> leaks).

Section invariant.
Context `{K : Kernel} {HK : KernelLaws K}.
Implicit Types (s : kstate module_state) (m : module_state) (ll : list placed)
  (pt : option placed) (leaks : list (loc * aesd_buffer_entry)).

Definition fits (x : placed) : Prop := (Z.of_nat (length x.2) ≤ KMALLOC_MAX_SIZE)%Z.

(** The buffer holds the entries of the lines. *)
Record lines_ok (b : aesd_circular_buffer) ll : Prop := {
  ok_cb : cb_wf b;
  ok_queue : queue b = line_entry <$> ll;
  ok_fits : Forall fits ll }.

Record dev_ok (lk : bool) m ll pt : Prop := {
  ok_lock : lock (aesd_device m) = lk;
  ok_lines : lines_ok (circular_buffer (aesd_device m)) ll;
  ok_partial : partial (aesd_device m) = partial_entry pt;
  ok_part_fits : Forall fits (option_list pt) }.

Definition repr (lk : bool) s ll pt leaks (extra : list (loc * block)) : Prop :=
  ∃ m, dev_ok lk m ll pt ∧ st s m (cells ll pt leaks ++ extra).

(** The abstract device. *)
Definition adev_of ll pt : adev := ADev ll.*2 (from_option snd [] pt).

(** While no writer runs: nothing else is allocated. *)
Definition idle_repr (lk : bool) s (a : adev) leaks : Prop :=
  ∃ ll pt, repr lk s ll pt leaks [] ∧ a = adev_of ll pt ∧ adev_wf a ∧
           (is_Some pt → apart a ≠ []).

(** And between two calls the mutex is free. *)
Definition driver_repr s (a : adev) leaks : Prop := idle_repr false s a leaks.

(** *** Reading the fields *)

Lemma repr_st lk s ll pt leaks extra :
  repr lk s ll pt leaks extra →
  st s (kdev s) (cells ll pt leaks ++ extra) ∧ dev_ok lk (kdev s) ll pt.
Proof. intros (m & Hm & Hs). by destruct Hs as [<- Hh]. Qed.

Lemma repr_intro lk s d ll pt leaks extra cs :
  dev_ok lk d ll pt → st s d cs → cs ≡ₚ cells ll pt leaks ++ extra →
  repr lk s ll pt leaks extra.
Proof. intros Hd Hs Hp. exists d. split; [done|]. by rewrite <-Hp. Qed.

(** *** The lines in the buffer *)

Section lines.
Context {b : aesd_circular_buffer} {ll : list placed} (Hok : lines_ok b ll).

(** The entries are the lines' entries, whatever slot they sit in. *)
Lemma queue_sizes : esize <$> queue b = (λ l : list byte, len l) <$> ll.*2.
Proof. rewrite (ok_queue _ _ Hok), <-!list_fmap_compose. done. Qed.

Lemma queue_sizes_nonneg : Forall (λ e, 0 ≤ esize e)%Z (queue b).
Proof.
  rewrite (ok_queue _ _ Hok). apply Forall_fmap, Forall_true. intros x. simpl. lia.
Qed.

Lemma lines_ok_length : length ll ≤ max_ops.
Proof.
  rewrite <-(length_fmap line_entry), <-(ok_queue _ _ Hok).
  by apply length_queue_le, (ok_cb _ _ Hok).
Qed.

Lemma slot_lookup k x : ll !! k = Some x → entry b !! Z.to_nat (slot b k) = Some (line_entry x).
Proof.
  intros Hk. unfold slot. rewrite <-queue_lookup; [|apply (ok_cb _ _ Hok)|].
  - by rewrite (ok_queue _ _ Hok), list_lookup_fmap, Hk.
  - rewrite (ok_queue _ _ Hok), length_fmap. by eapply lookup_lt_Some.
Qed.

Lemma queue_default k :
  esize (default null_entry (queue b !! k)) = from_option (λ l : list byte, len l) 0%Z (ll.*2 !! k).
Proof. rewrite (ok_queue _ _ Hok), !list_lookup_fmap. by destruct (ll !! k). Qed.

(** The content is bounded, so that the [loff_t] sums do not wrap. *)
Lemma content_bound : (len (concat ll.*2) ≤ 10 * 2 ^ 32)%Z.
Proof.
  pose proof lines_ok_length as Hl. pose proof (ok_fits _ _ Hok) as Hf.
  pose proof kmalloc_max as Hmax.
  assert (len (concat ll.*2) ≤ len ll * 2 ^ 32)%Z.
  { clear Hl Hok. induction Hf as [|x ll Hx Hf IH]; [done|].
    csimpl. rewrite length_app. unfold fits in Hx. lia. }
  cb_lia.
Qed.

Lemma concat_take_bound k : (len (concat (take k ll.*2)) ≤ 10 * 2 ^ 32)%Z.
Proof.
  pose proof content_bound as Hb.
  rewrite <-(take_drop k ll.*2), concat_app, length_app in Hb. lia.
Qed.

(** The length of a line is a [uint32_t]. *)
Lemma line_u32 k : u32_range (from_option (λ l : list byte, len l) 0%Z (ll.*2 !! k)).
Proof.
  unfold u32_range. destruct (_ !! k) as [l|] eqn:Hl; simpl in *; [|lia].
  rewrite list_lookup_fmap in Hl. destruct (ll !! k) as [x|] eqn:Hx; simplify_eq/=.
  pose proof (Forall_lookup_1 _ _ k x (ok_fits _ _ Hok) Hx) as Hf.
  unfold fits in Hf. pose proof kmalloc_max. lia.
Qed.
End lines.

Lemma dev_ok_length lk m ll pt : dev_ok lk m ll pt → length ll ≤ max_ops.
Proof. intros Hok. apply (lines_ok_length (ok_lines _ _ _ _ Hok)). Qed.

Lemma line_cell_in ll pt leaks extra x :
  x ∈ ll → line_cell x ∈ cells ll pt leaks ++ extra.
Proof.
  intros Hx. unfold cells. rewrite !elem_of_app. left; left.
  by apply (list_elem_of_fmap_2 line_cell).
Qed.

(** *** What the mutex protects *)

(** The buffer, and the blocks its entries point to. *)
Definition view s ll : Prop :=
  lines_ok (cb s) ll ∧ ∀ x, x ∈ ll → kheap s !! x.1 = Some (Bytes x.2).

Definition lines_in s (ls : list (list byte)) : Prop := ∃ ll, view s ll ∧ ls = ll.*2.

Lemma view_intro s d cs ll :
  st s d cs → lines_ok (circular_buffer (aesd_device d)) ll →
  (∀ x, x ∈ ll → line_cell x ∈ cs) → view s ll.
Proof.
  intros [<- Hh] Hok Hin. split; [done|]. intros x Hx.
  eapply heap_is_lookup; [done|]. by apply Hin.
Qed.

Lemma repr_view lk s ll pt leaks extra : repr lk s ll pt leaks extra → view s ll.
Proof.
  intros (m & Hm & Hs). eapply view_intro; [done|apply (ok_lines _ _ _ _ Hm)|].
  intros x. apply line_cell_in.
Qed.

Lemma view_same s s' ll : view s ll → unlocked_same s s' → view s' ll.
Proof.
  intros [Hok Hin] [Hh Hd]. split; [|by rewrite Hh].
  destruct (kdev s) as [[] ?], (kdev s') as [[] ?]; simpl in *. by simplify_eq.
Qed.

(** A state holds one list of lines. *)
Lemma view_inj s ll ll' : view s ll → view s ll' → ll = ll'.
Proof.
  intros [Hok Hin] [Hok' Hin']. pose proof (ok_queue _ _ Hok) as Hq.
  rewrite (ok_queue _ _ Hok') in Hq. clear Hok Hok'.
  revert ll' Hin' Hq. induction ll as [|x ll IH]; intros [|x' ll'] Hin' Hq; try done.
  csimpl in Hq. injection Hq as Hx _ Hq.
  assert (x = x') as ->.
  { pose proof (Hin x ltac:(left)) as H1. pose proof (Hin' x' ltac:(left)) as H2.
    rewrite Hx in H2. destruct x, x'; simpl in *. by simplify_eq. }
  f_equal. apply IH; [| |done]; intros y Hy; [apply Hin|apply Hin']; by right.
Qed.

Lemma lines_in_view s ll a : view s ll → lines_in s (alines a) → alines a = ll.*2.
Proof. intros Hv (ll' & Hv' & ->). by rewrite (view_inj _ _ _ Hv Hv'). Qed.

(** What other threads leave alone while a call holds the mutex. *)
Definition keeps s s' : Prop :=
  held s' = held s ∧ cb s' = cb s ∧ ∀ ll, view s ll → view s' ll.

#[global] Instance unlocked_preorder : PreOrder unlocked_same.
Proof. split; [done|]. intros s1 s2 s3 [H1 H2] [H3 H4]. split; congruence. Qed.

#[global] Instance keeps_preorder : PreOrder keeps.
Proof.
  split; [done|]. intros s1 s2 s3 (H1 & H2 & H3) (H4 & H5 & H6).
  split_and!; [congruence|congruence|eauto].
Qed.

Lemma ticked_keeps s s' : ticked s s' → keeps s s'.
Proof.
  intros Ht. pose proof (λ ll Hv, view_same _ _ ll Hv (ticked_same _ _ Ht)) as Hv.
  destruct Ht as [_ Hd]. split_and!; [by rewrite Hd..|done].
Qed.

(** A step between two states with the same buffer and the lines' blocks. *)
Lemma keeps_intro s s' d d' cs cs' ll :
  st s d cs → st s' d' cs' → lines_ok (circular_buffer (aesd_device d)) ll →
  lock (aesd_device d') = lock (aesd_device d) →
  circular_buffer (aesd_device d') = circular_buffer (aesd_device d) →
  (∀ x, x ∈ ll → line_cell x ∈ cs) → (∀ x, x ∈ ll → line_cell x ∈ cs') →
  keeps s s'.
Proof.
  intros Hs Hs' Hok Hl Hb Hin Hin'. pose proof (view_intro _ _ _ _ Hs Hok Hin) as Hv.
  destruct Hs as [<- Hh], Hs' as [<- Hh']. split_and!; [done..|].
  intros ll' Hv'. rewrite <-(view_inj _ _ _ Hv Hv').
  eapply view_intro; [by split|by rewrite Hb|done].
Qed.

(** *** The two kinds of call *)

(** A reader changes nothing; it commits to an answer that fits the lines. *)
Definition reader (R : adev → answer → Prop) : role := {|
  rely h s s' := h = true → keeps s s';
  guar h s s' := ticked s s';
  lock_inv s := ∃ ll, view s ll;
  commit x _ s := ∀ a, adev_wf a → lines_in s (alines a) → R a x;
  back_out x _ _ := ∀ a, adev_wf a → R a x;
  final _ _ := True;
  oops := safe |}.

(** What a write leaves to the readers. *)
Definition write_effect (a : adev) leaks data f_pos (x : answer) (g : ghost) s : Prop :=
  x.2 = [] ∧ adev_wf g.1 ∧ lines_in s (alines g.1) ∧
  ∃ n, write_result a data f_pos x.1.1 x.1.2 g.1 n ∧ length g.2 = length leaks + n.

(** A writer owns the pending line and its buffer all the time, and the lines
    while it holds the mutex; others take the mutex and release it. *)
Definition writer (a : adev) leaks (data : list byte) (f_pos : Z) : role := {|
  rely h s s' := unlocked_same s s' ∧ (h = true → held s' = held s);
  guar h s s' := held s' = held s ∧ (h = false → keeps s s');
  lock_inv _ := True;
  commit := write_effect a leaks data f_pos;
  back_out := write_effect a leaks data f_pos;
  final g s := idle_repr (held s) s g.1 g.2;
  oops := entry_oops |}.

#[global] Instance reader_laws R : RoleLaws (reader R).
Proof.
  split; simpl.
  - intros h. split; [by intros s _|]. intros s1 s2 s3 H1 H2 ?. by etransitivity; eauto.
  - intros _ s s' [_ ->]. done.
  - intros _ s s' (ll & Hv) Ht. exists ll. by apply (ticked_keeps _ _ Ht).
  - intros s s' (ll & Hv) Hs. exists ll. by eapply view_same.
Qed.

#[global] Instance writer_laws a leaks data f_pos : RoleLaws (writer a leaks data f_pos).
Proof.
  split; simpl; [|by intros h s s' [? _]|done..].
  intros h. split; [by intros s; split; [split|]|].
  intros s1 s2 s3 [[H1 H2] H3] [[H4 H5] H6].
  split; [split; congruence|]. intros Hh. rewrite H6 by done. by apply H3.
Qed.
End invariant.
