(* ===== verification/CharDriverWrite.v ===== *)
(** * [aesd_write] implements [awrite]

    Total correctness of the write path for every kernel and next to any number
    of readers ([writer]): how the device and the file position change on each
    exit, that the mutex is released, that no memory is lost but the leaked
    entry structures, and that the only fault is the unchecked [kmalloc] of an
    entry. *)

From S2P Require Import Prelude Memory CircularBuffer DeviceSpec Kernel Steps CharDriver.
From S2P Require Import CharDriverSpec RelyGuarantee CharDriverInv.

(** Reorder owned cells. *)
Ltac cells_perm :=
  unfold cells; rewrite ?fmap_app; csimpl; rewrite ?app_nil_r; solve_Permutation.

Section write.
Context `{K : Kernel} {HK : KernelLaws K}.
Implicit Types (s : kstate module_state) (ll : list placed) (pt : option placed)
  (leaks : list (loc * aesd_buffer_entry)) (extra : list (loc * block)).

(** The call, as a role. *)
Context (a0 : adev) (leaks0 : list (loc * aesd_buffer_entry)) (data0 : list byte) (f_pos0 : Z).
Abbreviation W := (writer a0 leaks0 data0 f_pos0).

(** *** Statements under the mutex *)

Lemma st_ticked s s' d cs : st s d cs → ticked s s' → st s' d cs.
Proof. intros [Hd Hh] [Ht1 Ht2]. split; congruence. Qed.

Lemma repr_ticked lk s s' ll pt leaks extra :
  repr lk s ll pt leaks extra → ticked s s' → repr lk s' ll pt leaks extra.
Proof. intros (m & Hm & Hs) Ht. exists m. split; [done|]. by eapply st_ticked. Qed.

Lemma repr_held lk s ll pt leaks extra : repr lk s ll pt leaks extra → held s = lk.
Proof. intros [_ Hok]%repr_st. apply (ok_lock _ _ _ _ Hok). Qed.

Lemma st_held s d cs : st s d cs → lock (aesd_device d) = true → held s = true.
Proof. by intros [-> _]. Qed.

Lemma rely_ticked s s0 : rely W true s s0 → ticked s s0.
Proof.
  intros [[Hh Hd] Hl]. specialize (Hl eq_refl). split; [done|].
  destruct (kdev s) as [[] ?], (kdev s0) as [[] ?]; simpl in *. by simplify_eq.
Qed.

Lemma rg_locked {A B} pr (m : M state B) (k : B → prog state A) Q s :
  held s = true →
  (∀ s0, ticked s s0 →
     wp m entry_oops (λ b s', held s' = true ∧ rg W true pr (k b) Q s') s0) →
  rg W true pr (act m ≫= k) Q s.
Proof.
  intros Hl Hm. apply rg_act. intros s0 Ht%rely_ticked.
  eapply wp_mono; [by apply Hm|done|]. intros b s' [Hb Hk]. split; [|done]. split; [|done].
  destruct Ht as [_ ->]. congruence.
Qed.

(** On a state given by its cells. *)
Lemma rg_st {A B} pr (m : M state B) (k : B → prog state A) Q s d cs :
  st s d cs → lock (aesd_device d) = true →
  (∀ s0, st s0 d cs →
     wp m entry_oops (λ b s', held s' = true ∧ rg W true pr (k b) Q s') s0) →
  rg W true pr (act m ≫= k) Q s.
Proof.
  intros Hs Hd Hm. apply rg_locked; [by eapply st_held|]. intros s0 Ht.
  by eapply Hm, st_ticked.
Qed.

(** The next statement of a call that holds the mutex, in the state that [H]
    describes, and the state after it. *)
Ltac rg_next H :=
  eapply rg_st; [exact H|eassumption|]; clear H; let s := fresh "s" in intros s H.
Ltac st_after H := let s := fresh "s" in intros s H; split; [by eapply st_held|].

(** *** Committing one line *)

Lemma push_lines ll x :
  push (line_entry <$> ll) (line_entry x)
  = if decide (length ll < max_ops) then (line_entry <$> (ll ++ [x]), NULL)
    else (line_entry <$> (tail ll ++ [x]), from_option (λ y, Ptr y.1 0) NULL (head ll)).
Proof.
  unfold push. rewrite length_fmap. case_decide; rewrite fmap_app; [done|].
  by destruct ll.
Qed.

Definition set_aside ll : list placed :=
  if decide (length ll < max_ops) then [] else option_list (head ll).

Lemma set_aside_split ll x :
  ll ++ [x] = set_aside ll ++ lastn max_ops (ll ++ [x]) ∨ max_ops < length ll.
Proof.
  unfold set_aside, lastn. rewrite length_app. change max_ops with 10.
  case_decide; simpl.
  - left. replace (length ll + 1 - 10) with 0 by lia. done.
  - destruct (decide (10 < length ll)); [by right|left]. destruct ll as [|y ll]; simpl in *; [lia|].
    replace (length ll + 1 - 9) with 1 by lia. simpl. by rewrite drop_0.
Qed.

Lemma wp_add_line lk s ll pt leaks extra x F (Q : ptr → kstate module_state → Prop) :
  repr lk s ll pt leaks (line_cell x :: extra) → fits x →
  (∀ s', repr lk s' (lastn max_ops (ll ++ [x])) pt leaks
           ((line_cell <$> set_aside ll) ++ extra) →
     Q (from_option (λ y, Ptr y.1 0) NULL (head (set_aside ll))) s') →
  wp (cb_run (aesd_circular_buffer_add_entry (line_entry x))) F Q s.
Proof.
  intros Hr Hx HQ. apply repr_st in Hr as [Hs Hok].
  pose proof (add_entry_spec (circular_buffer (aesd_device (kdev s))) (line_entry x)
    (ok_cb _ _ (ok_lines _ _ _ _ Hok))) as Hadd.
  apply wp_safe_inv in Hadd as (g & b & Hrun & Hwf & Hq).
  rewrite (ok_queue _ _ (ok_lines _ _ _ _ Hok)), push_lines in Hq.
  unfold wp, cb_run. rewrite Hrun.
  pose proof (dev_ok_length _ _ _ _ Hok) as Hlen.
  destruct (set_aside_split ll x) as [Hsp|]; [|lia].
  assert (g = from_option (λ y, Ptr y.1 0) NULL (head (set_aside ll))
    ∧ queue b = line_entry <$> lastn max_ops (ll ++ [x])) as [-> Hqb].
  { unfold set_aside in *. case_decide; simpl in *.
    - injection Hq as -> ->. by rewrite Hsp at 1.
    - injection Hq as -> ->. destruct ll as [|y ll]; simpl in *; [done|].
      injection Hsp as <-. done. }
  assert (cells ll pt leaks ++ line_cell x :: extra ≡ₚ
    cells (lastn max_ops (ll ++ [x])) pt leaks ++ (line_cell <$> set_aside ll) ++ extra)
    as Hperm.
  { transitivity ((line_cell <$> (ll ++ [x])) ++ (line_cell <$> option_list pt)
      ++ (leak_cell <$> leaks) ++ extra); [cells_perm|].
    rewrite Hsp at 1. cells_perm. }
  apply HQ. destruct Hs as [_ Hh]. eexists. split; cycle 1.
  - split; [done|]. simpl. by rewrite <-Hperm.
  - destruct Hok as [Hl [Hcb Hqq Hf] Hp Hf']. destruct (kdev s) as [[] ?]; simpl in *.
    split; simpl; [done| |done|done]. split; [done..|].
    apply Forall_lastn, Forall_app. by split; [|constructor].
Qed.

(** Insertion and the release of the entry it pushed out, followed by [k]. *)
Lemma rg_commit_line {A} s ll pt leaks extra x Q (k : prog state A) :
  repr true s ll pt leaks (line_cell x :: extra) → fits x →
  (∀ s', repr true s' (lastn max_ops (ll ++ [x])) pt leaks extra → rg W true None k Q s') →
  rg W true None
    (garbage ← act (cb_run (aesd_circular_buffer_add_entry (line_entry x)));
     (if decide (garbage ≠ NULL) then act (kfree_const garbage) else mret ());; k) Q s.
Proof.
  intros Hr Hx HQ. apply rg_locked; [by eapply repr_held|]. intros s0 Ht.
  eapply wp_add_line; [by eapply repr_ticked|done|]. intros s' Hr'.
  split; [by eapply repr_held|].
  unfold set_aside in *. destruct (decide _); [|destruct ll as [|y ll]]; simpl in *.
  - by apply HQ.
  - by apply HQ.
  - destruct Hr' as (m & Hok & Hs). pose proof (ok_lock _ _ _ _ Hok) as Hlk.
    eapply rg_st; [done..|]. intros s1 Hs1.
    eapply wp_kfree; [done| |].
    { symmetry. apply (Permutation_middle _ _ (line_cell y)). }
    intros s'' Hs''. split; [by eapply st_held|]. apply HQ. by exists m.
Qed.

(** *** The loop *)

Definition next_newline (bl : loc) (off : Z) (rest : list byte) : ptr :=
  match index_of newline rest with
  | None => NULL
  | Some i => Ptr bl (off + Z.of_nat i)
  end.

(** What the loop leaves, from lines [ll] and unread bytes [rest]. *)
Definition loop_post ll leaks (bl : loc) (pre rest : list byte)
    (r : Z + aesd_buffer_entry) s : Prop :=
  let '(ls, r0) := split_lines rest in
  ∃ ll' leaks', repr true s ll' None leaks' [(bl, Bytes (pre ++ rest))] ∧
    match r with
    | inr w =>
       w = mk_entry (Ptr bl (len pre + len (concat ls))) (len r0) ∧
       ll'.*2 = lastn max_ops (ll.*2 ++ ls) ∧ length leaks' = length leaks + length ls
    | inl e =>
       e = (- EINVAL)%Z ∧ (∃ n, (n ≤ len rest)%Z ∧ alloc_failed n) ∧
       ∃ k, k < length ls ∧ ll'.*2 = lastn max_ops (ll.*2 ++ take k ls) ∧
            length leaks' = length leaks + S k
    end.

(** One more line in front of what a turn of the loop leaves. *)
Lemma loop_post_step ll leaks bl pre rest i x el r s :
  index_of newline rest = Some i → x.2 = take (S i) rest →
  loop_post (lastn max_ops (ll ++ [x])) (el :: leaks) bl (pre ++ take (S i) rest)
    (drop (S i) rest) r s →
  loop_post ll leaks bl pre rest r s.
Proof.
  intros Hi Hx. unfold loop_post. pose proof (split_lines_index rest) as Hsp.
  rewrite Hi in Hsp. destruct Hsp as (Hlt & _ & ->).
  destruct (split_lines (drop (S i) rest)) as [ls r0]. simpl.
  rewrite <-(assoc_L (++)), take_drop, fmap_lastn, fmap_app. csimpl. rewrite Hx.
  intros (ll' & leaks' & Hr & HP). exists ll', leaks'. split; [done|].
  destruct r as [e|w].
  - destruct HP as (-> & (n & Hn & Hf) & k & Hk & -> & ->). split_and!; [done| |].
    { exists n. split; [|done]. rewrite length_drop in Hn. lia. }
    exists (S k). simpl. rewrite lastn_app_lastn, <-(assoc_L (++)).
    split_and!; [lia|done|lia].
  - destruct HP as (-> & -> & ->). rewrite lastn_app_lastn, <-(assoc_L (++)).
    rewrite !length_app. split_and!; [f_equal; f_equal; lia|done|lia].
Qed.

(** The [kmemdup] of a line failed: the entry is leaked, nothing is committed. *)
Lemma loop_post_fail ll leaks bl pre rest i el s :
  index_of newline rest = Some i → alloc_failed (len (take (S i) rest)) →
  repr true s ll None (el :: leaks) [(bl, Bytes (pre ++ rest))] →
  loop_post ll leaks bl pre rest (inl (- EINVAL)%Z) s.
Proof.
  intros Hi Hf Hr. unfold loop_post. pose proof (split_lines_index rest) as Hsp.
  rewrite Hi in Hsp. destruct Hsp as (Hlt & _ & ->).
  exists ll, (el :: leaks). split; [done|]. split; [done|]. split.
  { eexists. split; [|done]. rewrite length_take. lia. }
  exists 0. simpl. rewrite app_nil_r, lastn_all; [split_and!; [lia|done|lia]|].
  rewrite length_fmap. apply repr_st in Hr as [_ Hok]. by eapply dev_ok_length.
Qed.

(** The pieces of a block around the line at the working pointer. *)
Lemma working_load pre rest i :
  i < length rest →
  bytes_load (pre ++ rest) (len pre) (len (take (S i) rest)) = Some (take (S i) rest).
Proof.
  intros Hi. rewrite <-(take_drop (S i) rest) at 1. by apply bytes_load_middle.
Qed.

(** A turn of the loop ends with the search in what is left. *)
Lemma write_lines_next fuel ll leaks bl pre rest i Q s :
  i < length rest → (len (pre ++ rest) ≤ KMALLOC_MAX_SIZE)%Z →
  repr true s ll None leaks [(bl, Bytes (pre ++ rest))] →
  (∀ s', repr true s' ll None leaks
           [(bl, Bytes ((pre ++ take (S i) rest) ++ drop (S i) rest))] →
     rg W true None
       (write_lines fuel (mk_entry (Ptr bl (len (pre ++ take (S i) rest))) (len (drop (S i) rest)))
          (next_newline bl (len (pre ++ take (S i) rest)) (drop (S i) rest))) Q s') →
  rg W true None
    (let working := mk_entry (Ptr bl (len pre + len (take (S i) rest)))
                      (u64 (len rest - len (take (S i) rest))) in
     p ← act (memchr (buffptr working) newline (esize working)); write_lines fuel working p) Q s.
Proof.
  intros Hlt Hmax Hr HQ. pose proof kmalloc_max. rewrite length_app in Hmax.
  assert (length (take (S i) rest) = S i) as Hll by (apply length_take_le; lia).
  cbn [buffptr esize]. rewrite u64_small by lia.
  replace (len rest - len (take (S i) rest))%Z with (len (drop (S i) rest))
    by (rewrite length_drop; lia).
  replace (len pre + len (take (S i) rest))%Z with (len (pre ++ take (S i) rest))
    by (rewrite length_app; lia).
  replace (pre ++ rest) with ((pre ++ take (S i) rest) ++ drop (S i) rest) in Hr
    by (by rewrite <-(assoc_L (++)), take_drop).
  apply rg_locked; [by eapply repr_held|]. intros ? Ht.
  eapply repr_ticked in Hr; [|exact Ht]. destruct (repr_st _ _ _ _ _ _ Hr) as [Hs _].
  eapply wp_memchr; [done|cell_in|by apply bytes_load_app|]. split; [by eapply repr_held|].
  by apply HQ.
Qed.

(** Without a newline the loop is over. *)
Lemma loop_post_done s ll leaks bl pre rest :
  index_of newline rest = None → repr true s ll None leaks [(bl, Bytes (pre ++ rest))] →
  loop_post ll leaks bl pre rest (inr (mk_entry (Ptr bl (len pre)) (len rest))) s.
Proof.
  intros Hi Hr. unfold loop_post. pose proof (split_lines_index rest) as Hsp. rewrite Hi in Hsp.
  rewrite Hsp. exists ll, leaks. split; [done|]. simpl. split_and!; [f_equal; f_equal; lia| |lia].
  rewrite app_nil_r, lastn_all; [done|]. rewrite length_fmap.
  apply repr_st in Hr as [_ Hok]. by eapply dev_ok_length.
Qed.

Lemma write_lines_rg fuel s ll leaks bl pre rest :
  length rest < fuel → (len (pre ++ rest) ≤ KMALLOC_MAX_SIZE)%Z →
  repr true s ll None leaks [(bl, Bytes (pre ++ rest))] →
  rg W true None
    (write_lines fuel (mk_entry (Ptr bl (len pre)) (len rest)) (next_newline bl (len pre) rest))
    (λ h pr r s, h = true ∧ pr = None ∧ loop_post ll leaks bl pre rest r s) s.
Proof.
  revert s ll leaks pre rest.
  induction fuel as [|fuel IH]; intros s ll leaks pre rest Hfuel Hmax Hr; [lia|].
  pose proof kmalloc_max as Hkmax.
  cbn [write_lines buffptr esize]. unfold next_newline.
  pose proof (split_lines_index rest) as Hsp.
  destruct (index_of newline rest) as [i|] eqn:Hi; cycle 1.
  { rewrite decide_False by (intros [_ ?]; done). apply rg_ret. intros s0 Ht%rely_ticked.
    split_and!; [done..|]. apply loop_post_done; [done|]. by eapply repr_ticked. }
  destruct Hsp as (Hlt & _ & _). pose proof Hmax as Hmax'. rewrite length_app in Hmax'.
  pose proof (working_load pre rest i Hlt) as Hload.
  assert (length (take (S i) rest) = S i) as Hll by (apply length_take_le; lia).
  rewrite decide_True by (split; [lia|done]).
  simpl ptr_diff. rewrite decide_True by done.
  destruct Hr as (m & Hok & Hs). pose proof (ok_lock _ _ _ _ Hok) as Hlk.
  rg_next Hs. wp_steps. split; [by eapply st_held|].
  replace (len pre + Z.of_nat i - len pre + 1)%Z with (len (take (S i) rest)) by lia.
  rewrite u64_small by lia. rg_next Hs. eapply wp_kalloc_block; [done| |].
  { (* no entry: the store through NULL *)
    intros ? Hf Hs1. split; [by eapply st_held|]. rg_next Hs1.
    eapply wp_kmemdup; [done|cell_in|done|..];
      (intros; split; [by eapply st_held|]; eapply rg_st; [done..|]; by split). }
  intros ? el t _ Hs1. split; [by eapply st_held|]. rg_next Hs1.
  eapply wp_kmemdup; [done|cell_in|done|..].
  { intros ? Hf Hs2. split; [by eapply st_held|]. rg_next Hs2.
    eapply wp_kwrite_entry; [done|done|]. st_after Hs3. rewrite decide_True by done.
    apply rg_ret. intros ? Ht%rely_ticked. split_and!; [done..|].
    eapply (loop_post_fail _ _ _ _ _ _ (el, mk_entry _ _)); [done..|].
    eapply repr_ticked; [|done]. eapply repr_intro; [done..|]. cells_perm. }
  intros ? nl Hs2 Hfit. split; [by eapply st_held|]. rg_next Hs2.
  eapply wp_kwrite_entry; [done|apply perm_swap|]. st_after Hs3. rewrite decide_False by done.
  rg_next Hs3. eapply wp_kwrite_entry; [done|done|]. cbn [buffptr]. st_after Hs4.
  rg_next Hs4. eapply wp_kread_entry; [done|cell_in|]. split; [by eapply st_held|].
  change (mk_entry (Ptr nl 0) (len (take (S i) rest))) with (line_entry (nl, take (S i) rest)).
  eapply (rg_commit_line _ ll None ((el, _) :: leaks) [(bl, Bytes (pre ++ rest))]);
    [eapply repr_intro; [done|done|cells_perm]|done|].
  intros ? Hr5. eapply rg_mono; [eapply (write_lines_next fuel); [done|done|exact Hr5|]|].
  - intros ? Hr6. eapply IH; [rewrite length_drop; lia| |exact Hr6].
    by rewrite <-(assoc_L (++)), take_drop.
  - intros h pr r ? (-> & -> & HP). split_and!; [done..|].
    eapply loop_post_step; [done| |exact HP]. done.
Qed.

(** *** Statements outside the mutex *)

Abbreviation apending pt := (from_option snd [] pt : list byte).

Lemma partial_entry_size pt : esize (partial_entry pt) = len (apending pt).
Proof. by destruct pt. Qed.

(** The buffer [b] holds the lines [ll], the pending entry is [pe], and besides
    the lines the heap is [cs]. *)
Definition outside b ll (pe : aesd_buffer_entry) (cs : list (loc * block)) s : Prop :=
  lines_ok b ll ∧ ∃ d, st s d ((line_cell <$> ll) ++ cs) ∧
    circular_buffer (aesd_device d) = b ∧ partial (aesd_device d) = pe.

Lemma outside_same b ll pe cs s s' :
  outside b ll pe cs s → unlocked_same s s' → outside b ll pe cs s'.
Proof.
  intros (Hok & d & [<- Hh] & Hb & Hp) [Hh' Hd]. split; [done|]. exists (kdev s').
  split; [split; [done|by rewrite Hh']|].
  destruct (kdev s) as [[] ?], (kdev s') as [[] ?]; simpl in *. by simplify_eq.
Qed.

Lemma outside_keeps b ll pe pe' cs cs' s s' :
  outside b ll pe cs s → outside b ll pe' cs' s' → held s' = held s → keeps s s'.
Proof.
  intros (Hok & d & Hs & Hb & _) (_ & d' & Hs' & Hb' & _) Hl.
  assert (∀ cs x, x ∈ ll → line_cell x ∈ (line_cell <$> ll) ++ cs) as Hin.
  { intros cs0 x Hx. apply elem_of_app. left. by apply (list_elem_of_fmap_2 line_cell). }
  pose proof (proj1 Hs) as <-. pose proof (proj1 Hs') as <-.
  eapply keeps_intro; [exact Hs|exact Hs'|by rewrite Hb|done|congruence|by apply Hin..].
Qed.

Lemma outside_view b ll pe cs s : outside b ll pe cs s → view s ll.
Proof.
  intros (Hok & d & Hs & Hb & _). eapply view_intro; [done|by rewrite Hb|].
  intros x Hx. apply elem_of_app. left. by apply (list_elem_of_fmap_2 line_cell).
Qed.

Lemma outside_perm b ll pe cs cs' s :
  outside b ll pe cs s → cs ≡ₚ cs' → outside b ll pe cs' s.
Proof.
  intros (Hok & d & Hs & Hd) Hp. split; [done|]. exists d. split; [|done]. by rewrite <-Hp.
Qed.

Lemma rg_outside {A B} pr (m : M state B) (k : B → prog state A) Q b ll pe cs s :
  outside b ll pe cs s →
  (∀ s0, outside b ll pe cs s0 →
     wp m entry_oops (λ x s', held s' = held s0 ∧
       ∃ pe' cs', outside b ll pe' cs' s' ∧ rg W false pr (k x) Q s') s0) →
  rg W false pr (act m ≫= k) Q s.
Proof.
  intros Ho Hm. apply rg_act. intros s0 [Hu _].
  pose proof (outside_same _ _ _ _ _ _ Ho Hu) as Ho0.
  eapply wp_mono; [by apply Hm|done|]. intros x s' (Hl & pe' & cs' & Ho' & Hk).
  split; [|done]. split; [done|]. intros _. by eapply outside_keeps.
Qed.

(** Statements on the heap. *)
Lemma rg_heap {A B} pr (m : M state B) (k : B → prog state A) Q b ll pe cs s :
  outside b ll pe cs s →
  (∀ s0 d, st s0 d ((line_cell <$> ll) ++ cs) →
     wp m entry_oops (λ x s', ∃ cs', st s' d ((line_cell <$> ll) ++ cs') ∧
       (outside b ll pe cs' s' → rg W false pr (k x) Q s')) s0) →
  rg W false pr (act m ≫= k) Q s.
Proof.
  intros Ho Hm. eapply rg_outside; [done|]. intros s0 (Hok & d & Hs & Hb & Hp).
  eapply wp_mono; [by apply Hm|done|]. intros x s' (cs' & Hs' & Hk).
  split; [by rewrite (proj1 Hs), (proj1 Hs')|]. exists pe, cs'.
  assert (outside b ll pe cs' s') as Ho' by (split; [done|by exists d]).
  split; [done|]. by apply Hk.
Qed.

Lemma rg_get_partial {A} pr (k : aesd_buffer_entry → prog state A) Q b ll pe cs s :
  outside b ll pe cs s →
  (∀ s', outside b ll pe cs s' → rg W false pr (k pe) Q s') →
  rg W false pr (act get_partial ≫= k) Q s.
Proof.
  intros Ho Hk. eapply rg_outside; [done|]. intros s0 Ho0. unfold get_partial, get_dev. wp_steps.
  split; [done|]. exists pe, cs. split; [done|].
  pose proof Ho0 as (_ & d & [<- _] & _ & ->). by apply Hk.
Qed.

Lemma rg_update_partial {A} pr f (k : () → prog state A) Q b ll pe cs s :
  outside b ll pe cs s →
  (∀ s', outside b ll (f pe) cs s' → rg W false pr (k ()) Q s') →
  rg W false pr (act (update_partial f) ≫= k) Q s.
Proof.
  intros Ho Hk. eapply rg_outside; [done|]. intros s0 (Hok & d & [Hd Hh] & Hb & Hp).
  unfold update_partial, update. wp_steps.
  assert (outside b ll (f pe) cs
    (set_dev (set_partial (f (partial (aesd_device (kdev s0)))) (kdev s0)) s0)) as Ho'.
  { split; [done|]. eexists. split; [by split|]. by rewrite Hd, Hp. }
  split; [by destruct (kdev s0) as [[] ?]|]. exists (f pe), cs. split; [done|]. by apply Hk.
Qed.

(** A finished call leaves a device. *)
Lemma outside_idle b ll pt leaks s :
  outside b ll (partial_entry pt) ((line_cell <$> option_list pt) ++ (leak_cell <$> leaks)) s →
  Forall fits (option_list pt) →
  adev_wf (adev_of ll pt) → (is_Some pt → apending pt ≠ []) →
  idle_repr (held s) s (adev_of ll pt) leaks.
Proof.
  intros (Hok & d & Hs & Hb & Hp) Hf Hwf Hpt. exists ll, pt. split; [|done].
  pose proof (proj1 Hs) as <-. exists (kdev s).
  split; [by split; rewrite ?Hb|]. unfold cells. by rewrite app_nil_r.
Qed.

Lemma repr_outside lk s ll pt leaks extra :
  repr lk s ll pt leaks extra →
  outside (cb s) ll (partial_entry pt)
    ((line_cell <$> option_list pt) ++ (leak_cell <$> leaks) ++ extra) s.
Proof.
  intros (m & Hm & Hs). pose proof (proj1 Hs) as <-. split; [apply (ok_lines _ _ _ _ Hm)|].
  exists (kdev s). split_and!; [|done|apply (ok_partial _ _ _ _ Hm)].
  eapply st_perm; [done|cells_perm].
Qed.
(** [out:], for a call that [outside] describes but for its buffer. *)
Lemma rg_write_out pr retval f_pos b ll pe cs bl bs s (Q : bool → option (answer * ghost) → Z * Z → state → Prop) :
  outside b ll pe (cs ++ [(bl, Bytes bs)]) s →
  (∀ s', outside b ll pe cs s' → Q false pr (retval, f_pos) s') →
  rg W false pr (write_out (Ptr bl 0) retval f_pos) Q s.
Proof.
  intros Ho HQ. unfold write_out. rewrite decide_True by done.
  eapply rg_heap; [done|]. intros s0 d Hs.
  eapply (wp_kfree _ _ _ ((line_cell <$> ll) ++ cs)); [done|solve_Permutation|].
  intros s1 Hs1. exists cs. split; [done|]. intros Ho1. apply rg_ret. intros s2 [Hu _].
  by eapply HQ, outside_same.
Qed.

(** The new pending line is [pt'], the new lines are [ll']. *)
Lemma rg_release ll' pt' leaks' n retval f_pos bl bs s :
  repr true s ll' pt' leaks' [(bl, Bytes bs)] →
  write_result a0 data0 f_pos0 retval f_pos (adev_of ll' pt') n →
  length leaks' = length leaks0 + n →
  adev_wf (adev_of ll' pt') → (is_Some pt' → apending pt' ≠ []) →
  rg W true None (write_release (Ptr bl 0) retval f_pos) (returns W without_bytes) s.
Proof.
  intros Hr Hres Hn Hwf Hpt. apply rg_unlock. intros s0 Ht%rely_ticked.
  eapply repr_ticked in Hr; [|exact Ht].
  exists (retval, f_pos, []), (adev_of ll' pt', leaks'). split.
  { split_and!; [done|done| |by exists n]. exists ll'. split; [by eapply repr_view|done]. }
  pose proof (repr_outside _ _ _ _ _ _ Hr) as Ho. rewrite (assoc_L (++)) in Ho.
  eapply (outside_same _ _ _ _ _ (with_lock false s0)) in Ho; [|done].
  eapply rg_write_out; [exact Ho|]. intros s1 Ho1. split; [done|].
  exists (adev_of ll' pt', leaks'). split; [|done]. eapply outside_idle; [done| |done..].
  destruct (repr_st _ _ _ _ _ _ Hr) as [_ Hok]. apply (ok_part_fits _ _ _ _ Hok).
Qed.

Lemma lines_part_wf a data ls k :
  adev_wf a → ls `prefix_of` (split_lines (apart a ++ data)).1 →
  adev_wf (ADev (lastn max_ops (alines a ++ ls)) k) ↔ newline ∉ k.
Proof.
  intros [Hl Hc Hp] [ls' Hpre].
  destruct (split_lines_spec (apart a ++ data)) as (_ & Hls & _).
  rewrite Hpre in Hls. apply Forall_app in Hls as [Hls _].
  split; [by intros []|]. intros Hk. split; simpl; [|rewrite length_lastn; lia|done].
  by apply Forall_lastn, Forall_app.
Qed.

Lemma dev_ok_partial lk m ll pt pt' :
  dev_ok lk m ll pt → Forall fits (option_list pt') →
  ∀ p, p = partial_entry pt' → dev_ok lk (set_partial p m) ll pt'.
Proof. intros [Hl Hok Hp Hf] Hf' p ->. destruct m as [[] ?]. by split. Qed.

Lemma wp_update_partial s d cs f F (Q : () → state → Prop) :
  st s d cs → (∀ s', st s' (set_partial (f (partial (aesd_device d))) d) cs → Q () s') →
  wp (update_partial f) F Q s.
Proof. intros [<- Hh] HQ. by apply HQ. Qed.

(** After the loop: the rest of the data becomes the pending line. *)
Lemma rg_keep_rest {A} s ll leaks bl bs w pre r0 Q (fail_k ok_k : prog state A) :
  repr true s ll None leaks [(bl, Bytes bs)] → bs = pre ++ r0 →
  w = mk_entry (Ptr bl (len pre)) (len r0) →
  (∀ s', r0 ≠ [] → alloc_failed (len r0) →
     repr true s' ll None leaks [(bl, Bytes bs)] → rg W true None fail_k Q s') →
  (∀ s' pt, apending pt = r0 → (is_Some pt → r0 ≠ []) →
     repr true s' ll pt leaks [(bl, Bytes bs)] → rg W true None ok_k Q s') →
  rg W true None
    (if decide (0 < esize w)%Z then
       p ← act (kmemdup (buffptr w) (esize w));
       act (update_partial (λ e, mk_entry p (esize e)));;
       if decide (p = NULL) then fail_k
       else act (update_partial (λ e, mk_entry (buffptr e) (esize w)));; ok_k
     else ok_k) Q s.
Proof.
  intros Hr -> -> Hfail Hok. cbn [buffptr esize]. destruct (decide _) as [Hpos|Hpos]; cycle 1.
  { eapply (Hok _ None); [|by intros []|done]. by destruct r0; simpl in *; [|lia]. }
  assert (r0 ≠ []) as Hne by (intros ->; simpl in *; lia).
  destruct Hr as (m & Hm & Hs). pose proof (ok_lock _ _ _ _ Hm) as Hlk.
  pose proof (ok_partial _ _ _ _ Hm) as Hp. simpl in Hp. rg_next Hs.
  eapply wp_kmemdup; [done|cell_in|by apply bytes_load_app|..].
  - intros ? Hf Hs1. split; [by eapply st_held|]. rg_next Hs1. eapply wp_update_partial; [done|].
    rewrite Hp. intros ? Hs2. split; [by eapply st_held|]. rewrite decide_True by done.
    apply Hfail; [done..|]. exists (set_partial null_entry m). split; [|done].
    by eapply dev_ok_partial.
  - intros ? l' Hs1 Hfit. split; [by eapply st_held|]. rg_next Hs1.
    eapply wp_update_partial; [done|]. intros ? Hs2. split; [by eapply st_held|].
    rewrite decide_False by done. rg_next Hs2.
    eapply wp_update_partial; [done|]. intros ? Hs3. split; [by eapply st_held|].
    apply (Hok _ (Some (l', r0))); [done|done|].
    eapply repr_intro; [|done|cells_perm].
    apply (dev_ok_partial _ _ _ _ (Some (l', r0)) Hm); [by constructor|done].
Qed.

(** The critical section, on the pending line and the data in one buffer. *)
Lemma write_locked_rg s ll pt bl :
  a0 = adev_of ll pt → let bs := apart a0 ++ data0 in
  adev_wf a0 → (len bs ≤ KMALLOC_MAX_SIZE)%Z →
  (0 ≤ f_pos0)%Z → (f_pos0 + len data0 < 2 ^ 63)%Z →
  repr true s ll None leaks0 [(bl, Bytes bs)] →
  rg W true None (write_locked (Ptr bl 0) (mk_entry (Ptr bl 0) (len bs)) (len data0) f_pos0)
    (returns W without_bytes) s.
Proof.
  intros Ha bs Hwf Hfit Hpos Hend Hr. assert (alines a0 = ll.*2) as Hal by (by rewrite Ha).
  unfold write_locked. cbn [buffptr esize].
  apply rg_locked; [by eapply repr_held|]. intros s0 Ht.
  eapply repr_ticked in Hr; [|exact Ht]. destruct (repr_st _ _ _ _ _ _ Hr) as [Hs _].
  eapply wp_memchr; [done|cell_in|by apply (bytes_load_app [])|]. split; [by eapply repr_held|].
  apply (rg_bind W).
  eapply rg_mono; [eapply (write_lines_rg _ _ _ _ _ [] bs); [rewrite Nat2Z.id; lia|done..]|].
  intros h pr r s1 (-> & -> & Hpost). revert Hpost. unfold loop_post.
  pose proof (split_lines_spec bs) as (Hbs & _ & Hr0).
  assert (∀ ls k, ls `prefix_of` (split_lines bs).1 → newline ∉ k →
    adev_wf (ADev (lastn max_ops (ll.*2 ++ ls)) k)) as Hwf'.
  { intros ls k Hpre ?. rewrite <-Hal.
    by eapply (lines_part_wf a0 data0). }
  pose proof (write_ok a0 data0 f_pos0) as Wok. pose proof (write_no_line a0 data0 f_pos0) as Wline.
  pose proof (write_no_rest a0 data0 f_pos0) as Wrest. unfold awrite in Wok.
  rewrite Hal in Wok, Wline, Wrest. fold bs in Wok, Wline, Wrest.
  destruct (split_lines bs) as [ls r0]. cbn [fst snd] in *.
  intros (ll' & leaks' & Hr1 & Hres). destruct r as [e|w].
  - destruct Hres as (-> & (n & Hn & Hf) & k & Hk & Hll' & Hleak).
    eapply (rg_release _ None); [done| |exact Hleak| |by intros []]; unfold adev_of; rewrite Hll'.
    + by eapply Wline.
    + apply Hwf'; [|apply not_elem_of_nil]. exists (drop k ls). by rewrite take_drop.
  - destruct Hres as (-> & Hll' & Hleak).
    eapply (rg_keep_rest _ _ _ _ _ _ (concat ls) r0); [done|done|done|..].
    + intros s2 Hne Hf Hr2.
      eapply (rg_release _ None); [done| |exact Hleak| |by intros []]; unfold adev_of; rewrite Hll'.
      * by apply Wrest.
      * apply Hwf'; [done|apply not_elem_of_nil].
    + intros s2 pt' <- Hne Hr2. rewrite !s64_small by lia.
      eapply rg_release; [done| |exact Hleak| |exact Hne]; unfold adev_of; rewrite Hll'.
      * by apply Wok.
      * by apply Hwf'.
Qed.
(** *** The call *)

Section call.
Context (ll : list placed) (pt : option placed) (b : aesd_circular_buffer).
Context (Ha : a0 = adev_of ll pt) (Hwf : adev_wf a0) (Hpt : is_Some pt → apending pt ≠ []).
Context (Hfits : Forall fits (option_list pt)).
Context (Hpos : (0 ≤ f_pos0)%Z) (Hend : (f_pos0 + len data0 < 2 ^ 63)%Z).

Abbreviation pending_cells := (line_cell <$> option_list pt).
Abbreviation leak_cells := (leak_cell <$> leaks0).

(** The call gives up before it has touched the pending line. *)
Lemma back_out_returns retval s :
  outside b ll (partial_entry pt) (pending_cells ++ leak_cells) s →
  write_result a0 data0 f_pos0 retval f_pos0 a0 0 →
  returns W without_bytes false None (retval, f_pos0) s.
Proof.
  intros Ho Hres. split; [done|]. exists (a0, leaks0). rewrite Ha in *.
  split; [by eapply outside_idle|]. split_and!; [done|done| |by exists 0].
  exists ll. split; [by eapply outside_view|done].
Qed.

Lemma rg_back_out retval bl bs s :
  outside b ll (partial_entry pt) ((bl, Bytes bs) :: pending_cells ++ leak_cells) s →
  write_result a0 data0 f_pos0 retval f_pos0 a0 0 →
  rg W false None (write_out (Ptr bl 0) retval f_pos0) (returns W without_bytes) s.
Proof.
  intros Ho Hres. eapply (rg_write_out _ _ _ _ _ _ (pending_cells ++ leak_cells)).
  - eapply outside_perm; [done|apply Permutation_cons_append].
  - intros s1 Ho1. by apply back_out_returns.
Qed.

(** From the copied data on: the old pending line goes, the mutex is taken. *)
Lemma rg_write_copied bl s :
  let bs := apart a0 ++ data0 in
  (len bs ≤ KMALLOC_MAX_SIZE)%Z →
  outside b ll (partial_entry pt) (pending_cells ++ leak_cells ++ [(bl, Bytes bs)]) s →
  rg W false None
    (partial ← act get_partial;
     (if decide (buffptr partial ≠ NULL) then
        partial ← act get_partial;
        act (kfree_const (buffptr partial));;
        act (update_partial (λ e, mk_entry NULL (esize e)));;
        act (update_partial (λ e, mk_entry (buffptr e) 0))
      else mret ());;
     r ← lock_statement;
     if decide (r ≠ 0)%Z then write_out (Ptr bl 0) (- ERESTARTSYS)%Z f_pos0
     else write_locked (Ptr bl 0) (mk_entry (Ptr bl 0) (len bs)) (len data0) f_pos0)
    (returns W without_bytes) s.
Proof.
  intros bs Hfit Ho.
  assert (∀ s, outside b ll null_entry (leak_cells ++ [(bl, Bytes bs)]) s →
    rg W false None
      (r ← lock_statement;
       if decide (r ≠ 0)%Z then write_out (Ptr bl 0) (- ERESTARTSYS)%Z f_pos0
       else write_locked (Ptr bl 0) (mk_entry (Ptr bl 0) (len bs)) (len data0) f_pos0)
      (returns W without_bytes) s) as Hlock; cycle 1.
  { eapply rg_get_partial; [done|]. clear Ho. intros s1 Ho.
    destruct pt as [[pl pbs]|]; cbn [partial_entry from_option line_entry buffptr null_entry] in *;
      [rewrite decide_True by done|rewrite decide_False by (intros Hn; by apply Hn); by apply Hlock]. eapply rg_get_partial; [done|]. clear Ho s1. intros s1 Ho.
    eapply rg_heap; [done|]. intros s2 d Hs2.
    eapply (wp_kfree _ _ _ ((line_cell <$> ll) ++ leak_cells ++ [(bl, Bytes bs)]));
      [done|simpl; solve_Permutation|].
    intros s3 Hs3. eexists. split; [done|]. clear Ho. intros Ho.
    eapply rg_update_partial; [done|]. clear Ho. intros s4 Ho.
    eapply rg_update_partial; [done|]. intros s5 Ho5. by apply Hlock. }
  clear s Ho. intros s Ho. apply rg_lock.
  - intros s0 s1 [Hu _] Ht Hl _. rewrite decide_False by (intros Hn; by apply Hn).
    eapply write_locked_rg; [done..|].
    pose proof (outside_same _ _ _ _ _ _ Ho Hu) as Ho0.
    pose proof (outside_same _ _ _ _ _ _ Ho0 (ticked_same _ _ Ht)) as (Hok & d & [<- Hh] & Hb & Hp).
    exists (set_lock true (kdev s1)). split.
    + destruct (kdev s1) as [[] ?]; simpl in *. split; simpl; [done|by rewrite Hb|done|constructor].
    + split; [done|]. unfold cells. simpl. by rewrite <-(assoc_L (++)).
  - intros s0 s1 Hf [Hu _] Ht. rewrite decide_True by done.
    eapply rg_write_out.
    { eapply outside_same, ticked_same; [by eapply outside_same|done]. }
    intros s2 Ho2. split; [done|]. exists (adev_of ll None, leaks0).
    assert (adev_wf (adev_of ll None)) as Hwf'.
    { rewrite Ha in Hwf. destruct Hwf as [Hl Hc _]. split; [done|done|apply not_elem_of_nil]. }
    split; [eapply (outside_idle _ _ None); [done|constructor|done|by intros []]|].
    split_and!; [done|done| |exists 0; split; [|simpl; lia]].
    + exists ll. split; [by eapply outside_view|done].
    + simpl. rewrite Ha. apply (write_interrupted (adev_of ll pt)). done.
Qed.
(** The pending line is copied to the front of the new buffer. *)
Lemma rg_copy_partial {A} bl junk n (k : prog state A) Q s :
  outside b ll (partial_entry pt) ((bl, Bytes junk) :: pending_cells ++ leak_cells) s →
  len junk = (len (apending pt) + n)%Z → (0 ≤ n)%Z →
  (∀ s' junk', len junk' = n →
     outside b ll (partial_entry pt)
       ((bl, Bytes (apending pt ++ junk')) :: pending_cells ++ leak_cells) s' →
     rg W false None k Q s') →
  rg W false None
    (partial ← act get_partial;
     (if decide (buffptr partial ≠ NULL) then
        partial ← act get_partial;
        act (memcpy (Ptr bl 0) (buffptr partial) (esize partial))
      else mret ());; k) Q s.
Proof.
  intros Ho Hlen Hn HQ. eapply rg_get_partial; [done|]. clear Ho. intros s1 Ho.
  destruct pt as [[pl pbs]|]; cbn [partial_entry from_option line_entry buffptr null_entry] in *.
  - rewrite decide_True by done. eapply rg_get_partial; [done|]. clear Ho s1. intros s1 Ho.
    eapply rg_heap; [done|]. intros s2 d Hs2. simpl in *.
    rewrite <-(take_drop (length pbs) junk) in Hs2. set (mid := take _ junk) in *.
    assert (length mid = length pbs) as Hmid by (apply length_take_le; lia).
    eapply (wp_memcpy _ _ _ ((line_cell <$> ll) ++ (pl, Bytes pbs) :: leak_cells) _ _
      (mid ++ drop (length pbs) junk) (pbs ++ drop (length pbs) junk) _ _ _ pbs _ _ Hs2).
    + cell_in.
    + solve_Permutation.
    + rewrite <-(app_nil_r pbs) at 1. by apply (bytes_load_middle []).
    + by apply (bytes_store_app []).
    + intros s3 Hs3. eexists. split; [eapply st_perm; [done|apply Permutation_middle]|].
      intros Ho3. apply (HQ _ (drop (length pbs) junk)); [rewrite length_drop; lia|done].
  - rewrite decide_False by (intros Hne; by apply Hne). apply (HQ _ junk); [simpl in *; lia|done].
Qed.

Lemma aesd_write_rg s :
  (len data0 ≤ MAX_RW_COUNT)%Z →
  outside b ll (partial_entry pt) (pending_cells ++ leak_cells) s →
  rg W false None (aesd_write data0 (len data0) f_pos0) (returns W without_bytes) s.
Proof.
  intros Hmax Ho. pose proof kmalloc_max as Hkmax. unfold MAX_RW_COUNT in Hmax.
  assert (apart a0 = apending pt) as Hap by (by rewrite Ha).
  assert (len (apending pt) ≤ 2 ^ 32)%Z as Hpend.
  { destruct pt as [x|]; simpl in *; [|lia]. inversion_clear Hfits. unfold fits in *. lia. }
  unfold aesd_write. eapply rg_get_partial; [done|]. clear Ho s. intros s Ho.
  rewrite partial_entry_size, u64_s64, u64_small by lia.
  replace (len (apending pt) + len data0)%Z with (len (apart a0 ++ data0))
    by (rewrite Hap, length_app; lia).
  eapply rg_heap; [done|]. intros s1 d Hs1. eapply wp_kmalloc; [done|lia| |].
  { intros s2 Hf Hs2. eexists. split; [done|]. intros Ho2.
    rewrite decide_True by done. apply rg_ret. intros s3 [Hu _].
    eapply back_out_returns; [by eapply outside_same|by apply write_no_buffer]. }
  intros s2 bl junk Hjunk Hfit Hs2. eexists. split; [eapply st_perm; [done|apply Permutation_middle]|].
  clear Ho. intros Ho. cbn [buffptr]. rewrite decide_False by done.
  apply (rg_copy_partial bl junk (len data0)); [done|rewrite length_app, Hap in Hjunk; lia|lia|].
  clear Ho. intros s3 junk' Hjunk' Ho. eapply rg_get_partial; [done|].
  clear Ho s1 s2 s3 Hs1 Hs2. intros s3 Ho. rewrite partial_entry_size.
  eapply rg_heap; [done|]. intros s4 d' Hs4.
  eapply (wp_copy_from_user _ _ _ ((line_cell <$> ll) ++ pending_cells ++ leak_cells) bl
    (apending pt) junk' []).
  - exact Hs4.
  - rewrite app_nil_r. symmetry. apply Permutation_middle.
  - done.
  - done.
  - done.
  - intros s5 Hs5. eexists. split; [eapply st_perm; [done|apply Permutation_middle]|].
    intros Ho5. rewrite decide_False by (intros Hne; by apply Hne). rewrite app_nil_r in Ho5.
    rewrite <-Hap in Ho5. apply rg_write_copied; [done|].
    eapply outside_perm; [done|solve_Permutation].
  - intros s5 r junk'' Hf Hr Hlen Hs5. eexists.
    split; [eapply st_perm; [done|apply Permutation_middle]|].
    intros Ho5. rewrite decide_True by done.
    by eapply rg_back_out, write_no_copy.
Qed.
End call.
End write.

Section alone.
Context `{K : Kernel} {HK : KernelLaws K}.

(** A write next to readers, from a device without another writer. *)
Lemma aesd_write_idle_rg lk s a leaks data f_pos :
  idle_repr lk s a leaks → vfs_ok (Write data f_pos) →
  rg (writer a leaks data f_pos) false None (aesd_write data (len data) f_pos)
    (returns (writer a leaks data f_pos) without_bytes) s.
Proof.
  intros (ll & pt & Hr & -> & Hwf & Hpt) (Hmax & Hpos & Hend).
  pose proof (proj2 (repr_st _ _ _ _ _ _ Hr)) as Hok.
  eapply aesd_write_rg; [done|done|done|apply (ok_part_fits _ _ _ _ Hok)|done..|].
  apply repr_outside in Hr. by rewrite app_nil_r in Hr.
Qed.

Definition write_post (a : adev) (leaks : list (loc * aesd_buffer_entry)) data f_pos
    (r : Z * Z) s : Prop :=
  ∃ a' leaks' n, write_result a data f_pos r.1 r.2 a' n ∧
    driver_repr s a' leaks' ∧ length leaks' = length leaks + n.

(** And without readers. *)
Lemma aesd_write_spec s a leaks data f_pos :
  driver_repr s a leaks → vfs_ok (Write data f_pos) →
  wp (run (aesd_write data (len data) f_pos)) entry_oops (write_post a leaks data f_pos) s.
Proof.
  intros Hs Hok. pose proof (aesd_write_idle_rg _ _ _ _ _ _ Hs Hok) as Hp.
  assert (PreOrder (λ _ _ : state, True)) by done.
  eapply wp_mono; [eapply (rg_run _ (λ _ _, True) (λ _ _ _ _, I) (λ _ _ _, I) false); [| |exact Hp]|done|].
  - destruct Hs as (ll & pt & Hr & _). by eapply repr_held.
  - done.
  - intros r s' (_ & h & pr & Hl & Hcom & -> & [a' leaks'] & Hfin & Hpr).
    assert (∃ s1, commit (writer a leaks data f_pos) (without_bytes r) (a', leaks') s1)
      as (s1 & _ & _ & _ & n & Hres & Hn).
    { destruct pr as [[x g']|]; [|by exists s'].
      destruct Hpr as [<- <-], Hcom as [?|(s1 & _ & Hc)]; [done|by exists s1]. }
    exists a', leaks', n. split_and!; [done| |done]. simpl in Hfin. by rewrite Hl in Hfin.
Qed.
End alone.
