(* ===== verification/CharDriverRead.v ===== *)
(** * [aesd_read] implements [aread]

    First the rules for the calls that only look at the device, whatever the
    other threads do meanwhile ([reader]); then [aesd_read], whose answer on
    every branch is [read_result]. *)

From S2P Require Import Prelude Memory CircularBuffer DeviceSpec Kernel Steps CharDriver.
From S2P Require Import CharDriverSpec RelyGuarantee CharDriverInv.

Section reader.
Context `{K : Kernel} {HK : KernelLaws K} (R : adev → answer → Prop).
Implicit Types (s : kstate module_state) (ll : list placed) (b : aesd_circular_buffer).

(** The call holds the mutex, and the buffer [b] is the lines [ll]. *)
Definition inside b ll s : Prop := held s = true ∧ cb s = b ∧ view s ll.

Lemma inside_keeps b ll s s' : inside b ll s → keeps s s' → inside b ll s'.
Proof. intros (Hl & Hb & Hv) (H1 & H2 & H3). split_and!; [congruence..|by apply H3]. Qed.

Lemma inside_lines b ll s : inside b ll s → lines_ok b ll.
Proof. by intros (_ & <- & [Hok _]). Qed.

Lemma rg_reader_lock {A} (k : Z → prog state A) Q s :
  (∀ s b ll, inside b ll s → rg (reader R) true None (k 0%Z) Q s) →
  (∀ s, lock_failed → rg (reader R) false None (k (- EINTR)%Z) Q s) →
  rg (reader R) false None (lock_statement ≫= k) Q s.
Proof.
  intros Hok Hf. apply rg_lock; [|by eauto].
  intros s0 s1 _ _ Hl (ll & Hv). apply (Hok _ (cb s1) ll).
  split_and!; [done|done|]. by eapply view_same.
Qed.

(** A statement that only moves the kernel's counter. *)
Lemma rg_inside {A B} (m : M state B) (k : B → prog state A) Q b ll s :
  inside b ll s →
  (∀ s0, inside b ll s0 →
     wp m safe (λ x s', ticked s0 s' ∧
                (inside b ll s' → rg (reader R) true None (k x) Q s')) s0) →
  rg (reader R) true None (act m ≫= k) Q s.
Proof.
  intros Hi Hm. apply rg_act. intros s0 Hr. assert (inside b ll s0) as Hi0
    by (by eapply inside_keeps; [|by apply Hr]).
  eapply wp_mono; [by apply Hm|done|]. intros x s' [Ht Hk]. split; [done|].
  by eapply Hk, inside_keeps, ticked_keeps.
Qed.

(** Every reader that took the mutex ends like this. *)
Lemma rg_reader_unlock {A} (ans : A → answer) (r : A) b ll s :
  inside b ll s → (∀ a, adev_wf a → alines a = ll.*2 → R a (ans r)) →
  rg (reader R) true None (unlock_statement;; mret r) (returns (reader R) ans) s.
Proof.
  intros Hi HR. apply rg_unlock. intros s0 Hr. exists (ans r), (adev_empty, []).
  assert (inside b ll s0) as (_ & _ & Hv) by (by eapply inside_keeps; [|by apply Hr]).
  split.
  - intros a Hwf Hin. apply HR; [done|]. by eapply lines_in_view.
  - apply rg_ret. intros s1 _. split; [done|]. by eexists.
Qed.

(** And one that did not like this. *)
Lemma rg_reader_ret {A} (ans : A → answer) (r : A) s :
  (∀ a, adev_wf a → R a (ans r)) →
  rg (reader R) false None (mret r) (returns (reader R) ans) s.
Proof.
  intros HR. apply rg_ret. intros s0 _. split; [done|]. exists (adev_empty, []).
  done.
Qed.

Lemma cb_run_pure {A} (m : M aesd_circular_buffer A) a s :
  m (cb s) = Ok a (cb s) → cb_run m s = Ok a s.
Proof.
  intros Hm. unfold cb_run. rewrite Hm. by destruct s as [? ? [[] ?]].
Qed.

(** The search, on the lines. *)
Lemma rg_find {A} off (k : option (Z * Z) → prog state A) Q b ll s :
  inside b ll s → (0 ≤ off < 2 ^ 64)%Z →
  (∀ s', inside b ll s' →
     rg (reader R) true None
       (k (prod_map (slot b) id <$> locate ((λ l : list byte, len l) <$> ll.*2) off)) Q s') →
  rg (reader R) true None
    (act (cb_run (aesd_circular_buffer_find_entry_offset_for_fpos off)) ≫= k) Q s.
Proof.
  intros Hi Hoff Hk. eapply rg_inside; [done|]. intros s0 Hi0.
  pose proof (inside_lines _ _ _ Hi0) as Hok. unfold wp.
  rewrite (cb_run_pure _ _ s0 (find_spec _ off (ok_cb _ _ (proj1 (proj2 (proj2 Hi0))))
    (queue_sizes_nonneg (proj1 (proj2 (proj2 Hi0)))) Hoff)).
  destruct Hi0 as (Hl & Hb & Hv). rewrite Hb, (queue_sizes Hok). split; [done|]. by apply Hk.
Qed.

Lemma rg_load_entry {A} i e (k : aesd_buffer_entry → prog state A) Q b ll s :
  inside b ll s → entry b !! Z.to_nat i = Some e →
  (∀ s', inside b ll s' → rg (reader R) true None (k e) Q s') →
  rg (reader R) true None (act (cb_run (load_entry i)) ≫= k) Q s.
Proof.
  intros Hi He Hk. eapply rg_inside; [done|]. intros s0 Hi0.
  unfold wp. rewrite (cb_run_pure _ e); [split; [done|by apply Hk]|].
  destruct Hi0 as (_ & -> & _). unfold load_entry. cbv [mbind M_bind gets id]. by rewrite He.
Qed.

Lemma rg_copy_to_user {A} x off n r (k : Z * list byte → prog state A) Q b ll s :
  inside b ll s → x ∈ ll → bytes_load x.2 off n = Some r →
  (∀ s', inside b ll s' → rg (reader R) true None (k (0%Z, r)) Q s') →
  (∀ s' left bs', copy_failed n → left ≠ 0%Z → inside b ll s' →
     rg (reader R) true None (k (left, bs')) Q s') →
  rg (reader R) true None (act (copy_to_user (Ptr x.1 off) n) ≫= k) Q s.
Proof.
  intros Hi Hx Hr Hok Hf. eapply rg_inside; [done|]. intros s0 Hi0.
  unfold copy_to_user. wp_step. unfold kread. wp_steps.
  destruct Hi0 as (_ & _ & [_ Hin]). rewrite (Hin _ Hx), Hr. wp_steps. unfold tick. wp_steps.
  split; [done|]. destruct (decide (user_uncopied (ktick s0) n = 0%Z)) as [E|E].
  - rewrite E, Z.sub_0_r, take_ge; [by apply Hok|].
    unfold bytes_load in Hr. case_decide; simplify_eq. rewrite length_take. lia.
  - apply Hf; [by exists (ktick s0)|done].
Qed.

(** Without other threads a reader leaves the device alone. *)
Lemma wp_reader {A} (p : prog state A) (ans : A → answer) s a leaks :
  driver_repr s a leaks → rg (reader R) false None p (returns (reader R) ans) s →
  wp (run p) safe (λ x s', driver_repr s' a leaks ∧ R a (ans x)) s.
Proof.
  intros Hs Hp. pose proof Hs as (ll & pt & Hr & -> & Hwf & Hpt).
  pose proof (repr_view _ _ _ _ _ _ Hr) as Hv.
  eapply wp_mono; [eapply (rg_run (reader R) unlocked_same (λ _, ticked_same) (λ _ _ H, H) false None p _ s)|done|].
  - apply repr_st in Hr as [_ Hok]. apply (ok_lock _ _ _ _ Hok).
  - by exists ll.
  - exact Hp.
  - intros x s' ([Hh Hd] & h & pr & Hl & Hcom & -> & g & _ & Hpr). split.
    + exists ll, pt. split; [|done]. destruct Hr as (m & Hm & [Hm' Hheap]). exists m.
      split; [done|]. split; [|by rewrite Hh].
      rewrite <-Hm' in *. pose proof (ok_lock _ _ _ _ Hm) as Hl0.
      destruct (kdev s) as [[] ?], (kdev s') as [[] ?]; simpl in *. by simplify_eq.
    + assert (∀ s1, unlocked_same s s1 → lines_in s1 (alines (adev_of ll pt))) as Hin.
      { intros s1 Hs1. exists ll. split; [by eapply view_same|done]. }
      destruct pr as [[x' g']|].
      * destruct Hpr as [<- ->], Hcom as [?|(s1 & Hs1 & Hc)]; [done|]. by apply Hc, Hin.
      * by apply Hpr.
Qed.
End reader.

Section read.
Context `{K : Kernel} {HK : KernelLaws K}.
Implicit Types (ll : list placed).

(** A located position lies inside the contents. *)
Lemma locate_bound b ll off i o :
  lines_ok b ll → (0 ≤ off)%Z →
  locate ((λ l : list byte, len l) <$> ll.*2) off = Some (i, o) →
  ∃ x, ll !! i = Some x ∧ (0 ≤ o < len x.2)%Z ∧ (off + len x.2 ≤ 12 * 2 ^ 32)%Z.
Proof.
  intros Hok Hoff Hloc. pose proof (content_bound Hok) as Hb.
  destruct (locate_Some _ _ _ _ Hoff Hloc) as (l & Hl & Ho & E).
  rewrite list_lookup_fmap in Hl. apply fmap_Some in Hl as (x & Hx & ->).
  exists x. split; [done|]. split; [done|].
  pose proof (Forall_lookup_1 _ _ _ _ (ok_fits _ _ Hok) Hx) as Hf. unfold fits in Hf.
  pose proof kmalloc_max.
  assert (len (concat (take i ll.*2)) ≤ len (concat ll.*2))%Z; [|lia].
  rewrite <-(take_drop i ll.*2) at 2. rewrite concat_app, length_app. lia.
Qed.

(** The copy is bounded by the rest of the line and by [count]. *)
Lemma read_take (l : list byte) (o count : Z) :
  (0 ≤ o < len l)%Z → (0 ≤ count)%Z →
  let n := ((len l - o) `min` count)%Z in
  take (Z.to_nat count) (drop (Z.to_nat o) l) = take (Z.to_nat n) (drop (Z.to_nat o) l)
  ∧ len (take (Z.to_nat n) (drop (Z.to_nat o) l)) = n
  ∧ bytes_load l o n = Some (take (Z.to_nat n) (drop (Z.to_nat o) l)).
Proof.
  intros Ho Hc n. split_and!.
  - subst n. destruct (decide (len l - o ≤ count)%Z);
      [rewrite Z.min_l by lia|by rewrite Z.min_r by lia].
    rewrite !take_ge; rewrite ?length_drop; [done|lia..].
  - rewrite length_take, length_drop. lia.
  - unfold bytes_load. by rewrite decide_True by lia.
Qed.

(** A non-negative position is the [size_t] the search sees. *)
Lemma u64_pos_small f_pos :
  (- 2 ^ 63 ≤ f_pos < 2 ^ 63)%Z → (u64 f_pos < 2 ^ 63)%Z → u64 f_pos = f_pos.
Proof.
  intros Hp Hu. unfold u64, u_wrap in *. destruct (decide (0 ≤ f_pos)%Z).
  - rewrite Z.mod_small; lia.
  - rewrite <-(Z.mod_add f_pos 1), Z.mod_small in Hu by lia. lia.
Qed.

(** What a read of the lines [ll] returns. *)
Lemma read_lines_ok ll count f_pos bs a :
  alines a = ll.*2 →
  bs = match locate ((λ l : list byte, len l) <$> ll.*2) (u64 f_pos) with
       | Some (i, o) => take (Z.to_nat count) (drop (Z.to_nat o) (ll.*2 !!! i))
       | None => []
       end →
  performs a (Read count f_pos) (len bs, (f_pos + len bs)%Z, bs) a.
Proof. intros Ha ->. constructor. apply read_ok. unfold aread. by rewrite Ha. Qed.

(** [aesd_read] returns what [read_result] says, whatever other threads do
    before, between and after its statements. *)
Lemma aesd_read_rg count f_pos s :
  (0 ≤ count < 2 ^ 63)%Z → (- 2 ^ 63 ≤ f_pos < 2 ^ 63)%Z →
  let ro := reader (λ a x, performs a (Read count f_pos) x a) in
  rg ro false None (aesd_read count f_pos) (returns ro id) s.
Proof.
  intros Hcount Hpos ro. assert (0 ≤ u64 f_pos < 2 ^ 64)%Z as Hu by (by apply u_wrap_range).
  unfold aesd_read. apply rg_reader_lock; cycle 1.
  { intros s1 Hf. rewrite decide_True by done. apply rg_reader_ret.
    intros a _. constructor. by apply read_interrupted. }
  intros s1 b ll Hi1. rewrite decide_False by (intros Hn; by apply Hn).
  pose proof (inside_lines _ _ _ Hi1) as Hok.
  eapply rg_find; [done..|]. intros s2 Hi2.
  pose proof (λ bs a, read_lines_ok ll count f_pos bs a) as Hread.
  destruct (locate _ (u64 f_pos)) as [[i o]|] eqn:Hloc; cbn [fmap option_fmap option_map]; cycle 1.
  { eapply rg_reader_unlock; [done|]. intros a _ Ha.
    specialize (Hread [] a Ha eq_refl). simpl in Hread. by rewrite Z.add_0_r in Hread. }
  destruct (locate_bound _ _ _ _ _ Hok (proj1 Hu) Hloc) as (x & Hx & Ho & Hb).
  destruct (read_take x.2 o count Ho ltac:(lia)) as (Htake & Hlen & Hload).
  rewrite (list_lookup_total_correct _ i x.2), Htake in Hread by (by rewrite list_lookup_fmap, Hx).
  cbn [prod_map fst snd]. change (id o) with o.
  eapply rg_load_entry; [done|by eapply slot_lookup|]. intros s3 Hi3. cbn [line_entry esize buffptr].
  rewrite (u64_small (len x.2 - o)) by lia. set (n := ((len x.2 - o) `min` count)%Z) in *.
  rewrite (s64_small n) by lia. case_decide as Hz.
  { rewrite Hz in *. eapply rg_reader_unlock; [done|]. intros a _ Ha.
    specialize (Hread _ a Ha eq_refl). simpl in Hread. by rewrite Z.add_0_r in Hread. }
  rewrite (u64_small n) by lia. cbn [ptr_add]. rewrite Z.add_0_l.
  eapply rg_copy_to_user; [done|by eapply list_elem_of_lookup_2|done|..].
  - intros s4 Hi4. rewrite decide_False by (intros Hn; by apply Hn).
    rewrite s64_small by (rewrite <-(u64_pos_small f_pos) by lia; lia).
    eapply rg_reader_unlock; [done|]. intros a _ Ha.
    specialize (Hread _ a Ha eq_refl). by rewrite Hlen in Hread.
  - intros s4 lft bs' Hf Hl Hi4. rewrite decide_True by done.
    eapply rg_reader_unlock; [done|]. intros a _ Ha.
    constructor. by eapply read_fault.
Qed.

Lemma aesd_read_spec s a leaks count f_pos :
  driver_repr s a leaks → (0 ≤ count < 2 ^ 63)%Z → (- 2 ^ 63 ≤ f_pos < 2 ^ 63)%Z →
  wp (run (aesd_read count f_pos)) safe
    (λ r s', driver_repr s' a leaks ∧ read_result a count f_pos r.1.1 r.1.2 r.2) s.
Proof.
  intros Hs Hc Hp. eapply wp_mono; [eapply wp_reader; [done|by apply aesd_read_rg]|done|].
  intros [[r p] bs] s' [Hs' Hr]. split; [done|]. simpl in Hr. by inversion Hr.
Qed.
End read.
