(* ===== verification/CharDriverSeek.v ===== *)
(** * [aesd_llseek] and the seek [ioctl] compute positions in the contents

    What the two seeks return and where they leave [filp->f_pos], on every
    branch, in terms of the lines of the abstract device, whatever other
    threads do meanwhile. *)

From S2P Require Import Prelude Memory CircularBuffer DeviceSpec Kernel Steps CharDriver.
From S2P Require Import CharDriverSpec RelyGuarantee CharDriverInv CharDriverRead.

Section sums.
Context `{K : Kernel} {HK : KernelLaws K}.
Context {b : aesd_circular_buffer} {ll : list placed} (Hok : lines_ok b ll).

Lemma entry_sizes_nonneg : Forall (λ e, 0 ≤ esize e)%Z (entry b).
Proof.
  rewrite (entry_queue_perm _ (ok_cb _ _ Hok)). apply Forall_app. split.
  - by eapply queue_sizes_nonneg.
  - by apply Forall_replicate.
Qed.

Lemma entry_sizes_total : sum_list_Z (esize <$> entry b) = len (concat ll.*2).
Proof.
  rewrite sum_sizes_queue by apply (ok_cb _ _ Hok).
  rewrite (queue_sizes Hok). apply sum_list_Z_length_concat.
Qed.

Lemma sum_take_le (es : list aesd_buffer_entry) i :
  Forall (λ e, 0 ≤ esize e)%Z es →
  (0 ≤ sum_list_Z (esize <$> take i es) ≤ sum_list_Z (esize <$> es))%Z.
Proof.
  intros Hpos. revert i. induction Hpos as [|e es He Hes IH]; intros [|i]; csimpl; try lia.
  - specialize (IH 0). rewrite take_0 in IH. csimpl in IH. lia.
  - specialize (IH i). lia.
Qed.

(** One more slot keeps the sum in a [loff_t]. *)
Lemma sum_slots_S i e :
  entry b !! i = Some e →
  s64 (sum_list_Z (esize <$> take i (entry b)) + esize e)
  = sum_list_Z (esize <$> take (S i) (entry b)).
Proof.
  intros He. pose proof (sum_take_le (entry b) (S i) entry_sizes_nonneg) as Hle.
  rewrite entry_sizes_total in Hle. pose proof (content_bound Hok).
  assert (sum_list_Z (esize <$> take (S i) (entry b))
          = sum_list_Z (esize <$> take i (entry b)) + esize e)%Z as E.
  { rewrite (take_S_r _ _ e), fmap_app, sum_list_Z_app by done. csimpl. lia. }
  rewrite <-E. apply s64_small. lia.
Qed.
End sums.

(** The length of the first [k] lines, one more at a time. *)
Lemma concat_take_S (ls : list (list byte)) k :
  len (concat (take (S k) ls))
  = (len (concat (take k ls)) + from_option (λ l : list byte, len l) 0 (ls !! k))%Z.
Proof.
  destruct (ls !! k) as [l|] eqn:E; simpl.
  - rewrite (take_S_r _ _ l), concat_app, length_app by done. simpl. rewrite app_nil_r. lia.
  - apply lookup_ge_None in E. rewrite !take_ge by lia. lia.
Qed.

(** A seek stays inside the contents. *)
Lemma aseekto_bound a cmd off pos :
  (0 ≤ off)%Z → aseekto a cmd off = Some pos → (0 ≤ pos ≤ len (acontent a))%Z.
Proof.
  unfold aseekto. intros Ho Hs. case_decide as Hd; simplify_eq.
  assert (len (concat (take (S (Z.to_nat cmd)) (alines a))) ≤ len (acontent a))%Z as Hle.
  { unfold acontent. rewrite <-(take_drop (S (Z.to_nat cmd)) (alines a)) at 2.
    rewrite concat_app, length_app. lia. }
  rewrite concat_take_S in Hle. lia.
Qed.

Section seek.
Context `{K : Kernel} {HK : KernelLaws K} (R : adev → answer → Prop).
Implicit Types (ll : list placed) (b : aesd_circular_buffer).

(** *** The total size *)

Lemma total_size_rg {A} n i (k : Z → prog state A) Q b ll s :
  inside b ll s → i + n = max_ops →
  (∀ s', inside b ll s' → rg (reader R) true None (k (len (concat ll.*2))) Q s') →
  rg (reader R) true None
    (total_size n (Z.of_nat i) (sum_list_Z (esize <$> take i (entry b))) ≫= k) Q s.
Proof.
  intros Hi Hn Hk. revert s i Hi Hn.
  induction n as [|n IH]; intros s i Hi Hn; pose proof (inside_lines _ _ _ Hi) as Hok;
    pose proof (wf_len _ (ok_cb _ _ Hok)) as Hl.
  - cbn [total_size]. rewrite take_ge, (entry_sizes_total Hok) by lia. by apply Hk.
  - destruct (lookup_lt_is_Some_2 (entry b) i ltac:(lia)) as [e He].
    apply (rg_load_entry R (Z.of_nat i) e (λ e, total_size n (Z.of_nat i + 1)
      (s64 (sum_list_Z (esize <$> take i (entry b)) + esize e)) ≫= k) Q b ll s);
      [done|by rewrite Nat2Z.id|].
    intros s' Hi'. rewrite (sum_slots_S Hok) by done.
    replace (Z.of_nat i + 1)%Z with (Z.of_nat (S i)) by lia. apply IH; [done|lia].
Qed.

Lemma aesd_llseek_rg f_pos offset whence s :
  (∀ a r, llseek_post a f_pos offset whence r → R a (without_bytes r)) →
  rg (reader R) false None (aesd_llseek f_pos offset whence) (returns (reader R) without_bytes) s.
Proof.
  intros HR. unfold aesd_llseek. apply rg_reader_lock; cycle 1.
  { intros s1 Hf. rewrite decide_True by done. apply rg_reader_ret.
    intros a _. apply HR. by left. }
  intros s1 b ll Hi1. rewrite decide_False by (intros Hn; by apply Hn).
  eapply (total_size_rg max_ops 0); [done..|]. intros s2 Hi2.
  eapply rg_reader_unlock; [done|]. intros a _ Ha. apply HR. right.
  unfold acontent. by rewrite Ha.
Qed.

(** *** The seek command *)

Lemma rg_load_from_out {A} n (k : aesd_buffer_entry → prog state A) Q b ll s :
  inside b ll s → n < max_ops →
  (∀ s' e, inside b ll s' → esize e = from_option (λ l : list byte, len l) 0%Z (ll.*2 !! n) →
     rg (reader R) true None (k e) Q s') →
  rg (reader R) true None (load_from_out (Z.of_nat n) ≫= k) Q s.
Proof.
  intros Hi Hn Hk. pose proof (inside_lines _ _ _ Hi) as Hok.
  change (load_from_out (Z.of_nat n) ≫= k) with
    (d ← act get_dev;
     act (cb_run (load_entry ((out_offs (circular_buffer d) + Z.of_nat n) `mod` MAX_OPS))) ≫= k).
  eapply rg_inside; [done|]. intros s0 Hi0. unfold get_dev. wp_steps.
  split; [done|]. intros _. assert (cb s0 = b) as -> by apply Hi0.
  eapply rg_load_entry; [done|by apply slot_lookup_total; [apply (ok_cb _ _ Hok)|]|].
  intros s' Hi'. apply Hk; [done|]. apply (queue_default Hok).
Qed.

Lemma sum_before_rg {A} n i (k : Z * Z → prog state A) Q b ll s :
  inside b ll s → i + n < max_ops →
  (∀ s', inside b ll s' → rg (reader R) true None
     (k (len (concat (take (i + n) ll.*2)), Z.of_nat (i + n))) Q s') →
  rg (reader R) true None
    (sum_before n (Z.of_nat i) (len (concat (take i ll.*2))) ≫= k) Q s.
Proof.
  revert s i. induction n as [|n IH]; intros s i Hi Hn Hk.
  - cbn [sum_before]. rewrite Nat.add_0_r in Hk. by apply Hk.
  - cbn [sum_before]. pose proof (inside_lines _ _ _ Hi) as Hok.
    apply (rg_load_from_out i (λ e, sum_before n (Z.of_nat i + 1)
      (s64 (len (concat (take i ll.*2)) + esize e)) ≫= k) Q b ll s); [done|lia|].
    intros s1 e Hi1 ->. rewrite <-concat_take_S.
    pose proof (concat_take_bound Hok (S i)). rewrite s64_small by lia.
    replace (Z.of_nat i + 1)%Z with (Z.of_nat (S i)) by lia.
    apply IH; [done|lia|]. by replace (S i + n) with (i + S n) by lia.
Qed.

Lemma aesd_adjust_file_offset_rg f_pos arg s :
  u32_range (write_cmd arg) → u32_range (write_cmd_offset arg) →
  (∀ a r, seek_post a f_pos arg r → R a (without_bytes r)) →
  rg (reader R) false None (aesd_adjust_file_offset f_pos arg)
    (returns (reader R) without_bytes) s.
Proof.
  intros Hcmd Hoff HR. unfold u32_range in *. unfold aesd_adjust_file_offset. case_decide as Hmax.
  { apply rg_reader_ret. intros a _. apply HR. right. unfold aseekto.
    by rewrite decide_False by lia. }
  apply rg_reader_lock; cycle 1.
  { intros s1 Hf. rewrite decide_True by done. apply rg_reader_ret.
    intros a _. apply HR. by left. }
  intros s1 b ll Hi1. rewrite decide_False by (intros Hn; by apply Hn).
  pose proof (inside_lines _ _ _ Hi1) as Hok.
  eapply (sum_before_rg (Z.to_nat (write_cmd arg)) 0); [done|cb_lia|]. intros s2 Hi2.
  cbn [fst snd Nat.add]. eapply rg_load_from_out; [done|cb_lia|]. intros s3 e Hi3 ->.
  pose proof (concat_take_bound Hok (Z.to_nat (write_cmd arg))).
  case_decide as Hgt; (eapply rg_reader_unlock; [done|]); intros a _ Ha; apply HR; right;
    unfold aseekto; rewrite Ha.
  - by rewrite decide_False by lia.
  - rewrite decide_True by lia. by rewrite s64_small by lia.
Qed.

Lemma aesd_ioctl_rg f_pos cmd arg s :
  u32_range (write_cmd arg) → u32_range (write_cmd_offset arg) →
  (∀ a r, ioctl_post a f_pos cmd arg r → R a (without_bytes r)) →
  rg (reader R) false None (aesd_ioctl f_pos cmd arg) (returns (reader R) without_bytes) s.
Proof.
  intros Hcmd Hoff HR. unfold aesd_ioctl. unfold ioctl_post in HR.
  assert (cmd = AESDCHAR_IOCSEEKTO →
    _IOC_TYPE cmd = AESD_IOC_MAGIC ∧ _IOC_NR cmd = 1%Z) as Hdec.
  { intros ->. split; [by apply ioc_type_iowr|by apply ioc_nr_iowr]. }
  destruct (decide (cmd = AESDCHAR_IOCSEEKTO)) as [E|E].
  - destruct (Hdec E) as [Ht Hn]. rewrite decide_False by (intros Hne; by apply Hne).
    rewrite decide_False by (rewrite Hn; unfold AESDCHAR_IOC_MAXNR; lia).
    apply rg_act. intros s0 _. unfold copy_seekto, tick. wp_steps. split; [done|].
    case_decide.
    + apply rg_reader_ret. intros a _. apply HR. right. split; [by eexists|done].
    + apply aesd_adjust_file_offset_rg; [done..|]. intros a r Hr. apply HR. by left.
  - repeat case_decide; apply rg_reader_ret; intros a _; by apply HR.
Qed.
End seek.

(** *** Without other threads *)

Section alone.
Context `{K : Kernel} {HK : KernelLaws K}.

Lemma without_bytes_inj r r' : without_bytes r = without_bytes r' → r = r'.
Proof. destruct r, r'. unfold without_bytes. simpl. congruence. Qed.

(** A reader whose answers have no bytes. *)
Lemma wp_seek (p : prog state (Z * Z)) (post : adev → Z * Z → Prop) s a leaks :
  driver_repr s a leaks →
  (let R a x := ∃ r, x = without_bytes r ∧ post a r in
   rg (reader R) false None p (returns (reader R) without_bytes) s) →
  wp (run p) safe (λ r s', driver_repr s' a leaks ∧ post a r) s.
Proof.
  intros Hs Hp. eapply wp_mono; [by eapply wp_reader|done|].
  intros r s' [Hs' (r' & Hr%without_bytes_inj & Hpost)]. by subst.
Qed.

Lemma aesd_llseek_spec s a leaks f_pos offset whence :
  driver_repr s a leaks →
  wp (run (aesd_llseek f_pos offset whence)) safe
    (λ r s', driver_repr s' a leaks ∧ llseek_post a f_pos offset whence r) s.
Proof. intros Hs. apply (wp_seek _ (λ a, llseek_post a _ _ _)); [done|]. apply aesd_llseek_rg. eauto. Qed.

Lemma aesd_adjust_file_offset_spec s a leaks f_pos arg :
  driver_repr s a leaks → u32_range (write_cmd arg) → u32_range (write_cmd_offset arg) →
  wp (run (aesd_adjust_file_offset f_pos arg)) safe
    (λ r s', driver_repr s' a leaks ∧ seek_post a f_pos arg r) s.
Proof. intros Hs ??. apply (wp_seek _ (λ a, seek_post a _ _)); [done|].
  apply aesd_adjust_file_offset_rg; eauto. Qed.

Lemma aesd_ioctl_spec s a leaks f_pos cmd arg :
  driver_repr s a leaks → u32_range (write_cmd arg) → u32_range (write_cmd_offset arg) →
  wp (run (aesd_ioctl f_pos cmd arg)) safe
    (λ r s', driver_repr s' a leaks ∧ ioctl_post a f_pos cmd arg r) s.
Proof. intros Hs ??. apply (wp_seek _ (λ a, ioctl_post a _ _ _)); [done|].
  apply aesd_ioctl_rg; eauto. Qed.
End alone.
