(* ===== verification/CharDriverModule.v ===== *)
(** * Loading, running and unloading the driver

    [aesd_init_module], [aesd_cleanup_module], and the sequences of system
    calls in between: the states they reach, and what memory is left when the
    module goes. *)

From S2P Require Import Prelude Memory CircularBuffer DeviceSpec Kernel Steps CharDriver.
From S2P Require Import CharDriverSpec RelyGuarantee CharDriverInv CharDriverWrite.
From S2P Require Import CharDriverRead CharDriverSeek.

Section module.
Context `{K : Kernel} {HK : KernelLaws K}.
Implicit Types (s : kstate module_state) (m : module_state) (ll : list placed)
  (pt : option placed) (leaks : list (loc * aesd_buffer_entry)).

(** *** Loading *)

Definition empty_device : aesd_dev :=
  mk_dev false false (mk_buffer (replicate max_ops null_entry) 0 0 false) null_entry.

Lemma empty_repr s :
  kheap s = ∅ → lock (aesd_device (kdev s)) = false →
  circular_buffer (aesd_device (kdev s)) = circular_buffer empty_device →
  partial (aesd_device (kdev s)) = null_entry →
  driver_repr s adev_empty [].
Proof.
  intros Hh Hl Hcb Hp. exists [], None. split_and!; [|done|apply adev_empty_wf|by intros []].
  exists (kdev s). split.
  - split; rewrite ?Hl, ?Hcb, ?Hp; [done| |done|constructor].
    split; [apply cb_init_wf|done|constructor].
  - split; [done|]. rewrite Hh. apply heap_is_nil.
Qed.

(** What [insmod] returns, and the registrations it leaves. *)
Definition init_post (r : Z) s : Prop :=
  ((r < 0)%Z ∧ kheap s = ∅) ∨
  (driver_repr s adev_empty [] ∧ region (kdev s) = bool_decide (r = 0)%Z ∧
   cdev (aesd_device (kdev s)) = bool_decide (r = 0)%Z).

Lemma aesd_init_module_spec s :
  kheap s = ∅ → wp aesd_init_module safe init_post s.
Proof.
  intros Hh. unfold aesd_init_module, tick. wp_steps. case_decide as Hneg.
  { wp_steps. left. done. }
  unfold update. wp_steps. cbn [kheap ktick kdev set_dev set_region on_dev].
  unfold aesd_setup_cdev, tick. unfold cb_run, aesd_circular_buffer_init.
  unfold wp, mbind, M_bind, modify, gets. cbn.
  destruct (decide (cdev_add_result _ = 0%Z)) as [E|E]; simpl.
  - rewrite decide_False by naive_solver. right. simpl.
    rewrite bool_decide_true by done. by split; [apply empty_repr|].
  - rewrite decide_True by done. right. simpl.
    rewrite bool_decide_false by done. by split; [apply empty_repr|].
Qed.

(** *** Unloading *)

(** The slots in array order, each with its line if it holds one. *)
Lemma slots_of_queue lk m ll pt :
  dev_ok lk m ll pt →
  ∃ xs : list (option placed),
    entry (circular_buffer (aesd_device m)) = partial_entry <$> xs ∧
    line_cell <$> ll ≡ₚ line_cell <$> omap id xs.
Proof.
  intros Hok. pose proof (entry_queue_perm _ (ok_cb _ _ (ok_lines _ _ _ _ Hok))) as Hp.
  rewrite (ok_queue _ _ (ok_lines _ _ _ _ Hok)), length_fmap in Hp.
  set (n := max_ops - length ll) in *.
  assert ((line_entry <$> ll) ++ replicate n null_entry
          = partial_entry <$> ((Some <$> ll) ++ replicate n None)) as E.
  { rewrite fmap_app, fmap_replicate, <-list_fmap_compose. done. }
  rewrite E in Hp. apply Permutation_map_inv in Hp as (xs & -> & Hxs).
  exists xs. split; [done|]. rewrite <-Hxs. apply fmap_Permutation.
  rewrite omap_app. assert (omap id (replicate n (@None placed)) = []) as ->.
  { clear. by induction n. }
  rewrite app_nil_r. clear. induction ll as [|x ll IH]; csimpl; [done|by rewrite <-IH].
Qed.

(** The body of the loop over the slots. *)
Definition free_slot (i : Z) : M (kstate module_state) () :=
  e ← cb_run (load_entry i);
  if decide (buffptr e ≠ NULL) then
    kfree_const (buffptr e);;
    cb_run (store_entry i (mk_entry NULL (esize e)))
  else mret ().

Abbreviation slots s := (entry (circular_buffer (aesd_device (kdev s)))).

Lemma wp_load_slot s i e F (Q : aesd_buffer_entry → kstate module_state → Prop) :
  slots s !! Z.to_nat i = Some e →
  (∀ s', kheap s' = kheap s → aesd_device (kdev s') = aesd_device (kdev s) → Q e s') →
  wp (cb_run (load_entry i)) F Q s.
Proof.
  intros He HQ. unfold wp, cb_run, load_entry. cbv [mbind M_bind gets id]. rewrite He.
  apply HQ; [done|]. simpl. by destruct (aesd_device (kdev s)).
Qed.

Lemma wp_store_slot s i e F (Q : () → kstate module_state → Prop) :
  Z.to_nat i < length (slots s) →
  (∀ s', kheap s' = kheap s → slots s' = <[Z.to_nat i := e]> (slots s) →
     partial (aesd_device (kdev s')) = partial (aesd_device (kdev s)) → Q () s') →
  wp (cb_run (store_entry i e)) F Q s.
Proof.
  intros Hi HQ. unfold wp, cb_run, store_entry. cbv [mbind M_bind gets id].
  rewrite decide_True by done. by apply HQ.
Qed.

Lemma free_slots_spec s done_ xs rest p :
  slots s = done_ ++ (partial_entry <$> xs) →
  heap_is (kheap s) ((line_cell <$> omap id xs) ++ rest) →
  partial (aesd_device (kdev s)) = p →
  wp (foldr (λ i k, free_slot (Z.of_nat i);; k) (mret ())
        (seq (length done_) (length xs))) safe
    (λ _ s', heap_is (kheap s') rest ∧ partial (aesd_device (kdev s')) = p) s.
Proof.
  revert s done_. induction xs as [|x xs IH]; intros s d Hsl Hh Hp.
  { wp_steps. done. }
  cbn [length seq foldr]. wp_step. unfold free_slot. wp_step.
  eapply wp_load_slot.
  { rewrite Hsl, Nat2Z.id, lookup_app_r, Nat.sub_diag by lia. done. }
  intros s1 Hh1 Hd1.
  assert (∀ e s2, slots s2 = d ++ e :: (partial_entry <$> xs) →
    heap_is (kheap s2) ((line_cell <$> omap id xs) ++ rest) →
    partial (aesd_device (kdev s2)) = p →
    wp (foldr (λ i k, free_slot (Z.of_nat i);; k) (mret ())
          (seq (S (length d)) (length xs))) safe
      (λ _ s', heap_is (kheap s') rest ∧ partial (aesd_device (kdev s')) = p) s2) as Hnext.
  { intros e s2 Hsl2 ??. replace (S (length d)) with (length (d ++ [e]))
      by (rewrite length_app; simpl; lia).
    apply IH; [by rewrite <-(assoc_L (++))|done..]. }
  destruct x as [[l bs]|]; cbn [partial_entry line_entry from_option buffptr].
  - rewrite decide_True by done. csimpl in Hh. wp_step.
    eapply (wp_kfree _ (kdev s1) _ _ l (Bytes bs)); [split; [done|by rewrite Hh1]|done|].
    intros s2 [Hd2 Hh2]. eapply wp_store_slot.
    { rewrite Hd2, Hd1, Hsl, Nat2Z.id, length_app. csimpl. lia. }
    intros s3 Hh3 Hsl3 Hp3. eapply Hnext; [|by rewrite Hh3|by rewrite Hp3, Hd2, Hd1].
    rewrite Hsl3, Hd2, Hd1, Hsl, Nat2Z.id, insert_app_r_alt, Nat.sub_diag by lia. done.
  - rewrite decide_False by naive_solver. wp_steps.
    eapply Hnext; [by rewrite Hd1, Hsl|by rewrite Hh1|by rewrite Hd1].
Qed.

(** Unloading frees every line and the pending line; what stays allocated is
    exactly the leaked entry structures. *)
Lemma aesd_cleanup_module_spec s a leaks :
  driver_repr s a leaks →
  wp aesd_cleanup_module safe
    (λ _ s', heap_is (kheap s') (leak_cell <$> leaks) ∧ region (kdev s') = false) s.
Proof.
  intros (ll & pt & Hr & -> & _ & _). destruct (repr_st _ _ _ _ _ _ Hr) as [[_ Hh] Hok].
  destruct (slots_of_queue _ _ _ _ Hok) as (xs & Hxs & Hperm).
  assert (length xs = max_ops) as Hlen.
  { rewrite <-(length_fmap partial_entry), <-Hxs. apply (ok_cb _ _ (ok_lines _ _ _ _ Hok)). }
  pose proof (free_slots_spec (set_dev (set_cdev false (kdev s)) s) [] xs
    ((line_cell <$> option_list pt) ++ (leak_cell <$> leaks)) (partial_entry pt)) as Hloop.
  rewrite Hlen in Hloop. unfold aesd_cleanup_module, AESD_CIRCULAR_BUFFER_FOREACH.
  wp_step. unfold update at 1. wp_step. wp_step. eapply wp_mono; [apply Hloop|done|].
  - exact Hxs.
  - rewrite <-Hperm. by rewrite app_nil_r in Hh.
  - apply (ok_partial _ _ _ _ Hok).
  - intros _ s1 [Hh1 Hp1]. wp_step. unfold get_partial, get_dev. wp_steps. rewrite Hp1.
    assert (∀ s', heap_is (kheap s') (leak_cell <$> leaks) →
      wp (update (set_region false)) safe
        (λ _ s', heap_is (kheap s') (leak_cell <$> leaks) ∧ region (kdev s') = false) s')
      as Hlast by done.
    destruct pt as [[l bs]|]; simpl in *.
    + wp_step. eapply (wp_kfree _ (kdev s1) _ _ l (Bytes bs)); [by split|done|].
      intros s2 [_ Hh2]. unfold update_partial, update at 1. wp_steps. by apply Hlast.
    + wp_steps. by apply Hlast.
Qed.

(** *** System calls in sequence *)

Definition is_write (r : request) : bool := match r with Write _ _ => true | _ => false end.

(** Next to any other threads, a call that is not a write looks at the lines
    that are there when it takes the mutex. *)
Lemma serve_reader_rg r s :
  vfs_ok r → is_write r = false →
  let ro := reader (λ a x, performs a r x a) in
  rg ro false None (serve r) (returns ro id) s.
Proof.
  intros Hok Hr ro. destruct r as [count f_pos| |f_pos off wh|f_pos cmd arg]; [|done|..];
    cbn [serve vfs_ok] in *.
  - apply aesd_read_rg; unfold MAX_RW_COUNT in *; lia.
  - apply rg_fmap, aesd_llseek_rg. intros a r. apply do_llseek.
  - apply rg_fmap, aesd_ioctl_rg; [apply Hok..|]. intros a r. apply do_ioctl.
Qed.

(** Next to readers, a write has the device for itself. *)
Lemma serve_writer_rg lk s a leaks data f_pos :
  idle_repr lk s a leaks → vfs_ok (Write data f_pos) →
  let ro := writer a leaks data f_pos in
  rg ro false None (serve (Write data f_pos)) (returns ro id) s.
Proof. intros Hs Hok ro. by eapply rg_fmap, aesd_write_idle_rg. Qed.

Lemma wp_run_fmap {A B} (p : prog state A) (f : A → B) F Q s :
  wp (run p) F (λ x, Q (f x)) s → wp (run (x ← p; mret (f x))) F Q s.
Proof.
  intros Hp. unfold wp, run in *. rewrite run_with_bind. unfold mbind, M_bind.
  by destruct (run_with _ _ p s).
Qed.

(** Without others every call does what the contract says. *)
Lemma serve_spec s a leaks r :
  driver_repr s a leaks → vfs_ok r →
  wp (run (serve r)) entry_oops
    (λ x s', ∃ a' leaks', performs a r x a' ∧ driver_repr s' a' leaks') s.
Proof.
  intros Hs Hok. destruct (is_write r) eqn:Hr.
  - destruct r as [|data f_pos| |]; try done. apply wp_run_fmap.
    eapply wp_mono; [by eapply aesd_write_spec|done|].
    intros x s' (a' & leaks' & n & Hres & Hs' & _). exists a', leaks'. split; [|done].
    by econstructor.
  - eapply wp_mono; [eapply wp_reader; [done|by apply serve_reader_rg]|done|]. cbn beta.
    intros x s' [??]. by exists a, leaks.
Qed.

(** The result of a call that runs alone. *)
Definition handle (r : request) : M (kstate module_state) Z :=
  x ← run (serve r); mret x.1.1.

(** The states of a loaded module. *)
Inductive reachable : kstate module_state → Prop :=
| reach_init s s' :
    kheap s = ∅ → aesd_init_module s = Ok 0%Z s' → reachable s'
| reach_step s r v s' :
    reachable s → vfs_ok r → handle r s = Ok v s' → reachable s'.

Lemma handle_spec s a leaks r :
  driver_repr s a leaks → vfs_ok r →
  wp (handle r) entry_oops (λ _ s', ∃ a' leaks', driver_repr s' a' leaks') s.
Proof.
  intros Hs Hok. unfold handle. wp_step. eapply wp_mono; [by eapply serve_spec|done|].
  intros x s' (a' & leaks' & _ & Hs'). wp_steps. eauto.
Qed.

Lemma reachable_repr s : reachable s → ∃ a leaks, driver_repr s a leaks.
Proof.
  induction 1 as [s s' Hh Hrun|s r v s' _ (a & leaks & Hs) Hok Hrun].
  - pose proof (aesd_init_module_spec s Hh) as Hi. unfold wp in Hi. rewrite Hrun in Hi.
    destruct Hi as [[? _]|[Hs' _]]; [lia|eauto].
  - pose proof (handle_spec s a leaks r Hs Hok) as Hw. unfold wp in Hw. by rewrite Hrun in Hw.
Qed.
End module.
