(* ===== verification/CharDriverClient.v ===== *)
(** * What a program that uses the device sees

    Sequences of driver calls on a kernel that refuses nothing: exact results
    of writes and reads, the loop that reads until the end, and the memory the
    lines written so far have leaked. *)

From S2P Require Import Prelude Memory CircularBuffer DeviceSpec Kernel Steps CharDriver.
From S2P Require Import CharDriverSpec CharDriverInv CharDriverWrite CharDriverRead.
From S2P Require Import CharDriverSeek CharDriverModule.

Section client.
Context `{K : Kernel} {HK : KernelLaws K} {HR : KernelReliable K}.
Implicit Types (s : kstate module_state) (a : adev)
  (leaks : list (loc * aesd_buffer_entry)).

Abbreviation C := (M (kstate module_state)).

Lemma write_reliable s a leaks data f_pos :
  driver_repr s a leaks → (len data ≤ MAX_RW_COUNT)%Z →
  (0 ≤ f_pos)%Z → (f_pos + len data < 2 ^ 63)%Z →
  (len (apart a ++ data) ≤ KMALLOC_MAX_SIZE)%Z →
  ∃ s' leaks', run (aesd_write data (len data) f_pos) s = Ok (len data, (f_pos + len data)%Z) s' ∧
    driver_repr s' (awrite a data) leaks' ∧
    length leaks' = length leaks + length (split_lines (apart a ++ data)).1.
Proof.
  intros Hs Hmax Hpos Hend Hfit.
  pose proof (aesd_write_spec s a leaks data f_pos Hs (conj Hmax (conj Hpos Hend))) as Hw.
  unfold wp in Hw. destruct (run (aesd_write data (len data) f_pos) s) as [[r p] s'|f|]; [| |done].
  - destruct Hw as (a' & leaks' & n & Hres & Hs' & Hn). simpl in Hres.
    pose proof (split_lines_spec (apart a ++ data)) as (Hbs & _ & _).
    inversion Hres as [|Hf|Hf|Hf|k m Hk Hf Hm|Hne Hf]; subst.
    + eauto.
    + by apply reliable_not_alloc_failed in Hf.
    + by apply reliable_not_copy_failed in Hf.
    + by apply reliable_not_lock_failed in Hf.
    + apply reliable_not_alloc_failed in Hf; [done|lia].
    + apply reliable_not_alloc_failed in Hf; [done|].
      apply (f_equal length) in Hbs. rewrite (length_app (concat _)) in Hbs. lia.
  - destruct Hw as [_ Hf]. apply reliable_not_alloc_failed in Hf; [done|apply reliable_entry].
Qed.

Lemma read_reliable s a leaks count f_pos :
  driver_repr s a leaks → (0 ≤ count < 2 ^ 63)%Z → (- 2 ^ 63 ≤ f_pos < 2 ^ 63)%Z →
  let bs := aread a (u64 f_pos) count in
  ∃ s', run (aesd_read count f_pos) s = Ok (len bs, (f_pos + len bs)%Z, bs) s' ∧
    driver_repr s' a leaks.
Proof.
  intros Hs Hcount Hpos bs. pose proof (aesd_read_spec s a leaks count f_pos Hs Hcount Hpos) as Hw.
  apply wp_safe_inv in Hw as ([[r p] out] & s' & -> & Hs' & Hres). simpl in Hres.
  inversion Hres as [bs' Hbs|n ? Hf|Hf]; subst.
  - by exists s'.
  - by apply reliable_not_copy_failed in Hf.
  - by apply reliable_not_lock_failed in Hf.
Qed.

(** [while ((n = read(fd, buf, count)) > 0)], the loop of the server, with
    everything that was read. *)
Fixpoint read_to_end (fuel : nat) (count f_pos : Z) : C (list byte) :=
  match fuel with
  | O => diverge
  | S fuel =>
     x ← run (aesd_read count f_pos);
     if decide (0 < x.1.1)%Z then
       rest ← read_to_end fuel count x.1.2;
       mret (x.2 ++ rest)
     else mret []
  end.

Lemma content_length s a leaks : driver_repr s a leaks → (len (acontent a) ≤ 10 * 2 ^ 32)%Z.
Proof.
  intros (ll & pt & Hr & -> & _ & _). destruct (repr_st _ _ _ _ _ _ Hr) as [_ Hok].
  apply (content_bound (ok_lines _ _ _ _ Hok)).
Qed.

Lemma read_to_end_reliable fuel s a leaks count f_pos :
  driver_repr s a leaks → (0 < count < 2 ^ 63)%Z → (0 ≤ f_pos ≤ len (acontent a))%Z →
  length (acontent a) - Z.to_nat f_pos < fuel →
  ∃ s', read_to_end fuel count f_pos s = Ok (drop (Z.to_nat f_pos) (acontent a)) s' ∧
    driver_repr s' a leaks.
Proof.
  revert s f_pos. induction fuel as [|fuel IH]; intros s f_pos Hs Hcount Hpos Hfuel; [lia|].
  pose proof (content_length _ _ _ Hs) as Hlen.
  destruct (read_reliable s a leaks count f_pos Hs ltac:(lia) ltac:(lia)) as (s1 & Hrun & Hs1).
  rewrite (u64_small f_pos) in Hrun by lia.
  pose proof (aread_prefix a f_pos count ltac:(lia)) as [rest Hrest].
  cbn [read_to_end]. unfold mbind, M_bind. rewrite Hrun. cbn [fst snd].
  destruct (aread a f_pos count) as [|c bs] eqn:E; case_decide as Hpos'; simpl in Hpos'; try lia.
  - exists s1. split; [|done]. apply aread_nil in E; [|lia..]. by rewrite drop_ge by lia.
  - apply (f_equal length) in Hrest as Hl. rewrite length_drop, length_app in Hl.
    assert (length (c :: bs) = S (length bs)) as Hcons by done.
    destruct (IH s1 (f_pos + len (c :: bs))%Z Hs1) as (s2 & Hrun2 & Hs2); [done|lia..|].
    rewrite Hrun2. exists s2. split; [|done]. unfold mret, M_ret. f_equal.
    rewrite Z2Nat.inj_add, Nat2Z.id, <-drop_drop, Hrest by lia. by rewrite drop_app_length.
Qed.

(** A writer's calls, each at the position the last one left. *)
Fixpoint write_all (chunks : list (list byte)) (f_pos : Z) : C Z :=
  match chunks with
  | [] => mret f_pos
  | data :: chunks =>
     x ← run (aesd_write data (len data) f_pos);
     write_all chunks x.2
  end.

(** The number of complete lines in a string. *)
Definition line_count (bs : list byte) : nat := length (split_lines bs).1.

Lemma line_count_app bs bs' :
  line_count (bs ++ bs') = line_count bs + line_count ((split_lines bs).2 ++ bs').
Proof. unfold line_count. rewrite split_lines_app. cbn [fst]. apply length_app. Qed.

Lemma write_all_reliable chunks s a leaks f_pos :
  driver_repr s a leaks → Forall (λ data, len data ≤ MAX_RW_COUNT)%Z chunks →
  (0 ≤ f_pos)%Z → (f_pos + len (concat chunks) < 2 ^ 63)%Z →
  (len (apart a ++ concat chunks) ≤ KMALLOC_MAX_SIZE)%Z →
  ∃ s' leaks', write_all chunks f_pos s = Ok (f_pos + len (concat chunks))%Z s' ∧
    driver_repr s' (awrite a (concat chunks)) leaks' ∧
    length leaks' = length leaks + line_count (apart a ++ concat chunks).
Proof.
  revert s a leaks f_pos.
  induction chunks as [|data chunks IH]; intros s a leaks f_pos Hs Hmax Hpos Hend Hfit.
  - exists s, leaks. simpl. rewrite Z.add_0_r, app_nil_r. split; [done|].
    destruct Hs as (ll & pt & Hr & -> & Hwf & Hpt). rewrite awrite_nil by done.
    split; [by exists ll, pt|]. unfold line_count. destruct Hwf as [_ _ Hp].
    rewrite split_lines_no_newline by done. simpl. lia.
  - apply Forall_cons in Hmax as [Hd Hmax]. simpl in *. rewrite (length_app data) in Hend.
    rewrite (length_app (apart a)), (length_app data) in Hfit.
    destruct (write_reliable s a leaks data f_pos Hs Hd) as (s1 & leaks1 & Hrun & Hs1 & Hn1);
      [lia..|rewrite length_app; lia|].
    unfold mbind, M_bind. rewrite Hrun. cbn [fst snd].
    pose proof (split_lines_spec (apart a ++ data)) as (Hbs & _ & _).
    apply (f_equal length) in Hbs. rewrite !length_app in Hbs.
    destruct (IH s1 (awrite a data) leaks1 (f_pos + len data)%Z Hs1 Hmax)
      as (s2 & leaks2 & Hrun2 & Hs2 & Hn2); [lia|lia|simpl; rewrite length_app; lia|].
    exists s2, leaks2. split; [rewrite Hrun2, length_app; f_equal; lia|].
    rewrite <-awrite_app. split; [done|].
    rewrite (assoc_L (++)), line_count_app, Hn2, Hn1. unfold line_count. simpl. lia.
Qed.

(** A session of one writer and one reader. *)
Lemma write_read_reliable s a leaks chunks f_pos count fuel :
  driver_repr s a leaks → Forall (λ data, len data ≤ MAX_RW_COUNT)%Z chunks →
  (0 ≤ f_pos)%Z → (f_pos + len (concat chunks) < 2 ^ 63)%Z →
  (len (apart a ++ concat chunks) ≤ KMALLOC_MAX_SIZE)%Z →
  (0 < count < 2 ^ 63)%Z →
  length (acontent a) + length (apart a ++ concat chunks) < fuel →
  ∃ s', (write_all chunks f_pos;; read_to_end fuel count 0) s
        = Ok (acontent (awrite a (concat chunks))) s'.
Proof.
  intros Hs Hch H0 Hp Hk Hc Hf.
  destruct (write_all_reliable _ _ _ _ _ Hs Hch H0 Hp Hk) as (s1 & leaks1 & Hrun & Hs1 & _).
  pose proof (acontent_awrite_length a (concat chunks)).
  destruct (read_to_end_reliable fuel s1 _ _ count 0 Hs1 Hc ltac:(lia) ltac:(lia))
    as (s2 & Hread & _).
  exists s2. by rewrite (bind_Ok _ _ _ _ _ Hrun), Hread.
Qed.
End client.
