(* ===== verification/CharDriverThreads.v ===== *)
(** * Threads that use the device at the same time

    Each thread makes one system call after the other; which one is next may
    depend on the answers so far.  A turn of a thread executes one atomic
    statement of its call; a schedule says whose turn it is.  A thread that
    waits for the mutex keeps waiting at its turn, unless a signal comes.

    [effects] records the order in which the calls took effect: a call does
    when it releases the mutex, or when it returns without having taken it. *)

From S2P Require Import Prelude Memory CircularBuffer DeviceSpec Kernel Steps CharDriver.
From S2P Require Import CharDriverSpec.

Record thread := mk_thread {
  plan : list (request * answer) → option request;
  answers : list (request * answer);
  (** the call being made, what is left of it, and whether it took effect *)
  current : option (request * prog state answer * bool) }.

Record system := mk_system { threads : list thread; effects : list (nat * request) }.

(** A thread that makes these calls in order. *)
Definition calls (rs : list request) : list (request * answer) → option request :=
  λ done, rs !! length done.

Definition start (plans : list (list (request * answer) → option request)) : system :=
  mk_system ((λ p, mk_thread p [] None) <$> plans) [].

Definition working (th : thread) (c : option (request * prog state answer * bool)) : thread :=
  mk_thread (plan th) (answers th) c.

Section turns.
Context `{K : Kernel}.
Abbreviation C := (M state).

(** [mutex_lock_interruptible] at one turn: no result means still waiting. *)
Definition mutex_try_lock : C (option Z) :=
  t ← tick;
  if lock_interrupted t then mret (Some (- EINTR)%Z)
  else
    d ← get_dev;
    if lock d then mret None else update (set_lock true);; mret (Some 0%Z).

(** The thread after its turn, and the call that took effect in it. *)
Definition thread_turn (th : thread) : C (thread * option request) :=
  match current th with
  | None =>
     match plan th (answers th) with
     | None => mret (th, None)
     | Some r => mret (working th (Some (r, serve r, false)), None)
     end
  | Some (r, p, e) =>
     match p with
     | Ret x =>
        mret (mk_thread (plan th) (answers th ++ [(r, x)]) None,
              if e then None else Some r)
     | Act m k => b ← m; mret (working th (Some (r, k b, e)), None)
     | Lock k =>
        o ← mutex_try_lock;
        match o with
        | None => mret (th, None)
        | Some z => mret (working th (Some (r, k z, e)), None)
        end
     | Unlock k => mutex_unlock;; mret (working th (Some (r, k, true)), Some r)
     end
  end.

Definition turn (i : nat) (σ : system) : C system :=
  match threads σ !! i with
  | None => mret σ
  | Some th =>
     x ← thread_turn th;
     mret (mk_system (<[i := x.1]> (threads σ)) (effects σ ++ (pair i <$> option_list x.2)))
  end.

Fixpoint run_turns (schedule : list nat) (σ : system) : C system :=
  match schedule with
  | [] => mret σ
  | i :: schedule => σ ← turn i σ; run_turns schedule σ
  end.

(** A fault is in reach of some schedule. *)
Definition can_fault (s : state) (σ : system) (f : fault) : Prop :=
  ∃ schedule, run_turns schedule σ s = Fault f.

Lemma run_turns_app l1 l2 σ s :
  run_turns (l1 ++ l2) σ s = (σ ← run_turns l1 σ; run_turns l2 σ) s.
Proof.
  revert σ s. induction l1 as [|i l1 IH]; intros σ s; [done|]. simpl.
  unfold mbind, M_bind in *. destruct (turn i σ s) as [σ' s'| |]; [|done..]. by rewrite IH.
Qed.

(** *** A thread that is alone *)

Abbreviation alone th es := (mk_system [th] es).

(** What its turns come to when its call would end in [o]. *)
Definition turns_end (th : thread) (r : request) (o : outcome state answer) (σ : system)
    (s : state) : Prop :=
  match o with
  | Ok x s' =>
     ∃ n es, run_turns (replicate n 0) σ s
             = Ok (alone (mk_thread (plan th) (answers th ++ [(r, x)]) None) es) s'
  | Fault f => f = Deadlock ∨ ∃ n, run_turns (replicate n 0) σ s = Fault f
  | Diverge => ∃ n, run_turns (replicate n 0) σ s = Diverge
  end.

(** One turn in front. *)
Lemma turns_end_step th r o σ s σ1 s1 :
  turn 0 σ s = Ok σ1 s1 → turns_end th r o σ1 s1 → turns_end th r o σ s.
Proof.
  intros Ht. assert (∀ n, run_turns (replicate (S n) 0) σ s = run_turns (replicate n 0) σ1 s1) as E.
  { intros n. simpl. unfold mbind, M_bind. by rewrite Ht. }
  destruct o as [x s'|f|]; simpl.
  - intros (n & es & Hn). exists (S n), es. by rewrite E.
  - intros [?|[n Hn]]; [by left|right]. exists (S n). by rewrite E.
  - intros [n Hn]. exists (S n). by rewrite E.
Qed.

Ltac turn_unfold := unfold turn, thread_turn; simpl; unfold mbind, M_bind.

(** A thread that is alone comes to the end that [run] gives its call: to
    the same answer in the same state, to the same fault or to none; only that
    a thread waiting for a mutex it holds itself waits for ever, for which
    [run] has the fault [Deadlock]. *)
Theorem turns_alone_are_the_call th r (p : prog state answer) e es s :
  turns_end th r (run p s) (alone (working th (Some (r, p, e))) es) s.
Proof.
  unfold run. revert e es s.
  induction p as [x|B m k IH|k IH|k IH]; intros e es s; cbn [run_with]; unfold mbind, M_bind.
  - eexists 1, _. reflexivity.
  - destruct (m s) as [b s1|f|] eqn:Hm; simpl.
    + eapply turns_end_step; [|by apply (IH b e (es ++ []))].
      by turn_unfold; rewrite Hm.
    + right. exists 1. by simpl; turn_unfold; rewrite Hm.
    + exists 1. by simpl; turn_unfold; rewrite Hm.
  - assert (match mutex_lock_interruptible s with
            | Ok z s1 => mutex_try_lock s = Ok (Some z) s1
            | Fault f => f = Deadlock
            | Diverge => False
            end) as Ht.
    { unfold mutex_lock_interruptible, mutex_try_lock, tick, get_dev, mbind, M_bind, gets, modify.
      simpl. destruct (lock_interrupted _); [done|]. by destruct (lock _). }
    destruct (mutex_lock_interruptible s) as [z s1|f|]; [|by left|done].
    eapply turns_end_step; [|by apply (IH z e (es ++ []))].
    by turn_unfold; rewrite Ht.
  - destruct (mutex_unlock s) as [u s1|f|] eqn:Hm.
    + eapply turns_end_step; [|by apply (IH true (es ++ [(0, r)]))].
      by turn_unfold; rewrite Hm.
    + right. exists 1. by simpl; turn_unfold; rewrite Hm.
    + exists 1. by simpl; turn_unfold; rewrite Hm.
Qed.
End turns.
