(* ===== verification/OneWriter.v ===== *)
(** * One writer and many readers

    When at most one thread writes, every schedule of the threads' statements
    has the effect of some sequence of whole calls on the abstract device: of
    the calls in the order in which they took effect.  The invariant
    [consistent] combines the rely-guarantee facts about the calls that are
    being made. *)

From S2P Require Import Prelude Memory CircularBuffer DeviceSpec Kernel Steps CharDriver.
From S2P Require Import CharDriverSpec RelyGuarantee CharDriverInv CharDriverWrite.
From S2P Require Import CharDriverRead CharDriverSeek CharDriverModule CharDriverThreads.

(** A call and its answer, with the thread that made it. *)
Abbreviation event := (prod nat (prod request answer)).

Definition call_of (e : event) : nat * request := (e.1, e.2.1).

(** What thread [i] did. *)
Definition of_thread (i : nat) (h : list event) : list (request * answer) :=
  snd <$> filter (λ e, e.1 = i) h.

Lemma of_thread_snoc i h e :
  of_thread i (h ++ [e]) = of_thread i h ++ (if decide (e.1 = i) then [e.2] else []).
Proof.
  unfold of_thread. rewrite filter_app, fmap_app. f_equal.
  rewrite filter_cons. by destruct (decide (e.1 = i)).
Qed.

Lemma idle_same `{K : Kernel} s s' a leaks :
  idle_repr (held s) s a leaks → unlocked_same s s' → idle_repr (held s') s' a leaks.
Proof.
  intros (ll & pt & (m & [Hl Hok Hp Hf] & [Hm Hh]) & Ha) [Hh' Hd]. exists ll, pt. split; [|done].
  exists (kdev s'). split; [|split; [done|by rewrite Hh']].
  rewrite <-Hm in *. destruct (kdev s) as [[] ?], (kdev s') as [[] ?]; simpl in *. simplify_eq.
  by split.
Qed.

Section one_writer.
Context `{K : Kernel} {HK : KernelLaws K} (w : nat).
Implicit Types (a : adev) (h : list event) (s : state) (th : thread) (σ : system)
  (holder : option nat).

(** Thread [i] in the middle of call [r]. *)
Inductive plays a (i : nat) : request → option (answer * ghost) → role → Prop :=
| plays_reader r pr :
    is_write r = false → plays a i r pr (reader (λ a x, performs a r x a))
| plays_writer data f_pos leaks :
    i = w → plays a i (Write data f_pos) None (writer a leaks data f_pos)
| plays_written data f_pos leaks a0 x leaks' :
    i = w → plays a i (Write data f_pos) (Some (x, (a, leaks'))) (writer a0 leaks data f_pos).

Definition holds holder (i : nat) : bool := bool_decide (holder = Some i).

(** What thread [i] got so far is what it did in the history, but for the
    answer of a call that took effect and has not returned. *)
Definition accounted th (i : nat) h (r : request) (e : bool) (pr : option (answer * ghost)) : Prop :=
  match pr with
  | None => e = false ∧ answers th = of_thread i h
  | Some (x, _) => e = true ∧ of_thread i h = answers th ++ [(r, x)]
  end.

Definition thread_ok a h holder s (i : nat) th : Prop :=
  (∀ done r, plan th done = Some r → vfs_ok r ∧ (is_write r → i = w)) ∧
  match current th with
  | None => holder ≠ Some i ∧ answers th = of_thread i h
  | Some (r, p, e) =>
     ∃ pr ro, plays a i r pr ro ∧ accounted th i h r e pr ∧
              rg ro (holds holder i) pr p (returns ro id) s
  end.

Definition writes th : bool := match current th with Some (r, _, _) => is_write r | None => false end.
Definition writing σ : bool := match threads σ !! w with Some th => writes th | None => false end.

Record consistent a0 s σ (a : adev) h holder : Prop := {
  con_lock : held s = bool_decide (is_Some holder);
  con_holder i : holder = Some i → is_Some (threads σ !! i);
  con_wf : adev_wf a;
  con_history : history a0 (snd <$> h) a;
  con_effects : call_of <$> h = effects σ;
  con_threads i th : threads σ !! i = Some th → thread_ok a h holder s i th;
  con_idle : writing σ = false → ∃ leaks, idle_repr (held s) s a leaks;
  con_lines : (writing σ = true → holder ≠ Some w) → lines_in s (alines a) }.

(** A turn that changes nothing for the other calls. *)
Lemma rely_others a i j r r' pr pr' ro ro' hi hj s s' :
  plays a i r pr ro → plays a j r' pr' ro' → i ≠ j → (hi = true → hj = true → False) →
  guar ro hi s s' → rely ro' hj s s'.
Proof.
  intros Hi Hj Hij Hex Hg.
  destruct Hi as [| |]; destruct Hj as [| |]; simpl in *; try congruence.
  - intros _. by apply ticked_keeps.
  - split; [by apply ticked_same|]. by destruct Hg as [_ ->].
  - split; [by apply ticked_same|]. by destruct Hg as [_ ->].
  - intros Hh. apply Hg. destruct hi; [by destruct Hex|done].
  - intros Hh. apply Hg. destruct hi; [by destruct Hex|done].
Qed.

Lemma rely_waiting a j r pr ro s s' :
  plays a j r pr ro → unlocked_same s s' → rely ro false s s'.
Proof. intros Hj Hs. by destruct Hj. Qed.

(** What a thread that has no turn needs. *)
Lemma thread_ok_other a h holder s a' h' holder' s' j th :
  thread_ok a h holder s j th →
  holds holder' j = holds holder j → of_thread j h' = of_thread j h →
  (a' = a ∨ j ≠ w) →
  (∀ r pr ro, plays a j r pr ro → rely ro (holds holder j) s s') →
  thread_ok a' h' holder' s' j th.
Proof.
  intros [Hplan Hc] Hh Hof Ha Hrely. split; [done|].
  destruct (current th) as [[[r p] e]|]; cycle 1.
  { destruct Hc as [Hn ->]. split; [|done]. unfold holds in Hh.
    intros ->. rewrite (bool_decide_eq_true_2 (Some j = Some j)) in Hh by done.
    symmetry in Hh. by apply bool_decide_eq_true in Hh. }
  destruct Hc as (pr & ro & Hp & Hacc & Hrg). exists pr, ro. rewrite Hh.
  assert (plays a' j r pr ro) as Hp'.
  { destruct Ha as [->|Hj]; [done|]. destruct Hp; [by constructor|done..]. }
  split; [done|]. split; [unfold accounted in *; by rewrite Hof|].
  assert (RoleLaws ro) by (destruct Hp; apply _).
  eapply (rg_stable ro); [done|]. by eapply Hrely.
Qed.

(** *** The turn of thread [i] *)

Section turn.
Context (a0 : adev) (σ : system) (a : adev) (h : list event) (holder : option nat) (s : state).
Context (Hcon : consistent a0 s σ a h holder) (i : nat) (th : thread).
Context (Hi : threads σ !! i = Some th).

Abbreviation after th' es := (mk_system (<[i := th']> (threads σ)) es).

Lemma writing_after th' es :
  writing (after th' es) = if decide (i = w) then writes th' else writing σ.
Proof.
  unfold writing. simpl. destruct (decide (i = w)) as [<-|Hne].
  - by rewrite list_lookup_insert_eq by (by eapply lookup_lt_Some).
  - by rewrite list_lookup_insert_ne.
Qed.

Lemma writing_before : i = w → writing σ = writes th.
Proof. intros Hiw. unfold writing. by rewrite <-Hiw, Hi. Qed.

(** The others keep what they know. *)
Lemma consistent_after s' th' a' h' holder' es :
  held s' = bool_decide (is_Some holder') →
  (∀ j, j ≠ i → holds holder' j = holds holder j ∧ of_thread j h' = of_thread j h) →
  adev_wf a' → history a0 (snd <$> h') a' → call_of <$> h' = es →
  (a' = a ∨ i = w) →
  (∀ j r pr ro, j ≠ i → plays a j r pr ro → rely ro (holds holder j) s s') →
  thread_ok a' h' holder' s' i th' →
  ((i = w → writes th' = false) → (i ≠ w → writing σ = false) → ∃ leaks, idle_repr (held s') s' a' leaks) →
  ((writing (after th' es) = true → holder' ≠ Some w) → lines_in s' (alines a')) →
  consistent a0 s' (after th' es) a' h' holder'.
Proof.
  intros Hl Hoth Hwf Hhist Heff Ha Hrely Hok Hidle Hlines. split; try done.
  - intros j Hj. simpl. destruct (decide (j = i)) as [->|Hne].
    { rewrite list_lookup_insert_eq by (by eapply lookup_lt_Some). done. }
    rewrite list_lookup_insert_ne by done. apply (con_holder _ _ _ _ _ _ Hcon).
    destruct (Hoth j Hne) as [Hh _]. unfold holds in Hh. rewrite Hj in Hh.
    rewrite (bool_decide_eq_true_2 (Some j = Some j)) in Hh by done.
    symmetry in Hh. by apply bool_decide_eq_true in Hh.
  - intros j thj. simpl. destruct (decide (j = i)) as [->|Hne].
    { rewrite list_lookup_insert_eq by (by eapply lookup_lt_Some). by intros [= <-]. }
    rewrite list_lookup_insert_ne by done. intros Hj. destruct (Hoth j Hne).
    eapply thread_ok_other; [by eapply con_threads|done|done| |by eauto].
    destruct Ha as [->| ->]; [by left|by right].
  - rewrite writing_after. intros Hw. apply Hidle.
    + intros Hiw. by rewrite decide_True in Hw.
    + intros Hiw. by rewrite decide_False in Hw.
Qed.

Lemma holds_i_false : current th = None → holds holder i = false.
Proof.
  intros Hc. destruct (con_threads _ _ _ _ _ _ Hcon i th Hi) as [_ Hok]. rewrite Hc in Hok.
  apply bool_decide_eq_false_2. by destruct Hok.
Qed.

(** The next call begins. *)
Lemma turn_begin r :
  current th = None → plan th (answers th) = Some r →
  consistent a0 s (after (working th (Some (r, serve r, false))) (effects σ)) a h holder.
Proof.
  intros Hc Hp. pose proof (holds_i_false Hc) as Hh. pose proof Hcon as [].
  destruct (con_threads0 i th Hi) as [Hplan Hok]. rewrite Hc in Hok. destruct Hok as [Hn Hans].
  destruct (Hplan _ _ Hp) as [Hvfs Hwr].
  apply consistent_after; try done; [by left|..].
  - intros j r' pr ro _ Hj. assert (RoleLaws ro) by (destruct Hj; apply _). done.
  - split; [done|]. simpl. exists None. destruct (is_write r) eqn:Hr; rewrite Hh.
    + destruct r as [|data f_pos| |]; try done.
      destruct con_idle0 as [leaks Hidle]; [rewrite writing_before by auto; unfold writes; by rewrite Hc|].
      exists (writer a leaks data f_pos). split_and!; [constructor; auto|done..|].
      by eapply serve_writer_rg.
    + exists (reader (λ a x, performs a r x a)). split_and!; [by constructor|done..|].
      by apply serve_reader_rg.
  - intros Hw1 Hw2. apply con_idle0. destruct (decide (i = w)) as [Hiw|Hiw]; [|by apply Hw2].
    rewrite writing_before by done. unfold writes. by rewrite Hc.
  - intros Hw. apply con_lines0. intros Hwri. destruct (decide (i = w)) as [<-|Hiw]; [done|].
    apply Hw. by rewrite writing_after, decide_False.
Qed.

(** The thread in the middle of a call. *)
Context (r : request) (p : prog state answer) (e : bool) (pr : option (answer * ghost)) (ro : role).
Context (Hcur : current th = Some (r, p, e)).
Context (Hplan : ∀ done r, plan th done = Some r → vfs_ok r ∧ (is_write r → i = w)).
Context (Hplays : plays a i r pr ro) (Hacc : accounted th i h r e pr).

Lemma ro_laws : RoleLaws ro.
Proof. destruct Hplays; apply _. Qed.

Lemma writing_is_write : i = w → writing σ = is_write r.
Proof. intros Hiw. rewrite writing_before by done. unfold writes. by rewrite Hcur. Qed.

Lemma write_by_w : is_write r = true → i = w.
Proof. by destruct Hplays; [congruence|..]. Qed.

Lemma guar_reader hh s' : is_write r = false → guar ro hh s s' → ticked s s'.
Proof. by destruct Hplays. Qed.

Lemma guar_writer hh s' : is_write r = true → hh = false → guar ro hh s s' → keeps s s'.
Proof. intros Hr Hh. destruct Hplays; [congruence|..]; intros [_ Hk]; by apply Hk. Qed.

(** A statement. *)
Lemma turn_act {B} (b : B) (k : B → prog state answer) s' :
  guar ro (holds holder i) s s' → rg ro (holds holder i) pr (k b) (returns ro id) s' →
  consistent a0 s' (after (working th (Some (r, k b, e))) (effects σ)) a h holder.
Proof.
  intros Hg Hk. pose proof Hcon as []. pose proof ro_laws as Hro.
  assert (writing (after (working th (Some (r, k b, e))) (effects σ)) = writing σ) as Hw.
  { rewrite writing_after. destruct (decide (i = w)) as [Hiw|]; [|done].
    by rewrite writing_is_write. }
  apply consistent_after; try done.
  - rewrite <-con_lock0. by eapply (guar_held (ro := ro)).
  - by left.
  - intros j r' pr' ro' Hj Hp'. eapply (rely_others _ _ _ _ _ _ _ _ _ _ _ _ _ Hplays Hp'); [by apply not_eq_sym| |done].
    intros Hh%bool_decide_eq_true. rewrite Hh. by intros [= ->]%bool_decide_eq_true.
  - split; [done|]. simpl. by exists pr, ro.
  - intros Hw1 Hw2. simpl in Hw1.
    assert (is_write r = false) as Hr.
    { destruct (is_write r) eqn:Hr; [|done]. by rewrite <-Hw1 by (by apply write_by_w). }
    destruct con_idle0 as [leaks Hidle].
    { destruct (decide (i = w)); [by rewrite writing_is_write|by apply Hw2]. }
    pose proof (guar_reader _ _ Hr Hg) as Ht. exists leaks.
    by eapply idle_same, ticked_same.
  - rewrite Hw. intros Hh. specialize (con_lines0 Hh) as (ll & Hv & Ha). exists ll.
    split; [|done]. assert (keeps s s') as Hk'; [|by apply Hk'].
    destruct (is_write r) eqn:Hr; [|by eapply ticked_keeps, guar_reader].
    pose proof (write_by_w Hr) as Hiw. apply (guar_writer (holds holder i)); [done| |done].
    apply bool_decide_eq_false_2. rewrite Hiw. apply Hh. by rewrite writing_is_write.
Qed.

(** Nothing but the lock and the kernel's counter changes, and thread [i] does
    not hold the lock before. *)
Lemma others_waiting s' j r' pr' ro' holder' :
  unlocked_same s s' → holds holder i = true ∨ (holder = None ∨ ticked s s') →
  j ≠ i → plays a j r' pr' ro' → holds holder' j = holds holder j → rely ro' (holds holder j) s s'.
Proof.
  intros Hu Hwhy Hj Hp' _. destruct (holds holder j) eqn:Hhj; [|by eapply rely_waiting].
  apply bool_decide_eq_true in Hhj. destruct Hwhy as [Hh|[Hh|Ht]].
  - apply bool_decide_eq_true in Hh. congruence.
  - congruence.
  - destruct Hp'; simpl; [intros _; by apply ticked_keeps|..];
      (split; [done|]; by destruct Ht as [_ ->]).
Qed.

(** A turn that is about the mutex: a signal or further waiting, or getting it. *)
Lemma turn_sync s' th' p' holder' :
  plan th' = plan th → answers th' = answers th → current th' = Some (r, p', e) →
  unlocked_same s s' → held s' = bool_decide (is_Some holder') →
  (holder' = holder ∧ ticked s s') ∨ (holder = None ∧ holder' = Some i) →
  rg ro (holds holder' i) pr p' (returns ro id) s' →
  consistent a0 s' (after th' (effects σ)) a h holder'.
Proof.
  intros Hpl Han Hc Hu Hl Hwhy Hrg. pose proof Hcon as [].
  assert (∀ j, j ≠ i → holds holder' j = holds holder j) as Hholds.
  { intros j Hj. destruct Hwhy as [[-> _]|[-> ->]]; [done|]. apply bool_decide_eq_false_2.
    intros [= ->]. done. }
  assert (writing (after th' (effects σ)) = writing σ) as Hw.
  { rewrite writing_after. destruct (decide (i = w)) as [Hiw|]; [|done].
    rewrite writing_is_write by done. unfold writes. by rewrite Hc. }
  apply consistent_after; try done.
  - intros j Hj. by rewrite Hholds.
  - by left.
  - intros j r' pr' ro' Hj Hp'. eapply others_waiting; [done| |done|done|by apply Hholds].
    right. destruct Hwhy as [[_ ?]|[? _]]; [by right|by left].
  - split; [by rewrite Hpl|]. rewrite Hc. exists pr, ro. split_and!; [done| |done].
    unfold accounted in *. by rewrite Han.
  - intros Hw1 Hw2. destruct con_idle0 as [leaks Hidle]; [|exists leaks; by eapply idle_same].
    destruct (decide (i = w)) as [Hiw|]; [|by apply Hw2].
    rewrite <-Hw1 by done. rewrite writing_is_write by done. unfold writes. by rewrite Hc.
  - rewrite Hw. intros Hh. destruct con_lines0 as (ll & Hv & Hall).
    + intros Hwr. destruct Hwhy as [[<- _]|[-> _]]; [by apply Hh|done].
    + exists ll. split; [by eapply view_same|done].
Qed.

(** The call takes effect: it answers [x] and the device becomes [a']. *)
Lemma effect_performs x g :
  pr = None →
  (commit ro x g s ∧ (is_write r = false → lines_in s (alines a))) ∨ back_out ro x g s →
  ∃ a', performs a r x a' ∧ adev_wf a' ∧ plays a' i r (Some (x, g)) ro ∧
    if is_write r then i = w ∧ g.1 = a' ∧ lines_in s (alines a') else a' = a.
Proof.
  intros Hpr Hc. pose proof (con_wf _ _ _ _ _ _ Hcon) as Hwf.
  destruct Hplays as [r pr Hr|data f_pos leaks Hiw|]; simpl in *; [| |done].
  - exists a. rewrite Hr. split_and!; [|done|by constructor|done].
    destruct Hc as [[Hc Hl]|Hc]; [apply Hc; [done|by apply Hl]|by apply Hc].
  - assert (write_effect a leaks data f_pos x g s) as (Hx & Hwf' & Hl & n & Hres & _)
      by (by destruct Hc as [[? _]|?]).
    exists g.1. destruct x as [[r0 p0] bs], g as [a' leaks']. simpl in *. subst bs.
    split_and!; [by econstructor|done|by constructor|done..].
Qed.

Lemma history_after a' x :
  performs a r x a' → history a0 (snd <$> h ++ [(i, (r, x))]) a'.
Proof. rewrite fmap_app. apply history_snoc, (con_history _ _ _ _ _ _ Hcon). Qed.

Lemma of_thread_after x j :
  of_thread j (h ++ [(i, (r, x))]) = of_thread j h ++ (if decide (i = j) then [(r, x)] else []).
Proof. apply of_thread_snoc. Qed.

(** The mutex is released. *)
Lemma turn_release x g k :
  pr = None → holds holder i = true → commit ro x g s →
  rg ro false (Some (x, g)) k (returns ro id) (with_lock false s) →
  ∃ a', consistent a0 (with_lock false s)
    (after (working th (Some (r, k, true))) (effects σ ++ [(i, r)])) a' (h ++ [(i, (r, x))]) None.
Proof.
  intros Hpr Hh Hc Hk. pose proof Hcon as []. pose proof Hh as Hh'%bool_decide_eq_true.
  destruct (effect_performs x g) as (a' & Hperf & Hwf & Hp' & Ha); [done|left; split; [done|]|].
  { intros Hr. apply con_lines0. intros Hw. rewrite Hh'. intros [= Hiw].
    rewrite writing_is_write in Hw by done. congruence. }
  exists a'. apply consistent_after; try done.
  - intros j Hj. rewrite of_thread_after, decide_False, app_nil_r by done. split; [|done].
    symmetry. apply bool_decide_eq_false_2. congruence.
  - by apply history_after.
  - by rewrite fmap_app, con_effects0.
  - destruct (is_write r); [right|left]; by destruct Ha.
  - intros j r' pr' ro' Hj Hpj. eapply others_waiting; [done|by left|done|done|].
    by instantiate (1 := holder).
  - split; [done|]. simpl. exists (Some (x, g)), ro. split_and!; [done| |done].
    split; [done|]. rewrite of_thread_after, decide_True by done.
    rewrite Hpr in Hacc. destruct Hacc as [_ Hans]. by rewrite <-Hans.
  - intros Hw1 Hw2. simpl in Hw1. unfold writes in Hw1. simpl in Hw1.
    destruct (is_write r) eqn:Hr; [destruct Ha as (Hiw & _); by specialize (Hw1 Hiw)|subst a'].
    destruct con_idle0 as [leaks Hidle]; [|exists leaks; by eapply idle_same].
    destruct (decide (i = w)); [by rewrite writing_is_write|by apply Hw2].
  - intros _. assert (lines_in s (alines a')) as (ll & Hv & Hall).
    { destruct (is_write r) eqn:Hr; [by apply Ha|subst a'].
      apply con_lines0. intros Hw. rewrite Hh'. intros [= Hiw].
      rewrite writing_is_write in Hw by done. congruence. }
    exists ll. split; [by eapply view_same|done].
Qed.

(** The call returns without having taken the mutex. *)
Lemma turn_back_out x g :
  pr = None → holds holder i = false → back_out ro x g s → final ro g s →
  ∃ a', consistent a0 s
    (after (mk_thread (plan th) (answers th ++ [(r, x)]) None) (effects σ ++ [(i, r)]))
    a' (h ++ [(i, (r, x))]) holder.
Proof.
  intros Hpr Hh Hc Hf. pose proof Hcon as []. pose proof Hh as Hh'%bool_decide_eq_false.
  destruct (effect_performs x g) as (a' & Hperf & Hwf & Hp' & Ha); [done|by right|].
  exists a'. apply consistent_after; try done.
  - intros j Hj. by rewrite of_thread_after, decide_False, app_nil_r by done.
  - by apply history_after.
  - by rewrite fmap_app, con_effects0.
  - destruct (is_write r); [right|left]; by destruct Ha.
  - intros j r' pr' ro' Hj Hpj. assert (RoleLaws ro') by (destruct Hpj; apply _). done.
  - split; [done|]. simpl. split; [done|]. rewrite of_thread_after, decide_True by done.
    rewrite Hpr in Hacc. by destruct Hacc as [_ ->].
  - intros Hw1 Hw2. destruct (is_write r) eqn:Hr.
    + destruct Ha as (Hiw & <- & _). exists g.2. destruct Hplays; [congruence|..]; exact Hf.
    + subst a'. apply con_idle0. destruct (decide (i = w)); [by rewrite writing_is_write|by apply Hw2].
  - intros Hw. destruct (is_write r) eqn:Hr; [by apply Ha|subst a'].
    apply con_lines0. intros Hwr. destruct (decide (i = w)) as [Hiw|Hiw].
    { rewrite writing_is_write in Hwr by done. congruence. }
    apply Hw. by rewrite writing_after, decide_False.
Qed.

(** The call returns what it committed to. *)
Lemma turn_return x g :
  pr = Some (x, g) → holds holder i = false → final ro g s →
  consistent a0 s
    (after (mk_thread (plan th) (answers th ++ [(r, x)]) None) (effects σ)) a h holder.
Proof.
  intros Hpr Hh Hf. pose proof Hcon as []. pose proof Hh as Hh'%bool_decide_eq_false.
  apply consistent_after; try done.
  - by left.
  - intros j r' pr' ro' Hj Hpj. assert (RoleLaws ro') by (destruct Hpj; apply _). done.
  - split; [done|]. simpl. split; [done|]. rewrite Hpr in Hacc. by destruct Hacc as [_ ->].
  - intros Hw1 Hw2. rewrite Hpr in Hplays. destruct (is_write r) eqn:Hr.
    + inversion Hplays; subst; [congruence|]. eexists. exact Hf.
    + apply con_idle0. destruct (decide (i = w)); [by rewrite writing_is_write|by apply Hw2].
  - intros Hw. rewrite Hpr in Hplays. destruct (is_write r) eqn:Hr.
    + inversion Hplays; subst; [congruence|]. destruct Hf as (ll & pt & Hrep & Ha & _).
      exists ll. split; [by eapply repr_view|exact (f_equal alines Ha)].
    + apply con_lines0. intros Hwr. destruct (decide (i = w)) as [Hiw|Hiw].
      { rewrite writing_is_write in Hwr by done. congruence. }
      apply Hw. by rewrite writing_after, decide_False.
Qed.
End turn.
(** *** Schedules *)

Lemma wp_try_lock s F (Q : option Z → state → Prop) :
  (∀ s', lock_failed → ticked s s' → Q (Some (- EINTR)%Z) s') →
  (∀ s', ticked s s' → held s' = true → Q None s') →
  (∀ s', ticked s s' → held s' = false → Q (Some 0%Z) (with_lock true s')) →
  wp mutex_try_lock F Q s.
Proof.
  intros Hf Hw Hok. unfold mutex_try_lock, tick. wp_steps. simpl.
  destruct (lock_interrupted _) eqn:E.
  - wp_steps. apply Hf; [by eexists|done].
  - unfold get_dev. wp_steps. simpl. destruct (held s) eqn:Hl; wp_steps.
    + by apply Hw.
    + unfold update. wp_steps. by apply (Hok (KS (kheap s) (S (ktick s)) (kdev s))).
Qed.

Definition consistent_somehow a0 σ s : Prop := ∃ a h holder, consistent a0 s σ a h holder.

Lemma turn_consistent a0 σ s i :
  consistent_somehow a0 σ s → wp (turn i σ) entry_oops (consistent_somehow a0) s.
Proof.
  intros (a & h & holder & Hcon). unfold turn.
  destruct (threads σ !! i) as [th|] eqn:Hi; [|by exists a, h, holder].
  destruct (con_threads _ _ _ _ _ _ Hcon i th Hi) as [Hplan Hok].
  wp_step. unfold thread_turn. destruct (current th) as [[[r p] e]|] eqn:Hcur; cycle 1.
  { destruct (plan th (answers th)) as [r|] eqn:Hp; wp_steps; simpl; rewrite app_nil_r.
    - eexists a, h, holder. by eapply turn_begin.
    - exists a, h, holder. rewrite list_insert_id by done. by destruct σ. }
  destruct Hok as (pr & ro & Hplays & Hacc & Hrg).
  assert (RoleLaws ro) as Hro by (destruct Hplays; apply _).
  destruct p as [x|B m k|k|k]; pose proof (Hrg s (reflexivity s)) as Hnow.
  - destruct Hnow as (Hh & g & Hf & Hpr). wp_steps. simpl. destruct pr as [[x' g']|].
    + destruct Hpr as [<- <-], Hacc as [-> Hans]. simpl. rewrite app_nil_r.
      eexists a, h, holder. by eapply turn_return.
    + destruct Hacc as [-> Hans]. simpl.
      edestruct turn_back_out as [a' Ha']; [..|by eexists _, _, _]; done.
  - wp_step. eapply wp_mono; [exact Hnow| |].
    + destruct Hplays; done.
    + intros b s' [Hg Hk]. wp_steps. simpl. rewrite app_nil_r. eexists a, h, holder.
      by eapply turn_act.
  - destruct Hnow as (Hh & H1 & H2). pose proof (con_lock _ _ _ _ _ _ Hcon) as Hl.
    wp_step. apply wp_try_lock.
    + intros s' Hf Ht. wp_steps. simpl. rewrite app_nil_r. eexists a, h, holder.
      eapply turn_sync; try done; [by apply ticked_same|by rewrite (proj2 Ht)|by left|].
      rewrite Hh. by apply H2.
    + intros s' Ht _. wp_steps. simpl. rewrite app_nil_r. eexists a, h, holder.
      eapply turn_sync; try done; [by apply ticked_same|by rewrite (proj2 Ht)|by left|].
      eapply (rg_stable ro); [exact Hrg|]. rewrite Hh. eapply rely_waiting; [done|by apply ticked_same].
    + intros s' Ht Hl'. wp_steps. simpl. rewrite app_nil_r.
      assert (holder = None) as ->.
      { rewrite (proj2 Ht), Hl in Hl'. apply bool_decide_eq_false in Hl'.
        destruct holder; [by destruct Hl'|done]. }
      eexists a, h, (Some i). eapply turn_sync; try done; [by apply ticked_unlocked|by right|].
      unfold holds. rewrite (bool_decide_eq_true_2 (Some i = Some i)) by done.
      apply H1; [done|done|]. destruct Hplays; simpl; [|done..].
      destruct (con_lines _ _ _ _ _ _ Hcon) as (ll & Hv & _); [done|].
      exists ll. by eapply view_same, ticked_same.
  - destruct Hnow as (Hh & -> & x & g & Hc & Hk). wp_step. apply wp_release.
    + rewrite (con_lock _ _ _ _ _ _ Hcon). apply bool_decide_eq_true_2.
      apply bool_decide_eq_true in Hh. by rewrite Hh.
    + wp_steps. simpl. edestruct turn_release as [a' Ha']; [..|by eexists _, _, _]; done.
Qed.
Lemma run_turns_consistent a0 schedule σ s :
  consistent_somehow a0 σ s →
  wp (run_turns schedule σ) entry_oops (consistent_somehow a0) s.
Proof.
  revert σ s. induction schedule as [|i schedule IH]; intros σ s Hcon; [done|]. simpl. wp_step.
  eapply wp_mono; [by apply turn_consistent|done|]. intros σ' s'. apply IH.
Qed.

Lemma start_consistent s a leaks plans :
  driver_repr s a leaks →
  (∀ i p done r, plans !! i = Some p → p done = Some r → vfs_ok r ∧ (is_write r → i = w)) →
  consistent_somehow a (start plans) s.
Proof.
  intros Hs Hplans. exists a, [], None. pose proof Hs as (ll & pt & Hr & -> & Hwf & _).
  pose proof (repr_held _ _ _ _ _ _ Hr) as Hl. split; try done.
  - constructor.
  - intros i th Hi. simpl in Hi. rewrite list_lookup_fmap in Hi.
    apply fmap_Some in Hi as (p & Hp & ->). split; [|done]. simpl. eauto.
  - intros _. exists leaks. by rewrite Hl.
  - intros _. exists ll. split; [by eapply repr_view|done].
Qed.

(** What the answers of a consistent system are. *)
Definition linearized a σ s : Prop :=
  ∃ a' h, history a (snd <$> h) a' ∧ call_of <$> h = effects σ ∧
    (∀ i th, threads σ !! i = Some th →
       ∃ rest, of_thread i h = answers th ++ rest ∧ length rest ≤ 1 ∧
               (current th = None → rest = [])) ∧
    ((∀ i th, threads σ !! i = Some th → current th = None) →
       ∃ leaks', driver_repr s a' leaks').

Lemma consistent_linearized a0 σ s : consistent_somehow a0 σ s → linearized a0 σ s.
Proof.
  intros (a & h & holder & [Hl Hholder _ Hhist Heff Hth Hidle _]). exists a, h.
  split_and!; [done|done|..].
  - intros i th Hi. destruct (Hth i th Hi) as [_ Hok].
    destruct (current th) as [[[r p] e]|]; cycle 1.
    { destruct Hok as [_ Hans]. exists []. rewrite app_nil_r. split_and!; [done|simpl; lia|done]. }
    destruct Hok as (pr & ro & _ & Hacc & _). destruct pr as [[x g]|].
    + destruct Hacc as [_ Hof]. exists [(r, x)]. by split_and!.
    + destruct Hacc as [_ Hof]. exists []. rewrite app_nil_r. split_and!; [done|simpl; lia|done].
  - intros Hnone. assert (holder = None) as Hh.
    { destruct holder as [i|]; [|done]. destruct (Hholder i eq_refl) as [th Hi].
      destruct (Hth i th Hi) as [_ Hok]. rewrite (Hnone i th Hi) in Hok. by destruct Hok. }
    rewrite Hh in Hl. unfold driver_repr.
    rewrite <-(Hl : held s = false). apply Hidle. unfold writing, writes.
    destruct (threads σ !! w) as [th|] eqn:Hw; [|done]. by rewrite (Hnone w th Hw).
Qed.
End one_writer.
