(* ===== verification/CharDriverProperties.v ===== *)
(** * The character driver's theorems

    What [main.c] as a whole guarantees and where it stops short, each stated
    over the functions of [CharDriver] from a state that represents an
    abstract device ([driver_repr]), with a concrete run of each on one of the
    sample kernels.  The lemmas they rest on are in the [CharDriver*] files. *)

From S2P Require Import Prelude Memory CircularBuffer DeviceSpec Kernel Steps CharDriver.
From S2P Require Import CharDriverSpec CharDriverInv CharDriverWrite CharDriverRead.
From S2P Require Import CharDriverSeek CharDriverModule CharDriverClient.

(** A freshly loaded module, and two more states the runs below start from. *)
Definition boot : kstate module_state := KS ∅ 0 (mk_module empty_device true).

Definition after_write (K : Kernel) (data : list byte) : kstate module_state :=
  match run (aesd_write data (len data) 0) boot with Ok _ s => s | _ => boot end.

Abbreviation calm := (sample_kernel never never never).

Lemma boot_repr `{K : Kernel} {HK : KernelLaws K} : driver_repr boot adev_empty [].
Proof. by apply empty_repr. Qed.

Definition calm_kernel : Kernel := calm.

Section any_kernel.
Context `{K : Kernel} {HK : KernelLaws K}.
Implicit Types (s : kstate module_state) (a : adev).

(** C3: whatever the kernel refuses and whenever a signal comes, [aesd_write]
    ends: either in one of the six ways of [write_result], in a state that
    again represents a device, with the mutex free and nothing lost but the
    entry structures counted by [n], or in the [NULL] dereference behind a
    refused [kmalloc] of such a structure. *)
Theorem aesd_write_outcomes s a leaks data f_pos :
  driver_repr s a leaks → (len data ≤ MAX_RW_COUNT)%Z →
  (0 ≤ f_pos)%Z → (f_pos + len data < 2 ^ 63)%Z →
  wp (run (aesd_write data (len data) f_pos)) entry_oops
    (λ r s', ∃ a' leaks' n, write_result a data f_pos r.1 r.2 a' n ∧
       driver_repr s' a' leaks' ∧ length leaks' = length leaks + n) s.
Proof. intros. by apply aesd_write_spec. Qed.

(** C9: [aesd_read] at a position inside the contents copies from the line
    that the position is in: with [o] bytes of this line in front of the
    position, it returns the next [count] bytes of the line or, if there are
    less, all bytes up to its end, and never bytes of the line behind it.  At or
    behind the end of the contents it returns 0.  The position advances by the
    number of bytes.  Otherwise it fails with [-EFAULT] or [-ERESTARTSYS] and
    the position is kept.  It never faults and leaves the device alone. *)
Theorem aesd_read_outcomes s a leaks count f_pos :
  driver_repr s a leaks → (0 ≤ count < 2 ^ 63)%Z → (0 ≤ f_pos < 2 ^ 63)%Z →
  wp (run (aesd_read count f_pos)) safe
    (λ r s', driver_repr s' a leaks ∧
       ((∃ bs, r = (len bs, (f_pos + len bs)%Z, bs) ∧ bs `prefix_of` drop (Z.to_nat f_pos) (acontent a) ∧
          if decide (len (acontent a) ≤ f_pos)%Z then bs = []
          else ∃ i l o, alines a !! i = Some l ∧ (0 ≤ o < len l)%Z ∧
                 f_pos = (len (concat (take i (alines a))) + o)%Z ∧
                 len bs = (count `min` (len l - o))%Z ∧ bs = take (Z.to_nat count) (drop (Z.to_nat o) l)) ∨
        (∃ n, copy_failed n ∧ r.1 = ((- EFAULT)%Z, f_pos)) ∨
        (lock_failed ∧ r = ((- ERESTARTSYS)%Z, f_pos, [])))) s.
Proof.
  intros Hs Hc Hp. eapply wp_mono; [apply aesd_read_spec; [done|done|lia]|done|].
  intros [[r p] bs] s' [Hs' Hr]. split; [done|]. simpl in Hr.
  inversion Hr as [bs0 Hbs|n bs0 Hf|Hf]; subst.
  - left. eexists. split; [done|]. rewrite u64_small by lia. split; [by apply aread_prefix; lia|].
    case_decide as Hend; [by apply aread_past_end|].
    destruct (aread_line a f_pos count) as (i & l & o & Hl & Ho & Heq & Hr'); [lia|].
    exists i, l, o. split_and!; [done|lia|lia|done| |by rewrite Hr'].
    rewrite Hr', length_take, length_drop. lia.
  - right; left. by exists n.
  - right; right. done.
Qed.

(** C19: [lseek] to a position inside the contents, whether counted from the
    start, from the position or from the end, lands there, and reads go on
    from there: the size it passes to the kernel is the length of the kept
    lines, over all ten slots, used or not. *)
Theorem aesd_llseek_positions s a leaks f_pos offset whence target :
  driver_repr s a leaks →
  (whence = SEEK_SET ∧ target = offset ∨
   whence = SEEK_CUR ∧ target = (f_pos + offset)%Z ∨
   whence = SEEK_END ∧ target = (len (acontent a) + offset)%Z) →
  (0 ≤ target ≤ len (acontent a))%Z →
  wp (run (aesd_llseek f_pos offset whence)) safe
    (λ r s', driver_repr s' a leaks ∧
       (r = (target, target) ∨ (lock_failed ∧ r = ((- ERESTARTSYS)%Z, f_pos)))) s.
Proof.
  intros Hs Hw Ht. eapply wp_mono; [by apply aesd_llseek_spec|done|].
  intros r s' [Hs' [Hr|Hr]]; (split; [done|]); [by right|left].
  rewrite Hr. destruct Hw as [[-> ->]|[[-> ->]|[-> ->]]].
  - by rewrite llseek_set.
  - by rewrite llseek_cur.
  - by rewrite llseek_end.
Qed.

(** C18: the seek command.  A line number above nine is refused with [-EINVAL],
    and so is an offset larger than the length of the line, where a line that
    is not there counts as one of length 0; the position is then kept.  Every
    other argument is accepted: also an offset equal to the line's length, one
    byte behind the line, although the comment in [aesd_ioctl.h] calls it an
    offset within the write; and offset 0 in a line that was never written.  The
    new position is the offset behind all lines, as they are kept now, that are
    older than the one named.  When the argument cannot be copied the result is
    [-EFAULT], when a signal comes before the lock [-ERESTARTSYS], both with the
    position kept.  The device is left alone. *)
Theorem aesd_ioctl_seeks s a leaks f_pos arg :
  driver_repr s a leaks → u32_range (write_cmd arg) → u32_range (write_cmd_offset arg) →
  let line := default [] (alines a !! Z.to_nat (write_cmd arg)) in
  wp (run (aesd_ioctl f_pos AESDCHAR_IOCSEEKTO arg)) safe
    (λ r s', driver_repr s' a leaks ∧
       ((copy_failed sizeof_aesd_seekto ∧ r = ((- EFAULT)%Z, f_pos)) ∨
        (lock_failed ∧ r = ((- ERESTARTSYS)%Z, f_pos)) ∨
        r = if decide (write_cmd arg < MAX_OPS ∧ write_cmd_offset arg ≤ len line)%Z then
              (0%Z, (len (concat (take (Z.to_nat (write_cmd arg)) (alines a))) + write_cmd_offset arg)%Z)
            else ((- EINVAL)%Z, f_pos))) s.
Proof.
  intros Hs Hc Ho line. eapply wp_mono; [by apply aesd_ioctl_spec|done|].
  intros r s' [Hs' Hr]. split; [done|]. unfold ioctl_post in Hr. rewrite decide_True in Hr by done.
  destruct Hr as [[?|Hr]|?]; [by right; left| |by left]. right; right. rewrite Hr.
  unfold aseekto. destruct Hc as [Hc _].
  assert (from_option (λ l, len l) 0%Z (alines a !! Z.to_nat (write_cmd arg)) = len line) as ->
    by (unfold line; by destruct (_ !! _)).
  destruct (decide (0 ≤ write_cmd arg < MAX_OPS ∧ _)%Z) as [?|Hn];
    [by rewrite decide_True by lia|by rewrite decide_False by lia].
Qed.

(** Every other command is [-ENOTTY] and touches nothing. *)
Theorem aesd_ioctl_enotty s f_pos cmd arg :
  cmd ≠ AESDCHAR_IOCSEEKTO → run (aesd_ioctl f_pos cmd arg) s = Ok ((- ENOTTY)%Z, f_pos) s.
Proof.
  intros Hc. unfold aesd_ioctl. repeat case_decide; done.
Qed.

(** A file offset [seek_to] accepts may lie outside the line it names: one
    byte past its end, and past a line that was never written, where the
    position is that of the end of the contents. *)
Theorem aesd_seek_beyond_line s a leaks f_pos cmd :
  driver_repr s a leaks → (0 ≤ cmd < MAX_OPS)%Z →
  wp (run (aesd_adjust_file_offset f_pos
        (mk_seekto cmd (from_option (λ l, len l) 0%Z (alines a !! Z.to_nat cmd))))) safe
    (λ r s', driver_repr s' a leaks ∧
       (r = (0%Z, len (concat (take (S (Z.to_nat cmd)) (alines a)))) ∨
        (lock_failed ∧ r = ((- ERESTARTSYS)%Z, f_pos)))) s.
Proof.
  intros Hs Hc. pose proof Hs as (ll & pt & Hr & -> & Hwf & _).
  assert (u32_range (from_option (λ l, len l) 0%Z (alines (adev_of ll pt) !! Z.to_nat cmd))) as Hu.
  { apply repr_st in Hr as [_ Hok]. apply (line_u32 (ok_lines _ _ _ _ Hok)). }
  eapply wp_mono; [apply aesd_adjust_file_offset_spec; [done| |done]|done|].
  { unfold u32_range. simpl. cb_lia. }
  intros r s' [Hs' Hp]. split; [done|]. destruct Hp as [Hp| ->]; [by right|left].
  unfold aseekto. simpl. rewrite decide_True by lia. f_equal. symmetry.
  rewrite concat_take_S. done.
Qed.

(** C1: from the moment the module is loaded, no sequence of reads, writes,
    seeks and commands reaches a state from which one more call loops, touches
    memory that is not its own, frees twice, or leaves the mutex held; the one
    exception is the unchecked [kmalloc] of an entry. *)
Theorem driver_never_corrupts s r :
  reachable s → vfs_ok r →
  wp (handle r) entry_oops
    (λ _ s', lock (aesd_device (kdev s')) = false ∧
             cb_wf (circular_buffer (aesd_device (kdev s'))) ∧
             ∃ a' leaks', driver_repr s' a' leaks') s.
Proof.
  intros (a & leaks & Hs)%reachable_repr Hr.
  eapply wp_mono; [by eapply handle_spec|done|]. intros v s' (a' & leaks' & Hs').
  pose proof Hs' as (ll & pt & [_ Hok]%repr_st & _).
  split_and!; [apply Hok|apply (ok_cb _ _ (ok_lines _ _ _ _ Hok))|by eauto].
Qed.

(** [insmod] either fails with nothing allocated, or leaves an empty device
    that is registered exactly when the result is 0. *)
Theorem aesd_init_module_outcomes s :
  kheap s = ∅ →
  wp aesd_init_module safe
    (λ r s', ((r < 0)%Z ∧ kheap s' = ∅) ∨
       (driver_repr s' adev_empty [] ∧ region (kdev s') = bool_decide (r = 0)%Z ∧
        cdev (aesd_device (kdev s')) = bool_decide (r = 0)%Z)) s.
Proof. apply aesd_init_module_spec. Qed.


(** A failed copy from the user's buffer is never reported as [-EFAULT]. *)
Theorem aesd_write_never_efault s s' a leaks data f_pos r :
  driver_repr s a leaks → (len data ≤ MAX_RW_COUNT)%Z →
  (0 ≤ f_pos)%Z → (f_pos + len data < 2 ^ 63)%Z →
  run (aesd_write data (len data) f_pos) s = Ok r s' → r.1 ≠ (- EFAULT)%Z.
Proof.
  intros Hs Hl H0 Hp Hrun. pose proof (aesd_write_spec _ _ _ _ _ Hs (conj Hl (conj H0 Hp))) as Hw.
  unfold wp in Hw. rewrite Hrun in Hw. destruct Hw as (a' & leaks' & n & Hr & _).
  inversion Hr; unfold EFAULT, ENOMEM, EINVAL, ERESTARTSYS; lia.
Qed.
End any_kernel.

Section reliable_kernel.
Context `{K : Kernel} {HK : KernelLaws K} {HR : KernelReliable K}.
Implicit Types (s : kstate module_state) (a : adev).

(** C2: on a kernel that refuses nothing, what was written is what is read:
    after writes of any sizes, a reader with a buffer of any size that reads
    from the start until it gets nothing obtains the last ten complete lines
    of everything written so far, in order and without gaps. *)
Theorem written_lines_are_read_back s a leaks chunks f_pos count fuel :
  driver_repr s a leaks → Forall (λ data, len data ≤ MAX_RW_COUNT)%Z chunks →
  (0 ≤ f_pos)%Z → (f_pos + len (concat chunks) < 2 ^ 63)%Z →
  (len (apart a ++ concat chunks) ≤ KMALLOC_MAX_SIZE)%Z →
  (0 < count < 2 ^ 63)%Z →
  length (concat (alines a)) + length (apart a ++ concat chunks) < fuel →
  ∃ s', (write_all chunks f_pos;; read_to_end fuel count 0) s
        = Ok (concat (lastn max_ops
                (alines a ++ (split_lines (apart a ++ concat chunks)).1))) s'.
Proof.
  intros. by eapply write_read_reliable.
Qed.

(** C25: a module that was loaded, written to and unloaded leaves one block of
    kernel memory behind for every line that was completed: the
    [struct aesd_buffer_entry] that [aesd_write] allocates and never frees. *)
Theorem unloading_leaks_an_entry_per_line s chunks :
  driver_repr s adev_empty [] → Forall (λ data, len data ≤ MAX_RW_COUNT)%Z chunks →
  (len (concat chunks) ≤ KMALLOC_MAX_SIZE)%Z →
  ∃ s', (write_all chunks 0;; aesd_cleanup_module) s = Ok () s' ∧
        size (kheap s') = line_count (concat chunks).
Proof.
  intros Hs Hch Hk. pose proof kmalloc_max.
  destruct (write_all_reliable chunks s adev_empty [] 0 Hs Hch) as (s1 & leaks & Hrun & Hs1 & Hn);
    [simpl; lia..|].
  destruct (wp_safe_inv _ _ _ (aesd_cleanup_module_spec _ _ _ Hs1)) as ([] & s2 & Hc & Hh & _).
  exists s2. rewrite (bind_Ok _ _ _ _ _ Hrun). split; [done|].
  rewrite (heap_is_size _ _ Hh), length_fmap. done.
Qed.

(** A refused [lseek] is stored as the file position: [f_pos] becomes
    [-EINVAL], and a [read] from there is at the end of the file although
    contents may be left. *)
Theorem refused_lseek_moves_f_pos s a leaks f_pos offset count :
  driver_repr s a leaks → ¬ (0 ≤ offset ≤ len (acontent a))%Z → (0 ≤ count < 2 ^ 63)%Z →
  ∃ s', (r ← run (aesd_llseek f_pos offset SEEK_SET); x ← run (aesd_read count r.2); mret (r, x)) s
        = Ok ((- EINVAL, - EINVAL)%Z, (0%Z, (- EINVAL)%Z, [])) s'.
Proof.
  intros Hs Ho Hc.
  destruct (wp_safe_inv _ _ _ (aesd_llseek_spec s a leaks f_pos offset SEEK_SET Hs))
    as (r & s1 & Hrun & Hs1 & [[Hf _]|Hr]); [by apply reliable_not_lock_failed in Hf|].
  rewrite llseek_set_range in Hr by lia.
  destruct (read_reliable s1 a leaks count (- EINVAL) Hs1 Hc) as (s2 & Hread & _); [unfold EINVAL; lia|].
  rewrite aread_past_end in Hread.
  - exists s2. rewrite (bind_Ok _ _ _ _ _ Hrun), Hr. cbn [fst snd].
    rewrite (bind_Ok _ _ _ _ _ Hread). reflexivity.
  - pose proof (content_length _ _ _ Hs).
    assert (u64 (- EINVAL) = 2 ^ 64 - 22)%Z as -> by (vm_compute; reflexivity). lia.
Qed.
End reliable_kernel.

(** The fault the other theorems leave open is real: when the allocation of
    the entry structure is the one the kernel refuses, [aesd_write] stores
    through the [NULL] it got. *)
Theorem refused_entry_allocation_oops :
  run (K := sample_kernel (at_call 3) never never) (aesd_write (K := sample_kernel (at_call 3) never never) [97; 10]%Z 2 0) boot = Fault NullDeref.
Proof. vm_compute. reflexivity. Qed.

(** ** The theorems at concrete inputs *)

(** "ab\n" and a pending "c". *)
Definition sample_data : list byte := [97; 98; 10; 99]%Z.
Definition sample_adev : adev := ADev [[97; 98; 10]]%Z [99]%Z.
Definition sample_state : kstate module_state := after_write calm sample_data.

Lemma sample_repr : ∃ leaks, driver_repr (K := calm) sample_state sample_adev leaks.
Proof.
  destruct (write_reliable (K := calm) boot adev_empty [] sample_data 0 boot_repr)
    as (s' & leaks & Hrun & Hs' & _); [vm_compute; done..|].
  exists leaks. unfold sample_state, after_write. by rewrite Hrun.
Qed.

(** Of the kernel, the representation depends on the allocation limit only. *)
Lemma sample_repr_any no_mem no_copy signal :
  ∃ leaks, driver_repr (K := sample_kernel no_mem no_copy signal) sample_state sample_adev leaks.
Proof.
  destruct sample_repr as (leaks & ll & pt & (m & [? [] ? ?] & Hst) & Ha & Hwf & Hpt).
  exists leaks, ll, pt. split; [|done]. exists m. split; [by split; [|split|..]|done].
Qed.

Lemma aesd_write_outcomes_witness :
  wp (run (K := calm) (aesd_write (K := calm) [100; 10]%Z 2 4)) (entry_oops (K := calm))
    (λ r _, r.1 = 2 ∨ r.1 < 0)%Z sample_state.
Proof.
  destruct sample_repr as [leaks Hs].
  eapply wp_mono; [apply (aesd_write_outcomes _ _ _ [100; 10]%Z 4 Hs); vm_compute; done|done|].
  intros r s' (a' & leaks' & n & Hr & _).
  destruct Hr; unfold ENOMEM, ERESTARTSYS, EINVAL; simpl; lia.
Defined.

(** From the second byte of "ab\n" two of nine bytes are left. *)
Lemma aesd_read_outcomes_witness :
  wp (run (K := calm) (aesd_read (K := calm) 9 1)) safe
    (λ r _, r.1.1 = 2 ∨ r.1 = (- EFAULT, 1) ∨ r.1 = (- ERESTARTSYS, 1))%Z sample_state.
Proof.
  destruct sample_repr as [leaks Hs].
  eapply wp_mono; [apply (aesd_read_outcomes _ _ _ 9 1 Hs); lia|done|].
  intros r s' [_ [(bs & -> & _ & i & l & o & Hi & Ho & Hp & Hl & _)|[(n & _ & ->)|[_ ->]]]]; auto.
  left. destruct i as [|i]; [|done]. injection Hi as <-. simpl in *. lia.
Defined.

Lemma aesd_llseek_positions_witness :
  wp (run (K := calm) (aesd_llseek (K := calm) 0 (-1) SEEK_END)) safe
    (λ r _, r = (2, 2)%Z ∨ @lock_failed calm ∧ r = (- ERESTARTSYS, 0)%Z) sample_state.
Proof.
  destruct sample_repr as [leaks Hs].
  eapply wp_mono; [apply (aesd_llseek_positions _ _ _ 0 (-1) SEEK_END 2 Hs)|done|].
  - right; right. split; [done|]. vm_compute. reflexivity.
  - vm_compute. done.
  - by intros r s' [_ ?].
Defined.

(** One byte behind "ab\n" is accepted, two are not. *)
Lemma aesd_ioctl_seeks_witness :
  wp (run (K := calm) (aesd_ioctl (K := calm) 7 (@AESDCHAR_IOCSEEKTO calm) (mk_seekto 0 3))) safe
    (λ r _, r.2 = 7 ∨ r = (0, 3))%Z sample_state ∧
  wp (run (K := calm) (aesd_ioctl (K := calm) 7 (@AESDCHAR_IOCSEEKTO calm) (mk_seekto 0 4))) safe
    (λ r _, r.2 = 7)%Z sample_state.
Proof.
  destruct sample_repr as [leaks Hs]. split.
  - eapply wp_mono; [apply (aesd_ioctl_seeks _ _ _ 7 (mk_seekto 0 3) Hs); vm_compute; done|done|].
    intros r s' [_ [[_ ->]|[[_ ->]|Hr]]]; [by left..|]. by right.
  - eapply wp_mono; [apply (aesd_ioctl_seeks _ _ _ 7 (mk_seekto 0 4) Hs); vm_compute; done|done|].
    by intros r s' [_ [[_ ->]|[[_ ->]| ->]]].
Defined.

Lemma aesd_ioctl_enotty_witness :
  run (K := calm) (aesd_ioctl (K := calm) 7 0 (mk_seekto 0 0)) boot = Ok ((- ENOTTY)%Z, 7%Z) boot.
Proof. apply (aesd_ioctl_enotty (K := calm)). vm_compute. done. Defined.

Lemma aesd_seek_beyond_line_witness :
  wp (run (K := calm) (aesd_adjust_file_offset 0 (mk_seekto 7 0))) safe
    (λ r _, r = (0, 3)%Z ∨ @lock_failed calm ∧ r = (- ERESTARTSYS, 0)%Z) sample_state.
Proof.
  destruct sample_repr as [leaks Hs].
  eapply wp_mono; [apply (aesd_seek_beyond_line _ _ _ 0 7 Hs); vm_compute; done|done|].
  by intros r s' [_ ?].
Defined.

Lemma driver_never_corrupts_witness :
  ∃ s, reachable (K := calm) s ∧
    wp (handle (K := calm) (Write [97; 10]%Z 0)) (entry_oops (K := calm))
      (λ _ s', lock (aesd_device (kdev s')) = false) s.
Proof.
  destruct (aesd_init_module (K := calm) boot) as [r s| |] eqn:Hrun; [|by vm_compute in Hrun..].
  assert (r = 0%Z) as -> by (vm_compute in Hrun; by injection Hrun).
  assert (reachable (K := calm) s) as Hs by (by eapply (reach_init boot)).
  exists s. split; [done|].
  eapply wp_mono; [apply (driver_never_corrupts s _ Hs); vm_compute; done|done|].
  by intros ? ? [? _].
Defined.

Lemma aesd_init_module_outcomes_witness :
  wp (aesd_init_module (K := calm)) safe (λ r s', r < 0 ∨ region (kdev s') = bool_decide (r = 0))%Z boot.
Proof.
  eapply wp_mono; [by apply (aesd_init_module_outcomes (K := calm) boot)|done|].
  intros r s' [[? _]|(_ & ? & _)]; auto.
Defined.

(** The signal comes while the second write waits for the mutex. *)
Definition signal_at : nat → bool := at_call (ktick sample_state + 2).


Lemma aesd_write_never_efault_witness :
  ∃ r s', run (K := sample_kernel never (at_call 1) never) (aesd_write (K := sample_kernel never (at_call 1) never) [100; 10]%Z 2 0) boot = Ok r s' ∧
    r.1 ≠ (- EFAULT)%Z.
Proof.
  destruct (run (K := sample_kernel never (at_call 1) never) (aesd_write (K := sample_kernel never (at_call 1) never) [100; 10]%Z 2 0) boot)
    as [r s'| |] eqn:Hrun; [|by vm_compute in Hrun..].
  exists r, s'. split; [done|].
  by eapply (aesd_write_never_efault (K := sample_kernel never (at_call 1) never) boot s'
    adev_empty [] [100; 10]%Z 0 r boot_repr).
Defined.

Lemma written_lines_are_read_back_witness :
  ∃ s', (write_all (K := calm) [[100]; [10; 101]]%Z 4;; read_to_end (K := calm) 40 2 0) sample_state
        = Ok [97; 98; 10; 99; 100; 10]%Z s'.
Proof.
  destruct sample_repr as [leaks Hs].
  apply (written_lines_are_read_back (K := calm) _ _ _ [[100]; [10; 101]]%Z 4 2 40 Hs);
    repeat constructor; vm_compute; done.
Defined.

Lemma unloading_leaks_an_entry_per_line_witness :
  ∃ s', (write_all (K := calm) [[97; 10; 98]; [10]]%Z 0;; aesd_cleanup_module) boot
        = Ok () s' ∧ size (kheap s') = 2.
Proof.
  apply (unloading_leaks_an_entry_per_line (K := calm) boot [[97; 10; 98]; [10]]%Z boot_repr);
    repeat constructor; vm_compute; done.
Defined.

Lemma refused_lseek_moves_f_pos_witness :
  ∃ s', (r ← run (K := calm) (aesd_llseek (K := calm) 0 7 SEEK_SET); x ← run (K := calm) (aesd_read (K := calm) 9 r.2); mret (r, x))
          sample_state = Ok ((- EINVAL, - EINVAL)%Z, (0%Z, (- EINVAL)%Z, [])) s'.
Proof.
  destruct sample_repr as [leaks Hs].
  apply (refused_lseek_moves_f_pos (K := calm) _ _ _ 0 7 9 Hs); [vm_compute; naive_solver|lia].
Defined.
