(* ===== verification/CharDriverConcurrency.v ===== *)
(** * The device under concurrent system calls

    With one writer, any number of readers and any schedule the device behaves
    as if the calls were made one after the other; with two writers it does
    not: they free twice, overflow, or duplicate the pending line. *)

From S2P Require Import Prelude Memory CircularBuffer DeviceSpec Kernel Steps CharDriver.
From S2P Require Import CharDriverSpec CharDriverInv CharDriverModule CharDriverClient.
From S2P Require Import CharDriverThreads OneWriter CharDriverProperties.

Section one_writer.
Context `{K : Kernel} {HK : KernelLaws K}.

(** C4: the device is linearizable as long as one thread writes.  Any number of
    threads make any system calls, each chosen from the answers before it, but
    only thread [w] writes; their atomic statements run in any order, signals
    and refused allocations included.  Then nothing goes wrong but the
    unchecked allocation, and the answers are those of a sequence of whole
    calls on the abstract device: all calls in the order in which they took
    effect, which for each thread is the order in which it made them, its last
    call possibly not having returned.  When no call is being made, the driver
    holds the device that this sequence leaves. *)
Theorem one_writer_is_linearizable s a leaks w plans schedule :
  driver_repr s a leaks →
  (∀ i p done r, plans !! i = Some p → p done = Some r → vfs_ok r ∧ (is_write r → i = w)) →
  wp (run_turns schedule (start plans)) entry_oops
    (λ σ s', ∃ a' h, history a (snd <$> h) a' ∧ call_of <$> h = effects σ ∧
       (∀ i th, threads σ !! i = Some th →
          ∃ rest, of_thread i h = answers th ++ rest ∧ length rest ≤ 1 ∧
                  (current th = None → rest = [])) ∧
       ((∀ i th, threads σ !! i = Some th → current th = None) →
          ∃ leaks', driver_repr s' a' leaks')) s.
Proof.
  intros Hs Hplans. eapply wp_mono; [by eapply run_turns_consistent, start_consistent|done|].
  intros σ s'. apply consistent_linearized.
Qed.
End one_writer.

Section concrete.
#[local] Existing Instance calm_kernel.

(** One writer of "d\n" and "e\n", one thread that reads and seeks. *)
Definition sample_plans : list (list (request * answer) → option request) :=
  [calls [Write [100; 10] 4; Write [101; 10] 6];
   calls [Read 10 0; Llseek 0 0 SEEK_END; Read 10 3]]%Z.

Lemma sample_plans_ok i p done r :
  sample_plans !! i = Some p → p done = Some r → vfs_ok r ∧ (is_write r → i = 0).
Proof.
  unfold sample_plans, calls. intros Hp Hr.
  destruct i as [|[|i]]; simpl in Hp; [| |done]; injection Hp as <-;
    destruct (length done) as [|[|[|n]]]; simpl in Hr; try done; injection Hr as <-;
    (split; [vm_compute; done|done]).
Qed.

(** The writer moves three times as fast as the reader. *)
Lemma one_writer_is_linearizable_witness :
  wp (run_turns (concat (replicate 40 [0; 0; 0; 1])) (start sample_plans)) entry_oops
    (λ σ _, ∃ a' h, history sample_adev (snd <$> h) a' ∧ call_of <$> h = effects σ)
    sample_state.
Proof.
  destruct sample_repr as [leaks Hs].
  eapply wp_mono; [exact (one_writer_is_linearizable _ _ _ 0 sample_plans _ Hs sample_plans_ok)|done|].
  intros σ s' (a' & h & ? & ? & _). by exists a', h.
Defined.

(** In that schedule both threads finish, and their calls take effect in turn. *)
Example sample_schedule_effects :
  match run_turns (concat (replicate 40 [0; 0; 0; 1])) (start sample_plans) sample_state with
  | Ok σ _ => fst <$> effects σ = [1; 0; 1; 0; 1] ∧ Forall (λ th, current th = None) (threads σ)
  | _ => False
  end.
Proof. vm_compute. split; [done|by repeat constructor]. Qed.

(** ** Two writers *)

(** A device whose pending line is "ab". *)
Definition pending_ab : state := after_write calm [97; 98]%Z.

Definition two_writers (data data' : list byte) : system :=
  start [calls [Write data 0]; calls [Write data' 0]]%Z.

(** What a reader gets from a state. *)
Definition contents_of (s : state) : option (list byte) :=
  match read_to_end 40 1024 0 s with Ok bs _ => Some bs | _ => None end.

Lemma writers_free_twice : can_fault pending_ab (two_writers [99; 10] [100; 10])%Z BadFree.
Proof. exists (replicate 10 0 ++ replicate 10 1 ++ [0; 1]). vm_compute. reflexivity. Qed.

Lemma writers_overflow : can_fault boot (two_writers [99; 10] [97; 98; 99; 100])%Z OutOfBounds.
Proof. exists (replicate 3 0 ++ replicate 40 1 ++ replicate 3 0). vm_compute. reflexivity. Qed.

(** C35: the accesses to the pending line happen before the mutex is taken, so
    that two writers, for some schedules of their statements, free it twice;
    copy it over the end of a buffer that was sized before the other one made it
    longer; or end without a fault with the pending "ab" in front of both lines,
    which neither order of the two writes gives. *)
Theorem concurrent_writes_race :
  can_fault pending_ab (two_writers [99; 10] [100; 10])%Z BadFree ∧
  can_fault boot (two_writers [99; 10] [97; 98; 99; 100])%Z OutOfBounds ∧
  ∃ schedule σ s, run_turns schedule (two_writers [99; 10] [100; 10])%Z pending_ab = Ok σ s ∧
    Forall (λ th, current th = None ∧ length (answers th) = 1) (threads σ) ∧
    contents_of s = Some [97; 98; 99; 10; 97; 98; 100; 10]%Z ∧
    acontent (awrite (awrite (ADev [] [97; 98]) [99; 10]) [100; 10])%Z
      = [97; 98; 99; 10; 100; 10]%Z ∧
    acontent (awrite (awrite (ADev [] [97; 98]) [100; 10]) [99; 10])%Z
      = [97; 98; 100; 10; 99; 10]%Z.
Proof.
  split; [apply writers_free_twice|]. split; [apply writers_overflow|].
  exists (replicate 8 0 ++ replicate 8 1 ++ replicate 40 0 ++ replicate 40 1).
  destruct (run_turns _ (two_writers [99; 10] [100; 10])%Z pending_ab) as [σ s| |] eqn:Hrun;
    [|by vm_compute in Hrun..].
  exists σ, s. split; [done|].
  vm_compute in Hrun. injection Hrun as <- <-. split_and!; try (vm_compute; reflexivity).
  repeat constructor.
Qed.
End concrete.
