(* ===== verification/CharDriverTypes.v ===== *)
(** * The driver's data is well typed ([struct aesd_dev] in [aesdchar.h])

    What the fields of the device can hold in a state that system calls reach:
    the C structs say [size_t] and [const char *], the code needs more. *)

From S2P Require Import Prelude Memory CircularBuffer DeviceSpec Kernel CharDriver.
From S2P Require Import CharDriverSpec CharDriverInv CharDriverWrite CharDriverSeek CharDriverModule.
From S2P Require Import CharDriverClient CharDriverProperties.

(** A slot is zeroed, or is the start of a live block of exactly its size. *)
Definition typed_entry (h : gmap loc block) (e : aesd_buffer_entry) : Prop :=
  e = null_entry ∨
  ∃ l bs, buffptr e = Ptr l 0 ∧ h !! l = Some (Bytes bs) ∧ esize e = Z.of_nat (length bs) ∧
          (0 < esize e < 2 ^ 32)%Z.

Definition block_of (e : aesd_buffer_entry) : option loc :=
  match buffptr e with NULL => None | Ptr l _ => Some l end.

(** The slots and the pending line. *)
Definition all_entries (d : aesd_dev) : list aesd_buffer_entry :=
  partial d :: entry (circular_buffer d).

Record typed (s : kstate module_state) (d : aesd_dev) : Prop := {
  ty_slots : length (entry (circular_buffer d)) = max_ops;
  ty_in_offs : (0 ≤ in_offs (circular_buffer d) < MAX_OPS)%Z;
  ty_out_offs : (0 ≤ out_offs (circular_buffer d) < MAX_OPS)%Z;
  ty_entries : Forall (typed_entry (kheap s)) (all_entries d);
  ty_blocks : NoDup (omap block_of (all_entries d));
  ty_total : (0 ≤ sum_list_Z (esize <$> entry (circular_buffer d)) < 2 ^ 63)%Z }.

Section types.
Context `{K : Kernel} {HK : KernelLaws K}.
Implicit Types (s : kstate module_state) (ll : list placed) (pt : option placed).

Lemma block_of_lines ll : omap block_of (line_entry <$> ll) = ll.*1.
Proof. induction ll as [|x ll IH]; [done|]. csimpl. by rewrite IH. Qed.

Lemma block_of_nulls n : omap block_of (replicate n null_entry) = [].
Proof. by induction n. Qed.

(** The entries are, in some order, those of the lines and zeroed slots. *)
Lemma all_entries_perm d ll pt :
  cb_wf (circular_buffer d) → queue (circular_buffer d) = line_entry <$> ll →
  partial d = partial_entry pt →
  ∃ n, all_entries d ≡ₚ (line_entry <$> ll ++ option_list pt) ++ replicate n null_entry.
Proof.
  intros Hwf Hq Hp. pose proof (entry_queue_perm _ Hwf) as Hperm. rewrite Hq in Hperm.
  unfold all_entries. rewrite Hp. destruct pt as [x|]; simpl.
  - eexists. rewrite Hperm, fmap_app. simpl. solve_Permutation.
  - exists (S (max_ops - length (line_entry <$> ll))). rewrite Hperm, app_nil_r. simpl.
    solve_Permutation.
Qed.

Lemma repr_typed s a leaks : driver_repr s a leaks → typed s (aesd_device (kdev s)).
Proof.
  intros (ll & pt & Hr & -> & Hwf & Hpt). apply repr_st in Hr as [Hs [_ [Hcb Hq Hfit] Hp Hpart]].
  assert (Forall fits (ll ++ option_list pt)) as Hfits by (by apply Forall_app).
  destruct (all_entries_perm _ ll pt Hcb Hq Hp) as [n Hperm].
  assert (∀ x, x ∈ ll ++ option_list pt → x.2 ≠ []) as Hne.
  { intros x. rewrite elem_of_app. intros [Hx|Hx].
    - destruct Hwf as [Hl _ _]. simpl in Hl. rewrite Forall_fmap, Forall_forall in Hl.
      apply Hl in Hx as (body & E & _). simpl in E. rewrite E. by destruct body.
    - destruct pt as [y|]; simpl in Hx; [|set_solver]. apply list_elem_of_singleton in Hx as ->.
      by apply Hpt. }
  split; try apply Hcb.
  - rewrite Hperm. apply Forall_app. split.
    + apply Forall_fmap, Forall_forall. intros x Hx. right. exists x.1, x.2. split_and!; [done| |done|..].
      * eapply heap_is_lookup; [apply Hs|]. unfold cells. rewrite app_nil_r, !elem_of_app.
        apply elem_of_app in Hx as [Hx|Hx]; [left|right; left]; by apply (list_elem_of_fmap_2 line_cell).
      * simpl. apply Hne in Hx. destruct (x.2); [done|]. simpl. lia.
      * rewrite Forall_forall in Hfits. apply Hfits in Hx. unfold fits in Hx.
        pose proof kmalloc_max. simpl. lia.
    + apply Forall_replicate. by left.
  - rewrite Hperm, omap_app, block_of_lines, block_of_nulls, app_nil_r.
    destruct Hs as [_ [Hnd _]]. unfold cells in Hnd.
    rewrite app_nil_r, (assoc_L (++)), fmap_app in Hnd. apply NoDup_app in Hnd as [Hnd _].
    rewrite <-fmap_app, <-list_fmap_compose in Hnd. done.
  - rewrite (entry_queue_perm _ Hcb), Hq, fmap_app, sum_list_Z_app, fmap_replicate, sum_list_Z_zeros.
    rewrite <-list_fmap_compose. destruct Hwf as [_ Hlen _]. simpl in Hlen.
    rewrite length_fmap in Hlen. clear Hfits. rename Hfit into Hfits.
    pose proof kmalloc_max as Hmax.
    assert (0 ≤ sum_list_Z ((esize ∘ line_entry) <$> ll) ≤ Z.of_nat (length ll) * 2 ^ 32)%Z; [|cb_lia].
    clear -Hfits Hmax. induction Hfits as [|x ll Hx _ IH]; csimpl; [lia|]. unfold fits in Hx. lia.
Qed.

(** C8: In every state that system calls reach from the loading of the module, the
    ten slots of the buffer and the pending line are zeroed entries or point
    to the start of live allocations, different ones, of exactly the size they
    record, which a 32-bit integer holds; both indices address a slot, and the
    sum of the sizes, which [aesd_llseek] takes for the size of the file, does
    not overflow a [loff_t]. *)
Theorem reachable_states_are_typed s : reachable s → typed s (aesd_device (kdev s)).
Proof. intros (a & leaks & Hs)%reachable_repr. by eapply repr_typed. Qed.
End types.

(** After loading the module and writing a line and a half. *)
Lemma reachable_states_are_typed_witness :
  ∃ s, typed s (aesd_device (kdev s)) ∧ block_of (partial (aesd_device (kdev s))) ≠ None.
Proof.
  destruct (aesd_init_module (K := calm) boot) as [r s| |] eqn:Hrun; [|by vm_compute in Hrun..].
  assert (r = 0%Z) as -> by (vm_compute in Hrun; by injection Hrun).
  destruct (handle (K := calm) (Write [97; 10; 98]%Z 0) s) as [v s'| |] eqn:Hw;
    [|injection Hrun as <-; by vm_compute in Hw..].
  exists s'. split.
  - apply (reachable_states_are_typed (K := calm)). eapply reach_step; [| |exact Hw].
    + by eapply (reach_init (K := calm) boot).
    + vm_compute. done.
  - injection Hrun as <-. vm_compute in Hw. by injection Hw as <- <-.
Defined.
