(* ===== verification/Schedules.v ===== *)
(** * Schedules of threads

    A system of threads is a function [turn] that lets one of them take a step;
    a schedule is the list of the threads whose turn it is.  An invariant that
    every turn keeps holds after every schedule; when a turn also makes a
    measure smaller, unless its thread has to wait, a fair schedule ends where
    all threads wait.  A thread is a function cut into pieces: [steps_as] says
    that steps from a point of it do what a computation does. *)

From S2P Require Import Prelude.

(** ** Pieces of a function *)

Section pieces.
Context {S P : Type} (step : P → M S P).
Implicit Types (s : S) (pt : P).

Fixpoint steps (k : nat) pt : M S P :=
  match k with
  | O => mret pt
  | Datatypes.S k => pt ← step pt; steps k pt
  end.

Lemma steps_app k k' pt s pt' s' :
  steps k pt s = Ok pt' s' → steps (k + k') pt s = steps k' pt' s'.
Proof.
  revert pt s. induction k as [|k IH]; intros pt s; simpl.
  - by intros [= -> ->].
  - intros (pt1 & s1 & E & Hk)%bind_inv. rewrite (bind_Ok _ _ _ _ _ E). by apply IH.
Qed.

(** [k] steps from [pt] end as [m] does, with the point [f] of its result. *)
Definition steps_as {A} (pt : P) (m : M S A) (f : A → P) s : Prop :=
  match m s with
  | Ok a s' => ∃ k, steps k pt s = Ok (f a) s'
  | Fault e => ∃ k, steps k pt s = Fault e
  | Diverge => True
  end.

Lemma steps_as_bind {A B} pt (m : M S A) (k : A → M S B) (f : A → P) g s :
  step pt s = (m ≫= λ a, mret (f a)) s →
  (∀ a s', steps_as (f a) (k a) g s') → steps_as pt (m ≫= k) g s.
Proof.
  unfold steps_as, mbind, M_bind, mret, M_ret. intros E Hk.
  destruct (m s) as [a s1|e|]; [|exists 1; simpl; unfold mbind, M_bind; by rewrite E|done].
  specialize (Hk a s1). destruct (k a s1) as [b s2|e|]; [| |done];
    destruct Hk as [n Hn]; exists (Datatypes.S n); simpl; by rewrite (bind_Ok _ _ _ _ _ E).
Qed.

Lemma steps_as_ret {A} (a : A) (g : A → P) s : steps_as (g a) (mret a) g s.
Proof. by exists 0. Qed.

(** A part of the function, then the rest of it. *)
Lemma steps_as_then {A B} pt (m : M S A) (k : A → M S B) (f : A → P) g s :
  steps_as pt m f s → (∀ a s', steps_as (f a) (k a) g s') → steps_as pt (m ≫= k) g s.
Proof.
  unfold steps_as, mbind, M_bind. intros Hm Hk.
  destruct (m s) as [a s1|e|]; [|done..]. destruct Hm as [n Hn]. specialize (Hk a s1).
  destruct (k a s1) as [b s2|e|]; [| |done];
    destruct Hk as [n' Hn']; exists (n + n'); by rewrite (steps_app _ _ _ _ _ _ Hn).
Qed.

End pieces.

(** ** Systems of threads *)

Section schedules.
Context {S T : Type} (turn : T → M S ()).
Implicit Types (s : S) (t : T).

Fixpoint run_schedule (schedule : list T) : M S () :=
  match schedule with
  | [] => mret ()
  | t :: schedule => turn t;; run_schedule schedule
  end.

Lemma run_schedule_app schedule schedule' s :
  run_schedule (schedule ++ schedule') s = (run_schedule schedule;; run_schedule schedule') s.
Proof.
  revert s. induction schedule as [|t schedule IH]; intros s; [done|]. simpl.
  unfold mbind, M_bind in *. destruct (turn t s) as [[] s1|e|]; [apply IH|done..].
Qed.

(** A schedule in rounds: every thread of [P] has a turn in every round. *)
Definition fair_rounds (P : T → Prop) (rounds : list (list T)) : Prop :=
  Forall (λ round, ∀ t, P t → t ∈ round) rounds.

Context (I : S → Prop) (measure : S → nat) (waits : S → T → Prop).
Context (step : ∀ t s, I s →
  wp (turn t) safe (λ _ s', I s' ∧ (measure s' < measure s ∨ s' = s ∧ waits s t)) s).

(** Something has happened, or every thread of the schedule had to wait. *)
Lemma run_schedule_inv schedule s :
  I s →
  wp (run_schedule schedule) safe
    (λ _ s', I s' ∧ (measure s' < measure s ∨ s' = s ∧ ∀ t, t ∈ schedule → waits s t)) s.
Proof using step.
  revert s. induction schedule as [|t schedule IH]; intros s Hs; simpl.
  { split; [done|right]. split; [done|]. by intros t ?%not_elem_of_nil. }
  wp_step. eapply wp_mono; [by apply step|done|]. intros [] s1 [Hs1 Hor1].
  eapply wp_mono; [by apply IH|done|]. intros [] s2 [Hs2 Hor2]. split; [done|].
  destruct Hor1 as [?|[-> Hw]]; [left; destruct Hor2 as [?|[-> _]]; lia|].
  destruct Hor2 as [?|[-> Hall]]; [by left|right]. split; [done|].
  intros t' [->|?]%elem_of_cons; auto.
Qed.

Context (P : T → Prop) (final : S → Prop).
Context (stuck_is_final : ∀ s, I s → (∀ t, P t → waits s t) → final s).
Context (final_is_stuck : ∀ s t, I s → final s → wp (turn t) safe (λ _ s', s' = s) s).

Lemma final_stays schedule s : I s → final s → wp (run_schedule schedule) safe (λ _ s', s' = s) s.
Proof using final_is_stuck.
  intros Hs Hf. induction schedule as [|t schedule IH]; simpl; [by wp_step|].
  wp_step. eapply wp_mono; [by apply final_is_stuck|done|]. by intros [] s1 ->.
Qed.

Lemma nothing_left s : I s → measure s = 0 → final s.
Proof using step stuck_is_final.
  intros Hs Hm. apply stuck_is_final; [done|]. intros t _.
  destruct (wp_safe_inv _ _ _ (step t s Hs)) as (? & s' & _ & _ & [?|[_ Hw]]); [lia|done].
Qed.

(** As many rounds as the measure says end everything. *)
Lemma rounds_end rounds s :
  I s → fair_rounds P rounds → measure s ≤ length rounds →
  wp (run_schedule (concat rounds)) safe (λ _ s', I s' ∧ final s') s.
Proof using step stuck_is_final final_is_stuck.
  revert s. induction rounds as [|round rounds IH]; intros s Hs Hfair Hm; simpl in *.
  { wp_step. split; [done|]. apply nothing_left; [done|lia]. }
  apply Forall_cons in Hfair as [Hr Hfair].
  unfold wp. rewrite run_schedule_app.
  change (wp (run_schedule round;; run_schedule (concat rounds)) safe (λ _ s', I s' ∧ final s') s).
  wp_step. eapply wp_mono; [by apply run_schedule_inv|done|].
  intros [] s1 [Hs1 [Hless|[-> Hall]]]; [apply IH; [done..|lia]|].
  assert (final s) as Hf by auto.
  eapply wp_mono; [by apply final_stays|done|]. by intros [] s2 ->.
Qed.
End schedules.
