(* ===== verification/FileOps.v ===== *)
(** * What a program needs of an open file

    The operations [server/aesdsocket.c] performs on [file_fd], as a class over
    the state behind the descriptor, and the contract of a file to which lines
    are appended: the AESD device, or the regular file of a build without it.
    [CharDriverFile] and [RegularFile] discharge the contract; the server's
    theorems use nothing else. *)

From S2P Require Import Prelude Memory CircularBuffer DeviceSpec Kernel CharDriver.
From S2P Require Import CharDriverSpec.

(** Results as the C library returns them: [-1] for every error. *)
Class FileOps (F : Type) := {
  file_write : list byte → M F Z;
  file_read : Z → M F (Z * list byte);
  file_lseek : Z → Z → M F Z;
  file_ioctl : Z → aesd_seekto → M F Z;
  (** the request number of the seek command *)
  file_seek_cmd : Z }.

Abbreviation len l := (Z.of_nat (length l)).

Class LogFile (F : Type) `{FileOps F} := {
  (** what the file stands for, and the bytes it holds *)
  log : Type;
  content : log → list byte;
  (** the next write starts a line *)
  whole : log → Prop;
  append : log → list byte → log;
  (** the position of a seek command, unless it is refused *)
  seek_target : log → aesd_seekto → option Z;
  (** the log behind the descriptor and the position in it *)
  file_repr : F → log → Z → Prop;
  (** the positions at which a write appends *)
  at_end : log → Z → Prop;
  (** the longest line the file takes *)
  line_max : Z;
  at_end_content a : at_end a (len (content a));
  at_end_le a p : at_end a p → (p ≤ len (content a))%Z;
  append_whole a l : whole a → is_line l → whole (append a l);
  append_length a l : whole a → is_line l →
    length (content (append a l)) ≤ length (content a) + length l;
  append_nonempty a l : whole a → is_line l → content (append a l) ≠ [];
  seek_target_bound a arg pos :
    u32_range (write_cmd arg) → u32_range (write_cmd_offset arg) →
    seek_target a arg = Some pos → (0 ≤ pos ≤ len (content a))%Z;
  file_repr_pos f a p : file_repr f a p → (0 ≤ p)%Z;
  file_write_spec f a p l :
    file_repr f a p → at_end a p → whole a → is_line l → (len l ≤ line_max)%Z →
    wp (file_write l) safe
      (λ r f', r = len l ∧ file_repr f' (append a l) (p + len l)) f;
  file_read_spec f a p count :
    file_repr f a p → (0 < count < 2 ^ 31)%Z →
    wp (file_read count) safe
      (λ r f', r.1 = len r.2 ∧ (r.1 ≤ count)%Z ∧
               r.2 `prefix_of` drop (Z.to_nat p) (content a) ∧
               (r.2 = [] → (len (content a) ≤ p)%Z) ∧
               file_repr f' a (p + r.1)) f;
  file_rewind_spec f a p :
    file_repr f a p →
    wp (file_lseek 0 SEEK_SET) safe (λ _ f', file_repr f' a 0) f;
  file_seek_spec f a p arg :
    file_repr f a p → u32_range (write_cmd arg) → u32_range (write_cmd_offset arg) →
    wp (file_ioctl file_seek_cmd arg) safe
      (λ r f', match seek_target a arg with
               | Some pos => r = 0%Z ∧ file_repr f' a pos
               | None => r = (-1)%Z ∧ file_repr f' a p
               end) f }.
Arguments log F {_ _}.
