(* ===== verification/CharDriverFile.v ===== *)
(** * The driver behind a file descriptor

    [aesd_open] and [aesd_release], and the system calls as the VFS makes them
    on an open device: the position is kept in [struct file], a negative
    result becomes [-1].  On a reliable kernel this is a [LogFile]. *)

From S2P Require Import Prelude Memory CircularBuffer DeviceSpec Kernel Steps CharDriver.
From S2P Require Import CharDriverSpec CharDriverInv CharDriverWrite CharDriverRead.
From S2P Require Import CharDriverSeek CharDriverModule CharDriverClient FileOps.

(** [struct file]: whether [private_data] points to [aesd_device], and the
    position. *)
Record file := mk_file { private_data : bool; f_pos : Z }.

Record fd_state := mk_fd { fd_kernel : kstate module_state; filp : file }.

(** Both return 0. *)
Definition aesd_open (f : file) : Z * file := (0%Z, mk_file true (f_pos f)).
Definition aesd_release (f : file) : Z := 0%Z.

Section syscalls.
Context `{K : Kernel}.

Definition libc_result (r : Z) : Z := if decide (r < 0)%Z then (-1)%Z else r.

(** Run a driver function on the device that [private_data] points to. *)
Definition on_file {A} (m : Z → M (kstate module_state) A) (pos : A → Z) : M fd_state A := λ s,
  if private_data (filp s) then
    match m (f_pos (filp s)) (fd_kernel s) with
    | Ok a k => Ok a (mk_fd k (mk_file true (pos a)))
    | Fault f => Fault f
    | Diverge => Diverge
    end
  else Fault NullDeref.

#[export] Instance device_file : FileOps fd_state := {|
  file_write data :=
    r ← on_file (λ p, run (aesd_write data (len data) p)) snd; mret (libc_result r.1);
  file_read count :=
    r ← on_file (λ p, run (aesd_read count p)) (λ r, r.1.2); mret (libc_result r.1.1, r.2);
  file_lseek offset whence :=
    r ← on_file (λ p, run (aesd_llseek p offset whence)) snd; mret (libc_result r.1);
  file_ioctl cmd arg :=
    r ← on_file (λ p, run (aesd_ioctl p cmd arg)) snd; mret (libc_result r.1);
  file_seek_cmd := AESDCHAR_IOCSEEKTO |}.
End syscalls.

Section device.
Context `{K : Kernel} {HK : KernelLaws K} {HR : KernelReliable K}.
Implicit Types (s : fd_state) (a : adev).

Record device_repr s a (p : Z) : Prop := {
  dr_open : private_data (filp s) = true;
  dr_pos : f_pos (filp s) = p;
  dr_range : (0 ≤ p < 2 ^ 62)%Z;
  dr_device : ∃ leaks, driver_repr (fd_kernel s) a leaks }.

(** A driver call with a known result, through the descriptor. *)
Lemma wp_on_file {A B} s (m : Z → M (kstate module_state) A) pos r k (g : A → M fd_state B) F Q :
  private_data (filp s) = true → m (f_pos (filp s)) (fd_kernel s) = Ok r k →
  wp (g r) F Q (mk_fd k (mk_file true (pos r))) →
  wp (on_file m pos ≫= g) F Q s.
Proof.
  intros Hpriv Hrun HQ. unfold wp, mbind, M_bind, on_file. by rewrite Hpriv, Hrun.
Qed.

Lemma aread_length a p count :
  (0 ≤ p)%Z → (p + len (aread a p count) ≤ len (acontent a))%Z ∨ aread a p count = [].
Proof.
  intros Hp. destruct (aread a p count) as [|c bs] eqn:Hr; [by right|left].
  pose proof (aread_prefix a p count Hp) as [rest Hrest]. rewrite Hr in Hrest.
  apply (f_equal length) in Hrest. rewrite length_drop, length_app in Hrest.
  assert (length (c :: bs) = S (length bs)) by done. lia.
Qed.

Lemma libc_result_pos r : (0 ≤ r)%Z → libc_result r = r.
Proof. intros. unfold libc_result. case_decide; lia. Qed.

(** The parts of [aread]'s contract, for a file. *)
Lemma aread_file a p count :
  (0 ≤ p)%Z → (0 < count)%Z →
  (len (aread a p count) ≤ count)%Z ∧
  aread a p count `prefix_of` drop (Z.to_nat p) (acontent a) ∧
  (aread a p count = [] → (len (acontent a) ≤ p)%Z).
Proof.
  intros Hp Hc. split_and!; [|by apply aread_prefix|by apply aread_nil].
  unfold aread. destruct (locate _ _) as [[i o]|]; simpl; [|lia]. rewrite length_take. lia.
Qed.

Lemma awrite_nonempty a l : apart a = [] → is_line l → acontent (awrite a l) ≠ [].
Proof.
  intros Ha Hl. rewrite awrite_line by done. unfold acontent. cbn [alines]. intros E.
  assert (l ∈ lastn max_ops (alines a ++ [l])) as Hin by (apply lastn_snoc_elem; cb_lia).
  apply list_elem_of_split in Hin as (l1 & l2 & Heq). rewrite Heq, concat_app in E.
  apply app_nil in E as [_ E]. simpl in E. apply app_nil in E as [-> _].
  apply is_line_length in Hl. simpl in Hl. lia.
Qed.

#[export] Program Instance device_log_file : LogFile fd_state := {|
  log := adev;
  content := acontent;
  whole a := apart a = [];
  append := awrite;
  seek_target a arg := aseekto a (write_cmd arg) (write_cmd_offset arg);
  file_repr := device_repr;
  at_end a p := (p ≤ len (acontent a))%Z;
  line_max := KMALLOC_MAX_SIZE `min` MAX_RW_COUNT |}.
Next Obligation. intros a. simpl. lia. Qed.
Next Obligation. by intros a p. Qed.
Next Obligation. intros a l Ha Hl. by rewrite awrite_line. Qed.
Next Obligation. intros a l Ha _. pose proof (acontent_awrite_length a l) as H. by rewrite Ha in H. Qed.
Next Obligation. apply awrite_nonempty. Qed.
Next Obligation. intros a arg pos _ [? _]. by apply aseekto_bound. Qed.
Next Obligation. by intros s a p [_ _ [? _] _]. Qed.
Next Obligation.
  intros s a p l [Hpriv <- Hp (leaks & Hs)] Hle Ha Hl Hmax.
  pose proof (content_length _ _ _ Hs). pose proof kmalloc_max.
  destruct (write_reliable (fd_kernel s) a leaks l (f_pos (filp s)) Hs)
    as (k & leaks' & Hrun & Hk & _); [lia..|rewrite Ha; simpl; lia|].
  cbn. eapply (wp_on_file _ (λ p, run _)); [done|exact Hrun|]. wp_steps.
  rewrite libc_result_pos by (simpl; lia). split; [done|]. split; simpl; [done..|lia|by eauto].
Qed.
Next Obligation.
  intros s a p count [Hpriv <- Hp (leaks & Hs)] Hc.
  pose proof (content_length _ _ _ Hs).
  destruct (aread_file a (f_pos (filp s)) count) as (Hr1 & Hr2 & Hr3); [lia..|].
  destruct (read_reliable (fd_kernel s) a leaks count (f_pos (filp s)) Hs)
    as (k & Hrun & Hk); [lia..|]. rewrite u64_small in Hrun by lia.
  cbn. eapply (wp_on_file _ (λ p, run _)); [done|exact Hrun|]. wp_steps. simpl.
  rewrite libc_result_pos by (simpl; lia). split_and!; [done..|].
  split; simpl; [done..| |by eauto].
  destruct (aread_length a (f_pos (filp s)) count) as [?| ->]; simpl; lia.
Qed.
Next Obligation.
  intros s a p [Hpriv <- Hp (leaks & Hs)].
  destruct (wp_safe_inv _ _ _ (aesd_llseek_spec _ a leaks (f_pos (filp s)) 0 SEEK_SET Hs))
    as (r & k & Hrun & Hk & [[Hf _]|Hr]); [by apply reliable_not_lock_failed in Hf|].
  rewrite llseek_set in Hr by lia. subst r.
  cbn. eapply (wp_on_file _ (λ p, run (aesd_llseek p 0 SEEK_SET))); [done|exact Hrun|].
  split; simpl; [done..|lia|by eauto].
Qed.
Next Obligation.
  intros s a p arg [Hpriv <- Hp (leaks & Hs)] Hc Ho.
  pose proof (content_length _ _ _ Hs).
  destruct (wp_safe_inv _ _ _ (aesd_ioctl_spec _ a leaks (f_pos (filp s)) AESDCHAR_IOCSEEKTO arg Hs Hc Ho))
    as (r & k & Hrun & Hk & Hr).
  unfold ioctl_post in Hr. rewrite decide_True in Hr by done.
  destruct Hr as [[[Hf _]|Hr]|[Hf _]];
    [by apply reliable_not_lock_failed in Hf| |by apply reliable_not_copy_failed in Hf].
  cbn. eapply (wp_on_file _ (λ p, run (aesd_ioctl p AESDCHAR_IOCSEEKTO arg))); [done|exact Hrun|].
  wp_steps. subst r. destruct (aseekto _ _ _) as [pos|] eqn:Hseek.
  - split; [done|]. apply aseekto_bound in Hseek; [|apply Ho].
    split; simpl; [done..|lia|by eauto].
  - split; [done|]. split; simpl; [done..|by eauto].
Qed.
End device.
