(* ===== verification/CString.v ===== *)
(** * C strings

    The functions of the C library that [server/aesdsocket.c] applies to its
    input buffer, on the bytes from a pointer to the end of the array it points
    into.  Reading past the array is the fault [OutOfBounds]. *)

From Stdlib Require Import Ascii String.
From S2P Require Import Prelude Memory DeviceSpec CharDriver.

(** A string literal without its terminator. *)
Definition bytes_of (s : String.string) : list byte :=
  (λ c, Z.of_N (N_of_ascii c)) <$> String.list_ascii_of_string s.

Definition NUL : byte := 0%Z.

(** The bytes before the terminator. *)
Fixpoint c_string (s : list byte) : list byte :=
  match s with
  | [] => []
  | c :: s => if decide (c = NUL) then [] else c :: c_string s
  end.

Section functions.
Context {S : Type}.

(** The index of the first [c], [None] when the terminator comes first. *)
Fixpoint strchr (s : list byte) (c : byte) : M S (option nat) :=
  match s with
  | [] => fail OutOfBounds
  | x :: s =>
     if decide (x = c) then mret (Some 0)
     else if decide (x = NUL) then mret None
     else i ← strchr s c; mret (Datatypes.S <$> i)
  end.

Fixpoint strncmp (s1 s2 : list byte) (n : nat) {struct n} : M S Z :=
  match n with
  | O => mret 0%Z
  | Datatypes.S n =>
     match s1, s2 with
     | x :: s1, y :: s2 =>
        if decide (x ≠ y) then mret (x - y)%Z
        else if decide (x = NUL) then mret 0%Z
        else strncmp s1 s2 n
     | _, _ => fail OutOfBounds
     end
  end.
End functions.

(** *** [sscanf] with the format [AESDCHAR_IOCSEEKTO:%d,%d] *)

Definition isspace (c : byte) : bool := bool_decide (c = 32 ∨ 9 ≤ c ≤ 13)%Z.
Definition isdigit (c : byte) : bool := bool_decide (48 ≤ c ≤ 57)%Z.

Fixpoint skip_space (s : list byte) : list byte :=
  match s with
  | c :: s' => if isspace c then skip_space s' else s
  | [] => []
  end.

(** The value of the digits in front of [s], after [acc]. *)
Fixpoint scan_digits (acc : Z) (s : list byte) : Z * list byte :=
  match s with
  | c :: s' => if isdigit c then scan_digits (acc * 10 + (c - 48)) s' else (acc, s)
  | [] => (acc, s)
  end.

(** glibc converts with [strtol], which saturates at the range of a [long],
    and stores the low 32 bits. *)
Definition store_int (v : Z) : Z := u32 ((- 2 ^ 63) `max` (v `min` (2 ^ 63 - 1))).

(** [%d]: white space, a sign, at least one digit. *)
Definition scan_d (s : list byte) : option (Z * list byte) :=
  let s := skip_space s in
  let '(sign, s) := match s with
                    | c :: s' => if decide (c = 45)%Z then ((-1)%Z, s')
                                 else if decide (c = 43)%Z then (1%Z, s') else (1%Z, s)
                    | [] => (1%Z, s)
                    end in
  match s with
  | c :: _ => if isdigit c then
                let '(v, s) := scan_digits 0 s in Some (store_int (sign * v), s)
              else None
  | [] => None
  end.

(** Characters of the format that stand for themselves. *)
Fixpoint scan_literal (lit s : list byte) : option (list byte) :=
  match lit, s with
  | [], s => Some s
  | x :: lit, y :: s => if decide (x = y) then scan_literal lit s else None
  | _ :: _, [] => None
  end.

Definition AESDCHAR_IOCSEEKTO_NAME : list byte := bytes_of "AESDCHAR_IOCSEEKTO"%string.

(** The structure filled in, when both conversions succeed: the call returns 2
    exactly then. *)
Definition sscanf_seekto (s : list byte) : option aesd_seekto :=
  s ← scan_literal (AESDCHAR_IOCSEEKTO_NAME ++ bytes_of ":"%string) (c_string s);
  '(write_cmd, s) ← scan_d s;
  s ← scan_literal (bytes_of ","%string) s;
  '(write_cmd_offset, _) ← scan_d s;
  Some (mk_seekto write_cmd write_cmd_offset).

(** *** Lemmas *)

Section strings.
Context {St : Type}.
Implicit Types (s t : list byte).

Lemma c_string_app s t : NUL ∉ s → c_string (s ++ t) = s ++ c_string t.
Proof.
  induction s as [|c s IH]; intros Hs; simpl; [done|].
  rewrite not_elem_of_cons in Hs. destruct Hs. rewrite decide_False by done. by rewrite IH.
Qed.

Lemma c_string_NUL s t : NUL ∉ s → c_string (s ++ NUL :: t) = s.
Proof. intros. rewrite c_string_app by done. simpl. by rewrite app_nil_r. Qed.

Lemma c_string_no_NUL s : NUL ∉ c_string s.
Proof. induction s as [|c s IH]; simpl; [|case_decide]; set_solver. Qed.

(** On a terminated string [strchr] is a search in the string. *)
Lemma strchr_spec s t c (st : St) :
  NUL ∉ s → c ≠ NUL → strchr (s ++ NUL :: t) c st = Ok (index_of c s) st.
Proof.
  intros Hs Hc. induction s as [|x s IH]; simpl.
  - by rewrite decide_False by done.
  - rewrite not_elem_of_cons in Hs. destruct Hs. rewrite index_of_cons. case_decide; [done|].
    rewrite decide_False by done. by erewrite bind_Ok by (by apply IH).
Qed.

(** Every stored value is a [uint32_t]. *)
Lemma scan_d_range s v s' : scan_d s = Some (v, s') → (0 ≤ v < 2 ^ 32)%Z.
Proof.
  unfold scan_d. intros Hs. repeat case_match; simplify_eq; apply u_wrap_range; lia.
Qed.

Lemma sscanf_range s arg :
  sscanf_seekto s = Some arg → (0 ≤ write_cmd arg < 2 ^ 32 ∧ 0 ≤ write_cmd_offset arg < 2 ^ 32)%Z.
Proof.
  unfold sscanf_seekto. intros Hs.
  repeat (apply bind_Some in Hs as ([? ?] & Hd & Hs) || apply bind_Some in Hs as (? & ? & Hs)).
  case_match; simplify_eq. split; by eapply scan_d_range.
Qed.
End strings.

(** *** Writing a seek command *)

(** [printf] with [%d] of a non-negative number, from the last digit. *)
Fixpoint decimal (fuel : nat) (n : Z) : list byte :=
  match fuel with
  | O => []
  | S fuel => (if decide (n < 10)%Z then [] else decimal fuel (n / 10)) ++ [(48 + n `mod` 10)%Z]
  end.

Definition seek_command (arg : aesd_seekto) : list byte :=
  AESDCHAR_IOCSEEKTO_NAME ++ bytes_of ":"%string ++ decimal 10 (write_cmd arg)
    ++ bytes_of ","%string ++ decimal 10 (write_cmd_offset arg) ++ [newline].

Lemma scan_digits_app ds acc s :
  Forall isdigit ds →
  scan_digits acc (ds ++ s) = scan_digits (foldl (λ a d, a * 10 + (d - 48)) acc ds)%Z s.
Proof.
  intros Hds. revert acc. induction Hds as [|d ds Hd Hds IH]; intros acc; simpl; [done|].
  destruct (isdigit d); [|done]. apply IH.
Qed.

Lemma decimal_digits fuel n : (0 ≤ n)%Z → Forall isdigit (decimal fuel n).
Proof.
  revert n. induction fuel as [|fuel IH]; intros n Hn; simpl; [done|].
  apply Forall_app. split; [case_decide; [done|]; apply IH; zmod_lia|].
  constructor; [|done]. unfold isdigit. apply bool_decide_spec. zmod_lia.
Qed.

Lemma decimal_value fuel n :
  (0 ≤ n < 10 ^ Z.of_nat fuel)%Z → foldl (λ a d, a * 10 + (d - 48))%Z 0%Z (decimal fuel n) = n.
Proof.
  revert n. induction fuel as [|fuel IH]; intros n Hn; simpl; [simpl in Hn; lia|].
  rewrite foldl_app. case_decide as Hlt; simpl.
  - rewrite Z.mod_small; lia.
  - rewrite IH; [zmod_lia|]. rewrite Nat2Z.inj_succ, Z.pow_succ_r in Hn by lia.
    split; [zmod_lia|]. apply Z.div_lt_upper_bound; lia.
Qed.

Lemma scan_d_decimal n c s :
  (0 ≤ n < 2 ^ 32)%Z → isdigit c = false → scan_d (decimal 10 n ++ c :: s) = Some (n, c :: s).
Proof.
  intros Hn Hc. pose proof (decimal_digits 10 n ltac:(lia)) as Hds.
  pose proof (decimal_value 10 n ltac:(simpl; lia)) as Hv.
  assert (∃ d ds, decimal 10 n = d :: ds) as (d & ds & Hd).
  { destruct (decimal 10 n) as [|d ds] eqn:E; [|by eexists _, _].
    apply (f_equal length) in E. simpl in E. rewrite length_app in E. simpl in E. lia. }
  rewrite Hd in *. apply Forall_cons_1 in Hds as Hdd. destruct Hdd as [Hd1 _].
  assert (48 ≤ d ≤ 57)%Z as Hdr by (unfold isdigit in Hd1; by apply bool_decide_spec in Hd1).
  unfold scan_d. simpl app. unfold skip_space.
  assert (isspace d = false) as -> by (apply bool_decide_eq_false; lia).
  rewrite !decide_False by lia. destruct (isdigit d) eqn:Hdig; [|done].
  change (d :: ds ++ c :: s) with ((d :: ds) ++ c :: s).
  rewrite scan_digits_app, Hv by done. cbn [scan_digits]. rewrite Hc.
  f_equal. f_equal. unfold store_int. rewrite Z.mul_1_l, Z.min_l, Z.max_r by lia.
  by apply u_wrap_small.
Qed.

Lemma scan_literal_app lit s : scan_literal lit (lit ++ s) = Some s.
Proof. induction lit; simpl; [by destruct s|]. by rewrite decide_True. Qed.

Lemma decimal_no_NUL fuel n : (0 ≤ n)%Z → NUL ∉ decimal fuel n.
Proof.
  intros Hn Hin. pose proof (decimal_digits fuel n Hn) as Hd.
  rewrite Forall_forall in Hd. apply Hd in Hin. done.
Qed.

Lemma seek_command_no_NUL arg :
  (0 ≤ write_cmd arg)%Z → (0 ≤ write_cmd_offset arg)%Z → NUL ∉ seek_command arg.
Proof.
  intros Hc Ho. unfold seek_command. rewrite !elem_of_app.
  pose proof (decimal_no_NUL 10 _ Hc). pose proof (decimal_no_NUL 10 _ Ho).
  assert (NUL ∉ AESDCHAR_IOCSEEKTO_NAME) by (vm_compute; set_solver).
  assert (NUL ∉ bytes_of ":"%string ∧ NUL ∉ bytes_of ","%string) as [? ?]
    by (vm_compute; set_solver).
  assert (NUL ∉ [newline]) by (vm_compute; set_solver).
  tauto.
Qed.

Lemma decimal_length fuel n : length (decimal fuel n) ≤ fuel.
Proof.
  revert n. induction fuel as [|fuel IH]; intros n; simpl; [lia|].
  rewrite length_app. specialize (IH (n / 10)%Z). case_decide; simpl; lia.
Qed.

Lemma seek_command_length arg : length (seek_command arg) < 1024.
Proof.
  unfold seek_command. rewrite !length_app.
  pose proof (decimal_length 10 (write_cmd arg)).
  pose proof (decimal_length 10 (write_cmd_offset arg)).
  change (length AESDCHAR_IOCSEEKTO_NAME) with 18.
  change (length (bytes_of ":"%string)) with 1. change (length (bytes_of ","%string)) with 1.
  change (length [newline]) with 1. lia.
Qed.

Lemma seek_command_line arg :
  (0 ≤ write_cmd arg)%Z → (0 ≤ write_cmd_offset arg)%Z → is_line (seek_command arg).
Proof.
  intros Hc Ho. unfold seek_command. rewrite !(assoc_L (++)). eexists. split; [done|].
  rewrite !elem_of_app.
  pose proof (decimal_digits 10 _ Hc) as H1. pose proof (decimal_digits 10 _ Ho) as H2.
  rewrite Forall_forall in H1, H2. specialize (H1 newline). specialize (H2 newline).
  assert (newline ∉ AESDCHAR_IOCSEEKTO_NAME) by (vm_compute; set_solver).
  assert (newline ∉ bytes_of ":"%string ∧ newline ∉ bytes_of ","%string) as [? ?]
    by (vm_compute; set_solver).
  assert (isdigit newline → False) by done. tauto.
Qed.

Lemma sscanf_command_app arg rest :
  (0 ≤ write_cmd arg < 2 ^ 32)%Z → (0 ≤ write_cmd_offset arg < 2 ^ 32)%Z →
  sscanf_seekto (seek_command arg ++ rest) = Some arg.
Proof.
  intros Hc Ho. unfold sscanf_seekto.
  rewrite c_string_app by (apply seek_command_no_NUL; lia).
  unfold seek_command. rewrite <-!(assoc_L (++)), (assoc_L (++) AESDCHAR_IOCSEEKTO_NAME).
  rewrite scan_literal_app. cbn [mbind option_bind].
  change (bytes_of ","%string) with [44%Z]. cbn [app].
  rewrite scan_d_decimal by done. cbn [mbind option_bind].
  change (44%Z :: decimal 10 (write_cmd_offset arg) ++ newline :: c_string rest)
    with ([44%Z] ++ (decimal 10 (write_cmd_offset arg) ++ newline :: c_string rest)).
  rewrite scan_literal_app. cbn [mbind option_bind].
  rewrite scan_d_decimal by done. by destruct arg.
Qed.

Lemma sscanf_seek_command_nil arg :
  (0 ≤ write_cmd arg < 2 ^ 32)%Z → (0 ≤ write_cmd_offset arg < 2 ^ 32)%Z →
  sscanf_seekto (seek_command arg ++ []) = Some arg.
Proof. apply sscanf_command_app. Qed.

(** A seek command written with [%d,%d] is read back as the same structure
    by the server's [sscanf], whatever follows it in the packet: the round
    trip holds for every pair of [uint32_t] values. *)
Theorem sscanf_seek_command arg rest :
  (0 ≤ write_cmd arg < 2 ^ 32)%Z → (0 ≤ write_cmd_offset arg < 2 ^ 32)%Z →
  sscanf_seekto (seek_command arg ++ rest) = Some arg.
Proof. apply sscanf_command_app. Qed.

Lemma sscanf_seek_command_witness :
  sscanf_seekto (seek_command (mk_seekto 3 4294967295)) = Some (mk_seekto 3 4294967295).
Proof.
  rewrite <-(app_nil_r (seek_command _)). apply sscanf_seek_command; simpl; lia.
Defined.
