(* ===== verification/Calendar.v ===== *)
(** * Broken-down time

    [localtime] and [strftime] of the C library, as far as the timestamp timer
    of [server/aesdsocket.c] uses them.  POSIX counts 86400 seconds to a day
    and knows no leap seconds; the time zone is a function from times to
    offsets, an argument of [localtime].  [localtime_range] gives the ranges
    the C standard promises for the members of [struct tm]. *)

From S2P Require Import Prelude Memory CString.

(** The members the format looks at. *)
Record tm := mk_tm {
  tm_sec : Z;
  tm_min : Z;
  tm_hour : Z;
  tm_mday : Z;
  tm_mon : Z;
  tm_year : Z }.

Section calendar.
Open Scope Z_scope.

(** The year (counted from March), the month from March on and the day of the
    month of a day of the 400-year cycle that starts on 1 March of a year
    divisible by 400. *)
Definition year_of_cycle (doe : Z) : Z :=
  (doe - doe / 1460 + doe / 36524 - doe / 146096) / 365.
Definition day_of_year (doe : Z) : Z :=
  doe - (365 * year_of_cycle doe + year_of_cycle doe / 4 - year_of_cycle doe / 100).
Definition march_month (doy : Z) : Z := (5 * doy + 2) / 153.
Definition day_of_month (doy : Z) : Z := doy - (153 * march_month doy + 2) / 5 + 1.

Definition month_of (doy : Z) : Z :=
  if decide (march_month doy < 10) then march_month doy + 2 else march_month doy - 10.

(** Year, month from 0, day of the month. *)
Definition date_of_cycle (doe : Z) : Z * Z * Z :=
  let doy := day_of_year doe in
  (if decide (month_of doy < 2) then year_of_cycle doe + 1 else year_of_cycle doe,
   month_of doy, day_of_month doy).

Definition add_years (n : Z) (date : Z * Z * Z) : Z * Z * Z :=
  let '(year, month, mday) := date in (year + n, month, mday).

(** The date of a day counted from 1 January 1970, day 719468 of a cycle. *)
Definition date_of_day (day : Z) : Z * Z * Z :=
  let day := day + 719468 in
  add_years (400 * (day / 146097)) (date_of_cycle (day `mod` 146097)).

(** [NULL] when the year is not an [int]. *)
Definition gmtime (t : Z) : option tm :=
  let '(year, month, mday) := date_of_day (t / 86400) in
  let s := t `mod` 86400 in
  if decide (- 2 ^ 31 ≤ year - 1900 < 2 ^ 31) then
    Some (mk_tm (s `mod` 60) (s / 60 `mod` 60) (s / 3600) mday month (year - 1900))
  else None.

Definition localtime (utc_offset : Z → Z) (t : Z) : option tm := gmtime (t + utc_offset t).

(** ** The day count as an inverse *)

Lemma year_of_cycle_range doe : 0 ≤ doe < 146097 → 0 ≤ year_of_cycle doe < 400.
Proof. intros. unfold year_of_cycle. zmod_lia. Qed.

Lemma day_of_year_range doe : 0 ≤ doe < 146097 → 0 ≤ day_of_year doe < 366.
Proof. intros. unfold day_of_year, year_of_cycle. zmod_lia. Qed.

Lemma march_month_range doy : 0 ≤ doy < 366 → 0 ≤ march_month doy < 12.
Proof. intros. unfold march_month. zmod_lia. Qed.

Lemma month_of_range doy : 0 ≤ doy < 366 → 0 ≤ month_of doy ≤ 11.
Proof.
  intros Hd. pose proof (march_month_range _ Hd). unfold month_of. case_decide; lia.
Qed.

Lemma day_of_month_range doy : 0 ≤ doy < 366 → 1 ≤ day_of_month doy ≤ 31.
Proof. intros. unfold day_of_month, march_month. zmod_lia. Qed.

(** What the C standard says of the members. *)
Definition tm_wf (x : tm) : Prop :=
  0 ≤ tm_sec x ≤ 60 ∧ 0 ≤ tm_min x ≤ 59 ∧ 0 ≤ tm_hour x ≤ 23 ∧
  1 ≤ tm_mday x ≤ 31 ∧ 0 ≤ tm_mon x ≤ 11 ∧ - 2 ^ 31 ≤ tm_year x < 2 ^ 31.

Lemma localtime_range utc_offset t x : localtime utc_offset t = Some x → tm_wf x.
Proof.
  unfold localtime, gmtime, date_of_day, date_of_cycle, add_years. set (d := _ / 86400 + 719468).
  pose proof (Z.mod_pos_bound d 146097 ltac:(lia)) as Hd.
  apply day_of_year_range in Hd.
  pose proof (month_of_range _ Hd) as Hm. pose proof (day_of_month_range _ Hd) as Hday.
  case_decide; [|done]. intros [= <-]. unfold tm_wf. simpl.
  split_and!; try lia; zmod_lia.
Qed.

(** ** The Gregorian calendar *)

Definition leap (year : Z) : bool :=
  bool_decide (year `mod` 4 = 0 ∧ (year `mod` 100 ≠ 0 ∨ year `mod` 400 = 0)).
Definition month_days (lp : bool) (month : Z) : Z :=
  if decide (month = 1) then if lp then 29 else 28
  else if decide (month = 3 ∨ month = 5 ∨ month = 8 ∨ month = 10) then 30 else 31.

(** The date of the next day, when [lp year] says which years are long. *)
Definition next_date (lp : Z → bool) (date : Z * Z * Z) : Z * Z * Z :=
  let '(year, month, mday) := date in
  if decide (mday < month_days (lp year) month) then (year, month, mday + 1)
  else if decide (month < 11) then (year, month + 1, 1) else (year + 1, 0, 1).

Definition year_days (lp : bool) : Z := if lp then 366 else 365.
(** The first day of a year of the cycle. *)
Definition year_start (y : Z) : Z := 365 * y + y / 4 - y / 100 + y / 400.

Lemma year_of_cycle_spec doe y :
  0 ≤ doe < 146097 → 0 ≤ y < 400 →
  year_of_cycle doe = y ↔ year_start y ≤ doe < year_start (y + 1).
Proof. intros. unfold year_start, year_of_cycle. split; zmod_lia. Qed.

Lemma day_of_year_eq doe :
  0 ≤ doe < 146097 → day_of_year doe = doe - year_start (year_of_cycle doe).
Proof.
  intros Hd. unfold day_of_year, year_start. pose proof (year_of_cycle_range _ Hd).
  rewrite (Z.div_small _ 400) by lia. lia.
Qed.

Lemma year_start_succ y : year_start (y + 1) = year_start y + year_days (leap (y + 1)).
Proof. unfold leap, year_days. case_bool_decide; unfold year_start; zmod_lia. Qed.

Lemma leap_cycle y k : leap (y + 400 * k) = leap y.
Proof. unfold leap. apply bool_decide_ext. zmod_lia. Qed.

Definition date_of_year (doy : Z) : Z * Z * Z :=
  (if decide (month_of doy < 2) then 1 else 0, month_of doy, day_of_month doy).

(** Within a year that starts in March, by inspection of its days. *)
Lemma date_in_year lp doy :
  0 ≤ doy < year_days lp →
  next_date (λ _, lp) (date_of_year doy) =
    if decide (doy + 1 < year_days lp) then date_of_year (doy + 1) else add_years 1 (date_of_year 0).
Proof.
  intros Hd. assert (doy ∈ seqZ 0 (year_days lp)) as Hin by (apply elem_of_seqZ; lia). clear Hd.
  revert doy Hin. apply Forall_forall. destruct lp; apply (bool_decide_unpack _); vm_compute; done.
Qed.

(** Only the length of February depends on the year. *)
Lemma next_date_add_years lp y date :
  (date.1.2 = 1 → lp = leap (y + date.1.1)) →
  next_date leap (add_years y date) = add_years y (next_date (λ _, lp) date).
Proof.
  destruct date as [[year month] mday]. cbn. intros Hlp.
  assert (month_days (leap (year + y)) month = month_days lp month) as ->.
  { unfold month_days. case_decide; [|done]. rewrite Hlp by done. by rewrite Z.add_comm. }
  repeat case_decide; cbn; repeat apply (f_equal2 pair); lia.
Qed.

Lemma date_of_cycle_eq doe :
  date_of_cycle doe = add_years (year_of_cycle doe) (date_of_year (day_of_year doe)).
Proof.
  unfold date_of_cycle, date_of_year, add_years. case_decide; repeat apply (f_equal2 pair); lia.
Qed.

Lemma add_years_add a b date : add_years a (add_years b date) = add_years (a + b) date.
Proof. destruct date as [[??]?]. cbn. repeat apply (f_equal2 pair); lia. Qed.

Lemma next_in_cycle doe :
  0 ≤ doe < 146097 →
  next_date leap (date_of_cycle doe) =
    if decide (doe + 1 < 146097) then date_of_cycle (doe + 1)
    else add_years 400 (date_of_cycle 0).
Proof.
  intros Hd. rewrite !date_of_cycle_eq.
  pose proof (year_of_cycle_range _ Hd) as Hy.
  pose proof (proj1 (year_of_cycle_spec doe _ Hd Hy) eq_refl) as Hs.
  pose proof (day_of_year_eq _ Hd) as Hdoy. rewrite year_start_succ in Hs.
  remember (year_of_cycle doe) as y eqn:Ey. remember (leap (y + 1)) as lp eqn:Elp.
  rewrite (next_date_add_years lp); cycle 1.
  { cbn. intros ->. done. }
  rewrite date_in_year by lia.
  assert (year_start 400 = 146097) as H400 by done.
  case_decide as H1.
  - assert (doe + 1 < 146097) as Hlt.
    { destruct (decide (doe = 146096)) as [He|]; [|lia]. exfalso.
      assert (y = 399) as Hy399 by (rewrite Ey, He; done).
      rewrite Hy399 in Elp. rewrite He, Elp in H1. done. }
    rewrite decide_True by done.
    assert (year_of_cycle (doe + 1) = y) as Hy1
      by (apply (year_of_cycle_spec (doe + 1) y); [lia|done|]; rewrite year_start_succ, <-Elp; lia).
    rewrite (day_of_year_eq (doe + 1)), Hy1, Hdoy by lia. do 2 f_equal. lia.
  - rewrite add_years_add. case_decide as Hlt.
    + assert (y + 1 < 400) as Hy4.
      { destruct (decide (y = 399)) as [He|]; [|lia]. exfalso.
        assert (year_start (y + 1) = doe + 1) as Hn by (rewrite year_start_succ, <-Elp; lia).
        rewrite He in Hn. change (399 + 1) with 400 in Hn. lia. }
      assert (year_start (y + 1) = doe + 1) as Hn by (rewrite year_start_succ, <-Elp; lia).
      assert (year_of_cycle (doe + 1) = y + 1) as Hy1.
      { apply (year_of_cycle_spec (doe + 1) (y + 1)); [lia|lia|]. rewrite (year_start_succ (y + 1)).
        unfold year_days. case_match; lia. }
      rewrite (day_of_year_eq (doe + 1)), Hy1, Hn by lia. by rewrite Z.sub_diag.
    + assert (doe = 146096) as He by lia.
      assert (y = 399) as -> by (rewrite Ey, He; done). done.
Qed.

(** [date_of_day] is the Gregorian calendar: it starts with 1 January 1970
    and every day is followed by the next one. *)
Lemma date_of_day_0 : date_of_day 0 = (1970, 0, 1).
Proof. done. Qed.

Lemma date_of_day_succ day : date_of_day (day + 1) = next_date leap (date_of_day day).
Proof.
  unfold date_of_day. replace (day + 1 + 719468) with (day + 719468 + 1) by lia.
  set (n := day + 719468). clearbody n. clear day.
  pose proof (Z.mod_pos_bound n 146097 ltac:(lia)) as Hr.
  assert (next_date leap (add_years (400 * (n / 146097)) (date_of_cycle (n `mod` 146097))) =
    add_years (400 * (n / 146097)) (next_date leap (date_of_cycle (n `mod` 146097)))) as ->.
  { destruct (date_of_cycle _) as [[year month] mday]. cbn. rewrite leap_cycle.
    repeat case_decide; cbn; repeat apply (f_equal2 pair); lia. }
  rewrite next_in_cycle by done. case_decide.
  - assert ((n + 1) / 146097 = n / 146097) as -> by zmod_lia.
    by assert ((n + 1) `mod` 146097 = n `mod` 146097 + 1) as -> by zmod_lia.
  - assert ((n + 1) / 146097 = n / 146097 + 1) as -> by zmod_lia.
    assert ((n + 1) `mod` 146097 = 0) as -> by zmod_lia.
    rewrite add_years_add. f_equal. lia.
Qed.
End calendar.

(** ** [strftime] *)

(** A decimal number of at least [digits] digits. *)
Definition number (digits : nat) (n : Z) : list byte :=
  (if decide (n < 0)%Z then [45%Z] else []) ++
  (let ds := decimal 10 (Z.abs n) in replicate (digits - length ds) 48%Z ++ ds).

(** The conversions of the format below. *)
Definition conversion (c : byte) (x : tm) : list byte :=
  if decide (c = 89)%Z then number 1 (tm_year x + 1900)        (* Y *)
  else if decide (c = 109)%Z then number 2 (tm_mon x + 1)      (* m *)
  else if decide (c = 100)%Z then number 2 (tm_mday x)         (* d *)
  else if decide (c = 72)%Z then number 2 (tm_hour x)          (* H *)
  else if decide (c = 77)%Z then number 2 (tm_min x)           (* M *)
  else if decide (c = 83)%Z then number 2 (tm_sec x)           (* S *)
  else [].

Fixpoint expand (format : list byte) (x : tm) : list byte :=
  match format with
  | [] => []
  | c :: format =>
     if decide (c = 37)%Z then
       match format with
       | [] => []
       | k :: format => conversion k x ++ expand format x
       end
     else c :: expand format x
  end.

(** What is stored, with its terminator; [None]: more than [max] bytes, the
    result is 0 and the contents of the array are unspecified. *)
Definition strftime (max : Z) (format : list byte) (x : tm) : option (list byte) :=
  let s := expand format x ++ [NUL] in
  if decide (Z.of_nat (length s) ≤ max)%Z then Some s else None.

Lemma number_length digits n k :
  (0 < k)%nat → (Z.abs n < 10 ^ Z.of_nat k)%Z →
  (length (number digits n) ≤ (if decide (n < 0)%Z then 1 else 0) + digits `max` k)%nat.
Proof.
  intros Hk Hn. unfold number. rewrite !length_app, length_replicate.
  assert (length (decimal 10 (Z.abs n)) ≤ k)%nat as Hd.
  { clear -Hk Hn. generalize 10%nat as fuel. intros fuel. assert (0 ≤ Z.abs n)%Z as Hp by lia.
    revert Hp Hn. generalize (Z.abs n) as m. revert fuel. clear n.
    induction k as [|k IH]; intros fuel m Hp Hm; [lia|].
    destruct fuel as [|fuel]; simpl; [lia|]. rewrite length_app. simpl.
    case_decide; simpl; [lia|]. destruct k as [|k].
    { simpl in Hm. lia. }
    assert (length (decimal fuel (m / 10)) ≤ S k)%nat; [|lia].
    apply IH; [lia|zmod_lia|]. rewrite Nat2Z.inj_succ, Z.pow_succ_r in Hm by lia.
    apply Z.div_lt_upper_bound; lia. }
  revert Hd. generalize (length (decimal 10 (Z.abs n))) as d. intros d Hd. case_decide; simpl; lia.
Qed.

Lemma number_bytes digits n b : b ∈ number digits n → b = 45%Z ∨ isdigit b.
Proof.
  unfold number. rewrite !elem_of_app, elem_of_replicate. intros [Hb|[[-> _]|Hb]].
  - left. case_decide; set_solver.
  - by right.
  - right. pose proof (decimal_digits 10 (Z.abs n) ltac:(lia)) as Hd.
    rewrite Forall_forall in Hd. by apply Hd.
Qed.
