(* ===== verification/Server.v ===== *)
(** * A client connection ([handle_client_connection] in [server/aesdsocket.c])

    The thread that serves one client, over the state it shares ([file_fd],
    [file_lock], [should_exit]) and its socket.  What the socket delivers and
    how much of each write it takes is a script, so that statements about all
    scripts are statements about all peers.  The file is anything that
    implements [FileOps].

    Not modelled: [syslog], [inet_ntop], [fcntl], [usleep] and [fdatasync]
    (which the driver does not implement and whose result is ignored).
    [file_lock] is a default mutex in static storage: locking and unlocking
    it in turn returns 0, so that the branches that exit are not taken. *)

From S2P Require Import Prelude Memory CircularBuffer DeviceSpec Kernel CharDriver.
From S2P Require Import CharDriverSpec CharDriverSeek FileOps CString.

Definition EAGAIN : Z := 11.
Definition EWOULDBLOCK : Z := 11.

(** What the socket has for the thread: bytes, an error, or, between two calls
    of [read], a change of [should_exit] by another thread. *)
Inductive sock_event :=
  | Arrived (bs : list byte)
  | Failed (errno : Z)
  | ExitRequested.

(** [accepts] scripts the socket's writes: the number of bytes each one takes,
    or a negative number for an error; all bytes once the script is over. *)
Record srv (F : Type) := mk_srv {
  file : F;
  file_lock : bool;
  incoming : list sock_event;
  accepts : list Z;
  sent : list byte;
  should_exit : bool;
  closed : bool;
  thread_done : Z }.
Arguments mk_srv {F} _ _ _ _ _ _ _ _.
Arguments file {F} _.
Arguments file_lock {F} _.
Arguments incoming {F} _.
Arguments accepts {F} _.
Arguments sent {F} _.
Arguments should_exit {F} _.
Arguments closed {F} _.
Arguments thread_done {F} _.

(** ** [write_buffer] *)

Section write_buffer.
Context {S : Type} (write : list byte → M S Z).

(** [buffer] is what the array holds from the pointer on. *)
Fixpoint write_loop (fuel : nat) (buffer : list byte) (buffer_len bytes_written : Z) : M S Z :=
  match fuel with
  | O => diverge
  | Datatypes.S fuel =>
     if decide (bytes_written < buffer_len)%Z then
       bs ← lift OutOfBounds (bytes_load buffer bytes_written (buffer_len - bytes_written));
       ret ← write bs;
       let ret := s32 ret in
       if decide (ret < 0)%Z then mret 0%Z
       else write_loop fuel buffer buffer_len (s32 (bytes_written + ret))
     else mret 1%Z
  end.

Definition write_buffer (fuel : nat) (buffer : list byte) (buffer_len : Z) : M S Z :=
  write_loop fuel buffer buffer_len 0.
End write_buffer.

(** ** The thread *)

Section server.
Context {F : Type} `{FileOps F}.
Abbreviation C := (M (srv F)).
Implicit Types (s : srv F).

Definition set_file (f : F) s := mk_srv f (file_lock s) (incoming s) (accepts s) (sent s)
  (should_exit s) (closed s) (thread_done s).
Definition set_lock (l : bool) s := mk_srv (file s) l (incoming s) (accepts s) (sent s)
  (should_exit s) (closed s) (thread_done s).
Definition set_incoming (es : list sock_event) s := mk_srv (file s) (file_lock s) es (accepts s)
  (sent s) (should_exit s) (closed s) (thread_done s).
Definition set_out (acc : list Z) (out : list byte) s := mk_srv (file s) (file_lock s) (incoming s)
  acc out (should_exit s) (closed s) (thread_done s).
Definition set_exit (e : bool) s := mk_srv (file s) (file_lock s) (incoming s) (accepts s) (sent s)
  e (closed s) (thread_done s).
Definition set_closed s := mk_srv (file s) (file_lock s) (incoming s) (accepts s) (sent s)
  (should_exit s) true 1.

Definition file_run {A} (m : M F A) : C A := λ s,
  match m (file s) with
  | Ok a f => Ok a (set_file f s)
  | Fault e => Fault e
  | Diverge => Diverge
  end.

(** A mutex that is held here is held by a thread that has ended. *)
Definition file_mutex_lock : C () :=
  l ← gets file_lock; if (l : bool) then fail Deadlock else modify (set_lock true).
Definition file_mutex_unlock : C () :=
  l ← gets file_lock; if (l : bool) then modify (set_lock false) else fail BadUnlock.

(** The condition's first operand. *)
Definition poll_exit : C bool :=
  es ← gets incoming;
  (match es with
   | ExitRequested :: es => modify (set_incoming es);; modify (set_exit true)
   | _ => mret ()
   end);;
  gets should_exit.

(** [read] on a non-blocking socket: result, [errno], bytes.  0 is the end.
    [poll_exit] has taken the request to exit away, so that none is left here
    unless the loop has ended. *)
Definition sock_read (n : nat) : C (Z * Z * list byte) :=
  es ← gets incoming;
  match es with
  | [] => mret (0, 0, [])%Z
  | Arrived bs :: es =>
     (if decide (length bs ≤ n) then modify (set_incoming es)
      else modify (set_incoming (Arrived (drop n bs) :: es)));;
     mret (Z.of_nat (length (take n bs)), 0%Z, take n bs)
  | Failed errno :: es => modify (set_incoming es);; mret ((-1)%Z, errno, [])
  | ExitRequested :: es => modify (set_incoming es);; modify (set_exit true);; mret ((-1)%Z, EAGAIN, [])
  end.

Definition sock_write (bs : list byte) : C Z :=
  acc ← gets accepts;
  out ← gets sent;
  match acc with
  | [] => modify (set_out [] (out ++ bs));; mret (Z.of_nat (length bs))
  | n :: acc =>
     if decide (n < 0)%Z then modify (set_out acc out);; mret (-1)%Z
     else modify (set_out acc (out ++ take (Z.to_nat n) bs));;
          mret (Z.of_nat (length (take (Z.to_nat n) bs)))
  end.

(** [close(conn->fd); conn->thread_complete = 1;] *)
Definition close_connection : C () := modify set_closed.

(** Bounds for the loops below; the theorems say what is enough. *)
Context (fuel : nat).

(** The loop that sends the file; [true]: [return NULL] was reached. *)
Fixpoint send_file (n : nat) : C bool :=
  match n with
  | O => diverge
  | S n =>
     r ← file_run (file_read 1024);
     if decide (0 < r.1)%Z then
       ok ← write_buffer sock_write fuel r.2 r.1;
       if decide (ok = 0)%Z then close_connection;; mret true
       else send_file n
     else mret false
  end.

(** One line of the packet; [line] is the buffer from [prev_newline_char] on. *)
Definition handle_line (line : list byte) (length : Z) : C bool :=
  cmp ← strncmp line (AESDCHAR_IOCSEEKTO_NAME ++ [NUL]) (Z.to_nat (length `min` 18));
  returned ←
    (if decide (cmp = 0)%Z then
       match sscanf_seekto line with
       | Some seekto =>
          r ← file_run (file_ioctl file_seek_cmd seekto);
          if decide (r < 0)%Z then file_mutex_unlock;; close_connection;; mret true
          else mret false
       | None => mret false
       end
     else
       write_buffer (λ bs, file_run (file_write bs)) fuel line length;;
       file_run (file_lseek 0 SEEK_SET);;
       mret false);
  if (returned : bool) then mret true else send_file fuel.

(** The loop's condition and body: no line left, the buffer behind the line, or
    [return NULL] was reached. *)
Inductive line_result :=
  | NoLine
  | Handled (prev : list byte)
  | GaveUp.

Definition handle_next (prev : list byte) : C line_result :=
  newline_char ← strchr prev newline;
  match newline_char with
  | None => mret NoLine
  | Some i =>
     returned ← handle_line prev (Z.of_nat i + 1);
     mret (if (returned : bool) then GaveUp else Handled (drop (S i) prev))
  end.

Fixpoint handle_lines (n : nat) (prev : list byte) : C bool :=
  match n with
  | O => diverge
  | S n =>
     r ← handle_next prev;
     match r with
     | NoLine => mret false
     | GaveUp => mret true
     | Handled prev => handle_lines n prev
     end
  end.

(** [sizeof(in_buffer)] *)
Definition in_buffer_size : nat := 1024.

(** The outer loop's condition and the branch without data: the thread has
    ended, goes on, or has a packet of [in_bytes_read] bytes (or an error). *)
Inductive received :=
  | Ended
  | NoData (in_buffer : list byte)
  | Packet (in_bytes_read : Z) (in_buffer : list byte).

Definition receive (in_buffer : list byte) : C received :=
  exiting ← poll_exit;
  if (exiting : bool) then close_connection;; mret Ended
  else
    r ← sock_read (in_buffer_size - 1);
    let '(in_bytes_read, errno, bs) := r in
    let in_buffer := bs ++ drop (length bs) in_buffer in
    if decide (in_bytes_read = 0)%Z then close_connection;; mret Ended
    else if decide (in_bytes_read = -1 ∧ (errno = EAGAIN ∨ errno = EWOULDBLOCK))%Z then
      mret (NoData in_buffer)
    else mret (Packet in_bytes_read in_buffer).

(** From the lock to the loop over lines; the result is [in_buffer]. *)
Definition start_packet (in_bytes_read : Z) (in_buffer : list byte) : C (list byte) :=
  file_mutex_lock;;
  lift OutOfBounds (bytes_store in_buffer in_bytes_read [NUL]).

Fixpoint connection_loop (n : nat) (in_buffer : list byte) : C () :=
  match n with
  | O => diverge
  | S n =>
     r ← receive in_buffer;
     match r with
     | Ended => mret ()
     | NoData in_buffer => connection_loop n in_buffer
     | Packet in_bytes_read in_buffer =>
        in_buffer ← start_packet in_bytes_read in_buffer;
        returned ← handle_lines fuel in_buffer;
        if (returned : bool) then mret ()
        else file_mutex_unlock;; connection_loop n in_buffer
     end
  end.

Definition handle_client_connection : C () :=
  connection_loop fuel (replicate in_buffer_size NUL).
End server.
