(* ===== verification/ServerSpec.v ===== *)
(** * What the server answers

    [serve_lines] says, over the log the file stands for, what a packet does and what
    is sent back; the lemmas prove that the thread of [Server] does that, with
    every loop inside its bound, for every script of socket writes in which
    no write fails. *)

From S2P Require Import Prelude Memory CircularBuffer DeviceSpec Kernel CharDriver.
From S2P Require Import CharDriverSpec CharDriverSeek FileOps CString Server.

Definition is_command (l : list byte) : bool :=
  bool_decide (take 18 l = AESDCHAR_IOCSEEKTO_NAME).

Section answers.
Context {F : Type} {HF : FileOps F} {HA : LogFile F}.
Implicit Types (a : log F).

(** The log and the position from which the file is sent, [None] when the
    seek is refused.  [rest] is the packet after the line, which [sscanf] may
    read on into. *)
Definition answer (a : log F) (p : Z) (l rest : list byte) : option (log F * Z) :=
  if is_command l then
    match sscanf_seekto (l ++ rest) with
    | Some arg => (a,.) <$> seek_target a arg
    | None => Some (a, p)
    end
  else Some (append a l, 0%Z).

(** The log, the position, the bytes sent, and whether the connection was
    given up, after the lines [ls] of a packet that ends in [r]. *)
Fixpoint serve_lines (a : log F) (p : Z) (ls : list (list byte)) (r : list byte) :
    log F * Z * list byte * bool :=
  match ls with
  | [] => (a, p, [], false)
  | l :: ls =>
     match answer a p l (concat ls ++ r) with
     | None => (a, p, [], true)
     | Some (a, p) =>
        let '(a', p', out, given_up) := serve_lines a (len (content a)) ls r in
        (a', p', drop (Z.to_nat p) (content a) ++ out, given_up)
     end
  end.
End answers.

(** *** The C string functions on a line *)

Lemma strncmp_spec {St} s1 s2 n (st : St) :
  n ≤ length s1 → n ≤ length s2 → NUL ∉ take n s1 →
  ∃ v, strncmp s1 s2 n st = Ok v st ∧ (v = 0%Z ↔ take n s1 = take n s2).
Proof.
  revert s1 s2. induction n as [|n IH]; intros s1 s2 H1 H2 Hn; [by exists 0%Z|].
  destruct s1 as [|x s1], s2 as [|y s2]; simpl in *; [lia..|].
  apply not_elem_of_cons in Hn as [Hx Hn].
  case_decide as Hxy; [exists (x - y)%Z; split; [done|]; split; [intros; lia|congruence]|].
  rewrite decide_False by done.
  destruct (IH s1 s2) as (v & Hv & Hiff); [lia..|done|]. exists v. split; [done|].
  rewrite Hiff. destruct (decide (x = y)); [|tauto]. subst. split; congruence.
Qed.

Lemma name_length : length AESDCHAR_IOCSEEKTO_NAME = 18.
Proof. reflexivity. Qed.

Lemma strncmp_line {St} l rest (st : St) :
  is_line l → NUL ∉ l →
  ∃ v, strncmp (l ++ rest) (AESDCHAR_IOCSEEKTO_NAME ++ [NUL])
         (Z.to_nat (len l `min` 18)) st = Ok v st ∧ (v = 0%Z ↔ is_command l = true).
Proof.
  intros Hl Hn. set (n := Z.to_nat _). assert (n = length l `min` 18) as Hlen by lia.
  assert (take n (l ++ rest) = take 18 l) as Ht.
  { rewrite take_app_le by lia. destruct (decide (length l ≤ 18)).
    - by rewrite !take_ge by lia.
    - by replace n with 18 by lia. }
  destruct (strncmp_spec (l ++ rest) (AESDCHAR_IOCSEEKTO_NAME ++ [NUL]) n st) as (v & Hv & Hiff).
  { rewrite length_app. lia. }
  { rewrite length_app, name_length. lia. }
  { rewrite Ht. intros (i & Hi & _)%elem_of_take. by apply list_elem_of_lookup_2 in Hi. }
  exists v. split; [done|]. unfold is_command. rewrite Hiff, bool_decide_eq_true, Ht.
  rewrite take_app_le by (rewrite name_length; lia).
  destruct (decide (18 ≤ length l)).
  - by rewrite (take_ge AESDCHAR_IOCSEEKTO_NAME) by (rewrite name_length; lia).
  - rewrite take_ge by lia. destruct Hl as (body & -> & _). split; intros E.
    + exfalso. assert (newline ∈ take n AESDCHAR_IOCSEEKTO_NAME) as Hin.
      { rewrite <-E. set_solver. }
      apply elem_of_take in Hin as (i & Hi & _). apply list_elem_of_lookup_2 in Hi.
      vm_compute in Hi. set_solver.
    + apply (f_equal length) in E. rewrite name_length in E. lia.
Qed.

Lemma sscanf_terminated s junk : NUL ∉ s → sscanf_seekto (s ++ NUL :: junk) = sscanf_seekto s.
Proof.
  intros Hs. unfold sscanf_seekto. rewrite c_string_NUL by done.
  by rewrite <-(app_nil_r s) at 2; rewrite c_string_app, app_nil_r by done.
Qed.

(** *** The loops *)

Section loops.
Context {F : Type} {HF : FileOps F} {HA : LogFile F}.
Implicit Types (s : srv F) (a : log F) (ls : list (list byte)).

Definition willing s : Prop := Forall (λ n, 0 ≤ n)%Z (accepts s).

(** What a step that does not touch the connection's own state may change. *)
Record serving s s' (out : list byte) : Prop := {
  sv_lock : file_lock s' = file_lock s;
  sv_incoming : incoming s' = incoming s;
  sv_exit : should_exit s' = should_exit s;
  sv_closed : closed s' = closed s;
  sv_done : thread_done s' = thread_done s;
  sv_sent : sent s' = sent s ++ out;
  sv_willing : willing s → willing s';
  sv_accepts : length (accepts s') ≤ length (accepts s) }.

Lemma serving_refl s : serving s s [].
Proof. split; try done. by rewrite app_nil_r. Qed.

Lemma serving_trans s1 s2 s3 out out' :
  serving s1 s2 out → serving s2 s3 out' → serving s1 s3 (out ++ out').
Proof.
  intros [] []. split; try congruence; [|auto|lia].
  by rewrite (assoc_L (++)), <-sv_sent0.
Qed.

Lemma serving_file s f : serving s (set_file f s) [].
Proof. split; try done. simpl. by rewrite app_nil_r. Qed.

Lemma wp_file_run {A} (m : M F A) s (Q : A → srv F → Prop) :
  wp m safe (λ r f, Q r (set_file f s)) (file s) → wp (file_run m) safe Q s.
Proof. unfold wp, file_run. by destruct (m (file s)). Qed.

(** Short writes of the socket are continued until everything is sent. *)
Lemma write_loop_sock n buffer k s :
  willing s → (0 ≤ k ≤ len buffer)%Z → (len buffer < 2 ^ 31)%Z →
  length buffer - Z.to_nat k + length (accepts s) < n →
  wp (write_loop sock_write n buffer (len buffer) k) safe
    (λ r s', r = 1%Z ∧ file s' = file s ∧ serving s s' (drop (Z.to_nat k) buffer)) s.
Proof.
  revert s k. induction n as [|n IH]; intros s k Hw Hk Hb Hn; [lia|]. cbn [write_loop].
  case_decide as Hlt; [|wp_step; rewrite drop_ge by lia; split_and!; [done..|apply serving_refl]].
  unfold bytes_load. rewrite decide_True by lia. wp_step. wp_step.
  set (bs := take _ _). assert (bs = drop (Z.to_nat k) buffer) as Hbs.
  { unfold bs. rewrite take_ge; [done|]. rewrite length_drop. lia. }
  assert (length bs = length buffer - Z.to_nat k) as Hlen by (by rewrite Hbs, length_drop).
  wp_step. unfold sock_write. wp_step. apply wp_gets. wp_step. apply wp_gets.
  destruct (accepts s) as [|m acc] eqn:Hacc.
  - wp_steps. unfold s32. rewrite s_wrap_small by lia. rewrite decide_False by lia.
    rewrite s_wrap_small by lia. rewrite Hlen.
    eapply wp_mono; [apply IH; simpl; [constructor|lia..]|done|].
    intros r s' (-> & Hf & Hs'). split_and!; [done|by rewrite Hf|].
    rewrite drop_ge in Hs' by lia. rewrite <-Hbs, <-(app_nil_r bs).
    eapply serving_trans; [|done]. split; try done; simpl; first [lia|intros; constructor].
  - unfold willing in Hw. rewrite Hacc in Hw. apply Forall_cons in Hw as [Hm Hw].
    rewrite decide_False by lia. wp_steps. rewrite length_take.
    unfold s32. rewrite s_wrap_small by lia. rewrite decide_False by lia. rewrite s_wrap_small by lia.
    eapply wp_mono; [apply IH; simpl; [done|lia|lia|simpl in Hn; lia]|done|].
    intros r s' (-> & Hf & Hs'). split_and!; [done|by rewrite Hf|].
    replace (drop (Z.to_nat k) buffer) with (take (Z.to_nat m) bs ++ drop (Z.to_nat m) bs)
      by (by rewrite take_drop).
    eapply (serving_trans _ (set_out acc (sent s ++ take (Z.to_nat m) bs) s)).
    { split; try done; simpl. rewrite Hacc. simpl. lia. }
    replace (drop (Z.to_nat m) bs) with
      (drop (Z.to_nat (k + Z.of_nat (Z.to_nat m `min` length bs))) buffer); [done|].
    rewrite Hbs, drop_drop, <-Hbs, Hlen. destruct (decide (Z.to_nat m ≤ length buffer - Z.to_nat k)).
    + f_equal. lia.
    + rewrite !drop_ge by lia. done.
Qed.

Context (fuel : nat).

(** The file is sent from the position to its end. *)
Lemma send_file_spec n s a p :
  file_repr (file s) a p → (p ≤ len (content a))%Z → willing s →
  1024 + length (accepts s) < fuel → length (content a) - Z.to_nat p < n →
  wp (send_file fuel n) safe
    (λ r s', r = false ∧ file_repr (file s') a (len (content a)) ∧
             serving s s' (drop (Z.to_nat p) (content a))) s.
Proof.
  revert s p. induction n as [|n IH]; intros s p Hs Hp Hw Hfuel Hn; [lia|]. cbn [send_file].
  pose proof (file_repr_pos _ _ _ Hs) as H0.
  wp_step. apply wp_file_run. eapply wp_mono; [by apply (file_read_spec _ _ _ 1024 Hs)|done|].
  intros [count bs] f'. cbn [fst snd]. intros (-> & Hcount & [rest Hrest] & Hend & Hf').
  case_decide as Hpos.
  - wp_step. eapply wp_mono; [apply write_loop_sock; [done|lia|lia|simpl; lia]|done|].
    intros ok s1 (-> & Hf1 & Hs1). rewrite decide_False by done.
    apply (f_equal length) in Hrest as Hl. rewrite length_drop, length_app in Hl.
    eapply wp_mono; [apply (IH s1 (p + len (bs))%Z)|done|].
    + by rewrite Hf1.
    + lia.
    + by apply Hs1.
    + pose proof (sv_accepts _ _ _ Hs1). simpl in *. lia.
    + lia.
    + intros r s2 (-> & Hf2 & Hs2). split_and!; [done|done|].
      rewrite Hrest. eapply serving_trans.
      { eapply (serving_trans _ _ _ []); [apply (serving_file _ f')|done]. }
      replace rest with
        (drop (Z.to_nat (p + len (bs))) (content a)); [done|].
      rewrite Z2Nat.inj_add, Nat2Z.id, <-drop_drop, Hrest by lia. by rewrite drop_app_length.
  - wp_step. assert (bs = []) as E by (destruct bs; simpl in Hpos; [done|lia]).
    pose proof (Hend E) as E'. rewrite E in Hf'. simpl in Hf'.
    split_and!; [done| |rewrite drop_ge by lia; apply serving_file].
    simpl. by replace (Z.of_nat (length (content a))) with (p + 0)%Z by lia.
Qed.
(** The file takes a line in one piece. *)
Lemma write_file_spec s a p l rest :
  file_repr (file s) a p → at_end a p → whole a → is_line l →
  (len l ≤ line_max)%Z → (len l < 2 ^ 31)%Z → 1 < fuel →
  wp (write_buffer (λ bs, file_run (file_write bs)) fuel (l ++ rest) (len l)) safe
    (λ r s', ∃ f', s' = set_file f' s ∧ file_repr f' (append a l) (p + len l)) s.
Proof.
  intros Hs Hp Ha Hl Hmax Hd Hfuel. unfold write_buffer. pose proof (is_line_length _ Hl).
  assert (∃ n, fuel = S (S n)) as [n ->] by (exists (fuel - 2); lia).
  cbn [write_loop]. rewrite decide_True by lia.
  rewrite Z.sub_0_r, bytes_load_prefix by done. wp_step. wp_step. wp_step.
  apply wp_file_run. eapply wp_mono; [by apply file_write_spec|done|].
  intros r f' [-> Hf']. unfold s32. rewrite !s_wrap_small by (rewrite ?s_wrap_small; lia).
  rewrite decide_False by lia. rewrite decide_False by lia. wp_step. by exists f'.
Qed.

(** *** One line of a packet *)

Lemma answer_pos a p l rest a' p' :
  (0 ≤ p ≤ len (content a))%Z → answer a p l rest = Some (a', p') →
  (0 ≤ p' ≤ len (content a'))%Z.
Proof.
  intros Hp. unfold answer. destruct (is_command l); [|intros; simplify_eq; lia].
  destruct (sscanf_seekto _) as [arg|] eqn:Hs; [|intros; by simplify_eq].
  intros (pos & Hpos & Heq)%fmap_Some. simplify_eq.
  apply sscanf_range in Hs as [? ?]. by eapply seek_target_bound.
Qed.

(** The thread has unlocked, closed the socket and reported itself done. *)
Definition gave_up s s' : Prop :=
  closed s' = true ∧ thread_done s' = 1%Z ∧ file_lock s' = false ∧ sent s' = sent s ∧
  incoming s' = incoming s ∧ should_exit s' = should_exit s ∧ accepts s' = accepts s.

Record ready s a p : Prop := {
  rd_file : file_repr (file s) a p;
  rd_pos : at_end a p;
  rd_whole : whole a;
  rd_lock : file_lock s = true;
  rd_willing : willing s }.

(** A line that is not a command goes to the file, which is then sent from its
    start. *)
Lemma handle_plain_line s a p l rest junk (Q : bool → srv F → Prop) :
  file_repr (file s) a p → at_end a p → whole a →
  is_line l → NUL ∉ l → is_command l = false → (len l ≤ line_max `min` 1024)%Z → 1 < fuel →
  (∀ f, file_repr f (append a l) 0 → wp (send_file fuel fuel) safe Q (set_file f s)) →
  wp (handle_line fuel (l ++ rest ++ NUL :: junk) (len l)) safe Q s.
Proof.
  intros Hs Hp Ha Hl Hn Hcmd Hmax Hfuel HQ. unfold handle_line.
  destruct (strncmp_line l (rest ++ NUL :: junk) s Hl Hn) as (v & Hv & Hcmp).
  wp_step. unfold wp at 1. rewrite Hv.
  rewrite decide_False by (intros Hv0; apply Hcmp in Hv0; congruence).
  pose proof (is_line_length _ Hl).
  wp_step. wp_step. eapply wp_mono; [apply (write_file_spec s a p l); done || lia|done|].
  intros r s1 (f' & -> & Hf'). wp_step. apply wp_file_run.
  eapply wp_mono; [by apply (file_rewind_spec _ _ _ Hf')|done|].
  intros r' f2 Hf2. wp_step. by apply HQ.
Qed.

(** A socket that refuses the first write ends the connection at once, and
    the lock stays as it is. *)
Lemma send_file_refused s a m acc :
  file_repr (file s) a 0 → content a ≠ [] → accepts s = m :: acc → (m < 0)%Z → 0 < fuel →
  wp (send_file fuel fuel) safe
    (λ r s', r = true ∧ closed s' = true ∧ thread_done s' = 1%Z ∧ file_lock s' = file_lock s) s.
Proof.
  intros Hs Hc Hacc Hm Hfuel. assert (∃ n, fuel = S n) as [n Hn] by (exists (fuel - 1); lia).
  rewrite Hn at 2. cbn [send_file]. wp_step. apply wp_file_run.
  eapply wp_mono; [by apply (file_read_spec _ _ _ 1024 Hs)|done|].
  intros [count bs] f'. cbn [fst snd]. intros (-> & _ & _ & Hend & _).
  assert (0 < len bs)%Z as Hpos.
  { destruct bs as [|c bs]; simpl; [|lia]. pose proof (Hend eq_refl).
    destruct (content a); simpl in *; [done|lia]. }
  rewrite decide_True by done. wp_step. unfold write_buffer. rewrite Hn. cbn [write_loop].
  rewrite decide_True by done. rewrite <-(app_nil_r bs) at 1.
  rewrite Z.sub_0_r, bytes_load_prefix by done. wp_step. wp_step. wp_step.
  unfold sock_write. wp_step. apply wp_gets. wp_step. apply wp_gets. simpl. rewrite Hacc.
  rewrite decide_True by done. wp_steps. rewrite decide_True by done. wp_steps.
  rewrite decide_True by done. unfold close_connection. wp_steps. done.
Qed.

Lemma handle_line_spec s a p l rest junk :
  ready s a p → is_line l → NUL ∉ l ++ rest → (len l ≤ line_max `min` 1024)%Z →
  1024 + length (content a) + length l + length (accepts s) < fuel →
  wp (handle_line fuel (l ++ rest ++ NUL :: junk) (len l)) safe
    (λ ret s', match answer a p l rest with
               | None => ret = true ∧ file_repr (file s') a p ∧ gave_up s s'
               | Some (a', p') =>
                  ret = false ∧ ready s' a' (len (content a')) ∧
                  serving s s' (drop (Z.to_nat p') (content a'))
               end) s.
Proof.
  intros [Hs Hp Ha Hlock Hw] Hl Hn Hmax Hfuel.
  pose proof (file_repr_pos _ _ _ Hs) as H0. pose proof (at_end_le _ _ Hp) as Hpl.
  assert (NUL ∉ l) as Hnl by (intros ?; apply Hn, elem_of_app; by left).
  (* after the line, the file is sent *)
  assert (∀ s1 a' p', file_repr (file s1) a' p' → (0 ≤ p' ≤ len (content a'))%Z →
    whole a' → length (content a') ≤ length (content a) + length l → serving s s1 [] →
    wp (send_file fuel fuel) safe (λ ret s', ret = false ∧ ready s' a' (len (content a')) ∧
      serving s s' (drop (Z.to_nat p') (content a'))) s1) as Hsend.
  { intros s1 a' p' Hs1 Hp' Ha' Hlen Hsv. pose proof (sv_accepts _ _ _ Hsv).
    eapply wp_mono; [apply (send_file_spec _ _ _ _ Hs1); [lia|by apply Hsv|lia..]|done|].
    intros r s2 (-> & Hs2 & Hsv2). split; [done|]. pose proof (serving_trans _ _ _ _ _ Hsv Hsv2) as Hall.
    split; [|done]. split; [done|apply at_end_content|done| |by apply Hall].
    by rewrite (sv_lock _ _ _ Hall). }
  unfold answer. destruct (is_command l) eqn:Hcmd.
  - unfold handle_line. destruct (strncmp_line l (rest ++ NUL :: junk) s Hl Hnl) as (v & Hv & Hcmp).
    wp_step. unfold wp at 1. rewrite Hv. rewrite decide_True by tauto. rewrite (assoc_L (++)), sscanf_terminated by done.
    destruct (sscanf_seekto (l ++ rest)) as [arg|] eqn:Harg.
    + apply sscanf_range in Harg as [Hcr Hor]. wp_step. wp_step.
      apply wp_file_run. eapply wp_mono; [by apply (file_seek_spec _ _ _ arg Hs)|done|].
      intros r f'. destruct (seek_target a arg) as [pos|] eqn:Hseek; cbn [fmap option_fmap option_map].
      * intros [-> Hf']. rewrite decide_False by lia. wp_step.
        apply Hsend; [done|by eapply seek_target_bound|done|lia|apply serving_file].
      * intros [-> Hf']. rewrite decide_True by lia.
        wp_step. unfold file_mutex_unlock. wp_step. apply wp_gets. simpl. rewrite Hlock.
        wp_steps. done.
    + wp_step. wp_step. apply Hsend; [done|lia|done|lia|apply serving_refl].
  - pose proof (append_length a l Ha Hl) as Hal.
    apply (handle_plain_line _ a p); try done; [lia|].
    intros f Hf. apply Hsend; [done|lia|by apply append_whole|lia|apply serving_file].
Qed.
(** *** A packet *)

(** How far the thread got: it is ready for more, or it gave up. *)
Definition progress s s' a p (out : list byte) (given_up : bool) : Prop :=
  sent s' = sent s ++ out ∧ incoming s' = incoming s ∧
  if given_up then file_repr (file s') a p ∧ closed s' = true ∧ thread_done s' = 1%Z ∧
                   file_lock s' = false
  else ready s' a p ∧ serving s s' out.

Lemma progress_serving s1 s2 s3 a p out out' b :
  serving s1 s2 out → progress s2 s3 a p out' b → progress s1 s3 a p (out ++ out') b.
Proof.
  intros Hsv (Hsent & Hin & Hb). split_and!.
  - by rewrite Hsent, (sv_sent _ _ _ Hsv), (assoc_L (++)).
  - by rewrite Hin, (sv_incoming _ _ _ Hsv).
  - destruct b; [done|]. destruct Hb as [? ?]. split; [done|]. by eapply serving_trans.
Qed.

Lemma index_of_line l rest : is_line l → index_of newline (l ++ rest) = Some (length l - 1).
Proof.
  intros (body & -> & Hb). rewrite <-(assoc_L (++)). simpl.
  rewrite index_of_app_l by done. rewrite length_app. simpl. f_equal. lia.
Qed.

Lemma answer_log a p l rest a' p' :
  answer a p l rest = Some (a', p') → a' = a ∨ a' = append a l.
Proof.
  unfold answer. intros Ha. repeat case_match; simplify_eq; auto.
  apply fmap_Some in Ha as (? & _ & ?). simplify_eq. by left.
Qed.

Lemma answer_content a p l rest a' p' :
  answer a p l rest = Some (a', p') → whole a → is_line l →
  length (content a') ≤ length (content a) + length l.
Proof. intros [->| ->]%answer_log ??; [lia|by apply append_length]. Qed.

Lemma answer_whole a p l rest a' p' :
  answer a p l rest = Some (a', p') → whole a → is_line l → whole a'.
Proof. intros [->| ->]%answer_log ??; [done|by apply append_whole]. Qed.

(** The next line of a packet, if there is one. *)
Lemma handle_next_spec s a p ls r junk :
  ready s a p → Forall is_line ls → newline ∉ r → NUL ∉ concat ls ++ r →
  Forall (λ l, len l ≤ line_max `min` 1024)%Z ls →
  1024 + length (content a) + length (concat ls) + length (accepts s) < fuel →
  wp (handle_next fuel (concat ls ++ r ++ NUL :: junk)) safe
    (λ res s', match ls with
               | [] => res = NoLine ∧ s' = s
               | l :: ls =>
                  match answer a p l (concat ls ++ r) with
                  | None => res = GaveUp ∧ file_repr (file s') a p ∧ gave_up s s'
                  | Some (a', p') =>
                     res = Handled (concat ls ++ r ++ NUL :: junk) ∧
                     ready s' a' (len (content a')) ∧
                     serving s s' (drop (Z.to_nat p') (content a'))
                  end
               end) s.
Proof.
  intros Hr Hls Hnl Hn Hmax Hfuel. unfold handle_next. rewrite (assoc_L (++)).
  wp_step. unfold wp at 1. rewrite (strchr_spec (concat ls ++ r) junk newline s) by done.
  destruct ls as [|l ls].
  { simpl. by rewrite (proj2 (index_of_None newline r)). }
  apply Forall_cons in Hls as [Hl Hls]. apply Forall_cons in Hmax as [Hm Hmax].
  pose proof (is_line_length _ Hl) as Hl0. simpl concat in *.
  rewrite <-!(assoc_L (++)) in *. rewrite index_of_line by done.
  replace (Z.of_nat (length l - 1) + 1)%Z with (len l) by lia.
  rewrite length_app in Hfuel. wp_step. rewrite (assoc_L (++) (concat ls)).
  eapply wp_mono; [eapply (handle_line_spec s a p l (concat ls ++ r) junk);
    [done|done|done|done|lia]|done|].
  intros ret s1. cbn beta. destruct (answer a p l (concat ls ++ r)) as [[a1 p1]|].
  - intros (-> & Hr1 & Hsv). wp_step. replace (S (length l - 1)) with (length l) by lia.
    by rewrite drop_app_length.
  - intros (-> & ?). by wp_step.
Qed.

Lemma handle_lines_spec n s a p ls r junk :
  ready s a p → Forall is_line ls → newline ∉ r → NUL ∉ concat ls ++ r →
  Forall (λ l, len l ≤ line_max `min` 1024)%Z ls →
  1024 + length (content a) + length (concat ls) + length (accepts s) < fuel →
  length ls < n →
  wp (handle_lines fuel n (concat ls ++ r ++ NUL :: junk)) safe
    (λ ret s', let '(a', p', out, b) := serve_lines a p ls r in
               ret = b ∧ progress s s' a' p' out b) s.
Proof.
  revert s a p ls. induction n as [|n IH]; intros s a p ls Hr Hls Hnl Hn Hmax Hfuel Hlen; [lia|].
  cbn [handle_lines]. wp_step.
  eapply wp_mono; [by apply (handle_next_spec s a p ls r junk)|done|]. intros res s1.
  destruct ls as [|l ls].
  - intros [-> ->]. wp_step. simpl. split; [done|].
    split_and!; [by rewrite app_nil_r|done|done|apply serving_refl].
  - apply Forall_cons in Hls as [Hl Hls]. apply Forall_cons in Hmax as [Hm Hmax].
    simpl concat in *. rewrite <-(assoc_L (++)) in Hn. rewrite length_app in Hfuel.
    simpl serve_lines. destruct (answer a p l (concat ls ++ r)) as [[a1 p1]|] eqn:Ha.
    + intros (-> & Hr1 & Hsv). pose proof (answer_content _ _ _ _ _ _ Ha (rd_whole _ _ _ Hr) Hl).
      pose proof (sv_accepts _ _ _ Hsv).
      eapply wp_mono; [apply (IH s1 a1 (len (content a1)) ls); [done..| |done|lia|simpl in *; lia]|done|].
      { intros ?. apply Hn, elem_of_app. by right. }
      intros ret s2. destruct (serve_lines _ _ _ _) as [[[a' p'] out] b]. intros [-> Hp].
      split; [done|]. by eapply progress_serving.
    + intros (-> & Hf & Hc & Hd & Hk & Hs' & Hi & _). wp_step. split; [done|].
      split_and!; [by rewrite app_nil_r|done..].
Qed.

(** The buffer after a read holds the packet as a C string. *)
Lemma c_string_terminated bs junk :
  ∃ junk', bs ++ NUL :: junk = c_string bs ++ NUL :: junk'.
Proof.
  induction bs as [|c bs IH]; simpl; [by exists junk|].
  case_decide as Hc; [subst; by eexists|]. destruct IH as [junk' ->]. by exists junk'.
Qed.

Lemma c_string_length bs : length (c_string bs) ≤ length bs.
Proof. induction bs as [|c bs IH]; simpl; [|case_decide; simpl]; lia. Qed.

Lemma handle_packet_spec s a p bs junk :
  ready s a p → (len bs ≤ line_max `min` 1024)%Z →
  1024 + length (content a) + length bs + length (accepts s) < fuel →
  let '(ls, r) := split_lines (c_string bs) in
  wp (handle_lines fuel fuel (bs ++ NUL :: junk)) safe
    (λ ret s', let '(a', p', out, b) := serve_lines a p ls r in
               ret = b ∧ progress s s' a' p' out b) s.
Proof.
  intros Hr Hm Hfuel. destruct (c_string_terminated bs junk) as [junk' ->].
  pose proof (c_string_length bs) as Hlen. pose proof (c_string_no_NUL bs) as Hn.
  destruct (split_lines (c_string bs)) as [ls r] eqn:Hsp.
  apply split_lines_inv in Hsp as (Hbs & Hls & Hnl). rewrite Hbs in *.
  rewrite length_app in Hlen. rewrite <-(assoc_L (++)).
  apply handle_lines_spec; try done.
  - apply Forall_forall. intros l Hl. apply list_elem_of_split in Hl as (l1 & l2 & ->).
    rewrite concat_app, length_app in Hlen. simpl in Hlen. rewrite length_app in Hlen. lia.
  - lia.
  - assert (length ls ≤ length (concat ls)); [|lia]. clear -Hls.
    induction Hls as [|l ls Hl Hls IH]; simpl; [lia|]. rewrite length_app.
    pose proof (is_line_length _ Hl). lia.
Qed.
End loops.
