(* ===== verification/ServerProperties.v ===== *)
(** * The server's theorems

    What a client that talks to [handle_client_connection] gets, and what the
    thread does to the others when its client goes away at the wrong moment. *)

From S2P Require Import Prelude Memory CircularBuffer DeviceSpec Kernel CharDriver.
From S2P Require Import CharDriverSpec CharDriverSeek FileOps CString Server ServerSpec.

(** Packets one after the other, as the socket delivers them; the second
    packet is served only if the first did not end the connection. *)
Fixpoint serve_packets {F} {HF : FileOps F} {HA : LogFile F}
    (a : log F) (p : Z) (packets : list (list byte)) :
    log F * Z * list byte * bool :=
  match packets with
  | [] => (a, p, [], false)
  | bs :: packets =>
     let '(ls, r) := split_lines (c_string bs) in
     let '(a, p, out, given_up) := serve_lines a p ls r in
     if (given_up : bool) then (a, p, out, true)
     else let '(a', p', out', given_up) := serve_packets a p packets in
          (a', p', out ++ out', given_up)
  end.

Definition packets_of (es : list sock_event) : list (list byte) :=
  omap (λ e, match e with Arrived bs => Some bs | _ => None end) es.

Lemma packets_arrived packets : packets_of (Arrived <$> packets) = packets.
Proof. unfold packets_of. induction packets; simpl; by f_equal. Qed.

(** A line as one packet of a well-behaved client. *)
Definition plain (l : list byte) : Prop :=
  is_line l ∧ NUL ∉ l ∧ length l < in_buffer_size ∧ is_command l = false.

(** Packets that fit the buffer, and moments without data. *)
Definition ordinary (e : sock_event) : Prop :=
  match e with
  | Arrived bs => 0 < length bs < in_buffer_size
  | Failed errno => errno = EAGAIN
  | ExitRequested => False
  end.

(** A bound for every loop of the thread. *)
Abbreviation enough fuel s a := (1024 + length (content a) +
  length (concat (packets_of (incoming s))) + length (accepts s) + length (incoming s) < fuel).

Section connection.
Context {F : Type} {HF : FileOps F} {HA : LogFile F}.
Implicit Types (s : srv F) (a : log F).

(** What [in_buffer] holds after a read of [bs] and the store of the NUL. *)
Lemma store_terminator bs buffer :
  length buffer = in_buffer_size → length bs < in_buffer_size →
  bytes_store (bs ++ drop (length bs) buffer) (len bs) [NUL]
  = Some (bs ++ NUL :: drop (S (length bs)) buffer).
Proof.
  intros Hb Hl. destruct (drop (length bs) buffer) as [|c rest] eqn:E.
  { apply (f_equal length) in E. rewrite length_drop in E. simpl in E. lia. }
  change (c :: rest) with ([c] ++ rest). rewrite bytes_store_app by done.
  change (S (length bs)) with (1 + length bs). rewrite Nat.add_comm, <-drop_drop, E. done.
Qed.

Lemma serve_lines_content a p ls r a' p' out b :
  whole a → Forall is_line ls → serve_lines a p ls r = (a', p', out, b) →
  length (content a') ≤ length (content a) + length (concat ls).
Proof.
  intros Ha Hls. revert a p out Ha. induction Hls as [|l ls Hl Hls IH]; intros a p out Ha; simpl.
  { intros. simplify_eq. lia. }
  rewrite length_app. destruct (answer a p l _) as [[a1 p1]|] eqn:Hans; [|intros; simplify_eq; lia].
  pose proof (answer_content _ _ _ _ _ _ Hans Ha Hl).
  pose proof (answer_whole _ _ _ _ _ _ Hans Ha Hl).
  destruct (serve_lines a1 _ ls r) as [[[a2 p2] out2] b2] eqn:Hrest. intros. simplify_eq.
  apply IH in Hrest; [lia|done].
Qed.

Lemma serve_packet_content a p bs ls r a' p' out b :
  whole a → split_lines (c_string bs) = (ls, r) →
  serve_lines a p ls r = (a', p', out, b) →
  length (content a') ≤ length (content a) + length bs.
Proof.
  intros Ha (Hbs & Hls & _)%split_lines_inv Hs. eapply serve_lines_content in Hs; [|done..].
  pose proof (c_string_length bs) as Hl. rewrite Hbs, length_app in Hl. lia.
Qed.

(** Between two packets. *)
Record idle s a p : Prop := {
  id_file : file_repr (file s) a p;
  id_pos : at_end a p;
  id_whole : whole a;
  id_lock : file_lock s = false;
  id_exit : should_exit s = false }.

Lemma receive_packet s bs es buffer :
  should_exit s = false → incoming s = Arrived bs :: es → 0 < length bs < in_buffer_size →
  wp (receive buffer) safe
    (λ r s', r = Packet (len bs) (bs ++ drop (length bs) buffer) ∧ s' = set_incoming es s) s.
Proof.
  intros He Hin Hbs. unfold receive. wp_step. unfold poll_exit. wp_step. apply wp_gets. wp_step.
  rewrite Hin. wp_step. apply wp_gets. rewrite He. wp_step. unfold sock_read. wp_step. apply wp_gets.
  rewrite Hin. unfold in_buffer_size in *. rewrite decide_True by lia. wp_steps.
  rewrite take_ge by lia. rewrite !decide_False by lia. by wp_step.
Qed.

Lemma receive_spec s buffer :
  should_exit s = false → Forall ordinary (incoming s) → length buffer = in_buffer_size →
  wp (receive buffer) safe
    (λ r s', match incoming s with
             | [] => r = Ended ∧ s' = set_closed s
             | Arrived bs :: es =>
                r = Packet (len bs) (bs ++ drop (length bs) buffer) ∧ s' = set_incoming es s
             | _ :: es => r = NoData buffer ∧ s' = set_incoming es s
             end) s.
Proof.
  intros He Hord Hbuf. destruct (incoming s) as [|e es] eqn:Hin.
  - unfold receive. wp_step. unfold poll_exit. wp_step. apply wp_gets. wp_step. rewrite Hin.
    wp_step. apply wp_gets. rewrite He. wp_step. unfold sock_read. wp_step. apply wp_gets.
    rewrite Hin. wp_step. cbn [length]. rewrite decide_True by done.
    unfold close_connection. by wp_steps.
  - apply Forall_cons in Hord as [Hoe _]. destruct e as [bs|errno|]; simpl in Hoe; [| |done].
    + by apply receive_packet.
    + subst errno. unfold receive. wp_step. unfold poll_exit. wp_step. apply wp_gets. wp_step.
      rewrite Hin. wp_step. apply wp_gets. rewrite He. wp_step. unfold sock_read.
      wp_step. apply wp_gets. rewrite Hin. wp_steps.
      rewrite decide_False by done. rewrite decide_True by (split; [done|by left]). by wp_step.
Qed.

Lemma start_packet_spec s bs buffer :
  file_lock s = false → length buffer = in_buffer_size → length bs < in_buffer_size →
  wp (start_packet (len bs) (bs ++ drop (length bs) buffer)) safe
    (λ r s', r = bs ++ NUL :: drop (S (length bs)) buffer ∧ s' = set_lock true s) s.
Proof.
  intros Hk Hbuf Hbs. unfold start_packet, file_mutex_lock. wp_step. wp_step. apply wp_gets.
  rewrite Hk. wp_steps. rewrite store_terminator by done. by wp_steps.
Qed.

Lemma file_mutex_unlock_spec s :
  file_lock s = true → wp file_mutex_unlock safe (λ _ s', s' = set_lock false s) s.
Proof. intros Hk. unfold file_mutex_unlock. wp_step. apply wp_gets. rewrite Hk. by wp_steps. Qed.

Lemma connection_loop_spec fuel n s a p buffer :
  idle s a p → willing s → Forall ordinary (incoming s) → length buffer = in_buffer_size →
  (1023 ≤ line_max)%Z →
  1024 + length (content a) + length (concat (packets_of (incoming s))) +
    length (accepts s) < fuel →
  length (incoming s) < n →
  wp (connection_loop fuel n buffer) safe
    (λ _ s', let '(a', p', out, _) := serve_packets a p (packets_of (incoming s)) in
       file_repr (file s') a' p' ∧ sent s' = sent s ++ out ∧
       closed s' = true ∧ thread_done s' = 1%Z ∧ file_lock s' = false) s.
Proof.
  revert s a p buffer. induction n as [|n IH]; intros s a p buffer Hs Hw Hord Hbuf Hmax Hfuel Hn; [lia|].
  cbn [connection_loop]. pose proof Hs as [Hf Hp Ha Hk He].
  wp_step. eapply wp_mono; [by apply receive_spec|done|]. intros res s1.
  destruct (incoming s) as [|e es] eqn:Hin.
  { intros [-> ->]. wp_step. simpl. by rewrite app_nil_r. }
  apply Forall_cons in Hord as [Hoe Hord].
  destruct e as [bs|errno|]; simpl in Hoe; [| |done]; intros [-> ->].
  - simpl in Hfuel, Hn |- *. rewrite length_app in Hfuel. unfold in_buffer_size in Hoe.
    wp_step. eapply wp_mono; [apply start_packet_spec; [done|done|]|done|].
    { unfold in_buffer_size. lia. }
    intros ? s2 [-> ->]. wp_step. set (s2 := set_lock true _).
    pose proof (handle_packet_spec fuel s2 a p bs (drop (S (length bs)) buffer)) as Hpk.
    destruct (split_lines (c_string bs)) as [ls r] eqn:Hsplit.
    eapply wp_mono; [apply Hpk; [by split|lia|simpl; lia]|done|].
    intros ret s3. destruct (serve_lines a p ls r) as [[[a2 p2] out] b] eqn:Hserve.
    intros [-> (Hsent & Hi & Hb)]. destruct b.
    + wp_step. by destruct Hb as (? & ? & ? & ?).
    + destruct Hb as [[Hf2 Hp2 Ha2 Hk2 Hw2] Hsv].
      wp_step. eapply wp_mono; [by apply file_mutex_unlock_spec|done|]. intros _ ? ->.
      pose proof (sv_accepts _ _ _ Hsv) as Hacc. pose proof (sv_exit _ _ _ Hsv) as Hex.
      assert (length (content a2) ≤ length (content a) + length bs) as Hlen
        by (by eapply serve_packet_content).
      eapply wp_mono; [apply (IH (set_lock false s3) a2 p2)|done|].
      * split; try done. simpl. by rewrite Hex.
      * done.
      * simpl. by rewrite Hi.
      * rewrite length_app. simpl. rewrite length_drop. unfold in_buffer_size in *. lia.
      * done.
      * simpl in *. rewrite Hi. simpl. lia.
      * simpl. rewrite Hi. simpl. lia.
      * intros ? s4. simpl. rewrite Hi. simpl.
        destruct (serve_packets a2 p2 (packets_of es)) as [[[a' p'] out'] b'].
        intros (? & Hs4 & ?). split_and!; try naive_solver.
        by rewrite Hs4, Hsent, (assoc_L (++)).
  - eapply wp_mono; [apply (IH (set_incoming es s) a p); [by split|done|done|done|done|simpl in *; lia..]|done|].
    by intros ? s'.
Qed.

Lemma handle_client_spec fuel s a p :
  idle s a p → willing s → Forall ordinary (incoming s) → (1023 ≤ line_max)%Z → enough fuel s a →
  wp (handle_client_connection fuel) safe
    (λ _ s', let '(a', p', out, _) := serve_packets a p (packets_of (incoming s)) in
       file_repr (file s') a' p' ∧ sent s' = sent s ++ out ∧
       closed s' = true ∧ thread_done s' = 1%Z ∧ file_lock s' = false) s.
Proof.
  intros Hs Hw Ho Hm Hf. apply connection_loop_spec; [done..|lia|lia].
Qed.

(** The answer to a packet that is one line. *)
Lemma serve_one_line a p l packets :
  is_line l → NUL ∉ l →
  serve_packets a p (l :: packets) =
    match answer a p l [] with
    | None => (a, p, [], true)
    | Some (a, p) =>
       let '(a', p', out, b) := serve_packets a (len (content a)) packets in
       (a', p', drop (Z.to_nat p) (content a) ++ out, b)
    end.
Proof.
  intros Hl Hn. cbn [serve_packets].
  assert (c_string l = l) as -> by (rewrite <-(app_nil_r l) at 1; by rewrite c_string_app, app_nil_r).
  assert (split_lines l = ([l], [])) as ->
    by (rewrite <-(app_nil_r l) at 1; by rewrite split_lines_cons_line).
  cbn [serve_lines concat app].
  destruct (answer a p l []) as [[a1 p1]|]; [|done].
  destruct (serve_packets _ _ packets) as [[[? ?] ?] ?]. by rewrite app_nil_r.
Qed.

Lemma c_string_elem c bs : c ∈ c_string bs → c ∈ bs.
Proof.
  induction bs as [|x bs IH]; simpl; [done|]. case_decide; set_solver.
Qed.

Lemma serve_no_line a p r packets :
  newline ∉ c_string r → serve_packets a p (r :: packets) = serve_packets a p packets.
Proof.
  intros Hr. cbn [serve_packets]. rewrite split_lines_no_newline by done. simpl.
  by destruct (serve_packets _ _ packets) as [[[? ?] ?] ?].
Qed.

(** C7: a client's packets are answered as [serve_packets] says, whatever sizes
    the socket's writes have and however often there is no data for a while:
    the loops end, nothing is read or written out of bounds, the device and
    the bytes sent are those of the specification, and at the end the socket
    is closed, the thread reports itself done and the lock is free. *)
Theorem client_is_served fuel s a p :
  idle s a p → willing s → Forall ordinary (incoming s) → (1023 ≤ line_max)%Z → enough fuel s a →
  wp (handle_client_connection fuel) safe
    (λ _ s', let '(a', p', out, _) := serve_packets a p (packets_of (incoming s)) in
       file_repr (file s') a' p' ∧ sent s' = sent s ++ out ∧
       closed s' = true ∧ thread_done s' = 1%Z ∧ file_lock s' = false) s.
Proof. apply handle_client_spec. Qed.

(** A client that sends one line, not a command, gets back the contents with
    that line appended. *)
Theorem line_is_logged_and_answered fuel s a p l :
  idle s a p → willing s → incoming s = [Arrived l] → is_line l → NUL ∉ l → length l < in_buffer_size →
  is_command l = false → (1023 ≤ line_max)%Z → enough fuel s a →
  wp (handle_client_connection fuel) safe
    (λ _ s', sent s' = sent s ++ content (append a l) ∧
       ∃ p', file_repr (file s') (append a l) p') s.
Proof.
  intros Hs Hw Hin Hl Hn Hlen Hcmd Hm Hf. pose proof (is_line_length _ Hl).
  eapply wp_mono; [apply (handle_client_spec fuel s a p Hs Hw); [|done|done]|done|].
  { rewrite Hin, ?Forall_cons. by repeat split. }
  intros ? s'. rewrite Hin. simpl packets_of. rewrite serve_one_line by done.
  unfold answer. rewrite Hcmd.
  cbn [serve_packets]. rewrite app_nil_r. intros (? & ? & _). split; [done|by eexists].
Qed.

(** A client that sends a seek command gets the contents from the byte it
    names on, and the device is not changed; a command the driver refuses ends
    the connection without an answer. *)
Theorem seek_command_is_answered fuel s a p arg :
  idle s a p → willing s → incoming s = [Arrived (seek_command arg)] →
  (0 ≤ write_cmd arg < 2 ^ 32)%Z → (0 ≤ write_cmd_offset arg < 2 ^ 32)%Z →
  (1023 ≤ line_max)%Z → enough fuel s a →
  wp (handle_client_connection fuel) safe
    (λ _ s', sent s' = sent s ++
         match seek_target a arg with
         | Some pos => drop (Z.to_nat pos) (content a)
         | None => []
         end ∧
       (∃ p', file_repr (file s') a p') ∧ closed s' = true ∧ file_lock s' = false) s.
Proof.
  intros Hs Hw Hin Hc Ho Hm Hf.
  pose proof (seek_command_line arg ltac:(lia) ltac:(lia)) as Hl.
  pose proof (seek_command_no_NUL arg ltac:(lia) ltac:(lia)) as Hn.
  pose proof (is_line_length _ Hl). pose proof (seek_command_length arg).
  eapply wp_mono; [apply (handle_client_spec fuel s a p Hs Hw); [|done|done]|done|].
  { rewrite Hin, ?Forall_cons. by repeat split. }
  intros ? s'. rewrite Hin. simpl packets_of. rewrite serve_one_line by done.
  unfold answer. assert (is_command (seek_command arg) = true) as ->.
  { apply bool_decide_eq_true. apply (take_app_length AESDCHAR_IOCSEEKTO_NAME). }
  rewrite sscanf_seek_command_nil by done.
  destruct (seek_target a arg) as [pos|]; simpl; rewrite ?app_nil_r; naive_solver.
Qed.

(** C29: bytes of a packet behind its last newline are dropped: a line that
    arrives in two packets reaches the device, and comes back, without its
    first part. *)
Theorem split_line_loses_its_start fuel s a p l1 l2 :
  idle s a p → willing s → incoming s = [Arrived l1; Arrived l2] →
  l1 ≠ [] → newline ∉ l1 → length l1 < in_buffer_size →
  is_line l2 → NUL ∉ l2 → length l2 < in_buffer_size → is_command l2 = false →
  (1023 ≤ line_max)%Z → enough fuel s a →
  wp (handle_client_connection fuel) safe
    (λ _ s', sent s' = sent s ++ content (append a l2) ∧
       ∃ p', file_repr (file s') (append a l2) p') s.
Proof.
  intros Hs Hw Hin Hl1 Hnl1 Hlen1 Hl Hn Hlen Hcmd Hm Hf. pose proof (is_line_length _ Hl).
  assert (0 < length l1) by (destruct l1; simpl; [done|lia]).
  eapply wp_mono; [apply (handle_client_spec fuel s a p Hs Hw); [|done|done]|done|].
  { rewrite Hin, ?Forall_cons. by repeat split. }
  intros ? s'. rewrite Hin. simpl packets_of.
  rewrite serve_no_line, serve_one_line by (done || by intros ?%c_string_elem).
  unfold answer. rewrite Hcmd.
  cbn [serve_packets]. rewrite app_nil_r. intros (? & ? & _). split; [done|by eexists].
Qed.

(** The connection whose first reply is refused. *)
Lemma refused_connection fuel s a p l es m acc :
  idle s a p → incoming s = Arrived l :: es → is_line l → NUL ∉ l → length l < in_buffer_size →
  is_command l = false → accepts s = m :: acc → (m < 0)%Z → (1023 ≤ line_max)%Z → 1 < fuel →
  wp (handle_client_connection fuel) safe
    (λ _ s', closed s' = true ∧ thread_done s' = 1%Z ∧ file_lock s' = true) s.
Proof.
  intros [Hf Hp Ha Hk He] Hin Hl Hn Hlen Hcmd Hacc Hm Hmax Hfuel.
  pose proof (is_line_length _ Hl). unfold handle_client_connection.
  set (buffer := replicate in_buffer_size NUL).
  assert (length buffer = in_buffer_size) as Hbuf by apply length_replicate.
  clearbody buffer.
  assert (∃ n, fuel = S n) as [n Hfn] by (exists (fuel - 1); lia).
  rewrite Hfn at 2. cbn [connection_loop]. unfold in_buffer_size in Hlen.
  wp_step. eapply wp_mono; [apply (receive_packet s l es); [done|done|unfold in_buffer_size; lia]|done|].
  intros ? s1 [-> ->]. wp_step.
  eapply wp_mono; [apply start_packet_spec; [done|done|unfold in_buffer_size; lia]|done|].
  intros ? s2 [-> ->]. wp_step. rewrite Hfn at 2. cbn [handle_lines]. unfold handle_next. do 2 wp_step.
  unfold wp at 1. rewrite strchr_spec by done.
  assert (index_of newline l = Some (length l - 1)) as ->
    by (rewrite <-(app_nil_r l) at 1; by apply index_of_line).
  wp_step. replace (Z.of_nat (length l - 1) + 1)%Z with (len l) by lia.
  apply (handle_plain_line fuel _ a p l []); try done; [lia|]. intros f Hf'.
  eapply wp_mono; [eapply (send_file_refused fuel _ (append a l) m acc)|done|].
  - done.
  - by apply append_nonempty.
  - done.
  - done.
  - lia.
  - intros r s' (-> & ? & ? & Hk'). wp_step. done.
Qed.

(** C30: a read error other than "no data now" is used as an index: the NUL is
    stored in front of the buffer. *)
Theorem read_error_underflows fuel s errno es :
  incoming s = Failed errno :: es → errno ≠ EAGAIN → should_exit s = false →
  file_lock s = false → 0 < fuel →
  handle_client_connection fuel s = Fault OutOfBounds.
Proof.
  intros Hin He Hex Hk Hfuel. apply wp_fault_inv. unfold handle_client_connection.
  destruct fuel as [|fuel]; [lia|]. cbn [connection_loop].
  unfold receive. do 2 wp_step. unfold poll_exit. wp_step. apply wp_gets. wp_step. rewrite Hin. wp_step.
  apply wp_gets. rewrite Hex. wp_step. unfold sock_read. wp_step. apply wp_gets. rewrite Hin.
  wp_steps. rewrite decide_False by done. rewrite decide_False by (intros [_ [?|?]]; done).
  wp_steps. unfold start_packet, file_mutex_lock. do 2 wp_step. apply wp_gets. simpl.
  rewrite Hk. wp_steps. done.
Qed.
End connection.
