(* ===== verification/RegularFile.v ===== *)
(** * A regular file

    What the calls the server makes do to a regular file opened for reading and
    writing ([USE_AESD_CHAR_DEVICE] set to 0): a concrete instance of [FileOps].
    As long as writes happen at its end it is a log that keeps everything, an
    instance of [LogFile]; it has no seek command. *)

From S2P Require Import Prelude Memory CircularBuffer DeviceSpec Kernel CharDriver.
From S2P Require Import CharDriverSpec FileOps CString.

(** The bytes, and the position of the descriptor. *)
Record regular_file := mk_regular { contents : list byte; position : Z }.

#[export] Instance regular_file_ops : FileOps regular_file := {|
  file_write bs f :=
    let p := Z.to_nat (position f) in
    Ok (len bs) (mk_regular (take p (contents f) ++ replicate (p - length (contents f)) NUL
                               ++ bs ++ drop (p + length bs) (contents f))
                            (position f + len bs));
  file_read n f :=
    let bs := take (Z.to_nat n) (drop (Z.to_nat (position f)) (contents f)) in
    Ok (len bs, bs) (mk_regular (contents f) (position f + len bs));
  file_lseek off whence f :=
    let p := (if decide (whence = 0) then off else if decide (whence = 1) then position f + off
              else len (contents f) + off)%Z in
    if decide (p < 0)%Z then Ok (-1)%Z f else Ok p (mk_regular (contents f) p);
  file_ioctl _ _ f := Ok (-1)%Z f;
  file_seek_cmd := 0 |}.

(** The file at position [p], where [a] is what it holds. *)
Definition regular_repr (f : regular_file) (a : list byte) (p : Z) : Prop :=
  contents f = a ∧ position f = p ∧ (0 ≤ p)%Z.

#[export] Program Instance regular_log_file : LogFile regular_file := {|
  log := list byte;
  content a := a;
  whole _ := True;
  append := app;
  seek_target _ _ := None;
  file_repr := regular_repr;
  at_end a p := p = len a;
  line_max := 2 ^ 31 - 1 |}.
Next Obligation. done. Qed.
Next Obligation. intros a p ->. lia. Qed.
Next Obligation. done. Qed.
Next Obligation. intros a l _ _. simpl. by rewrite length_app. Qed.
Next Obligation. intros a l _ Hl. simpl. intros [_ ->]%app_nil. apply is_line_length in Hl. simpl in Hl. lia. Qed.
Next Obligation. done. Qed.
Next Obligation. by intros f a p (_ & _ & ?). Qed.
Next Obligation.
  intros f a p l (<- & <- & Hp) Hend _ _ _. cbn [file_write regular_file_ops wp].
  split; [done|]. split_and!; simpl; [|done|lia].
  rewrite Hend, Nat2Z.id, firstn_all, Nat.sub_diag, drop_ge, app_nil_r by lia. done.
Qed.
Next Obligation.
  intros f a p count (<- & <- & Hp) Hc. cbn. split; [done|]. split_and!.
  - rewrite length_take. lia.
  - apply prefix_take.
  - intros E%(f_equal length). rewrite length_take, length_drop in E. simpl in E. lia.
  - split_and!; simpl; [done..|lia].
Qed.
Next Obligation. by intros f a p (<- & <- & Hp). Qed.
Next Obligation. done. Qed.
