(* ===== verification/Timer.v ===== *)
(** * The timestamp timer ([timer] in [server/aesdsocket.c])

    The thread that puts a line with the time into the file every ten seconds,
    in a build for a regular file ([USE_AESD_CHAR_DEVICE] set to 0).  It shares
    [file_fd], [file_lock] and [should_exit] with the threads of [Server] and
    runs over the same state.  The thread tests [should_exit] each time it comes
    to its loop; what [time] returns to it then is a script with one value for
    each turn.  A run of the server is watched for a while only: behind the last
    value the thread is still in [sleep].

    Not modelled: [syslog], the length of a [sleep], the branches behind a
    failing mutex, and what [write] returns, which the code does not look at. *)

From Stdlib Require Import String.
From S2P Require Import Prelude Memory CircularBuffer DeviceSpec Kernel CharDriver.
From S2P Require Import CharDriverSpec CharDriverSeek FileOps CString Calendar Server ServerSpec.
From S2P Require Import RegularFile.

(** [sizeof(out_buffer)], and the string with its terminator. *)
Definition sizeof_out_buffer : nat := 64.
Definition preamble : list byte := bytes_of "timestamp:"%string ++ [NUL].
Definition timestamp_format : list byte := bytes_of "%Y-%m-%d %H:%M:%S"%string ++ [newline].

(** [timestamp - out_buffer] *)
Definition timestamp : Z := len preamble - 1.

(** The size [strftime] is given. *)
Definition timestamp_max : Z := Z.of_nat sizeof_out_buffer - len preamble - 1.

Section timer.
Context {F : Type} `{FileOps F}.
Abbreviation C := (M (srv F)).

(** The time zone, and what a failed [strftime] leaves in the array. *)
Context (utc_offset : Z → Z) (unspecified : list byte).

(** [strlen]: the terminator is searched within the array. *)
Definition strlen (s : list byte) : C Z := i ← lift OutOfBounds (index_of NUL s); mret (Z.of_nat i).

(** [strcpy] and [strftime] into [out_buffer] from [off] on. *)
Definition store (out_buffer : list byte) (off : Z) (bs : list byte) : C (list byte) :=
  lift OutOfBounds (bytes_store out_buffer off bs).

(** The time as text, behind the preamble. *)
Definition format_stamp (now : Z) (out_buffer : list byte) : C (list byte) :=
  now_tm ← lift NullDeref (localtime utc_offset now);
  store out_buffer timestamp (default unspecified (strftime timestamp_max timestamp_format now_tm)).

(** [write(file_fd, out_buffer, strlen(out_buffer))] *)
Definition write_stamp (out_buffer : list byte) : C () :=
  n ← strlen out_buffer;
  bs ← lift OutOfBounds (bytes_load out_buffer 0 n);
  file_run (file_write bs);;
  mret ().

(** One turn of the loop; the result is [out_buffer]. *)
Definition tick (now : Z) (out_buffer : list byte) : C (list byte) :=
  out_buffer ← format_stamp now out_buffer;
  file_mutex_lock;;
  write_stamp out_buffer;;
  file_mutex_unlock;;
  mret out_buffer.

(** Where the thread is at the end of the script: in [sleep], or it has
    returned. *)
Inductive timer_state := Asleep | Returned.

Fixpoint timer_loop (nows : list Z) (out_buffer : list byte) : C timer_state :=
  match nows with
  | [] => mret Asleep
  | now :: nows =>
     exiting ← gets should_exit;
     if (exiting : bool) then mret Returned
     else out_buffer ← tick now out_buffer; timer_loop nows out_buffer
  end.

(** [out_buffer] is what the array on the stack holds at first. *)
Definition timer (nows : list Z) (out_buffer : list byte) : C timer_state :=
  out_buffer ← store out_buffer 0 preamble;
  timer_loop nows out_buffer.

(** ** What a tick writes *)

(** The line of a tick. *)
Definition stamp (now_tm : tm) : list byte :=
  bytes_of "timestamp:"%string ++ expand timestamp_format now_tm.

Definition max_stamp : nat := 37.

Lemma expand_timestamp x :
  expand timestamp_format x =
    number 1 (tm_year x + 1900) ++ [45%Z] ++ number 2 (tm_mon x + 1) ++ [45%Z] ++
    number 2 (tm_mday x) ++ [32%Z] ++ number 2 (tm_hour x) ++ [58%Z] ++
    number 2 (tm_min x) ++ [58%Z] ++ number 2 (tm_sec x) ++ [newline].
Proof. reflexivity. Qed.

(** A field of two digits. *)
Lemma number_2_length n : (0 ≤ n < 100)%Z → length (number 2 n) ≤ 2.
Proof.
  intros. pose proof (number_length 2 n 2 ltac:(lia) ltac:(simpl; lia)).
  rewrite decide_False in * by lia. lia.
Qed.

Lemma expand_timestamp_length x : tm_wf x → length (expand timestamp_format x) ≤ 27.
Proof.
  intros (? & ? & ? & ? & ? & ?). rewrite expand_timestamp, !length_app. cbn [length].
  pose proof (number_length 1 (tm_year x + 1900) 10 ltac:(lia) ltac:(simpl; lia)) as Hy.
  pose proof (number_2_length (tm_mon x + 1) ltac:(lia)).
  pose proof (number_2_length (tm_mday x) ltac:(lia)).
  pose proof (number_2_length (tm_hour x) ltac:(lia)).
  pose proof (number_2_length (tm_min x) ltac:(lia)).
  pose proof (number_2_length (tm_sec x) ltac:(lia)).
  assert (length (number 1 (tm_year x + 1900)) ≤ 11) by (revert Hy; case_decide; lia). lia.
Qed.

(** The bytes that stand for themselves in numbers. *)
Lemma number_not_in digits n b : b ≠ 45%Z → isdigit b = false → b ∉ number digits n.
Proof. intros Hb Hd [?|Hi]%number_bytes; [done|]. by rewrite Hd in Hi. Qed.

Lemma expand_timestamp_line x :
  ∃ body, expand timestamp_format x = body ++ [newline] ∧ newline ∉ body ∧ NUL ∉ body.
Proof.
  rewrite expand_timestamp, !(assoc_L (++)). eexists. split; [done|].
  split; rewrite !not_elem_of_app; split_and!;
    (by apply number_not_in) || (by rewrite list_elem_of_singleton).
Qed.

Lemma stamp_line x : is_line (stamp x) ∧ NUL ∉ stamp x.
Proof.
  destruct (expand_timestamp_line x) as (body & E & Hn & H0). unfold stamp. rewrite E.
  assert (newline ∉ bytes_of "timestamp:"%string ∧ NUL ∉ bytes_of "timestamp:"%string) as [? ?]
    by (split; by apply (bool_decide_unpack _)).
  split.
  - exists (bytes_of "timestamp:"%string ++ body). rewrite (assoc_L (++)). split; [done|].
    rewrite elem_of_app. tauto.
  - rewrite !elem_of_app, list_elem_of_singleton. intros [?|[?|[=]]]; tauto.
Qed.

Lemma stamp_length x : tm_wf x → length (stamp x) ≤ max_stamp.
Proof.
  intros Hx. pose proof (expand_timestamp_length x Hx). unfold stamp, max_stamp.
  rewrite length_app. change (length (bytes_of "timestamp:"%string)) with 10. lia.
Qed.

(** ** The loop *)

(** What [out_buffer] holds between turns. *)
Definition stamped (out_buffer : list byte) : Prop :=
  ∃ rest, out_buffer = bytes_of "timestamp:"%string ++ rest ∧
          length rest = sizeof_out_buffer - 10.

Lemma index_of_NUL bs rest : NUL ∉ bs → index_of NUL (bs ++ NUL :: rest) = Some (length bs).
Proof.
  induction bs as [|b bs IH]; intros Hb; simpl; rewrite index_of_cons.
  - by rewrite decide_True.
  - apply not_elem_of_cons in Hb as [??]. rewrite decide_False, IH by done. done.
Qed.

(** The preamble leaves 54 bytes, [strftime] stores at most 28 of them. *)
Lemma store_stamp x rest :
  tm_wf x → length rest = sizeof_out_buffer - 10 →
  ∃ rest', bytes_store (bytes_of "timestamp:"%string ++ rest) timestamp
             (default unspecified (strftime timestamp_max timestamp_format x)) =
           Some (stamp x ++ NUL :: rest') ∧
           length (expand timestamp_format x ++ NUL :: rest') = sizeof_out_buffer - 10.
Proof.
  intros Hx Hr. pose proof (expand_timestamp_length x Hx) as Hl.
  unfold strftime. rewrite decide_True; cycle 1.
  { rewrite length_app. change timestamp_max with 52%Z. change (length [NUL]) with 1. lia. }
  set (s := expand timestamp_format x) in *.
  exists (drop (S (length s)) rest). unfold sizeof_out_buffer in *.
  rewrite <-(take_drop (S (length s)) rest) at 1. simpl default.
  rewrite (bytes_store_app _ (take (S (length s)) rest)); cycle 1.
  { done. }
  { rewrite length_take, length_app. change (length [NUL]) with 1. unfold sizeof_out_buffer in *. lia. }
  split; [unfold stamp; by rewrite <-!(assoc_L (++))|].
  rewrite length_app. cbn [length]. rewrite length_drop. lia.
Qed.

(** The buffer between [strftime] and [write]. *)
Definition formatted (x : tm) (out_buffer : list byte) : Prop :=
  tm_wf x ∧ stamped out_buffer ∧ ∃ rest, out_buffer = stamp x ++ NUL :: rest.

Lemma format_stamp_spec now x out_buffer s :
  localtime utc_offset now = Some x → stamped out_buffer →
  wp (format_stamp now out_buffer) safe (λ buf s', formatted x buf ∧ s' = s) s.
Proof.
  intros Hx (rest & -> & Hr). pose proof (localtime_range _ _ _ Hx) as Hwf.
  destruct (store_stamp x rest Hwf Hr) as (rest' & Hst & Hl).
  unfold format_stamp. rewrite Hx. wp_steps. unfold store. rewrite Hst. wp_steps.
  split; [|done]. split_and!; [done| |by eexists].
  exists (expand timestamp_format x ++ NUL :: rest'). split; [|done].
  unfold stamp. by rewrite <-(assoc_L (++)).
Qed.

Lemma write_stamp_spec x out_buffer s (Q : F → Prop) :
  formatted x out_buffer →
  wp (file_write (stamp x)) safe (λ _ f', Q f') (file s) →
  wp (write_stamp out_buffer) safe (λ _ s', s' = set_file (file s') s ∧ Q (file s')) s.
Proof.
  intros (_ & _ & rest & ->) HQ. destruct (stamp_line x) as [_ H0]. unfold write_stamp.
  unfold strlen. rewrite index_of_NUL by done. wp_steps.
  rewrite bytes_load_prefix by done. wp_steps. apply wp_file_run.
  eapply wp_mono; [exact HQ|done|]. intros ? f' Hf'. by wp_steps.
Qed.

(** A turn writes the line of its time under the lock and changes nothing
    but the file. *)
Lemma tick_spec now x out_buffer s (Q : F → Prop) :
  localtime utc_offset now = Some x → stamped out_buffer → file_lock s = false →
  wp (file_write (stamp x)) safe (λ _ f', Q f') (file s) →
  wp (tick now out_buffer) safe
    (λ out_buffer' s', stamped out_buffer' ∧ s' = set_file (file s') s ∧ Q (file s')) s.
Proof.
  intros Hx Hst Hk HQ. unfold tick. wp_step.
  eapply wp_mono; [by apply (format_stamp_spec now x)|done|]. intros buf s1 [Hbuf ->].
  wp_step. unfold file_mutex_lock. wp_step. apply wp_gets. rewrite Hk. wp_steps.
  eapply wp_mono; [by apply (write_stamp_spec x _ _ Q)|done|]. intros _ s2 [Hs2 HQ2].
  wp_step. unfold file_mutex_unlock. wp_step. apply wp_gets. rewrite Hs2. wp_steps.
  split_and!; [by destruct Hbuf as (_ & ? & _)| |done]. unfold set_lock, set_file. simpl. by rewrite Hk.
Qed.

Lemma store_preamble out_buffer :
  length out_buffer = sizeof_out_buffer →
  ∃ buf, bytes_store out_buffer 0 preamble = Some buf ∧ stamped buf.
Proof.
  intros Hlen. exists (preamble ++ drop 11 out_buffer). split.
  - rewrite <-(take_drop 11 out_buffer) at 1.
    apply (bytes_store_app [] (take 11 out_buffer) _ preamble); [done|].
    by rewrite length_take, Hlen.
  - exists (NUL :: drop 11 out_buffer). split; [unfold preamble; by rewrite <-(assoc_L (++))|].
    simpl. by rewrite length_drop, Hlen.
Qed.

(** A turn does not get past the lock while another thread has it. *)
Lemma tick_waits now x out_buffer s :
  localtime utc_offset now = Some x → stamped out_buffer → file_lock s = true →
  tick now out_buffer s = Fault Deadlock.
Proof.
  intros Hx Hst Hk. unfold tick.
  destruct (wp_safe_inv _ _ _ (format_stamp_spec now x out_buffer s Hx Hst)) as (buf & s' & Hrun & _ & ->).
  rewrite (bind_Ok _ _ _ _ _ Hrun). unfold file_mutex_lock, mbind, M_bind, gets. by rewrite Hk.
Qed.

(** The loop while nobody has set [should_exit]. *)
Lemma timer_loop_spec (Inv : list (list byte) → F → Prop) lines xs nows buf s :
  (∀ lines line f, Inv lines f → is_line line → NUL ∉ line → length line ≤ max_stamp →
     wp (file_write line) safe (λ _ f', Inv (lines ++ [line]) f') f) →
  Forall2 (λ now x, localtime utc_offset now = Some x) nows xs →
  stamped buf → file_lock s = false → should_exit s = false → Inv lines (file s) →
  wp (timer_loop nows buf) safe
    (λ r s', r = Asleep ∧ s' = set_file (file s') s ∧ Inv (lines ++ (stamp <$> xs)) (file s')) s.
Proof.
  intros Hwrite Hnows. revert lines buf s.
  induction Hnows as [|now x nows xs Hx _ IH]; intros lines buf s Hst Hk He HI; cbn [timer_loop].
  - wp_steps. rewrite app_nil_r. split; [done|]. by destruct s.
  - wp_step. apply wp_gets. rewrite He. wp_step. destruct (stamp_line x).
    eapply wp_mono; [apply (tick_spec now x _ _ (Inv (lines ++ [stamp x]))); [done..|]|done|].
    + apply Hwrite; [done..|]. apply stamp_length. by eapply localtime_range.
    + intros buf' s1 (Hst' & Hs1 & HI').
      eapply wp_mono; [apply IH; [done| | |exact HI']; by rewrite Hs1|done|].
      intros r s2 (Hr & Hs2 & HI2). rewrite fmap_cons, <-(assoc_L (++)) in *. split_and!; [done| |done].
      rewrite Hs2, Hs1. done.
Qed.

End timer.

(** *** Two ticks in Greenwich *)

(** The file holds the lines, and the position is at the end. *)
Definition holds_lines (lines : list (list byte)) (f : regular_file) : Prop :=
  contents f = concat lines ∧ position f = len (contents f).

Definition empty_tmp : srv regular_file :=
  mk_srv (mk_regular [] 0) false [] [] [] false false 0.

(** The same server with the lock taken, and after a signal. *)
Definition locked_tmp : srv regular_file := set_lock true empty_tmp.
Definition exiting_tmp : srv regular_file := set_exit true empty_tmp.

Lemma holds_lines_write lines line f :
  holds_lines lines f → wp (file_write line) safe (λ _ f', holds_lines (lines ++ [line]) f') f.
Proof.
  intros [Hc Hp]. cbn. unfold holds_lines. cbn. rewrite Hp, Nat2Z.id, Hc.
  rewrite take_ge, Nat.sub_diag, drop_ge, app_nil_r by lia. cbn.
  rewrite concat_app. cbn. rewrite app_nil_r. split; [done|]. rewrite length_app. lia.
Qed.

