(* ===== verification/ServerParts.v ===== *)
(** * What the parts of a connection's thread leave alone ([server/aesdsocket.c])

    A part of [handle_client_connection] either returns from the thread or goes
    on.  Something that can be seen in the state, such as the lock or the flag
    [thread_complete], is kept by a part that goes on; of a part that returns
    it is said separately. *)

From S2P Require Import Prelude Memory CircularBuffer DeviceSpec Kernel CharDriver.
From S2P Require Import CharDriverSpec CharDriverSeek Schedules FileOps CString Server ServerClients.

Section parts.
Context {F : Type} {HF : FileOps F} (fuel : nat) {X : Type} (obs : srv F → X) (returned : X → Prop).
Abbreviation C A := (M (srv F) A).

(** What is seen does not depend on the file, the socket or [should_exit], and
    a thread that has closed its connection may return. *)
Context (obs_file : ∀ f s, obs (set_file f s) = obs s).
Context (obs_incoming : ∀ es s, obs (set_incoming es s) = obs s).
Context (obs_out : ∀ acc out s, obs (set_out acc out s) = obs s).
Context (obs_exit : ∀ b s, obs (set_exit b s) = obs s).
Context (obs_closed : ∀ s, returned (obs (set_closed s))).

(** [f] says of the part's result that the thread returns. *)
Definition keeps {A} (f : A → bool) (m : C A) : Prop :=
  ∀ s a s', m s = Ok a s' → if f a then returned (obs s') else obs s' = obs s.

Lemma keeps_bind {A B} (f : A → bool) (g : B → bool) (m : C A) (k : A → C B) :
  keeps f m → (∀ a, f a = false → keeps g (k a)) →
  (∀ a, f a = true → ∃ b, k a = mret b ∧ g b = true) → keeps g (m ≫= k).
Proof.
  intros Hm Hk Hr s b s' (a & s1 & Ha & Hb)%bind_inv. specialize (Hm _ _ _ Ha).
  destruct (f a) eqn:Hf.
  - destruct (Hr a Hf) as (b' & Hka & Hg). rewrite Hka in Hb. injection Hb as <- <-. by rewrite Hg.
  - specialize (Hk a Hf _ _ _ Hb). destruct (g b); [done|]. by rewrite Hk.
Qed.

(** In front of something else. *)
Lemma keeps_then {A B} (g : B → bool) (m : C A) (k : A → C B) :
  keeps (λ _, false) m → (∀ a, keeps g (k a)) → keeps g (m ≫= k).
Proof. intros Hm Hk. by apply (keeps_bind (λ _, false)). Qed.

Lemma keeps_ret {A} (f : A → bool) a : f a = false → keeps f (mret a).
Proof. intros Hf s b s' [= <- <-]. by rewrite Hf. Qed.
Lemma keeps_fault {A} (f : A → bool) e : keeps f (fail e).
Proof. done. Qed.
Lemma keeps_diverge {A} (f : A → bool) : keeps f (diverge : C A).
Proof. done. Qed.
Lemma keeps_gets {A} (g : srv F → A) : keeps (λ _, false) (gets g).
Proof. by intros s a s' [= <- <-]. Qed.
Lemma keeps_modify (g : srv F → srv F) : (∀ s, obs (g s) = obs s) → keeps (λ _, false) (modify g).
Proof. intros Hg s a s' [= <- <-]. apply Hg. Qed.
Lemma keeps_lift {A} e (o : option A) : keeps (λ _, false) (lift e o).
Proof. intros s a s'. unfold lift. destruct o; [by intros [= <- <-]|done]. Qed.
Lemma keeps_file_run {A} (m : M F A) : keeps (λ _, false) (file_run m).
Proof using obs_file.
  intros s a s'. unfold file_run. destruct (m (file s)); [intros [= <- <-]; apply obs_file|done..].
Qed.

(** The connection is closed in front of a return. *)
Lemma keeps_close {A} (f : A → bool) a : f a = true → keeps f (close_connection;; mret a).
Proof using obs_closed.
  intros Hf s b s' (u & s1 & [= <- <-] & [= <- <-])%bind_inv. by rewrite Hf.
Qed.

Lemma keeps_give_up {A B} (f : A → bool) (m : C B) a :
  f a = true → keeps f (m;; close_connection;; mret a).
Proof using obs_closed.
  intros Hf s b s' (u & s1 & _ & Hb)%bind_inv. pose proof (keeps_close f a Hf _ _ _ Hb) as Hr.
  apply bind_inv in Hb as (u' & s2 & _ & [= <- <-]). by rewrite Hf in *.
Qed.

Ltac keeps_step :=
  match goal with
  | |- keeps _ (match ?x with _ => _ end) => destruct x
  | |- ∀ _, _ => intros ?
  | _ => first [ apply keeps_fault | apply keeps_diverge | apply keeps_gets | apply keeps_lift
               | apply keeps_file_run | by apply keeps_ret | by apply keeps_modify
               | by apply keeps_close | by apply keeps_give_up | apply keeps_then ]
  end.
Ltac keeps := repeat keeps_step.

Lemma keeps_strncmp s1 s2 n : keeps (λ _, false) (strncmp s1 s2 n : C Z).
Proof.
  revert s1 s2. induction n as [|n IH]; intros s1 s2; simpl; keeps. apply IH.
Qed.
Lemma keeps_strchr bs b : keeps (λ _, false) (strchr bs b : C (option nat)).
Proof. induction bs as [|x bs IH]; simpl; keeps. apply IH. Qed.

Lemma keeps_write_buffer (write : list byte → C Z) n bs len :
  (∀ bs, keeps (λ _, false) (write bs)) → keeps (λ _, false) (write_buffer write n bs len).
Proof.
  intros Hw. unfold write_buffer. generalize 0%Z. induction n as [|n IH]; intros z; simpl; keeps.
  - apply Hw.
  - apply IH.
Qed.

Lemma keeps_send_file n : keeps id (send_file fuel n : C bool).
Proof using obs_file obs_out obs_closed.
  induction n as [|n IH]; simpl; keeps; [|apply IH].
  apply keeps_write_buffer. intros bs. unfold sock_write. keeps.
Qed.

Lemma keeps_handle_line line n : keeps id (handle_line fuel line n : C bool).
Proof using obs_file obs_out obs_closed.
  unfold handle_line. apply keeps_then; [apply keeps_strncmp|]. intros cmp.
  apply (keeps_bind id); [|intros [] Hr; [done|apply keeps_send_file]|intros [] Hr; [by exists true|done]].
  keeps. apply keeps_write_buffer. keeps.
Qed.

Definition gave_up (r : line_result) : bool := match r with GaveUp => true | _ => false end.
Definition has_ended (r : received) : bool := match r with Ended => true | _ => false end.

Lemma keeps_handle_next prev : keeps gave_up (handle_next fuel prev : C line_result).
Proof using obs_file obs_out obs_closed.
  unfold handle_next. apply keeps_then; [apply keeps_strchr|]. intros [i|]; [|keeps].
  apply (keeps_bind id); [apply keeps_handle_line| |]; intros [] Hr; try done.
  - by apply keeps_ret.
  - by exists GaveUp.
Qed.

Lemma keeps_receive b : keeps has_ended (receive b : C received).
Proof using obs_incoming obs_exit obs_closed. unfold receive, poll_exit, sock_read. keeps. Qed.
End parts.

(** ** Mutual exclusion, whatever the sockets do *)

Section exclusion.
Context {F : Type} {HF : FileOps F} (fuel : nat).
Implicit Types (y : server F) (c : client).

(** The lock is kept by the parts that go on. *)
Abbreviation keeps_lock := (keeps (F := F) file_lock (λ _, True)).

Definition is_in_packet (pt : at_point) : bool :=
  match pt with Serving _ _ | Unlocking _ => true | _ => false end.

(** Waiting for data touches nothing that is shared but [should_exit]. *)
Lemma receive_shared b (s : srv F) r s' :
  receive b s = Ok r s' → file s' = file s ∧ file_lock s' = file_lock s.
Proof.
  unfold receive, poll_exit, sock_read, close_connection, mbind, M_bind, gets, modify, mret, M_ret.
  intros Hr. repeat (case_match; simplify_eq/=; try done).
Qed.

(** The file is used inside packets only. *)
Lemma step_file pt (s : srv F) pt' s' :
  thread_step fuel pt s = Ok pt' s' → is_in_packet pt = false → file s' = file s.
Proof.
  destruct pt as [b|n b|prev b|b|]; cbn [thread_step]; try done.
  - intros (r & s1 & Hr & [= <- <-])%bind_inv _. by apply receive_shared in Hr as [-> _].
  - intros (b' & s1 & Hr & [= <- <-])%bind_inv _. unfold start_packet, file_mutex_lock, lift in Hr.
    apply bind_inv in Hr as (u & s2 & Hl & Hr). unfold mbind, M_bind, gets, modify in Hl.
    destruct (file_lock s); [done|]. simplify_eq. destruct (bytes_store _ _ _); [|done].
    unfold mret, M_ret in Hr. by simplify_eq.
  - by intros [= <- <-] _.
Qed.

(** A step's effect on the lock: it is kept, unless the step is the beginning
    of a packet, which finds it free and takes it, or the end of one. *)
Lemma step_lock pt s pt' s' :
  thread_step fuel pt s = Ok pt' s' →
  (is_in_packet pt' = is_in_packet pt ∧ file_lock s' = file_lock s) ∨
  (is_in_packet pt = false ∧ is_in_packet pt' = true ∧ file_lock s = false ∧ file_lock s' = true) ∨
  (is_in_packet pt = true ∧ is_in_packet pt' = false).
Proof.
  destruct pt as [b|n b|prev b|b|]; cbn [thread_step].
  - intros (r & s1 & Hr & [= <- <-])%bind_inv. left. split; [by destruct r|].
    by apply receive_shared in Hr as [_ ->].
  - intros (b' & s1 & Hr & [= <- <-])%bind_inv. right; left.
    unfold start_packet, file_mutex_lock, lift in Hr. apply bind_inv in Hr as (u & s2 & Hl & Hr).
    unfold mbind, M_bind, gets, modify in Hl. destruct (file_lock s) eqn:Hk; [done|].
    simplify_eq. destruct (bytes_store _ _ _); [|done]. unfold mret, M_ret in Hr. by simplify_eq.
  - intros (r & s1 & Hr & [= <- <-])%bind_inv.
    pose proof (keeps_handle_next fuel file_lock (λ _, True) ltac:(done) ltac:(done) ltac:(done)
      prev s r s1 Hr) as Hk. destruct r; simpl in *; [by left|by left|by right; right].
  - intros (u & s1 & Hr & [= <- <-])%bind_inv. right; right. done.
  - intros [= <- <-]. by left.
Qed.

(** At most one thread is between lock and unlock, and the lock is held then.
    [ext]: one that is no client's. *)
Record exclusive (ext : bool) y : Prop := {
  ex_lock i c : clients y !! i = Some c → in_packet c = true → s_lock y = true;
  ex_one i j c d : clients y !! i = Some c → clients y !! j = Some d →
    in_packet c = true → in_packet d = true → i = j;
  ex_ext : ext = true → s_lock y = true ∧ ∀ i c, clients y !! i = Some c → in_packet c = false }.

(** The threads are where they were, but for one that moves to [c']. *)
Lemma exclusive_insert ext y f l e i c c' :
  exclusive ext y → clients y !! i = Some c →
  (in_packet c' = in_packet c ∧ l = s_lock y) ∨
  (in_packet c = false ∧ in_packet c' = true ∧ s_lock y = false ∧ l = true) ∨
  (in_packet c = true ∧ in_packet c' = false) →
  exclusive ext (mk_server f l e (<[i := c']> (clients y))).
Proof.
  intros [Hlock Hone Hext] Hi Hor.
  assert (∀ j d, <[i := c']> (clients y) !! j = Some d →
    j = i ∧ d = c' ∨ j ≠ i ∧ clients y !! j = Some d) as Hat.
  { intros j d [(<- & <- & _)|[? ?]]%list_lookup_insert_Some; auto. }
  assert (in_packet c' = true → ∀ j d, j ≠ i → clients y !! j = Some d → in_packet d = false) as Halone.
  { intros Hc' j d Hj Hd. destruct (in_packet d) eqn:Hp; [|done].
    destruct Hor as [[Hc _]|[(_ & _ & Hk & _)|[_ ?]]]; [|specialize (Hlock j d Hd Hp); congruence|congruence].
    by destruct Hj; apply (Hone j i d c); [..|congruence]. }
  split; simpl.
  - intros j d [[-> ->]|[Hj Hd]]%Hat Hp.
    + destruct Hor as [[Hc ->]|[(_ & _ & _ & ->)|[_ ?]]]; [apply (Hlock i c); congruence|done|congruence].
    + specialize (Hlock j d Hd Hp). destruct Hor as [[_ ->]|[(_ & _ & _ & ->)|[Hc _]]]; [done..|].
      by destruct Hj; apply (Hone j i d c).
  - intros j k d d' [[-> ->]|[Hj Hd]]%Hat [[-> ->]|[Hk Hd']]%Hat Hp Hp'; [done| | |by eapply Hone].
    + specialize (Halone Hp k d' Hk Hd'). congruence.
    + specialize (Halone Hp' j d Hj Hd). congruence.
  - intros He. destruct (Hext He) as [Hk Hall]. pose proof (Hall i c Hi) as Hc.
    destruct Hor as [[Hc' ->]|[(_ & _ & ? & _)|[? _]]]; [|congruence..]. split; [done|].
    intros j d [[-> ->]|[Hj Hd]]%Hat; [congruence|by eapply Hall].
Qed.

Lemma turn_exclusive ext i y y' :
  exclusive ext y → turn fuel i y = Ok () y' → exclusive ext y'.
Proof.
  intros Hy. unfold turn. destruct (clients y !! i) as [c|] eqn:Hi; [|by intros [= <-]].
  destruct (blocked y c); [by intros [= <-]|].
  destruct (thread_step fuel (point c) (view y c)) as [pt s|e|] eqn:Hs; [|done..].
  intros [= <-]. apply step_lock in Hs. eapply exclusive_insert; [done..|]. exact Hs.
Qed.

Lemma run_threads_exclusive schedule y y' :
  exclusive false y → run_threads fuel schedule y = Ok () y' → exclusive false y'.
Proof.
  revert y. unfold run_threads. induction schedule as [|i schedule IH]; intros y Hy; simpl.
  - by intros [= <-].
  - intros ([] & y1 & Ht & Hrun)%bind_inv. apply (IH y1); [by eapply turn_exclusive|done].
Qed.

(** Nobody has begun. *)
Lemma exclusive_outside y :
  Forall (λ c, in_packet c = false) (clients y) → exclusive false y.
Proof.
  rewrite Forall_lookup. intros Hy. split; [| |done]; intros i; [intros c Hi|intros j c d Hi];
    rewrite (Hy i c Hi) in *; done.
Qed.
End exclusion.
