(* ===== verification/ServerSerial.v ===== *)
(** * Packets take effect one after the other ([server/aesdsocket.c])

    The specification of the server with several clients is sequential: a
    packet of one client is served at a time.  A simulation shows that every
    schedule of the threads of [ServerClients] does what some order of packets
    does; a measure shows that under a fair schedule all threads end. *)

From S2P Require Import Prelude Memory CircularBuffer DeviceSpec Kernel CharDriver.
From S2P Require Import CharDriverSpec CharDriverSeek Schedules FileOps CString Server.
From S2P Require Import ServerSpec ServerProperties ServerClients.

(** ** The sequential server *)

Section sequential.
Context {F : Type} {HF : FileOps F} {HA : LogFile F}.
Implicit Types (a : log F).

Definition serve_packet a (p : Z) (packet : list byte) : log F * Z * list byte * bool :=
  let '(ls, r) := split_lines (c_string packet) in serve_lines a p ls r.

(** The log with the position; for every client the packets not served yet
    and the bytes sent to it. *)
Definition serial : Type := log F * Z * list (list (list byte) * list byte).

(** The next packet of client [i], if it has one.  A refused seek ends the
    connection. *)
Definition serve_next (st : serial) (i : nat) : serial :=
  let '(a, p, cs) := st in
  match cs !! i with
  | Some (packet :: todo, out) =>
     let '(a, p, reply, given_up) := serve_packet a p packet in
     (a, p, <[i := (if given_up then [] else todo, out ++ reply)]> cs)
  | _ => st
  end.

Definition serve_order (order : list nat) (st : serial) : serial := foldl serve_next st order.

Lemma serve_lines_whole a p ls r a' p' out b :
  whole a → Forall is_line ls → serve_lines a p ls r = (a', p', out, b) → whole a'.
Proof.
  intros Ha Hls. revert a p out Ha. induction Hls as [|l ls Hl Hls IH]; intros a p out Ha; simpl.
  { by intros [= <- <- <- <-]. }
  destruct (answer a p l _) as [[a1 p1]|] eqn:Hans; [|by intros [= <- <- <- <-]].
  pose proof (answer_whole _ _ _ _ _ _ Hans Ha Hl) as Ha1.
  destruct (serve_lines a1 _ ls r) as [[[a2 p2] out2] b2] eqn:Hrest.
  intros [= <- <- <- <-]. by eapply IH.
Qed.

(** The sequential server serves a client without looking at those behind it. *)
Lemma serve_next_app a p (cs cs' : list (list (list byte) * list byte)) i a' p' cs1 :
  serve_next (a, p, cs) i = (a', p', cs1) →
  serve_next (a, p, cs ++ cs') i = (a', p', cs1 ++ cs') ∨ (a', p', cs1) = (a, p, cs).
Proof.
  destruct (decide (i < length cs)) as [Hi|Hi].
  - left. unfold serve_next in *. rewrite lookup_app_l by done.
    destruct (cs !! i) as [[[|packet todo] out]|]; simplify_eq; [done| |done].
    destruct (serve_packet a p packet) as [[[a1 p1] reply] b]. simplify_eq.
    by rewrite insert_app_l.
  - right. unfold serve_next in *. rewrite lookup_ge_None_2 in * by lia. congruence.
Qed.
End sequential.
Arguments serial F {_ _}.

(** ** How large the contents become *)

(** A line that fits a packet. *)
Definition short (l : list byte) : Prop := length l < in_buffer_size.

(** [fits a n]: while at most [n] more bytes are appended, in short lines, the
    contents keep below [size_max]. *)
Class LogBound (F : Type) `{LogFile F} := {
  size_max : nat;
  fits : log F → nat → Prop;
  fits_size a n : fits a n → length (content a) ≤ size_max;
  fits_less a n m : fits a n → m ≤ n → fits a m;
  fits_append a l n :
    whole a → is_line l → short l → fits a (length l + n) → fits (append a l) n }.

Section bound.
Context {F : Type} {HF : FileOps F} {HA : LogFile F} {HB : LogBound F}.
Implicit Types (a : log F).

Lemma serve_lines_fits a p ls r a' p' out b n :
  whole a → Forall is_line ls → Forall short ls → fits a (length (concat ls) + n) →
  serve_lines a p ls r = (a', p', out, b) → fits a' n.
Proof.
  intros Ha Hls. revert a p out Ha.
  induction Hls as [|l ls Hl Hls IH]; intros a p out Ha Hsh Hf; simpl.
  { by intros [= <- <- <- <-]. }
  apply Forall_cons in Hsh as [Hsl Hsh]. cbn [concat] in Hf. rewrite length_app, <-Nat.add_assoc in Hf.
  destruct (answer a p l _) as [[a1 p1]|] eqn:Hans;
    [|intros [= <- <- <- <-]; eapply fits_less; [done|lia]].
  pose proof (answer_whole _ _ _ _ _ _ Hans Ha Hl) as Ha1.
  assert (fits a1 (length (concat ls) + n)) as Hf1.
  { apply answer_log in Hans as [->| ->]; [eapply fits_less; [done|lia]|by apply fits_append]. }
  destruct (serve_lines a1 _ ls r) as [[[a2 p2] out2] b2] eqn:Hrest.
  intros [= <- <- <- <-]. by eapply IH.
Qed.

Lemma lines_short (ls : list (list byte)) : length (concat ls) < in_buffer_size → Forall short ls.
Proof.
  intros Hc. apply Forall_forall. intros l Hl. unfold short.
  apply list_elem_of_split in Hl as (l1 & l2 & ->).
  rewrite concat_app, length_app in Hc. simpl in Hc. rewrite length_app in Hc. lia.
Qed.

Lemma serve_packet_fits a p packet a' p' out b n :
  whole a → length packet < in_buffer_size → fits a (length packet + n) →
  serve_packet a p packet = (a', p', out, b) → fits a' n.
Proof.
  intros Ha Hlen Hf Hs. unfold serve_packet in Hs. pose proof (c_string_length packet) as Hcl.
  destruct (split_lines (c_string packet)) as [ls r] eqn:Hsp.
  apply split_lines_inv in Hsp as (Hcs & Hls & _). rewrite Hcs, length_app in Hcl.
  eapply (serve_lines_fits a p ls r); [done|done|apply lines_short; lia| |done].
  eapply fits_less; [done|lia].
Qed.

(** The bytes of the packets not served yet. *)
Definition pending (cs : list (list (list byte) * list byte)) : nat :=
  sum_list_with (λ x, length (concat x.1)) cs.

Lemma pending_insert cs i packet todo out x :
  cs !! i = Some (packet :: todo, out) → length (concat x.1) ≤ length (concat todo) →
  length packet + pending (<[i := x]> cs) ≤ pending cs.
Proof.
  unfold pending. revert i. induction cs as [|y cs IH]; intros [|i] Hi Hx; simplify_eq/=.
  - rewrite length_app. lia.
  - specialize (IH i Hi Hx). lia.
Qed.
End bound.

(** ** The simulation *)

Section simulation.
Context {F : Type} {HF : FileOps F} {HA : LogFile F} {HB : LogBound F} (fuel : nat).
Implicit Types (y : server F) (c : client) (s : srv F) (a A : log F) (p P : Z) (f : F)
  (x : list (list byte) * list byte).

Definition settled f a p : Prop := file_repr f a p ∧ at_end a p.

(** What holds of a client wherever it is. *)
Record client_ok c : Prop := {
  ok_events : Forall ordinary (to_come c);
  ok_takes : Forall (λ n, 0 ≤ n)%Z (takes c);
  ok_fuel : 1024 + size_max + in_buffer_size + length (takes c) < fuel }.

(** Inside a packet the sequential server is ahead: [ls] and [r] are the part
    of the packet still to serve, which leads to the device [A] at [P]. *)
Record serving_sim f A P (prev : list byte) a p ls (r : list byte) out (given_up : bool) : Prop := {
  ss_file : settled f a p;
  ss_whole : whole a;
  ss_size : length (content a) + length (concat ls) ≤ size_max + in_buffer_size;
  ss_prev : ∃ junk, prev = concat ls ++ r ++ NUL :: junk;
  ss_lines : Forall is_line ls;
  ss_rest : newline ∉ r;
  ss_string : NUL ∉ concat ls ++ r;
  ss_short : length (concat ls) < in_buffer_size;
  ss_serve : serve_lines a p ls r = (A, P, out, given_up) }.

(** A client [c], and what the sequential server has of it; [holds]: the client
    holds the lock. *)
Definition point_sim (holds : bool) f A P c x : Prop :=
  match point c with
  | Receiving b =>
     holds = false ∧ length b = in_buffer_size ∧ x = (packets_of (to_come c), replied c)
  | Locking n b =>
     holds = false ∧ ∃ bs buffer, n = len bs ∧ b = bs ++ drop (length bs) buffer ∧
       length buffer = in_buffer_size ∧ 0 < length bs < in_buffer_size ∧
       x = (bs :: packets_of (to_come c), replied c)
  | Serving prev b =>
     holds = true ∧ length b = in_buffer_size ∧ ∃ a p ls r out given_up,
       serving_sim f A P prev a p ls r out given_up ∧
       x = (if (given_up : bool) then [] else packets_of (to_come c), replied c ++ out)
  | Unlocking b =>
     holds = true ∧ length b = in_buffer_size ∧ settled f A P ∧
     x = (packets_of (to_come c), replied c)
  | Finished => holds = false ∧ fd_closed c = true ∧ complete c = 1%Z ∧ x = ([], replied c)
  end.

(** Steps a thread has left, at most. *)
Definition steps_left c : nat :=
  let events := 1030 * length (to_come c) in
  match point c with
  | Receiving _ => events + 1
  | Locking _ _ => events + 1028
  | Serving prev _ => events + length prev + 3
  | Unlocking _ => events + 2
  | Finished => 0
  end.

Definition served A P x A' P' x' : Prop :=
  ∃ packet todo out reply given_up, x = (packet :: todo, out) ∧ length packet < in_buffer_size ∧
    serve_packet A P packet = (A', P', reply, given_up) ∧
    x' = (if given_up : bool then [] else todo, out ++ reply).

(** What one step of a thread does: it stays in or out of the lock, takes it,
    or gives it back with the file in the state of the sequential server. *)
Definition moved (holds : bool) s A P x (pt : at_point) (pt' : at_point) s' : Prop :=
  should_exit s' = false ∧ client_ok (client_of pt' s') ∧
  steps_left (client_of pt' s') < steps_left (client_of pt s) ∧
  ∃ holds' A' P' x', point_sim holds' (file s') A' P' (client_of pt' s') x' ∧ whole A' ∧
    ((A', P', x') = (A, P, x) ∨ served A P x A' P' x') ∧
    if decide (holds' = holds) then
      file_lock s' = file_lock s ∧ (holds = false → file s' = file s ∧ A' = A ∧ P' = P)
    else file_lock s' = holds' ∧ file_lock s = holds ∧ (holds' = false → settled (file s') A' P').

(** Projections of the records; the numerals stay as they are. *)
Ltac csrv :=
  cbn [client_of point to_come takes replied fd_closed complete set_incoming set_lock set_closed
       file file_lock incoming accepts sent should_exit closed thread_done] in *.
Ltac count_steps := unfold steps_left; csrv; lia.

Ltac move_to holds A P x :=
  exists holds, A, P, x; refine (conj _ (conj _ (conj _ _))).

Lemma receiving_moves s b A P x :
  should_exit s = false → client_ok (client_of (Receiving b) s) → whole A →
  point_sim false (file s) A P (client_of (Receiving b) s) x →
  wp (thread_step fuel (Receiving b)) safe (moved false s A P x (Receiving b)) s.
Proof.
  intros He [Hord Hw Hfuel] Hc (_ & Hb & ->). csrv. cbn [thread_step]. wp_step.
  eapply wp_mono; [by apply receive_spec|done|]. intros r s1.
  destruct (incoming s) as [|e es] eqn:Hin.
  { intros [-> ->]. wp_step. split_and!; [done|split; csrv; [by rewrite ?Hin|done|done]|count_steps|].
    move_to false A P ([] : list (list byte), sent s); [by split_and!|done|left; simpl; by rewrite ?Hin|done]. }
  apply Forall_cons in Hord as [Hoe Hord]. destruct e as [bs|errno|]; simpl in Hoe; [| |done];
    intros [-> ->]; wp_step.
  - split_and!; [done|by split|unfold steps_left; csrv; rewrite ?Hin; cbn [length]; lia|].
    move_to false A P (bs :: packets_of es, sent s); [|done|left; simpl; by rewrite ?Hin|done].
    split; [done|]. by exists bs, b.
  - split_and!; [done|by split|unfold steps_left; csrv; rewrite ?Hin; cbn [length]; lia|].
    move_to false A P (packets_of es, sent s); [by split_and!|done|left; simpl; by rewrite ?Hin|done].
Qed.

Lemma locking_moves s n b A P x :
  should_exit s = false → client_ok (client_of (Locking n b) s) → whole A → length (content A) ≤ size_max →
  point_sim false (file s) A P (client_of (Locking n b) s) x →
  file_lock s = false → settled (file s) A P →
  wp (thread_step fuel (Locking n b)) safe (moved false s A P x (Locking n b)) s.
Proof.
  intros He Hok Hc Hsz (_ & bs & buffer & -> & -> & Hbuf & Hbs & ->) Hk Hf. cbn [thread_step]. wp_step.
  eapply wp_mono; [apply start_packet_spec; [done|done|lia]|done|]. intros prev s1 [-> ->]. wp_step.
  assert (length (bs ++ NUL :: drop (S (length bs)) buffer) = in_buffer_size) as Hlen.
  { rewrite length_app. simpl. rewrite length_drop. lia. }
  split_and!; [done|by destruct Hok|unfold steps_left; csrv; rewrite Hlen; unfold in_buffer_size; lia|].
  destruct (serve_packet A P bs) as [[[A' P'] reply] b] eqn:Hserve.
  pose proof Hserve as Hs. unfold serve_packet in Hs.
  destruct (c_string_terminated bs (drop (S (length bs)) buffer)) as [junk Hjunk].
  pose proof (c_string_length bs) as Hcl. pose proof (c_string_no_NUL bs) as Hn.
  destruct (split_lines (c_string bs)) as [ls r] eqn:Hsp.
  apply split_lines_inv in Hsp as (Hcs & Hls & Hnl). rewrite Hcs in Hjunk, Hcl, Hn.
  rewrite length_app in Hcl.
  move_to true A' P' (if b then [] else packets_of (incoming s), sent s ++ reply).
  - split_and!; [done|done|]. exists A, P, ls, r, reply, b. split; [|done]. split; try done.
    + lia.
    + exists junk. by rewrite Hjunk, (assoc_L (++)).
    + lia.
  - by eapply serve_lines_whole.
  - right. eexists _, _, _, _, _. split_and!; [done|lia|done|done].
  - done.
Qed.

Lemma lines_fit (ls : list (list byte)) : length (concat ls) < in_buffer_size → (1023 ≤ line_max)%Z →
  Forall (λ l, len l ≤ line_max `min` 1024)%Z ls.
Proof.
  intros Hc%lines_short Hm. eapply Forall_impl; [exact Hc|].
  intros l. unfold short, in_buffer_size. lia.
Qed.

Lemma serving_moves s prev b A P x :
  should_exit s = false → client_ok (client_of (Serving prev b) s) → whole A →
  point_sim true (file s) A P (client_of (Serving prev b) s) x →
  file_lock s = true → (1023 ≤ line_max)%Z →
  wp (thread_step fuel (Serving prev b)) safe (moved true s A P x (Serving prev b)) s.
Proof.
  intros He [Hord Hw Hfuel] HcA (_ & Hb & a & p & ls & r & out & gu & Hss & ->) Hk Hmax.
  destruct Hss as [[Hf Hp] Ha Hsz [junk ->] Hls Hnl Hn Hlen Hserve].
  cbn [client_of to_come takes] in *.
  cbn [thread_step]. wp_step. eapply wp_mono; [apply (handle_next_spec fuel s a p ls r junk);
    [by split|done|done|done|by apply lines_fit|lia]|done|].
  intros res s1. destruct ls as [|l ls].
  { intros [-> ->]. wp_step. injection Hserve as -> -> <- <-.
    split_and!; [done|by split|count_steps|].
    move_to true A P (packets_of (incoming s), sent s ++ []); [|done|by left|done].
    split_and!; [done|done|by split|by rewrite app_nil_r]. }
  simpl in Hserve. apply Forall_cons in Hls as [Hl Hls]. cbn [concat] in Hlen, Hsz.
  rewrite length_app in Hlen, Hsz.
  pose proof (is_line_length _ Hl). destruct (answer a p l (concat ls ++ r)) as [[a1 p1]|] eqn:Hans.
  - intros (-> & [Hf1 Hp1 Ha1 Hk1 Hw1] & Hsv). wp_step. pose proof Hsv as [].
    pose proof (answer_content _ _ _ _ _ _ Hans Ha Hl).
    destruct (serve_lines a1 _ ls r) as [[[a2 p2] out2] b2] eqn:Hrest.
    injection Hserve as -> -> <- <-. split_and!.
    + congruence.
    + split; csrv; [by rewrite sv_incoming|done|lia].
    + unfold steps_left. csrv. rewrite sv_incoming. cbn [concat]. rewrite !length_app. lia.
    + move_to true A P (if b2 then [] else packets_of (incoming s),
        sent s ++ drop (Z.to_nat p1) (content a1) ++ out2); [|done|by left|].
      * split_and!; [done|done|]. exists a1, (len (content a1)), ls, r, out2, b2. split.
        -- split; try done; [lia|by exists junk|by intros ?; apply Hn; simpl; rewrite <-(assoc_L (++)); apply elem_of_app; right|lia].
        -- simpl. by rewrite sv_incoming, sv_sent, (assoc_L (++)).
      * split; [|done]. congruence.
  - intros (-> & Hf1 & Hc1 & Hd1 & Hk1 & Hs1 & Hi1 & He1 & Hacc1). wp_step.
    injection Hserve as -> -> <- <-. split_and!.
    + congruence.
    + split; csrv; [by rewrite Hi1|by rewrite Hacc1|by rewrite Hacc1].
    + count_steps.
    + move_to false A P ([] : list (list byte), sent s ++ []); [|done|by left|done].
      split_and!; [done|done|done|]. simpl. by rewrite Hs1, app_nil_r.
Qed.

Lemma unlocking_moves s b A P x :
  should_exit s = false → client_ok (client_of (Unlocking b) s) → whole A →
  point_sim true (file s) A P (client_of (Unlocking b) s) x → file_lock s = true →
  wp (thread_step fuel (Unlocking b)) safe (moved true s A P x (Unlocking b)) s.
Proof.
  intros He [Hord Hw Hfuel] HcA (_ & Hb & Hf & ->) Hk. cbn [thread_step]. wp_step.
  eapply wp_mono; [by apply file_mutex_unlock_spec|done|]. intros _ s1 ->. wp_step.
  split_and!; [done|by split|count_steps|].
  move_to false A P (packets_of (incoming s), sent s); [by split_and!|done|by left|done].
Qed.

(** A thread that is not blocked moves. *)
Lemma thread_moves holds s pt A P x :
  should_exit s = false → client_ok (client_of pt s) → whole A → length (content A) ≤ size_max →
  point_sim holds (file s) A P (client_of pt s) x →
  (holds = true → file_lock s = true) → (file_lock s = false → settled (file s) A P) →
  match pt with Finished => true | Locking _ _ => file_lock s | _ => false end = false →
  (1023 ≤ line_max)%Z →
  wp (thread_step fuel pt) safe (moved holds s A P x pt) s.
Proof.
  intros He Hok Hc Hsz Hsim Hk Hf Hb Hmax. destruct pt as [b|n b|prev b|b|].
  - destruct Hsim as [-> ?]. by apply receiving_moves.
  - destruct Hsim as [-> ?]. apply locking_moves; auto; by split.
  - destruct Hsim as [-> ?]. apply serving_moves; auto; by split.
  - destruct Hsim as [-> ?]. apply unlocking_moves; auto; by split.
  - done.
Qed.

(** *** The whole server *)

(** The sequential server's state [A], [P], [cs]; [h] is the client that holds
    the lock, [ext] says that a thread that serves no client holds it. *)
Record server_sim (ext : bool) (h : option nat) y A P
    (cs : list (list (list byte) * list byte)) : Prop := {
  sim_exit : s_exit y = false;
  sim_lock : s_lock y = bool_decide (is_Some h) || ext;
  sim_ext : ext = true → h = None;
  sim_holder i : h = Some i → i < length (clients y);
  sim_free : h = None → settled (s_file y) A P;
  sim_whole : whole A;
  sim_length : length cs = length (clients y);
  sim_clients i c x : clients y !! i = Some c → cs !! i = Some x →
    client_ok c ∧ point_sim (bool_decide (h = Some i)) (s_file y) A P c x }.

Definition all_steps_left y : nat := sum_list_with steps_left (clients y).

(** Outside the lock a client does not depend on the file. *)
Lemma point_sim_outside f A P f' A' P' c x :
  point_sim false f A P c x → point_sim false f' A' P' c x.
Proof. unfold point_sim. destruct (point c); intros [? Hc]; by split. Qed.

Lemma sum_list_with_insert (g : client → nat) cl i c c' :
  cl !! i = Some c → g c' < g c → sum_list_with g (<[i := c']> cl) < sum_list_with g cl.
Proof.
  revert i. induction cl as [|d cl IH]; intros [|i] Hi Hg; simplify_eq/=; [lia|].
  specialize (IH i Hi Hg). lia.
Qed.

Lemma server_sim_update ext h h' holds' y A P cs i c c' x x' f' A' P' :
  server_sim ext h y A P cs → clients y !! i = Some c → cs !! i = Some x →
  client_ok c' → point_sim holds' f' A' P' c' x' → whole A' →
  bool_decide (h' = Some i) = holds' → (ext = true → h' = None) →
  (h' = None → settled f' A' P') →
  (h' = h ∧ h ≠ Some i ∧ f' = s_file y ∧ A' = A ∧ P' = P ∨
   (h = None ∨ h = Some i) ∧ (h' = None ∨ h' = Some i)) →
  server_sim ext h' (mk_server f' (bool_decide (is_Some h') || ext) false (<[i := c']> (clients y)))
    A' P' (<[i := x']> cs).
Proof.
  intros [He Hk He' Hh Hfree Hc Hlen Hcl] Hi Hx Hok Hsim HcA Hb Hext Hf Hor.
  pose proof (lookup_lt_Some _ _ _ Hi). split; simpl; try done.
  - intros j Hj. rewrite length_insert. destruct Hor as [(-> & _)|[_ [-> | ->]]]; [by apply Hh|done|by simplify_eq].
  - by rewrite !length_insert.
  - intros j d z Hj Hz. destruct (decide (i = j)) as [<-|Hne].
    + rewrite list_lookup_insert_eq in Hj by done. rewrite list_lookup_insert_eq in Hz by lia.
      simplify_eq. done.
    + rewrite list_lookup_insert_ne in Hj by done. rewrite list_lookup_insert_ne in Hz by done. destruct (Hcl j d z Hj Hz) as [? Hd].
      split; [done|]. destruct Hor as [(-> & _ & -> & -> & ->)|[Hh1 Hh2]]; [done|].
      rewrite bool_decide_eq_false_2 in Hd by (destruct Hh1; congruence).
      rewrite bool_decide_eq_false_2 by (destruct Hh2; congruence).
      by eapply point_sim_outside.
Qed.

(** Who holds the lock after a step of client [i]. *)
Lemma next_holder (ext : bool) (h : option nat) i (holds' lock lock' : bool) (free same : Prop) :
  lock = bool_decide (is_Some h) || ext → (ext = true → h = None) →
  (if decide (holds' = bool_decide (h = Some i))
   then lock' = lock ∧ (bool_decide (h = Some i) = false → same)
   else lock' = holds' ∧ lock = bool_decide (h = Some i) ∧ (holds' = false → free)) →
  (same → h = None → free) →
  ∃ h', lock' = bool_decide (is_Some h') || ext ∧ bool_decide (h' = Some i) = holds' ∧
    (ext = true → h' = None) ∧ (h' = None → free) ∧
    (h' = h ∧ h ≠ Some i ∧ same ∨ (h = None ∨ h = Some i) ∧ (h' = None ∨ h' = Some i)).
Proof.
  intros Hk Hext Hmv Hfree. destruct (decide (h = Some i)) as [->|Hne].
  - destruct ext; [by specialize (Hext eq_refl)|].
    rewrite bool_decide_eq_true_2 in Hmv by done. destruct holds'; simpl in Hmv.
    + exists (Some i). destruct Hmv as [-> _]. rewrite Hk, !bool_decide_eq_true_2 by done.
      split_and!; [done..|]. right. split; by right.
    + destruct Hmv as (-> & _ & ?). exists None. split_and!; [done|done|done|auto|]. right.
      split; [by right|by left].
  - rewrite (bool_decide_eq_false_2 (h = Some i)) in Hmv by done. destruct holds'; simpl in Hmv.
    + destruct Hmv as (-> & Hk0 & _). rewrite Hk in Hk0. apply orb_false_iff in Hk0 as [Hk0 ->].
      exists (Some i). rewrite !bool_decide_eq_true_2 by done.
      split_and!; [done..|]. right. split; [left|by right].
      apply bool_decide_eq_false in Hk0. destruct h; [|done]. by destruct Hk0.
    + destruct Hmv as [-> Hsame]. exists h. rewrite (bool_decide_eq_false_2 (h = Some i)) by done.
      split_and!; [done|done|done|auto|]. left. auto.
Qed.

(** One turn: nothing happens because the thread is blocked, or the server
    moves and the sequential server moves with it or stays.  [n]: bytes that
    others may append. *)
Lemma turn_sim ext h y A P cs i n :
  server_sim ext h y A P cs → fits A (pending cs + n) → (1023 ≤ line_max)%Z →
  wp (turn fuel i) safe
    (λ _ y', (y' = y ∧ ∀ c, clients y !! i = Some c → blocked y c = true) ∨
       length (clients y') = length (clients y) ∧ all_steps_left y' < all_steps_left y ∧
       ∃ h' A' P' cs', server_sim ext h' y' A' P' cs' ∧ fits A' (pending cs' + n) ∧
         ((A', P', cs') = (A, P, cs) ∨ (A', P', cs') = serve_next (A, P, cs) i)) y.
Proof.
  intros Hy Hfits Hmax. unfold turn. unfold wp at 1.
  destruct (clients y !! i) as [c|] eqn:Hi; [|by left].
  destruct (blocked y c) eqn:Hb; [left; split; [done|]; by intros ? [= <-]|].
  pose proof Hy as [He Hk Hext Hh Hfree Hc Hlen Hcl].
  destruct (lookup_lt_is_Some_2 cs i) as [x Hx]; [rewrite Hlen; by eapply lookup_lt_Some|].
  destruct (Hcl i c x Hi Hx) as [Hok Hsim].
  assert (client_of (point c) (view y c) = c) as Hview by by destruct c.
  assert (wp (thread_step fuel (point c)) safe
    (moved (bool_decide (h = Some i)) (view y c) A P x (point c)) (view y c)) as Hm.
  { apply thread_moves; rewrite ?Hview; [done..|by eapply fits_size|done| | |by destruct c|done]; simpl; rewrite Hk.
    - intros ?%bool_decide_eq_true. apply orb_true_iff. left.
      by apply bool_decide_eq_true_2; eexists.
    - intros [Hn%bool_decide_eq_false _]%orb_false_iff. apply Hfree. destruct h; [|done].
      by destruct Hn. }
  apply wp_safe_inv in Hm as (pt & s & -> & He' & Hok' & Hsteps & holds' & A' & P' & x' & Hm).
  destruct Hm as (Hsim' & Hc' & Hx' & Hmv).
  rewrite Hview in Hsteps. right. simpl clients. split; [by rewrite length_insert|].
  split; [by eapply sum_list_with_insert|].
  destruct (next_holder ext h i holds' (s_lock y) (file_lock s) (settled (file s) A' P')
    (file s = s_file y ∧ A' = A ∧ P' = P)) as (h' & Hk' & Hh' & Hext' & Hf' & Hor); [done|done|done| |].
  { intros (-> & -> & ->). apply Hfree. }
  exists h', A', P', (<[i := x']> cs). rewrite Hk', He'. split; [by eapply server_sim_update|].
  destruct Hx' as [[= -> -> ->]|(pk & todo & out & reply & b & -> & Hpk & Hserve & ->)].
  - rewrite list_insert_id by done. split; [done|by left].
  - split; [|right; unfold serve_next; by rewrite Hx, Hserve].
    eapply (serve_packet_fits A P pk); [done|done| |done]. eapply fits_less; [exact Hfits|].
    rewrite Nat.add_assoc. apply Nat.add_le_mono_r. eapply pending_insert; [done|].
    destruct b; simpl; lia.
Qed.

(** *** Schedules *)

Lemma serve_order_app order order' (st : serial F) :
  serve_order (order ++ order') st = serve_order order' (serve_order order st).
Proof. apply foldl_app. Qed.

(** Somebody can move, unless everybody has returned. *)
Lemma no_deadlock h y A P cs :
  server_sim false h y A P cs → (∀ i c, clients y !! i = Some c → blocked y c = true) →
  h = None ∧ Forall (λ c, point c = Finished) (clients y).
Proof.
  intros [_ Hk _ Hh _ _ Hlen Hcl] Hb. rewrite orb_false_r in Hk. assert (h = None) as ->.
  { destruct h as [i|]; [exfalso|done]. pose proof (Hh i eq_refl) as Hi.
    destruct (lookup_lt_is_Some_2 _ _ Hi) as [c Hc].
    rewrite <-Hlen in Hi. destruct (lookup_lt_is_Some_2 _ _ Hi) as [x Hx].
    destruct (Hcl i c x Hc Hx) as [_ Hsim]. rewrite bool_decide_eq_true_2 in Hsim by done.
    specialize (Hb i c Hc). unfold blocked, point_sim in *. by destruct (point c), Hsim. }
  split; [done|]. apply Forall_lookup. intros i c Hc. specialize (Hb i c Hc).
  unfold blocked in Hb. rewrite Hk in Hb. by destruct (point c).
Qed.

(** The sequential server, from [st], has taken some packets and is where the
    [n] threads of [y] are. *)
Definition reached n (st : serial F) y : Prop :=
  length (clients y) = n ∧ ∃ h A P cs order,
    server_sim false h y A P cs ∧ fits A (pending cs) ∧ (A, P, cs) = serve_order order st.

Definition waits y i : Prop := ∀ c, clients y !! i = Some c → blocked y c = true.
Definition all_finished y : Prop := Forall (λ c, point c = Finished) (clients y).

Lemma turn_reached n st y i :
  (1023 ≤ line_max)%Z → reached n st y →
  wp (turn fuel i) safe
    (λ _ y', reached n st y' ∧ (all_steps_left y' < all_steps_left y ∨ y' = y ∧ waits y i)) y.
Proof.
  intros Hmax (Hn & h & A & P & cs & order & Hy & Hfits & Hst).
  rewrite <-(Nat.add_0_r (pending cs)) in Hfits.
  eapply wp_mono; [by eapply turn_sim|done|]. rewrite Nat.add_0_r in Hfits.
  intros [] y1 [[-> Hb] | (Hlen & Hless & h1 & A1 & P1 & cs1 & Hy1 & Hfits1 & Hst1)].
  { split; [|by right]. split; [done|]. by exists h, A, P, cs, order. }
  split; [|by left]. split; [congruence|]. rewrite Nat.add_0_r in Hfits1.
  destruct Hst1 as [Hst1|Hst1]; [exists h1, A1, P1, cs1, order; by rewrite Hst1|].
  exists h1, A1, P1, cs1, (order ++ [i]). split; [done|]. split; [done|].
  by rewrite serve_order_app, <-Hst.
Qed.

Lemma reached_end n st y : reached n st y → (∀ i, i < n → waits y i) → all_finished y.
Proof.
  intros (Hn & h & A & P & cs & order & Hy & _) Hw.
  eapply no_deadlock; [exact Hy|]. intros i c Hi. apply (Hw i); [|done].
  rewrite <-Hn. by eapply lookup_lt_Some.
Qed.

Lemma finished_stays y i : all_finished y → wp (turn fuel i) safe (λ _ y', y' = y) y.
Proof.
  intros Hf. unfold turn, wp. destruct (clients y !! i) as [c|] eqn:Hi; [|done].
  pose proof (proj1 (Forall_lookup _ _) Hf i c Hi) as Hc. unfold blocked. by rewrite Hc.
Qed.

Lemma run_reached schedule n st y :
  (1023 ≤ line_max)%Z → reached n st y →
  wp (run_threads fuel schedule) safe (λ _ y', reached n st y') y.
Proof.
  intros Hmax Hy. eapply wp_mono; [apply (run_schedule_inv _ (reached n st) all_steps_left waits)|done|].
  - intros i y1. by apply turn_reached.
  - done.
  - by intros _ y' [? _].
Qed.

Lemma run_finished rounds n st y :
  (1023 ≤ line_max)%Z → reached n st y → fair_rounds (λ i, i < n) rounds →
  all_steps_left y ≤ length rounds →
  wp (run_threads fuel (concat rounds)) safe (λ _ y', reached n st y' ∧ all_finished y') y.
Proof.
  intros Hmax Hy Hfair Hsteps.
  by apply (rounds_end _ (reached n st) all_steps_left waits (λ i y1, turn_reached n st y1 i Hmax)
    (λ i, i < n) all_finished (reached_end n st) (λ y1 i _, finished_stays y1 i)).
Qed.
End simulation.
