(* ===== verification/ServerOnDriver.v ===== *)
(** * The server on the driver

    The interface [LogFile] closed with the driver: what a client of the
    server sees of [main.c], from a freshly loaded and opened device, and
    concrete runs of the server's theorems on it. *)

From S2P Require Import Prelude Memory CircularBuffer DeviceSpec Kernel CharDriver.
From S2P Require Import CharDriverSpec CharDriverInv CharDriverWrite CharDriverSeek CharDriverModule.
From S2P Require Import CharDriverClient CharDriverProperties FileOps CharDriverFile.
From S2P Require Import CString Server ServerSpec ServerProperties.

Abbreviation len l := (Z.of_nat (length l)).

(** [open("/dev/aesdchar")] on a freshly loaded module. *)
Definition opened : fd_state := mk_fd boot (aesd_open (mk_file false 0)).2.

(** The thread's state when it is created: the client's packets to come. *)
Definition connected (packets : list (list byte)) (acc : list Z) : srv fd_state :=
  mk_srv opened false (Arrived <$> packets) acc [] false false 0.

Section on_driver.
Context `{K : Kernel} {HK : KernelLaws K} {HR : KernelReliable K}.

Lemma opened_repr : file_repr opened adev_empty 0.
Proof. split; [done|done|done|]. exists []. apply boot_repr. Qed.

Lemma connected_idle packets acc : idle (connected packets acc) adev_empty 0.
Proof. split; try done. apply opened_repr. Qed.

(** The reply to the [k]-th line is the last ten of the first [k] lines. *)
Definition replies (ls : list (list byte)) : list byte :=
  concat ((λ k, concat (lastn max_ops (take k ls))) <$> seq 1 (length ls)).

Lemma serve_plain_lines before ls p :
  Forall plain ls →
  ∃ p' out, serve_packets (ADev (lastn max_ops before) []) p ls
            = (ADev (lastn max_ops (before ++ ls)) [], p', out, false) ∧
    out = concat ((λ k, concat (lastn max_ops (take k (before ++ ls))))
                    <$> seq (S (length before)) (length ls)).
Proof.
  intros Hls. revert before p. induction Hls as [|l ls (Hl & Hn & _ & Hcmd) _ IH]; intros before p.
  { exists p, []. rewrite app_nil_r. done. }
  rewrite serve_one_line by done. unfold answer. rewrite Hcmd.
  cbn [append content device_log_file]. rewrite awrite_line by done. cbn [alines]. rewrite lastn_app_lastn.
  destruct (IH (before ++ [l]) (len (acontent (ADev (lastn max_ops (before ++ [l])) []))))
    as (p' & out & -> & ->).
  rewrite <-!(assoc_L (++)). cbn [app]. eexists _, _. split; [done|].
  rewrite length_app, Nat.add_1_r. cbn [length seq fmap list_fmap concat]. f_equal.
  unfold acontent. cbn [alines]. rewrite drop_0. do 2 f_equal.
  change (before ++ l :: ls) with (before ++ [l] ++ ls). rewrite (assoc_L (++)).
  rewrite take_app_length'; [done|]. rewrite length_app. simpl. lia.
Qed.

(** On a reliable kernel, a client of the freshly loaded system that sends
    lines one by one receives after each of them the last ten lines it has
    sent, whatever the sizes of the socket's writes; the whole stack, from the
    socket buffer to the driver's heap, neither faults nor loops. *)
Theorem lines_come_back_through_the_driver fuel ls acc :
  Forall plain ls → Forall (λ n, 0 ≤ n)%Z acc → (1023 ≤ KMALLOC_MAX_SIZE)%Z →
  1024 + length (concat ls) + length acc + length ls < fuel →
  ∃ s', handle_client_connection fuel (connected ls acc) = Ok () s' ∧
    sent s' = replies ls ∧ file_lock s' = false ∧
    ∃ p, file_repr (file s') (ADev (lastn max_ops ls) []) p.
Proof.
  intros Hls Hacc Hk Hf.
  assert (Forall ordinary (incoming (connected ls acc))) as Hord.
  { simpl. apply Forall_fmap. eapply Forall_impl; [done|]. intros l (Hl & _ & Hlen & _).
    pose proof (is_line_length _ Hl). simpl. lia. }
  assert (1023 ≤ line_max)%Z as Hmax by (simpl; unfold MAX_RW_COUNT; lia).
  assert (enough fuel (connected ls acc) adev_empty) as Hen.
  { simpl incoming. simpl accepts. rewrite packets_arrived, length_fmap. simpl. lia. }
  destruct (wp_safe_inv _ _ _ (handle_client_spec fuel _ _ _ (connected_idle ls acc) Hacc
    Hord Hmax Hen)) as ([] & s' & Hrun & Hs').
  exists s'. split; [done|]. simpl incoming in Hs'. rewrite packets_arrived in Hs'.
  destruct (serve_plain_lines [] ls 0 Hls) as (p' & out & Heq & ->).
  change (ADev (lastn max_ops []) []) with adev_empty in Heq. rewrite Heq in Hs'.
  simpl app in Hs'. naive_solver.
Qed.
End on_driver.

(** ** Concrete runs *)

Section runs.
#[local] Instance run_kernel : Kernel := calm.
#[local] Instance run_laws : KernelLaws run_kernel := sample_kernel_laws _ _ _.
#[local] Instance run_reliable : KernelReliable run_kernel := sample_kernel_reliable.

(** "ab\n", "c\n", and a socket that takes one byte, then nothing, then two. *)
Definition line_ab : list byte := [97; 98; 10]%Z.
Definition line_c : list byte := [99; 10]%Z.
Definition slow : list Z := [1; 0; 2]%Z.

Lemma slow_ok : Forall (λ n, 0 ≤ n)%Z slow.
Proof. repeat constructor; lia. Qed.

Lemma plain_line_ab : plain line_ab.
Proof.
  split_and!; [by exists [97; 98]%Z; split; [|set_solver]|vm_compute; set_solver|vm_compute; lia|done].
Qed.

Lemma plain_line_c : plain line_c.
Proof.
  split_and!; [by exists [99]%Z; split; [|set_solver]|vm_compute; set_solver|vm_compute; lia|done].
Qed.

Lemma lines_come_back_through_the_driver_witness :
  ∃ s', handle_client_connection 2000 (connected [line_ab; line_c] slow) = Ok () s' ∧
    sent s' = [97; 98; 10; 97; 98; 10; 99; 10]%Z.
Proof.
  destruct (lines_come_back_through_the_driver 2000 [line_ab; line_c] slow)
    as (s' & Hrun & Hsent & _).
  - repeat constructor; apply plain_line_ab || apply plain_line_c.
  - apply slow_ok.
  - vm_compute. done.
  - by apply Nat.ltb_lt.
  - exists s'. split; [done|]. rewrite Hsent. vm_compute. reflexivity.
Defined.

Lemma client_is_served_witness :
  wp (handle_client_connection 2000) safe (λ _ s', sent s' = [97; 98; 10]%Z)
    (connected [line_ab] slow).
Proof.
  eapply wp_mono; [apply (client_is_served 2000 _ _ _ (connected_idle [line_ab] slow) slow_ok)|done|].
  - repeat constructor; simpl; unfold in_buffer_size; lia.
  - vm_compute. done.
  - by apply Nat.ltb_lt.
  - intros [] s' Hs. vm_compute (serve_packets _ _ _) in Hs. naive_solver.
Defined.

Lemma line_is_logged_and_answered_witness :
  wp (handle_client_connection 2000) safe (λ _ s', sent s' = [97; 98; 10]%Z)
    (connected [line_ab] slow).
Proof.
  destruct plain_line_ab as (? & ? & ? & ?).
  eapply wp_mono; [apply (line_is_logged_and_answered 2000 _ _ _ line_ab
    (connected_idle [line_ab] slow) slow_ok); try done|done|].
  - by apply Nat.ltb_lt.
  - intros [] s' [Hs _]. done.
Defined.

Lemma seek_command_is_answered_witness :
  wp (handle_client_connection 2000) safe (λ _ s', closed s' = true)
    (connected [seek_command (mk_seekto 3 7)] slow).
Proof.
  eapply wp_mono; [apply (seek_command_is_answered 2000 _ _ _ (mk_seekto 3 7)
    (connected_idle [_] slow) slow_ok); try done|done|].
  - by apply Nat.ltb_lt.
  - intros [] s' (_ & _ & ? & _). done.
Defined.

Lemma split_line_loses_its_start_witness :
  wp (handle_client_connection 2000) safe (λ _ s', sent s' = line_c)
    (connected [[97; 98]%Z; line_c] slow).
Proof.
  destruct plain_line_c as (? & ? & ? & ?).
  eapply wp_mono; [apply (split_line_loses_its_start 2000 _ _ _ [97; 98]%Z line_c
    (connected_idle _ slow) slow_ok); try done|done|].
  - set_solver.
  - by apply Nat.ltb_lt.
  - intros [] s' [Hs _]. done.
Defined.

Lemma read_error_underflows_witness :
  handle_client_connection 9 (set_incoming [Failed 104] (connected [] [])) = Fault OutOfBounds.
Proof. by apply (read_error_underflows 9 _ 104 []); [..|lia]. Defined.
End runs.
