(* ===== verification/ServerStuck.v ===== *)
(** * A lock that is never released ([server/aesdsocket.c])

    [handle_client_connection] returns from the loop that sends the file
    without unlocking [file_lock].  In the thread system of [ServerClients] this
    leaves the lock held by nobody, and from there on no schedule serves
    another packet: the threads receive, and wait. *)

From S2P Require Import Prelude Memory CircularBuffer DeviceSpec Kernel CharDriver.
From S2P Require Import CharDriverSpec CharDriverInv CharDriverWrite CharDriverSeek CharDriverModule.
From S2P Require Import CharDriverClient CharDriverProperties Schedules FileOps CharDriverFile CString.
From S2P Require Import Server ServerSpec ServerProperties ServerClients ServerOnDriver.

Section stuck.
Context {F : Type} {HF : FileOps F} (fuel : nat).
Implicit Types (y : server F) (c : client) (s : srv F).

(** The lock is held, and by no thread that will release it. *)
Definition abandoned y : Prop :=
  s_lock y = true ∧ Forall (λ c, in_packet c = false) (clients y).

(** What stays as it is from then on. *)
Record stuck y y' : Prop := {
  sk_file : s_file y' = s_file y;
  sk_sent : replied <$> clients y' = replied <$> clients y;
  sk_waiting i c n b :
    clients y !! i = Some c → point c = Locking n b → clients y' !! i = Some c }.

#[local] Instance stuck_preorder : PreOrder stuck.
Proof.
  split; [done|]. intros y1 y2 y3 [] []. split; [congruence..|]. intros i c n b Hi Hc.
  by eapply sk_waiting1, Hc; eapply sk_waiting0.
Qed.

(** A read of the socket leaves the file, the lock and the answers alone. *)
Definition same_file s s' : Prop :=
  file s' = file s ∧ file_lock s' = file_lock s ∧ sent s' = sent s.

Lemma poll_exit_total s : wp poll_exit safe (λ _ s', same_file s s') s.
Proof.
  unfold poll_exit. wp_step. apply wp_gets. wp_step.
  destruct (incoming s) as [|[]]; wp_steps; done.
Qed.

Lemma sock_read_total n s : wp (sock_read n) safe (λ _ s', same_file s s') s.
Proof.
  unfold sock_read. wp_step. apply wp_gets. destruct (incoming s) as [|[bs|e|] es]; wp_step; try done.
  case_decide; by wp_steps.
Qed.

Lemma receive_total b s : wp (receive b) safe (λ _ s', same_file s s') s.
Proof.
  unfold receive. wp_step. eapply wp_mono; [apply poll_exit_total|done|].
  intros [|] s1 (Hf & Hk & Hs); [by wp_steps|].
  wp_step. eapply wp_mono; [apply sock_read_total|done|]. intros [[n e] bs] s2 (Hf2 & Hk2 & Hs2).
  assert (same_file s s2) by (split_and!; congruence).
  case_decide; [wp_steps; done|]. case_decide; by wp_steps.
Qed.

(** A turn once the lock is abandoned: at most a read of the socket. *)
Lemma turn_abandoned i y :
  abandoned y → wp (turn fuel i) safe (λ _ y', abandoned y' ∧ stuck y y') y.
Proof.
  intros [Hk Hout]. unfold turn. unfold wp at 1.
  destruct (clients y !! i) as [c|] eqn:Hi; [|by split].
  destruct (blocked y c) eqn:Hb; [by split|].
  pose proof (proj1 (Forall_lookup _ _) Hout i c Hi) as Hc.
  unfold blocked in Hb. rewrite Hk in Hb. unfold in_packet in Hc.
  destruct (point c) as [b|n b|prev b|b|] eqn:Hp; try done.
  assert (wp (thread_step fuel (Receiving b)) safe (λ pt s', same_file (view y c) s' ∧
    in_packet (client_of pt s') = false) (view y c)) as Hstep.
  { cbn [thread_step]. wp_step. eapply wp_mono; [apply receive_total|done|].
    intros r s' Hs. wp_step. by destruct r. }
  apply wp_safe_inv in Hstep as (pt & s' & -> & (Hf & Hk' & Hs) & Hpt). simpl in *. split.
  - split; simpl; [congruence|]. by apply Forall_insert.
  - split; simpl; [done| |].
    + rewrite list_fmap_insert. simpl. rewrite Hs. apply list_insert_id.
      by rewrite list_lookup_fmap, Hi.
    + intros j d n b' Hj Hd. rewrite list_lookup_insert_ne; [done|]. intros ->. congruence.
Qed.

Lemma abandoned_run schedule y :
  abandoned y → wp (run_threads fuel schedule) safe (λ _ y', abandoned y' ∧ stuck y y') y.
Proof.
  revert y. induction schedule as [|i schedule IH]; intros y Hy; simpl; [by wp_step|].
  wp_step. eapply wp_mono; [by apply turn_abandoned|done|]. intros _ y1 [Hy1 H1].
  eapply wp_mono; [by apply IH|done|]. intros _ y2 [Hy2 H2]. split; [done|by etransitivity].
Qed.

(** A thread's steps, taken in turns in which nobody else moves. *)
Lemma run_alone k i y c pt s :
  clients y !! i = Some c → thread_steps fuel k (point c) (view y c) = Ok pt s →
  run_threads fuel (replicate k i) y =
    Ok () (mk_server (file s) (file_lock s) (should_exit s) (<[i := client_of pt s]> (clients y))).
Proof.
  revert y c. induction k as [|k IH]; intros y c Hi Hrun; simpl in *.
  { injection Hrun as <- <-. simpl. rewrite list_insert_id by (by destruct c). by destruct y. }
  apply bind_inv in Hrun as (pt1 & s1 & Hstep & Hrun).
  pose proof (lookup_lt_Some _ _ _ Hi) as Hlt.
  assert (blocked y c = false ∨ point c = Finished) as [Hb|Hfin].
  { unfold blocked. destruct (point c); [by left| |by left|by left|by right]. left.
    destruct (s_lock y) eqn:Hk; [|done]. cbn [thread_step] in Hstep.
    unfold start_packet, file_mutex_lock, mbind, M_bind, gets in Hstep. simpl in Hstep.
    by rewrite Hk in Hstep. }
  - rewrite (bind_Ok _ _ _ () (mk_server (file s1) (file_lock s1) (should_exit s1)
      (<[i := client_of pt1 s1]> (clients y)))).
    + rewrite (IH _ (client_of pt1 s1)); [|by apply list_lookup_insert_eq|by destruct s1].
      simpl. by rewrite list_insert_insert_eq.
    + unfold turn. by rewrite Hi, Hb, Hstep.
  - rewrite Hfin in Hstep. cbn [thread_step] in Hstep. injection Hstep as <- <-.
    rewrite (bind_Ok _ _ _ () y) by (unfold turn, blocked; by rewrite Hi, Hfin).
    apply (IH y c Hi). by rewrite Hfin.
Qed.
End stuck.

Section failed_send.
Context {F : Type} {HF : FileOps F} {HA : LogFile F} (fuel : nat).
Implicit Types (y : server F) (c : client).

(** C28: when the peer of client [i] stops taking data while the file is sent to
    it, its thread returns with [file_lock] held.  From then on, whatever the
    schedule and whatever the clients send, there is no fault, but the lock
    stays taken, the file and the answers stay as they are, and a thread that
    has reached the lock waits there. *)
Theorem failed_send_blocks_every_client y i c a p l es m acc :
  clients y !! i = Some c → point c = Receiving (replicate in_buffer_size NUL) →
  Forall (λ c, in_packet c = false) (clients y) → idle (view y c) a p →
  to_come c = Arrived l :: es → is_line l → NUL ∉ l → length l < in_buffer_size →
  is_command l = false → takes c = m :: acc → (m < 0)%Z → (1023 ≤ line_max)%Z → 1 < fuel →
  ∃ k y1 c1, run_threads fuel (replicate k i) y = Ok () y1 ∧
    clients y1 !! i = Some c1 ∧ point c1 = Finished ∧ complete c1 = 1%Z ∧
    ∀ schedule, ∃ y2, run_threads fuel schedule y1 = Ok () y2 ∧
      s_lock y2 = true ∧ s_file y2 = s_file y1 ∧
      replied <$> clients y2 = replied <$> clients y1 ∧
      ∀ j d n b, clients y1 !! j = Some d → point d = Locking n b → clients y2 !! j = Some d.
Proof.
  intros Hi Hp Hout Hidle Hin Hl Hn Hlen Hcmd Hacc Hm Hmax Hfuel.
  destruct (wp_safe_inv _ _ _ (refused_connection fuel (view y c) a p l es m acc Hidle Hin Hl Hn Hlen
    Hcmd Hacc Hm Hmax Hfuel)) as ([] & s1 & Hrun & Hc & Hd & Hk).
  pose proof (connection_loop_steps fuel fuel (replicate in_buffer_size NUL) (view y c)) as Hsteps.
  unfold steps_as in Hsteps. unfold handle_client_connection in Hrun. rewrite Hrun in Hsteps.
  destruct Hsteps as [k Hsteps]. rewrite <-Hp in Hsteps.
  pose proof (run_alone fuel k i y c _ _ Hi Hsteps) as Halone.
  eexists k, _, _. split; [exact Halone|]. split; [by apply list_lookup_insert_eq, (lookup_lt_Some _ _ c)|].
  split; [done|]. split; [done|]. intros schedule.
  assert (abandoned (mk_server (file s1) (file_lock s1) (should_exit s1)
    (<[i := client_of Finished s1]> (clients y)))) as Hy1.
  { split; [done|]. by apply Forall_insert. }
  destruct (wp_safe_inv _ _ _ (abandoned_run fuel schedule _ Hy1))
    as ([] & y2 & Hrun2 & [Hk2 _] & [Hf2 Hs2 Hw2]).
  exists y2. by split_and!.
Qed.
End failed_send.

(** ** Two clients on the driver, the first of which takes nothing *)

Section runs.
#[local] Instance run_kernel : Kernel := calm.
#[local] Instance run_laws : KernelLaws run_kernel := sample_kernel_laws _ _ _.
#[local] Instance run_reliable : KernelReliable run_kernel := sample_kernel_reliable.

Definition deaf_peer : server fd_state :=
  mk_server opened false false
    [mk_client (Receiving (replicate in_buffer_size NUL)) [Arrived line_ab] [-1]%Z [] false 0;
     mk_client (Receiving (replicate in_buffer_size NUL)) [Arrived line_c] [] [] false 0].

Lemma failed_send_blocks_every_client_witness :
  ∃ k y1, run_threads 9 (replicate k 0) deaf_peer = Ok () y1 ∧
    ∀ n, ∃ y2, run_threads 9 (replicate n 1) y1 = Ok () y2 ∧ s_lock y2 = true ∧
      replied <$> clients y2 = replied <$> clients y1.
Proof.
  destruct plain_line_ab as (? & ? & ? & ?).
  edestruct (failed_send_blocks_every_client 9 deaf_peer 0) as (k & y1 & c1 & Hrun & _ & _ & _ & Hnext).
  - reflexivity.
  - reflexivity.
  - by repeat constructor.
  - split; [apply opened_repr|done..].
  - reflexivity.
  - assumption.
  - assumption.
  - assumption.
  - assumption.
  - reflexivity.
  - lia.
  - by vm_compute.
  - lia.
  - exists k, y1. split; [exact Hrun|]. intros n.
    destruct (Hnext (replicate n 1)) as (y2 & ? & ? & _ & ? & _). by exists y2.
Defined.
End runs.
