(* ===== verification/ServerSerialProperties.v ===== *)
(** * Theorems about several clients ([server/aesdsocket.c])

    For every schedule of the threads: the packets take effect in some order,
    the threads exclude each other, and a fair schedule ends them all.  The
    last section runs two clients on the driver. *)

From S2P Require Import Prelude Memory CircularBuffer DeviceSpec Kernel CharDriver.
From S2P Require Import CharDriverSpec CharDriverInv CharDriverWrite CharDriverSeek CharDriverModule.
From S2P Require Import CharDriverClient CharDriverProperties.
From S2P Require Import Schedules FileOps CharDriverFile CString Server ServerSpec ServerProperties.
From S2P Require Import ServerClients ServerParts ServerSerial ServerOnDriver.

Section clients.
Context {F : Type} {HF : FileOps F} {HA : LogFile F} {HB : LogBound F} (fuel : nat).
Implicit Types (y : server F) (c : client) (a A : log F) (p P : Z).

Definition to_serve y : list (list (list byte) * list byte) :=
  (λ c, (packets_of (to_come c), replied c)) <$> clients y.

(** Threads that have just been created, on a log [a] at position [p]. *)
Record starting y a p : Prop := {
  st_lock : s_lock y = false;
  st_exit : s_exit y = false;
  st_file : settled (s_file y) a p;
  st_whole : whole a;
  st_fits : fits a (pending (to_serve y));
  st_clients : Forall (λ c, point c = Receiving (replicate in_buffer_size NUL) ∧
                            client_ok fuel c) (clients y) }.

Lemma starting_sim y a p : starting y a p → server_sim fuel false None y a p (to_serve y).
Proof.
  intros [Hk He Hf Hc _ Hcl]. split; [done|done|done|done|done|done|by unfold to_serve; rewrite length_fmap|].
  intros i c x Hi Hx. unfold to_serve in Hx. rewrite list_lookup_fmap, Hi in Hx. injection Hx as <-.
  destruct (proj1 (Forall_lookup _ _) Hcl i c Hi) as [Hp Hok]. split; [done|].
  unfold point_sim. rewrite Hp. split_and!; [done|apply length_replicate|done].
Qed.

Lemma starting_reached y a p :
  starting y a p → reached fuel (length (clients y)) (a, p, to_serve y) y.
Proof.
  intros Hy. split; [done|]. exists None, a, p, (to_serve y), [].
  split; [by apply starting_sim|]. split; [apply Hy|done].
Qed.

(** What a client has been sent, and the file, next to the sequential server. *)
Lemma sim_file ext h y A P cs :
  server_sim fuel ext h y A P cs → s_lock y = false → file_repr (s_file y) A P.
Proof.
  intros [_ Hk _ _ Hf _ _ _] Hl. rewrite Hk in Hl. apply orb_false_iff in Hl as [Hl _]. apply Hf.
  apply bool_decide_eq_false in Hl. destruct h; [|done]. by destruct Hl.
Qed.

Lemma sim_replies ext h y A P cs i c :
  server_sim fuel ext h y A P cs → clients y !! i = Some c →
  ∃ todo out, cs !! i = Some (todo, out) ∧
    replied c `prefix_of` out ∧ (s_lock y = false → replied c = out) ∧
    (point c = Finished → todo = [] ∧ replied c = out ∧ fd_closed c = true ∧ complete c = 1%Z).
Proof.
  intros [_ Hk _ _ Hf _ Hlen Hcl] Hi.
  destruct (lookup_lt_is_Some_2 cs i) as [[todo out] Hx]; [rewrite Hlen; by eapply lookup_lt_Some|].
  destruct (Hcl i c _ Hi Hx) as [_ Hsim]. exists todo, out. split; [done|]. unfold point_sim in Hsim.
  assert (s_lock y = false → bool_decide (h = Some i) = false) as Hfree.
  { rewrite Hk. intros [Hh%bool_decide_eq_false _]%orb_false_iff. apply bool_decide_eq_false.
    intros ->. by destruct Hh. }
  destruct (point c).
  - destruct Hsim as (_ & _ & [= -> ->]). by split_and!.
  - destruct Hsim as (_ & bs & b & _ & _ & _ & _ & [= -> ->]). by split_and!.
  - destruct Hsim as (Hh & _ & a0 & p0 & ls & r & out' & gu & _ & [= -> ->]).
    split_and!; [by eexists|intros Hl%Hfree; congruence|done].
  - destruct Hsim as (_ & _ & _ & [= -> ->]). by split_and!.
  - destruct Hsim as (_ & ? & ? & [= -> ->]). by split_and!.
Qed.

(** C10: with clients that behave (the sockets give packets or [EAGAIN] but no
    other error, and take what is sent: [starting]), whatever the schedule, no
    thread faults or loops, and the packets take effect one after the other: for
    some order of them, the file is that of
    the sequential server whenever the lock is free, every client has been
    sent what the sequential server sent it (a client inside a packet, a
    prefix), and a client whose thread has returned has no packet left. *)
Theorem clients_are_serialised schedule y a p :
  starting y a p → (1023 ≤ line_max)%Z →
  ∃ y' order A P cs, run_threads fuel schedule y = Ok () y' ∧
    (A, P, cs) = serve_order order (a, p, to_serve y) ∧
    (s_lock y' = false → file_repr (s_file y') A P) ∧
    ∀ i c, clients y' !! i = Some c → ∃ todo out, cs !! i = Some (todo, out) ∧
      replied c `prefix_of` out ∧ (s_lock y' = false → replied c = out) ∧
      (point c = Finished → todo = [] ∧ replied c = out ∧ fd_closed c = true ∧ complete c = 1%Z).
Proof.
  intros Hstart%starting_reached Hmax.
  destruct (wp_safe_inv _ _ _ (run_reached fuel schedule _ _ _ Hmax Hstart))
    as ([] & y' & Hrun & _ & h & A & P & cs & order & Hy & _ & Hst).
  exists y', order, A, P, cs. split_and!; [done|done|by eapply sim_file|].
  intros i c. by eapply sim_replies.
Qed.

(** C22: mutual exclusion, whatever the clients' sockets do.  From a state where
    nobody is inside a packet no schedule leads to a state in which two clients
    are between lock and unlock, or one is without the lock being held.  With
    clients that behave ([starting]: no read error but [EAGAIN], no failing
    send) every schedule runs, and the lock is held exactly when a client is
    inside a packet; a send that fails breaks this direction only ([ServerStuck]). *)
Theorem packets_exclude_each_other schedule y :
  Forall (λ c, in_packet c = false) (clients y) →
  (∀ y', run_threads fuel schedule y = Ok () y' →
     (∀ i c, clients y' !! i = Some c → in_packet c = true → s_lock y' = true) ∧
     (∀ i j c d, clients y' !! i = Some c → clients y' !! j = Some d →
        in_packet c = true → in_packet d = true → i = j)) ∧
  (∀ a p, starting y a p → (1023 ≤ line_max)%Z →
     ∃ y', run_threads fuel schedule y = Ok () y' ∧
       (s_lock y' = true ↔ ∃ i c, clients y' !! i = Some c ∧ in_packet c = true)).
Proof.
  intros Hout%exclusive_outside. split.
  { intros y' Hrun. destruct (run_threads_exclusive fuel schedule y y' Hout Hrun) as [Hlock Hone _].
    by split. }
  intros a p Hstart%starting_reached Hmax.
  destruct (wp_safe_inv _ _ _ (run_reached fuel schedule _ _ _ Hmax Hstart))
    as ([] & y' & Hrun & _ & h & A & P & cs & order & [_ Hk _ Hh _ _ Hlen Hcl] & _ & _).
  rewrite orb_false_r in Hk. exists y'. split; [done|].
  assert (∀ i c, clients y' !! i = Some c → in_packet c = bool_decide (h = Some i)) as Hin.
  { intros i c Hi. destruct (lookup_lt_is_Some_2 cs i) as [x Hx];
      [rewrite Hlen; by eapply lookup_lt_Some|].
    destruct (Hcl i c x Hi Hx) as [_ Hsim]. unfold in_packet, point_sim in *.
    by destruct (point c), Hsim as [-> _]. }
  rewrite Hk, bool_decide_eq_true. split.
  - intros [i ->]. destruct (lookup_lt_is_Some_2 _ _ (Hh i eq_refl)) as [c Hc].
    exists i, c. by rewrite (Hin i c Hc), bool_decide_eq_true.
  - intros (i & c & Hc & Hp). rewrite (Hin i c Hc), bool_decide_eq_true in Hp. by eexists.
Qed.

(** A schedule in rounds: every thread has a turn in every round. *)
Definition fair (n : nat) : list (list nat) → Prop := fair_rounds (λ i, i < n).

(** When all threads have returned the sequential server has no packet left. *)
Lemma finished_served h y A P cs :
  server_sim fuel false h y A P cs → all_finished y →
  file_repr (s_file y) A P ∧ s_lock y = false ∧ cs = (λ c, ([], replied c)) <$> clients y ∧
  Forall (λ c, point c = Finished ∧ fd_closed c = true ∧ complete c = 1%Z) (clients y).
Proof.
  intros Hy Hfin. destruct (no_deadlock fuel h y A P cs Hy) as [-> _].
  { intros i c Hi. unfold blocked. by rewrite (proj1 (Forall_lookup _ _) Hfin i c Hi). }
  destruct Hy as [_ Hk _ _ Hf _ Hlen Hcl].
  assert (∀ i c x, clients y !! i = Some c → cs !! i = Some x →
    point c = Finished ∧ fd_closed c = true ∧ complete c = 1%Z ∧ x = ([], replied c)) as Hall.
  { intros i c x Hi Hx. destruct (Hcl i c x Hi Hx) as [_ Hsim].
    pose proof (proj1 (Forall_lookup _ _) Hfin i c Hi) as Hp. unfold point_sim in Hsim.
    rewrite Hp in Hsim. by destruct Hsim as (_ & ? & ? & ->). }
  split; [by apply Hf|]. split; [by rewrite Hk|]. split.
  - apply list_eq_same_length with (length cs); [by rewrite length_fmap|done|].
    intros i x x' _ Hx. rewrite list_lookup_fmap. intros (c & Hi & ->)%fmap_Some.
    by destruct (Hall i c x Hi Hx) as (_ & _ & _ & ->).
  - apply Forall_lookup. intros i c Hi.
    destruct (lookup_lt_is_Some_2 cs i) as [x Hx]; [rewrite Hlen; by eapply lookup_lt_Some|].
    by destruct (Hall i c x Hi Hx) as (? & ? & ? & _).
Qed.

Lemma rounds_serve_everyone rounds y a p :
  starting y a p → (1023 ≤ line_max)%Z → fair (length (clients y)) rounds →
  all_steps_left y ≤ length rounds →
  ∃ y' order A P, run_threads fuel (concat rounds) y = Ok () y' ∧
    (A, P, (λ c, ([], replied c)) <$> clients y') = serve_order order (a, p, to_serve y) ∧
    file_repr (s_file y') A P ∧ s_lock y' = false ∧ length (clients y') = length (clients y) ∧
    Forall (λ c, point c = Finished ∧ fd_closed c = true ∧ complete c = 1%Z) (clients y').
Proof.
  intros Hstart%starting_reached Hmax Hfair Hsteps.
  destruct (wp_safe_inv _ _ _ (run_finished fuel rounds _ _ _ Hmax Hstart Hfair Hsteps))
    as ([] & y' & Hrun & (Hn & h & A & P & cs & order & Hy & _ & Hst) & Hfin).
  destruct (finished_served h y' A P cs Hy Hfin) as (? & ? & -> & ?).
  by exists y', order, A, P.
Qed.

(** C16: clients that behave are all served.  The condition is [starting]: no
    socket gives an error other than [EAGAIN], none refuses what is sent, nobody
    sets [should_exit], and the packets fit the file.  (After a failing send no
    other client is served any more: [ServerStuck].)  Then under a fair schedule
    every thread returns: when each thread has had as many turns as there are
    steps to make, all packets of all clients are served, every client has its
    answers, every socket is closed, every thread reports itself done and the
    lock is free. *)
Theorem every_client_is_served rounds y a p :
  starting y a p → (1023 ≤ line_max)%Z → fair (length (clients y)) rounds →
  all_steps_left y ≤ length rounds →
  ∃ y' order A P, run_threads fuel (concat rounds) y = Ok () y' ∧
    (A, P, (λ c, ([], replied c)) <$> clients y') = serve_order order (a, p, to_serve y) ∧
    file_repr (s_file y') A P ∧ s_lock y' = false ∧ length (clients y') = length (clients y) ∧
    Forall (λ c, point c = Finished ∧ fd_closed c = true ∧ complete c = 1%Z) (clients y').
Proof. apply rounds_serve_everyone. Qed.
End clients.

(** ** Clients that send lines *)

(** Lines in the order in which they took effect, each with its client. *)
Definition lines_of (i : nat) (merged : list (nat * list byte)) : list (list byte) :=
  (filter (λ t, t.1 = i) merged).*2.

(** A thread that has just been created, for a client with its packets and the
    sizes its socket accepts. *)
Definition accepted (peer : list (list byte) * list Z) : client :=
  mk_client (Receiving (replicate in_buffer_size NUL)) (Arrived <$> peer.1) peer.2 [] false 0.

Definition polite (peer : list (list byte) * list Z) : Prop :=
  Forall plain peer.1 ∧ Forall (λ n, 0 ≤ n)%Z peer.2.

Definition started {F} (f : F) (peers : list (list (list byte) * list Z)) : server F :=
  mk_server f false false (accepted <$> peers).

Lemma started_steps {F} (f : F) peers :
  all_steps_left (started f peers) = sum_list_with (λ peer, 1030 * length peer.1 + 1) peers.
Proof.
  unfold all_steps_left, started. cbn [clients].
  induction peers as [|peer peers IH]; [done|]. cbn [fmap list_fmap sum_list_with].
  rewrite <-IH. f_equal. unfold steps_left. cbn [accepted point to_come]. by rewrite length_fmap.
Qed.

Lemma started_pending {F} (f : F) peers :
  pending (to_serve (started f peers)) = sum_list_with (λ peer, length (concat peer.1)) peers.
Proof.
  unfold pending, to_serve, started. cbn [clients].
  induction peers as [|peer peers IH]; [done|]. cbn [fmap list_fmap sum_list_with].
  rewrite <-IH. simpl. by rewrite packets_arrived.
Qed.

Section shared_log.
Context {F : Type} {HF : FileOps F} {HA : LogFile F} {HB : LogBound F} (fuel : nat).
Implicit Types (a : log F) (f : F).

(** What client [i] receives: after each of its lines the whole log. *)
Fixpoint log_replies (i : nat) a (merged : list (nat * list byte)) : list byte :=
  match merged with
  | [] => []
  | (j, l) :: merged =>
     (if decide (i = j) then content (append a l) else []) ++ log_replies i (append a l) merged
  end.

Lemma serve_plain_packet a p l :
  plain l →
  serve_packet a p l = (append a l, len (content (append a l)), content (append a l), false).
Proof.
  intros (Hl & Hn & _ & Hcmd). unfold serve_packet.
  assert (c_string l = l) as -> by (rewrite <-(app_nil_r l) at 1; by rewrite c_string_app, app_nil_r).
  rewrite <-(app_nil_r l), split_lines_cons_line, app_nil_r by done. cbn [split_lines fst snd serve_lines].
  unfold answer. rewrite Hcmd. by rewrite drop_0, app_nil_r.
Qed.

Lemma serve_order_plain order a p cs :
  Forall (λ x, Forall plain x.1) cs →
  ∃ merged p' cs', serve_order order (a, p, cs) = (foldl append a merged.*2, p', cs') ∧
    Forall (λ t, t.1 < length cs ∧ plain t.2) merged ∧
    ∀ i todo out, cs !! i = Some (todo, out) → ∃ todo',
      cs' !! i = Some (todo', out ++ log_replies i a merged) ∧
      todo = lines_of i merged ++ todo'.
Proof.
  revert a p cs. induction order as [|j order IH]; intros a p cs Hcs.
  { exists [], p, cs. split_and!; [done|done|]. intros i todo out ?. exists todo. by rewrite app_nil_r. }
  cbn [serve_order foldl]. fold (serve_order (F := F) order). unfold serve_next at 2.
  destruct (cs !! j) as [[[|l todo] out]|] eqn:Hj; [by apply IH| |by apply IH].
  pose proof (proj1 (Forall_lookup _ _) Hcs _ _ Hj) as [Hl Hrest]%Forall_cons.
  rewrite serve_plain_packet by done.
  destruct (IH (append a l) (len (content (append a l))) (<[j := (todo, out ++ content (append a l))]> cs))
    as (merged & p' & cs' & Hrun & Hmerged & Hall); [by apply Forall_insert|].
  rewrite length_insert in Hmerged. exists ((j, l) :: merged), p', cs'. split; [exact Hrun|].
  split; [constructor; [split; [by eapply lookup_lt_Some|done]|done]|].
  intros i todo' out' Hi. pose proof (lookup_lt_Some _ _ _ Hj). unfold lines_of. simpl.
  destruct (decide (i = j)) as [->|Hne].
  - rewrite Hi in Hj. injection Hj as -> ->.
    destruct (Hall j todo (out ++ content (append a l))) as (todo' & Hc & Ht).
    { by apply list_lookup_insert_eq. }
    exists todo'. rewrite filter_cons_True by done. split; [by rewrite (assoc_L (++))|].
    simpl. by rewrite Ht.
  - rewrite filter_cons_False by (simpl; congruence). apply Hall. by rewrite list_lookup_insert_ne.
Qed.

Lemma started_starting f a p peers :
  settled f a p → whole a → fits a (sum_list_with (λ peer, length (concat peer.1)) peers) →
  Forall polite peers →
  Forall (λ peer, 1024 + size_max + in_buffer_size + length peer.2 < fuel) peers →
  starting fuel (started f peers) a p.
Proof.
  intros Hfile Ha Hfits Hp Hf. split; [done|done|done|done|by rewrite started_pending|].
  simpl. apply Forall_fmap, Forall_forall. intros peer Hin.
  pose proof (proj1 (Forall_forall _ _) Hp _ Hin) as [Hls Hacc].
  split; [done|]. split; [|done|exact (proj1 (Forall_forall _ _) Hf _ Hin)].
  simpl. apply Forall_fmap. eapply Forall_impl; [exact Hls|]. intros l (Hl & _ & Hlen & _).
  pose proof (is_line_length _ Hl). simpl. lia.
Qed.

(** What the sequential server has done when nothing is left to serve, next to
    clients [others] it is asked to serve as well. *)
Lemma started_served order f a p A P peers served others others' :
  Forall polite peers → Forall (λ x, Forall plain x.1) others → length served = length peers →
  (A, P, ((λ c, ([], replied c)) <$> served) ++ others') =
    serve_order order (a, p, to_serve (started f peers) ++ others) →
  ∃ merged, A = foldl append a merged.*2 ∧
    Forall (λ t, t.1 < length peers + length others ∧ plain t.2) merged ∧
    (∀ i peer, peers !! i = Some peer → lines_of i merged = peer.1 ∧
       ∃ c, served !! i = Some c ∧ replied c = log_replies i a merged) ∧
    ∀ k todo out, others !! k = Some (todo, out) → ∃ todo',
      others' !! k = Some (todo', out ++ log_replies (length peers + k) a merged) ∧
      todo = lines_of (length peers + k) merged ++ todo'.
Proof.
  intros Hp Ho Hn Hst. assert (length (to_serve (started f peers)) = length peers) as Hlen.
  { unfold to_serve, started. cbn [clients]. by rewrite !length_fmap. }
  destruct (serve_order_plain order a p (to_serve (started f peers) ++ others))
    as (merged & p' & cs' & Hserve & Hmerged & Hall).
  { apply Forall_app. split; [|done]. unfold to_serve. apply Forall_fmap, Forall_fmap.
    eapply Forall_impl; [exact Hp|]. intros peer [Hpl _]. simpl. by rewrite packets_arrived. }
  rewrite Hserve in Hst. injection Hst as -> -> <-. rewrite length_app, Hlen in Hmerged.
  exists merged. split_and!; [done|done| |].
  - intros i peer Hi. pose proof (lookup_lt_Some _ _ _ Hi) as Hlt.
    destruct (Hall i peer.1 []) as (todo & Hc & ->).
    { rewrite lookup_app_l by lia. unfold to_serve. simpl. rewrite !list_lookup_fmap, Hi. simpl.
      by rewrite packets_arrived. }
    rewrite lookup_app_l in Hc by (rewrite length_fmap; lia).
    rewrite list_lookup_fmap in Hc. apply fmap_Some in Hc as (c & Hc & [= -> Hrep]).
    rewrite app_nil_r. split; [done|]. by exists c.
  - intros k todo out Hk. destruct (Hall (length peers + k) todo out) as (todo' & Hc & Ht).
    { rewrite lookup_app_r, Hlen by lia. by replace (length peers + k - length peers) with k by lia. }
    exists todo'. split; [|done]. rewrite lookup_app_r, length_fmap, Hn in Hc by (rewrite length_fmap; lia).
    by replace (length peers + k - length peers) with k in Hc by lia.
Qed.

(** Any number of clients that send lines, under any fair schedule, see one
    log. *)
Lemma clients_share_a_log f a p rounds peers :
  starting fuel (started f peers) a p → Forall polite peers → (1023 ≤ line_max)%Z →
  fair (length peers) rounds →
  sum_list_with (λ peer, 1030 * length peer.1 + 1) peers ≤ length rounds →
  ∃ y' merged, run_threads fuel (concat rounds) (started f peers) = Ok () y' ∧
    (∃ p, file_repr (s_file y') (foldl append a merged.*2) p) ∧ s_lock y' = false ∧
    Forall (λ t, t.1 < length peers ∧ plain t.2) merged ∧
    ∀ i peer, peers !! i = Some peer → lines_of i merged = peer.1 ∧
      ∃ c, clients y' !! i = Some c ∧ point c = Finished ∧ replied c = log_replies i a merged.
Proof.
  intros Hstart Hp Hk Hfair Hsteps.
  destruct (rounds_serve_everyone fuel rounds _ _ _ Hstart Hk) as (y' & order & A & P & Hrun & Hst & Hf' & Hl & Hn & Hfin).
  { simpl. by rewrite length_fmap. }
  { by rewrite started_steps. }
  unfold started in Hn. cbn [clients] in Hn. rewrite length_fmap in Hn.
  rewrite <-(app_nil_r (_ <$> _)), <-(app_nil_r (to_serve _)) in Hst.
  destruct (started_served order f a p A P peers (clients y') [] [] Hp) as (merged & -> & Hmerged & Hall & _);
    [done..|].
  rewrite Nat.add_0_r in Hmerged. exists y', merged. split_and!; [done|by eexists|done|done|].
  intros i peer Hi. destruct (Hall i peer Hi) as (? & c & Hc & ?). split; [done|]. exists c.
  by destruct (proj1 (Forall_lookup _ _) Hfin i c Hc) as [? _].
Qed.
End shared_log.

(** ** Several clients on the driver *)

(** After each of its lines a client receives the last ten lines of everybody.
    [before]: the lines already there. *)
Fixpoint answers_to (i : nat) (before : list (list byte)) (merged : list (nat * list byte)) :
    list byte :=
  match merged with
  | [] => []
  | (j, l) :: merged =>
     (if decide (i = j) then concat (lastn max_ops (before ++ [l])) else []) ++
     answers_to i (before ++ [l]) merged
  end.

Section shared_driver.
Context `{K : Kernel} {HK : KernelLaws K} {HR : KernelReliable K}.

Definition content_max : nat := max_ops * in_buffer_size.

(** Ten short lines, whatever is appended. *)
#[export] Program Instance device_bound : LogBound fd_state := {|
  size_max := content_max;
  fits a _ := adev_wf a ∧ apart a = [] ∧ Forall short (alines a) |}.
Next Obligation.
  intros a _ ([_ Hn _] & Hp & Hs). cbn [content device_log_file].
  assert (length (acontent a) ≤ length (alines a) * in_buffer_size) as Hc.
  2: { etrans; [exact Hc|]. by apply Nat.mul_le_mono_r. }
  unfold acontent. clear Hn. induction Hs as [|l ls Hl Hs IH]; [simpl; lia|].
  cbn [concat length]. rewrite length_app, Nat.mul_succ_l. unfold short in Hl. lia.
Qed.
Next Obligation. done. Qed.
Next Obligation.
  intros a l n Ha Hl Hsl (Hwf & _ & Hs). cbn [append device_log_file].
  split; [by apply awrite_wf|]. rewrite awrite_line by done. split; [done|].
  apply Forall_lastn, Forall_app. auto.
Qed.

Lemma opened_starting fuel peers :
  Forall polite peers →
  Forall (λ peer, 1024 + content_max + in_buffer_size + length peer.2 < fuel) peers →
  starting fuel (started opened peers) adev_empty 0.
Proof.
  intros. apply started_starting; [split; [apply opened_repr|done]|done| |done|done].
  split; [apply adev_empty_wf|by split].
Qed.

Lemma driver_log before ls :
  Forall is_line ls →
  foldl append (ADev (lastn max_ops before) []) ls = ADev (lastn max_ops (before ++ ls)) [].
Proof.
  intros Hls. revert before. induction Hls as [|l ls Hl _ IH]; intros before; simpl.
  { by rewrite app_nil_r. }
  rewrite awrite_line by done. cbn [alines]. rewrite lastn_app_lastn, IH.
  by rewrite <-(assoc_L (++)).
Qed.

Lemma driver_replies i before merged :
  Forall (λ t, is_line t.2) merged →
  log_replies i (ADev (lastn max_ops before) []) merged = answers_to i before merged.
Proof.
  intros Hls. revert before. induction Hls as [|[j l] merged Hl _ IH]; intros before; [done|].
  simpl in Hl. cbn [log_replies answers_to append content device_log_file].
  rewrite awrite_line by done. cbn [alines]. rewrite lastn_app_lastn, IH. done.
Qed.

(** C5: on a reliable kernel any number of clients that send lines, under any
    fair schedule, see one log: there is an order of all lines in which every
    client's lines keep their order, after each of its lines a client receives
    the last ten lines of that order so far, and the device keeps the last ten
    of all. *)
Theorem clients_share_the_driver fuel rounds peers :
  Forall polite peers →
  Forall (λ peer, 1024 + content_max + in_buffer_size + length peer.2 < fuel) peers →
  (1023 ≤ KMALLOC_MAX_SIZE)%Z → fair (length peers) rounds →
  sum_list_with (λ peer, 1030 * length peer.1 + 1) peers ≤ length rounds →
  ∃ y' merged, run_threads fuel (concat rounds) (started opened peers) = Ok () y' ∧
    (∃ p, file_repr (s_file y') (ADev (lastn max_ops merged.*2) []) p) ∧ s_lock y' = false ∧
    Forall (λ t, t.1 < length peers) merged ∧
    ∀ i peer, peers !! i = Some peer → lines_of i merged = peer.1 ∧
      ∃ c, clients y' !! i = Some c ∧ point c = Finished ∧ replied c = answers_to i [] merged.
Proof.
  intros Hp Hf Hk Hfair Hsteps.
  destruct (clients_share_a_log (HA := device_log_file) fuel opened adev_empty 0 rounds peers)
    as (y' & merged & Hrun & [p Hfile] & Hl & Hmerged & Hall); [by apply opened_starting|done| |done|done|].
  { simpl. unfold MAX_RW_COUNT. lia. }
  assert (Forall (λ t, is_line t.2) merged) as Hlines.
  { eapply Forall_impl; [exact Hmerged|]. by intros t (_ & ? & _). }
  change adev_empty with (ADev (lastn max_ops []) []) in *.
  rewrite driver_log in Hfile by (by apply Forall_fmap).
  exists y', merged. split_and!; [done|by exists p|done| |].
  { eapply Forall_impl; [exact Hmerged|]. by intros t [? _]. }
  intros i peer Hi. destruct (Hall i peer Hi) as (? & c & ? & ? & Hrep).
  rewrite driver_replies in Hrep by done. split; [done|]. by exists c.
Qed.
End shared_driver.

(** ** Concrete runs: two clients, the first of which takes little at a time *)

Section runs.
#[local] Instance run_kernel : Kernel := calm.
#[local] Instance run_laws : KernelLaws run_kernel := sample_kernel_laws _ _ _.
#[local] Instance run_reliable : KernelReliable run_kernel := sample_kernel_reliable.

Definition peers : list (list (list byte) * list Z) := [([line_ab], slow); ([line_c], [])].

Lemma peers_polite : Forall polite peers.
Proof.
  apply Forall_cons; split; [|apply Forall_singleton].
  - split; [apply Forall_singleton, plain_line_ab|apply slow_ok].
  - split; [apply Forall_singleton, plain_line_c|by apply Forall_nil].
Qed.

Definition plenty : nat := 2000 + content_max + in_buffer_size.

Lemma peers_fuel : Forall (λ peer, 1024 + content_max + in_buffer_size + length peer.2 < plenty) peers.
Proof.
  unfold plenty. generalize content_max in_buffer_size. intros m n.
  apply Forall_cons; split; [cbn [snd length slow]; lia|].
  apply Forall_cons; split; [cbn [snd length]; lia|apply Forall_nil; done].
Qed.

Lemma peers_started : starting plenty (started opened peers) adev_empty 0.
Proof. apply opened_starting; [apply peers_polite|apply peers_fuel]. Qed.

Lemma run_line_max : (1023 ≤ line_max)%Z.
Proof. by vm_compute. Qed.

Definition alternating : list (list nat) := replicate 2062 [0; 1].

Lemma alternating_fair : fair 2 alternating.
Proof.
  apply Forall_replicate. intros i Hi. destruct i as [|[|i]]; [left|right; left|lia].
Qed.

Lemma clients_share_the_driver_witness :
  ∃ y' merged, run_threads plenty (concat alternating) (started opened peers) = Ok () y' ∧
    lines_of 0 merged = [line_ab] ∧ lines_of 1 merged = [line_c].
Proof.
  destruct (clients_share_the_driver plenty alternating peers peers_polite peers_fuel)
    as (y' & merged & Hrun & _ & _ & _ & Hall).
  - by vm_compute.
  - apply alternating_fair.
  - unfold alternating. rewrite length_replicate. by apply Nat.leb_le.
  - exists y', merged. split; [done|]. split.
    + by destruct (Hall 0 ([line_ab], slow) eq_refl) as [? _].
    + by destruct (Hall 1 ([line_c], []) eq_refl) as [? _].
Defined.

Lemma every_client_is_served_witness :
  ∃ y', run_threads plenty (concat alternating) (started opened peers) = Ok () y' ∧
    Forall (λ c, point c = Finished ∧ fd_closed c = true ∧ complete c = 1%Z) (clients y').
Proof.
  destruct (every_client_is_served plenty alternating _ _ _ peers_started run_line_max)
    as (y' & _ & _ & _ & Hrun & _ & _ & _ & _ & Hfin).
  - apply alternating_fair.
  - rewrite started_steps. unfold alternating. rewrite length_replicate. by apply Nat.leb_le.
  - exists y'. by split.
Defined.

Lemma clients_are_serialised_witness :
  ∃ y', run_threads plenty [0; 1; 0; 1; 1; 0; 1] (started opened peers) = Ok () y'.
Proof.
  destruct (clients_are_serialised plenty [0; 1; 0; 1; 1; 0; 1] _ _ _ peers_started run_line_max)
    as (y' & _ & _ & _ & _ & Hrun & _). by exists y'.
Defined.

(** A client whose peer takes nothing: its thread leaves the lock held. *)
Definition refuses : client :=
  mk_client (Receiving (replicate in_buffer_size NUL)) [Arrived line_ab] [-1]%Z [] false 0.

Lemma packets_exclude_each_other_witness :
  (∃ y', run_threads plenty [0; 1; 0; 1; 1; 0; 1] (started opened peers) = Ok () y' ∧
     (s_lock y' = true ↔ ∃ i c, clients y' !! i = Some c ∧ in_packet c = true)) ∧
  ∃ y', run_threads plenty [0; 1; 0; 1; 0; 1] (mk_server opened false false [refuses; refuses]) = Ok () y' ∧
    s_lock y' = true ∧
    ∀ c d, clients y' !! 0 = Some c → clients y' !! 1 = Some d →
      in_packet c = true → in_packet d = true → 0 = 1.
Proof.
  split.
  - destruct (packets_exclude_each_other plenty [0; 1; 0; 1; 1; 0; 1] (started opened peers)) as [_ H].
    { by repeat constructor. }
    exact (H _ _ peers_started run_line_max).
  - set (y := mk_server opened false false [refuses; refuses]).
    destruct (run_threads plenty [0; 1; 0; 1; 0; 1] y) as [[] y'|e|] eqn:Hrun;
      [|exfalso; by vm_compute in Hrun..].
    exists y'. split; [done|]. split; [vm_compute in Hrun; by injection Hrun as <-|].
    intros c d Hc Hd.
    refine (proj2 (proj1 (packets_exclude_each_other plenty [0; 1; 0; 1; 0; 1] y _) y' Hrun) 0 1 c d Hc Hd).
    by repeat constructor.
Defined.
End runs.
