(* ===== verification/ServerTimer.v ===== *)
(** * The timer among the clients ([server/aesdsocket.c])

    In a build for a regular file the thread of [timer] writes to the file the
    connection threads write to, under the same lock.  The thread is cut in
    front of the lock, behind it, and around the unlock, and its turns come
    between those of [ServerClients].  What the clients and the timer do to the
    file is what the sequential server of [ServerSerial] does with one more
    client, whose packets are the timestamps and who does not listen. *)

From Stdlib Require Import String.
From S2P Require Import Prelude Memory CircularBuffer DeviceSpec Kernel CharDriver.
From S2P Require Import CharDriverSpec CharDriverSeek Schedules FileOps CString Calendar Server.
From S2P Require Import ServerSpec ServerProperties RegularFile Timer ServerClients ServerParts ServerSerial.
From S2P Require Import ServerOnDriver ServerSerialProperties.

(** What the timer does next, with its [out_buffer]. *)
Inductive timer_point :=
  | Created (out_buffer : list byte)
  | Waking (out_buffer : list byte)
  | Formatted (out_buffer : list byte)
  | Holding (out_buffer : list byte)
  | Written (out_buffer : list byte)
  | Stopped.

(** The thread with what [time] will return to it, one value for each turn of
    its loop; without another value it stays in [sleep]. *)
Record clock := mk_clock { t_point : timer_point; nows : list Z }.

(** The server with its timer. *)
Record site (F : Type) := mk_site { base : server F; timer_thread : clock }.
Arguments mk_site {F} _ _.
Arguments base {F} _.
Arguments timer_thread {F} _.

Section steps.
Context {F : Type} {HF : FileOps F} (utc_offset : Z → Z) (unspecified : list byte) (fuel : nat).
Abbreviation C := (M (srv F)).

Definition timer_step (t : clock) : C clock :=
  match t_point t with
  | Created out_buffer =>
     out_buffer ← store out_buffer 0 preamble;
     mret (mk_clock (Waking out_buffer) (nows t))
  | Waking out_buffer =>
     match nows t with
     | [] => mret t
     | now :: nows =>
        exiting ← gets should_exit;
        if (exiting : bool) then mret (mk_clock Stopped nows)
        else
          out_buffer ← format_stamp utc_offset unspecified now out_buffer;
          mret (mk_clock (Formatted out_buffer) nows)
     end
  | Formatted out_buffer => file_mutex_lock;; mret (mk_clock (Holding out_buffer) (nows t))
  | Holding out_buffer => write_stamp out_buffer;; mret (mk_clock (Written out_buffer) (nows t))
  | Written out_buffer => file_mutex_unlock;; mret (mk_clock (Waking out_buffer) (nows t))
  | Stopped => mret t
  end.

Definition asleep (t : clock) : bool :=
  match t_point t, nows t with Waking _, [] => true | _, _ => false end.

(** The thread has returned, waits for the lock, or sleeps. *)
Definition timer_waits (y : server F) (t : clock) : bool :=
  match t_point t with Stopped => true | Formatted _ => s_lock y | _ => asleep t end.

(** The timer has no socket. *)
Definition timer_view (y : server F) : srv F :=
  mk_srv (s_file y) (s_lock y) [] [] [] (s_exit y) false 0.

(** A turn of client [i], or of the timer. *)
Definition site_turn (who : option nat) : M (site F) () := λ w,
  match who with
  | Some i =>
     match turn fuel i (base w) with
     | Ok _ y => Ok () (mk_site y (timer_thread w))
     | Fault e => Fault e
     | Diverge => Diverge
     end
  | None =>
     if timer_waits (base w) (timer_thread w) then Ok () w
     else match timer_step (timer_thread w) (timer_view (base w)) with
          | Ok t s => Ok () (mk_site (mk_server (file s) (file_lock s) (should_exit s)
                                        (clients (base w))) t)
          | Fault e => Fault e
          | Diverge => Diverge
          end
  end.

Definition run_site : list (option nat) → M (site F) () := run_schedule site_turn.

(** *** The steps are those of [timer] *)

(** Where the thread is when the function has ended in [r]. *)
Definition timer_at (r : timer_state) t : Prop :=
  match r with Asleep => asleep t = true | Returned => t_point t = Stopped end.

Lemma tick_steps now nows buf s :
  should_exit s = false →
  steps_as timer_step (mk_clock (Waking buf) (now :: nows))
    (tick utc_offset unspecified now buf) (λ buf, mk_clock (Waking buf) nows) s.
Proof.
  intros He. unfold tick.
  apply (steps_as_bind _ _ _ _ (λ buf, mk_clock (Formatted buf) nows)).
  { cbn [timer_step t_point ServerTimer.nows].
    rewrite (bind_Ok _ _ s false s) by (unfold gets; by rewrite He). done. }
  intros buf1 s1.
  apply (steps_as_bind _ _ _ _ (λ _, mk_clock (Holding buf1) nows)); [done|]. intros [] s2.
  apply (steps_as_bind _ _ _ _ (λ _, mk_clock (Written buf1) nows)); [done|]. intros [] s3.
  apply (steps_as_bind _ _ _ _ (λ _, mk_clock (Waking buf1) nows)); [done|]. intros [] s4.
  apply (steps_as_ret timer_step buf1 (λ buf, mk_clock (Waking buf) nows)).
Qed.

(** The steps of the thread, taken alone, are the function. *)
Lemma timer_loop_steps nows buf s :
  match timer_loop utc_offset unspecified nows buf s with
  | Ok r s' => ∃ k t, steps timer_step k (mk_clock (Waking buf) nows) s = Ok t s' ∧ timer_at r t
  | Fault e => ∃ k, steps timer_step k (mk_clock (Waking buf) nows) s = Fault e
  | Diverge => True
  end.
Proof.
  revert buf s. induction nows as [|now nows IH]; intros buf s; cbn [timer_loop].
  { by exists 0, (mk_clock (Waking buf) []). }
  destruct (should_exit s) eqn:He.
  { rewrite (bind_Ok _ _ s true s) by (unfold gets; by rewrite He).
    exists 1, (mk_clock Stopped nows). split; [|done]. cbn [steps timer_step t_point ServerTimer.nows].
    unfold mbind, M_bind, gets. by rewrite He. }
  rewrite (bind_Ok _ _ s false s) by (unfold gets; by rewrite He).
  pose proof (tick_steps now nows buf s He) as Ht. unfold steps_as in Ht.
  unfold mbind at 1, M_bind at 1.
  destruct (tick utc_offset unspecified now buf s) as [buf' s'|e|]; [|done..].
  destruct Ht as [k Hk]. specialize (IH buf' s').
  destruct (timer_loop utc_offset unspecified nows buf' s') as [r s2|e|]; [| |done].
  - destruct IH as (k' & t & Hk' & Ht). exists (k + k'), t. by rewrite (steps_app _ _ _ _ _ _ _ Hk).
  - destruct IH as [k' Hk']. exists (k + k'). by rewrite (steps_app _ _ _ _ _ _ _ Hk).
Qed.
End steps.

(** ** A file that keeps everything

    The position behind a write is the end of the file. *)
Class KeepsAll (F : Type) `{LogFile F} := {
  append_end a p l :
    at_end a p → whole a → is_line l → (p + len l)%Z = len (content (append a l)) }.

#[export] Instance regular_keeps_all : KeepsAll regular_file.
Proof. split. intros a p l -> _ _. simpl. rewrite length_app. lia. Qed.

Lemma stamp_plain x : tm_wf x → plain (stamp x).
Proof.
  intros Hx. destruct (stamp_line x) as [Hl H0]. pose proof (stamp_length x Hx).
  split_and!; [done|done|unfold max_stamp, in_buffer_size in *; lia|].
  unfold is_command. apply bool_decide_eq_false. by intros [=].
Qed.

(** ** The simulation *)

Section simulation.
Context {F : Type} {HF : FileOps F} {HA : LogFile F} {HK : KeepsAll F} {HB : LogBound F}.
Context (utc_offset : Z → Z) (unspecified : list byte) (fuel : nat).
Implicit Types (w : site F) (y : server F) (t : clock) (a A : log F) (p P : Z) (xs : list tm).

Definition times (nows : list Z) xs : Prop :=
  Forall2 (λ now x, localtime utc_offset now = Some x) nows xs.

(** [xs]: the times the timer has not written yet.  [ext]: it holds the lock. *)
Definition clock_sim (ext : bool) t xs : Prop :=
  match t_point t with
  | Created buf => ext = false ∧ length buf = sizeof_out_buffer ∧ times (nows t) xs
  | Waking buf => ext = false ∧ stamped buf ∧ times (nows t) xs
  | Formatted buf => ext = false ∧ ∃ x xs', xs = x :: xs' ∧ formatted x buf ∧ times (nows t) xs'
  | Holding buf => ext = true ∧ ∃ x xs', xs = x :: xs' ∧ formatted x buf ∧ times (nows t) xs'
  | Written buf => ext = true ∧ stamped buf ∧ times (nows t) xs
  | Stopped => ext = false ∧ xs = []
  end.

(** Steps the timer has left. *)
Definition timer_left t : nat :=
  let ticks := 4 * length (nows t) in
  match t_point t with
  | Created _ => ticks + 1
  | Waking _ => ticks
  | Formatted _ => ticks + 3
  | Holding _ => ticks + 2
  | Written _ => ticks + 1
  | Stopped => 0
  end.

Definition site_left w : nat := all_steps_left (base w) + timer_left (timer_thread w).

(** The timer as a client of the sequential server. *)
Definition as_client xs (out : list byte) : list (list byte) * list byte := (stamp <$> xs, out).

(** [coming]: clients of the sequential server that have not connected. *)
Context (coming : list (list (list byte) * list byte)).

(** Everybody behind the clients that have connected. *)
Definition others xs out : list (list (list byte) * list byte) := coming ++ [as_client xs out].

Record site_sim w A P (cs : list (list (list byte) * list byte)) xs out (ext : bool)
    (h : option nat) : Prop := {
  ws_server : server_sim fuel ext h (base w) A P cs;
  ws_fits : fits A (pending (cs ++ others xs out));
  ws_clock : clock_sim ext (timer_thread w) xs }.

(** Only the file has changed, or the lock is taken or given back, by a thread
    that serves no client. *)
Lemma server_sim_outsider ext ext' y f A P A' P' cs :
  server_sim fuel ext None y A P cs → settled f A' P' → whole A' →
  server_sim fuel ext' None (mk_server f ext' (s_exit y) (clients y)) A' P' cs.
Proof.
  intros [He _ _ _ _ _ Hlen Hcl] Hf Ha. split; simpl; try done.
  intros i c x Hi Hx. destruct (Hcl i c x Hi Hx) as [? Hsim]. split; [done|].
  by eapply point_sim_outside.
Qed.

(** What a step of the timer does: nothing the sequential server sees, or it
    writes the next timestamp. *)
Definition timer_moved w A P cs xs out (t' : clock) (s' : srv F) : Prop :=
  timer_left t' < timer_left (timer_thread w) ∧
  ∃ ext' h' A' P' xs' out',
    site_sim (mk_site (mk_server (file s') (file_lock s') (should_exit s') (clients (base w))) t')
      A' P' cs xs' out' ext' h' ∧
    ((A', P', xs', out') = (A, P, xs, out) ∨
     ∃ x, xs = x :: xs' ∧ serve_packet A P (stamp x) = (A', P', content A', false) ∧
          out' = out ++ content A').

Lemma timer_view_same y : mk_server (file (timer_view y)) (file_lock (timer_view y))
  (should_exit (timer_view y)) (clients y) = y.
Proof. by destruct y. Qed.

(** A step that changes nothing but the thread. *)
Lemma timer_quiet w A P cs xs out ext h t' s' :
  site_sim w A P cs xs out ext h → s' = timer_view (base w) → clock_sim ext t' xs →
  timer_left t' < timer_left (timer_thread w) → timer_moved w A P cs xs out t' s'.
Proof.
  intros [Hs Hf _] -> Ht Hless. split; [done|]. exists ext, h, A, P, xs, out.
  split; [|by left]. split; simpl; [|done|done]. by destruct (base w).
Qed.

Ltac count_left := unfold timer_left; cbn [t_point nows length timer_thread]; lia.

Lemma waking_moves y ns A P cs xs out ext h buf :
  site_sim (mk_site y (mk_clock (Waking buf) ns)) A P cs xs out ext h → ns ≠ [] →
  wp (timer_step utc_offset unspecified (mk_clock (Waking buf) ns)) safe
    (timer_moved (mk_site y (mk_clock (Waking buf) ns)) A P cs xs out)
    (timer_view y).
Proof.
  intros Hw Hwake. pose proof (ws_clock _ _ _ _ _ _ _ _ Hw) as (-> & Hbuf & Hxs).
  cbn [timer_step t_point]. change (times ns xs) in Hxs. destruct Hxs as [|now x ns' xs' Hx Hxs]; cbn [nows].
  - done.
  - wp_step. apply wp_gets. pose proof (sim_exit _ _ _ _ _ _ _ (ws_server _ _ _ _ _ _ _ _ Hw)) as He.
    simpl in *. rewrite He. wp_step. eapply wp_mono; [by apply (format_stamp_spec _ _ now x)|done|]. intros buf' s' [Hbuf' ->].
    wp_step. eapply timer_quiet; [done|done| |count_left].
    split; [done|]. by exists x, xs'.
Qed.

Lemma created_moves y ns A P cs xs out ext h buf :
  site_sim (mk_site y (mk_clock (Created buf) ns)) A P cs xs out ext h →
  wp (timer_step utc_offset unspecified (mk_clock (Created buf) ns)) safe
    (timer_moved (mk_site y (mk_clock (Created buf) ns)) A P cs xs out)
    (timer_view y).
Proof.
  intros Hw. pose proof (ws_clock _ _ _ _ _ _ _ _ Hw) as (-> & Hbuf & Hxs).
  cbn [timer_step t_point]. destruct (store_preamble buf Hbuf) as (buf' & Hst & Hbuf').
  wp_step. unfold store. rewrite Hst. wp_steps.
  eapply timer_quiet; [done|done| |count_left]. by split_and!.
Qed.

(** The lock is free when the timer does not wait for it. *)
Lemma formatted_moves y ns A P cs xs out ext h buf :
  site_sim (mk_site y (mk_clock (Formatted buf) ns)) A P cs xs out ext h → s_lock y = false →
  wp (timer_step utc_offset unspecified (mk_clock (Formatted buf) ns)) safe
    (timer_moved (mk_site y (mk_clock (Formatted buf) ns)) A P cs xs out)
    (timer_view y).
Proof.
  intros [Hs Hf (-> & Hxs)] Hk. cbn [timer_step t_point].
  assert (h = None) as ->.
  { pose proof (sim_lock _ _ _ _ _ _ _ Hs) as Hk'. simpl in Hk'. rewrite Hk, orb_false_r in Hk'.
    symmetry in Hk'. apply bool_decide_eq_false in Hk'. destruct h; [|done]. by destruct Hk'. }
  wp_step. unfold file_mutex_lock. wp_step. apply wp_gets. simpl. rewrite Hk. wp_steps.
  split; [count_left|]. exists true, None, A, P, xs, out. split; [|by left]. split; [|done|by split].
  eapply server_sim_outsider; [done|by apply (sim_free _ _ _ _ _ _ _ Hs)|apply Hs].
Qed.

Lemma holding_moves y ns A P cs xs out ext h buf :
  site_sim (mk_site y (mk_clock (Holding buf) ns)) A P cs xs out ext h → (1023 ≤ line_max)%Z →
  wp (timer_step utc_offset unspecified (mk_clock (Holding buf) ns)) safe
    (timer_moved (mk_site y (mk_clock (Holding buf) ns)) A P cs xs out)
    (timer_view y).
Proof.
  intros [Hs Hf (-> & x & xs' & -> & Hbuf & Hxs)] Hmax. cbn [timer_step t_point].
  pose proof (sim_ext _ _ _ _ _ _ _ Hs eq_refl) as ->.
  destruct (sim_free _ _ _ _ _ _ _ Hs eq_refl) as [Hfile Hend].
  pose proof (sim_whole _ _ _ _ _ _ _ Hs) as Ha. pose proof Hbuf as (Hx & Hst & _).
  pose proof (stamp_plain x Hx) as Hpl. pose proof Hpl as (Hl & _ & Hlen & _).
  unfold in_buffer_size in Hlen. set (A' := append A (stamp x)).
  wp_step. eapply wp_mono;
    [apply (write_stamp_spec x buf _ (λ f, settled f A' (len (content A')))); [done|]|done|].
  { eapply wp_mono; [by eapply (file_write_spec _ A P (stamp x)); lia || done|done|].
    intros r f [_ Hf']. split; [|apply at_end_content].
    unfold A'. by rewrite <-(append_end A P (stamp x)). }
  intros _ s' [Hs' Hset]. wp_step. split; [count_left|].
  exists true, None, A', (len (content A')), xs', (out ++ content A'). split.
  - pose proof (sim_lock _ _ _ _ _ _ _ Hs) as Hk. simpl in Hk. rewrite Hs'. simpl. rewrite Hk.
    split; simpl.
    + eapply (server_sim_outsider true); [exact Hs|done|by apply append_whole].
    + eapply (serve_packet_fits A P (stamp x)); [done|by apply Hpl| |by apply serve_plain_packet].
      eapply fits_less; [exact Hf|]. unfold pending, others. rewrite !sum_list_with_app.
      cbn [as_client fmap list_fmap fst concat sum_list_with]. rewrite length_app. lia.
    + by split_and!.
  - right. exists x. split; [done|]. split; [by apply serve_plain_packet|done].
Qed.

Lemma written_moves y ns A P cs xs out ext h buf :
  site_sim (mk_site y (mk_clock (Written buf) ns)) A P cs xs out ext h →
  wp (timer_step utc_offset unspecified (mk_clock (Written buf) ns)) safe
    (timer_moved (mk_site y (mk_clock (Written buf) ns)) A P cs xs out)
    (timer_view y).
Proof.
  intros [Hs Hf (-> & Hbuf & Hxs)]. cbn [timer_step t_point].
  pose proof (sim_ext _ _ _ _ _ _ _ Hs eq_refl) as ->. pose proof (sim_lock _ _ _ _ _ _ _ Hs) as Hk.
  simpl in Hk. wp_step. unfold file_mutex_unlock. wp_step. apply wp_gets. simpl. rewrite Hk. wp_steps.
  split; [count_left|]. exists false, None, A, P, xs, out. split; [|by left].
  split; [|done|by split_and!].
  eapply server_sim_outsider; [done|by apply (sim_free _ _ _ _ _ _ _ Hs)|apply Hs].
Qed.

Lemma timer_moves w A P cs xs out ext h :
  site_sim w A P cs xs out ext h → (1023 ≤ line_max)%Z →
  timer_waits (base w) (timer_thread w) = false →
  wp (timer_step utc_offset unspecified (timer_thread w)) safe (timer_moved w A P cs xs out)
    (timer_view (base w)).
Proof.
  intros Hw Hmax Hb. destruct w as [y [[buf|buf|buf|buf|buf|] ns]].
  - by eapply created_moves.
  - eapply waking_moves; [done|]. intros ->. done.
  - by eapply formatted_moves.
  - by eapply holding_moves.
  - by eapply written_moves.
  - done.
Qed.

(** *** Turns *)

Lemma pending_others cs xs out :
  pending (cs ++ others xs out) = pending cs + (pending coming + length (concat (stamp <$> xs))).
Proof.
  unfold pending, others. rewrite !sum_list_with_app. cbn [as_client fst sum_list_with]. lia.
Qed.

Definition site_reached n (st : serial F) w : Prop :=
  length (clients (base w)) = n ∧ ∃ ext h A P cs xs out order,
    site_sim w A P cs xs out ext h ∧ (A, P, cs ++ others xs out) = serve_order order st.

Definition site_waits w (who : option nat) : Prop :=
  match who with
  | Some i => waits (base w) i
  | None => timer_waits (base w) (timer_thread w) = true
  end.

Definition site_finished w : Prop :=
  all_finished (base w) ∧ asleep (timer_thread w) = true.

Abbreviation site_turn := (site_turn utc_offset unspecified fuel).

Lemma client_turn_reached n st w i :
  (1023 ≤ line_max)%Z → site_reached n st w →
  wp (site_turn (Some i)) safe
    (λ _ w', site_reached n st w' ∧ (site_left w' < site_left w ∨ w' = w ∧ site_waits w (Some i))) w.
Proof.
  intros Hmax (Hn & ext & h & A & P & cs & xs & out & order & [Hs Hf Hc] & Hst).
  rewrite pending_others in Hf.
  destruct (wp_safe_inv _ _ _ (turn_sim fuel ext h (base w) A P cs i _ Hs Hf Hmax))
    as ([] & y & Hrun & Hy). unfold wp, ServerTimer.site_turn. rewrite Hrun.
  destruct Hy as [[-> Hb] | (Hlen & Hless & h1 & A1 & P1 & cs1 & Hy1 & Hfits1 & Hst1)].
  { destruct w. split; [|by right]. split; [done|]. rewrite <-pending_others with (out := out) in Hf.
    by exists ext, h, A, P, cs, xs, out, order. }
  split; [|left; unfold site_left; simpl; lia]. split; [simpl; congruence|].
  rewrite <-pending_others with (out := out) in Hfits1.
  assert (∃ order', (A1, P1, cs1 ++ others xs out) = serve_order order' st) as [order' Horder'].
  { destruct Hst1 as [[= -> -> ->]|Hst1]; [by exists order|]. symmetry in Hst1.
    destruct (serve_next_app _ _ _ (others xs out) _ _ _ _ Hst1) as [Hnext|[= -> -> ->]];
      [|by exists order].
    exists (order ++ [i]). rewrite serve_order_app, <-Hst. symmetry. exact Hnext. }
  exists ext, h1, A1, P1, cs1, xs, out, order'. split; [|done]. by split.
Qed.

Lemma timer_turn_reached n st w :
  (1023 ≤ line_max)%Z → site_reached n st w →
  wp (site_turn None) safe
    (λ _ w', site_reached n st w' ∧ (site_left w' < site_left w ∨ w' = w ∧ site_waits w None)) w.
Proof.
  intros Hmax (Hn & ext & h & A & P & cs & xs & out & order & Hw & Hst).
  unfold wp, ServerTimer.site_turn. destruct (timer_waits _ _) eqn:Hb.
  { split; [|by right]. split; [done|]. by exists ext, h, A, P, cs, xs, out, order. }
  destruct (wp_safe_inv _ _ _ (timer_moves w A P cs xs out ext h Hw Hmax Hb))
    as (t' & s' & -> & Hless & ext' & h' & A' & P' & xs' & out' & Hw' & Hor).
  split; [|left; unfold site_left, all_steps_left; cbn [base timer_thread clients]; lia].
  split; [done|].
  destruct Hor as [[= -> -> -> ->]|(x & -> & Hserve & ->)].
  { by exists ext', h', A, P, cs, xs, out, order. }
  exists ext', h', A', P', cs, xs', (out ++ content A'), (order ++ [length (cs ++ coming)]).
  split; [done|]. rewrite serve_order_app, <-Hst. cbn [serve_order foldl]. unfold serve_next, others.
  rewrite !(assoc_L (++)), list_lookup_middle by done. cbn [as_client fmap list_fmap]. rewrite Hserve.
  by rewrite <-(Nat.add_0_r (length (cs ++ coming))), insert_app_r.
Qed.

(** The timer has been created, and nobody has set [should_exit]. *)
Definition site_running n st w : Prop :=
  site_reached n st w ∧ t_point (timer_thread w) ≠ Stopped.

Lemma timer_keeps_running n st w w' :
  site_running n st w → site_turn None w = Ok () w' → t_point (timer_thread w') ≠ Stopped.
Proof.
  intros [(_ & ext & h & A & P & cs & xs & out & order & Hw & _) Hns]. unfold ServerTimer.site_turn.
  destruct (timer_waits _ _) eqn:Hb; [by intros [= <-]|].
  pose proof (sim_exit _ _ _ _ _ _ _ (ws_server _ _ _ _ _ _ _ _ Hw)) as He.
  destruct (timer_step _ _ _ _) as [t' s'|e|] eqn:Hstep; [|done..]. intros [= <-]. simpl.
  destruct (timer_thread w) as [[buf|buf|buf|buf|buf|] ns]; cbn [timer_step t_point nows] in Hstep.
  2: { destruct ns as [|now ns]; [by injection Hstep as <- _|].
       apply bind_inv in Hstep as (b & s1 & [= <- <-] & Hstep). simpl in Hstep. rewrite He in Hstep.
       by apply bind_inv in Hstep as (? & ? & _ & [= <- <-]). }
  5: done.
  all: by apply bind_inv in Hstep as (? & ? & _ & [= <- <-]).
Qed.

Lemma site_turn_reached n st who w :
  (1023 ≤ line_max)%Z → site_running n st w →
  wp (site_turn who) safe
    (λ _ w', site_running n st w' ∧ (site_left w' < site_left w ∨ w' = w ∧ site_waits w who)) w.
Proof.
  intros Hmax [Hw Hns].
  assert (wp (site_turn who) safe (λ _ w', site_reached n st w' ∧
    (site_left w' < site_left w ∨ w' = w ∧ site_waits w who)) w) as ([] & w' & Hrun & Hw' & Hor)%wp_safe_inv
    by (destruct who; [by apply client_turn_reached|by apply timer_turn_reached]).
  unfold wp. rewrite Hrun. split; [split; [done|]|done]. destruct who as [i|].
  - unfold ServerTimer.site_turn in Hrun. destruct (turn fuel i (base w)); [|done..].
    by injection Hrun as <-.
  - by apply (timer_keeps_running n st w).
Qed.

(** The threads of a site with [n] clients. *)
Definition thread_of n (who : option nat) : Prop := match who with Some i => i < n | None => True end.

Lemma site_end n st w :
  site_running n st w → (∀ who, thread_of n who → site_waits w who) → site_finished w.
Proof.
  intros [(Hn & ext & h & A & P & cs & xs & out & order & [Hs _ Hc] & _) Hns] Hw.
  pose proof (Hw None I) as Ht. simpl in Ht.
  assert (ext = false) as ->.
  { unfold clock_sim, timer_waits, asleep in *.
    by destruct (t_point (timer_thread w)); try destruct Hc as [Hc _]. }
  destruct (no_deadlock fuel h (base w) A P cs Hs) as [-> Hfin].
  { intros i c Hi. apply (Hw (Some i)); [|done]. simpl. rewrite <-Hn. by eapply lookup_lt_Some. }
  split; [done|]. pose proof (sim_lock _ _ _ _ _ _ _ Hs) as Hk. simpl in Hk.
  unfold timer_waits in Ht. rewrite Hk in Ht. by destruct (t_point (timer_thread w)).
Qed.

Lemma site_finished_stays w who : site_finished w → wp (site_turn who) safe (λ _ w', w' = w) w.
Proof.
  intros [Hf Ht]. destruct who as [i|]; unfold wp, ServerTimer.site_turn.
  - destruct (wp_safe_inv _ _ _ (finished_stays fuel (base w) i Hf)) as ([] & y & -> & ->).
    by destruct w.
  - unfold timer_waits. rewrite Ht. unfold asleep in Ht. by destruct (t_point (timer_thread w)).
Qed.

Lemma run_site_finished rounds n st w :
  (1023 ≤ line_max)%Z → site_running n st w → fair_rounds (thread_of n) rounds →
  site_left w ≤ length rounds →
  wp (run_site utc_offset unspecified fuel (concat rounds)) safe
    (λ _ w', site_running n st w' ∧ site_finished w') w.
Proof.
  intros Hmax Hw Hfair Hsteps.
  by apply (rounds_end _ (site_running n st) site_left site_waits
    (λ who w, site_turn_reached n st who w Hmax) (thread_of n) site_finished (site_end n st)
    (λ w who _, site_finished_stays w who)).
Qed.
End simulation.

(** ** Clients and timer share one log *)

Section theorem.
Context {F : Type} {HF : FileOps F} {HA : LogFile F} {HK : KeepsAll F} {HB : LogBound F}.
Context (utc_offset : Z → Z) (unspecified : list byte) (fuel : nat).
Implicit Types (f : F) (w : site F) (a : log F) (xs : list tm).

Definition site_started f peers nows buf : site F :=
  mk_site (started f peers) (mk_clock (Created buf) nows).

(** The bytes everybody will append. *)
Definition traffic (peers : list (list (list byte) * list Z)) xs : nat :=
  sum_list_with (λ peer, length (concat peer.1)) peers + length (concat (stamp <$> xs)).

Lemma site_started_reached f a p peers nows xs buf :
  starting fuel (started f peers) a p → fits a (traffic peers xs) →
  length buf = sizeof_out_buffer → times utc_offset nows xs →
  site_reached utc_offset fuel [] (length peers)
    (a, p, to_serve (started f peers) ++ [as_client xs []]) (site_started f peers nows buf).
Proof.
  intros Hstart Hfits Hbuf Hxs. split; [by apply length_fmap|].
  exists false, None, a, p, (to_serve (started f peers)), xs, [], [].
  split; [|done]. split; [by apply starting_sim| |by split_and!].
  rewrite pending_others. by rewrite started_pending.
Qed.

Lemma times_wf nows xs : times utc_offset nows xs → Forall tm_wf xs.
Proof. induction 1 as [|now x nows xs Hx _ IH]; constructor; [by eapply localtime_range|done]. Qed.

(** C6: in the build with the timer any number of clients that send lines and
    the timer, under any fair schedule, see one log: there is an order of all
    lines and all timestamps, in which the lines of each client and the
    timestamps keep their order and no line is torn, such that the file holds
    all of them in this order and each client receives after each of its lines
    the whole file.  The clients' threads return.  The timer's thread does not,
    as nobody sets [should_exit] in these runs: it has written the line of each
    of its turns, has given the lock back and sleeps. *)
Theorem timer_and_clients_share_the_file f a p peers nows xs buf rounds :
  settled f a p → whole a → fits a (traffic peers xs) → Forall polite peers →
  Forall (λ peer, 1024 + size_max + in_buffer_size + length peer.2 < fuel) peers →
  length buf = sizeof_out_buffer → times utc_offset nows xs → (1023 ≤ line_max)%Z →
  fair_rounds (thread_of (length peers)) rounds →
  sum_list_with (λ peer, 1030 * length peer.1 + 1) peers + 4 * length nows + 1 ≤ length rounds →
  ∃ w merged,
    run_site utc_offset unspecified fuel (concat rounds) (site_started f peers nows buf) = Ok () w ∧
    (∃ p, file_repr (s_file (base w)) (foldl append a merged.*2) p) ∧ s_lock (base w) = false ∧
    asleep (timer_thread w) = true ∧ s_exit (base w) = false ∧
    Forall (λ t, t.1 ≤ length peers) merged ∧ lines_of (length peers) merged = stamp <$> xs ∧
    ∀ i peer, peers !! i = Some peer → lines_of i merged = peer.1 ∧
      ∃ c, clients (base w) !! i = Some c ∧ point c = Finished ∧ replied c = log_replies i a merged.
Proof.
  intros Hfile Ha Hfits Hp Hf Hbuf Hxs Hmax Hfair Hsteps.
  assert (starting fuel (started f peers) a p) as Hstart.
  { apply started_starting; try done. eapply fits_less; [exact Hfits|unfold traffic; lia]. }
  pose proof (site_started_reached f a p peers nows xs buf Hstart Hfits Hbuf Hxs) as Hreach.
  assert (site_running utc_offset fuel [] (length peers)
    (a, p, to_serve (started f peers) ++ [as_client xs []]) (site_started f peers nows buf)) as Hrunning
    by (by split).
  assert (site_left (site_started f peers nows buf) ≤ length rounds) as Hleft.
  { unfold site_left. cbn [site_started base timer_thread]. rewrite started_steps.
    unfold timer_left. cbn [t_point ServerTimer.nows]. lia. }
  destruct (wp_safe_inv _ _ _
      (run_site_finished utc_offset unspecified fuel [] rounds _ _ _ Hmax Hrunning Hfair Hleft))
    as ([] & w & Hrun & [(Hn & ext & h & A & P & cs & xs' & out & order & [Hs _ Hc] & Hst) _] & Hfin & Ht).
  assert (ext = false ∧ xs' = []) as [-> ->].
  { unfold clock_sim, asleep in *. destruct (timer_thread w) as [[] ns]; try done. simpl in *.
    destruct ns; [|done]. destruct Hc as (-> & _ & Hc). by inversion Hc. }
  destruct (finished_served fuel h (base w) A P cs Hs Hfin) as (Hfile' & Hk & -> & Hdone).
  destruct (started_served order f a p A P peers (clients (base w)) [as_client xs []] [as_client [] out] Hp)
    as (merged & -> & Hmerged & Hall & Hclock); [|done..|].
  { apply Forall_singleton. simpl. apply Forall_fmap.
    eapply Forall_impl; [by eapply times_wf|]. apply stamp_plain. }
  destruct (Hclock 0 (stamp <$> xs) [] eq_refl) as (todo & [= <- _] & Hxs').
  rewrite Nat.add_0_r, app_nil_r in Hxs'.
  exists w, merged. split_and!; [done|by eexists|done|done|apply Hs| |done|].
  { eapply Forall_impl; [exact Hmerged|]. intros t [Ht' _]. simpl in Ht'. lia. }
  intros i peer Hi. destruct (Hall i peer Hi) as (? & c & Hc' & ?). split; [done|]. exists c.
  by destruct (proj1 (Forall_lookup _ _) Hdone i c Hc') as [? _].
Qed.
End theorem.

(** ** Who changes the file *)

Section exclusion.
Context {F : Type} {HF : FileOps F} (utc_offset : Z → Z) (unspecified : list byte) (fuel : nat).
Implicit Types (w : site F) (t : clock).
Abbreviation site_turn := (site_turn utc_offset unspecified fuel).

(** Between lock and unlock. *)
Definition timer_holds t : bool :=
  match t_point t with Holding _ | Written _ => true | _ => false end.

Definition inside w (who : option nat) : bool :=
  match who with
  | Some i => if clients (base w) !! i is Some c then in_packet c else false
  | None => timer_holds (timer_thread w)
  end.

(** What a step of the timer does to the file and the lock. *)
Lemma timer_step_shared t s t' s' :
  timer_step utc_offset unspecified t s = Ok t' s' →
  (timer_holds t = false → file s' = file s) ∧
  ((timer_holds t' = timer_holds t ∧ file_lock s' = file_lock s) ∨
   (timer_holds t = false ∧ timer_holds t' = true ∧ file_lock s = false ∧ file_lock s' = true) ∨
   (timer_holds t = true ∧ timer_holds t' = false)).
Proof.
  destruct t as [[buf|buf|buf|buf|buf|] ns]; cbn [timer_step t_point nows].
  - intros (b & s1 & Hst & [= <- <-])%bind_inv. unfold store, lift in Hst.
    destruct (bytes_store _ _ _); [injection Hst as <- <-|done]. split; [done|by left].
  - destruct ns as [|now ns]; [intros [= <- <-]; split; [done|by left]|].
    intros (e & s1 & [= <- <-] & Hr)%bind_inv. destruct (should_exit s).
    { injection Hr as <- <-. split; [done|by left]. }
    apply bind_inv in Hr as (b & s1 & Hf & [= <- <-]). unfold format_stamp, store, lift in Hf.
    destruct (localtime utc_offset now); [|done]. apply bind_inv in Hf as (x & s2 & [= <- <-] & Hf).
    destruct (bytes_store _ _ _); [injection Hf as <- <-|done]. split; [done|by left].
  - intros (u & s1 & Hl & [= <- <-])%bind_inv. unfold file_mutex_lock, mbind, M_bind, gets, modify in Hl.
    destruct (file_lock s) eqn:Hk; [done|]. simplify_eq. split; [done|by right; left].
  - intros (u & s1 & Hw & [= <- <-])%bind_inv. split; [done|left]. split; [done|].
    assert (keeps file_lock (λ _, True) (λ _, false) (write_stamp buf)) as Hkeep; [|exact (Hkeep _ _ _ Hw)].
    unfold write_stamp, strlen. repeat (apply keeps_then; [|intros ?]);
      first [apply keeps_lift|by apply keeps_ret|by apply keeps_file_run].
  - intros (u & s1 & Hl & [= <- <-])%bind_inv. by split; [|by right; right].
  - intros [= <- <-]. split; [done|by left].
Qed.

Lemma site_turn_exclusive who w w' :
  exclusive (timer_holds (timer_thread w)) (base w) → site_turn who w = Ok () w' →
  exclusive (timer_holds (timer_thread w')) (base w').
Proof.
  intros Hw. unfold ServerTimer.site_turn. destruct who as [i|].
  - destruct (turn fuel i (base w)) as [[] y|e|] eqn:Ht; [|done..]. intros [= <-].
    by eapply turn_exclusive.
  - destruct (timer_waits _ _); [by intros [= <-]|].
    destruct (timer_step _ _ _ _) as [t' s'|e|] eqn:Ht; [|done..]. intros [= <-].
    apply timer_step_shared in Ht as [_ Hor]. simpl in *. destruct Hw as [Hlock Hone Hext].
    destruct Hor as [[-> ->]|[(_ & -> & Hk & ->)|[Ht ->]]].
    + by split.
    + split; simpl; [done|done|]. intros _. split; [done|]. intros i c Hi.
      destruct (in_packet c) eqn:Hc; [|done]. specialize (Hlock i c Hi Hc). congruence.
    + destruct (Hext Ht) as [_ Hnone]. split; simpl; [|done|done].
      intros i c Hi Hc. specialize (Hnone i c Hi). congruence.
Qed.

Lemma site_turn_file who w w' :
  site_turn who w = Ok () w' → inside w who = false → s_file (base w') = s_file (base w).
Proof.
  unfold ServerTimer.site_turn. destruct who as [i|]; simpl.
  - unfold turn. destruct (clients (base w) !! i) as [c|]; [|by intros [= <-]].
    destruct (blocked (base w) c); [by intros [= <-]|].
    destruct (thread_step fuel (point c) (view (base w) c)) as [pt s|e|] eqn:Hs; [|done..].
    intros [= <-] Hin. by apply step_file in Hs.
  - destruct (timer_waits _ _); [by intros [= <-]|].
    destruct (timer_step _ _ _ _) as [t' s'|e|] eqn:Ht; [|done..]. intros [= <-] Hin.
    apply timer_step_shared in Ht as [Hf _]. by apply Hf.
Qed.

(** C23: in the build with the timer the file is used by one thread at a time,
    whatever the sockets do and whatever the schedule.  From a state where no
    thread is between lock and unlock, every state that is reached has at most
    one there, a client or the timer, and the lock is held then; and a step
    that changes the file is always one of this thread. *)
Theorem file_is_changed_under_the_lock schedule w w' :
  (∀ who, inside w who = false) →
  run_site utc_offset unspecified fuel schedule w = Ok () w' →
  (∀ who, inside w' who = true → s_lock (base w') = true) ∧
  (∀ who who', inside w' who = true → inside w' who' = true → who = who') ∧
  (∀ who w'', site_turn who w' = Ok () w'' → s_file (base w'') ≠ s_file (base w') →
     inside w' who = true).
Proof.
  intros Hout Hrun.
  assert (exclusive (timer_holds (timer_thread w')) (base w')) as [Hlock Hone Hext].
  { assert (exclusive (timer_holds (timer_thread w)) (base w)) as Hw.
    { pose proof (Hout None) as Ht. simpl in Ht. rewrite Ht. apply exclusive_outside.
      apply Forall_lookup. intros i c Hi. specialize (Hout (Some i)). simpl in Hout. by rewrite Hi in Hout. }
    clear Hout. revert w Hw Hrun. unfold run_site.
    induction schedule as [|who schedule IH]; intros w Hw; simpl; [by intros [= <-]|].
    intros ([] & w1 & Ht & Hrun)%bind_inv. apply (IH w1); [by eapply site_turn_exclusive|done]. }
  unfold inside. split_and!.
  - intros [i|]; [|by intros [? _]%Hext]. destruct (clients (base w') !! i) as [c|] eqn:Hi; [|done].
    by eapply Hlock.
  - intros [i|] [j|]; [| | |done].
    + destruct (clients (base w') !! i) as [c|] eqn:Hi; [|done].
      destruct (clients (base w') !! j) as [d|] eqn:Hj; [|done]. intros. f_equal. by eapply Hone.
    + destruct (clients (base w') !! i) as [c|] eqn:Hi; [|done].
      intros Hc [_ Hnone]%Hext. specialize (Hnone i c Hi). congruence.
    + destruct (clients (base w') !! j) as [d|] eqn:Hj; [|done].
      intros [_ Hnone]%Hext Hd. specialize (Hnone j d Hj). congruence.
  - intros who w'' Ht Hne. destruct (inside w' who) eqn:Hin; [exact Hin|].
    by destruct Hne; eapply site_turn_file.
Qed.
End exclusion.

(** ** A concrete run: two clients and two timestamps in a regular file *)

(** A regular file grows by what is written: what is there and what is to come
    stay below any chosen size. *)
#[local] Obligation Tactic := simpl; intros.
Program Definition regular_bound (size : nat) : LogBound regular_file := {|
  size_max := size;
  fits a n := length a + n ≤ size |}.
Next Obligation. lia. Qed.
Next Obligation. lia. Qed.
Next Obligation. rewrite length_app. lia. Qed.

Section runs.
#[local] Instance run_bound : LogBound regular_file := regular_bound content_max.

Definition rounds_of_three : list (list (option nat)) := replicate 2072 [Some 0; Some 1; None].

Lemma rounds_of_three_fair : fair_rounds (thread_of 2) rounds_of_three.
Proof.
  apply Forall_replicate. intros [[|[|i]]|] Hi; simpl in Hi; [left|right; left|lia|].
  right; right; left.
Qed.

Lemma timer_and_clients_share_the_file_witness :
  ∃ w merged,
    run_site (λ _, 0%Z) [] plenty (concat rounds_of_three)
      (site_started (mk_regular [] 0) peers [0; 951782410]%Z (replicate 64 7%Z)) = Ok () w ∧
    contents (s_file (base w)) = concat merged.*2 ∧
    lines_of 0 merged = [line_ab] ∧ lines_of 1 merged = [line_c] ∧
    lines_of 2 merged = [bytes_of "timestamp:1970-01-01 00:00:00"%string ++ [newline];
                         bytes_of "timestamp:2000-02-29 00:00:10"%string ++ [newline]].
Proof.
  destruct (timer_and_clients_share_the_file (HA := regular_log_file) (λ _, 0%Z) [] plenty
    (mk_regular [] 0) [] 0 peers
    [0; 951782410]%Z [mk_tm 0 0 0 1 0 70; mk_tm 10 0 0 29 1 100] (replicate 64 7%Z) rounds_of_three)
    as (w & merged & Hrun & [p [Hc _]] & _ & _ & _ & _ & Hts & Hall).
  - done.
  - done.
  - apply Nat.leb_le. by vm_compute.
  - apply peers_polite.
  - apply peers_fuel.
  - done.
  - repeat constructor.
  - by vm_compute.
  - apply rounds_of_three_fair.
  - unfold rounds_of_three. rewrite length_replicate. apply Nat.leb_le. by vm_compute.
  - exists w, merged. split; [done|]. split.
    { rewrite Hc. change (foldl app [] merged.*2 = [] ++ concat merged.*2). generalize ([] : list byte).
      clear. induction (merged.*2) as [|l ls IH]; intros a; simpl; [by rewrite app_nil_r|].
      by rewrite IH, (assoc_L (++)). }
    split; [by destruct (Hall 0 ([line_ab], slow) eq_refl) as [? _]|].
    split; [by destruct (Hall 1 ([line_c], []) eq_refl) as [? _]|]. exact Hts.
Defined.

(** The timer has just written; a client waits for the lock. *)
Lemma file_is_changed_under_the_lock_witness :
  ∃ w, run_site (λ _, 0%Z) [] plenty [None; None; Some 0; None; None; Some 0; Some 1]
         (site_started (mk_regular [] 0) peers [0]%Z (replicate 64 7%Z)) = Ok () w ∧
    inside w None = true ∧ s_lock (base w) = true ∧ inside w (Some 0) = false.
Proof.
  destruct (run_site (λ _, 0%Z) [] plenty [None; None; Some 0; None; None; Some 0; Some 1]
    (site_started (mk_regular [] 0) peers [0]%Z (replicate 64 7%Z))) as [[] w|e|] eqn:Hrun;
    [|exfalso; by vm_compute in Hrun..].
  assert (∀ who, inside (site_started (mk_regular [] 0) peers [0]%Z (replicate 64 7%Z)) who = false) as Hout
    by (intros [[|[|i]]|]; reflexivity).
  destruct (file_is_changed_under_the_lock (λ _, 0%Z) [] plenty _ _ w Hout Hrun) as (Hlock & Hone & _).
  assert (inside w None = true) as Hin by (vm_compute in Hrun; by injection Hrun as <-).
  exists w. split; [done|]. split; [done|]. split; [by apply (Hlock None)|].
  destruct (inside w (Some 0)) eqn:H0; [|done]. by specialize (Hone (Some 0) None H0 Hin).
Defined.
End runs.
