(* ===== verification/SystemCalls.v ===== *)
(** * Running commands ([examples/systemcalls/systemcalls.c])

    [do_system], [do_exec] and [do_exec_redirect].  A call of [fork] makes two
    processes of one; the model follows both: what the parent's call returns,
    and how the child leaves the function.  What the operating system answers
    is the record [os]. *)

From Stdlib Require Import Ascii String.
From S2P Require Import Prelude CString.

Abbreviation cstr := (list byte).

(** A wait status: normal exit with a code, or death by a signal. *)
Inductive wait_status :=
  | WExited (code : Z)
  | WSignaled (signo : Z).

Definition WIFEXITED (st : wait_status) : bool :=
  match st with WExited _ => true | WSignaled _ => false end.
Definition WEXITSTATUS (st : wait_status) : Z :=
  match st with WExited code => code | WSignaled _ => 0%Z end.

Definition EXIT_FAILURE : Z := 1.

(** File descriptors of a process, by the file they name. *)
Abbreviation fd_table := (gmap Z cstr).

(** How the child leaves the function: it became the program, it exited, or it
    returned into the caller's code, a second process running it. *)
Inductive child :=
  | NotForked
  | Execed (argv : list (option cstr)) (fds : fd_table)
  | ChildExited (code : Z)
  | ChildReturned (result : bool).

Record os := mk_os {
  (** [system]'s result for a command, [None] for [NULL] *)
  os_system : option cstr → Z;
  os_fork : bool;
  (** the end of the program that [execv] starts, [None] when it fails *)
  os_execv : option cstr → list (option cstr) → fd_table → option wait_status;
  (** the end of a process that returned into the caller's code *)
  os_caller : bool → wait_status;
  os_waitpid : bool;
  (** the descriptor [open] picks *)
  os_open : cstr → fd_table → option Z;
  os_dup2 : bool }.

Section systemcalls.
Variable (w : os).

Definition do_system (cmd : option cstr) : bool := bool_decide (os_system w cmd = 0%Z).

(** [command[count + 1]], filled from [count] variable arguments; [None] when
    there are fewer. *)
Definition command_array (count : nat) (args : list cstr) : option (list (option cstr)) :=
  if decide (count ≤ length args) then Some ((Some <$> take count args) ++ [None]) else None.

(** [execv] and the branch behind it. *)
Definition run_child (command : list (option cstr)) (fds : fd_table) : child :=
  match os_execv w (mjoin (head command)) command fds with
  | Some _ => Execed command fds
  | None => ChildExited EXIT_FAILURE
  end.

(** The status that [waitpid] reports for a child. *)
Definition child_status (c : child) : wait_status :=
  match c with
  | NotForked => WExited 0
  | Execed argv fds => default (WExited 0) (os_execv w (mjoin (head argv)) argv fds)
  | ChildExited code => WExited code
  | ChildReturned result => os_caller w result
  end.

(** The parent behind [fork]. *)
Definition await_child (c : child) : bool :=
  if negb (os_waitpid w) then false
  else
    let status := child_status c in
    if WIFEXITED status then bool_decide (WEXITSTATUS status = 0%Z)
    else true.

(** The result in the parent, and the child; [None]: an argument that was not
    passed is read. *)
Definition do_exec (count : nat) (args : list cstr) (fds : fd_table) : option (bool * child) :=
  command ← command_array count args;
  Some (if negb (os_fork w) then (false, NotForked)
        else let c := run_child command fds in (await_child c, c)).

(** With the parent's descriptors afterwards. *)
Definition do_exec_redirect (outputfile : cstr) (count : nat) (args : list cstr) (fds : fd_table) :
    option (bool * child * fd_table) :=
  command ← command_array count args;
  Some (match os_open w outputfile fds with
        | None => (false, NotForked, fds)
        | Some fd =>
           let fds := <[fd := outputfile]> fds in
           if negb (os_fork w) then (false, NotForked, fds)
           else
             let c := if negb (os_dup2 w) then ChildReturned false
                      else run_child command (<[1%Z := outputfile]> fds) in
             (await_child c, c, fds)
        end).

(** *** Properties *)

Lemma command_array_some count args :
  count ≤ length args → command_array count args = Some ((Some <$> take count args) ++ [None]).
Proof. intros. unfold command_array. by rewrite decide_True. Qed.

Lemma command_head count (args : list cstr) :
  mjoin (head ((Some <$> take count args) ++ [None])) = head (take count args).
Proof. by destruct (take count args). Qed.

(** What the parent makes of the child's end. *)
Lemma await_status c :
  await_child c = true ↔
  os_waitpid w = true ∧ (child_status c = WExited 0 ∨ ∃ signo, child_status c = WSignaled signo).
Proof.
  unfold await_child. destruct (os_waitpid w); simpl; [|naive_solver].
  destruct (child_status c) as [code|signo]; simpl; [|naive_solver].
  rewrite bool_decide_eq_true. naive_solver.
Qed.

Lemma await_exec command fds :
  await_child (run_child command fds) = true ↔
  os_waitpid w = true ∧
  ∃ st, os_execv w (mjoin (head command)) command fds = Some st ∧
        (st = WExited 0 ∨ ∃ signo, st = WSignaled signo).
Proof.
  rewrite await_status. unfold run_child, EXIT_FAILURE.
  destruct (os_execv w _ command fds) as [st|] eqn:He; simpl; rewrite ?He; naive_solver.
Qed.

(** C33: [do_exec] returns true exactly when the fork, the wait and the [execv]
    of the first argument worked and the command exited with 0 or was killed
    by a signal; the child never returns into the caller. *)
Theorem do_exec_result count args fds :
  count ≤ length args →
  ∃ b c, do_exec count args fds = Some (b, c) ∧ (∀ r, c ≠ ChildReturned r) ∧
    (b = true ↔
     os_fork w = true ∧ os_waitpid w = true ∧
     ∃ st, os_execv w (head (take count args)) ((Some <$> take count args) ++ [None]) fds = Some st ∧
           (st = WExited 0 ∨ ∃ signo, st = WSignaled signo)).
Proof.
  intros Hc. unfold do_exec. rewrite command_array_some by done. simpl.
  pose proof (command_head count args) as Hhead.
  destruct (os_fork w); simpl.
  - eexists _, _. split; [done|]. split; [intros r; unfold run_child; by case_match|].
    rewrite await_exec, Hhead. naive_solver.
  - eexists _, _. split; [done|]. naive_solver.
Qed.

(** C34: [do_exec_redirect] on each of its branches.  When the output file does
    not open, it returns false, forks nothing and leaves the descriptors alone.
    Otherwise it starts the program with descriptor 1 on the file and returns
    true exactly when the fork and the wait worked and the child ended well:
    the program with 0 or by a signal, or, when [dup2] failed in the child, the
    caller's code that the child returned into.  However this ends, also when
    the fork fails, the caller is left with the file's descriptor open,
    although the comment above the function says the file is closed. *)
Theorem do_exec_redirect_result outputfile count args fds :
  count ≤ length args →
  match os_open w outputfile fds with
  | None => do_exec_redirect outputfile count args fds = Some (false, NotForked, fds)
  | Some fd =>
     ∃ b c, do_exec_redirect outputfile count args fds = Some (b, c, <[fd := outputfile]> fds) ∧
       (c = NotForked ↔ os_fork w = false) ∧
       (∀ argv cfds, c = Execed argv cfds → cfds !! 1%Z = Some outputfile) ∧
       (∀ r, c = ChildReturned r ↔ r = false ∧ os_fork w = true ∧ os_dup2 w = false) ∧
       (b = true ↔
        os_fork w = true ∧ os_waitpid w = true ∧
        ∃ st, (if os_dup2 w then
                 os_execv w (head (take count args)) ((Some <$> take count args) ++ [None])
                   (<[1%Z := outputfile]> (<[fd := outputfile]> fds)) = Some st
               else c = ChildReturned false ∧ st = os_caller w false) ∧
              (st = WExited 0 ∨ ∃ signo, st = WSignaled signo))
  end.
Proof.
  intros Hc. unfold do_exec_redirect. rewrite command_array_some by done. simpl.
  destruct (os_open w outputfile fds) as [fd|]; [|done].
  pose proof (command_head count args) as Hhead.
  destruct (os_fork w); simpl; [destruct (os_dup2 w); simpl|].
  - eexists _, _. split; [done|]. split_and!.
    + unfold run_child. by case_match.
    + intros argv cfds. unfold run_child. case_match; [|done]. intros; simplify_eq.
      by rewrite lookup_insert_eq.
    + intros r. unfold run_child. case_match; naive_solver.
    + rewrite await_exec, Hhead. naive_solver.
  - eexists _, _. split; [done|]. split_and!; [done..|naive_solver|].
    rewrite await_status. simpl. naive_solver.
  - eexists _, _. split; [done|]. split_and!; [done..|naive_solver|naive_solver].
Qed.

(** When [dup2] fails in the child, the child returns [false] into the
    caller's code instead of exiting: two processes run it from there on. *)
Theorem failed_dup2_returns_twice outputfile count args fds fd :
  count ≤ length args → os_open w outputfile fds = Some fd → os_fork w = true →
  os_dup2 w = false →
  ∃ b fds', do_exec_redirect outputfile count args fds = Some (b, ChildReturned false, fds').
Proof.
  intros Hc Ho Hf Hd. unfold do_exec_redirect. rewrite command_array_some by done. simpl.
  rewrite Ho, Hf, Hd. simpl. by eexists _, _.
Qed.
End systemcalls.

(** A command that a signal killed counts as executed successfully. *)
Theorem killed_command_is_success args fds :
  let w := mk_os (λ _, 0%Z) true (λ _ _ _, Some (WSignaled 9)) (λ _, WExited 0) true (λ _ _, Some 3%Z) true in
  args ≠ [] → ∃ c, do_exec w (length args) args fds = Some (true, c).
Proof.
  intros w Ha. unfold do_exec. rewrite command_array_some by done. simpl. by eexists.
Qed.

(** *** A concrete run *)

Definition ls_command : list cstr := [bytes_of "/bin/ls"%string; bytes_of "-l"%string].

Definition sample_os (exec : option wait_status) (dup2 : bool) : os :=
  mk_os (λ _, 0%Z) true (λ _ _ _, exec) (λ _, WExited 0) true (λ _ _, Some 3%Z) dup2.

Lemma do_exec_result_witness :
  ∃ b c, do_exec (sample_os (Some (WExited 0)) true) 2 ls_command ∅ = Some (b, c) ∧ b = true.
Proof.
  destruct (do_exec_result (sample_os (Some (WExited 0)) true) 2 ls_command ∅)
    as (b & c & Hrun & _ & Hb); [simpl; lia|].
  exists b, c. split; [done|]. apply Hb. split_and!; [done..|]. eexists. split; [done|by left].
Defined.

(** The file opens, and the fork works; the file does not open. *)
Definition closed_os : os :=
  mk_os (λ _, 0%Z) true (λ _ _ _, Some (WExited 0)) (λ _, WExited 0) true (λ _ _, None) true.

Lemma do_exec_redirect_result_witness :
  (∃ b c, do_exec_redirect (sample_os (Some (WExited 0)) true) [111]%Z 2 ls_command ∅
     = Some (b, c, {[3%Z := [111]%Z]}) ∧ b = true) ∧
  do_exec_redirect closed_os [111]%Z 2 ls_command ∅ = Some (false, NotForked, ∅).
Proof.
  split.
  - destruct (do_exec_redirect_result (sample_os (Some (WExited 0)) true) [111]%Z 2 ls_command ∅)
      as (b & c & ? & _ & _ & _ & Hb); [simpl; lia|].
    exists b, c. split; [done|]. apply Hb. split_and!; [done..|]. eexists. split; [done|by left].
  - apply (do_exec_redirect_result closed_os [111]%Z 2 ls_command ∅). simpl. lia.
Defined.

Lemma failed_dup2_returns_twice_witness :
  ∃ b fds', do_exec_redirect (sample_os None false) [111]%Z 2 ls_command ∅
    = Some (b, ChildReturned false, fds').
Proof. apply (failed_dup2_returns_twice _ [111]%Z 2 ls_command ∅ 3); [simpl; lia|done..]. Defined.

Lemma killed_command_is_success_witness :
  ∃ c, do_exec (sample_os (Some (WSignaled 9)) true) 2 ls_command ∅ = Some (true, c).
Proof. by apply (killed_command_is_success ls_command ∅). Defined.
