(* ===== verification/Writer.v ===== *)
(** * The writer utility ([finder-app/writer.c])

    [main], with the results of the system calls as arguments: the file system
    is the contents of the files by path. *)

From S2P Require Import Prelude CString.

Abbreviation cstr := (list byte).

(** What [open], [write] and [close] answer: a descriptor or an error, the
    number of bytes written or -1, 0 or -1. *)
Record answers := mk_answers { open_result : Z; write_result : Z; close_result : Z }.

Abbreviation files := (gmap (list byte) (list byte)).

(** [size_t bytes]: what the assignment makes of the result of [write]. *)
Definition bytes_of_result (r : Z) : Z := u64 r.

(** The exit status and the files.  [O_TRUNC | O_CREAT] empties the file when
    [open] succeeds; a write that returns [n >= 0] has written [n] bytes. *)
Definition main (argv : list cstr) (ans : answers) (fs : files) : Z * files :=
  match argv with
  | _ :: file :: text :: _ =>
     if decide (open_result ans < 0)%Z then (1%Z, fs)
     else
       let fs := <[file := []]> fs in
       let fs := if decide (write_result ans < 0)%Z then fs
                 else <[file := take (Z.to_nat (write_result ans)) text]> fs in
       let bytes := bytes_of_result (write_result ans) in
       if decide (bytes < 0)%Z then (1%Z, fs)
       else if decide (close_result ans < 0)%Z then (1%Z, fs)
       else (0%Z, fs)
  | _ => (1%Z, fs)
  end.

Lemma bytes_nonneg r : ¬ (bytes_of_result r < 0)%Z.
Proof. pose proof (u_wrap_range 64 r ltac:(lia)) as Hr. unfold bytes_of_result, u64. lia. Qed.

(** The three answers a system gives to a call without failures. *)
Definition all_written (text : cstr) : answers := mk_answers 3 (Z.of_nat (length text)) 0.

(** When the system calls succeed and the write is not short, the program
    exits with 0, the file holds the text and no other file changes. *)
Theorem writer_writes name file text rest fs :
  main (name :: file :: text :: rest) (all_written text) fs = (0%Z, <[file := text]> fs).
Proof.
  unfold main, all_written. cbn [open_result write_result close_result].
  pose proof (bytes_nonneg (Z.of_nat (length text))). repeat case_decide; try lia.
  by rewrite Nat2Z.id, firstn_all, insert_insert_eq.
Qed.

(** The check of the write is dead, as [bytes] is unsigned: the exit status
    does not depend on what [write] returned, so that a failed write, which
    leaves the file empty, and a short one are reported as success. *)
Theorem writer_ignores_write_errors argv o c r fs :
  (main argv (mk_answers o r c) fs).1 = (main argv (mk_answers o 0 c) fs).1.
Proof.
  unfold main. destruct argv as [|n [|f [|t rest]]]; try done. simpl.
  case_decide; [done|]. pose proof (bytes_nonneg r). pose proof (bytes_nonneg 0).
  by repeat case_decide.
Qed.
