(* ===== verification/Autotest.v ===== *)
(** * The validation of the test setup ([examples/autotest-validate], [student-test])

    Three functions, the program that prints the answers of two of them, and
    the unit test of the third.  The Unity framework and the reader of the
    configuration file are in the test submodule: arguments of the test. *)

From Stdlib Require Import String.
From S2P Require Import Prelude DeviceSpec CString.

Abbreviation cstr := (list byte).

Definition this_function_returns_true : bool := true.
Definition this_function_returns_false : bool := false.

(** A pointer to a string, or [NULL]. *)
Definition my_username : option cstr := Some (bytes_of "joshheyse"%string).

Definition git_username : option cstr := Some (bytes_of "akshita-bhasin"%string).

Definition truth (b : bool) : cstr :=
  if b then bytes_of "true"%string else bytes_of "false"%string.

(** What [main] prints, and its status: [main] ends without a [return]. *)
Definition main : cstr * Z :=
  (bytes_of "this_function_returns_true returned "%string ++
     truth this_function_returns_true ++ [newline] ++
   bytes_of "this_function_returns_false returned "%string ++
     truth this_function_returns_false ++ [newline], 0%Z).

(** ** The unit test *)

Section test.
(** A test passes, or fails with a message. *)
Context {verdict : Type} (passed : verdict).
Context (TEST_ASSERT_TRUE_MESSAGE : bool → option cstr → verdict).
Context (malloc_username_from_conf_file : option cstr).

(** A pointer is true when it is not [NULL]. *)
Definition test_validate_my_username : verdict :=
  TEST_ASSERT_TRUE_MESSAGE (bool_decide (is_Some my_username)) malloc_username_from_conf_file.

(** The documented behaviour of the assertion on a condition that holds. *)
Context (assert_true : ∀ message, TEST_ASSERT_TRUE_MESSAGE true message = passed).

(** The configured name plays no part in the outcome. *)
Lemma test_validate_my_username_passes : test_validate_my_username = passed.
Proof. apply assert_true. Qed.
End test.

(** Unity's assertion as an optional message, and a file with another name. *)
Lemma test_validate_my_username_passes_witness :
  let assertion (c : bool) m := if c then None else Some m in
  test_validate_my_username assertion git_username = None ∧ git_username ≠ my_username.
Proof.
  split; [|done].
  exact (test_validate_my_username_passes None (λ c m, if c then None else Some m) git_username (λ _, eq_refl)).
Defined.
