(* ===== verification/Threading.v ===== *)
(** * Threads around a mutex ([examples/threading/threading.{h,c}])

    [threadfunc] cut at its calls, threads with the mutexes they were given as a
    transition system, and [start_thread_obtaining_mutex], which adds a thread.
    Threads may share a mutex or not.  The mutexes are ones whose lock and
    unlock do not fail; the code ignores their results. *)

From S2P Require Import Prelude.

(** [pthread_mutex_t *] *)
Abbreviation mutex_ptr := positive.

(** [struct thread_data] *)
Record thread_data := mk_data {
  wait_to_obtain_ms : Z;
  wait_to_release_ms : Z;
  mutex : mutex_ptr;
  thread_complete_success : bool }.

(** The next statement of [threadfunc]. *)
Inductive pc := T_start | T_obtain | T_lock | T_hold | T_unlock | T_finish | T_return.

#[export] Instance pc_eq_dec : EqDecision pc.
Proof. solve_decision. Defined.

(** A thread, its data and the arguments of its [usleep] calls. *)
Record thread := mk_thread { t_data : thread_data; t_pc : pc; t_slept : list Z }.

(** The owners of the mutexes that are held, and the threads. *)
Record system := mk_system { owners : gmap mutex_ptr nat; threads : list thread }.

(** [usleep(ms * 1000)]: an [int] product passed as [useconds_t]. *)
Definition usleep_arg (ms : Z) : Z := u32 (s32 (ms * 1000)).

Definition set_success (b : bool) (d : thread_data) : thread_data :=
  mk_data (wait_to_obtain_ms d) (wait_to_release_ms d) (mutex d) b.

Definition at_pc (p : pc) (t : thread) : thread := mk_thread (t_data t) p (t_slept t).
Definition sleep (ms : Z) (p : pc) (t : thread) : thread :=
  mk_thread (t_data t) p (t_slept t ++ [usleep_arg ms]).

(** One statement of thread [i]; [None] while it is blocked or has returned. *)
Definition threadfunc_step (i : nat) (s : system) : option system :=
  t ← threads s !! i;
  let go t' := mk_system (owners s) (<[i := t']> (threads s)) in
  let m := mutex (t_data t) in
  match t_pc t with
  | T_start => Some (go (mk_thread (set_success false (t_data t)) T_obtain (t_slept t)))
  | T_obtain => Some (go (sleep (wait_to_obtain_ms (t_data t)) T_lock t))
  | T_lock =>
     match owners s !! m with
     | Some _ => None
     | None => Some (mk_system (<[m := i]> (owners s)) (<[i := at_pc T_hold t]> (threads s)))
     end
  | T_hold => Some (go (sleep (wait_to_release_ms (t_data t)) T_unlock t))
  | T_unlock => Some (mk_system (delete m (owners s)) (<[i := at_pc T_finish t]> (threads s)))
  | T_finish => Some (go (mk_thread (set_success true (t_data t)) T_return (t_slept t)))
  | T_return => None
  end.

(** [malloc] returns the uninitialised structure or [None]; [created] says
    whether [pthread_create] worked.  The fault is the store through [NULL].
    The result comes with what [pthread_create] stores in [*thread]: threads
    are numbered in the order of their creation. *)
Definition start_thread_obtaining_mutex (malloc : option thread_data) (created : bool)
    (mutex : mutex_ptr) (wait_to_obtain_ms wait_to_release_ms : Z) : M system (bool * option nat) :=
  match malloc with
  | None => fail NullDeref
  | Some junk =>
     let data := mk_data wait_to_obtain_ms wait_to_release_ms mutex (thread_complete_success junk) in
     if created then
       thread ← gets (λ s, length (threads s));
       modify (λ s, mk_system (owners s) (threads s ++ [mk_thread data T_start []]));;
       mret (true, Some thread)
     else mret (false, None)
  end.

Inductive move : system → system → Prop :=
| move_thread i s s' : threadfunc_step i s = Some s' → move s s'.

Inductive step : system → system → Prop :=
| step_move s s' : move s s' → step s s'
| step_start s malloc created m obtain release b s' :
    start_thread_obtaining_mutex malloc created m obtain release s = Ok b s' → step s s'.

Definition no_threads : system := mk_system ∅ [].
Definition reachable (s : system) : Prop := rtc step no_threads s.

(** *** The invariant *)

Definition holding (p : pc) : Prop := p = T_hold ∨ p = T_unlock.

(** The sleeps a thread has behind it. *)
Definition slept_at (d : thread_data) (p : pc) : list Z :=
  match p with
  | T_start | T_obtain => []
  | T_lock | T_hold => [usleep_arg (wait_to_obtain_ms d)]
  | _ => [usleep_arg (wait_to_obtain_ms d); usleep_arg (wait_to_release_ms d)]
  end.

Record thread_ok (t : thread) : Prop := {
  th_slept : t_slept t = slept_at (t_data t) (t_pc t);
  th_success : t_pc t ≠ T_start → thread_complete_success (t_data t) = bool_decide (t_pc t = T_return) }.

(** Thread [i] is between the lock and the unlock of [m]. *)
Definition holds (s : system) (i : nat) (m : mutex_ptr) : Prop :=
  ∃ t, threads s !! i = Some t ∧ mutex (t_data t) = m ∧ holding (t_pc t).

Record system_ok (s : system) : Prop := {
  sys_owner i m : owners s !! m = Some i ↔ holds s i m;
  sys_threads : Forall thread_ok (threads s) }.

Lemma no_threads_ok : system_ok no_threads.
Proof. split; [|done]. intros i m. split; [done|]. by intros (t & ? & _). Qed.

(** What the others hold is as it was. *)
Lemma holds_insert o o' ts i j t' m :
  i < length ts →
  holds (mk_system o (<[i := t']> ts)) j m ↔
    if decide (j = i) then mutex (t_data t') = m ∧ holding (t_pc t') else holds (mk_system o' ts) j m.
Proof.
  intros Hlt. unfold holds. simpl. case_decide as Hj; [subst j|].
  - rewrite list_lookup_insert_eq by done. naive_solver.
  - by rewrite list_lookup_insert_ne by done.
Qed.

(** A thread that moves on; [o] are the owners then. *)
Lemma system_ok_insert s o i t t' :
  system_ok s → threads s !! i = Some t → thread_ok t' →
  (∀ j m, j ≠ i → o !! m = Some j ↔ owners s !! m = Some j) →
  (∀ m, o !! m = Some i ↔ mutex (t_data t') = m ∧ holding (t_pc t')) →
  system_ok (mk_system o (<[i := t']> (threads s))).
Proof.
  intros [Ho Ht] Hi Ht' Hother Hown. split; [|by apply Forall_insert].
  intros j m. rewrite (holds_insert _ (owners s)) by (by eapply lookup_lt_Some).
  case_decide as Hj; simpl; [subst j; apply Hown|]. rewrite Hother by done.
  destruct s as [o' ts]. apply Ho.
Qed.

(** Without the mutex. *)
Lemma system_ok_goes s i t t' :
  system_ok s → threads s !! i = Some t → thread_ok t' → mutex (t_data t') = mutex (t_data t) →
  (holding (t_pc t') ↔ holding (t_pc t)) →
  system_ok (mk_system (owners s) (<[i := t']> (threads s))).
Proof.
  intros Hs Hi Ht' Hm Hh. eapply system_ok_insert; [done..|].
  intros m. rewrite (sys_owner _ Hs). unfold holds. rewrite Hi, Hm, Hh. naive_solver.
Qed.

Lemma move_ok s s' : system_ok s → move s s' → system_ok s'.
Proof.
  intros Hs Hm. inversion Hm as [i s1 s2 Hstep]; subst. clear Hm.
  rename s into s1. unfold threadfunc_step in Hstep.
  apply bind_Some in Hstep as (t & Hi & Hstep).
  pose proof Hs as [Ho Ht]. pose proof (Forall_lookup_1 _ _ _ _ Ht Hi) as [Hsl Hsu].
  destruct (t_pc t) eqn:Hp; simplify_eq/=.
  - eapply system_ok_goes; [done..|by split|done|rewrite Hp; unfold holding; naive_solver].
  - eapply system_ok_goes; [done..| |done|rewrite Hp; unfold holding; naive_solver].
    split; simpl; [by rewrite Hsl|naive_solver].
  - destruct (owners s1 !! mutex (t_data t)) as [j|] eqn:Hown; simplify_eq.
    eapply system_ok_insert; [done..| | |].
    + split; simpl; [done|naive_solver].
    + intros j m Hj. destruct (decide (m = mutex (t_data t))) as [->|Hne].
      * rewrite lookup_insert_eq. naive_solver.
      * by rewrite lookup_insert_ne.
    + intros m. simpl. destruct (decide (m = mutex (t_data t))) as [->|Hne].
      * rewrite lookup_insert_eq. unfold holding. naive_solver.
      * rewrite lookup_insert_ne, Ho by done. unfold holds, holding. rewrite Hi. naive_solver.
  - eapply system_ok_goes; [done..| |done|rewrite Hp; unfold holding; naive_solver].
    split; simpl; [by rewrite Hsl|naive_solver].
  - assert (owners s1 !! mutex (t_data t) = Some i) as Hown
      by (apply Ho; exists t; unfold holding; naive_solver).
    eapply system_ok_insert; [done..| | |].
    + split; simpl; [done|naive_solver].
    + intros j m Hj. rewrite lookup_delete_Some. split; [by intros [_ ?]|]. intros Hm.
      split; [|done]. intros <-. congruence.
    + intros m. rewrite lookup_delete_Some, Ho. unfold holds, holding. rewrite Hi. naive_solver.
  - eapply system_ok_goes; [done..|by split|done|rewrite Hp; unfold holding; naive_solver].
Qed.

Lemma start_ok s malloc created m obtain release b s' :
  system_ok s → start_thread_obtaining_mutex malloc created m obtain release s = Ok b s' →
  system_ok s'.
Proof.
  intros [Ho Ht] Hrun. unfold start_thread_obtaining_mutex in Hrun.
  destruct malloc as [junk|]; [|done]. destruct created; [|by unfold mret, M_ret in Hrun; simplify_eq].
  unfold mbind, M_bind, gets, modify, mret, M_ret in Hrun. simplify_eq. split; simpl.
  - intros i m'. rewrite Ho. unfold holds. simpl. split; intros (t & Hi & Hh).
    + exists t. split; [|done]. by apply lookup_app_l_Some.
    + apply lookup_app_Some in Hi as [Hi|[_ Hi]]; [by exists t|].
      apply list_lookup_singleton_Some in Hi as [_ <-]. unfold holding in Hh. naive_solver.
  - apply Forall_app. split; [done|]. by repeat constructor.
Qed.

Lemma reachable_ok s : reachable s → system_ok s.
Proof.
  intros Hr. unfold reachable in Hr. assert (system_ok no_threads) as H0 by apply no_threads_ok.
  induction Hr as [|s1 s2 s3 Hstep _ IH]; [done|]. apply IH.
  destruct Hstep; [by eapply move_ok|by eapply start_ok].
Qed.

(** *** Properties *)

(** C31: of the threads that were given the same mutex at most one is between
    the lock and the unlock, and a mutex is held exactly when a thread is, by
    this thread. *)
Theorem threads_exclude_each_other s m :
  reachable s →
  (∀ i j, holds s i m → holds s j m → i = j) ∧ (∀ i, owners s !! m = Some i ↔ holds s i m).
Proof.
  intros [Ho _]%reachable_ok. split; [|done]. intros i j Hi%Ho Hj%Ho. congruence.
Qed.

(** A thread that has returned reports success, and slept the two times it
    was given, in this order. *)
Theorem returned_thread_reports_success s t :
  reachable s → t ∈ threads s → t_pc t = T_return →
  thread_complete_success (t_data t) = true ∧
  t_slept t = [usleep_arg (wait_to_obtain_ms (t_data t)); usleep_arg (wait_to_release_ms (t_data t))].
Proof.
  intros [_ Ht]%reachable_ok Hin Hpc. rewrite Forall_forall in Ht. apply Ht in Hin as [Hsl Hsu].
  rewrite Hpc in *. split; [by rewrite Hsu|done].
Qed.

(** The statements a thread has left. *)
Definition remaining (t : thread) : nat :=
  match t_pc t with
  | T_start => 6 | T_obtain => 5 | T_lock => 4 | T_hold => 3 | T_unlock => 2 | T_finish => 1 | T_return => 0
  end.
Definition work (s : system) : nat := sum_list (remaining <$> threads s).

Lemma sum_list_insert (l : list nat) i x y :
  l !! i = Some x → sum_list (<[i := y]> l) + x = sum_list l + y.
Proof.
  revert i. induction l as [|z l IH]; intros [|i] Hi; simplify_eq/=; [lia|].
  specialize (IH i Hi). lia.
Qed.

Lemma move_work s s' : move s s' → S (work s') = work s ∧ length (threads s') = length (threads s).
Proof.
  intros Hm. inversion Hm as [i s1 s2 Hstep]; subst. unfold threadfunc_step in Hstep.
  apply bind_Some in Hstep as (t & Hi & Hstep).
  assert (∀ t', S (remaining t') = remaining t →
    S (sum_list (remaining <$> <[i := t']> (threads s))) = work s) as Hw.
  { intros t' Ht. unfold work. rewrite list_fmap_insert.
    pose proof (sum_list_insert (remaining <$> threads s) i (remaining t) (remaining t')) as Hsum.
    rewrite list_lookup_fmap, Hi in Hsum. specialize (Hsum eq_refl). lia. }
  unfold remaining in Hw. destruct (t_pc t) eqn:Hp; simplify_eq/=; try (destruct (owners s !! _); simplify_eq);
    unfold work; simpl; (split; [by apply Hw|by rewrite length_insert]).
Qed.

(** A system without a thread that can move. *)
Lemma stuck_returned s :
  system_ok s → (∀ s', ¬ move s s') → Forall (λ t, t_pc t = T_return) (threads s) ∧ owners s = ∅.
Proof.
  intros [Ho Ht] Hno.
  assert (∀ i t, threads s !! i = Some t → threadfunc_step i s = None) as Hblock.
  { intros i t Hi. destruct (threadfunc_step i s) as [s'|] eqn:E; [|done].
    exfalso. eapply Hno. by econstructor. }
  assert (owners s = ∅) as Hown.
  { apply map_eq. intros m. rewrite lookup_empty. destruct (owners s !! m) as [i|] eqn:E; [|done].
    apply Ho in E as (t & Hi & _ & Hh). pose proof (Hblock _ _ Hi) as Hb.
    unfold threadfunc_step in Hb. rewrite Hi in Hb. simpl in Hb.
    destruct Hh as [Hh|Hh]; rewrite Hh in Hb; done. }
  split; [|done]. apply Forall_lookup_2. intros i t Hi. pose proof (Hblock _ _ Hi) as Hb.
  unfold threadfunc_step in Hb. rewrite Hi, Hown in Hb. simpl in Hb. by destruct (t_pc t).
Qed.

(** C32: the threads end: from a reachable state no more than six steps per
    thread are possible in any order, and a state without another step is one
    where every thread has returned with success and all mutexes are free;
    there is no deadlock. *)
Theorem threads_end s n s' :
  reachable s → nsteps move n s s' →
  n ≤ 6 * length (threads s) ∧
  ((∀ s2, ¬ move s' s2) →
   owners s' = ∅ ∧ Forall (λ t, t_pc t = T_return ∧ thread_complete_success (t_data t) = true)
                     (threads s')).
Proof.
  intros Hr Hn. pose proof (reachable_ok _ Hr) as Hs.
  assert (n + work s' = work s ∧ system_ok s') as [Hw Hs'].
  { clear Hr. induction Hn as [s|n s1 s2 s3 Hm Hn IH]; [done|].
    apply move_work in Hm as Hw. apply move_ok in Hm; [|done]. destruct IH as [? ?]; [done|].
    split; [lia|done]. }
  assert (work s ≤ 6 * length (threads s)).
  { unfold work. clear. induction (threads s) as [|t ts IH]; [done|].
    rewrite fmap_cons, length_cons.
    assert (remaining t ≤ 6) by (unfold remaining; case_match; lia).
    change (remaining t + sum_list (remaining <$> ts) ≤ 6 * S (length ts)). lia. }
  split; [lia|]. intros Hno. destruct (stuck_returned _ Hs' Hno) as [Hret Hown]. split; [done|].
  destruct Hs' as [_ Hok]. rewrite Forall_forall in *. intros t Ht. specialize (Hret t Ht).
  split; [done|]. destruct (Hok t Ht) as [_ Hsu]. rewrite Hsu, Hret by (by rewrite Hret). done.
Qed.

(** For up to 2147483 ms the product is an [int]. *)
Lemma usleep_arg_exact ms : (0 ≤ ms ≤ 2147483)%Z → usleep_arg ms = (ms * 1000)%Z.
Proof.
  intros Hms. unfold usleep_arg, s32, u32. rewrite s_wrap_small by lia.
  apply u_wrap_small. lia.
Qed.

(** [start_thread_obtaining_mutex] adds one thread at the beginning of
    [threadfunc] with the given mutex and times, stores its number and returns
    true, or adds none and returns false when [pthread_create] fails; it does
    not wait.  When [malloc] fails it stores through [NULL]. *)
Theorem start_thread_outcomes malloc created m obtain release s :
  start_thread_obtaining_mutex malloc created m obtain release s =
    match malloc with
    | None => Fault NullDeref
    | Some junk =>
       if created then
         Ok (true, Some (length (threads s)))
           (mk_system (owners s) (threads s ++
              [mk_thread (mk_data obtain release m (thread_complete_success junk)) T_start []]))
       else Ok (false, None) s
    end.
Proof. by destruct malloc, created. Qed.

(** Two threads on one mutex, and a third one with a mutex of its own. *)
Definition three_threads : system :=
  mk_system ∅ [mk_thread (mk_data 10 20 1 true) T_start []; mk_thread (mk_data 5 7 1 false) T_start [];
               mk_thread (mk_data 1 2 2 false) T_start []].

Lemma three_threads_reachable : reachable three_threads.
Proof.
  eapply rtc_l; [by eapply (step_start _ (Some (mk_data 0 0 1 true)) true 1 10 20)|].
  eapply rtc_l; [by eapply (step_start _ (Some (mk_data 0 0 1 false)) true 1 5 7)|].
  eapply rtc_l; [by eapply (step_start _ (Some (mk_data 0 0 1 false)) true 2 1 2)|].
  apply rtc_refl.
Qed.

(** The first thread holds its mutex, the second one waits for it, the third
    one has the other mutex. *)
Definition two_hold : system :=
  mk_system {[1%positive := 0; 2%positive := 2]}
    [mk_thread (mk_data 10 20 1 false) T_hold [10000]%Z;
     mk_thread (mk_data 5 7 1 false) T_lock [5000]%Z;
     mk_thread (mk_data 1 2 2 false) T_hold [1000]%Z].

Lemma run_moves s sch s' :
  foldl (λ o i, o ≫= threadfunc_step i) (Some s) sch = Some s' → nsteps move (length sch) s s'.
Proof.
  revert s. induction sch as [|i sch IH]; intros s Hrun; simpl in *; [by simplify_eq; constructor|].
  destruct (threadfunc_step i s) as [s1|] eqn:Hi.
  - econstructor; [by econstructor|]. by apply IH.
  - exfalso. clear -Hrun. induction sch; simpl in *; [done|]. auto.
Qed.

Lemma moves_reachable s n s' : reachable s → nsteps move n s s' → reachable s'.
Proof.
  intros Hr Hn. unfold reachable. etrans; [exact Hr|]. clear Hr.
  induction Hn; [done|]. eapply rtc_l; [by apply step_move|done].
Qed.

Lemma two_hold_reachable : reachable two_hold.
Proof.
  eapply moves_reachable; [apply three_threads_reachable|].
  apply (run_moves _ [0; 0; 1; 1; 0; 2; 2; 2]). vm_compute. reflexivity.
Qed.

Definition all_returned : list nat :=
  [0; 0; 0; 0; 0; 0; 1; 1; 1; 1; 1; 1; 2; 2; 2; 2; 2; 2].
Definition end_state : system :=
  mk_system ∅ [mk_thread (mk_data 10 20 1 true) T_return [10000; 20000]%Z;
               mk_thread (mk_data 5 7 1 true) T_return [5000; 7000]%Z;
               mk_thread (mk_data 1 2 2 true) T_return [1000; 2000]%Z].

Lemma to_the_end : nsteps move 18 three_threads end_state.
Proof. apply (run_moves _ all_returned). vm_compute. reflexivity. Qed.

Lemma threads_exclude_each_other_witness : holds two_hold 0 1 ∧ holds two_hold 2 2 ∧ ¬ holds two_hold 1 1.
Proof.
  destruct (threads_exclude_each_other two_hold 1 two_hold_reachable) as [Hone Hown].
  assert (holds two_hold 0 1) as H0 by (by apply Hown).
  split_and!; [done| |by intros H1; specialize (Hone 0 1 H0 H1)].
  by apply (threads_exclude_each_other two_hold 2 two_hold_reachable).
Defined.

Lemma returned_thread_reports_success_witness :
  let t := mk_thread (mk_data 5 7 1 true) T_return [5000; 7000]%Z in
  t_slept t = [usleep_arg 5; usleep_arg 7].
Proof.
  intros t. apply (returned_thread_reports_success end_state t
    (moves_reachable _ _ _ three_threads_reachable to_the_end)); [|done].
  right. left.
Defined.

Lemma threads_end_witness : 18 ≤ 6 * length (threads three_threads).
Proof. apply (threads_end _ _ _ three_threads_reachable to_the_end). Defined.
