(* ===== verification/Slist.v ===== *)
(** * Singly-linked lists ([server/queue.h], the SLIST macros)

    The macros as computations over a heap of nodes and a table of list heads,
    generic in the node type: a node type is an instance of [SListEntry], the
    counterpart of [SLIST_ENTRY] in a C struct.  [slist] says that a head's
    chain of links visits exactly the given nodes. *)

From S2P Require Import Prelude.

Abbreviation node_ptr := (option positive).

(** [SLIST_ENTRY(type)]: a [sle_next] field in the node. *)
Class SListEntry (T : Type) := {
  sle_next : T → node_ptr;
  set_sle_next : node_ptr → T → T;
  sle_next_set p n : sle_next (set_sle_next p n) = p;
  set_sle_next_set p q n : set_sle_next p (set_sle_next q n) = set_sle_next p n;
  set_sle_next_eta n : set_sle_next (sle_next n) n = n }.

(** The nodes that are allocated, the heads by name, and the rest of the
    program's memory [E]. *)
Record lstate (T E : Type) := LS {
  nodes : gmap positive T;
  heads : gmap nat node_ptr;
  env : E }.
Arguments LS {T E} _ _ _.
Arguments nodes {T E} _.
Arguments heads {T E} _.
Arguments env {T E} _.

Section macros.
Context {T E : Type} `{HT : SListEntry T}.
Abbreviation L := (M (lstate T E)).
Implicit Types (p elm : node_ptr) (hd : nat) (s : lstate T E).

Definition set_nodes (f : gmap positive T → gmap positive T) s : lstate T E :=
  LS (f (nodes s)) (heads s) (env s).
Definition set_head hd p s : lstate T E := LS (nodes s) (<[hd := p]> (heads s)) (env s).
Definition set_env (f : E → E) s : lstate T E := LS (nodes s) (heads s) (f (env s)).

(** [*p]: dereferencing NULL or a freed node. *)
Definition load_node p : L T :=
  match p with
  | None => fail NullDeref
  | Some l => ns ← gets nodes; lift UseAfterFree (ns !! l)
  end.

Definition update_node p (f : T → T) : L () :=
  n ← load_node p;
  match p with
  | None => fail NullDeref
  | Some l => modify (set_nodes <[l := f n]>)
  end.

Definition free_node p : L () :=
  match p with
  | None => mret ()
  | Some l =>
     ns ← gets nodes;
     if decide (is_Some (ns !! l)) then modify (set_nodes (delete l)) else fail BadFree
  end.

(** [SLIST_HEAD_INITIALIZER]: the contents of the head. *)
Definition SLIST_HEAD_INITIALIZER : node_ptr := None.

Definition SLIST_FIRST hd : L node_ptr := hs ← gets heads; mret (default None (hs !! hd)).
Definition SLIST_EMPTY hd : L bool := p ← SLIST_FIRST hd; mret (bool_decide (p = None)).
Definition SLIST_NEXT elm : L node_ptr := n ← load_node elm; mret (sle_next n).
Definition SLIST_INIT hd : L () := modify (set_head hd None).

Definition SLIST_INSERT_HEAD hd elm : L () :=
  first ← SLIST_FIRST hd;
  update_node elm (set_sle_next first);;
  modify (set_head hd elm).

Definition SLIST_INSERT_AFTER slistelm elm : L () :=
  next ← SLIST_NEXT slistelm;
  update_node elm (set_sle_next next);;
  update_node slistelm (set_sle_next elm).

Definition SLIST_REMOVE_HEAD hd : L () :=
  first ← SLIST_FIRST hd;
  next ← SLIST_NEXT first;
  modify (set_head hd next).

Definition SLIST_REMOVE_AFTER elm : L () :=
  next ← SLIST_NEXT elm;
  next2 ← SLIST_NEXT next;
  update_node elm (set_sle_next next2).

(** [while (SLIST_NEXT(curelm) != elm) curelm = SLIST_NEXT(curelm);] *)
Fixpoint find_before (fuel : nat) (curelm elm : node_ptr) : L node_ptr :=
  match fuel with
  | O => diverge
  | S fuel =>
     next ← SLIST_NEXT curelm;
     if decide (next ≠ elm) then
       curelm ← SLIST_NEXT curelm; find_before fuel curelm elm
     else mret curelm
  end.

(** One turn per allocated node is enough to walk an acyclic chain. *)
Definition walk_fuel s : nat := S (size (nodes s)).

Definition SLIST_REMOVE hd elm : L () :=
  first ← SLIST_FIRST hd;
  if decide (first = elm) then SLIST_REMOVE_HEAD hd
  else
    fuel ← gets walk_fuel;
    curelm ← SLIST_FIRST hd;
    curelm ← find_before fuel curelm elm;
    SLIST_REMOVE_AFTER curelm.

(** [SLIST_FOREACH]: the link of the current node is read after the body. *)
Fixpoint foreach_loop (fuel : nat) (var : node_ptr) (body : node_ptr → L ()) : L () :=
  match fuel with
  | O => diverge
  | S fuel =>
     if decide (var ≠ None) then
       body var;;
       var ← SLIST_NEXT var;
       foreach_loop fuel var body
     else mret ()
  end.

Definition SLIST_FOREACH hd (body : node_ptr → L ()) : L () :=
  fuel ← gets walk_fuel;
  var ← SLIST_FIRST hd;
  foreach_loop fuel var body.

(** [SLIST_FOREACH_SAFE]: the link is read before the body. *)
Fixpoint foreach_safe_loop (fuel : nat) (var : node_ptr) (body : node_ptr → L ()) : L () :=
  match fuel with
  | O => diverge
  | S fuel =>
     if decide (var ≠ None) then
       tvar ← SLIST_NEXT var;
       body var;;
       foreach_safe_loop fuel tvar body
     else mret ()
  end.

Definition SLIST_FOREACH_SAFE hd (body : node_ptr → L ()) : L () :=
  fuel ← gets walk_fuel;
  var ← SLIST_FIRST hd;
  foreach_safe_loop fuel var body.

(** The [_FROM] variants start at [var], unless it is NULL. *)
Definition from_or_first hd (var : node_ptr) : L node_ptr :=
  if decide (var ≠ None) then mret var else SLIST_FIRST hd.

Definition SLIST_FOREACH_FROM hd (var : node_ptr) (body : node_ptr → L ()) : L () :=
  fuel ← gets walk_fuel;
  var ← from_or_first hd var;
  foreach_loop fuel var body.

Definition SLIST_FOREACH_FROM_SAFE hd (var : node_ptr) (body : node_ptr → L ()) : L () :=
  fuel ← gets walk_fuel;
  var ← from_or_first hd var;
  foreach_safe_loop fuel var body.

(** [varp], the address of the link that points to the current node: the
    head's, or the [sle_next] of a node. *)
Inductive link_addr :=
  | HeadLink (hd : nat)
  | NodeLink (elm : node_ptr).

Definition load_varp (varp : link_addr) : L node_ptr :=
  match varp with
  | HeadLink hd => SLIST_FIRST hd
  | NodeLink elm => SLIST_NEXT elm
  end.

(** The link of [var] is not read before the next turn, which takes its
    address in this one. *)
Fixpoint foreach_prevptr_loop (fuel : nat) (varp : link_addr)
    (body : node_ptr → link_addr → L ()) : L () :=
  match fuel with
  | O => diverge
  | S fuel =>
     var ← load_varp varp;
     if decide (var ≠ None) then
       body var varp;;
       foreach_prevptr_loop fuel (NodeLink var) body
     else mret ()
  end.

Definition SLIST_FOREACH_PREVPTR hd (body : node_ptr → link_addr → L ()) : L () :=
  fuel ← gets walk_fuel;
  foreach_prevptr_loop fuel (HeadLink hd) body.

(** [while (SLIST_NEXT(curelm) != NULL) curelm = SLIST_NEXT(curelm);] *)
Definition find_last (fuel : nat) (curelm : node_ptr) : L node_ptr :=
  find_before fuel curelm None.

Definition SLIST_CONCAT head1 head2 : L () :=
  curelm ← SLIST_FIRST head1;
  if decide (curelm = None) then
    first2 ← SLIST_FIRST head2;
    modify (set_head head1 first2);;
    if decide (first2 ≠ None) then SLIST_INIT head2 else mret ()
  else
    first2 ← SLIST_FIRST head2;
    if decide (first2 ≠ None) then
      fuel ← gets walk_fuel;
      curelm ← find_last fuel curelm;
      first2 ← SLIST_FIRST head2;
      update_node curelm (set_sle_next first2);;
      SLIST_INIT head2
    else mret ().

Definition SLIST_SWAP head1 head2 : L () :=
  swap_first ← SLIST_FIRST head1;
  first2 ← SLIST_FIRST head2;
  modify (set_head head1 first2);;
  modify (set_head head2 swap_first).
End macros.

(** ** Chains *)

Section chains.
Context {T E : Type} `{HT : SListEntry T}.
Implicit Types (p q : node_ptr) (ls : list positive) (ns : gmap positive T)
  (s : lstate T E) (l : positive).

(** The links from [p] visit [ls] and end at [q]. *)
Fixpoint chain ns p ls q : Prop :=
  match ls with
  | [] => p = q
  | l :: ls => p = Some l ∧ ∃ n, ns !! l = Some n ∧ chain ns (sle_next n) ls q
  end.

Definition slist s (hd : nat) ls : Prop :=
  NoDup ls ∧ chain (nodes s) (default None (heads s !! hd)) ls None.

Lemma chain_app ns p ls1 ls2 q :
  chain ns p (ls1 ++ ls2) q ↔ ∃ r, chain ns p ls1 r ∧ chain ns r ls2 q.
Proof. revert p. induction ls1 as [|l ls1 IH]; intros p; simpl; naive_solver. Qed.

Lemma chain_insert ns p ls q l n :
  l ∉ ls → chain (<[l := n]> ns) p ls q ↔ chain ns p ls q.
Proof.
  revert p. induction ls as [|k ls IH]; intros p Hl; simpl; [done|].
  apply not_elem_of_cons in Hl as [??]. rewrite lookup_insert_ne by done.
  split; intros (-> & m & Hm & Hc); (split; [done|]); exists m; (split; [done|]); by apply IH.
Qed.

Lemma chain_delete ns p ls q l :
  l ∉ ls → chain (delete l ns) p ls q ↔ chain ns p ls q.
Proof.
  revert p. induction ls as [|k ls IH]; intros p Hl; simpl; [done|].
  apply not_elem_of_cons in Hl as [??]. rewrite lookup_delete_ne by done.
  split; intros (-> & m & Hm & Hc); (split; [done|]); exists m; (split; [done|]); by apply IH.
Qed.

Lemma chain_lookup ns p ls q l :
  chain ns p ls q → l ∈ ls → is_Some (ns !! l).
Proof.
  revert p. induction ls as [|k ls IH]; intros p; simpl.
  - intros _ Hin. by apply not_elem_of_nil in Hin.
  - intros (-> & m & Hm & Hc) [->|Hin]%elem_of_cons; [eauto|by eapply IH].
Qed.

Lemma chain_dom ns p ls q : chain ns p ls q → list_to_set ls ⊆ dom ns.
Proof.
  intros Hc l Hl. apply elem_of_list_to_set in Hl. apply elem_of_dom. by eapply chain_lookup.
Qed.

(** A chain without repetition is no longer than the heap. *)
Lemma chain_length ns p ls q : NoDup ls → chain ns p ls q → length ls ≤ size ns.
Proof.
  intros Hnd Hc. rewrite <-size_dom, <-(size_list_to_set (C := gset positive) ls) by done.
  apply subseteq_size. by eapply chain_dom.
Qed.

(** Redirect the last link of a segment. *)
Lemma chain_redirect ns p ls l n q r :
  NoDup (ls ++ [l]) → chain ns p (ls ++ [l]) q → ns !! l = Some n →
  chain (<[l := set_sle_next r n]> ns) p (ls ++ [l]) r.
Proof.
  intros Hnd Hc Hn. apply NoDup_app in Hnd as (_ & Hdisj & _).
  apply chain_app in Hc as (x & Hc1 & -> & m & Hm & _).
  apply chain_app. exists (Some l). split.
  - apply chain_insert; [|done]. intros Hin. eapply Hdisj; [done|]. left.
  - split; [done|]. eexists. rewrite lookup_insert_eq. split; [done|]. simpl.
    by rewrite sle_next_set.
Qed.

(** *** Specifications of the macros *)

Lemma wp_load_node s l n F (Q : T → lstate T E → Prop) :
  nodes s !! l = Some n → Q n s → wp (load_node (Some l)) F Q s.
Proof. intros Hn HQ. unfold load_node. wp_steps. by rewrite Hn. Qed.

Lemma wp_next s l n F (Q : node_ptr → lstate T E → Prop) :
  nodes s !! l = Some n → Q (sle_next n) s → wp (SLIST_NEXT (Some l)) F Q s.
Proof. intros Hn HQ. unfold SLIST_NEXT. wp_step. by eapply wp_load_node. Qed.

Lemma wp_first s hd F (Q : node_ptr → lstate T E → Prop) :
  Q (default None (heads s !! hd)) s → wp (SLIST_FIRST hd) F Q s.
Proof. done. Qed.

Lemma wp_update_node s l n f F (Q : () → lstate T E → Prop) :
  nodes s !! l = Some n → Q () (set_nodes <[l := f n]> s) →
  wp (update_node (Some l) f) F Q s.
Proof. intros Hn HQ. unfold update_node. wp_step. by eapply wp_load_node. Qed.

Lemma wp_free_node s l F (Q : () → lstate T E → Prop) :
  is_Some (nodes s !! l) → Q () (set_nodes (delete l) s) →
  wp (free_node (Some l)) F Q s.
Proof. intros Hn HQ. unfold free_node. wp_step. wp_steps. by rewrite decide_True. Qed.

(** The two heaps differ in links only. *)
Definition links_only ns ns' : Prop := ∀ k, ∃ r, ns' !! k = set_sle_next r <$> ns !! k.

Lemma links_only_refl ns : links_only ns ns.
Proof.
  intros k. destruct (ns !! k) as [n|]; [|by exists None].
  exists (sle_next n). simpl. by rewrite set_sle_next_eta.
Qed.

Lemma links_only_insert ns l n r :
  ns !! l = Some n → links_only ns (<[l := set_sle_next r n]> ns).
Proof.
  intros Hn k. destruct (decide (k = l)) as [->|Hne].
  - exists r. by rewrite lookup_insert_eq, Hn.
  - rewrite lookup_insert_ne by done. apply links_only_refl.
Qed.

Lemma links_only_dom ns ns' : links_only ns ns' → dom ns' = dom ns.
Proof.
  intros Hl. apply set_eq. intros k. rewrite !elem_of_dom.
  destruct (Hl k) as [r ->]. by rewrite fmap_is_Some.
Qed.

Lemma links_only_trans ns ns' ns'' : links_only ns ns' → links_only ns' ns'' → links_only ns ns''.
Proof.
  intros H1 H2 k. destruct (H1 k) as [r1 E1], (H2 k) as [r2 E2]. exists r2.
  rewrite E2, E1. destruct (ns !! k); simpl; [|done]. by rewrite set_sle_next_set.
Qed.

(** Besides the list [hd] and links of nodes, nothing has changed. *)
Record relinked (hd : nat) s s' : Prop := {
  rl_env : env s' = env s;
  rl_nodes : links_only (nodes s) (nodes s');
  rl_heads h : h ≠ hd → heads s' !! h = heads s !! h }.

#[local] Instance relinked_preorder hd : PreOrder (relinked hd).
Proof.
  split.
  - intros s. split; [done|apply links_only_refl|done].
  - intros s1 s2 s3 [H1 H2 H3] [H4 H5 H6]. split; [congruence|by eapply links_only_trans|].
    intros h Hh. by rewrite H6, H3.
Qed.

(** A head as its initialiser leaves it. *)
Lemma slist_initializer_empty s hd : heads s !! hd = Some SLIST_HEAD_INITIALIZER → slist s hd [].
Proof. intros Hh. split; [constructor|]. simpl. by rewrite Hh. Qed.

Lemma insert_head_spec s hd ls l n :
  slist s hd ls → nodes s !! l = Some n → l ∉ ls →
  wp (SLIST_INSERT_HEAD hd (Some l)) safe
    (λ _ s', slist s' hd (l :: ls) ∧ relinked hd s s' ∧
             nodes s' = <[l := set_sle_next (head ls) n]> (nodes s)) s.
Proof.
  intros [Hnd Hc] Hn Hl. unfold SLIST_INSERT_HEAD. wp_step. apply wp_first. wp_step.
  assert (default None (heads s !! hd) = head ls) as Hh.
  { destruct ls; simpl in Hc; [done|]. by destruct Hc as [-> _]. }
  rewrite Hh in *. eapply wp_update_node; [done|]. wp_steps. split_and!; [| |done]; cycle 1.
  { split; simpl; [done|by apply links_only_insert|]. intros h Hne. by rewrite lookup_insert_ne. }
  split; [by constructor|]. simpl. rewrite lookup_insert_eq. simpl. split; [done|].
  eexists. rewrite lookup_insert_eq. split; [done|]. rewrite sle_next_set.
  by apply chain_insert.
Qed.

Lemma insert_after_spec s hd ls1 ls2 k l :
  slist s hd (ls1 ++ k :: ls2) → is_Some (nodes s !! l) → l ∉ ls1 ++ k :: ls2 →
  wp (SLIST_INSERT_AFTER (Some k) (Some l)) safe
    (λ _ s', slist s' hd (ls1 ++ k :: l :: ls2) ∧ relinked hd s s') s.
Proof.
  intros [Hnd Hc] [n Hn] Hl. apply chain_app in Hc as (r & Hc1 & -> & m & Hm & Hc2).
  assert (l ∉ ls1 ∧ l ≠ k ∧ l ∉ ls2) as (Hl1 & Hlk & Hl2) by set_solver.
  apply NoDup_app in Hnd as Hnd'. destruct Hnd' as (Hnd1 & Hdisj & [Hk2 Hnd2]%NoDup_cons).
  assert (k ∉ ls1) as Hk1 by (intros Hin; eapply Hdisj; [done|left]).
  unfold SLIST_INSERT_AFTER. wp_step. eapply wp_next; [done|]. wp_step.
  eapply wp_update_node; [done|].
  eapply (wp_update_node _ k m); [simpl; by rewrite lookup_insert_ne|]. split; cycle 1.
  { split; simpl; [done| |done]. eapply links_only_trans; apply links_only_insert; [done|].
    by rewrite lookup_insert_ne. }
  split; simpl.
  - apply NoDup_app. split; [done|]. split; [set_solver|].
    constructor; [set_solver|]. by constructor.
  - apply chain_app. exists (Some k). split; [by rewrite !chain_insert by done|].
    split; [done|]. eexists. rewrite lookup_insert_eq. split; [done|].
    rewrite sle_next_set. split; [done|]. eexists.
    rewrite lookup_insert_ne, lookup_insert_eq by done. split; [done|].
    rewrite sle_next_set. by rewrite !chain_insert by done.
Qed.

Lemma find_before_spec fuel s p ls1 k q ls2 end_ F (Q : node_ptr → lstate T E → Prop) :
  chain (nodes s) p (ls1 ++ k :: ls2) end_ → q = (if ls2 is l :: _ then Some l else end_) →
  (∀ j, j ∈ ls1 → q ≠ Some j) → q ≠ Some k → length ls1 < fuel →
  Q (Some k) s → wp (find_before fuel p q) F Q s.
Proof.
  revert p ls1. induction fuel as [|fuel IH]; intros p ls1 Hc Hq Hls1 Hk Hfuel HQ; [lia|].
  cbn [find_before]. destruct ls1 as [|j ls1]; simpl in Hc.
  - destruct Hc as (-> & m & Hm & Hc). wp_step. eapply wp_next; [done|].
    rewrite decide_False; [done|]. intros Hne. apply Hne. subst q.
    destruct ls2; simpl in Hc; [done|]. by destruct Hc.
  - destruct Hc as (-> & m & Hm & Hc). wp_step. eapply wp_next; [done|].
    assert (sle_next m ≠ q) as Hne.
    { destruct ls1 as [|j' ls1]; simpl in Hc; destruct Hc as [-> _]; [done|].
      intros E'. apply (Hls1 j'); [|done]. right. left. }
    rewrite decide_True by done. wp_step. eapply wp_next; [done|].
    eapply (IH _ ls1); [done|done| |done|simpl in Hfuel; lia|done].
    intros j' Hj'. apply Hls1. by right.
Qed.

(** Unlinking the first node, and the node behind [k]. *)
Lemma remove_head_spec s hd l ls :
  slist s hd (l :: ls) →
  wp (SLIST_REMOVE_HEAD hd) safe
    (λ _ s', slist s' hd ls ∧ relinked hd s s' ∧ nodes s' = nodes s) s.
Proof.
  intros [Hnd (Hp & n & Hn & Hc)]. unfold SLIST_REMOVE_HEAD. wp_step. apply wp_first. wp_step.
  rewrite Hp. eapply wp_next; [done|]. wp_steps. apply NoDup_cons in Hnd as [_ Hnd].
  split_and!; [| |done].
  - split; [done|]. simpl. by rewrite lookup_insert_eq.
  - split; simpl; [done|apply links_only_refl|]. intros h Hne. by rewrite lookup_insert_ne.
Qed.

Lemma remove_after_spec s hd ls1 k l ls2 :
  slist s hd (ls1 ++ k :: l :: ls2) →
  wp (SLIST_REMOVE_AFTER (Some k)) safe
    (λ _ s', slist s' hd (ls1 ++ k :: ls2) ∧ relinked hd s s' ∧ nodes s' !! l = nodes s !! l) s.
Proof.
  intros [Hnd Hc]. apply chain_app in Hc as (r & Hc1 & -> & m & Hm & Hl & n & Hn & Hc2).
  apply NoDup_app in Hnd as (Hnd0 & Hd & [Hk [Hl2 Hnd2]%NoDup_cons]%NoDup_cons).
  assert (k ∉ ls1 ∧ k ∉ ls2 ∧ l ≠ k) as (Hk1 & Hk2 & Hlk) by set_solver.
  unfold SLIST_REMOVE_AFTER. wp_step. eapply wp_next; [done|]. rewrite Hl. wp_step.
  eapply wp_next; [done|]. eapply wp_update_node; [done|].
  split_and!; [|split; [done|by apply links_only_insert|done]|simpl; by rewrite lookup_insert_ne].
  split; simpl.
  - apply NoDup_app. split; [done|]. split; [set_solver|]. by constructor.
  - apply chain_app. exists (Some k). split; [by apply chain_insert|]. split; [done|].
    eexists. rewrite lookup_insert_eq. split; [done|]. rewrite sle_next_set. by apply chain_insert.
Qed.

(** Unlinking a node anywhere in the list leaves the others in order. *)
Lemma remove_spec s hd ls1 l ls2 :
  slist s hd (ls1 ++ l :: ls2) →
  wp (SLIST_REMOVE hd (Some l)) safe
    (λ _ s', slist s' hd (ls1 ++ ls2) ∧ relinked hd s s' ∧ nodes s' !! l = nodes s !! l) s.
Proof.
  intros Hs. pose proof Hs as [Hnd Hc]. unfold SLIST_REMOVE. wp_step. apply wp_first.
  destruct (decide (ls1 = [])) as [->|Hne]; simpl in *.
  - destruct Hc as (Hp & _). rewrite Hp, decide_True by done.
    eapply wp_mono; [by apply (remove_head_spec _ _ l)|done|].
    intros _ s' (? & ? & ->). done.
  - destruct (exists_last Hne) as (ls0 & k & ->). rewrite <-(assoc_L (++)) in Hs, Hc, Hnd. simpl in *.
    rewrite decide_False; cycle 1.
    { destruct ls0 as [|j ls0]; simpl in *; destruct Hc as [-> _]; intros [= ->];
        apply NoDup_cons in Hnd as [Hin _]; apply Hin; set_solver. }
    assert (∀ j, j ∈ ls0 → Some l ≠ Some j) as Hls0.
    { intros j Hj [= <-]. apply NoDup_app in Hnd as (_ & Hd & _). set_solver. }
    assert (l ≠ k) as Hlk by (apply NoDup_app in Hnd as (_ & _ & [Hin _]%NoDup_cons); set_solver).
    assert (length ls0 < walk_fuel s) as Hfuel.
    { apply chain_length in Hc; [|done]. rewrite length_app in Hc. unfold walk_fuel. lia. }
    wp_step. apply wp_gets. wp_step. apply wp_first. wp_step.
    eapply (find_before_spec _ _ _ ls0 k _ (l :: ls2)); [done|done|done|congruence|done|].
    rewrite <-(assoc_L (++)). by apply remove_after_spec.
Qed.

Lemma find_last_spec fuel s p ls k F (Q : node_ptr → lstate T E → Prop) :
  chain (nodes s) p (ls ++ [k]) None → length ls < fuel →
  Q (Some k) s → wp (find_last fuel p) F Q s.
Proof. intros. eapply (find_before_spec _ _ _ ls k None [] None); done. Qed.

(** [SLIST_CONCAT] of two lists with different nodes makes them one, in
    order, and leaves the second head empty; the walk to the last node ends. *)
Theorem slist_concat_joins s h1 h2 ls1 ls2 :
  h1 ≠ h2 → slist s h1 ls1 → slist s h2 ls2 → ls1 ## ls2 →
  wp (SLIST_CONCAT h1 h2) safe
    (λ _ s', slist s' h1 (ls1 ++ ls2) ∧ slist s' h2 []) s.
Proof.
  intros Hne [Hnd1 Hc1] [Hnd2 Hc2] Hd. unfold SLIST_CONCAT.
  wp_step. apply wp_first. destruct (decide (ls1 = [])) as [->|Hls1]; simpl in Hc1.
  - rewrite decide_True by done. wp_step. apply wp_first. wp_steps. case_decide as Hp.
    + wp_steps. split; split; simpl; [done|by rewrite lookup_insert_ne, lookup_insert_eq
        |constructor|by rewrite lookup_insert_eq].
    + wp_steps. rewrite Hp in Hc2. destruct ls2; [|by destruct Hc2].
      split; split; simpl; [constructor|by rewrite lookup_insert_eq, Hp|constructor|].
      by rewrite lookup_insert_ne, Hp.
  - destruct (exists_last Hls1) as (ls0 & k & ->).
    rewrite decide_False; cycle 1.
    { destruct ls0 as [|j ls0]; simpl in *; destruct Hc1 as [-> _]; done. }
    wp_step. apply wp_first. case_decide as Hp; cycle 1.
    { wp_steps. rewrite Hp in Hc2. destruct ls2; [|by destruct Hc2].
      rewrite app_nil_r. split; split; [done|done|constructor|by rewrite Hp]. }
    wp_step. apply wp_gets. wp_step.
    pose proof (chain_length _ _ _ _ Hnd1 Hc1) as Hlen. rewrite length_app in Hlen.
    eapply find_last_spec; [done|unfold walk_fuel; simpl in *; lia|].
    wp_step. apply wp_first. wp_step.
    destruct (chain_lookup _ _ _ _ k Hc1) as [m Hm]; [set_solver|].
    eapply wp_update_node; [done|]. unfold SLIST_INIT. wp_steps.
    split; split; simpl; [apply NoDup_app; set_solver| |constructor|by rewrite lookup_insert_eq].
    rewrite lookup_insert_ne by done. apply chain_app.
    exists (default None (heads s !! h2)). split; [by eapply chain_redirect|].
    apply chain_insert; [set_solver|done].
Qed.

Lemma swap_spec s h1 h2 ls1 ls2 :
  h1 ≠ h2 → slist s h1 ls1 → slist s h2 ls2 →
  wp (SLIST_SWAP h1 h2) safe (λ _ s', slist s' h1 ls2 ∧ slist s' h2 ls1) s.
Proof.
  intros Hne [Hnd1 Hc1] [Hnd2 Hc2]. unfold SLIST_SWAP. wp_step. apply wp_first.
  wp_step. apply wp_first. wp_steps. split; split; simpl; [done| |done|].
  - by rewrite lookup_insert_ne, lookup_insert_eq.
  - by rewrite lookup_insert_eq.
Qed.

Lemma empty_spec s hd ls :
  slist s hd ls → SLIST_EMPTY hd s = Ok (bool_decide (ls = [])) s.
Proof.
  intros [_ Hc]. unfold SLIST_EMPTY, SLIST_FIRST. cbv [mbind M_bind gets mret M_ret].
  f_equal. destruct ls; simpl in Hc.
  - by rewrite Hc.
  - destruct Hc as [-> _]. done.
Qed.

(** *** Programs of insertions and removals *)

Inductive slist_edit :=
  | PushHead (l : positive)
  | PushBehind (k l : positive)
  | PopHead
  | PopBehind (k : positive)
  | Take (l : positive).

Definition slist_new (e : slist_edit) : list positive :=
  match e with PushHead l | PushBehind _ l => [l] | _ => [] end.

(** [k] and what [f] makes of the elements behind it. *)
Fixpoint at_node (k : positive) (f : list positive → option (list positive))
    (ls : list positive) : option (list positive) :=
  match ls with
  | [] => None
  | x :: ls => if decide (x = k) then f ls else (x ::.) <$> at_node k f ls
  end.

(** On lists without repetition; [None] when the node to insert is there
    already or the place is not. *)
Definition apply_slist_edit (ls : list positive) (e : slist_edit) : option (list positive) :=
  match e with
  | PushHead l => if decide (l ∈ ls) then None else Some (l :: ls)
  | PushBehind k l => if decide (l ∈ ls) then None else at_node k (λ r, Some (k :: l :: r)) ls
  | PopHead => match ls with [] => None | _ :: ls => Some ls end
  | PopBehind k => at_node k (λ r, match r with [] => None | _ :: r => Some (k :: r) end) ls
  | Take l => at_node l Some ls
  end.

Fixpoint apply_slist_edits ls (es : list slist_edit) : option (list positive) :=
  match es with [] => Some ls | e :: es => ls ← apply_slist_edit ls e; apply_slist_edits ls es end.

Definition do_slist_edit (hd : nat) (e : slist_edit) : M (lstate T E) () :=
  match e with
  | PushHead l => SLIST_INSERT_HEAD hd (Some l)
  | PushBehind k l => SLIST_INSERT_AFTER (Some k) (Some l)
  | PopHead => SLIST_REMOVE_HEAD hd
  | PopBehind k => SLIST_REMOVE_AFTER (Some k)
  | Take l => SLIST_REMOVE hd (Some l)
  end.

Fixpoint slist_edits (hd : nat) (es : list slist_edit) : M (lstate T E) () :=
  match es with [] => mret () | e :: es => do_slist_edit hd e;; slist_edits hd es end.

Lemma at_node_Some k f ls ls' :
  at_node k f ls = Some ls' → ∃ ls1 ls2 r, ls = ls1 ++ k :: ls2 ∧ f ls2 = Some r ∧ ls' = ls1 ++ r.
Proof.
  revert ls'. induction ls as [|x ls IH]; intros ls'; simpl; [done|]. case_decide as Hx.
  - intros Hf. subst x. by exists [], ls, ls'.
  - intros (ls0 & Hls & ->)%fmap_Some. destruct (IH ls0 Hls) as (ls1 & ls2 & r & -> & Hf & ->).
    by exists (x :: ls1), ls2, r.
Qed.

Lemma do_slist_edit_spec s hd ls e ls' :
  slist s hd ls → apply_slist_edit ls e = Some ls' →
  (∀ l, l ∈ slist_new e → is_Some (nodes s !! l)) →
  wp (do_slist_edit hd e) safe (λ _ s', slist s' hd ls' ∧ relinked hd s s') s.
Proof.
  intros Hs He Hnew. destruct e as [l|k l| |k|l]; cbn [apply_slist_edit do_slist_edit slist_new] in *.
  - case_decide; simplify_eq. destruct (Hnew l) as [n Hn]; [by left|].
    eapply wp_mono; [by apply (insert_head_spec _ _ ls l n)|done|]. by intros _ s' (? & ? & _).
  - case_decide; [done|]. apply at_node_Some in He as (ls1 & ls2 & r & -> & [= <-] & ->).
    apply insert_after_spec; [done|apply Hnew; by left|done].
  - destruct ls as [|l ls]; [done|]. injection He as <-.
    eapply wp_mono; [by apply (remove_head_spec _ _ l ls)|done|]. by intros _ s' (? & ? & _).
  - apply at_node_Some in He as (ls1 & ls2 & r & -> & Hr & ->).
    destruct ls2 as [|l ls2]; [done|]. injection Hr as <-.
    eapply wp_mono; [by apply (remove_after_spec _ hd ls1 k l ls2)|done|]. by intros _ s' (? & ? & _).
  - apply at_node_Some in He as (ls1 & ls2 & r & -> & [= <-] & ->).
    eapply wp_mono; [by apply (remove_spec _ _ ls1 l ls2)|done|]. by intros _ s' (? & ? & _).
Qed.

(** C37: any program of SLIST insertions and removals does to the linked nodes
    what the same program does to a list; it changes no other list's head,
    nothing in any node but its link, and neither allocates nor frees. *)
Theorem slist_edits_refine s hd ls es ls' :
  slist s hd ls → apply_slist_edits ls es = Some ls' →
  (∀ e l, e ∈ es → l ∈ slist_new e → is_Some (nodes s !! l)) →
  wp (slist_edits hd es) safe
    (λ _ s', slist s' hd ls' ∧ env s' = env s ∧ dom (nodes s') = dom (nodes s) ∧
             (∀ h, h ≠ hd → heads s' !! h = heads s !! h) ∧
             ∀ k n, nodes s !! k = Some n → ∃ r, nodes s' !! k = Some (set_sle_next r n)) s.
Proof.
  intros Hs He Hnew.
  assert (wp (slist_edits hd es) safe (λ _ s', slist s' hd ls' ∧ relinked hd s s') s) as Hw.
  { revert s ls Hs He Hnew. induction es as [|e es IH]; intros s ls Hs He Hnew; simpl in He.
    { injection He as <-. split; [done|]. reflexivity. }
    apply bind_Some in He as (ls1 & He & Hes). simpl. wp_step.
    eapply wp_mono; [eapply do_slist_edit_spec; [done|done|]|done|].
    { intros l. apply (Hnew e). by left. }
    intros _ s1 [Hs1 Hr1]. eapply wp_mono; [apply (IH s1 ls1 Hs1 Hes)|done|].
    { intros e' l Hin Hl. apply elem_of_dom. rewrite (links_only_dom _ _ (rl_nodes _ _ _ Hr1)).
      apply elem_of_dom. by eapply (Hnew e'); [right|]. }
    intros _ s2 [Hs2 Hr2]. split; [done|]. by etransitivity. }
  eapply wp_mono; [exact Hw|done|]. intros _ s' [Hs' [He' Hlinks Hh]].
  split_and!; [done|done|by apply links_only_dom|done|].
  intros k n Hk. destruct (Hlinks k) as [r Hr]. exists r. by rewrite Hr, Hk.
Qed.
End chains.

(** ** Traversal rules *)

Section traversal.
Context {T E : Type} `{HT : SListEntry T}.
Implicit Types (s : lstate T E) (ls : list positive).

Lemma chain_head (ns : gmap positive T) p ls :
  chain ns p ls None → p = head ls.
Proof. destruct ls; simpl; [done|]. by intros [-> _]. Qed.

(** The nodes still to visit are [ls]; the body keeps the link of the node
    it visits. *)
Lemma foreach_loop_spec (Inv : list positive → lstate T E → Prop) F fuel ls s body :
  (∀ l ls s, Inv (l :: ls) s →
     wp (body (Some l)) F (λ _ s', Inv ls s' ∧
       ∃ n, nodes s' !! l = Some n ∧ sle_next n = head ls) s) →
  length ls < fuel → Inv ls s →
  wp (foreach_loop fuel (head ls) body) F (λ _ s', Inv [] s') s.
Proof.
  intros Hbody. revert s ls. induction fuel as [|fuel IH]; intros s ls Hfuel HI; [lia|].
  cbn [foreach_loop]. destruct ls as [|l ls]; simpl.
  - by wp_steps.
  - wp_step.
    eapply wp_mono; [by apply Hbody|done|]. intros _ s' (HI' & n & Hn & Hnext).
    wp_step. eapply wp_next; [done|]. rewrite Hnext. apply IH; [simpl in Hfuel; lia|done].
Qed.

(** With the link read first, the body may also unlink and free the node. *)
Lemma foreach_safe_loop_spec (Inv : list positive → lstate T E → Prop) F fuel ls s body :
  (∀ l ls s, Inv (l :: ls) s →
     (∃ n, nodes s !! l = Some n ∧ sle_next n = head ls) ∧
     wp (body (Some l)) F (λ _ s', Inv ls s') s) →
  length ls < fuel → Inv ls s →
  wp (foreach_safe_loop fuel (head ls) body) F (λ _ s', Inv [] s') s.
Proof.
  intros Hbody. revert s ls. induction fuel as [|fuel IH]; intros s ls Hfuel HI; [lia|].
  cbn [foreach_safe_loop]. destruct ls as [|l ls]; simpl.
  - by wp_steps.
  - destruct (Hbody _ _ _ HI) as [(n & Hn & Hnext) Hw].
    wp_step. eapply wp_next; [done|]. rewrite Hnext. wp_step.
    eapply wp_mono; [exact Hw|done|]. intros ? s2 HI2. apply IH; [simpl in Hfuel; lia|exact HI2].
Qed.
(** The walk from [var] on, or the whole one from NULL. *)
Lemma wp_from_or_first s hd ls1 ls2 var F (Q : node_ptr → lstate T E → Prop) :
  slist s hd (ls1 ++ ls2) → (if var is Some _ then var = head ls2 else ls1 = []) →
  Q (head ls2) s → wp (from_or_first hd var) F Q s.
Proof.
  intros [_ Hc] Hv HQ. unfold from_or_first. destruct var as [l|].
  - rewrite decide_True by done. wp_step. by rewrite Hv.
  - subst ls1. rewrite decide_False by (intros Hn; by apply Hn). apply wp_first.
    by rewrite (chain_head _ _ _ Hc).
Qed.

(** The bound of a walk over the end of a list. *)
Lemma walk_fuel_enough s hd ls1 ls2 : slist s hd (ls1 ++ ls2) → length ls2 < walk_fuel s.
Proof.
  intros [Hnd Hc]. apply chain_length in Hc; [|done]. rewrite length_app in Hc.
  unfold walk_fuel. lia.
Qed.

Lemma foreach_from_spec (Inv : list positive → lstate T E → Prop) F s hd ls1 ls2 var body :
  slist s hd (ls1 ++ ls2) → (if var is Some _ then var = head ls2 else ls1 = []) →
  (∀ l ls s, Inv (l :: ls) s →
     wp (body (Some l)) F (λ _ s', Inv ls s' ∧
       ∃ n, nodes s' !! l = Some n ∧ sle_next n = head ls) s) →
  Inv ls2 s →
  wp (SLIST_FOREACH_FROM hd var body) F (λ _ s', Inv [] s') s.
Proof.
  intros Hs Hv Hbody HI. unfold SLIST_FOREACH_FROM. wp_steps.
  eapply wp_from_or_first; [done..|].
  apply (foreach_loop_spec Inv); [done|by eapply walk_fuel_enough|done].
Qed.

Lemma foreach_from_safe_spec (Inv : list positive → lstate T E → Prop) F s hd ls1 ls2 var body :
  slist s hd (ls1 ++ ls2) → (if var is Some _ then var = head ls2 else ls1 = []) →
  (∀ l ls s, Inv (l :: ls) s →
     (∃ n, nodes s !! l = Some n ∧ sle_next n = head ls) ∧
     wp (body (Some l)) F (λ _ s', Inv ls s') s) →
  Inv ls2 s →
  wp (SLIST_FOREACH_FROM_SAFE hd var body) F (λ _ s', Inv [] s') s.
Proof.
  intros Hs Hv Hbody HI. unfold SLIST_FOREACH_FROM_SAFE. wp_steps.
  eapply wp_from_or_first; [done..|].
  apply (foreach_safe_loop_spec Inv); [done|by eapply walk_fuel_enough|done].
Qed.

(** The walk with the address of the link: [Inv varp ls] says that [ls] is
    behind the link at [varp]; a turn moves to the link of its node. *)
Lemma foreach_prevptr_loop_spec (Inv : link_addr → list positive → lstate T E → Prop)
    F fuel varp ls s body :
  (∀ varp ls s, Inv varp ls s → load_varp varp s = Ok (head ls) s) →
  (∀ varp l ls s, Inv varp (l :: ls) s →
     wp (body (Some l) varp) F (λ _ s', Inv (NodeLink (Some l)) ls s') s) →
  length ls < fuel → Inv varp ls s →
  wp (foreach_prevptr_loop fuel varp body) F (λ _ s', ∃ varp', Inv varp' [] s') s.
Proof.
  intros Hload Hbody. revert s varp ls.
  induction fuel as [|fuel IH]; intros s varp ls Hfuel HI; [lia|].
  cbn [foreach_prevptr_loop]. wp_step. unfold wp at 1. rewrite (Hload _ _ _ HI).
  destruct ls as [|l ls]; simpl.
  - wp_steps. eauto.
  - wp_step. eapply wp_mono; [by apply Hbody|done|]. intros ? s' HI'.
    eapply (IH s' _ ls); [simpl in Hfuel; lia|exact HI'].
Qed.

Lemma foreach_prevptr_spec (Inv : link_addr → list positive → lstate T E → Prop) F s hd ls body :
  slist s hd ls →
  (∀ varp ls s, Inv varp ls s → load_varp varp s = Ok (head ls) s) →
  (∀ varp l ls s, Inv varp (l :: ls) s →
     wp (body (Some l) varp) F (λ _ s', Inv (NodeLink (Some l)) ls s') s) →
  Inv (HeadLink hd) ls s →
  wp (SLIST_FOREACH_PREVPTR hd body) F (λ _ s', ∃ varp', Inv varp' [] s') s.
Proof.
  intros Hs Hload Hbody HI. unfold SLIST_FOREACH_PREVPTR. wp_steps.
  eapply foreach_prevptr_loop_spec; [done..|by apply (walk_fuel_enough _ hd [])|done].
Qed.

(** The address the body gets is that of the link to its node: it can put a
    node in front of it. *)
Lemma load_varp_last s hd ls1 ls2 :
  slist s hd (ls1 ++ ls2) →
  load_varp (if last ls1 is Some k then NodeLink (Some k) else HeadLink hd) s = Ok (head ls2) s.
Proof.
  intros [Hnd Hc]. destruct (last ls1) as [k|] eqn:Hk.
  - apply last_Some in Hk as [ls0 ->]. rewrite <-(assoc_L (++)) in Hc.
    apply chain_app in Hc as (r & _ & -> & n & Hn & Hc). apply chain_head in Hc as Hh.
    cbn [load_varp]. unfold SLIST_NEXT, load_node, mbind, M_bind, gets. rewrite Hn. simpl.
    by rewrite Hh.
  - apply last_None in Hk as ->. apply chain_head in Hc as Hh. simpl in Hh.
    cbn [load_varp]. unfold SLIST_FIRST, mbind, M_bind, gets, mret, M_ret. by rewrite Hh.
Qed.
End traversal.

(** ** Loops that remove *)

Section removal.
Context {T E : Type} `{HT : SListEntry T}.
Implicit Types (s : lstate T E) (ls : list positive).

(** A loop's body that removes and frees the nodes that are [doomed]. *)
Definition slist_remove_and_free (hd : nat) (doomed : positive → bool) (var : node_ptr) :
    M (lstate T E) () :=
  match var with
  | Some l => if doomed l then SLIST_REMOVE hd var;; free_node var else mret ()
  | None => mret ()
  end.

Lemma remove_and_free_spec s hd ls1 l ls2 F (Q : () → lstate T E → Prop) :
  slist s hd (ls1 ++ l :: ls2) →
  (∀ s', slist s' hd (ls1 ++ ls2) → env s' = env s → (∀ h, h ≠ hd → heads s' !! h = heads s !! h) →
     links_only (delete l (nodes s)) (nodes s') → Q () s') →
  wp (SLIST_REMOVE hd (Some l);; free_node (Some l)) F Q s.
Proof.
  intros Hs HQ. wp_step. eapply wp_mono; [by eapply (remove_spec _ _ ls1 l ls2)|done|].
  intros _ s1 ([Hnd1 Hc1] & [He Hlinks Hh] & Hl1).
  pose proof Hs as [Hnd (r & _ & _ & n & Hl & _)%chain_app].
  eapply wp_free_node; [rewrite Hl1; eauto|]. apply HQ; [|done|done|].
  - split; [done|]. simpl. apply chain_delete; [|done].
    apply NoDup_app in Hnd as (_ & Hd & [? _]%NoDup_cons). set_solver.
  - intros k. simpl. destruct (Hlinks k) as [q Hq]. exists q.
    destruct (decide (k = l)) as [->|?]; [by rewrite !lookup_delete_eq|].
    by rewrite !lookup_delete_ne.
Qed.

(** [SLIST_FOREACH] over the rest of a list, with a body that may free the
    node it visits: it changes nothing, or the first node it frees is used. *)
Lemma foreach_loop_frees (bad : positive → Prop) `{∀ l, Decision (bad l)} body fuel s hd pre rest :
  slist s hd (pre ++ rest) → length rest < fuel →
  (∀ l, l ∈ rest → ¬ bad l → body (Some l) s = Ok () s) →
  (∀ ls1 l ls2, pre ++ rest = ls1 ++ l :: ls2 → bad l →
     wp (body (Some l)) safe (λ _ s', nodes s' !! l = None) s) →
  foreach_loop fuel (head rest) body s =
    if decide (Exists bad rest) then Fault UseAfterFree else Ok () s.
Proof.
  intros Hs Hf Hskip Hfree. revert fuel pre Hs Hf Hskip Hfree.
  induction rest as [|l rest IH]; intros fuel pre Hs Hf Hskip Hfree;
    (destruct fuel as [|fuel]; [simpl in Hf; lia|]); cbn [foreach_loop head].
  { rewrite decide_False by naive_solver. by rewrite decide_False by (by intros ?%Exists_nil). }
  rewrite decide_True by done. pose proof Hs as [Hnd (r & _ & -> & n & Hl & Hrest)%chain_app].
  destruct (decide (bad l)) as [Hb|Hb].
  - rewrite decide_True by (by apply Exists_cons; left).
    destruct (wp_safe_inv _ _ _ (Hfree pre l rest eq_refl Hb)) as ([] & s' & Hrun & Hn).
    rewrite (bind_Ok _ _ _ _ _ Hrun). unfold SLIST_NEXT, load_node, mbind, M_bind, gets.
    by rewrite Hn.
  - rewrite (decide_ext _ (Exists bad rest)) by (rewrite Exists_cons; naive_solver).
    rewrite (bind_Ok _ _ _ _ _ (Hskip l ltac:(left) Hb)).
    rewrite <-(IH fuel (pre ++ [l])), <-(chain_head _ _ _ Hrest).
    + unfold SLIST_NEXT, load_node, mbind, M_bind, gets. by rewrite Hl.
    + by rewrite <-(assoc_L (++)).
    + simpl in Hf. lia.
    + intros k Hk. apply Hskip. by right.
    + intros ls1 k ls2. rewrite <-(assoc_L (++)). apply Hfree.
Qed.

(** Membership in the nodes seen so far. *)
Ltac seen := rewrite ?elem_of_app, ?list_elem_of_singleton in *; naive_solver.

(** C27: [SLIST_FOREACH_SAFE] may remove and free the nodes it visits: it
    ends, keeps the others on the list, in order, frees exactly the nodes that
    were to go, and changes nothing else but links.  [SLIST_FOREACH] with the
    same body returns without a change when nothing is to be removed and else
    reads the link of the first node that it has freed. *)
Theorem slist_foreach_safe_frees s hd ls doomed :
  slist s hd ls →
  wp (SLIST_FOREACH_SAFE hd (slist_remove_and_free hd doomed)) safe
    (λ _ s', slist s' hd (filter (λ l, doomed l = false) ls) ∧ env s' = env s ∧
       (∀ h, h ≠ hd → heads s' !! h = heads s !! h) ∧
       ∀ k, ∃ r, nodes s' !! k = if decide (k ∈ ls ∧ doomed k = true) then None
                                 else set_sle_next r <$> nodes s !! k) s ∧
  SLIST_FOREACH hd (slist_remove_and_free hd doomed) s =
    if existsb doomed ls then Fault UseAfterFree else Ok () s.
Proof.
  intros Hs. pose proof Hs as [Hnd Hc]. split.
  - unfold SLIST_FOREACH_SAFE. wp_step. apply wp_gets. wp_step. apply wp_first.
    rewrite (chain_head _ _ _ Hc : default None (heads s !! hd) = head ls).
    set (Inv := λ rest s', ∃ vis, ls = vis ++ rest ∧
      slist s' hd (filter (λ l, doomed l = false) vis ++ rest) ∧ env s' = env s ∧
      (∀ h, h ≠ hd → heads s' !! h = heads s !! h) ∧
      ∀ k, ∃ r, nodes s' !! k = if decide (k ∈ vis ∧ doomed k = true) then None
                                else set_sle_next r <$> nodes s !! k).
    eapply wp_mono; [apply (foreach_safe_loop_spec Inv safe)|done|].
    + clear -Hnd. intros l rest s1 (vis & -> & Hs & He & Hh & Hn).
      assert (l ∉ vis) as Hlv by (apply NoDup_app in Hnd as (_ & Hd & _); set_solver).
      pose proof Hs as [_ (r & _ & -> & n & Hl & Hrest)%chain_app].
      split; [eexists; split; [done|by apply chain_head in Hrest]|].
      unfold slist_remove_and_free. destruct (doomed l) eqn:Hdl.
      * apply (remove_and_free_spec _ _ _ _ _ _ _ Hs). intros s2 Hs2 He2 Hh2 Hn2.
        exists (vis ++ [l]).
        rewrite <-(assoc_L (++)), filter_app, filter_cons_False, filter_nil, app_nil_r by congruence.
        split_and!; [done|done|congruence|by intros h Hhd; rewrite Hh2, Hh|]. intros k.
        destruct (Hn2 k) as [r2 Hr2]. destruct (Hn k) as [r1 Hr1]. rewrite Hr2.
        destruct (decide (k = l)) as [->|Hk].
        { exists None. by rewrite lookup_delete_eq, decide_True by seen. }
        rewrite lookup_delete_ne, Hr1 by done. exists r2.
        destruct (decide (k ∈ vis ∧ doomed k = true)) as [?|?].
        { by rewrite decide_True by seen. }
        rewrite decide_False by seen. destruct (nodes s !! k); simpl; [|done].
        by rewrite set_sle_next_set.
      * wp_steps. exists (vis ++ [l]).
        rewrite <-(assoc_L (++)), filter_app, filter_cons_True, filter_nil, <-(assoc_L (++)) by done.
        split_and!; [done..|]. intros k. destruct (Hn k) as [r' Hr']. exists r'. rewrite Hr'.
        apply decide_ext. rewrite elem_of_app, list_elem_of_singleton.
        split; [tauto|]. intros [[?| ->] ?]; [done|congruence].
    + by apply (walk_fuel_enough _ hd []).
    + exists []. split_and!; [done..|]. intros k.
      destruct (links_only_refl (nodes s) k) as [r Hr]. exists r. by rewrite decide_False by set_solver.
    + intros _ s' (vis & Hvis & Hs' & ?). rewrite app_nil_r in Hvis, Hs'. by subst vis.
  - unfold SLIST_FOREACH. rewrite (bind_Ok _ _ s (walk_fuel s) s) by done.
    rewrite (bind_Ok _ _ s (head ls) s).
    2: { unfold SLIST_FIRST, mbind, M_bind, gets, mret, M_ret. by rewrite (chain_head _ _ _ Hc). }
    rewrite (foreach_loop_frees (λ l, doomed l = true) _ _ _ hd [] ls Hs).
    + destruct (existsb doomed ls) eqn:Hx.
      * rewrite decide_True; [done|]. apply existsb_exists in Hx as (l & Hl & Hd).
        apply Exists_exists. exists l. split; [by apply list_elem_of_In|done].
      * rewrite decide_False; [done|]. intros (l & Hl & Hd)%Exists_exists.
        apply not_true_iff_false in Hx. apply Hx, existsb_exists. exists l.
        split; [by apply list_elem_of_In|done].
    + by apply (walk_fuel_enough _ hd []).
    + intros l _ Hd. simpl. by destruct (doomed l).
    + intros ls1 l ls2 Hls Hd. simpl. rewrite Hd. simpl in Hls. subst ls.
      eapply remove_and_free_spec; [done|]. intros s' _ _ _ Hn. destruct (Hn l) as [r Hr].
      by rewrite Hr, lookup_delete_eq.
Qed.
End removal.
