(* ===== verification/Queue.v ===== *)
(** * The memory of queue.h's other lists ([server/queue.h])

    LIST, STAILQ and TAILQ keep addresses of links: [le_prev], [stqh_last],
    [tqh_last] and [tqe_prev] point to the pointer that points to an element,
    a field of a head or of another element.  This file has these addresses,
    the loads and stores through them, and what it means that the links of a
    memory form a list ([qlist], [backward]); the two splicing lemmas carry the
    proofs of all insertions and removals. *)

From S2P Require Import Prelude Slist.

(** [&(head)->lh_first] and [&(elm)->field.le_next]. *)
Inductive link := NullLink | FirstOf (hd : nat) | NextOf (l : positive).

#[export] Instance link_eq_dec : EqDecision link.
Proof. solve_decision. Defined.

(** *** Structs with a [next] field, a [prev] field, a [first] field, a [last] field *)

Class NextField (N : Type) := {
  next_of : N → node_ptr;
  with_next : node_ptr → N → N;
  next_with_next p n : next_of (with_next p n) = p }.

Class PrevField (N : Type) `{NextField N} := {
  prev_of : N → link;
  with_prev : link → N → N;
  prev_with_prev k n : prev_of (with_prev k n) = k;
  prev_with_next p n : prev_of (with_next p n) = prev_of n;
  next_with_prev k n : next_of (with_prev k n) = next_of n }.

Class FirstField (H : Type) := {
  first_of : H → node_ptr;
  with_first : node_ptr → H → H;
  first_with_first p h : first_of (with_first p h) = p }.

Class LastField (H : Type) `{FirstField H} := {
  last_of : H → link;
  with_last : link → H → H;
  last_with_last k h : last_of (with_last k h) = k;
  last_with_first p h : last_of (with_first p h) = last_of h;
  first_with_last k h : first_of (with_last k h) = first_of h }.

(** The elements that are allocated, and the heads. *)
Record memory (N H : Type) := mk_memory { elems : gmap positive N; qheads : gmap nat H }.
Arguments mk_memory {N H} _ _.
Arguments elems {N H} _.
Arguments qheads {N H} _.

Section memory.
Context {N H : Type} `{HN : NextField N} `{HH : FirstField H}.
Abbreviation Q := (M (memory N H)).
Implicit Types (m : memory N H) (k : link) (p elm : node_ptr) (l : positive) (hd : nat)
  (ls : list positive).

Definition alter_elm (f : N → N) l m : memory N H := mk_memory (alter f l (elems m)) (qheads m).
Definition alter_head (f : H → H) hd m : memory N H := mk_memory (elems m) (alter f hd (qheads m)).

(** What a link holds; [None] when its struct is not there. *)
Definition content m k : option node_ptr :=
  match k with
  | NullLink => None
  | FirstOf hd => first_of <$> qheads m !! hd
  | NextOf l => next_of <$> elems m !! l
  end.

Definition put_link k p m : memory N H :=
  match k with
  | NullLink => m
  | FirstOf hd => alter_head (with_first p) hd m
  | NextOf l => alter_elm (with_next p) l m
  end.

(** The fault of a link without its struct. *)
Definition bad_link k : fault := match k with NullLink => NullDeref | _ => UseAfterFree end.

(** [*k] and [*k = p]. *)
Definition load_link k : Q node_ptr := c ← gets (λ m, content m k); lift (bad_link k) c.
Definition store_link k p : Q () := load_link k;; modify (put_link k p).

(** [&(elm)->field.le_next] *)
Definition next_link elm : link := match elm with Some l => NextOf l | None => NullLink end.

(** [__containerof(k, type, field.le_next)]: only the link of an element lies in
    an element. *)
Definition containerof (k : link) : Q node_ptr :=
  match k with NextOf l => mret (Some l) | _ => fail OutOfBounds end.

Lemma content_put_link k0 p m k :
  content (put_link k0 p m) k = if decide (k = k0) then (λ _, p) <$> content m k else content m k.
Proof.
  destruct k0 as [|hd0|l0], k as [|hd|l]; simpl; try (by case_decide); try done.
  - destruct (decide (hd = hd0)) as [->|Hne].
    + rewrite decide_True, lookup_alter_eq by done. destruct (_ !! _); simpl; [|done].
      by rewrite first_with_first.
    + by rewrite decide_False, lookup_alter_ne by congruence.
  - destruct (decide (l = l0)) as [->|Hne].
    + rewrite decide_True, lookup_alter_eq by done. destruct (_ !! _); simpl; [|done].
      by rewrite next_with_next.
    + by rewrite decide_False, lookup_alter_ne by congruence.
Qed.

Lemma wp_load_link k p m F (R : node_ptr → memory N H → Prop) :
  content m k = Some p → R p m → wp (load_link k) F R m.
Proof. intros Hc HR. unfold load_link. wp_step. wp_step. rewrite Hc. by wp_step. Qed.

Lemma wp_store_link k p m F (R : () → memory N H → Prop) :
  is_Some (content m k) → R () (put_link k p m) → wp (store_link k p) F R m.
Proof. intros [q Hq] HR. unfold store_link. wp_step. eapply wp_load_link; [done|]. by wp_step. Qed.

(** *** Lists of links *)

(** The link behind the elements [ls] of the list [hd]: a field of the last of
    them, or of the head. *)
Definition link_at hd ls : link :=
  match last ls with Some l => NextOf l | None => FirstOf hd end.

(** The links of [hd] lead through [ls] and end in NULL. *)
Definition qlist m hd ls : Prop :=
  NoDup ls ∧ ∀ ls1 ls2, ls = ls1 ++ ls2 → content m (link_at hd ls1) = Some (head ls2).

Lemma link_at_snoc hd ls l : link_at hd (ls ++ [l]) = NextOf l.
Proof. unfold link_at. by rewrite last_snoc. Qed.

Lemma link_at_middle hd ls1 l ls2 : link_at hd (ls1 ++ l :: ls2) =
  match last ls2 with Some l => NextOf l | None => NextOf l end.
Proof. unfold link_at. rewrite last_app, last_cons. by destruct (last ls2). Qed.

Lemma link_at_NextOf hd ls l : link_at hd ls = NextOf l → l ∈ ls.
Proof. unfold link_at. destruct (last ls) eqn:E; [|done]. intros [= ->]. by apply last_Some_elem_of. Qed.

Lemma link_at_FirstOf hd hd' ls : link_at hd ls = FirstOf hd' → ls = [] ∧ hd' = hd.
Proof.
  unfold link_at. destruct (last ls) eqn:E; [done|]. intros [= ->]. by apply last_None in E.
Qed.

(** Different places of a list have different links. *)
Lemma link_at_inj hd ls1 ls2 ls3 :
  NoDup (ls1 ++ ls2 ++ ls3) → link_at hd (ls1 ++ ls2) = link_at hd ls1 → ls2 = [].
Proof.
  intros Hnd. destruct ls2 as [|l ls2 _] using rev_ind; [done|].
  rewrite (assoc_L (++)), link_at_snoc. intros E. symmetry in E. apply link_at_NextOf in E.
  apply NoDup_app in Hnd as (_ & Hd & _). destruct (Hd l E). set_solver.
Qed.

Lemma queue_first m hd ls : qlist m hd ls → content m (FirstOf hd) = Some (head ls).
Proof. intros [_ Hq]. by apply (Hq [] ls). Qed.

Lemma queue_next m hd ls1 l ls2 :
  qlist m hd (ls1 ++ l :: ls2) → content m (NextOf l) = Some (head ls2).
Proof.
  intros [_ Hq]. rewrite <-(link_at_snoc hd ls1 l). apply Hq. by rewrite <-(assoc_L (++)).
Qed.

Lemma queue_last m hd ls : qlist m hd ls → content m (link_at hd ls) = Some None.
Proof. intros [_ Hq]. apply (Hq ls []). by rewrite app_nil_r. Qed.

Lemma queue_elem m hd ls l : qlist m hd ls → l ∈ ls → is_Some (content m (NextOf l)).
Proof.
  intros Hq (ls1 & ls2 & ->)%list_elem_of_split. eexists. by eapply queue_next.
Qed.

(** One turn per allocated element is enough to walk a list. *)
Definition elems_fuel m : nat := S (size (elems m)).

Lemma queue_length m hd ls : qlist m hd ls → length ls < elems_fuel m.
Proof.
  intros Hq. unfold elems_fuel. rewrite <-size_dom.
  rewrite <-(size_list_to_set (C := gset positive) ls) by apply Hq.
  apply Nat.lt_succ_r, subseteq_size. intros l Hl%elem_of_list_to_set. apply elem_of_dom.
  pose proof (queue_elem _ _ _ _ Hq Hl) as Hs. unfold content in Hs. by rewrite fmap_is_Some in Hs.
Qed.

(** A list does not depend on links that are not its own. *)
Lemma queue_frame m m' hd ls :
  content m' (FirstOf hd) = content m (FirstOf hd) →
  (∀ l, l ∈ ls → content m' (NextOf l) = content m (NextOf l)) →
  qlist m hd ls → qlist m' hd ls.
Proof.
  intros Hf Hn [Hnd Hq]. split; [done|]. intros ls1 ls2 ->. rewrite <-(Hq ls1 ls2 eq_refl).
  destruct (link_at hd ls1) eqn:E; [done| |].
  - by apply link_at_FirstOf in E as [-> ->].
  - apply Hn. apply link_at_NextOf in E. set_solver.
Qed.

(** A new element [l] in front of [ls2]. *)
Lemma queue_splice_in m m' hd ls1 l ls2 :
  qlist m hd (ls1 ++ ls2) → l ∉ ls1 ++ ls2 →
  content m' (link_at hd ls1) = Some (Some l) →
  content m' (NextOf l) = Some (head ls2) →
  (∀ k, k ≠ link_at hd ls1 → k ≠ NextOf l → content m' k = content m k) →
  qlist m' hd (ls1 ++ l :: ls2).
Proof.
  intros [Hnd Hq] Hl Hk Hnl Hrest. split.
  { rewrite <-Permutation_middle. by constructor. }
  intros a b [(c & -> & ->)|(c & -> & E)]%app_eq_inv.
  - destruct c as [|x c]; simpl.
    { by rewrite app_nil_r in Hk. }
    rewrite Hrest; [by apply (Hq a (x :: c ++ ls2)); rewrite <-(assoc_L (++))| |].
    + intros E. symmetry in E. rewrite <-(assoc_L (++)) in Hnd. by pose proof (link_at_inj _ _ _ _ Hnd E).
    + intros E%link_at_NextOf. set_solver.
  - destruct c as [|x c]; simplify_eq/=; [by rewrite app_nil_r|].
    rewrite link_at_middle. destruct c as [|y c _] using rev_ind; simpl; [by rewrite Hnl|].
    rewrite last_snoc, <-(Hq (ls1 ++ c ++ [y]) b) by (by rewrite <-!(assoc_L (++))).
    rewrite (assoc_L (++)), link_at_snoc. apply Hrest; [|set_solver].
    intros E. symmetry in E. apply link_at_NextOf in E.
    rewrite !(assoc_L (++)), <-(assoc_L (++) ls1) in Hnd. apply NoDup_app in Hnd as (Hnd & _ & _).
    apply NoDup_app in Hnd as (_ & Hd & _). destruct (Hd y E). set_solver.
Qed.

(** The element [l] is taken out. *)
Lemma queue_splice_out m m' hd ls1 l ls2 :
  qlist m hd (ls1 ++ l :: ls2) →
  content m' (link_at hd ls1) = Some (head ls2) →
  (∀ k, k ≠ link_at hd ls1 → k ≠ NextOf l → content m' k = content m k) →
  qlist m' hd (ls1 ++ ls2).
Proof.
  intros [Hnd Hq] Hk Hrest. pose proof Hnd as Hnd'. rewrite <-Permutation_middle in Hnd'.
  apply NoDup_cons in Hnd' as [Hl Hnd']. split; [done|].
  intros a b [(c & -> & ->)|(c & -> & ->)]%app_eq_inv.
  - destruct c as [|x c]; simpl.
    { by rewrite app_nil_r in Hk. }
    rewrite Hrest; [by apply (Hq a (x :: c ++ l :: ls2)); rewrite <-(assoc_L (++))| |].
    + intros E. symmetry in E. rewrite <-(assoc_L (++)) in Hnd. by pose proof (link_at_inj _ _ _ _ Hnd E).
    + intros E%link_at_NextOf. set_solver.
  - destruct c as [|y c _] using rev_ind; [by rewrite app_nil_r|].
    rewrite (assoc_L (++)), link_at_snoc.
    rewrite <-(Hq (ls1 ++ l :: c ++ [y]) b) by (by rewrite <-(assoc_L (++) ls1)).
    rewrite app_comm_cons, (assoc_L (++)), link_at_snoc. apply Hrest; [|set_solver].
    intros E. symmetry in E. apply link_at_NextOf in E.
    apply NoDup_app in Hnd' as (_ & Hd & _). destruct (Hd y E). set_solver.
Qed.

(** The elements of [h2] behind those of [h1]. *)
Lemma queue_concat m m' h1 h2 ls1 ls2 :
  qlist m h1 ls1 → qlist m h2 ls2 → ls1 ## ls2 →
  content m' (link_at h1 ls1) = Some (head ls2) →
  (∀ k, k ≠ link_at h1 ls1 → k ≠ FirstOf h2 → content m' k = content m k) →
  h1 ≠ h2 → qlist m' h1 (ls1 ++ ls2).
Proof.
  intros [Hnd1 Hq1] [Hnd2 Hq2] Hd Hk Hrest Hne. split; [apply NoDup_app; set_solver|].
  intros a b [(c & -> & ->)|(c & -> & ->)]%app_eq_inv.
  - destruct c as [|x c]; simpl.
    { by rewrite app_nil_r in Hk. }
    rewrite Hrest; [by apply (Hq1 a (x :: c))| |].
    + intros E. symmetry in E. rewrite <-(app_nil_r (x :: c)) in Hnd1. by pose proof (link_at_inj _ _ _ _ Hnd1 E).
    + intros E%link_at_FirstOf. by destruct E as [_ ->].
  - destruct c as [|y c _] using rev_ind; [by rewrite app_nil_r|].
    rewrite (assoc_L (++)), link_at_snoc, <-(link_at_snoc h2 c y).
    rewrite <-(Hq2 (c ++ [y]) b eq_refl), link_at_snoc. apply Hrest; [|done].
    intros E. symmetry in E. apply link_at_NextOf in E. set_solver.
Qed.

Lemma queue_nil m hd : content m (FirstOf hd) = Some None → qlist m hd [].
Proof.
  intros Hc. split; [constructor|]. intros ls1 ls2 E. symmetry in E. by apply app_nil in E as [-> ->].
Qed.

(** A head that is given the first element of another list. *)
Lemma queue_rehead m m' h h' ls :
  qlist m h ls → content m' (FirstOf h') = content m (FirstOf h) →
  (∀ l, l ∈ ls → content m' (NextOf l) = content m (NextOf l)) → qlist m' h' ls.
Proof.
  intros [Hnd Hq] Hf Hn. split; [done|]. intros ls1 ls2 ->. rewrite <-(Hq ls1 ls2 eq_refl).
  unfold link_at. destruct (last ls1) eqn:E; [|done]. apply Hn. apply last_Some_elem_of in E. set_solver.
Qed.
End memory.

(** ** Previous links *)

Section previous.
Context {N H : Type} `{HN : NextField N} `{HP : !PrevField N} `{HH : FirstField H}.
Abbreviation Q := (M (memory N H)).
Implicit Types (m : memory N H) (k : link) (p elm : node_ptr) (l : positive) (hd : nat)
  (ls : list positive).

Definition back m l : option link := prev_of <$> elems m !! l.

Definition put_prev l k m : memory N H := alter_elm (with_prev k) l m.

(** [(elm)->field.le_prev] and [(elm)->field.le_prev = k]. *)
Definition load_prev elm : Q link :=
  match elm with
  | None => fail NullDeref
  | Some l => b ← gets (λ m, back m l); lift UseAfterFree b
  end.

Definition store_prev elm k : Q () :=
  load_prev elm;; match elm with None => fail NullDeref | Some l => modify (put_prev l k) end.

(** Every element of the list [hd] has the address of the link to it. *)
Definition backward m hd ls : Prop :=
  ∀ ls1 l ls2, ls = ls1 ++ l :: ls2 → back m l = Some (link_at hd ls1).

Lemma back_is_Some m l : is_Some (back m l) ↔ is_Some (content m (NextOf l)).
Proof. unfold back. simpl. by rewrite !fmap_is_Some. Qed.

(** The fields of an element. *)
Lemma elem_fields m l : is_Some (content m (NextOf l)) →
  ∃ p k, content m (NextOf l) = Some p ∧ back m l = Some k.
Proof.
  intros Hl. pose proof Hl as [k Hk]%back_is_Some. destruct Hl as [p Hp]. by exists p, k.
Qed.

Lemma back_put_link k0 p m l : back (put_link k0 p m) l = back m l.
Proof.
  unfold back. destruct k0 as [|hd|l0]; simpl; try done.
  destruct (decide (l = l0)) as [->|Hne]; [|by rewrite lookup_alter_ne].
  rewrite lookup_alter_eq. destruct (_ !! _); simpl; [|done]. by rewrite prev_with_next.
Qed.

Lemma content_put_prev l0 k0 m k : content (put_prev l0 k0 m) k = content m k.
Proof.
  destruct k as [|hd|l]; simpl; try done.
  destruct (decide (l = l0)) as [->|Hne]; [|by rewrite lookup_alter_ne].
  rewrite lookup_alter_eq. destruct (_ !! _); simpl; [|done]. by rewrite next_with_prev.
Qed.

Lemma back_put_prev l0 k m l :
  back (put_prev l0 k m) l = if decide (l = l0) then (λ _, k) <$> back m l else back m l.
Proof.
  unfold back. simpl. case_decide as Hne; [subst|by rewrite lookup_alter_ne].
  rewrite lookup_alter_eq. destruct (_ !! _); simpl; [|done]. by rewrite prev_with_prev.
Qed.

Lemma wp_load_prev l k m F (R : link → memory N H → Prop) :
  back m l = Some k → R k m → wp (load_prev (Some l)) F R m.
Proof. intros Hb HR. unfold load_prev. wp_step. wp_step. rewrite Hb. by wp_step. Qed.

Lemma wp_store_prev l k m F (R : () → memory N H → Prop) :
  is_Some (content m (NextOf l)) → R () (put_prev l k m) → wp (store_prev (Some l) k) F R m.
Proof.
  intros [k' Hk]%back_is_Some HR. unfold store_prev. wp_step. eapply wp_load_prev; [done|]. by wp_step.
Qed.

Lemma backward_frame m m' hd ls :
  (∀ l, l ∈ ls → back m' l = back m l) → backward m hd ls → backward m' hd ls.
Proof.
  intros Hb Hq ls1 l ls2 E. rewrite Hb by set_solver. by eapply Hq.
Qed.

Lemma backward_nil m hd : backward m hd [].
Proof. intros ls1 l ls2 E. by destruct ls1. Qed.

(** Two parts of a list; the links to the second start at [link_at hd ls1]. *)
Lemma backward_app m hd ls1 ls2 :
  backward m hd (ls1 ++ ls2) ↔
  backward m hd ls1 ∧ ∀ a l b, ls2 = a ++ l :: b → back m l = Some (link_at hd (ls1 ++ a)).
Proof.
  split.
  - intros Hb. split.
    + intros a l b ->. apply (Hb a l (b ++ ls2)). by rewrite <-(assoc_L (++)).
    + intros a l b ->. apply (Hb (ls1 ++ a) l b). by rewrite (assoc_L (++)).
  - intros [H1 H2] a l b [(c & -> & E)|(c & -> & E)]%app_eq_inv.
    + destruct c as [|x c]; simplify_eq/=; [|by eapply H1].
      rewrite app_nil_r in H1. specialize (H2 [] l b eq_refl). by rewrite !app_nil_r in H2.
    + by eapply H2.
Qed.

(** The links behind the first element of a part do not depend on what is in
    front of the part. *)
Lemma link_at_tail hd hd' ls1 ls1' l a : link_at hd (ls1 ++ l :: a) = link_at hd' (ls1' ++ l :: a).
Proof. by rewrite !link_at_middle. Qed.

Lemma backward_splice_in m m' hd ls1 l ls2 :
  backward m hd (ls1 ++ ls2) → NoDup (ls1 ++ l :: ls2) →
  back m' l = Some (link_at hd ls1) →
  (∀ l', head ls2 = Some l' → back m' l' = Some (NextOf l)) →
  (∀ l', l' ≠ l → head ls2 ≠ Some l' → back m' l' = back m l') →
  backward m' hd (ls1 ++ l :: ls2).
Proof.
  intros [H1 H2]%backward_app Hnd Hl Hh Hrest.
  rewrite <-Permutation_middle in Hnd. apply NoDup_cons in Hnd as [Hnl Hnd].
  apply NoDup_app in Hnd as (_ & Hd & Hnd2). apply backward_app. split.
  - apply (backward_frame m); [|done]. intros l' Hl'. apply Hrest; [set_solver|].
    intros Hh'. destruct ls2; simplify_eq/=. destruct (Hd _ Hl'). by left.
  - intros [|x a] l' b E; simplify_eq/=; [by rewrite app_nil_r|].
    destruct a as [|y a]; simplify_eq/=.
    { by rewrite link_at_middle, (Hh l' eq_refl). }
    apply NoDup_cons in Hnd2 as [Hy Hnd2].
    rewrite Hrest; [|set_solver|intros [= ->]; set_solver].
    rewrite (H2 (y :: a) l' b eq_refl). by rewrite !link_at_middle, !last_cons; destruct (last a).
Qed.

Lemma backward_splice_out m m' hd ls1 l ls2 :
  backward m hd (ls1 ++ l :: ls2) → NoDup (ls1 ++ l :: ls2) →
  (∀ l', head ls2 = Some l' → back m' l' = Some (link_at hd ls1)) →
  (∀ l', head ls2 ≠ Some l' → back m' l' = back m l') →
  backward m' hd (ls1 ++ ls2).
Proof.
  intros [H1 H2]%backward_app Hnd Hh Hrest.
  rewrite <-Permutation_middle in Hnd. apply NoDup_cons in Hnd as [_ Hnd].
  apply NoDup_app in Hnd as (_ & Hd & Hnd2). apply backward_app. split.
  - apply (backward_frame m); [|done]. intros l' Hl'. apply Hrest.
    intros Hh'. destruct ls2; simplify_eq/=. destruct (Hd _ Hl'). by left.
  - intros [|y a] l' b E; simplify_eq/=; [rewrite app_nil_r; by apply Hh|].
    apply NoDup_cons in Hnd2 as [Hy Hnd2]. rewrite Hrest; [|intros [= ->]; set_solver].
    rewrite (H2 (l :: y :: a) l' b eq_refl). by rewrite !link_at_middle, !last_cons; destruct (last a).
Qed.

Lemma backward_concat m m' h1 h2 ls1 ls2 :
  backward m h1 ls1 → backward m h2 ls2 → NoDup (ls1 ++ ls2) →
  (∀ l', head ls2 = Some l' → back m' l' = Some (link_at h1 ls1)) →
  (∀ l', l' ∈ ls1 ++ ls2 → head ls2 ≠ Some l' → back m' l' = back m l') →
  backward m' h1 (ls1 ++ ls2).
Proof.
  intros H1 H2 Hnd Hh Hrest. apply NoDup_app in Hnd as (_ & Hd & Hnd2). apply backward_app. split.
  - apply (backward_frame m); [|done]. intros l' Hl'. apply Hrest; [set_solver|].
    intros Hh'. destruct ls2; simplify_eq/=. destruct (Hd _ Hl'). by left.
  - intros [|y a] l' b E; simplify_eq/=; [rewrite app_nil_r; by apply Hh|].
    apply NoDup_cons in Hnd2 as [Hy Hnd2]. rewrite Hrest; [|set_solver|intros [= ->]; set_solver].
    rewrite (H2 (y :: a) l' b eq_refl). f_equal. apply (link_at_tail h2 h1 [] ls1).
Qed.
End previous.

(** *** The checks of a build with INVARIANTS

    [QMD_LIST_CHECK_HEAD], [_NEXT], [_PREV] and [QMD_TAILQ_CHECK_HEAD], [_NEXT],
    [_PREV] differ in the names of the fields only.  [invariants] says whether
    the build defines [_KERNEL] and [INVARIANTS]; otherwise they are empty. *)

Class Invariants := invariants : bool.

Section checks.
Context {N H : Type} `{HN : NextField N} `{HP : !PrevField N} `{HH : FirstField H}.
Context {INV : Invariants}.
Abbreviation Q := (M (memory N H)).
Implicit Types (m : memory N H) (elm : node_ptr) (head hd : nat).

Definition check_head head : Q () :=
  if invariants then
    first ← load_link (FirstOf head);
    if decide (first ≠ None) then
      first ← load_link (FirstOf head);
      prev ← load_prev first;
      if decide (prev ≠ FirstOf head) then fail Panic else mret ()
    else mret ()
  else mret ().

Definition check_next elm : Q () :=
  if invariants then
    next ← load_link (next_link elm);
    if decide (next ≠ None) then
      next ← load_link (next_link elm);
      prev ← load_prev next;
      if decide (prev ≠ next_link elm) then fail Panic else mret ()
    else mret ()
  else mret ().

Definition check_prev elm : Q () :=
  if invariants then
    prev ← load_prev elm;
    p ← load_link prev;
    if decide (p ≠ elm) then fail Panic else mret ()
  else mret ().

(** What they check; a panic is all that can go wrong. *)
Definition head_agrees m head : bool :=
  match content m (FirstOf head) with
  | Some (Some l) => bool_decide (back m l = Some (FirstOf head))
  | _ => true
  end.
Definition next_agrees m (l : positive) : bool :=
  match content m (NextOf l) with
  | Some (Some j) => bool_decide (back m j = Some (NextOf l))
  | _ => true
  end.
Definition prev_agrees m (l : positive) : bool :=
  match back m l with
  | Some k => bool_decide (content m k = Some (Some l))
  | None => true
  end.

(** A check is a test of these; it needs the structs it looks at. *)
Lemma check_head_run m hd :
  is_Some (content m (FirstOf hd)) →
  (∀ j, content m (FirstOf hd) = Some (Some j) → is_Some (back m j)) →
  check_head hd m = if invariants && negb (head_agrees m hd) then Fault Panic else Ok () m.
Proof.
  intros [p Hp] Hj. unfold check_head, head_agrees, load_link, load_prev, mbind, M_bind, gets.
  destruct invariants; [|done]. rewrite Hp. cbn [lift mret M_ret].
  case_decide as Hn; [|by destruct p]. rewrite Hp. cbn [lift mret M_ret].
  destruct p as [j|]; [|done]. destruct (Hj j Hp) as [k Hk]. rewrite Hk. cbn [lift mret M_ret].
  case_decide; case_bool_decide; simplify_eq; done.
Qed.

Lemma check_next_run m l :
  is_Some (content m (NextOf l)) →
  (∀ j, content m (NextOf l) = Some (Some j) → is_Some (back m j)) →
  check_next (Some l) m = if invariants && negb (next_agrees m l) then Fault Panic else Ok () m.
Proof.
  intros [p Hp] Hj. unfold check_next, next_agrees, load_link, load_prev, mbind, M_bind, gets, next_link.
  destruct invariants; [|done]. rewrite Hp. cbn [lift mret M_ret].
  case_decide as Hn; [|by destruct p]. rewrite Hp. cbn [lift mret M_ret].
  destruct p as [j|]; [|done]. destruct (Hj j Hp) as [k Hk]. rewrite Hk. cbn [lift mret M_ret].
  case_decide; case_bool_decide; simplify_eq; done.
Qed.

Lemma check_prev_run m l k :
  back m l = Some k → is_Some (content m k) →
  check_prev (Some l) m = if invariants && negb (prev_agrees m l) then Fault Panic else Ok () m.
Proof.
  intros Hk [p Hp]. unfold check_prev, prev_agrees, load_link, load_prev, mbind, M_bind, gets.
  destruct invariants; [|done]. rewrite Hk. cbn [lift mret M_ret]. rewrite Hp. cbn [lift mret M_ret].
  case_decide; case_bool_decide; simplify_eq; done.
Qed.

(** On a list no check panics. *)
Lemma wp_check_head m hd ls F (R : () → memory N H → Prop) :
  qlist m hd ls → backward m hd ls → R () m → wp (check_head hd) F R m.
Proof.
  intros Hq Hb HR. pose proof (queue_first _ _ _ Hq) as Hf.
  assert (∀ j, content m (FirstOf hd) = Some (Some j) → back m j = Some (FirstOf hd)) as Hj.
  { intros j. rewrite Hf. intros [= E]. destruct ls as [|l ls]; [done|]. injection E as <-.
    by apply (Hb [] l ls). }
  unfold wp. rewrite check_head_run; [|by eexists|intros; eexists; by apply Hj].
  assert (head_agrees m hd = true) as ->; [|by rewrite andb_false_r].
  unfold head_agrees. destruct (content m (FirstOf hd)) as [[j|]|] eqn:E; [|done..].
  by rewrite bool_decide_true by (by apply Hj).
Qed.

Lemma wp_check_next m hd ls1 l ls2 F (R : () → memory N H → Prop) :
  qlist m hd (ls1 ++ l :: ls2) → backward m hd (ls1 ++ l :: ls2) → R () m →
  wp (check_next (Some l)) F R m.
Proof.
  intros Hq Hb HR. pose proof (queue_next _ _ _ _ _ Hq) as Hn.
  assert (∀ j, content m (NextOf l) = Some (Some j) → back m j = Some (NextOf l)) as Hj.
  { intros j. rewrite Hn. intros [= E]. destruct ls2 as [|k ls2]; [done|]. injection E as <-.
    rewrite <-(link_at_snoc hd ls1 l). apply (Hb (ls1 ++ [l]) k ls2). by rewrite <-(assoc_L (++)). }
  unfold wp. rewrite check_next_run; [|by eexists|intros; eexists; by apply Hj].
  assert (next_agrees m l = true) as ->; [|by rewrite andb_false_r].
  unfold next_agrees. destruct (content m (NextOf l)) as [[j|]|] eqn:E; [|done..].
  by rewrite bool_decide_true by (by apply Hj).
Qed.

Lemma wp_check_prev m hd ls1 l ls2 F (R : () → memory N H → Prop) :
  qlist m hd (ls1 ++ l :: ls2) → backward m hd (ls1 ++ l :: ls2) → R () m →
  wp (check_prev (Some l)) F R m.
Proof.
  intros [_ Hq] Hb HR. pose proof (Hb ls1 l ls2 eq_refl) as Hl.
  pose proof (Hq ls1 (l :: ls2) eq_refl) as Hc. simpl in Hc.
  unfold wp. rewrite (check_prev_run _ _ _ Hl) by (by eexists).
  unfold prev_agrees. rewrite Hl, bool_decide_true by done. by rewrite andb_false_r.
Qed.

(** Structs hold no address of a struct that is not there. *)
Record links_live m : Prop := {
  live_next k j : content m k = Some (Some j) → is_Some (back m j);
  live_prev l k : back m l = Some k → is_Some (content m k) }.

Definition pointee_live m (p : node_ptr) : bool :=
  match p with Some j => bool_decide (is_Some (back m j)) | None => true end.

Lemma links_live_check m :
  map_Forall (λ _ n, pointee_live m (next_of n) ∧ is_Some (content m (prev_of n))) (elems m) →
  map_Forall (λ _ h, pointee_live m (first_of h)) (qheads m) → links_live m.
Proof.
  intros Hn Hh. split.
  - intros [|hd|l] j; unfold content; [done|..]; intros (x & Hx & E)%fmap_Some.
    + pose proof (Hh _ _ Hx) as Hj. simpl in Hj. rewrite <-E in Hj. by apply bool_decide_unpack in Hj.
    + pose proof (Hn _ _ Hx) as [Hj _]. rewrite <-E in Hj. by apply bool_decide_unpack in Hj.
  - intros l k. unfold back. intros (x & Hx & ->)%fmap_Some. apply (Hn _ _ Hx).
Qed.
End checks.

(** A check in front of the rest of an operation. *)
Lemma bind_check {S A} (chk : M S ()) (k : M S A) (b : bool) s :
  chk s = (if b then Fault Panic else Ok () s) → (chk;; k) s = if b then Fault Panic else k s.
Proof. unfold mbind, M_bind. intros ->. by destruct b. Qed.

(** ** The last link of a head *)

Section last.
Context {N H : Type} `{HN : NextField N} `{HH : FirstField H} `{HL : !LastField H}.
Abbreviation Q := (M (memory N H)).
Implicit Types (m : memory N H) (k : link) (p elm : node_ptr) (l : positive) (hd : nat)
  (ls : list positive).

Definition tail m hd : option link := last_of <$> qheads m !! hd.

Definition put_last hd k m : memory N H := alter_head (with_last k) hd m.

(** [(head)->tqh_last] and [(head)->tqh_last = k]. *)
Definition load_last hd : Q link := t ← gets (λ m, tail m hd); lift UseAfterFree t.
Definition store_last hd k : Q () := load_last hd;; modify (put_last hd k).

Lemma tail_is_Some m hd : is_Some (tail m hd) ↔ is_Some (content m (FirstOf hd)).
Proof. unfold tail. simpl. by rewrite !fmap_is_Some. Qed.

Lemma tail_put_link k0 p m hd : tail (put_link k0 p m) hd = tail m hd.
Proof.
  unfold tail. destruct k0 as [|hd0|l0]; simpl; try done.
  destruct (decide (hd = hd0)) as [->|Hne]; [|by rewrite lookup_alter_ne].
  rewrite lookup_alter_eq. destruct (_ !! _); simpl; [|done]. by rewrite last_with_first.
Qed.

Lemma content_put_last hd0 k0 m k : content (put_last hd0 k0 m) k = content m k.
Proof.
  destruct k as [|hd|l]; simpl; try done.
  destruct (decide (hd = hd0)) as [->|Hne]; [|by rewrite lookup_alter_ne].
  rewrite lookup_alter_eq. destruct (_ !! _); simpl; [|done]. by rewrite first_with_last.
Qed.

Lemma tail_put_last hd0 k m hd :
  tail (put_last hd0 k m) hd = if decide (hd = hd0) then (λ _, k) <$> tail m hd else tail m hd.
Proof.
  unfold tail. simpl. case_decide as Hne; [subst|by rewrite lookup_alter_ne].
  rewrite lookup_alter_eq. destruct (_ !! _); simpl; [|done]. by rewrite last_with_last.
Qed.

Lemma wp_load_last hd k m F (R : link → memory N H → Prop) :
  tail m hd = Some k → R k m → wp (load_last hd) F R m.
Proof. intros Hb HR. unfold load_last. wp_step. wp_step. rewrite Hb. by wp_step. Qed.

Lemma wp_store_last hd k m F (R : () → memory N H → Prop) :
  is_Some (content m (FirstOf hd)) → R () (put_last hd k m) → wp (store_last hd k) F R m.
Proof.
  intros [k' Hk]%tail_is_Some HR. unfold store_last. wp_step. eapply wp_load_last; [done|]. by wp_step.
Qed.
End last.

Lemma back_put_last {N H} `{HN : NextField N} `{HP : !PrevField N} `{HH : FirstField H} `{HL : !LastField H}
    hd k (m : memory N H) l : back (put_last hd k m) l = back m l.
Proof. done. Qed.

Lemma tail_put_prev {N H} `{HN : NextField N} `{HP : !PrevField N} `{HH : FirstField H} `{HL : !LastField H}
    l k (m : memory N H) hd : tail (put_prev l k m) hd = tail m hd.
Proof. done. Qed.

#[global] Arguments content {_ _ _ _} _ _ : simpl never.
#[global] Arguments put_link {_ _ _ _} _ _ _ : simpl never.
#[global] Arguments back {_ _ _ _} _ _ : simpl never.
#[global] Arguments put_prev {_ _ _ _} _ _ _ : simpl never.
#[global] Arguments load_prev {_ _ _ _} _ _ : simpl never.
#[global] Arguments store_prev {_ _ _ _} _ _ _ : simpl never.
#[global] Arguments tail {_ _ _ _} _ _ : simpl never.
#[global] Arguments put_last {_ _ _ _} _ _ _ : simpl never.

Create HintDb queue.
Create HintDb queue_alive.
#[export] Hint Rewrite @content_put_link @content_put_prev @content_put_last @back_put_link
  @back_put_prev @back_put_last @tail_put_link @tail_put_prev @tail_put_last : queue.

(** *** Structs stay where they are *)

Section alive.
Context {N H : Type} `{HN : NextField N} `{HP : !PrevField N} `{HH : FirstField H} `{HL : !LastField H}.
Implicit Types (m : memory N H) (k : link).

Lemma alive_put_link k0 p m k : is_Some (content (put_link k0 p m) k) ↔ is_Some (content m k).
Proof. rewrite content_put_link. case_decide; [|done]. by rewrite fmap_is_Some. Qed.
Lemma alive_put_prev l0 k0 m k : is_Some (content (put_prev l0 k0 m) k) ↔ is_Some (content m k).
Proof. by rewrite content_put_prev. Qed.
Lemma alive_put_last hd k0 m k : is_Some (content (put_last hd k0 m) k) ↔ is_Some (content m k).
Proof. by rewrite content_put_last. Qed.
End alive.

#[export] Hint Rewrite @alive_put_link @alive_put_prev @alive_put_last : queue_alive.

(** The struct of a link is there: by what is known of the memory before. *)
Ltac alive := autorewrite with queue_alive; first [done | by eexists | eauto].

(** What a link holds after some stores. *)
Ltac held := autorewrite with queue; repeat case_decide; simplify_eq; try done;
  repeat match goal with
  | E : content ?m ?k = Some _ |- context [content ?m ?k] => rewrite E; simpl
  | E : back ?m ?l = Some _ |- context [back ?m ?l] => rewrite E; simpl
  | E : tail ?m ?h = Some _ |- context [tail ?m ?h] => rewrite E; simpl
  end; try done.

(** [free(elm)]. *)
Definition drop_elm {N H} (l : positive) (m : memory N H) : memory N H :=
  mk_memory (delete l (elems m)) (qheads m).

Definition free_elm {N H} `{HN : NextField N} `{HH : FirstField H} (elm : node_ptr) : M (memory N H) () :=
  match elm with
  | None => mret ()
  | Some l =>
     c ← gets (λ m, content m (NextOf l));
     match c with Some _ => modify (drop_elm l) | None => fail BadFree end
  end.

Section free.
Context {N H : Type} `{HN : NextField N} `{HP : !PrevField N} `{HH : FirstField H}.
Implicit Types (m : memory N H) (k : link) (l : positive).

Lemma content_drop_elm l m k :
  content (drop_elm l m) k = if decide (k = NextOf l) then None else content m k.
Proof.
  destruct k as [|hd|l']; unfold content; simpl; [done|done|].
  destruct (decide (l' = l)) as [->|Hne].
  - by rewrite lookup_delete_eq, decide_True.
  - by rewrite lookup_delete_ne, decide_False by congruence.
Qed.

Lemma back_drop_elm l m l' : back (drop_elm l m) l' = if decide (l' = l) then None else back m l'.
Proof.
  unfold back. simpl. case_decide as Hd; [subst; by rewrite lookup_delete_eq|by rewrite lookup_delete_ne].
Qed.

Lemma wp_free_elm l m F (R : () → memory N H → Prop) :
  is_Some (content m (NextOf l)) → R () (drop_elm l m) → wp (free_elm (Some l)) F R m.
Proof. intros [p Hp] HR. unfold free_elm. wp_step. wp_step. rewrite Hp. by wp_step. Qed.

Lemma queue_drop_elm l m hd ls : l ∉ ls → qlist m hd ls → qlist (drop_elm l m) hd ls.
Proof.
  intros Hl. apply queue_frame; intros; rewrite content_drop_elm, decide_False; [done..|done|].
  intros [= ->]. done.
Qed.

Lemma backward_drop_elm l m hd ls : l ∉ ls → backward m hd ls → backward (drop_elm l m) hd ls.
Proof. intros Hl. apply backward_frame. intros. by rewrite back_drop_elm, decide_False by by intros ->. Qed.
End free.

(** *** What an operation leaves alone *)

Section changed.
Context {N H : Type} `{HN : NextField N} `{HP : !PrevField N} `{HH : FirstField H}.
Context {D : Type} (data : N → D).
Implicit Types (m : memory N H) (k : link) (l : positive) (hd : nat) (ls : list positive).

(** Only links of the heads [hds] and of the elements [ls] have changed. *)
Record changed m m' (hds : list nat) ls : Prop := {
  ch_head hd : hd ∉ hds → content m' (FirstOf hd) = content m (FirstOf hd);
  ch_next l : l ∉ ls → content m' (NextOf l) = content m (NextOf l);
  ch_prev l : l ∉ ls → back m' l = back m l;
  ch_alive k : is_Some (content m' k) ↔ is_Some (content m k);
  ch_data : data <$> elems m' = data <$> elems m }.

Lemma changed_refl m hds ls : changed m m hds ls.
Proof. done. Qed.

Lemma changed_trans m1 m2 m3 hds ls1 ls2 ls3 :
  changed m1 m2 hds ls1 → changed m2 m3 hds ls2 → ls1 ⊆ ls3 → ls2 ⊆ ls3 → changed m1 m3 hds ls3.
Proof.
  intros [] [] Hs1 Hs2. split; intros.
  - by rewrite ch_head1, ch_head0.
  - rewrite ch_next1, ch_next0 by set_solver. done.
  - rewrite ch_prev1, ch_prev0 by set_solver. done.
  - by rewrite ch_alive1.
  - congruence.
Qed.

Lemma queue_changed m m' hds ls hd ls' :
  changed m m' hds ls → hd ∉ hds → ls' ## ls → qlist m hd ls' → qlist m' hd ls'.
Proof. intros [] ? Hd. apply queue_frame; [auto|]. intros l Hl. apply ch_next0. set_solver. Qed.

Lemma backward_changed m m' hds ls hd ls' :
  changed m m' hds ls → ls' ## ls → backward m hd ls' → backward m' hd ls'.
Proof. intros [] Hd. apply backward_frame. intros l Hl. apply ch_prev0. set_solver. Qed.

Lemma data_alter (f : N → N) l (ns : gmap positive N) :
  (∀ n, data (f n) = data n) → data <$> alter f l ns = data <$> ns.
Proof.
  intros Hf. apply map_eq. intros k. rewrite !lookup_fmap. destruct (decide (k = l)) as [->|Hne].
  - rewrite lookup_alter_eq. destruct (ns !! l); simpl; [by rewrite Hf|done].
  - by rewrite lookup_alter_ne.
Qed.

Context (Hnext : ∀ p n, data (with_next p n) = data n) (Hprev : ∀ k n, data (with_prev k n) = data n).

Lemma changed_put_link m1 m k p hds ls :
  changed m1 m hds ls →
  match k with NullLink => True | FirstOf hd => hd ∈ hds | NextOf l => l ∈ ls end →
  changed m1 (put_link k p m) hds ls.
Proof.
  intros [] Hk. split; intros.
  - rewrite content_put_link, decide_False by by (intros <-). auto.
  - rewrite content_put_link, decide_False by by (intros <-). auto.
  - rewrite back_put_link. auto.
  - by rewrite alive_put_link.
  - rewrite <-ch_data0. destruct k; simpl; [done|done|]. by apply data_alter.
Qed.

Lemma changed_put_prev m1 m l k hds ls :
  changed m1 m hds ls → l ∈ ls → changed m1 (put_prev l k m) hds ls.
Proof.
  intros [] Hl. split; intros.
  - rewrite content_put_prev. auto.
  - rewrite content_put_prev. auto.
  - rewrite back_put_prev, decide_False by by (intros ->). auto.
  - by rewrite alive_put_prev.
  - rewrite <-ch_data0. simpl. by apply data_alter.
Qed.

Lemma changed_put_last `{HL : !LastField H} m1 m hd k hds ls :
  changed m1 m hds ls → changed m1 (put_last hd k m) hds ls.
Proof.
  intros []. split; intros; rewrite ?content_put_last, ?back_put_last; auto.
Qed.
End changed.

(** The link behind a part of the list [hd] is the head's or an element's. *)
Lemma link_at_mine (hd : nat) (hds : list nat) (ls1 ls : list positive) :
  hd ∈ hds → ls1 ⊆ ls →
  match link_at hd ls1 with NullLink => True | FirstOf hd => hd ∈ hds | NextOf l => l ∈ ls end.
Proof.
  intros Hh Hl. destruct (link_at hd ls1) eqn:E; [done| |].
  - by apply link_at_FirstOf in E as [_ ->].
  - by eapply Hl, link_at_NextOf.
Qed.

(** The stores of an operation, one by one. *)
Ltac changes :=
  repeat first
    [ apply changed_put_link; [done| |]
    | apply changed_put_prev; [done| |]
    | apply changed_put_last ]; try apply changed_refl;
  try (apply link_at_mine); simpl; set_solver.

(** One load or store, or a step of the monad. *)
Ltac qstep :=
  lazymatch goal with
  | |- wp (load_link _) _ _ _ => eapply wp_load_link; [by held|]
  | |- wp (store_link _ _) _ _ _ => eapply wp_store_link; [by alive|]
  | |- wp (load_prev (Some _)) _ _ _ => eapply wp_load_prev; [by held|]
  | |- wp (store_prev (Some _) _) _ _ _ => eapply wp_store_prev; [by alive|]
  | |- wp (load_last _) _ _ _ => eapply wp_load_last; [by held|]
  | |- wp (store_last _ _) _ _ _ => eapply wp_store_last; [by alive|]
  | |- wp (if decide (Some _ ≠ None) then _ else _) _ _ _ => rewrite decide_True by done
  | |- wp (if decide (None ≠ None) then _ else _) _ _ _ => rewrite decide_False by (intros E; by apply E)
  | |- wp _ _ _ _ => wp_step
  end; simpl.
Ltac qsteps := repeat qstep.

(** The conditions of a splicing lemma [H], by what the links hold. *)
Tactic Notation "splice" uconstr(H) :=
  first [eapply H | apply H]; try done; try (unfold link_at; simpl; intros; by held); try (intros; by held).

(** ** Loops *)

(** [for (var = first; var; var = next)]; [turn] is the body together with the
    step to the next element. *)
Fixpoint for_loop {S} (fuel : nat) (turn : node_ptr → M S node_ptr) (var : node_ptr) : M S () :=
  match fuel with
  | O => diverge
  | Datatypes.S fuel =>
     if decide (var ≠ None) then var ← turn var; for_loop fuel turn var else mret ()
  end.

(** [while (next(curelm) != NULL) curelm = next(curelm);] *)
Fixpoint walk_to_last {S} (fuel : nat) (next : node_ptr → M S node_ptr) (curelm : node_ptr) :
    M S node_ptr :=
  match fuel with
  | O => diverge
  | Datatypes.S fuel =>
     n ← next curelm;
     if decide (n ≠ None) then curelm ← next curelm; walk_to_last fuel next curelm
     else mret curelm
  end.

Section loops.
Context {S : Type}.
Implicit Types (s : S) (ls : list positive).

(** [I done] holds when the elements [done] have had their turn. *)
Lemma for_loop_spec fuel turn pre ls s (I : list positive → S → Prop) :
  I pre s → length ls < fuel →
  (∀ before l rest s, pre ++ ls = before ++ l :: rest → I before s →
     wp (turn (Some l)) safe (λ next s', next = head rest ∧ I (before ++ [l]) s') s) →
  wp (for_loop fuel turn (head ls)) safe (λ _ s', I (pre ++ ls) s') s.
Proof.
  revert pre ls s. induction fuel as [|fuel IH]; intros pre ls s HI Hf Ht; [lia|].
  cbn [for_loop]. destruct ls as [|l ls]; simpl.
  - wp_step. by rewrite app_nil_r.
  - wp_step. eapply wp_mono; [by apply (Ht pre l ls)|done|]. intros next s' [-> HI'].
    eapply wp_mono; [apply (IH (pre ++ [l])); [done|simpl in Hf; lia|]|done|].
    + intros before l' rest s1 E. apply Ht. by rewrite <-E, <-(assoc_L (++)).
    + intros ? s1. by rewrite <-(assoc_L (++)).
Qed.

Lemma walk_to_last_spec fuel next ls l s (R : node_ptr → S → Prop) :
  (∀ ls1 k ls2, ls ++ [l] = ls1 ++ k :: ls2 → next (Some k) s = Ok (head ls2) s) →
  length ls < fuel → R (Some l) s →
  wp (walk_to_last fuel next (head (ls ++ [l]))) safe R s.
Proof.
  revert ls. induction fuel as [|fuel IH]; intros ls Hn Hf HR; [lia|]. cbn [walk_to_last].
  destruct ls as [|k ls]; simpl.
  - wp_step. unfold wp at 1. by rewrite (Hn [] l []).
  - assert (next (Some k) s = Ok (head (ls ++ [l])) s) as E by by apply (Hn [] k (ls ++ [l])).
    wp_step. unfold wp at 1. rewrite E. rewrite decide_True by by destruct ls.
    wp_step. unfold wp at 1. rewrite E. apply IH; [|simpl in Hf; lia|done].
    intros ls1 k' ls2 E'. apply (Hn (k :: ls1)). simpl. by rewrite E'.
Qed.
End loops.

#[global] Arguments for_loop {_} _ _ _ : simpl never.
#[global] Arguments walk_to_last {_} _ _ _ : simpl never.

(** ** Lists as programs see them

    Insertions and removals on a list without repetition; [None] when the
    element to insert is already there or the place is not. *)

Inductive edit :=
  | InsertHead (l : positive)
  | InsertAfter (k l : positive)
  | InsertBefore (k l : positive)
  | Remove (l : positive).

Definition inserted (e : edit) : list positive :=
  match e with InsertHead l | InsertAfter _ l | InsertBefore _ l => [l] | Remove _ => [] end.

(** The elements an edit looks at. *)
Definition looked_at (e : edit) : list positive :=
  match e with InsertHead _ => [] | InsertAfter k _ | InsertBefore k _ => [k] | Remove l => [l] end.

(** What the checks in front of it ask. *)
Definition edit_agrees {N H} `{HN : NextField N} `{HP : !PrevField N} `{HH : FirstField H}
    (hd : nat) (e : edit) (m : memory N H) : bool :=
  match e with
  | InsertHead _ => head_agrees m hd
  | InsertAfter k _ => next_agrees m k
  | InsertBefore k _ => prev_agrees m k
  | Remove l => next_agrees m l && prev_agrees m l
  end.

(** [k] replaced by [f k]. *)
Fixpoint at_elem (k : positive) (new : list positive) (ls : list positive) : option (list positive) :=
  match ls with
  | [] => None
  | x :: ls => if decide (x = k) then Some (new ++ ls) else (x ::.) <$> at_elem k new ls
  end.

Definition apply_edit (ls : list positive) (e : edit) : option (list positive) :=
  match e with
  | InsertHead l => if decide (l ∈ ls) then None else Some (l :: ls)
  | InsertAfter k l => if decide (l ∈ ls) then None else at_elem k [k; l] ls
  | InsertBefore k l => if decide (l ∈ ls) then None else at_elem k [l; k] ls
  | Remove l => at_elem l [] ls
  end.

Fixpoint apply_edits (ls : list positive) (es : list edit) : option (list positive) :=
  match es with [] => Some ls | e :: es => ls ← apply_edit ls e; apply_edits ls es end.

Lemma at_elem_Some k new ls ls' :
  at_elem k new ls = Some ls' → ∃ ls1 ls2, ls = ls1 ++ k :: ls2 ∧ ls' = ls1 ++ new ++ ls2.
Proof.
  revert ls'. induction ls as [|x ls IH]; intros ls'; simpl; [done|]. case_decide as Hx.
  - intros [= <-]. subst. by exists [], ls.
  - intros (ls0 & Hls & ->)%fmap_Some. destruct (IH ls0 Hls) as (ls1 & ls2 & -> & ->).
    by exists (x :: ls1), ls2.
Qed.
