(* ===== verification/ListMacros.v ===== *)
(** * Doubly-linked lists ([server/queue.h], the LIST macros)

    The macros over the memory of [Queue].  [blist m hd ls] says that the list
    of head [hd] holds the elements [ls], forwards and backwards. *)

From S2P Require Import Prelude Slist Queue.

(** [LIST_HEAD] and [LIST_ENTRY] in a struct with other fields [list_data]. *)
Record list_head := mk_list_head { lh_first : node_ptr }.
Record list_node (T : Type) := mk_list_node { le_next : node_ptr; le_prev : link; list_data : T }.
Arguments mk_list_node {T} _ _ _.
Arguments le_next {T} _.
Arguments le_prev {T} _.
Arguments list_data {T} _.

#[export] Instance list_next T : NextField (list_node T) := {|
  next_of := le_next;
  with_next p n := mk_list_node p (le_prev n) (list_data n);
  next_with_next _ _ := eq_refl |}.
#[export] Instance list_prev T : PrevField (list_node T) := {|
  prev_of := le_prev;
  with_prev k n := mk_list_node (le_next n) k (list_data n);
  prev_with_prev _ _ := eq_refl;
  prev_with_next _ _ := eq_refl;
  next_with_prev _ _ := eq_refl |}.
#[export] Instance list_first : FirstField list_head := {|
  first_of := lh_first;
  with_first p _ := mk_list_head p;
  first_with_first _ _ := eq_refl |}.

(** [LIST_HEAD_INITIALIZER]. *)
Definition LIST_HEAD_INITIALIZER : list_head := mk_list_head None.

Section macros.
Context {INV : Invariants} {T : Type}.
Abbreviation memory := (memory (list_node T) list_head).
Abbreviation Q := (M memory).
Implicit Types (m : memory) (elm listelm : node_ptr) (head : nat).

Definition LIST_FIRST head : Q node_ptr := load_link (FirstOf head).
Definition LIST_NEXT elm : Q node_ptr := load_link (next_link elm).
Definition LIST_EMPTY head : Q bool := p ← LIST_FIRST head; mret (bool_decide (p = None)).
Definition LIST_INIT head : Q () := store_link (FirstOf head) None.

Definition LIST_PREV elm head : Q node_ptr :=
  k ← load_prev elm;
  if decide (k = FirstOf head) then mret None
  else k ← load_prev elm; containerof k.

Definition QMD_LIST_CHECK_HEAD head : Q () := check_head head.
Definition QMD_LIST_CHECK_NEXT elm : Q () := check_next elm.
Definition QMD_LIST_CHECK_PREV elm : Q () := check_prev elm.

Definition LIST_INSERT_AFTER listelm elm : Q () :=
  QMD_LIST_CHECK_NEXT listelm;;
  next ← LIST_NEXT listelm;
  store_link (next_link elm) next;;
  (if decide (next ≠ None) then
     next ← LIST_NEXT listelm; store_prev next (next_link elm)
   else mret ());;
  store_link (next_link listelm) elm;;
  store_prev elm (next_link listelm).

Definition LIST_INSERT_BEFORE listelm elm : Q () :=
  QMD_LIST_CHECK_PREV listelm;;
  prev ← load_prev listelm;
  store_prev elm prev;;
  store_link (next_link elm) listelm;;
  prev ← load_prev listelm;
  store_link prev elm;;
  store_prev listelm (next_link elm).

Definition LIST_INSERT_HEAD head elm : Q () :=
  QMD_LIST_CHECK_HEAD head;;
  first ← LIST_FIRST head;
  store_link (next_link elm) first;;
  (if decide (first ≠ None) then
     first ← LIST_FIRST head; store_prev first (next_link elm)
   else mret ());;
  store_link (FirstOf head) elm;;
  store_prev elm (FirstOf head).

Definition LIST_REMOVE elm : Q () :=
  QMD_LIST_CHECK_NEXT elm;;
  QMD_LIST_CHECK_PREV elm;;
  next ← LIST_NEXT elm;
  (if decide (next ≠ None) then
     next ← LIST_NEXT elm; prev ← load_prev elm; store_prev next prev
   else mret ());;
  prev ← load_prev elm;
  next ← LIST_NEXT elm;
  store_link prev next.

Definition LIST_CONCAT head1 head2 : Q () :=
  curelm ← LIST_FIRST head1;
  if decide (curelm = None) then
    first2 ← LIST_FIRST head2;
    store_link (FirstOf head1) first2;;
    if decide (first2 ≠ None) then
      first2 ← LIST_FIRST head2;
      store_prev first2 (FirstOf head1);;
      LIST_INIT head2
    else mret ()
  else
    first2 ← LIST_FIRST head2;
    if decide (first2 ≠ None) then
      fuel ← gets elems_fuel;
      curelm ← walk_to_last fuel LIST_NEXT curelm;
      first2 ← LIST_FIRST head2;
      store_link (next_link curelm) first2;;
      first2 ← LIST_FIRST head2;
      store_prev first2 (next_link curelm);;
      LIST_INIT head2
    else mret ().

Definition LIST_SWAP head1 head2 : Q () :=
  swap_tmp ← LIST_FIRST head1;
  first2 ← LIST_FIRST head2;
  store_link (FirstOf head1) first2;;
  store_link (FirstOf head2) swap_tmp;;
  swap_tmp ← LIST_FIRST head1;
  (if decide (swap_tmp ≠ None) then store_prev swap_tmp (FirstOf head1) else mret ());;
  swap_tmp ← LIST_FIRST head2;
  (if decide (swap_tmp ≠ None) then store_prev swap_tmp (FirstOf head2) else mret ()).

Definition LIST_FOREACH_FROM (var : node_ptr) head (body : node_ptr → Q ()) : Q () :=
  fuel ← gets elems_fuel;
  var ← match var with Some _ => mret var | None => LIST_FIRST head end;
  for_loop fuel (λ var, body var;; LIST_NEXT var) var.

Definition LIST_FOREACH head (body : node_ptr → Q ()) : Q () :=
  fuel ← gets elems_fuel;
  var ← LIST_FIRST head;
  for_loop fuel (λ var, body var;; LIST_NEXT var) var.

Definition LIST_FOREACH_FROM_SAFE (var : node_ptr) head (body : node_ptr → Q ()) : Q () :=
  fuel ← gets elems_fuel;
  var ← match var with Some _ => mret var | None => LIST_FIRST head end;
  for_loop fuel (λ var, tvar ← LIST_NEXT var; body var;; mret tvar) var.

Definition LIST_FOREACH_SAFE head (body : node_ptr → Q ()) : Q () :=
  fuel ← gets elems_fuel;
  var ← LIST_FIRST head;
  for_loop fuel (λ var, tvar ← LIST_NEXT var; body var;; mret tvar) var.
End macros.

(** ** Programs of insertions and removals *)

Definition list_edit `{INV : Invariants} {T} (hd : nat) (e : edit) : M (memory (list_node T) list_head) () :=
  match e with
  | InsertHead l => LIST_INSERT_HEAD hd (Some l)
  | InsertAfter k l => LIST_INSERT_AFTER (Some k) (Some l)
  | InsertBefore k l => LIST_INSERT_BEFORE (Some k) (Some l)
  | Remove l => LIST_REMOVE (Some l)
  end.

Fixpoint list_edits `{INV : Invariants} {T} (hd : nat) (es : list edit) : M (memory (list_node T) list_head) () :=
  match es with [] => mret () | e :: es => list_edit hd e;; list_edits hd es end.

(** [if (doomed) { LIST_REMOVE(var); free(var); }] *)
Definition list_remove_and_free `{INV : Invariants} {T} (doomed : positive → bool) (var : node_ptr) :
    M (memory (list_node T) list_head) () :=
  match var with
  | Some l => if doomed l then LIST_REMOVE var;; free_elm var else mret ()
  | None => mret ()
  end.

Section specs.
Context {INV : Invariants} {T : Type}.
Abbreviation memory := (memory (list_node T) list_head).
Implicit Types (m : memory) (hd : nat) (l : positive) (ls : list positive).

Definition blist m hd ls : Prop := qlist m hd ls ∧ backward m hd ls.

(** Only links of [hd] and of [ls] have changed; the data is untouched. *)
Definition list_links_of m m' hd ls : Prop := changed list_data m m' [hd] ls.

(** A head as its initialiser leaves it. *)
Lemma list_initializer_empty m hd : qheads m !! hd = Some LIST_HEAD_INITIALIZER → blist m hd [].
Proof.
  intros Hh. split; [|apply backward_nil]. apply queue_nil. unfold content. by rewrite Hh.
Qed.

Lemma blist_elem m hd ls l :
  blist m hd ls → l ∈ ls → ∃ p k, content m (NextOf l) = Some p ∧ back m l = Some k.
Proof. intros [Hq _] Hl. by eapply elem_fields, queue_elem. Qed.

Lemma blist_back m hd ls l : blist m hd ls → l ∈ ls → ∃ k, back m l = Some k.
Proof. intros Hb Hl. destruct (blist_elem _ _ _ _ Hb Hl) as (? & k & _ & ?). by exists k. Qed.

Lemma list_insert_head_spec m hd ls l :
  blist m hd ls → is_Some (content m (NextOf l)) → l ∉ ls →
  wp (LIST_INSERT_HEAD hd (Some l)) safe (λ _ m', blist m' hd (l :: ls) ∧ list_links_of m m' hd (l :: ls)) m.
Proof.
  intros Hb (x & px & Hx & Hpx)%elem_fields Hl. pose proof Hb as [Hq Hbk].
  pose proof (queue_first _ _ _ Hq) as Hf.
  assert (NoDup (l :: ls)) as Hnd by (constructor; [done|by destruct Hq]).
  unfold LIST_INSERT_HEAD, LIST_FIRST. wp_step. eapply wp_check_head; [done..|]. destruct ls as [|k ls]; simpl in *.
  - qsteps. split; [split|unfold list_links_of; changes].
    + splice (queue_splice_in m _ hd [] l []).
    + splice (backward_splice_in m _ hd [] l []).
  - assert (l ≠ k) by set_solver. destruct (blist_elem _ _ _ k Hb) as (y & py & Hy & Hpy); [set_solver|].
    qsteps. split; [split|unfold list_links_of; changes].
    + splice (queue_splice_in m _ hd [] l (k :: ls)).
    + splice (backward_splice_in m _ hd [] l (k :: ls)).
Qed.

Lemma list_insert_after_spec m hd ls1 k ls2 l :
  blist m hd (ls1 ++ k :: ls2) → is_Some (content m (NextOf l)) → l ∉ ls1 ++ k :: ls2 →
  wp (LIST_INSERT_AFTER (Some k) (Some l)) safe (λ _ m', blist m' hd (ls1 ++ k :: l :: ls2) ∧ list_links_of m m' hd (ls1 ++ k :: l :: ls2)) m.
Proof.
  intros Hb (x & px & Hx & Hpx)%elem_fields Hl. pose proof Hb as [Hq Hbk].
  unfold LIST_INSERT_AFTER, LIST_NEXT. wp_step. eapply wp_check_next; [done..|].
  pose proof (queue_next _ _ _ _ _ Hq) as Hk. pose proof Hq as [Hnd _].
  destruct (blist_back _ _ _ k Hb) as [py Hpy]; [set_solver|].
  rewrite cons_middle, (assoc_L (++)) in Hq, Hbk, Hl, Hnd |- *.
  assert (link_at hd (ls1 ++ [k]) = NextOf k) as Hat by apply link_at_snoc.
  assert (k ≠ l) by set_solver. simpl.
  assert (NoDup ((ls1 ++ [k]) ++ l :: ls2)) as Hnd'.
  { rewrite <-Permutation_middle. by constructor. }
  destruct ls2 as [|j ls2]; simpl in *.
  - qsteps. split; [split|unfold list_links_of; changes].
    + splice (queue_splice_in m _ hd (ls1 ++ [k]) l []); rewrite Hat; intros; by held.
    + splice (backward_splice_in m _ hd (ls1 ++ [k]) l []); rewrite ?Hat; intros; by held.
  - assert (j ≠ k ∧ j ≠ l) as [??].
    { split; [|set_solver]. intros ->. apply NoDup_app in Hnd as (_ & Hd & _). apply (Hd k); set_solver. }
    destruct (blist_elem _ _ _ j Hb) as (z & pz & Hz & Hpz); [set_solver|].
    qsteps. split; [split|unfold list_links_of; changes].
    + splice (queue_splice_in m _ hd (ls1 ++ [k]) l (j :: ls2)); rewrite Hat; intros; by held.
    + splice (backward_splice_in m _ hd (ls1 ++ [k]) l (j :: ls2)); rewrite ?Hat; intros; by held.
Qed.

(** An element on the list: its link, what the link holds, and what is behind. *)
Lemma blist_at m hd ls1 k ls2 :
  blist m hd (ls1 ++ k :: ls2) →
  content m (link_at hd ls1) = Some (Some k) ∧ back m k = Some (link_at hd ls1) ∧
  content m (NextOf k) = Some (head ls2) ∧ link_at hd ls1 ≠ NextOf k.
Proof.
  intros [Hq Hb]. pose proof Hq as [Hnd Hc]. split_and!.
  - by apply (Hc ls1 (k :: ls2)).
  - by eapply Hb.
  - by eapply queue_next.
  - intros E%link_at_NextOf. apply NoDup_app in Hnd as (_ & Hd & _). apply (Hd k E). by left.
Qed.

Lemma list_insert_before_spec m hd ls1 k ls2 l :
  blist m hd (ls1 ++ k :: ls2) → is_Some (content m (NextOf l)) → l ∉ ls1 ++ k :: ls2 →
  wp (LIST_INSERT_BEFORE (Some k) (Some l)) safe (λ _ m', blist m' hd (ls1 ++ l :: k :: ls2) ∧ list_links_of m m' hd (ls1 ++ l :: k :: ls2)) m.
Proof.
  intros Hb (x & px & Hx & Hpx)%elem_fields Hl. pose proof Hb as [Hq Hbk]. pose proof Hq as [Hnd _].
  destruct (blist_at _ _ _ _ _ Hb) as (Ha & Hka & Hk & Hak).
  assert (link_at hd ls1 ≠ NextOf l) as Hal by (intros E%link_at_NextOf; set_solver).
  assert (NoDup (ls1 ++ l :: k :: ls2)) as Hnd'.
  { rewrite <-Permutation_middle. by constructor. }
  assert (k ≠ l) by set_solver. unfold LIST_INSERT_BEFORE.
  wp_step. eapply wp_check_prev; [done..|]. simpl. qsteps. split; [split|unfold list_links_of; changes].
  - splice (queue_splice_in m _ hd ls1 l (k :: ls2)); simpl; intros; by held.
  - splice (backward_splice_in m _ hd ls1 l (k :: ls2)); simpl; intros; by held.
Qed.

Lemma list_remove_spec m hd ls1 l ls2 :
  blist m hd (ls1 ++ l :: ls2) →
  wp (LIST_REMOVE (Some l)) safe (λ _ m', blist m' hd (ls1 ++ ls2) ∧ list_links_of m m' hd (ls1 ++ l :: ls2)) m.
Proof.
  intros Hb. pose proof Hb as [Hq Hbk]. pose proof Hq as [Hnd _].
  destruct (blist_at _ _ _ _ _ Hb) as (Ha & Hla & Hl & Hal).
  unfold LIST_REMOVE, LIST_NEXT. wp_step. eapply wp_check_next; [done..|].
  wp_step. eapply wp_check_prev; [done..|]. simpl. destruct ls2 as [|k ls2]; simpl in *.
  - qsteps. split; [split|unfold list_links_of; changes].
    + splice (queue_splice_out m _ hd ls1 l []); simpl; intros; by held.
    + splice (backward_splice_out m _ hd ls1 l []); simpl; intros; by held.
  - destruct (blist_back _ _ _ k Hb) as [pk Hpk]; [set_solver|].
    destruct (blist_at m hd (ls1 ++ [l]) k ls2) as (_ & _ & Hk & _); [by rewrite <-(assoc_L (++))|].
    assert (l ≠ k) by (intros ->; apply NoDup_app in Hnd as (_ & _ & [Hin _]%NoDup_cons); set_solver).
    qsteps. split; [split|unfold list_links_of; changes].
    + splice (queue_splice_out m _ hd ls1 l (k :: ls2)); simpl; intros; by held.
    + splice (backward_splice_out m _ hd ls1 l (k :: ls2)); simpl; intros; by held.
Qed.

Lemma blist_length m hd ls : blist m hd ls → length ls < elems_fuel m.
Proof. intros [Hq _]. by eapply queue_length. Qed.

Lemma list_next_spec m hd ls1 l ls2 :
  blist m hd (ls1 ++ l :: ls2) → LIST_NEXT (Some l) m = Ok (head ls2) m.
Proof.
  intros Hb. destruct (blist_at _ _ _ _ _ Hb) as (_ & _ & Hl & _).
  unfold LIST_NEXT, load_link, mbind, M_bind, gets. simpl. by rewrite Hl.
Qed.

Lemma list_prev_spec m hd ls1 l ls2 :
  blist m hd (ls1 ++ l :: ls2) → wp (LIST_PREV (Some l) hd) safe (λ p m', p = last ls1 ∧ m' = m) m.
Proof.
  intros Hb. destruct (blist_at _ _ _ _ _ Hb) as (_ & Hl & _). unfold LIST_PREV. qsteps.
  unfold link_at in *. destruct (last ls1); [|by rewrite decide_True by done].
  rewrite decide_False by done. qsteps. by qsteps.
Qed.

Lemma list_concat_spec m h1 h2 ls1 ls2 :
  blist m h1 ls1 → blist m h2 ls2 → ls1 ## ls2 → h1 ≠ h2 →
  wp (LIST_CONCAT h1 h2) safe (λ _ m', blist m' h1 (ls1 ++ ls2) ∧ blist m' h2 []) m.
Proof.
  intros H1 H2 Hd Hne. pose proof H1 as [Hq1 Hb1]. pose proof H2 as [Hq2 Hb2].
  pose proof (queue_first _ _ _ Hq1) as Hf1. pose proof (queue_first _ _ _ Hq2) as Hf2.
  assert (NoDup (ls1 ++ ls2)) as Hnd.
  { apply NoDup_app. split; [apply Hq1|]. split; [|apply Hq2]. intros x ??. by eapply Hd. }
  unfold LIST_CONCAT, LIST_FIRST, LIST_INIT.
  assert (∀ m', content m' (FirstOf h2) = Some None → blist m' h2 []) as Hnil
    by (intros m' ?; split; [by apply queue_nil|apply backward_nil]).
  destruct ls1 as [|l1 ls1 _] using rev_ind; [|clear Hf1]; simpl in *.
  - destruct ls2 as [|l2 ls2]; simpl in *.
    + qsteps. split; [|by apply Hnil; held].
      split; [apply queue_nil; by held|apply backward_nil].
    + destruct (blist_elem _ _ _ l2 H2) as (n2 & p2 & Hn2 & Hp2); [by left|].
      qsteps. split; [|by apply Hnil; held]. split.
      * splice (queue_concat m _ h1 h2 [] (l2 :: ls2)).
      * splice (backward_concat m _ h1 h2 [] (l2 :: ls2)).
  - destruct (blist_at m h1 ls1 l1 []) as (_ & Hp1 & Hl1 & _); [done|]. simpl in Hl1.
    pose proof (queue_first _ _ _ Hq1) as Hf1.
    wp_step. eapply wp_load_link; [exact Hf1|]. rewrite decide_False by by destruct ls1.
    destruct ls2 as [|l2 ls2]; simpl in *.
    + qsteps. rewrite app_nil_r. split; [done|]. by apply Hnil.
    + assert (l1 ≠ l2) by set_solver. destruct (blist_elem _ _ _ l2 H2) as (n2 & p2 & Hn2 & Hp2); [by left|].
      qsteps.
      apply (walk_to_last_spec _ _ ls1).
      { intros a k b E. rewrite E in H1. by eapply list_next_spec. }
      { pose proof (blist_length _ _ _ H1) as Hlen. rewrite length_app in Hlen. simpl in Hlen. lia. }
      simpl. qsteps. split; [|by apply Hnil; held]. assert (link_at h1 (ls1 ++ [l1]) = NextOf l1) as Hat
        by apply link_at_snoc. split.
      * splice (queue_concat m _ h1 h2 (ls1 ++ [l1]) (l2 :: ls2)); rewrite ?Hat; simpl; intros; by held.
      * splice (backward_concat m _ h1 h2 (ls1 ++ [l1]) (l2 :: ls2)); rewrite ?Hat; simpl; intros; by held.
Qed.

Lemma list_swap_spec m h1 h2 ls1 ls2 :
  blist m h1 ls1 → blist m h2 ls2 → ls1 ## ls2 → h1 ≠ h2 →
  wp (LIST_SWAP h1 h2) safe (λ _ m', blist m' h1 ls2 ∧ blist m' h2 ls1) m.
Proof.
  intros H1 H2 Hd Hne. pose proof H1 as [Hq1 Hb1]. pose proof H2 as [Hq2 Hb2].
  pose proof (queue_first _ _ _ Hq1) as Hf1. pose proof (queue_first _ _ _ Hq2) as Hf2.
  pose proof Hq1 as [Hnd1 _]. pose proof Hq2 as [Hnd2 _].
  unfold LIST_SWAP, LIST_FIRST.
  destruct ls1 as [|l1 ls1], ls2 as [|l2 ls2]; simpl in *;
    try (destruct (blist_elem _ _ _ l1 H1) as (n1 & p1 & Hn1 & Hp1); [by left|]);
    try (destruct (blist_elem _ _ _ l2 H2) as (n2 & p2 & Hn2 & Hp2); [by left|]);
    try (assert (l1 ≠ l2) by set_solver); qsteps; (split; split).
  all: try (by apply queue_nil; held); try apply backward_nil.
  all: try (by splice (queue_rehead m _ h1 h2); held); try (by splice (queue_rehead m _ h2 h1); held).
  all: first [eapply (backward_concat m _ h1 h2 []) | eapply (backward_concat m _ h2 h1 [])];
    try done; try apply backward_nil.
  all: unfold link_at; simpl; intros; held; set_solver.
Qed.

Lemma list_edit_spec m hd ls e ls' :
  blist m hd ls → apply_edit ls e = Some ls' →
  (∀ l, l ∈ inserted e → is_Some (content m (NextOf l))) →
  wp (list_edit hd e) safe
    (λ _ m', blist m' hd ls' ∧ list_links_of m m' hd (ls ++ inserted e) ∧ ls' ⊆ ls ++ inserted e) m.
Proof.
  intros Hb He Hl. destruct e as [l|k l|k l|l]; simpl in He; [case_decide as Hin; simplify_eq..|].
  - eapply wp_mono; [apply list_insert_head_spec; [done|apply Hl; by left|done]|done|].
    intros _ m' [Hb' Hc]. split_and!; [done| |set_solver]. eapply changed_trans; [exact Hc|apply changed_refl|set_solver..].
  - apply at_elem_Some in He as (ls1 & ls2 & -> & ->).
    eapply wp_mono; [apply list_insert_after_spec; [done|apply Hl; by left|done]|done|].
    intros _ m' [Hb' Hc]. split_and!; [done| |set_solver]. eapply changed_trans; [exact Hc|apply changed_refl|set_solver..].
  - apply at_elem_Some in He as (ls1 & ls2 & -> & ->).
    eapply wp_mono; [apply list_insert_before_spec; [done|apply Hl; by left|done]|done|].
    intros _ m' [Hb' Hc]. split_and!; [done| |set_solver]. eapply changed_trans; [exact Hc|apply changed_refl|set_solver..].
  - apply at_elem_Some in He as (ls1 & ls2 & -> & ->).
    eapply wp_mono; [by apply list_remove_spec|done|].
    intros _ m' [Hb' Hc]. split_and!; [done| |set_solver]. eapply changed_trans; [exact Hc|apply changed_refl|set_solver..].
Qed.

(** C20: any program of LIST insertions and removals does to the linked
    elements what the same program does to a list, forwards and backwards; it
    changes no link of another list and no element's data.  With INVARIANTS no
    check panics on the way. *)
Theorem list_edits_refine m hd ls es ls' :
  blist m hd ls → apply_edits ls es = Some ls' →
  (∀ e l, e ∈ es → l ∈ inserted e → is_Some (content m (NextOf l))) →
  wp (list_edits hd es) safe
    (λ _ m', blist m' hd ls' ∧ list_links_of m m' hd (ls ++ concat (inserted <$> es))) m.
Proof.
  revert m ls. induction es as [|e es IH]; intros m ls Hb He Hl.
  { injection He as <-. split; [done|apply changed_refl]. }
  simpl in He. apply bind_Some in He as (ls1 & He & Hes). simpl. wp_step.
  eapply wp_mono; [eapply (list_edit_spec m hd ls e ls1); [done|done|]|done|].
  { intros l. apply (Hl e). by left. }
  intros _ m1 (Hb1 & Hc1 & Hsub).
  eapply wp_mono; [apply (IH m1 ls1 Hb1 Hes)|done|].
  { intros e' l ??. apply (ch_alive _ _ _ _ _ Hc1). by eapply (Hl e'); [right|]. }
  intros _ m2 [Hb2 Hc2]. split; [done|]. eapply changed_trans; [exact Hc1|exact Hc2|set_solver..].
Qed.

Lemma list_remove_and_free_spec m hd ls1 l ls2 doomed :
  blist m hd (ls1 ++ l :: ls2) →
  wp (list_remove_and_free doomed (Some l)) safe
    (λ _ m', blist m' hd (ls1 ++ filter (λ l, doomed l = false) [l] ++ ls2) ∧
       (doomed l = true → elems m' !! l = None) ∧
       ∀ j, elems m !! j = None → elems m' !! j = None) m.
Proof.
  intros Hb. destruct (blist_at _ _ _ _ _ Hb) as (_ & _ & Hl & _). simpl. rewrite filter_cons, filter_nil.
  destruct (doomed l); [rewrite decide_False by done|by rewrite decide_True].
  pose proof Hb as [[Hnd _] _]. rewrite <-Permutation_middle in Hnd. apply NoDup_cons in Hnd as [Hnl _].
  wp_step. eapply wp_mono; [by apply list_remove_spec|done|]. intros _ m2 [[Hq2 Hbk2] Hc2].
  apply wp_free_elm; [apply (ch_alive _ _ _ _ _ Hc2); by eexists|]. simpl.
  split; [by split; [apply queue_drop_elm|apply backward_drop_elm]|].
  split; [intros _; apply lookup_delete_eq|]. intros j Hj. rewrite lookup_delete_None. right.
  apply eq_None_not_Some. intros Hs. assert (is_Some (content m2 (NextOf j))) as Hs2
    by (unfold content; by rewrite fmap_is_Some).
  apply (ch_alive _ _ _ _ _ Hc2) in Hs2. unfold content in Hs2. rewrite Hj in Hs2. by destruct Hs2.
Qed.

(** [LIST_FOREACH_SAFE] may remove and free the elements it visits: the
    list keeps the others in order, and the removed ones are freed. *)
Theorem list_foreach_safe_frees m hd ls doomed :
  blist m hd ls →
  wp (LIST_FOREACH_SAFE hd (list_remove_and_free doomed)) safe
    (λ _ m', blist m' hd (filter (λ l, doomed l = false) ls) ∧
             ∀ l, l ∈ ls → doomed l = true → elems m' !! l = None) m.
Proof.
  intros Hb. pose proof Hb as [Hq _]. pose proof Hq as [Hnd _].
  pose proof (queue_first _ _ _ Hq) as Hf. unfold LIST_FOREACH_SAFE, LIST_FIRST.
  wp_step. apply wp_gets. wp_step. eapply wp_load_link; [exact Hf|].
  eapply wp_mono; [eapply (for_loop_spec _ _ [] ls m (λ seen m', ∃ rest, ls = seen ++ rest ∧
    blist m' hd (filter (λ l, doomed l = false) seen ++ rest) ∧
    ∀ l, l ∈ seen → doomed l = true → elems m' !! l = None))|done|].
  - exists ls. split_and!; [done|done|set_solver].
  - by eapply blist_length.
  - intros before l rest m1 E (rest' & E' & Hb1 & Hfree). simpl in E. rewrite E in E'. apply app_inv_head in E' as <-.
    destruct (blist_at _ _ _ _ _ Hb1) as (_ & _ & Hl & _).
    wp_step. unfold LIST_NEXT. eapply wp_load_link; [exact Hl|]. wp_step. simpl.
    eapply wp_mono; [by apply list_remove_and_free_spec|done|]. intros _ m2 (Hb2 & Hl2 & Hfree2).
    wp_step. split; [done|]. exists rest. rewrite filter_app, <-!(assoc_L (++)).
    split_and!; [done|done|]. intros j [Hj| ->%list_elem_of_singleton]%elem_of_app Hdj; [auto|auto].
  - intros _ m' (rest & E & Hb' & Hfree). simpl in E, Hfree.
    rewrite <-(app_nil_r ls) in E at 1. apply app_inv_head in E as <-. rewrite app_nil_r in Hb'. done.
Qed.
End specs.

(** ** What the checks are good for *)

(** In a memory without dangling links, whatever its links are, an operation
    of a build with INVARIANTS panics before it changes anything when the links
    it looks at disagree, and is the operation of the other build when they agree. *)
Lemma list_checks_stop_bad_edits {T} (m : memory (list_node T) list_head) hd e :
  links_live m → is_Some (content m (FirstOf hd)) →
  (∀ l, l ∈ looked_at e → is_Some (content m (NextOf l))) →
  list_edit (INV := true) hd e m =
    if edit_agrees hd e m then list_edit (INV := false) hd e m else Fault Panic.
Proof.
  intros [Hn Hp] Hh Hl.
  destruct e as [l|k l|k l|l]; cbn [list_edit edit_agrees looked_at] in *.
  - unfold LIST_INSERT_HEAD. erewrite !bind_check by (apply check_head_run; eauto).
    by destruct (head_agrees m hd).
  - unfold LIST_INSERT_AFTER. assert (is_Some (content m (NextOf k))) by (apply Hl; by left).
    erewrite !bind_check by (apply check_next_run; eauto). by destruct (next_agrees m k).
  - unfold LIST_INSERT_BEFORE. assert (is_Some (content m (NextOf k))) as [b Hb]%back_is_Some by (apply Hl; by left).
    erewrite !bind_check by (eapply check_prev_run; eauto). by destruct (prev_agrees m k).
  - unfold LIST_REMOVE. assert (is_Some (content m (NextOf l))) as Hs by (apply Hl; by left).
    pose proof Hs as [b Hb]%back_is_Some.
    erewrite !bind_check by (apply check_next_run; eauto).
    destruct (next_agrees m l); [|done]. cbn [negb andb].
    erewrite !bind_check by (eapply check_prev_run; eauto). by destruct (prev_agrees m l).
Qed.

(** ** Concrete runs: three elements with garbage links, one empty head *)

Section runs.
#[local] Instance with_invariants : Invariants := true.

Definition list_fresh (x : Z) : list_node Z := mk_list_node None NullLink x.
Definition list_memory : memory (list_node Z) list_head :=
  mk_memory (list_to_map [(1%positive, list_fresh 10); (2%positive, list_fresh 20); (3%positive, list_fresh 30)])
    {[ 0 := LIST_HEAD_INITIALIZER ]}.

Lemma list_memory_empty : blist list_memory 0 [].
Proof. by apply list_initializer_empty. Qed.

Definition list_program : list edit :=
  [InsertHead 2; InsertAfter 2 3; InsertBefore 2 1; Remove 2]%positive.

Lemma list_edits_refine_witness :
  wp (list_edits 0 list_program) safe (λ _ m', blist m' 0 [1; 3]%positive) list_memory.
Proof.
  eapply wp_mono; [apply (list_edits_refine list_memory 0 [] list_program [1; 3]%positive list_memory_empty)|done|].
  - vm_compute. reflexivity.
  - intros e l He. repeat (apply elem_of_cons in He as [->|He]; [simpl; set_unfold; intros; naive_solver|]).
    by apply not_elem_of_nil in He.
  - intros _ m' [Hb _]. exact Hb.
Defined.

Lemma list_two : ∃ m : memory (list_node Z) list_head, blist m 0 [1; 3]%positive.
Proof.
  destruct (wp_safe_inv _ _ _ (list_insert_head_spec list_memory 0 [] 3 list_memory_empty
    ltac:(by eexists) ltac:(set_solver))) as (_ & m1 & _ & Hb1 & Hc1).
  destruct (wp_safe_inv _ _ _ (list_insert_head_spec m1 0 [3%positive] 1 Hb1
    ltac:(apply (ch_alive _ _ _ _ _ Hc1); by eexists) ltac:(set_solver))) as (_ & m2 & _ & Hb2 & _).
  by exists m2.
Qed.

Lemma list_foreach_safe_frees_witness :
  ∃ m : memory (list_node Z) list_head, blist m 0 [1; 3]%positive ∧
    wp (LIST_FOREACH_SAFE 0 (list_remove_and_free (λ l, bool_decide (l = 3%positive)))) safe
      (λ _ m', blist m' 0 [1%positive] ∧ elems m' !! 3%positive = None) m.
Proof.
  destruct list_two as [m Hb]. exists m. split; [exact Hb|].
  eapply wp_mono; [apply (list_foreach_safe_frees _ _ _ (λ l, bool_decide (l = 3%positive)) Hb)|done|].
  intros _ m' [Hb' Hf]. split; [exact Hb'|]. apply Hf; [set_solver|done].
Defined.
End runs.
