(* ===== verification/TailQueue.v ===== *)
(** * Tail queues ([server/queue.h], the TAILQ macros)

    Doubly-linked lists whose head also has the address of the last link.
    [tailq m hd ls] says that the queue of head [hd] holds [ls]; an element
    before another, and the last one, are found by reading a link's neighbour
    field, which a head and an element have at the same place. *)

From S2P Require Import Prelude Slist Queue.

(** [TAILQ_HEAD] and [TAILQ_ENTRY] in a struct with other fields [tailq_data]. *)
Record tailq_head := mk_tailq_head { tqh_first : node_ptr; tqh_last : link }.
Record tailq_node (T : Type) := mk_tailq_node { tqe_next : node_ptr; tqe_prev : link; tailq_data : T }.
Arguments mk_tailq_node {T} _ _ _.
Arguments tqe_next {T} _.
Arguments tqe_prev {T} _.
Arguments tailq_data {T} _.

#[export] Instance tailq_next T : NextField (tailq_node T) := {|
  next_of := tqe_next;
  with_next p n := mk_tailq_node p (tqe_prev n) (tailq_data n);
  next_with_next _ _ := eq_refl |}.
#[export] Instance tailq_prev T : PrevField (tailq_node T) := {|
  prev_of := tqe_prev;
  with_prev k n := mk_tailq_node (tqe_next n) k (tailq_data n);
  prev_with_prev _ _ := eq_refl;
  prev_with_next _ _ := eq_refl;
  next_with_prev _ _ := eq_refl |}.
#[export] Instance tailq_first : FirstField tailq_head := {|
  first_of := tqh_first;
  with_first p h := mk_tailq_head p (tqh_last h);
  first_with_first _ _ := eq_refl |}.
#[export] Instance tailq_last : LastField tailq_head := {|
  last_of := tqh_last;
  with_last k h := mk_tailq_head (tqh_first h) k;
  last_with_last _ _ := eq_refl;
  last_with_first _ _ := eq_refl;
  first_with_last _ _ := eq_refl |}.

(** [TAILQ_HEAD_INITIALIZER(head)]; without QUEUE_MACRO_DEBUG there is no trace. *)
Definition TAILQ_HEAD_INITIALIZER (head : nat) : tailq_head := mk_tailq_head None (FirstOf head).

Section macros.
Context {INV : Invariants} {T : Type}.
Abbreviation memory := (memory (tailq_node T) tailq_head).
Abbreviation Q := (M memory).
Implicit Types (m : memory) (elm listelm : node_ptr) (head : nat).

Definition TAILQ_FIRST head : Q node_ptr := load_link (FirstOf head).
Definition TAILQ_NEXT elm : Q node_ptr := load_link (next_link elm).
Definition TAILQ_EMPTY head : Q bool := p ← TAILQ_FIRST head; mret (bool_decide (p = None)).

Definition TAILQ_INIT head : Q () :=
  store_link (FirstOf head) None;;
  store_last head (FirstOf head).

(** The address [k] cast to that of a head, and its [tqh_last]: the field behind
    the link [k], of a head [tqh_last], of an element [tqe_prev]. *)
Definition field_behind (k : link) : Q link :=
  match k with
  | NullLink => fail NullDeref
  | FirstOf head => load_last head
  | NextOf l => load_prev (Some l)
  end.

Definition TAILQ_LAST head : Q node_ptr :=
  k ← load_last head; k ← field_behind k; load_link k.

Definition TAILQ_PREV elm : Q node_ptr :=
  k ← load_prev elm; k ← field_behind k; load_link k.

Definition QMD_TAILQ_CHECK_HEAD head : Q () := check_head head.
Definition QMD_TAILQ_CHECK_NEXT elm : Q () := check_next elm.
Definition QMD_TAILQ_CHECK_PREV elm : Q () := check_prev elm.

Definition QMD_TAILQ_CHECK_TAIL head : Q () :=
  if invariants then
    last ← load_last head;
    p ← load_link last;
    if decide (p ≠ None) then fail Panic else mret ()
  else mret ().

Definition TAILQ_INSERT_AFTER head listelm elm : Q () :=
  QMD_TAILQ_CHECK_NEXT listelm;;
  next ← TAILQ_NEXT listelm;
  store_link (next_link elm) next;;
  (if decide (next ≠ None) then
     next ← TAILQ_NEXT elm; store_prev next (next_link elm)
   else store_last head (next_link elm));;
  store_link (next_link listelm) elm;;
  store_prev elm (next_link listelm).

Definition TAILQ_INSERT_BEFORE listelm elm : Q () :=
  QMD_TAILQ_CHECK_PREV listelm;;
  prev ← load_prev listelm;
  store_prev elm prev;;
  store_link (next_link elm) listelm;;
  prev ← load_prev listelm;
  store_link prev elm;;
  store_prev listelm (next_link elm).

Definition TAILQ_INSERT_HEAD head elm : Q () :=
  QMD_TAILQ_CHECK_HEAD head;;
  first ← TAILQ_FIRST head;
  store_link (next_link elm) first;;
  (if decide (first ≠ None) then
     first ← TAILQ_FIRST head; store_prev first (next_link elm)
   else store_last head (next_link elm));;
  store_link (FirstOf head) elm;;
  store_prev elm (FirstOf head).

Definition TAILQ_INSERT_TAIL head elm : Q () :=
  QMD_TAILQ_CHECK_TAIL head;;
  store_link (next_link elm) None;;
  last ← load_last head;
  store_prev elm last;;
  last ← load_last head;
  store_link last elm;;
  store_last head (next_link elm).

Definition TAILQ_REMOVE head elm : Q () :=
  QMD_TAILQ_CHECK_NEXT elm;;
  QMD_TAILQ_CHECK_PREV elm;;
  next ← TAILQ_NEXT elm;
  (if decide (next ≠ None) then
     next ← TAILQ_NEXT elm; prev ← load_prev elm; store_prev next prev
   else prev ← load_prev elm; store_last head prev);;
  prev ← load_prev elm;
  next ← TAILQ_NEXT elm;
  store_link prev next.

Definition TAILQ_CONCAT head1 head2 : Q () :=
  empty ← TAILQ_EMPTY head2;
  if (empty : bool) then mret ()
  else
    last1 ← load_last head1;
    first2 ← TAILQ_FIRST head2;
    store_link last1 first2;;
    first2 ← TAILQ_FIRST head2;
    last1 ← load_last head1;
    store_prev first2 last1;;
    last2 ← load_last head2;
    store_last head1 last2;;
    TAILQ_INIT head2.

Definition TAILQ_SWAP head1 head2 : Q () :=
  swap_first ← TAILQ_FIRST head1;
  swap_last ← load_last head1;
  first2 ← TAILQ_FIRST head2;
  store_link (FirstOf head1) first2;;
  last2 ← load_last head2;
  store_last head1 last2;;
  store_link (FirstOf head2) swap_first;;
  store_last head2 swap_last;;
  swap_first ← TAILQ_FIRST head1;
  (if decide (swap_first ≠ None) then store_prev swap_first (FirstOf head1)
   else store_last head1 (FirstOf head1));;
  swap_first ← TAILQ_FIRST head2;
  (if decide (swap_first ≠ None) then store_prev swap_first (FirstOf head2)
   else store_last head2 (FirstOf head2)).

(** [for (var = start; var; var = next)], the next element read after the body
    or, in the [SAFE] loops, before it. *)
Definition foreach (start : Q node_ptr) (next : node_ptr → Q node_ptr) (body : node_ptr → Q ()) : Q () :=
  fuel ← gets elems_fuel; var ← start; for_loop fuel (λ var, body var;; next var) var.
Definition foreach_safe (start : Q node_ptr) (next : node_ptr → Q node_ptr) (body : node_ptr → Q ()) : Q () :=
  fuel ← gets elems_fuel; var ← start;
  for_loop fuel (λ var, tvar ← next var; body var;; mret tvar) var.
(** [(var) ? (var) : start] *)
Definition from (var : node_ptr) (start : Q node_ptr) : Q node_ptr :=
  match var with Some _ => mret var | None => start end.

Definition TAILQ_FOREACH head := foreach (TAILQ_FIRST head) TAILQ_NEXT.
Definition TAILQ_FOREACH_FROM var head := foreach (from var (TAILQ_FIRST head)) TAILQ_NEXT.
Definition TAILQ_FOREACH_SAFE head := foreach_safe (TAILQ_FIRST head) TAILQ_NEXT.
Definition TAILQ_FOREACH_FROM_SAFE var head := foreach_safe (from var (TAILQ_FIRST head)) TAILQ_NEXT.
Definition TAILQ_FOREACH_REVERSE head := foreach (TAILQ_LAST head) TAILQ_PREV.
Definition TAILQ_FOREACH_REVERSE_FROM var head := foreach (from var (TAILQ_LAST head)) TAILQ_PREV.
Definition TAILQ_FOREACH_REVERSE_SAFE head := foreach_safe (TAILQ_LAST head) TAILQ_PREV.
Definition TAILQ_FOREACH_REVERSE_FROM_SAFE var head := foreach_safe (from var (TAILQ_LAST head)) TAILQ_PREV.
End macros.

(** ** Programs of insertions and removals *)

Inductive tail_edit := InsertTail (l : positive) | Edit (e : edit).

Definition tail_inserted (e : tail_edit) : list positive :=
  match e with InsertTail l => [l] | Edit e => inserted e end.

Definition apply_tail_edit (ls : list positive) (e : tail_edit) : option (list positive) :=
  match e with
  | InsertTail l => if decide (l ∈ ls) then None else Some (ls ++ [l])
  | Edit e => apply_edit ls e
  end.

Fixpoint apply_tail_edits (ls : list positive) (es : list tail_edit) : option (list positive) :=
  match es with [] => Some ls | e :: es => ls ← apply_tail_edit ls e; apply_tail_edits ls es end.

Definition tailq_edit `{INV : Invariants} {T} (hd : nat) (e : tail_edit) : M (memory (tailq_node T) tailq_head) () :=
  match e with
  | InsertTail l => TAILQ_INSERT_TAIL hd (Some l)
  | Edit (InsertHead l) => TAILQ_INSERT_HEAD hd (Some l)
  | Edit (InsertAfter k l) => TAILQ_INSERT_AFTER hd (Some k) (Some l)
  | Edit (InsertBefore k l) => TAILQ_INSERT_BEFORE (Some k) (Some l)
  | Edit (Remove l) => TAILQ_REMOVE hd (Some l)
  end.

Fixpoint tailq_edits `{INV : Invariants} {T} (hd : nat) (es : list tail_edit) : M (memory (tailq_node T) tailq_head) () :=
  match es with [] => mret () | e :: es => tailq_edit hd e;; tailq_edits hd es end.

(** [if (doomed) { TAILQ_REMOVE(head, var); free(var); }] *)
Definition tailq_remove_and_free `{INV : Invariants} {T} (hd : nat) (doomed : positive → bool) (var : node_ptr) :
    M (memory (tailq_node T) tailq_head) () :=
  match var with
  | Some l => if doomed l then TAILQ_REMOVE hd var;; free_elm var else mret ()
  | None => mret ()
  end.

Section specs.
Context {INV : Invariants} {T : Type}.
Abbreviation memory := (memory (tailq_node T) tailq_head).
Implicit Types (m : memory) (hd : nat) (l : positive) (ls : list positive).

Definition tailq m hd ls : Prop :=
  qlist m hd ls ∧ backward m hd ls ∧ tail m hd = Some (link_at hd ls).

(** Only links of [hd] and of [ls] have changed; the data is untouched. *)
Definition tailq_links_of m m' hd ls : Prop :=
  changed tailq_data m m' [hd] ls ∧ ∀ h, h ≠ hd → tail m' h = tail m h.

(** A head as its initialiser leaves it. *)
Lemma tailq_initializer_empty m hd : qheads m !! hd = Some (TAILQ_HEAD_INITIALIZER hd) → tailq m hd [].
Proof.
  intros Hh. split_and!; [|apply backward_nil|unfold tail; by rewrite Hh].
  apply queue_nil. unfold content. by rewrite Hh.
Qed.

Lemma check_tail_run m hd k :
  tail m hd = Some k → is_Some (content m k) →
  QMD_TAILQ_CHECK_TAIL hd m =
    if invariants && negb (bool_decide (content m k = Some None)) then Fault Panic else Ok () m.
Proof.
  intros Hk [p Hp]. unfold QMD_TAILQ_CHECK_TAIL, load_last, load_link, mbind, M_bind, gets.
  destruct invariants; [|done]. rewrite Hk. cbn [lift mret M_ret]. rewrite Hp. cbn [lift mret M_ret].
  case_decide; case_bool_decide; simplify_eq; done.
Qed.

Lemma wp_check_tail m hd ls F (R : () → memory → Prop) :
  tailq m hd ls → R () m → wp (QMD_TAILQ_CHECK_TAIL hd) F R m.
Proof.
  intros (Hq & _ & Ht) HR. pose proof (queue_last _ _ _ Hq) as Hl. unfold wp.
  rewrite (check_tail_run _ _ _ Ht), bool_decide_true by (by eexists || done).
  by rewrite andb_false_r.
Qed.

Lemma tailq_elem m hd ls l :
  tailq m hd ls → l ∈ ls → ∃ p k, content m (NextOf l) = Some p ∧ back m l = Some k.
Proof. intros (Hq & _) Hl. by eapply elem_fields, queue_elem. Qed.

Lemma tailq_back m hd ls l : tailq m hd ls → l ∈ ls → ∃ k, back m l = Some k.
Proof. intros Hb Hl. destruct (tailq_elem _ _ _ _ Hb Hl) as (? & k & _ & ?). by exists k. Qed.

Lemma tailq_at m hd ls1 k ls2 :
  tailq m hd (ls1 ++ k :: ls2) →
  content m (link_at hd ls1) = Some (Some k) ∧ back m k = Some (link_at hd ls1) ∧
  content m (NextOf k) = Some (head ls2) ∧ link_at hd ls1 ≠ NextOf k.
Proof.
  intros (Hq & Hb & _). pose proof Hq as [Hnd Hc]. split_and!.
  - by apply (Hc ls1 (k :: ls2)).
  - by eapply Hb.
  - by eapply queue_next.
  - intros E%link_at_NextOf. apply NoDup_app in Hnd as (_ & Hd & _). apply (Hd k E). by left.
Qed.

Ltac tailq_done := split; [split_and!|split; [changes|intros; by held]].

Lemma tailq_insert_head_spec m hd ls l :
  tailq m hd ls → is_Some (content m (NextOf l)) → l ∉ ls →
  wp (TAILQ_INSERT_HEAD hd (Some l)) safe
    (λ _ m', tailq m' hd (l :: ls) ∧ tailq_links_of m m' hd (l :: ls)) m.
Proof.
  intros Hb (x & px & Hx & Hpx)%elem_fields Hl. pose proof Hb as (Hq & Hbk & Ht).
  pose proof (queue_first _ _ _ Hq) as Hf.
  assert (NoDup (l :: ls)) as Hnd by (constructor; [done|by destruct Hq]).
  unfold TAILQ_INSERT_HEAD, TAILQ_FIRST. wp_step. eapply wp_check_head; [done..|]. destruct ls as [|k ls]; simpl in *.
  - qsteps. tailq_done.
    + splice (queue_splice_in m _ hd [] l []).
    + splice (backward_splice_in m _ hd [] l []).
    + by held.
  - assert (l ≠ k) by set_solver. destruct (tailq_elem _ _ _ k Hb) as (y & py & Hy & Hpy); [set_solver|].
    qsteps. tailq_done.
    + splice (queue_splice_in m _ hd [] l (k :: ls)).
    + splice (backward_splice_in m _ hd [] l (k :: ls)).
    + by held.
Qed.

Lemma tailq_insert_tail_spec m hd ls l :
  tailq m hd ls → is_Some (content m (NextOf l)) → l ∉ ls →
  wp (TAILQ_INSERT_TAIL hd (Some l)) safe
    (λ _ m', tailq m' hd (ls ++ [l]) ∧ tailq_links_of m m' hd (ls ++ [l])) m.
Proof.
  intros Hb (x & px & Hx & Hpx)%elem_fields Hl. pose proof Hb as (Hq & Hbk & Ht).
  pose proof (queue_last _ _ _ Hq) as Hla. pose proof (queue_first _ _ _ Hq) as Hf. pose proof Hq as [Hnd _].
  assert (link_at hd ls ≠ NextOf l) as Hal by (by intros ?%link_at_NextOf).
  assert (NoDup (ls ++ [l])) as Hnd' by (by rewrite <-Permutation_cons_append; constructor).
  unfold TAILQ_INSERT_TAIL. wp_step. eapply wp_check_tail; [done..|]. simpl. qsteps. tailq_done.
  - splice (queue_splice_in m _ hd ls l []); rewrite ?app_nil_r; simpl; intros; by held.
  - splice (backward_splice_in m _ hd ls l []); rewrite ?app_nil_r; simpl; intros; by held.
  - rewrite link_at_snoc. by held.
Qed.

Lemma tailq_insert_after_spec m hd ls1 k ls2 l :
  tailq m hd (ls1 ++ k :: ls2) → is_Some (content m (NextOf l)) → l ∉ ls1 ++ k :: ls2 →
  wp (TAILQ_INSERT_AFTER hd (Some k) (Some l)) safe
    (λ _ m', tailq m' hd (ls1 ++ k :: l :: ls2) ∧ tailq_links_of m m' hd (ls1 ++ k :: l :: ls2)) m.
Proof.
  intros Hb (x & px & Hx & Hpx)%elem_fields Hl. pose proof Hb as (Hq & Hbk & Ht).
  unfold TAILQ_INSERT_AFTER, TAILQ_NEXT. wp_step. eapply wp_check_next; [done..|].
  pose proof (queue_next _ _ _ _ _ Hq) as Hk. pose proof Hq as [Hnd _].
  pose proof (queue_first _ _ _ Hq) as Hf. destruct (tailq_back _ _ _ k Hb) as [py Hpy]; [set_solver|].
  rewrite cons_middle, (assoc_L (++)) in Hq, Hbk, Hl, Hnd, Ht |- *.
  assert (link_at hd (ls1 ++ [k]) = NextOf k) as Hat by apply link_at_snoc.
  assert (k ≠ l) by set_solver. simpl.
  assert (NoDup ((ls1 ++ [k]) ++ l :: ls2)) as Hnd'.
  { rewrite <-Permutation_middle. by constructor. }
  destruct ls2 as [|j ls2]; simpl in *.
  - qsteps. tailq_done.
    + splice (queue_splice_in m _ hd (ls1 ++ [k]) l []); rewrite Hat; intros; by held.
    + splice (backward_splice_in m _ hd (ls1 ++ [k]) l []); rewrite ?Hat; intros; by held.
    + rewrite link_at_snoc. by held.
  - assert (j ≠ k ∧ j ≠ l) as [??].
    { split; [|set_solver]. intros ->. apply NoDup_app in Hnd as (_ & Hd & _). apply (Hd k); set_solver. }
    destruct (tailq_elem _ _ _ j Hb) as (z & pz & Hz & Hpz); [set_solver|].
    qsteps. tailq_done.
    + splice (queue_splice_in m _ hd (ls1 ++ [k]) l (j :: ls2)); rewrite Hat; intros; by held.
    + splice (backward_splice_in m _ hd (ls1 ++ [k]) l (j :: ls2)); rewrite ?Hat; intros; by held.
    + autorewrite with queue. rewrite Ht. f_equal.
      rewrite (cons_middle l), (assoc_L (++)). apply link_at_tail.
Qed.

Lemma tailq_insert_before_spec m hd ls1 k ls2 l :
  tailq m hd (ls1 ++ k :: ls2) → is_Some (content m (NextOf l)) → l ∉ ls1 ++ k :: ls2 →
  wp (TAILQ_INSERT_BEFORE (Some k) (Some l)) safe
    (λ _ m', tailq m' hd (ls1 ++ l :: k :: ls2) ∧ tailq_links_of m m' hd (ls1 ++ l :: k :: ls2)) m.
Proof.
  intros Hb (x & px & Hx & Hpx)%elem_fields Hl. pose proof Hb as (Hq & Hbk & Ht). pose proof Hq as [Hnd _].
  destruct (tailq_at _ _ _ _ _ Hb) as (Ha & Hka & Hk & Hak).
  assert (link_at hd ls1 ≠ NextOf l) as Hal by (intros E%link_at_NextOf; set_solver).
  assert (NoDup (ls1 ++ l :: k :: ls2)) as Hnd'.
  { rewrite <-Permutation_middle. by constructor. }
  assert (k ≠ l) by set_solver. unfold TAILQ_INSERT_BEFORE.
  wp_step. eapply wp_check_prev; [done..|]. simpl. qsteps. tailq_done.
  - splice (queue_splice_in m _ hd ls1 l (k :: ls2)); simpl; intros; by held.
  - splice (backward_splice_in m _ hd ls1 l (k :: ls2)); simpl; intros; by held.
  - autorewrite with queue. rewrite Ht. f_equal. rewrite (cons_middle l), (assoc_L (++)).
    apply link_at_tail.
Qed.

Lemma tailq_remove_spec m hd ls1 l ls2 :
  tailq m hd (ls1 ++ l :: ls2) →
  wp (TAILQ_REMOVE hd (Some l)) safe
    (λ _ m', tailq m' hd (ls1 ++ ls2) ∧ tailq_links_of m m' hd (ls1 ++ l :: ls2)) m.
Proof.
  intros Hb. pose proof Hb as (Hq & Hbk & Ht). pose proof Hq as [Hnd _].
  destruct (tailq_at _ _ _ _ _ Hb) as (Ha & Hla & Hl & Hal). pose proof (queue_first _ _ _ Hq) as Hf.
  unfold TAILQ_REMOVE, TAILQ_NEXT. wp_step. eapply wp_check_next; [done..|].
  wp_step. eapply wp_check_prev; [done..|]. simpl. destruct ls2 as [|k ls2]; simpl in *.
  - qsteps. tailq_done.
    + splice (queue_splice_out m _ hd ls1 l []); simpl; intros; by held.
    + splice (backward_splice_out m _ hd ls1 l []); simpl; intros; by held.
    + rewrite app_nil_r. by held.
  - destruct (tailq_back _ _ _ k Hb) as [pk Hpk]; [set_solver|].
    destruct (tailq_at m hd (ls1 ++ [l]) k ls2) as (_ & _ & Hk & _); [by rewrite <-(assoc_L (++))|].
    assert (l ≠ k) by (intros ->; apply NoDup_app in Hnd as (_ & _ & [Hin _]%NoDup_cons); set_solver).
    qsteps. tailq_done.
    + splice (queue_splice_out m _ hd ls1 l (k :: ls2)); simpl; intros; by held.
    + splice (backward_splice_out m _ hd ls1 l (k :: ls2)); simpl; intros; by held.
    + autorewrite with queue. rewrite Ht. f_equal. rewrite (cons_middle l), (assoc_L (++)).
      symmetry. apply link_at_tail.
Qed.

Lemma tailq_next_spec m hd ls1 l ls2 :
  tailq m hd (ls1 ++ l :: ls2) → TAILQ_NEXT (Some l) m = Ok (head ls2) m.
Proof.
  intros Hb. destruct (tailq_at _ _ _ _ _ Hb) as (_ & _ & Hl & _).
  unfold TAILQ_NEXT, load_link, mbind, M_bind, gets. simpl. by rewrite Hl.
Qed.

(** The field behind the link to the end of a part: the link to its last
    element, and behind a head the last link, which holds NULL. *)
Lemma tailq_behind_spec m hd ls1 ls2 :
  tailq m hd (ls1 ++ ls2) →
  wp (k ← field_behind (link_at hd ls1); load_link k) safe (λ p m', p = last ls1 ∧ m' = m) m.
Proof.
  intros Hb. pose proof Hb as (Hq & Hbk & Ht). pose proof (queue_last _ _ _ Hq) as Hla.
  destruct ls1 as [|l ls1 _] using rev_ind.
  - unfold link_at at 1. simpl in *. qsteps. done.
  - rewrite <-(assoc_L (++)) in Hb. destruct (tailq_at _ _ _ _ _ Hb) as (Ha & Hl & _).
    rewrite link_at_snoc, last_snoc. simpl. qsteps. done.
Qed.

Lemma tailq_last_spec m hd ls :
  tailq m hd ls → wp (TAILQ_LAST hd) safe (λ p m', p = last ls ∧ m' = m) m.
Proof.
  intros Hb. pose proof Hb as (_ & _ & Ht). unfold TAILQ_LAST. wp_step. eapply wp_load_last; [done|].
  apply (tailq_behind_spec m hd ls []). by rewrite app_nil_r.
Qed.

Lemma tailq_prev_spec m hd ls1 l ls2 :
  tailq m hd (ls1 ++ l :: ls2) → wp (TAILQ_PREV (Some l)) safe (λ p m', p = last ls1 ∧ m' = m) m.
Proof.
  intros Hb. destruct (tailq_at _ _ _ _ _ Hb) as (_ & Hl & _). unfold TAILQ_PREV.
  wp_step. eapply wp_load_prev; [done|]. by apply (tailq_behind_spec m hd ls1 (l :: ls2)).
Qed.

Lemma tailq_init_spec m hd :
  is_Some (content m (FirstOf hd)) → wp (TAILQ_INIT hd) safe (λ _ m', tailq m' hd []) m.
Proof.
  intros [p Hp]. pose proof (proj2 (tail_is_Some m hd) ltac:(by eexists)) as [k Hk].
  unfold TAILQ_INIT. qsteps. split_and!; [apply queue_nil; by held|apply backward_nil|by held].
Qed.

Lemma tailq_edit_spec m hd ls e ls' :
  tailq m hd ls → apply_tail_edit ls e = Some ls' →
  (∀ l, l ∈ tail_inserted e → is_Some (content m (NextOf l))) →
  wp (tailq_edit hd e) safe
    (λ _ m', tailq m' hd ls' ∧ tailq_links_of m m' hd (ls ++ tail_inserted e) ∧ ls' ⊆ ls ++ tail_inserted e) m.
Proof.
  intros Hb He Hl. assert (∀ (op : M memory ()) new,
    wp op safe (λ _ m', tailq m' hd ls' ∧ tailq_links_of m m' hd new) m →
    new ⊆ ls ++ tail_inserted e → ls' ⊆ ls ++ tail_inserted e →
    wp op safe (λ _ m', tailq m' hd ls' ∧ tailq_links_of m m' hd (ls ++ tail_inserted e) ∧
      ls' ⊆ ls ++ tail_inserted e) m) as Hweak.
  { intros op new Hop Hnew Hls. eapply wp_mono; [exact Hop|done|]. intros ? m' [Hb' [Hc Ht]].
    split_and!; [done| |done]. split; [|done]. eapply changed_trans; [exact Hc|apply changed_refl|done|set_solver]. }
  destruct e as [l|[l|k l|k l|l]]; simpl in He; [case_decide as Hin; simplify_eq..|].
  - eapply Hweak; [apply tailq_insert_tail_spec; [done|apply Hl; by left|done]|set_solver..].
  - eapply Hweak; [apply tailq_insert_head_spec; [done|apply Hl; by left|done]|set_solver..].
  - apply at_elem_Some in He as (ls1 & ls2 & -> & ->).
    eapply Hweak; [apply tailq_insert_after_spec; [done|apply Hl; by left|done]|set_solver..].
  - apply at_elem_Some in He as (ls1 & ls2 & -> & ->).
    eapply Hweak; [apply tailq_insert_before_spec; [done|apply Hl; by left|done]|set_solver..].
  - apply at_elem_Some in He as (ls1 & ls2 & -> & ->).
    eapply Hweak; [by apply tailq_remove_spec|set_solver..].
Qed.

(** C15: any program of TAILQ insertions and removals, at both ends and next to
    elements, does to the queue what the same program does to a list: links,
    back links and the address of the last link; nothing else changes, and with
    INVARIANTS no check panics on the way. *)
Theorem tailq_edits_refine m hd ls es ls' :
  tailq m hd ls → apply_tail_edits ls es = Some ls' →
  (∀ e l, e ∈ es → l ∈ tail_inserted e → is_Some (content m (NextOf l))) →
  wp (tailq_edits hd es) safe
    (λ _ m', tailq m' hd ls' ∧ tailq_links_of m m' hd (ls ++ concat (tail_inserted <$> es))) m.
Proof.
  revert m ls. induction es as [|e es IH]; intros m ls Hb He Hl.
  { injection He as <-. split; [done|]. split; [apply changed_refl|done]. }
  simpl in He. apply bind_Some in He as (ls1 & He & Hes). simpl. wp_step.
  eapply wp_mono; [eapply (tailq_edit_spec m hd ls e ls1); [done|done|]|done|].
  { intros l. apply (Hl e). by left. }
  intros _ m1 (Hb1 & [Hc1 Ht1] & Hsub).
  eapply wp_mono; [apply (IH m1 ls1 Hb1 Hes)|done|].
  { intros e' l ??. apply (ch_alive _ _ _ _ _ Hc1). by eapply (Hl e'); [right|]. }
  intros _ m2 [Hb2 [Hc2 Ht2]]. split; [done|]. split; [|intros; by rewrite Ht2, Ht1].
  eapply changed_trans; [exact Hc1|exact Hc2|set_solver..].
Qed.

Lemma tailq_concat_spec m h1 h2 ls1 ls2 :
  tailq m h1 ls1 → tailq m h2 ls2 → ls1 ## ls2 → h1 ≠ h2 →
  wp (TAILQ_CONCAT h1 h2) safe (λ _ m', tailq m' h1 (ls1 ++ ls2) ∧ tailq m' h2 []) m.
Proof.
  intros H1 H2 Hd Hne. pose proof H1 as (Hq1 & Hb1 & Ht1). pose proof H2 as (Hq2 & Hb2 & Ht2).
  pose proof (queue_first _ _ _ Hq1) as Hf1. pose proof (queue_first _ _ _ Hq2) as Hf2.
  pose proof (queue_last _ _ _ Hq1) as Hl1.
  assert (NoDup (ls1 ++ ls2)) as Hnd.
  { apply NoDup_app. split; [apply Hq1|]. split; [|apply Hq2]. intros x ??. by eapply Hd. }
  unfold TAILQ_CONCAT, TAILQ_EMPTY, TAILQ_FIRST, TAILQ_INIT. destruct ls2 as [|l2 ls2]; simpl in *.
  { qsteps. by rewrite app_nil_r. }
  destruct (tailq_elem _ _ _ l2 H2) as (n2 & p2 & Hn2 & Hp2); [by left|].
  assert (link_at h1 ls1 ≠ FirstOf h2) as Ha1 by (intros E%link_at_FirstOf; by destruct E).
  assert (link_at h1 ls1 ≠ NextOf l2) as Ha2 by (intros E%link_at_NextOf; set_solver).
  qsteps. split; (split_and!).
  - splice (queue_concat m _ h1 h2 ls1 (l2 :: ls2)); simpl; intros; by held.
  - splice (backward_concat m _ h1 h2 ls1 (l2 :: ls2)); simpl; intros; by held.
  - held. f_equal. apply (link_at_tail h2 h1 [] ls1).
  - apply queue_nil. by held.
  - apply backward_nil.
  - by held.
Qed.

(** A queue whose links are those of another head's. *)
Lemma tailq_rehead m m' h h' ls :
  tailq m h ls → content m' (FirstOf h') = content m (FirstOf h) →
  (∀ l, l ∈ ls → content m' (NextOf l) = content m (NextOf l)) →
  (∀ l', head ls = Some l' → back m' l' = Some (FirstOf h')) →
  (∀ l', l' ∈ ls → head ls ≠ Some l' → back m' l' = back m l') →
  tail m' h' = Some (match ls with [] => FirstOf h' | _ => link_at h ls end) →
  tailq m' h' ls.
Proof.
  intros (Hq & Hb & Ht) Hf Hn Hh Hr Ht'. pose proof Hq as [Hnd _]. split_and!.
  - by eapply queue_rehead.
  - by apply (backward_concat m m' h' h [] ls); [apply backward_nil|..].
  - rewrite Ht'. destruct ls as [|l ls]; [done|]. f_equal. apply (link_at_tail h h' [] []).
Qed.

Lemma tailq_swap_spec m h1 h2 ls1 ls2 :
  tailq m h1 ls1 → tailq m h2 ls2 → ls1 ## ls2 → h1 ≠ h2 →
  wp (TAILQ_SWAP h1 h2) safe (λ _ m', tailq m' h1 ls2 ∧ tailq m' h2 ls1) m.
Proof.
  intros H1 H2 Hd Hne. pose proof H1 as (Hq1 & Hb1 & Ht1). pose proof H2 as (Hq2 & Hb2 & Ht2).
  pose proof (queue_first _ _ _ Hq1) as Hf1. pose proof (queue_first _ _ _ Hq2) as Hf2.
  unfold TAILQ_SWAP, TAILQ_FIRST.
  destruct ls1 as [|l1 ls1], ls2 as [|l2 ls2]; simpl in *;
    try (destruct (tailq_elem _ _ _ l1 H1) as (n1 & p1 & Hn1 & Hp1); [by left|]);
    try (destruct (tailq_elem _ _ _ l2 H2) as (n2 & p2 & Hn2 & Hp2); [by left|]);
    try (assert (l1 ≠ l2) by set_solver); qsteps;
    (split; [eapply (tailq_rehead m _ h2 h1)|eapply (tailq_rehead m _ h1 h2)]; [done|..]).
  all: simpl; intros; held; try set_solver.
Qed.

Lemma tailq_remove_and_free_spec m hd ls1 l ls2 doomed :
  tailq m hd (ls1 ++ l :: ls2) →
  wp (tailq_remove_and_free hd doomed (Some l)) safe
    (λ _ m', tailq m' hd (ls1 ++ filter (λ l, doomed l = false) [l] ++ ls2) ∧
       (doomed l = true → elems m' !! l = None) ∧
       ∀ j, elems m !! j = None → elems m' !! j = None) m.
Proof.
  intros Hb. destruct (tailq_at _ _ _ _ _ Hb) as (_ & _ & Hl & _). simpl. rewrite filter_cons, filter_nil.
  destruct (doomed l); [rewrite decide_False by done|by rewrite decide_True].
  pose proof Hb as [[Hnd _] _]. rewrite <-Permutation_middle in Hnd. apply NoDup_cons in Hnd as [Hnl _].
  wp_step. eapply wp_mono; [by apply tailq_remove_spec|done|]. intros _ m2 [(Hq2 & Hbk2 & Ht2) [Hc2 _]].
  apply wp_free_elm; [apply (ch_alive _ _ _ _ _ Hc2); by eexists|]. simpl.
  split; [by split_and!; [apply queue_drop_elm|apply backward_drop_elm|]|].
  split; [intros _; apply lookup_delete_eq|]. intros j Hj. rewrite lookup_delete_None. right.
  apply eq_None_not_Some. intros Hs. assert (is_Some (content m2 (NextOf j))) as Hs2
    by (unfold content; by rewrite fmap_is_Some).
  apply (ch_alive _ _ _ _ _ Hc2) in Hs2. unfold content in Hs2. rewrite Hj in Hs2. by destruct Hs2.
Qed.

Lemma tailq_length m hd ls : tailq m hd ls → length ls < elems_fuel m.
Proof. intros [Hq _]. by eapply queue_length. Qed.

(** C24: [TAILQ_FOREACH_REVERSE_SAFE] visits the queue from its end and may
    remove and free what it visits; the others stay, in order. *)
Theorem tailq_reverse_safe_frees m hd ls doomed :
  tailq m hd ls →
  wp (TAILQ_FOREACH_REVERSE_SAFE hd (tailq_remove_and_free hd doomed)) safe
    (λ _ m', tailq m' hd (filter (λ l, doomed l = false) ls) ∧
             ∀ l, l ∈ ls → doomed l = true → elems m' !! l = None) m.
Proof.
  intros Hb. unfold TAILQ_FOREACH_REVERSE_SAFE, foreach_safe. wp_step. apply wp_gets. wp_step.
  eapply wp_mono; [by apply tailq_last_spec|done|]. intros p m0 [-> ->].
  replace (last ls) with (head (reverse ls)) by (by rewrite head_reverse).
  eapply wp_mono; [eapply (for_loop_spec _ _ [] (reverse ls) m (λ seen m', ∃ rest, ls = rest ++ reverse seen ∧
    tailq m' hd (rest ++ filter (λ l, doomed l = false) (reverse seen)) ∧
    ∀ l, l ∈ seen → doomed l = true → elems m' !! l = None))|done|].
  - exists ls. rewrite reverse_nil, filter_nil, app_nil_r. split; [done|]. split; [done|set_solver].
  - rewrite length_reverse. by eapply tailq_length.
  - intros before l rest m1 E (rest' & E' & Hb1 & Hfree). simpl in E.
    apply (f_equal reverse) in E. rewrite reverse_involutive, reverse_app, reverse_cons in E.
    rewrite E in E'. apply app_inv_tail in E' as <-. rewrite <-(assoc_L (++)) in Hb1. simpl in Hb1.
    wp_step. eapply wp_mono; [by eapply tailq_prev_spec|done|]. intros p m1' [-> ->]. wp_step.
    eapply wp_mono; [by apply tailq_remove_and_free_spec|done|]. intros _ m2 (Hb2 & Hl2 & Hfree2).
    wp_step. split; [by rewrite last_reverse|]. exists (reverse rest).
    rewrite reverse_snoc, filter_cons. split; [|split].
    + by rewrite E, <-(assoc_L (++)).
    + rewrite filter_cons, filter_nil in Hb2. by case_decide.
    + intros j [Hj| ->%list_elem_of_singleton]%elem_of_app Hdj; [auto|auto].
  - intros _ m' (rest & E & Hb' & Hfree). simpl in E, Hb', Hfree. rewrite reverse_involutive in E, Hb'.
    change ls with ([] ++ ls) in E at 1. apply app_inv_tail in E as <-. split; [done|].
    intros l Hl. apply Hfree. by apply elem_of_reverse.
Qed.
End specs.

(** ** What the checks are good for *)

Definition tail_looked_at (e : tail_edit) : list positive :=
  match e with InsertTail _ => [] | Edit e => looked_at e end.

Definition tail_edit_agrees {T} (hd : nat) (e : tail_edit) (m : memory (tailq_node T) tailq_head) : bool :=
  match e with
  | InsertTail _ => bool_decide (tail m hd ≫= content m = Some None)
  | Edit e => edit_agrees hd e m
  end.

(** C36: in a memory without dangling links, whatever the links are otherwise,
    a TAILQ operation of a build with INVARIANTS panics before it changes
    anything when the links it looks at disagree, and is the operation of the
    other build when they agree. *)
Theorem tailq_checks_stop_bad_edits {T} (m : memory (tailq_node T) tailq_head) hd e :
  links_live m → is_Some (tail m hd ≫= content m) →
  (∀ l, l ∈ tail_looked_at e → is_Some (content m (NextOf l))) →
  tailq_edit (INV := true) hd e m =
    if tail_edit_agrees hd e m then tailq_edit (INV := false) hd e m else Fault Panic.
Proof.
  intros [Hn Hp] Ht Hl.
  assert (is_Some (content m (FirstOf hd))) as Hh.
  { apply tail_is_Some. destruct (tail m hd); [done|by destruct Ht]. }
  destruct e as [l|[l|k l|k l|l]]; cbn [tailq_edit tail_edit_agrees edit_agrees tail_looked_at looked_at] in *.
  - unfold TAILQ_INSERT_TAIL. destruct (tail m hd) as [k|] eqn:Hk; simpl in Ht; [|by destruct Ht].
    erewrite !bind_check by (by apply check_tail_run). cbn [mbind option_bind].
    by destruct (bool_decide (content m k = Some None)).
  - unfold TAILQ_INSERT_HEAD. erewrite !bind_check by (apply check_head_run; eauto).
    by destruct (head_agrees m hd).
  - unfold TAILQ_INSERT_AFTER. assert (is_Some (content m (NextOf k))) by (apply Hl; by left).
    erewrite !bind_check by (apply check_next_run; eauto). by destruct (next_agrees m k).
  - unfold TAILQ_INSERT_BEFORE.
    assert (is_Some (content m (NextOf k))) as [b Hb]%back_is_Some by (apply Hl; by left).
    erewrite !bind_check by (eapply check_prev_run; eauto). by destruct (prev_agrees m k).
  - unfold TAILQ_REMOVE. assert (is_Some (content m (NextOf l))) as Hs by (apply Hl; by left).
    pose proof Hs as [b Hb]%back_is_Some.
    erewrite !bind_check by (apply check_next_run; eauto).
    destruct (next_agrees m l); [|done]. cbn [negb andb].
    erewrite !bind_check by (eapply check_prev_run; eauto). by destruct (prev_agrees m l).
Qed.

(** ** Concrete runs: three elements with garbage links, one empty head *)

Section runs.
#[local] Instance with_invariants : Invariants := true.

Definition tailq_fresh (x : Z) : tailq_node Z := mk_tailq_node None NullLink x.
Definition tailq_memory : memory (tailq_node Z) tailq_head :=
  mk_memory (list_to_map [(1%positive, tailq_fresh 10); (2%positive, tailq_fresh 20); (3%positive, tailq_fresh 30)])
    {[ 0 := TAILQ_HEAD_INITIALIZER 0 ]}.

Lemma tailq_memory_empty : tailq tailq_memory 0 [].
Proof. by apply tailq_initializer_empty. Qed.

Definition tailq_program : list tail_edit :=
  [InsertTail 2; Edit (InsertAfter 2 3); Edit (InsertBefore 2 1); Edit (Remove 3); InsertTail 3]%positive.

Lemma tailq_edits_refine_witness :
  wp (tailq_edits 0 tailq_program) safe (λ _ m', tailq m' 0 [1; 2; 3]%positive) tailq_memory.
Proof.
  eapply wp_mono; [apply (tailq_edits_refine tailq_memory 0 [] tailq_program [1; 2; 3]%positive tailq_memory_empty)|done|].
  - vm_compute. reflexivity.
  - intros e l He. repeat (apply elem_of_cons in He as [->|He]; [simpl; set_unfold; intros; naive_solver|]).
    by apply not_elem_of_nil in He.
  - intros _ m' [Hb _]. exact Hb.
Defined.

(** The queue of 1 and 3; 2 has been removed and still has its links. *)
Definition tailq_stale : memory (tailq_node Z) tailq_head :=
  mk_memory (list_to_map [(1%positive, mk_tailq_node (Some 3%positive) (FirstOf 0) 10%Z);
                          (2%positive, mk_tailq_node (Some 3%positive) (NextOf 1) 20%Z);
                          (3%positive, mk_tailq_node None (NextOf 1) 30%Z)])
    {[ 0 := mk_tailq_head (Some 1%positive) (NextOf 3) ]}.

(** Removing it again, or inserting behind it, panics; without the checks 1,
    still the first, then has the address of 2's link. *)
Lemma tailq_checks_stop_bad_edits_witness :
  tailq_edit (INV := true) 0 (Edit (Remove 2)) tailq_stale = Fault Panic ∧
  tailq_edit (INV := true) 0 (Edit (InsertAfter 2 1)) tailq_stale = Fault Panic ∧
  wp (tailq_edit (INV := false) 0 (Edit (InsertAfter 2 1))) safe
    (λ _ m', content m' (FirstOf 0) = Some (Some 1%positive) ∧ back m' 1 = Some (NextOf 2)) tailq_stale.
Proof.
  assert (links_live tailq_stale) as Hlive.
  { apply links_live_check; by apply (bool_decide_unpack _). }
  split; [|split].
  - rewrite (tailq_checks_stop_bad_edits tailq_stale 0 (Edit (Remove 2)) Hlive); [by vm_compute|by eexists|].
    intros l ->%list_elem_of_singleton. by eexists.
  - rewrite (tailq_checks_stop_bad_edits tailq_stale 0 (Edit (InsertAfter 2 1)) Hlive); [by vm_compute|by eexists|].
    intros l ->%list_elem_of_singleton. by eexists.
  - vm_compute. done.
Defined.

Lemma tailq_two : ∃ m : memory (tailq_node Z) tailq_head, tailq m 0 [1; 3]%positive.
Proof.
  destruct (wp_safe_inv _ _ _ (tailq_insert_head_spec tailq_memory 0 [] 3 tailq_memory_empty
    ltac:(by eexists) ltac:(set_solver))) as (_ & m1 & _ & Hb1 & [Hc1 _]).
  destruct (wp_safe_inv _ _ _ (tailq_insert_head_spec m1 0 [3%positive] 1 Hb1
    ltac:(apply (ch_alive _ _ _ _ _ Hc1); by eexists) ltac:(set_solver))) as (_ & m2 & _ & Hb2 & _).
  by exists m2.
Qed.

Lemma tailq_reverse_safe_frees_witness :
  ∃ m : memory (tailq_node Z) tailq_head, tailq m 0 [1; 3]%positive ∧
    wp (TAILQ_FOREACH_REVERSE_SAFE 0 (tailq_remove_and_free 0 (λ l, bool_decide (l = 3%positive)))) safe
      (λ _ m', tailq m' 0 [1%positive] ∧ elems m' !! 3%positive = None) m.
Proof.
  destruct tailq_two as [m Hb]. exists m. split; [exact Hb|].
  eapply wp_mono; [apply (tailq_reverse_safe_frees _ _ _ (λ l, bool_decide (l = 3%positive)) Hb)|done|].
  intros _ m' [Hb' Hf]. split; [exact Hb'|]. apply Hf; [set_solver|done].
Defined.
End runs.
