(* ===== verification/SinglyTailQueue.v ===== *)
(** * Singly-linked tail queues ([server/queue.h], the STAILQ macros)

    Singly-linked lists whose head also has the address of the last link.
    [stailq m hd ls] says that the queue of head [hd] holds [ls]. *)

From S2P Require Import Prelude Slist Queue.

(** [STAILQ_HEAD] and [STAILQ_ENTRY] in a struct with other fields [stailq_data]. *)
Record stailq_head := mk_stailq_head { stqh_first : node_ptr; stqh_last : link }.
Record stailq_node (T : Type) := mk_stailq_node { stqe_next : node_ptr; stailq_data : T }.
Arguments mk_stailq_node {T} _ _.
Arguments stqe_next {T} _.
Arguments stailq_data {T} _.

#[export] Instance stailq_next T : NextField (stailq_node T) := {|
  next_of := stqe_next;
  with_next p n := mk_stailq_node p (stailq_data n);
  next_with_next _ _ := eq_refl |}.
#[export] Instance stailq_first : FirstField stailq_head := {|
  first_of := stqh_first;
  with_first p h := mk_stailq_head p (stqh_last h);
  first_with_first _ _ := eq_refl |}.
#[export] Instance stailq_last : LastField stailq_head := {|
  last_of := stqh_last;
  with_last k h := mk_stailq_head (stqh_first h) k;
  last_with_last _ _ := eq_refl;
  last_with_first _ _ := eq_refl;
  first_with_last _ _ := eq_refl |}.

(** [STAILQ_HEAD_INITIALIZER(head)]. *)
Definition STAILQ_HEAD_INITIALIZER (head : nat) : stailq_head := mk_stailq_head None (FirstOf head).

Section macros.
Context {T : Type}.
Abbreviation memory := (memory (stailq_node T) stailq_head).
Abbreviation Q := (M memory).
Implicit Types (m : memory) (elm tqelm : node_ptr) (head : nat).

Definition STAILQ_FIRST head : Q node_ptr := load_link (FirstOf head).
Definition STAILQ_NEXT elm : Q node_ptr := load_link (next_link elm).
Definition STAILQ_EMPTY head : Q bool := p ← STAILQ_FIRST head; mret (bool_decide (p = None)).

Definition STAILQ_INIT head : Q () :=
  store_link (FirstOf head) None;;
  store_last head (FirstOf head).

Definition STAILQ_LAST head : Q node_ptr :=
  empty ← STAILQ_EMPTY head;
  if (empty : bool) then mret None
  else k ← load_last head; containerof k.

Definition STAILQ_INSERT_AFTER head tqelm elm : Q () :=
  next ← STAILQ_NEXT tqelm;
  store_link (next_link elm) next;;
  (if decide (next = None) then store_last head (next_link elm) else mret ());;
  store_link (next_link tqelm) elm.

Definition STAILQ_INSERT_HEAD head elm : Q () :=
  first ← STAILQ_FIRST head;
  store_link (next_link elm) first;;
  (if decide (first = None) then store_last head (next_link elm) else mret ());;
  store_link (FirstOf head) elm.

Definition STAILQ_INSERT_TAIL head elm : Q () :=
  store_link (next_link elm) None;;
  last ← load_last head;
  store_link last elm;;
  store_last head (next_link elm).

Definition STAILQ_REMOVE_HEAD head : Q () :=
  first ← STAILQ_FIRST head;
  next ← STAILQ_NEXT first;
  store_link (FirstOf head) next;;
  if decide (next = None) then store_last head (FirstOf head) else mret ().

Definition STAILQ_REMOVE_AFTER head elm : Q () :=
  next ← STAILQ_NEXT elm;
  next2 ← STAILQ_NEXT next;
  store_link (next_link elm) next2;;
  if decide (next2 = None) then store_last head (next_link elm) else mret ().

(** [while (STAILQ_NEXT(curelm) != elm) curelm = STAILQ_NEXT(curelm);] *)
Fixpoint stailq_walk_to (fuel : nat) (elm curelm : node_ptr) : Q node_ptr :=
  match fuel with
  | O => diverge
  | S fuel =>
     next ← STAILQ_NEXT curelm;
     if decide (next ≠ elm) then curelm ← STAILQ_NEXT curelm; stailq_walk_to fuel elm curelm
     else mret curelm
  end.

Definition STAILQ_REMOVE head elm : Q () :=
  first ← STAILQ_FIRST head;
  if decide (first = elm) then STAILQ_REMOVE_HEAD head
  else
    fuel ← gets elems_fuel;
    curelm ← STAILQ_FIRST head;
    curelm ← stailq_walk_to fuel elm curelm;
    STAILQ_REMOVE_AFTER head curelm.

Definition STAILQ_CONCAT head1 head2 : Q () :=
  empty ← STAILQ_EMPTY head2;
  if (empty : bool) then mret ()
  else
    last1 ← load_last head1;
    first2 ← STAILQ_FIRST head2;
    store_link last1 first2;;
    last2 ← load_last head2;
    store_last head1 last2;;
    STAILQ_INIT head2.

Definition STAILQ_SWAP head1 head2 : Q () :=
  swap_first ← STAILQ_FIRST head1;
  swap_last ← load_last head1;
  first2 ← STAILQ_FIRST head2;
  store_link (FirstOf head1) first2;;
  last2 ← load_last head2;
  store_last head1 last2;;
  store_link (FirstOf head2) swap_first;;
  store_last head2 swap_last;;
  empty1 ← STAILQ_EMPTY head1;
  (if (empty1 : bool) then store_last head1 (FirstOf head1) else mret ());;
  empty2 ← STAILQ_EMPTY head2;
  if (empty2 : bool) then store_last head2 (FirstOf head2) else mret ().

Definition STAILQ_FOREACH_FROM (var : node_ptr) head (body : node_ptr → Q ()) : Q () :=
  fuel ← gets elems_fuel;
  var ← match var with Some _ => mret var | None => STAILQ_FIRST head end;
  for_loop fuel (λ var, body var;; STAILQ_NEXT var) var.

Definition STAILQ_FOREACH head (body : node_ptr → Q ()) : Q () :=
  fuel ← gets elems_fuel;
  var ← STAILQ_FIRST head;
  for_loop fuel (λ var, body var;; STAILQ_NEXT var) var.

Definition STAILQ_FOREACH_FROM_SAFE (var : node_ptr) head (body : node_ptr → Q ()) : Q () :=
  fuel ← gets elems_fuel;
  var ← match var with Some _ => mret var | None => STAILQ_FIRST head end;
  for_loop fuel (λ var, tvar ← STAILQ_NEXT var; body var;; mret tvar) var.

Definition STAILQ_FOREACH_SAFE head (body : node_ptr → Q ()) : Q () :=
  fuel ← gets elems_fuel;
  var ← STAILQ_FIRST head;
  for_loop fuel (λ var, tvar ← STAILQ_NEXT var; body var;; mret tvar) var.
End macros.

(** ** Programs of insertions and removals *)

Inductive queue_edit :=
  | PushFront (l : positive)
  | PushBack (l : positive)
  | PushAfter (k l : positive)
  | PopFront
  | PopAfter (k : positive)
  | Unlink (l : positive).

Definition pushed (e : queue_edit) : list positive :=
  match e with PushFront l | PushBack l | PushAfter _ l => [l] | _ => [] end.

Fixpoint pop_after (k : positive) (ls : list positive) : option (list positive) :=
  match ls with
  | [] => None
  | x :: ls =>
     if decide (x = k) then match ls with [] => None | _ :: ls => Some (x :: ls) end
     else (x ::.) <$> pop_after k ls
  end.

Definition apply_queue_edit (ls : list positive) (e : queue_edit) : option (list positive) :=
  match e with
  | PushFront l => if decide (l ∈ ls) then None else Some (l :: ls)
  | PushBack l => if decide (l ∈ ls) then None else Some (ls ++ [l])
  | PushAfter k l => if decide (l ∈ ls) then None else at_elem k [k; l] ls
  | PopFront => match ls with [] => None | _ :: ls => Some ls end
  | PopAfter k => pop_after k ls
  | Unlink l => at_elem l [] ls
  end.

Fixpoint apply_queue_edits (ls : list positive) (es : list queue_edit) : option (list positive) :=
  match es with [] => Some ls | e :: es => ls ← apply_queue_edit ls e; apply_queue_edits ls es end.

Definition stailq_edit {T} (hd : nat) (e : queue_edit) : M (memory (stailq_node T) stailq_head) () :=
  match e with
  | PushFront l => STAILQ_INSERT_HEAD hd (Some l)
  | PushBack l => STAILQ_INSERT_TAIL hd (Some l)
  | PushAfter k l => STAILQ_INSERT_AFTER hd (Some k) (Some l)
  | PopFront => STAILQ_REMOVE_HEAD hd
  | PopAfter k => STAILQ_REMOVE_AFTER hd (Some k)
  | Unlink l => STAILQ_REMOVE hd (Some l)
  end.

Fixpoint stailq_edits {T} (hd : nat) (es : list queue_edit) : M (memory (stailq_node T) stailq_head) () :=
  match es with [] => mret () | e :: es => stailq_edit hd e;; stailq_edits hd es end.

Section specs.
Context {T : Type}.
Abbreviation memory := (memory (stailq_node T) stailq_head).
Implicit Types (m : memory) (hd : nat) (l : positive) (ls : list positive).

Definition stailq m hd ls : Prop := qlist m hd ls ∧ tail m hd = Some (link_at hd ls).

(** A head as its initialiser leaves it. *)
Lemma stailq_initializer_empty m hd : qheads m !! hd = Some (STAILQ_HEAD_INITIALIZER hd) → stailq m hd [].
Proof.
  intros Hh. split; [|unfold tail; by rewrite Hh]. apply queue_nil. unfold content. by rewrite Hh.
Qed.

(** No struct comes or goes. *)
Definition same_structs m m' : Prop := ∀ k, is_Some (content m' k) ↔ is_Some (content m k).

Lemma stailq_at m hd ls1 k ls2 :
  stailq m hd (ls1 ++ k :: ls2) →
  content m (link_at hd ls1) = Some (Some k) ∧ content m (NextOf k) = Some (head ls2) ∧
  link_at hd ls1 ≠ NextOf k.
Proof.
  intros (Hq & _). pose proof Hq as [Hnd Hc]. split_and!.
  - by apply (Hc ls1 (k :: ls2)).
  - by eapply queue_next.
  - intros E%link_at_NextOf. apply NoDup_app in Hnd as (_ & Hd & _). apply (Hd k E). by left.
Qed.

Lemma stailq_next_spec m hd ls1 l ls2 :
  stailq m hd (ls1 ++ l :: ls2) → STAILQ_NEXT (Some l) m = Ok (head ls2) m.
Proof.
  intros Hb. destruct (stailq_at _ _ _ _ _ Hb) as (_ & Hl & _).
  unfold STAILQ_NEXT, load_link, mbind, M_bind, gets. simpl. by rewrite Hl.
Qed.

Ltac stailq_done := split; [split|intros ?; autorewrite with queue_alive; done].

Lemma stailq_insert_head_spec m hd ls l :
  stailq m hd ls → is_Some (content m (NextOf l)) → l ∉ ls →
  wp (STAILQ_INSERT_HEAD hd (Some l)) safe (λ _ m', stailq m' hd (l :: ls) ∧ same_structs m m') m.
Proof.
  intros [Hq Ht] [x Hx] Hl. pose proof (queue_first _ _ _ Hq) as Hf.
  unfold STAILQ_INSERT_HEAD, STAILQ_FIRST. destruct ls as [|k ls]; simpl in *.
  - qsteps. stailq_done; [splice (queue_splice_in m _ hd [] l [])|by held].
  - qsteps. stailq_done; [splice (queue_splice_in m _ hd [] l (k :: ls))|by held].
Qed.

Lemma stailq_insert_tail_spec m hd ls l :
  stailq m hd ls → is_Some (content m (NextOf l)) → l ∉ ls →
  wp (STAILQ_INSERT_TAIL hd (Some l)) safe (λ _ m', stailq m' hd (ls ++ [l]) ∧ same_structs m m') m.
Proof.
  intros [Hq Ht] [x Hx] Hl. pose proof (queue_last _ _ _ Hq) as Hla.
  pose proof (queue_first _ _ _ Hq) as Hf.
  assert (link_at hd ls ≠ NextOf l) as Hal by (by intros ?%link_at_NextOf).
  unfold STAILQ_INSERT_TAIL. simpl. qsteps. stailq_done.
  - splice (queue_splice_in m _ hd ls l []); rewrite ?app_nil_r; simpl; intros; by held.
  - rewrite link_at_snoc. by held.
Qed.

Lemma stailq_insert_after_spec m hd ls1 k ls2 l :
  stailq m hd (ls1 ++ k :: ls2) → is_Some (content m (NextOf l)) → l ∉ ls1 ++ k :: ls2 →
  wp (STAILQ_INSERT_AFTER hd (Some k) (Some l)) safe
    (λ _ m', stailq m' hd (ls1 ++ k :: l :: ls2) ∧ same_structs m m') m.
Proof.
  intros Hb [x Hx] Hl. pose proof Hb as [Hq Ht]. destruct (stailq_at _ _ _ _ _ Hb) as (_ & Hk & _).
  pose proof (queue_first _ _ _ Hq) as Hf.
  rewrite cons_middle, (assoc_L (++)) in Hq, Hl, Ht |- *.
  assert (link_at hd (ls1 ++ [k]) = NextOf k) as Hat by apply link_at_snoc.
  assert (k ≠ l) by set_solver. unfold STAILQ_INSERT_AFTER, STAILQ_NEXT. simpl.
  destruct ls2 as [|j ls2]; simpl in *; qsteps; stailq_done.
  - splice (queue_splice_in m _ hd (ls1 ++ [k]) l []); rewrite Hat; intros; by held.
  - rewrite link_at_snoc. by held.
  - splice (queue_splice_in m _ hd (ls1 ++ [k]) l (j :: ls2)); rewrite Hat; intros; by held.
  - autorewrite with queue. rewrite Ht. f_equal.
    rewrite (cons_middle l), (assoc_L (++)). apply link_at_tail.
Qed.

Lemma stailq_remove_head_spec m hd l ls :
  stailq m hd (l :: ls) →
  wp (STAILQ_REMOVE_HEAD hd) safe (λ _ m', stailq m' hd ls ∧ same_structs m m') m.
Proof.
  intros Hb. pose proof Hb as [Hq Ht]. destruct (stailq_at m hd [] l ls Hb) as (Hf & Hl & _).
  unfold link_at in Hf. simpl in Hf. unfold STAILQ_REMOVE_HEAD, STAILQ_FIRST, STAILQ_NEXT.
  destruct ls as [|k ls]; simpl in *; qsteps; stailq_done.
  - splice (queue_splice_out m _ hd [] l []).
  - by held.
  - splice (queue_splice_out m _ hd [] l (k :: ls)).
  - by held.
Qed.

Lemma stailq_remove_after_spec m hd ls1 k l ls2 :
  stailq m hd (ls1 ++ k :: l :: ls2) →
  wp (STAILQ_REMOVE_AFTER hd (Some k)) safe
    (λ _ m', stailq m' hd (ls1 ++ k :: ls2) ∧ same_structs m m') m.
Proof.
  intros Hb. pose proof Hb as [Hq Ht]. destruct (stailq_at _ _ _ _ _ Hb) as (_ & Hk & _).
  destruct (stailq_at m hd (ls1 ++ [k]) l ls2) as (_ & Hl & Hkl); [by rewrite <-(assoc_L (++))|].
  pose proof (queue_first _ _ _ Hq) as Hf. rewrite link_at_snoc in Hkl.
  rewrite (cons_middle k), (assoc_L (++)) in Hq, Ht |- *.
  assert (link_at hd (ls1 ++ [k]) = NextOf k) as Hat by apply link_at_snoc.
  unfold STAILQ_REMOVE_AFTER, STAILQ_NEXT. simpl in *.
  destruct ls2 as [|j ls2]; simpl in *; qsteps; stailq_done.
  - splice (queue_splice_out m _ hd (ls1 ++ [k]) l []); rewrite Hat; intros; by held.
  - rewrite app_nil_r, link_at_snoc. by held.
  - splice (queue_splice_out m _ hd (ls1 ++ [k]) l (j :: ls2)); rewrite Hat; intros; by held.
  - autorewrite with queue. rewrite Ht. f_equal.
    rewrite (cons_middle l), (assoc_L (++) (ls1 ++ [k])). symmetry. apply link_at_tail.
Qed.

Lemma stailq_walk_to_spec fuel m hd ls0 ls k l ls2 (R : node_ptr → memory → Prop) :
  stailq m hd (ls0 ++ ls ++ k :: l :: ls2) → length ls < fuel → R (Some k) m →
  wp (stailq_walk_to fuel (Some l) (head (ls ++ [k]))) safe R m.
Proof.
  revert ls0 ls. induction fuel as [|fuel IH]; intros ls0 ls Hb Hf HR; [lia|]. cbn [stailq_walk_to].
  destruct ls as [|j ls]; simpl in *.
  - wp_step. unfold wp at 1. rewrite (stailq_next_spec m hd ls0 k (l :: ls2)) by done. simpl.
    by rewrite decide_False by (intros E; by apply E).
  - pose proof Hb as [[Hnd _] _].
    assert (STAILQ_NEXT (Some j) m = Ok (head (ls ++ [k])) m) as E.
    { rewrite (stailq_next_spec m hd ls0 j (ls ++ k :: l :: ls2)) by done. by destruct ls. }
    wp_step. unfold wp at 1. rewrite E. rewrite decide_True.
    + wp_step. unfold wp at 1. rewrite E. apply (IH (ls0 ++ [j])); [by rewrite <-(assoc_L (++))|lia|done].
    + apply NoDup_app in Hnd as (_ & _ & [_ Hnd]%NoDup_cons).
      destruct ls as [|j' ls]; simpl in *; intros [= ->]; apply NoDup_cons in Hnd as [Hin _]; set_solver.
Qed.

Lemma stailq_length m hd ls : stailq m hd ls → length ls < elems_fuel m.
Proof. intros [Hq _]. by eapply queue_length. Qed.

Lemma stailq_remove_spec m hd ls1 l ls2 :
  stailq m hd (ls1 ++ l :: ls2) →
  wp (STAILQ_REMOVE hd (Some l)) safe (λ _ m', stailq m' hd (ls1 ++ ls2) ∧ same_structs m m') m.
Proof.
  intros Hb. pose proof Hb as [Hq _]. pose proof (queue_first _ _ _ Hq) as Hf. pose proof Hq as [Hnd _].
  unfold STAILQ_REMOVE, STAILQ_FIRST. wp_step. eapply wp_load_link; [exact Hf|].
  destruct ls1 as [|k ls1 _] using rev_ind; simpl.
  - rewrite decide_True by done. apply (stailq_remove_head_spec m hd l ls2 Hb).
  - rewrite <-(assoc_L (++)) in *. simpl in *. rewrite decide_False; cycle 1.
    { destruct ls1 as [|j ls1]; simpl in *; intros [= ->]; apply NoDup_cons in Hnd as [Hin _]; set_solver. }
    wp_step. apply wp_gets. wp_step. eapply wp_load_link; [exact Hf|]. wp_step.
    replace (head (ls1 ++ k :: l :: ls2)) with (head (ls1 ++ [k])) by by destruct ls1.
    eapply (stailq_walk_to_spec _ m hd []); [done| |rewrite <-(assoc_L (++)); by apply (stailq_remove_after_spec m hd ls1 k l ls2)].
    pose proof (stailq_length _ _ _ Hb) as Hlen. rewrite length_app in Hlen. simpl in Hlen. lia.
Qed.

Lemma stailq_init_spec m hd :
  is_Some (content m (FirstOf hd)) → wp (STAILQ_INIT hd) safe (λ _ m', stailq m' hd []) m.
Proof.
  intros [p Hp]. pose proof (proj2 (tail_is_Some m hd) ltac:(by eexists)) as [k Hk].
  unfold STAILQ_INIT. qsteps. split; [apply queue_nil; by held|by held].
Qed.

Lemma stailq_last_spec m hd ls :
  stailq m hd ls → wp (STAILQ_LAST hd) safe (λ p m', p = last ls ∧ m' = m) m.
Proof.
  intros [Hq Ht]. pose proof (queue_first _ _ _ Hq) as Hf.
  unfold STAILQ_LAST, STAILQ_EMPTY, STAILQ_FIRST. destruct ls as [|l ls _] using rev_ind; simpl in *.
  - by qsteps.
  - wp_step. wp_step. eapply wp_load_link; [exact Hf|]. wp_step.
    rewrite bool_decide_eq_false_2 by by destruct ls. rewrite link_at_snoc in Ht. rewrite last_snoc.
    by qsteps; simpl; qsteps.
Qed.

Lemma stailq_concat_spec m h1 h2 ls1 ls2 :
  stailq m h1 ls1 → stailq m h2 ls2 → ls1 ## ls2 → h1 ≠ h2 →
  wp (STAILQ_CONCAT h1 h2) safe (λ _ m', stailq m' h1 (ls1 ++ ls2) ∧ stailq m' h2 []) m.
Proof.
  intros H1 H2 Hd Hne. pose proof H1 as (Hq1 & Ht1). pose proof H2 as (Hq2 & Ht2).
  pose proof (queue_first _ _ _ Hq1) as Hf1. pose proof (queue_first _ _ _ Hq2) as Hf2.
  pose proof (queue_last _ _ _ Hq1) as Hl1.
  unfold STAILQ_CONCAT, STAILQ_EMPTY, STAILQ_FIRST, STAILQ_INIT. destruct ls2 as [|l2 ls2]; simpl in *.
  { qsteps. by rewrite app_nil_r. }
  assert (link_at h1 ls1 ≠ FirstOf h2) as Ha1 by (intros E%link_at_FirstOf; by destruct E).
  qsteps. split; split.
  - splice (queue_concat m _ h1 h2 ls1 (l2 :: ls2)); simpl; intros; by held.
  - held. f_equal. apply (link_at_tail h2 h1 [] ls1).
  - apply queue_nil. by held.
  - by held.
Qed.

Lemma stailq_swap_spec m h1 h2 ls1 ls2 :
  stailq m h1 ls1 → stailq m h2 ls2 → h1 ≠ h2 →
  wp (STAILQ_SWAP h1 h2) safe (λ _ m', stailq m' h1 ls2 ∧ stailq m' h2 ls1) m.
Proof.
  intros H1 H2 Hne. pose proof H1 as (Hq1 & Ht1). pose proof H2 as (Hq2 & Ht2).
  pose proof (queue_first _ _ _ Hq1) as Hf1. pose proof (queue_first _ _ _ Hq2) as Hf2.
  unfold STAILQ_SWAP, STAILQ_EMPTY, STAILQ_FIRST.
  destruct ls1 as [|l1 ls1], ls2 as [|l2 ls2]; simpl in *; qsteps; (split; split).
  all: try (by eapply (queue_rehead m _ h2 h1); [done|intros; held..]).
  all: try (by eapply (queue_rehead m _ h1 h2); [done|intros; held..]).
  all: held; f_equal; first [apply (link_at_tail h2 h1 [] [])|apply (link_at_tail h1 h2 [] [])].
Qed.

Lemma pop_after_Some k ls ls' :
  pop_after k ls = Some ls' →
  ∃ ls1 l ls2, ls = ls1 ++ k :: l :: ls2 ∧ ls' = ls1 ++ k :: ls2.
Proof.
  revert ls'. induction ls as [|x ls IH]; intros ls'; simpl; [done|]. case_decide as Hx.
  - destruct ls as [|l ls]; [done|]. intros [= <-]. subst. by exists [], l, ls.
  - intros (ls0 & Hls & ->)%fmap_Some. destruct (IH ls0 Hls) as (ls1 & l & ls2 & -> & ->).
    by exists (x :: ls1), l, ls2.
Qed.

Lemma stailq_edit_spec m hd ls e ls' :
  stailq m hd ls → apply_queue_edit ls e = Some ls' →
  (∀ l, l ∈ pushed e → is_Some (content m (NextOf l))) →
  wp (stailq_edit hd e) safe (λ _ m', stailq m' hd ls' ∧ same_structs m m') m.
Proof.
  intros Hb He Hl. destruct e as [l|l|k l| |k|l]; simpl in He;
    try (case_decide as Hin; simplify_eq).
  - apply stailq_insert_head_spec; [done|apply Hl; by left|done].
  - apply stailq_insert_tail_spec; [done|apply Hl; by left|done].
  - apply at_elem_Some in He as (ls1 & ls2 & -> & ->). apply stailq_insert_after_spec; [done|apply Hl; by left|done].
  - destruct ls as [|l ls]; [done|]. injection He as <-. by apply (stailq_remove_head_spec m hd l ls).
  - apply pop_after_Some in He as (ls1 & l & ls2 & -> & ->). by apply (stailq_remove_after_spec m hd ls1 k l ls2).
  - apply at_elem_Some in He as (ls1 & ls2 & -> & ->). by apply stailq_remove_spec.
Qed.

(** C21: any program of STAILQ operations, pushes at both ends and behind an
    element, pops and removals, does to the queue what the same program does
    to a list; the address of the last link stays right. *)
Theorem stailq_edits_refine m hd ls es ls' :
  stailq m hd ls → apply_queue_edits ls es = Some ls' →
  (∀ e l, e ∈ es → l ∈ pushed e → is_Some (content m (NextOf l))) →
  wp (stailq_edits hd es) safe (λ _ m', stailq m' hd ls' ∧ same_structs m m') m.
Proof.
  revert m ls. induction es as [|e es IH]; intros m ls Hb He Hl.
  { injection He as <-. split; [done|]. done. }
  simpl in He. apply bind_Some in He as (ls1 & He & Hes). simpl. wp_step.
  eapply wp_mono; [eapply (stailq_edit_spec m hd ls e ls1); [done|done|]|done|].
  { intros l. apply (Hl e). by left. }
  intros _ m1 [Hb1 Hs1]. eapply wp_mono; [apply (IH m1 ls1 Hb1 Hes)|done|].
  { intros e' l ??. apply Hs1. by eapply (Hl e'); [right|]. }
  intros _ m2 [Hb2 Hs2]. split; [done|]. intros k. etrans; [apply Hs2|apply Hs1].
Qed.
End specs.

(** ** A concrete run: three elements with garbage links, one empty head *)

Section runs.
Definition stailq_fresh (x : Z) : stailq_node Z := mk_stailq_node None x.
Definition stailq_memory : memory (stailq_node Z) stailq_head :=
  mk_memory (list_to_map [(1%positive, stailq_fresh 10); (2%positive, stailq_fresh 20); (3%positive, stailq_fresh 30)])
    {[ 0 := STAILQ_HEAD_INITIALIZER 0 ]}.

Lemma stailq_memory_empty : stailq stailq_memory 0 [].
Proof. by apply stailq_initializer_empty. Qed.

Definition stailq_program : list queue_edit :=
  [PushBack 2; PushAfter 2 3; PushFront 1; PopAfter 2; PopFront; PushBack 3; Unlink 2]%positive.

Lemma stailq_edits_refine_witness :
  wp (stailq_edits 0 stailq_program) safe (λ _ m', stailq m' 0 [3%positive]) stailq_memory.
Proof.
  eapply wp_mono; [apply (stailq_edits_refine stailq_memory 0 [] stailq_program [3%positive] stailq_memory_empty)|done|].
  - vm_compute. reflexivity.
  - intros e l He. repeat (apply elem_of_cons in He as [->|He]; [simpl; set_unfold; intros; naive_solver|]).
    by apply not_elem_of_nil in He.
  - intros _ m' [Hb _]. exact Hb.
Defined.
End runs.
