(* ===== verification/Connections.v ===== *)
(** * The server's connection list ([server/aesdsocket.c])

    [struct connection] as a list node and the two functions that walk the
    list. *)

From S2P Require Import Prelude Slist.

(** [addr] is the [struct sockaddr_in], kept opaque. *)
Record connection := mk_connection {
  conn_fd : Z;
  conn_addr : Z;
  thread_id : Z;
  thread_complete : Z;
  entries : node_ptr }.

#[export] Program Instance connection_entry : SListEntry connection := {|
  sle_next := entries;
  set_sle_next p c :=
    mk_connection (conn_fd c) (conn_addr c) (thread_id c) (thread_complete c) p |}.
Next Obligation. done. Qed.
Next Obligation. done. Qed.
Next Obligation. by intros []. Qed.

Definition set_thread_complete (v : Z) (c : connection) : connection :=
  mk_connection (conn_fd c) (conn_addr c) (thread_id c) v (entries c).

(** [connections_lock], and the threads joined so far, last first. *)
Record conn_env := mk_env { connections_lock : bool; joined : list Z }.

(** The name of the head [connections]. *)
Definition connections : nat := 0.

Abbreviation cstate := (lstate connection conn_env).
Abbreviation CM := (M cstate).

(** A default mutex: locking it twice in one thread blocks for ever. *)
Definition pthread_mutex_lock : CM () :=
  e ← gets env;
  if connections_lock e then fail Deadlock
  else modify (set_env (λ e, mk_env true (joined e))).

Definition pthread_mutex_unlock : CM () :=
  e ← gets env;
  if connections_lock e then modify (set_env (λ e, mk_env false (joined e)))
  else fail BadUnlock.

Definition pthread_join (id : Z) : CM () :=
  modify (set_env (λ e, mk_env (connections_lock e) (id :: joined e))).

Definition mark_all_threads_complete : CM () :=
  pthread_mutex_lock;;
  SLIST_FOREACH connections (λ conn, update_node conn (set_thread_complete 1));;
  pthread_mutex_unlock.

(** The body of the loop of [collect_complete_threads]. *)
Definition collect_body (conn : node_ptr) : CM () :=
  c ← load_node conn;
  if decide (thread_complete c ≠ 0%Z) then
    pthread_join (thread_id c);;
    SLIST_REMOVE connections conn;;
    free_node conn
  else mret ().

Definition collect_complete_threads : CM () :=
  pthread_mutex_lock;;
  SLIST_FOREACH connections collect_body;;
  pthread_mutex_unlock.

(** ** The functions *)

Section connections.
Implicit Types (s : cstate) (ls : list positive).

Definition complete s (l : positive) : Prop :=
  ∃ c, nodes s !! l = Some c ∧ thread_complete c ≠ 0%Z.

#[global] Instance complete_dec s l : Decision (complete s l).
Proof.
  refine (match nodes s !! l as o return nodes s !! l = o → Decision (complete s l) with
          | Some c => λ H, cast_if (decide (thread_complete c ≠ 0%Z))
          | None => λ H, right _
          end eq_refl); unfold complete; rewrite ?H; naive_solver.
Defined.

Lemma wp_mutex_lock s F (Q : () → cstate → Prop) :
  connections_lock (env s) = false →
  Q () (set_env (λ e, mk_env true (joined e)) s) → wp pthread_mutex_lock F Q s.
Proof. intros Hl HQ. unfold pthread_mutex_lock. wp_steps. rewrite Hl. by wp_steps. Qed.

Lemma wp_mutex_unlock s F (Q : () → cstate → Prop) :
  connections_lock (env s) = true →
  Q () (set_env (λ e, mk_env false (joined e)) s) → wp pthread_mutex_unlock F Q s.
Proof. intros Hl HQ. unfold pthread_mutex_unlock. wp_steps. rewrite Hl. by wp_steps. Qed.

(** [mark_all_threads_complete] sets every flag and keeps the list. *)
Lemma mark_all_spec s ls :
  slist s connections ls → connections_lock (env s) = false →
  wp mark_all_threads_complete safe
    (λ _ s', slist s' connections ls ∧ env s' = env s ∧
             ∀ l, nodes s' !! l = if decide (l ∈ ls) then set_thread_complete 1 <$> nodes s !! l
                                  else nodes s !! l) s.
Proof.
  intros [Hnd Hc] Hl. unfold mark_all_threads_complete. wp_step.
  apply wp_mutex_lock; [done|]. set (s0 := set_env _ s). wp_step. unfold SLIST_FOREACH.
  wp_step. apply wp_gets. wp_step. apply wp_first.
  rewrite (chain_head _ _ _ Hc : default None (heads s0 !! connections) = head ls).
  set (Inv := λ rest s', ∃ visited, ls = visited ++ rest ∧ heads s' = heads s ∧ env s' = env s0 ∧
    ∀ l, nodes s' !! l = if decide (l ∈ visited) then set_thread_complete 1 <$> nodes s !! l
                         else nodes s !! l).
  eapply wp_mono; [apply (foreach_loop_spec Inv safe)|done|].
  - intros l rest s' (vis & Hls & Hh & He & Hn). subst ls.
    apply chain_app in Hc as (r & _ & _ & c & Hcl & Hrest).
    assert (l ∉ vis) as Hlv.
    { apply NoDup_app in Hnd as (_ & Hd & _). intros Hin. eapply Hd; [done|left]. }
    eapply wp_update_node; [rewrite Hn, decide_False by done; done|]. split.
    + exists (vis ++ [l]). rewrite <-(assoc_L (++)). split_and!; [done..|].
      intros k. simpl. destruct (decide (k = l)) as [->|Hne].
      * rewrite lookup_insert_eq, decide_True by set_solver. by rewrite Hcl.
      * rewrite lookup_insert_ne, Hn by done. apply decide_ext. set_solver.
    + eexists. simpl. rewrite lookup_insert_eq. split; [done|].
      by apply chain_head in Hrest.
  - unfold walk_fuel. simpl. apply chain_length in Hc; [lia|done].
  - exists []. split_and!; done.
  - intros _ s' (vis & Hls & Hh & He & Hn). rewrite app_nil_r in Hls. subst vis.
    apply wp_mutex_unlock; [by rewrite He|]. split_and!; [|simpl; rewrite He; simpl; by rewrite <-Hl; destruct (env s)|done].
    split; [done|]. simpl. rewrite Hh. clear -Hc Hn.
    assert (∀ p ls', (∀ l, l ∈ ls' → l ∈ ls) → chain (nodes s) p ls' None →
      chain (nodes s') p ls' None) as Hk; [|by apply (Hk _ ls)].
    intros p ls'. revert p. induction ls' as [|l ls' IH]; intros p Hsub Hc'; [done|].
    destruct Hc' as (-> & c & Hcl & Hc'). split; [done|].
    exists (set_thread_complete 1 c). rewrite Hn, decide_True, Hcl by (apply Hsub; left).
    split; [done|]. apply IH; [|done]. intros. apply Hsub. by right.
Qed.

(** A connection that is not complete is skipped. *)
Lemma collect_body_skip s l c :
  nodes s !! l = Some c → thread_complete c = 0%Z → collect_body (Some l) s = Ok () s.
Proof.
  intros Hl Hc. unfold collect_body, load_node, mbind, M_bind, gets. rewrite Hl. simpl.
  by rewrite decide_False by naive_solver.
Qed.

(** A complete one is joined, unlinked and freed. *)
Lemma collect_body_free s ls1 l ls2 F (Q : () → cstate → Prop) :
  slist s connections (ls1 ++ l :: ls2) → complete s l →
  (∀ s', nodes s' !! l = None → Q () s') →
  wp (collect_body (Some l)) F Q s.
Proof.
  intros Hs (c & Hl & Hc) HQ. unfold collect_body. wp_step. eapply wp_load_node; [done|].
  rewrite decide_True by done. wp_step. unfold pthread_join. wp_step.
  eapply remove_and_free_spec; [exact Hs|]. intros s' _ _ _ Hn. apply HQ.
  destruct (Hn l) as [r Hr]. simpl in Hr. by rewrite Hr, lookup_delete_eq.
Qed.

(** The walk of [collect_complete_threads] over a suffix [rest] of the list:
    it returns unchanged, or dies reading the link of the node it freed. *)
Lemma collect_walk fuel s pre rest :
  slist s connections (pre ++ rest) → length rest < fuel →
  foreach_loop fuel (head rest) collect_body s =
    if decide (Exists (complete s) rest) then Fault UseAfterFree else Ok () s.
Proof.
  intros Hs Hf. apply (foreach_loop_frees (complete s) _ _ _ connections pre rest Hs Hf).
  - intros l Hl Hc. pose proof Hs as [_ (r & _ & Hch)%chain_app].
    destruct (chain_lookup _ _ _ _ l Hch Hl) as [c Hcl].
    apply (collect_body_skip _ _ c); [done|]. destruct (decide (thread_complete c = 0%Z)); [done|].
    exfalso. apply Hc. by exists c.
  - intros ls1 l ls2 Hls Hc. rewrite Hls in Hs. by apply (collect_body_free _ _ _ _ _ _ Hs Hc).
Qed.

(** The two outcomes of the whole function. *)
Lemma collect_outcome s ls :
  slist s connections ls → connections_lock (env s) = false →
  collect_complete_threads s =
    if decide (Exists (complete s) ls) then Fault UseAfterFree else Ok () s.
Proof.
  intros Hs Hl. unfold collect_complete_threads, pthread_mutex_lock.
  set (s0 := set_env (λ e, mk_env true (joined e)) s).
  rewrite (bind_Ok _ _ s () s0) by (unfold mbind, M_bind, gets; by rewrite Hl).
  pose proof Hs as [Hnd Hc].
  assert (SLIST_FOREACH connections collect_body s0 =
    if decide (Exists (complete s) ls) then Fault UseAfterFree else Ok () s0) as Hw.
  { unfold SLIST_FOREACH. rewrite (bind_Ok _ _ s0 (walk_fuel s0) s0) by done.
    rewrite (bind_Ok _ _ s0 (head ls) s0).
    - apply (collect_walk _ s0 []); [done|]. unfold walk_fuel. simpl.
      apply chain_length in Hc; [lia|done].
    - unfold SLIST_FIRST, mbind, M_bind, gets, mret, M_ret. simpl.
      by rewrite (chain_head _ _ _ Hc). }
  case_decide; unfold mbind, M_bind in *; rewrite Hw; [done|].
  unfold pthread_mutex_unlock, mbind, M_bind, gets, modify. simpl. f_equal.
  unfold s0, set_env. destruct s as [? ? [? ?]]. simpl in *. by rewrite Hl.
Qed.

(** C26: [collect_complete_threads] is safe exactly when it has nothing to do.
    With no complete connection on the list it returns the state it was
    given; with one it joins it, unlinks it, frees it and then reads the link
    of the freed node to go on. *)
Theorem collect_complete_threads_outcome s ls :
  slist s connections ls → connections_lock (env s) = false →
  collect_complete_threads s =
    if decide (Exists (complete s) ls) then Fault UseAfterFree else Ok () s.
Proof. apply collect_outcome. Qed.

(** [mark_all_threads_complete] sets the flag of every listed connection,
    keeps the list and releases the lock. *)
Theorem mark_all_threads_complete_correct s ls :
  slist s connections ls → connections_lock (env s) = false →
  wp mark_all_threads_complete safe
    (λ _ s', slist s' connections ls ∧ env s' = env s ∧ Forall (complete s') ls) s.
Proof.
  intros Hs Hl. eapply wp_mono; [by apply mark_all_spec|done|].
  intros _ s' (Hs' & He & Hn). split_and!; [done..|]. apply Forall_forall. intros l Hin.
  destruct Hs as [_ Hc]. apply (chain_lookup _ _ _ _ l) in Hc as [c Hcl]; [|done].
  exists (set_thread_complete 1 c). by rewrite Hn, decide_True, Hcl by done.
Qed.
End connections.

(** ** A concrete list of three connections, the middle one complete *)

Definition sample_connections : cstate :=
  LS (list_to_map [(1%positive, mk_connection 4 0 11 0 (Some 2%positive));
                   (2%positive, mk_connection 5 0 12 1 (Some 3%positive));
                   (3%positive, mk_connection 6 0 13 0 None)])
     {[connections := Some 1%positive]} (mk_env false []).

Definition sample_list : list positive := [1; 2; 3]%positive.

Lemma sample_slist : slist sample_connections connections sample_list.
Proof.
  split; [by apply (bool_decide_unpack _)|].
  repeat (split; [done|]; eexists; split; [reflexivity|]). done.
Qed.

Lemma collect_complete_threads_outcome_witness :
  collect_complete_threads sample_connections = Fault UseAfterFree.
Proof.
  rewrite (collect_complete_threads_outcome _ _ sample_slist eq_refl). vm_compute. reflexivity.
Defined.

(** The second connection goes; [SLIST_FOREACH] would use it. *)
Lemma slist_foreach_safe_frees_witness :
  let body := slist_remove_and_free connections (λ l, bool_decide (l = 2%positive)) in
  wp (SLIST_FOREACH_SAFE connections body) safe (λ _ s', slist s' connections [1; 3]%positive)
    sample_connections ∧
  SLIST_FOREACH connections body sample_connections = Fault UseAfterFree.
Proof.
  intros body. destruct (slist_foreach_safe_frees sample_connections connections sample_list
    (λ l, bool_decide (l = 2%positive)) sample_slist) as [Hsafe Hplain].
  split; [|exact Hplain]. eapply wp_mono; [exact Hsafe|done|]. by intros _ s' [? _].
Defined.

Lemma mark_all_threads_complete_correct_witness :
  wp mark_all_threads_complete safe (λ _ s', Forall (complete s') sample_list) sample_connections.
Proof.
  eapply wp_mono; [exact (mark_all_threads_complete_correct _ _ sample_slist eq_refl)|done|].
  by intros _ s' (_ & _ & ?).
Defined.

(** The second connection is taken out, put back in front, and the one behind
    it removed; then the new head goes behind the last one. *)
Lemma slist_edits_refine_witness :
  wp (slist_edits connections [Take 2; PushHead 2; PopBehind 2; PopHead; PushBehind 3 2]%positive) safe
    (λ _ s', slist s' connections [3; 2]%positive) sample_connections.
Proof.
  eapply wp_mono; [apply (slist_edits_refine sample_connections connections sample_list
    [Take 2; PushHead 2; PopBehind 2; PopHead; PushBehind 3 2]%positive [3; 2]%positive sample_slist)|done|].
  - vm_compute. reflexivity.
  - intros e l He Hl. apply elem_of_dom. vm_compute in He, Hl.
    repeat (apply elem_of_cons in He as [->|He]; [simpl in Hl; set_unfold; naive_solver|]).
    by apply elem_of_nil in He.
  - by intros _ s' [? _].
Defined.

(** The sample list and, under another head, a list of one connection. *)
Definition two_lists : cstate :=
  LS (<[4%positive := mk_connection 7 0 14 0 None]> (nodes sample_connections))
     (<[1 := Some 4%positive]> (heads sample_connections)) (mk_env false []).

Lemma slist_concat_joins_witness :
  wp (SLIST_CONCAT connections 1) safe
    (λ _ s', slist s' connections [1; 2; 3; 4]%positive) two_lists.
Proof.
  eapply wp_mono; [apply (slist_concat_joins two_lists connections 1 sample_list [4%positive])|done|].
  - done.
  - split; [by apply (bool_decide_unpack _)|].
    repeat (split; [done|]; eexists; split; [reflexivity|]). done.
  - split; [by apply (bool_decide_unpack _)|].
    repeat (split; [done|]; eexists; split; [reflexivity|]). done.
  - intros k. unfold sample_list. set_solver.
  - by intros _ s' [? _].
Defined.
