(* ===== verification/ServerMain.v ===== *)
(** * The server's main thread ([main] and what it calls in [server/aesdsocket.c])

    The command line, the start of the program, the loop that accepts clients
    and the exit.  System calls answer with arguments of the definitions. *)

From S2P Require Import Prelude CString Slist Connections.

Definition EXIT_SUCCESS : Z := 0.
Definition EXIT_FAILURE : Z := 1.

(** ** The command line *)

Record options := mk_options { port : Z; daemonize : Z }.

(** [strtol(s, NULL, 10)], with the saturation of a [long]. *)
Definition strtol10 (s : list byte) : Z :=
  let s := skip_space s in
  let '(sign, s) := match s with
                    | c :: s' => if decide (c = 45)%Z then ((-1)%Z, s')
                                 else if decide (c = 43)%Z then (1%Z, s') else (1%Z, s)
                    | [] => (1%Z, s)
                    end in
  let '(v, _) := scan_digits 0 s in
  (- 2 ^ 63) `max` (sign * v `min` (2 ^ 63 - 1)).

(** What [getopt(argc, argv, "dp:")] returns, call by call, with [optarg]. *)
Abbreviation opt_result := (prod Z (list byte)).

(** It ends the process; its text is left out. *)
Definition printUsage {A} : Z + A := inl EXIT_FAILURE.

(** The options, or the status of [exit]. *)
Fixpoint parseArgs (opts : list opt_result) (options : options) : Z + ServerMain.options :=
  match opts with
  | [] => inr options
  | (opt, optarg) :: opts =>
     if decide (opt = 112)%Z then
       parseArgs opts (mk_options (u16 (strtol10 optarg)) (daemonize options))
     else if decide (opt = 100)%Z then parseArgs opts (mk_options (port options) 1)
     else if decide (opt = 63 ∨ opt = 104)%Z then inl EXIT_FAILURE
     else printUsage
  end.

(** ** The process *)

(** The globals, the descriptors that are open, and whether [file_path] has
    been removed from the file system.  [timer_thread] is 0, as every global is
    at first, until a thread is created; no thread has that handle. *)
Record proc := mk_proc {
  server_fd : Z;
  file_fd : Z;
  should_exit : bool;
  timer_thread : Z;
  fds : gset Z;
  removed : bool;
  conns : cstate }.

(** A computation that may end the process with a status ([inl]). *)
Abbreviation P A := (M proc (Z + A)).

Definition set_server_fd v (p : proc) :=
  mk_proc v (file_fd p) (should_exit p) (timer_thread p) (fds p) (removed p) (conns p).
Definition set_file_fd v (p : proc) :=
  mk_proc (server_fd p) v (should_exit p) (timer_thread p) (fds p) (removed p) (conns p).
Definition set_should_exit v (p : proc) :=
  mk_proc (server_fd p) (file_fd p) v (timer_thread p) (fds p) (removed p) (conns p).
Definition set_timer_thread v (p : proc) :=
  mk_proc (server_fd p) (file_fd p) (should_exit p) v (fds p) (removed p) (conns p).
Definition on_fds (f : gset Z → gset Z) (p : proc) :=
  mk_proc (server_fd p) (file_fd p) (should_exit p) (timer_thread p)
    (f (fds p)) (removed p) (conns p).
Definition set_removed (p : proc) :=
  mk_proc (server_fd p) (file_fd p) (should_exit p) (timer_thread p)
    (fds p) true (conns p).
Definition set_conns c (p : proc) :=
  mk_proc (server_fd p) (file_fd p) (should_exit p) (timer_thread p)
    (fds p) (removed p) c.

Definition run_conns {A} (m : CM A) : M proc A := λ p,
  match m (conns p) with
  | Ok a c => Ok a (set_conns c p)
  | Fault f => Fault f
  | Diverge => Diverge
  end.

Definition close (fd : Z) : M proc () := modify (on_fds (λ s, s ∖ {[fd]})).

(** What is released before the process ends. *)
Definition clean_up : M proc () :=
  p ← gets id;
  (if decide (0 < server_fd p)%Z then
     close (server_fd p);; modify (set_server_fd (-1))
   else mret ());;
  (if decide (0 < file_fd p)%Z then
     close (file_fd p);; modify set_removed;; modify (set_file_fd (-1))
   else mret ());;
  modify (set_should_exit true);;
  run_conns collect_complete_threads.

(** POSIX leaves undefined what happens to a handle that names no thread. *)
Definition pthread_cancel (thread : Z) : M proc () :=
  if decide (thread = 0)%Z then fail NoSuchThread else mret ().

(** [closelog] and [exit] come last. *)
Definition cleanUpAndExit {A} (status : Z) : P A :=
  clean_up;;
  timer ← gets timer_thread;
  pthread_cancel timer;;
  mret (inl status).

(** Runs on top of whatever its thread was doing: the main thread, which may
    hold the lock that the collection takes, or another one ([ServerSystem]).
    It is one step here: nobody else moves between it and [exit]. *)
Definition signal_handler : P () := cleanUpAndExit EXIT_SUCCESS.

(** What the start of the program is answered; [fork] is 0 in the child. *)
Record start_answers := mk_start {
  r_open : Z; r_socket : Z; r_setsockopt : Z; r_bind : Z; r_listen : Z;
  r_fork1 : Z; r_setsid : Z; r_fork2 : Z;
  r_timer : Z (* the handle of the timer's thread *) }.

Definition deamonize (r : start_answers) : P () :=
  if decide (r_fork1 r < 0)%Z then cleanUpAndExit EXIT_FAILURE
  else if decide (0 < r_fork1 r)%Z then mret (inl EXIT_SUCCESS)
  else if decide (r_setsid r < 0)%Z then cleanUpAndExit EXIT_FAILURE
  else if decide (r_fork2 r < 0)%Z then cleanUpAndExit EXIT_FAILURE
  else if decide (0 < r_fork2 r)%Z then mret (inl EXIT_SUCCESS)
  else close 0;; close 1;; close 2;; mret (inr ()).

(** [main] up to the loop; the result is the local [server_fd], which hides
    the global of that name. *)
Definition startup (USE_AESD_CHAR_DEVICE : Z) (options : options) (r : start_answers) : P Z :=
  modify (set_file_fd (r_open r));;
  if decide (r_open r < 0)%Z then cleanUpAndExit EXIT_FAILURE
  else
    modify (on_fds (λ s, {[r_open r]} ∪ s));;
    let server_fd := r_socket r in
    if decide (server_fd < 0)%Z then cleanUpAndExit EXIT_FAILURE
    else
      modify (on_fds (λ s, {[server_fd]} ∪ s));;
      if decide (r_setsockopt r < 0)%Z then cleanUpAndExit EXIT_FAILURE
      else if decide (r_bind r < 0)%Z then cleanUpAndExit EXIT_FAILURE
      else if decide (r_listen r < 0)%Z then cleanUpAndExit EXIT_FAILURE
      else
        d ← (if decide (daemonize options ≠ 0)%Z then deamonize r else mret (inr ()));
        match d with
        | inl status => mret (inl status)
        | inr _ =>
           run_conns (SLIST_INIT connections);;
           (if decide (USE_AESD_CHAR_DEVICE = 0)%Z then modify (set_timer_thread (r_timer r))
            else mret ());;
           mret (inr server_fd)
        end.

(** What one turn of the accepting loop is answered: the descriptor, the
    address, the node [malloc] finds, and [pthread_create]'s result and id. *)
Record accept_answers := mk_accept {
  r_accept : Z; r_addr : Z; r_malloc : option positive; r_create : Z; r_thread : Z }.

(** [malloc], the assignments, which store through its result, and
    [pthread_create].  [None]: no thread. *)
Definition open_connection (r : accept_answers) : CM (option node_ptr) :=
  conn ← (match r_malloc r with
          | None => fail NullDeref
          | Some l => modify (set_nodes <[l := mk_connection (r_accept r) (r_addr r) 0 0 None]>);;
                      mret (Some l)
          end : CM node_ptr);
  if decide (r_create r ≠ 0)%Z then
    free_node conn;; mret None
  else
    update_node conn (λ c, mk_connection (conn_fd c) (conn_addr c) (r_thread r)
                             (thread_complete c) (entries c));;
    mret (Some conn).

(** Behind [pthread_mutex_lock]. *)
Definition insert_connection (conn : node_ptr) : CM () :=
  SLIST_INSERT_HEAD connections conn;;
  pthread_mutex_unlock.

(** The turn; the descriptors it closed. *)
Definition accept_client (r : accept_answers) : CM (list Z) :=
  if decide (r_accept r < 0)%Z then mret []
  else
    conn ← open_connection r;
    match conn with
    | None => mret [r_accept r]
    | Some conn =>
       pthread_mutex_lock;;
       insert_connection conn;;
       collect_complete_threads;;
       mret []
    end.

Definition connected (r : accept_answers) : Prop := (0 ≤ r_accept r ∧ r_create r = 0)%Z.
#[export] Instance connected_dec r : Decision (connected r) := and_dec _ _.

(** The end of a connection's thread: [close(conn->fd)] and
    [conn->thread_complete = 1]. *)
Definition finish_client (conn : node_ptr) : M proc () :=
  c ← run_conns (load_node conn);
  close (conn_fd c);;
  run_conns (update_node conn (set_thread_complete 1)).

(** *** Theorems *)

(** The process when [main] starts: the standard streams and zeroed globals. *)
Definition fresh_proc : proc :=
  mk_proc 0 0 false 0 {[0; 1; 2]}%Z false (LS ∅ ∅ (mk_env false [])).

Section main.
Implicit Types (p : proc) (s : cstate).

Lemma run_conns_Ok {A} (m : CM A) p a s :
  m (conns p) = Ok a s → run_conns m p = Ok a (set_conns s p).
Proof. unfold run_conns. by intros ->. Qed.

Lemma run_conns_Fault {A} (m : CM A) p f :
  m (conns p) = Fault f → run_conns m p = Fault f.
Proof. unfold run_conns. by intros ->. Qed.

(** The flag is no link. *)
Lemma slist_set_complete s hd ls l c v :
  slist s hd ls → nodes s !! l = Some c →
  slist (set_nodes <[l := set_thread_complete v c]> s) hd ls.
Proof.
  intros [Hnd Hc] Hcl. split; [done|]. simpl. revert Hc. generalize (default None (heads s !! hd)).
  clear -Hcl. induction ls as [|k ls IH]; intros q; simpl; [done|].
  intros (-> & c' & Hk & Hc). split; [done|]. destruct (decide (k = l)) as [->|Hne].
  - exists (set_thread_complete v c). rewrite lookup_insert_eq. split; [done|].
    simplify_eq. by apply IH.
  - exists c'. rewrite lookup_insert_ne by done. split; [done|]. by apply IH.
Qed.

Lemma finish_client_run p l c :
  nodes (conns p) !! l = Some c →
  finish_client (Some l) p =
    Ok () (set_conns (set_nodes <[l := set_thread_complete 1 c]> (conns p))
                     (on_fds (λ X : gset Z, X ∖ {[conn_fd c]}) p)).
Proof.
  intros Hcl. unfold finish_client.
  assert (load_node (Some l) (conns p) = Ok c (conns p)) as Hload
    by (unfold load_node, mbind, M_bind, gets; by rewrite Hcl).
  rewrite (bind_Ok _ _ _ _ _ (run_conns_Ok _ _ _ _ Hload)).
  unfold close, mbind, M_bind, modify. apply run_conns_Ok.
  unfold update_node. simpl. by rewrite (bind_Ok _ _ _ _ _ Hload).
Qed.

(** The connection of a client whose thread has just been created. *)
Definition new_connection (r : accept_answers) : connection :=
  mk_connection (r_accept r) (r_addr r) (r_thread r) 0 None.

Lemma wp_open_connection s r l F (Q : option node_ptr → cstate → Prop) :
  r_malloc r = Some l → l ∉ dom (nodes s) → r_create r = 0%Z →
  Q (Some (Some l)) (set_nodes <[l := new_connection r]> s) → wp (open_connection r) F Q s.
Proof.
  intros Hm Hl Hcr HQ. unfold open_connection. rewrite Hm. wp_steps.
  rewrite decide_False by (intros Hn0; by apply Hn0). wp_step.
  eapply wp_update_node; [simpl; by rewrite lookup_insert_eq|]. wp_steps.
  unfold set_nodes in *. simpl. by rewrite insert_insert_eq.
Qed.

Lemma wp_open_connection_failed s r l F (Q : option node_ptr → cstate → Prop) :
  r_malloc r = Some l → l ∉ dom (nodes s) → r_create r ≠ 0%Z → Q None s →
  wp (open_connection r) F Q s.
Proof.
  intros Hm Hl Hcr HQ. unfold open_connection. rewrite Hm. wp_steps.
  rewrite decide_True by done. wp_step.
  apply wp_free_node; [simpl; rewrite lookup_insert_eq; eauto|]. wp_steps.
  destruct s as [ns hs e]. unfold set_nodes in *. simpl in *.
  by rewrite delete_insert_id by (by apply not_elem_of_dom).
Qed.

(** The insertion, with the lock held. *)
Lemma wp_insert_connection s ls l c F (Q : () → cstate → Prop) :
  slist s connections ls → nodes s !! l = Some c → l ∉ ls → connections_lock (env s) = true →
  (∀ s', slist s' connections (l :: ls) → env s' = mk_env false (joined (env s)) →
     nodes s' = <[l := set_sle_next (head ls) c]> (nodes s) → Q () s') →
  wp (insert_connection (Some l)) F Q s.
Proof.
  intros Hs Hl Hin Hk HQ. unfold insert_connection. wp_step.
  eapply wp_mono; [by apply (insert_head_spec _ connections ls l c)|done|].
  intros _ s' (Hs' & [He _ _] & Hn). apply wp_mutex_unlock; [by rewrite He|].
  apply HQ; [done|simpl; by rewrite He|done].
Qed.

(** The turn up to the collection. *)
Lemma wp_accept_client s ls r l F (Q : list Z → cstate → Prop) :
  slist s connections ls → connections_lock (env s) = false →
  (0 ≤ r_accept r)%Z → r_malloc r = Some l → l ∉ dom (nodes s) → r_create r = 0%Z →
  let c := mk_connection (r_accept r) (r_addr r) (r_thread r) 0 (head ls) in
  (∀ s', slist s' connections (l :: ls) → connections_lock (env s') = false →
     nodes s' = <[l := c]> (nodes s) → wp (collect_complete_threads;; mret []) F Q s') →
  wp (accept_client r) F Q s.
Proof.
  intros [Hnd Hc] Hk Ha Hm Hl Hcr c HQ.
  assert (l ∉ ls) as Hlls by (apply chain_dom in Hc; set_solver).
  unfold accept_client. rewrite decide_False by lia. wp_step.
  apply (wp_open_connection _ _ l); [done..|]. wp_step. apply wp_mutex_lock; [done|]. wp_step.
  apply (wp_insert_connection _ ls l (new_connection r)); [|simpl; by rewrite lookup_insert_eq|done..|].
  { split; [done|]. simpl. by apply chain_insert. }
  intros s' Hs' He Hn. apply HQ; [done|by rewrite He|]. rewrite Hn. simpl.
  by rewrite insert_insert_eq.
Qed.

(** The new node is not complete, the others are as they were. *)
Lemma complete_insert s s' ls l c :
  l ∉ ls → thread_complete c = 0%Z → nodes s' = <[l := c]> (nodes s) →
  Exists (complete s') (l :: ls) ↔ Exists (complete s) ls.
Proof.
  intros Hl Hc Hn. rewrite Exists_cons, !Exists_exists. unfold complete. rewrite Hn. split.
  - intros [(c' & Hl' & Hc')|(k & Hk & c' & Hk' & Hc')].
    + rewrite lookup_insert_eq in Hl'. naive_solver.
    + rewrite lookup_insert_ne in Hk' by set_solver. eauto.
  - intros (k & Hk & c' & Hk' & Hc'). right. exists k. split; [done|]. exists c'.
    by rewrite lookup_insert_ne by set_solver.
Qed.

(** A turn that accepts a client, with what it stored. *)
Lemma accept_client_outcome s ls r l :
  slist s connections ls → connections_lock (env s) = false →
  (0 ≤ r_accept r)%Z → r_malloc r = Some l → l ∉ dom (nodes s) → r_create r = 0%Z →
  if decide (Exists (complete s) ls) then accept_client r s = Fault UseAfterFree
  else ∃ s', accept_client r s = Ok [] s' ∧ slist s' connections (l :: ls) ∧
             nodes s' = <[l := mk_connection (r_accept r) (r_addr r) (r_thread r) 0 (head ls)]> (nodes s) ∧
             connections_lock (env s') = false ∧ ¬ Exists (complete s') (l :: ls).
Proof.
  intros Hs Hk Ha Hm Hl Hcr.
  assert (l ∉ ls) as Hlls by (destruct Hs as [_ Hc]; apply chain_dom in Hc; set_solver).
  assert (∀ s', slist s' connections (l :: ls) → connections_lock (env s') = false →
    nodes s' = <[l := mk_connection (r_accept r) (r_addr r) (r_thread r) 0 (head ls)]> (nodes s) →
    collect_complete_threads s' =
      if decide (Exists (complete s) ls) then Fault UseAfterFree else Ok () s') as Hcollect.
  { intros s' Hs' Hk' Hn. rewrite (collect_outcome s' (l :: ls)) by done. apply decide_ext.
    eapply complete_insert; [done| |exact Hn]. done. }
  case_decide.
  - apply wp_fault_inv. eapply wp_accept_client; [done..|]. intros s' Hs' Hk' Hn.
    unfold wp, mbind, M_bind. by rewrite Hcollect.
  - assert (wp (accept_client r) safe (λ ret s', ret = [] ∧ slist s' connections (l :: ls) ∧
      nodes s' = <[l := mk_connection (r_accept r) (r_addr r) (r_thread r) 0 (head ls)]> (nodes s) ∧
      connections_lock (env s') = false ∧ ¬ Exists (complete s') (l :: ls)) s) as Hw.
    { eapply wp_accept_client; [done..|]. intros s' Hs' Hk' Hn.
      unfold wp, mbind, M_bind. rewrite Hcollect by done. simpl. split_and!; [done..|].
      assert (Exists (complete s') (l :: ls) ↔ Exists (complete s) ls) as ->; [|done].
      eapply complete_insert; [done| |exact Hn]. done. }
    apply wp_safe_inv in Hw as (ret & s' & Hrun & -> & ?). by exists s'.
Qed.

(** A client that connects after another one has finished ends the server:
    the new connection is put on the list, and the collection that follows
    uses the freed node of the finished one.  While no listed connection is
    complete, the list is the accepted clients, the newest first. *)
Theorem accept_after_a_finished_client s ls r l :
  slist s connections ls → connections_lock (env s) = false →
  (0 ≤ r_accept r)%Z → r_malloc r = Some l → l ∉ dom (nodes s) → r_create r = 0%Z →
  if decide (Exists (complete s) ls) then accept_client r s = Fault UseAfterFree
  else ∃ s', accept_client r s = Ok [] s' ∧ slist s' connections (l :: ls) ∧
             nodes s' !! l = Some (mk_connection (r_accept r) (r_addr r) (r_thread r) 0 (head ls)) ∧
             connections_lock (env s') = false.
Proof.
  intros. pose proof (accept_client_outcome s ls r l) as Ho. case_decide; [by apply Ho|].
  destruct Ho as (s' & Hrun & Hs' & Hn & Hk & _); [done..|].
  exists s'. split_and!; [done..| |done]. by rewrite Hn, lookup_insert_eq.
Qed.

(** The exit collects. *)
Lemma clean_up_faults p f :
  collect_complete_threads (conns p) = Fault f → clean_up p = Fault f.
Proof.
  intros Hc. unfold clean_up, close, run_conns, mbind, M_bind, gets, modify.
  repeat case_decide; simpl; by rewrite Hc.
Qed.

Lemma handler_faults p f :
  collect_complete_threads (conns p) = Fault f → signal_handler p = Fault f.
Proof.
  intros Hc%clean_up_faults. unfold signal_handler, cleanUpAndExit, mbind at 1, M_bind at 1.
  by rewrite Hc.
Qed.

Lemma clean_up_runs p s :
  collect_complete_threads (conns p) = Ok () s → ∃ p', clean_up p = Ok () p'.
Proof.
  intros Hc. unfold clean_up, close, run_conns, mbind, M_bind, gets, modify.
  repeat case_decide; simpl; rewrite Hc; by eexists.
Qed.

(** A signal that arrives while the main thread holds [connections_lock]
    never lets the process exit: the handler waits for the lock of the thread
    it interrupted. *)
Theorem signal_in_critical_section_deadlocks p :
  connections_lock (env (conns p)) = true → signal_handler p = Fault Deadlock.
Proof.
  intros Hl. apply handler_faults.
  unfold collect_complete_threads, pthread_mutex_lock, mbind, M_bind, gets. by rewrite Hl.
Qed.

(** An exit is not a return. *)
Lemma exit_inl {A} status p (a : A) p' : cleanUpAndExit status p ≠ Ok (inr a) p'.
Proof.
  unfold cleanUpAndExit. intros Hrun. do 3 apply bind_inv in Hrun as (? & ? & _ & Hrun).
  unfold mret, M_ret in Hrun. done.
Qed.

Lemma deamonize_ok r p u p' :
  deamonize r p = Ok (inr u) p' → p' = on_fds (λ X : gset Z, X ∖ {[0%Z]} ∖ {[1%Z]} ∖ {[2%Z]}) p.
Proof.
  unfold deamonize. intros Hrun. repeat case_decide; try by apply exit_inl in Hrun.
  - done.
  - done.
  - unfold close, mbind, M_bind, modify, mret, M_ret in Hrun. by simplify_eq.
Qed.

(** What a successful start leaves. *)
Lemma startup_ok USE_AESD_CHAR_DEVICE options r fd p :
  (2 < r_open r)%Z → (2 < r_socket r)%Z →
  startup USE_AESD_CHAR_DEVICE options r fresh_proc = Ok (inr fd) p →
  fd = r_socket r ∧ server_fd p = 0%Z ∧ file_fd p = r_open r ∧ (r_socket r ∈ fds p ∧ r_open r ∈ fds p) ∧
  slist (conns p) connections [] ∧ connections_lock (env (conns p)) = false ∧
  should_exit p = false ∧ nodes (conns p) = ∅ ∧
  timer_thread p = if decide (USE_AESD_CHAR_DEVICE = 0)%Z then r_timer r else 0%Z.
Proof.
  intros Ho Hs. unfold startup. intros (u & p1 & [= <- <-] & Hrun)%bind_inv.
  rewrite decide_False in Hrun by lia. apply bind_inv in Hrun as (? & ? & [= <- <-] & Hrun).
  rewrite decide_False in Hrun by lia. apply bind_inv in Hrun as (? & ? & [= <- <-] & Hrun).
  do 3 (case_decide; [by apply exit_inl in Hrun|]).
  apply bind_inv in Hrun as (d & p2 & Hd & Hrun). destruct d as [st|u]; [done|].
  apply bind_inv in Hrun as (? & p3 & Hinit & Hrun).
  apply bind_inv in Hrun as (? & p4 & Htimer & [= <- <-]).
  unfold run_conns, SLIST_INIT, modify in Hinit. simplify_eq/=.
  assert (server_fd p2 = 0%Z ∧ file_fd p2 = r_open r ∧ (r_socket r ∈ fds p2 ∧ r_open r ∈ fds p2) ∧
    connections_lock (env (conns p2)) = false ∧ should_exit p2 = false ∧
    nodes (conns p2) = ∅ ∧ timer_thread p2 = 0%Z) as (? & ? & [? ?] & ? & ? & ? & ?).
  { destruct (decide (daemonize options ≠ 0)%Z); [apply deamonize_ok in Hd; subst p2|unfold mret, M_ret in Hd; simplify_eq];
      simpl; split_and!; try done; set_solver by lia. }
  unfold modify, mret, M_ret in Htimer.
  destruct (decide (USE_AESD_CHAR_DEVICE = 0)%Z); simplify_eq/=; split_and!; try done;
    (split; [constructor|]); simpl; by rewrite lookup_insert_eq.
Qed.

(** Without a finished client the process ends where it looks for the timer. *)
Lemma cleanUpAndExit_outcome {A} status p p' :
  clean_up p = Ok () p' →
  cleanUpAndExit (A := A) status p =
    if decide (timer_thread p' = 0)%Z then Fault NoSuchThread else Ok (inl status) p'.
Proof.
  intros Hc. unfold cleanUpAndExit. rewrite (bind_Ok _ _ _ _ _ Hc).
  unfold pthread_cancel, gets, mbind, M_bind. by case_decide.
Qed.

Lemma clean_up_timer p p' : clean_up p = Ok () p' → timer_thread p' = timer_thread p.
Proof.
  unfold clean_up, close, run_conns, mbind, M_bind, gets, modify. intros Hc.
  repeat case_decide; simpl in Hc; destruct (collect_complete_threads (conns p)); by simplify_eq.
Qed.

Lemma collect_nothing s :
  slist s connections [] → connections_lock (env s) = false → collect_complete_threads s = Ok () s.
Proof.
  intros Hs Hk. rewrite (collect_outcome _ []) by done.
  rewrite decide_False by (by intros ?%Exists_nil). done.
Qed.

(** A start that fails does not report it: the exit cancels a timer that has
    not been created yet, whatever the build. *)
Lemma failed_start_crashes USE_AESD_CHAR_DEVICE options r :
  (r_open r < 0 ∨ r_socket r < 0 ∨ r_setsockopt r < 0 ∨ r_bind r < 0 ∨ r_listen r < 0)%Z →
  startup USE_AESD_CHAR_DEVICE options r fresh_proc = Fault NoSuchThread.
Proof.
  intros Hr.
  assert (∀ A (p : proc), conns p = conns fresh_proc → timer_thread p = 0%Z →
    cleanUpAndExit (A := A) EXIT_FAILURE p = Fault NoSuchThread) as Hexit.
  { intros A p Hp Ht.
    destruct (clean_up_runs p (conns p)) as [p' Hc].
    { rewrite Hp. apply collect_nothing; [by split; [constructor|]|done]. }
    rewrite (cleanUpAndExit_outcome _ p p'), (clean_up_timer p p'), Ht by done. done. }
  unfold startup, mbind, M_bind, modify. repeat case_decide; try (by apply Hexit); lia.
Qed.

End main.

(** *** Concrete runs *)

Definition a_client : accept_answers := mk_accept 7 0 (Some 4%positive) 0 14.

Lemma accept_after_a_finished_client_witness :
  accept_client a_client sample_connections = Fault UseAfterFree.
Proof.
  pose proof (accept_after_a_finished_client sample_connections sample_list a_client 4
    sample_slist eq_refl) as H.
  rewrite decide_True in H by (by apply (bool_decide_unpack _)).
  apply H; [done|done|by apply (bool_decide_unpack _)|done].
Defined.

Lemma signal_in_critical_section_deadlocks_witness :
  signal_handler (set_conns (LS ∅ ∅ (mk_env true [])) fresh_proc) = Fault Deadlock.
Proof. by apply signal_in_critical_section_deadlocks. Defined.

Definition good_start : start_answers := mk_start 3 4 0 0 0 0 9 0 15.
