(* ===== verification/ServerLoop.v ===== *)
(** * The server as a process ([main] in [server/aesdsocket.c])

    [main] from the command line to the exit: the loop around [accept_client],
    with the clients that finish and the signals that arrive while it waits in
    [accept] as events. *)

From S2P Require Import Prelude CString Slist Connections ServerMain.

(** What happens to the process: [accept] returns, the thread of a connection
    ends ([close(conn->fd); conn->thread_complete = 1;]), or SIGINT or SIGTERM
    arrives. *)
Inductive main_event :=
  | Accepts (r : accept_answers)
  | Finishes (conn : positive)
  | Signalled.

(** A turn behind [accept]: the descriptors it opens and closes. *)
Definition accept_one (r : accept_answers) : M proc () :=
  (if decide (r_accept r < 0)%Z then mret ()
   else modify (on_fds (λ X : gset Z, {[r_accept r]} ∪ X)));;
  closed ← run_conns (accept_client r);
  modify (on_fds (λ X : gset Z, X ∖ list_to_set closed)).

(** [inl]: the process has ended; [inr]: it waits for the next event. *)
Fixpoint accept_loop (events : list main_event) : P () :=
  match events with
  | [] => mret (inr ())
  | event :: events =>
     exiting ← gets should_exit;
     if (exiting : bool) then cleanUpAndExit EXIT_SUCCESS
     else
       match event with
       | Accepts r => accept_one r;; accept_loop events
       | Finishes conn => finish_client (Some conn);; accept_loop events
       | Signalled => signal_handler
       end
  end.

Definition default_options : options := mk_options 9000 0.

Definition main (USE_AESD_CHAR_DEVICE : Z) (opts : list (prod Z (list byte))) (r : start_answers)
    (events : list main_event) : P () :=
  match parseArgs opts default_options with
  | inl status => mret (inl status)
  | inr options =>
     server_fd ← startup USE_AESD_CHAR_DEVICE options r;
     match server_fd with
     | inl status => mret (inl status)
     | inr _ => accept_loop events
     end
  end.

(** ** What becomes of it *)

Inductive fate := Runs | Exits | Crashes.

(** [finished]: a client has finished and was not collected. *)
Fixpoint fate_of (finished : bool) (events : list main_event) : fate :=
  match events with
  | [] => Runs
  | Accepts r :: events =>
     if decide (connected r) then if finished then Crashes else fate_of false events
     else fate_of finished events
  | Finishes _ :: events => fate_of true events
  | Signalled :: _ => if finished then Crashes else Exits
  end.

(** The connections on the list, newest first. *)
Fixpoint clients (ls : list positive) (events : list main_event) : list positive :=
  match events with
  | [] => ls
  | Accepts r :: events =>
     clients (if decide (connected r) then if r_malloc r is Some l then l :: ls else ls else ls) events
  | _ :: events => clients ls events
  end.

(** [malloc] finds a node that is not in use, and only listed clients end. *)
Fixpoint events_ok (ls : list positive) (events : list main_event) : Prop :=
  match events with
  | [] => True
  | Accepts r :: events =>
     ((0 ≤ r_accept r)%Z → ∃ l, r_malloc r = Some l ∧ l ∉ ls) ∧ events_ok (clients ls [Accepts r]) events
  | Finishes l :: events => l ∈ ls ∧ events_ok ls events
  | Signalled :: _ => True
  end.

Section loop.
Context (timer : Z).
Implicit Types (p : proc) (s : cstate) (ls : list positive).

(** The state between two events. *)
Record waiting (ls : list positive) (finished : bool) (p : proc) : Prop := {
  waiting_exit : should_exit p = false;
  waiting_timer : timer_thread p = timer;
  waiting_list : slist (conns p) connections ls;
  waiting_lock : connections_lock (env (conns p)) = false;
  waiting_nodes : dom (nodes (conns p)) = list_to_set ls;
  waiting_finished : finished = true ↔ Exists (complete (conns p)) ls }.

Lemma startup_waiting USE_AESD_CHAR_DEVICE o r fd p :
  (2 < r_open r)%Z → (2 < r_socket r)%Z →
  startup USE_AESD_CHAR_DEVICE o r fresh_proc = Ok (inr fd) p →
  timer = (if decide (USE_AESD_CHAR_DEVICE = 0)%Z then r_timer r else 0%Z) →
  waiting [] false p.
Proof.
  intros H1 H2 Hrun Ht.
  apply startup_ok in Hrun as (_ & _ & _ & _ & Hs & Hk & He & Hn & Ht'); [|done..].
  split; [done|congruence|done..| |split; [done|by intros ?%Exists_nil]]. by rewrite Hn, dom_empty_L.
Qed.

(** A turn that does not connect leaves the list as it is. *)
Lemma accept_client_refused s ls r :
  ¬ connected r → dom (nodes s) = list_to_set ls →
  ((0 ≤ r_accept r)%Z → ∃ l, r_malloc r = Some l ∧ l ∉ ls) →
  wp (accept_client r) safe (λ closed s', s' = s ∧ ∀ fd, fd ∈ closed → fd = r_accept r) s.
Proof.
  intros Hr Hd Hm. unfold accept_client. case_decide; [wp_steps; split; [done|set_solver]|].
  destruct Hm as (l & Hm & Hl); [lia|]. wp_step.
  apply (wp_open_connection_failed _ _ l); [done|rewrite Hd; set_solver| |wp_steps; split; [done|set_solver]].
  intros Hc. apply Hr. split; [lia|done].
Qed.

(** What else a turn changes: the descriptor of the client. *)
Definition same_files (fd : Z) p p' : Prop :=
  server_fd p' = server_fd p ∧ file_fd p' = file_fd p ∧ removed p' = removed p ∧
  ∀ x, x ≠ fd → x ∈ fds p' ↔ x ∈ fds p.

Lemma accept_one_outcome p ls finished r :
  waiting ls finished p → ((0 ≤ r_accept r)%Z → ∃ l, r_malloc r = Some l ∧ l ∉ ls) →
  if bool_decide (connected r) && finished then accept_one r p = Fault UseAfterFree
  else ∃ p', accept_one r p = Ok () p' ∧
             waiting (clients ls [Accepts r]) finished p' ∧ same_files (r_accept r) p p'.
Proof.
  intros Hw Hm. unfold accept_one.
  set (p1 := if decide (r_accept r < 0)%Z then p else on_fds (λ X : gset Z, {[r_accept r]} ∪ X) p).
  rewrite (bind_Ok _ _ p () p1) by (unfold p1; by destruct (decide (r_accept r < 0)%Z)).
  assert (waiting ls finished p1) as [He Ht Hs Hk Hd Hf]
    by (unfold p1; destruct (decide (r_accept r < 0)%Z); [done|by destruct Hw; split]).
  assert (same_files (r_accept r) p p1) as Hp1.
  { unfold p1, same_files. case_decide; simpl; set_solver. }
  clearbody p1. clear Hw. cbn [clients].
  destruct (decide (connected r)) as [Hr|Hr];
    [rewrite bool_decide_true by done; destruct Hr as [Ha Hcr]|rewrite bool_decide_false by done]; simpl.
  - destruct (Hm Ha) as (l & Hl & Hin). rewrite Hl.
    pose proof (accept_client_outcome (conns p1) ls r l Hs Hk Ha Hl ltac:(rewrite Hd; set_solver) Hcr)
      as Ho.
    destruct finished.
    { rewrite decide_True in Ho by tauto. unfold mbind, M_bind. by rewrite (run_conns_Fault _ _ _ Ho). }
    rewrite decide_False in Ho by (intros Hx; by apply Hf in Hx).
    destruct Ho as (s' & Hrun & Hs' & Hn & Hk' & Hc).
    rewrite (bind_Ok _ _ _ _ _ (run_conns_Ok _ _ _ _ Hrun)). eexists. split; [done|]. split.
    + split; simpl; [done..| |split; [done|tauto]]. by rewrite Hn, dom_insert_L, Hd.
    + destruct Hp1 as (? & ? & ? & Hp1). split_and!; [done..|]. intros x Hx. simpl.
      rewrite <-Hp1 by done. set_solver.
  - pose proof (accept_client_refused (conns p1) ls r Hr Hd Hm) as Hrun.
    apply wp_safe_inv in Hrun as (closed & s' & Hrun & -> & Hcl).
    rewrite (bind_Ok _ _ _ _ _ (run_conns_Ok _ _ _ _ Hrun)). eexists. split; [done|].
    split; [by split|]. destruct Hp1 as (? & ? & ? & Hp1). split_and!; [done..|].
    intros x Hx. simpl. rewrite <-Hp1 by done. set_solver.
Qed.

(** A client that finishes is marked on the list. *)
Lemma finish_client_spec p ls finished l :
  waiting ls finished p → l ∈ ls →
  wp (finish_client (Some l)) safe (λ _ p', waiting ls true p') p.
Proof.
  intros [He Ht Hs Hk Hd Hf] Hl. destruct (chain_lookup _ _ _ _ l (proj2 Hs) Hl) as [c Hcl].
  unfold wp. rewrite (finish_client_run _ l c) by done. split; simpl; [done|done| |done| |].
  - by apply slist_set_complete.
  - rewrite dom_insert_L, Hd. set_solver.
  - split; [|done]. intros _. apply Exists_exists. exists l. split; [done|].
    exists (set_thread_complete 1 c). simpl. by rewrite lookup_insert_eq.
Qed.

Lemma waiting_collect p ls finished :
  waiting ls finished p →
  collect_complete_threads (conns p) =
    if finished then Fault UseAfterFree else Ok () (conns p).
Proof.
  intros [_ _ Hs Hk _ Hf]. rewrite (collect_outcome _ ls) by done.
  destruct finished; [by rewrite decide_True by tauto|].
  rewrite decide_False; [done|]. intros Hx. by apply Hf in Hx.
Qed.

(** The exit collects, and so does a turn that connects; then it cancels the
    timer. *)
Lemma signal_handler_outcome p ls finished :
  waiting ls finished p →
  if finished then signal_handler p = Fault UseAfterFree
  else if decide (timer = 0)%Z then signal_handler p = Fault NoSuchThread
  else ∃ p', signal_handler p = Ok (inl EXIT_SUCCESS) p'.
Proof.
  intros Hw. pose proof (waiting_collect _ _ _ Hw) as Hcollect.
  destruct finished; [by apply handler_faults|]. unfold signal_handler.
  destruct (clean_up_runs _ _ Hcollect) as [p' Hup].
  rewrite (cleanUpAndExit_outcome _ p p') by done.
  rewrite (clean_up_timer p p' Hup), (waiting_timer _ _ _ Hw). case_decide; eauto.
Qed.

(** What the loop does follows from what happens. *)
Lemma accept_loop_outcome events p ls finished :
  waiting ls finished p → events_ok ls events →
  match fate_of finished events with
  | Crashes => accept_loop events p = Fault UseAfterFree
  | Exits => if decide (timer = 0)%Z then accept_loop events p = Fault NoSuchThread
             else ∃ p', accept_loop events p = Ok (inl EXIT_SUCCESS) p'
  | Runs => ∃ p', accept_loop events p = Ok (inr ()) p' ∧
                  slist (conns p') connections (clients ls events)
  end.
Proof.
  revert p ls finished. induction events as [|event events IH]; intros p ls finished Hw Hev.
  { simpl. exists p. split; [done|]. apply Hw. }
  cbn [accept_loop]. rewrite (bind_Ok _ _ p false p) by (by rewrite <-(waiting_exit _ _ _ Hw)).
  destruct event as [r|l|]; cbv iota beta.
  - destruct Hev as [Hm Hev]. pose proof (accept_one_outcome p ls finished r Hw Hm) as Ho.
    cbn [fate_of]. destruct (decide (connected r)) as [Hr|Hr];
      [rewrite bool_decide_true in Ho by done|rewrite bool_decide_false in Ho by done]; simpl in Ho.
    + destruct finished; [unfold mbind, M_bind; by rewrite Ho|].
      destruct Ho as (p' & Hrun & Hw' & _). rewrite (bind_Ok _ _ _ _ _ Hrun).
      change (clients ls (Accepts r :: events)) with (clients (clients ls [Accepts r]) events).
      by apply IH.
    + destruct Ho as (p' & Hrun & Hw' & _). rewrite (bind_Ok _ _ _ _ _ Hrun).
      change (clients ls (Accepts r :: events)) with (clients (clients ls [Accepts r]) events).
      by apply IH.
  - destruct Hev as [Hl Hev].
    pose proof (finish_client_spec p ls finished l Hw Hl) as Hrun.
    apply wp_safe_inv in Hrun as (u & p' & Hrun & Hw').
    cbn [fate_of clients]. rewrite (bind_Ok _ _ _ _ _ Hrun). by apply IH.
  - cbn [fate_of]. pose proof (signal_handler_outcome p ls finished Hw). by destruct finished.
Qed.

(** Clients that connect and go on. *)
Lemma accepts_run rs p ls :
  waiting ls false p → events_ok ls (Accepts <$> rs) →
  ∃ p' ls', (∀ events, accept_loop ((Accepts <$> rs) ++ events) p = accept_loop events p') ∧
    waiting ls' false p' ∧ server_fd p' = server_fd p ∧ file_fd p' = file_fd p ∧
    ∀ x, x ∉ r_accept <$> rs → x ∈ fds p' ↔ x ∈ fds p.
Proof.
  revert p ls. induction rs as [|r rs IH]; intros p ls Hw Hev.
  { exists p, ls. by split_and!. }
  destruct Hev as [Hm Hev]. pose proof (accept_one_outcome p ls false r Hw Hm) as Ho.
  rewrite andb_false_r in Ho. destruct Ho as (p1 & Hrun & Hw1 & Hs1 & Hf1 & _ & Hfd1).
  destruct (IH p1 _ Hw1 Hev) as (p' & ls' & Hrun' & Hw' & Hs' & Hf' & Hfd').
  exists p', ls'. split_and!; [|done|congruence|congruence|].
  - intros events. cbn [fmap list_fmap app accept_loop].
    rewrite (bind_Ok _ _ p false p) by (by rewrite <-(waiting_exit _ _ _ Hw)).
    by rewrite (bind_Ok _ _ _ _ _ Hrun).
  - intros x Hx. rewrite fmap_cons, not_elem_of_cons in Hx. destruct Hx. by rewrite Hfd', Hfd1.
Qed.

(** The exit when nothing is to be collected. *)
Lemma clean_up_files p ls :
  waiting ls false p → server_fd p = 0%Z → (0 < file_fd p)%Z →
  clean_up p = Ok () (mk_proc 0 (-1) true (timer_thread p) (fds p ∖ {[file_fd p]}) true (conns p)).
Proof.
  intros Hw Hs Hf. pose proof (waiting_collect _ _ _ Hw) as Hc.
  unfold clean_up, close, run_conns, mbind, M_bind, gets, modify. simpl.
  rewrite Hs, (decide_False (P := (0 < 0)%Z)), decide_True by lia. simpl. rewrite Hc.
  unfold set_conns, set_should_exit, set_file_fd, set_removed, on_fds. simpl. by rewrite Hs.
Qed.
End loop.

(** C38: what a server leaves behind that has started, has accepted any number
    of clients, none of which has finished yet, and is then stopped by a signal
    in [accept].  It closes [file_fd] and removes [file_path]: the device node
    [/dev/aesdchar] in a build for the device, [/tmp/aesdsocket] in the other.
    It does not close the listening socket, as [main] keeps it in a local
    variable of the same name as the global the exit looks at, nor any client's
    descriptor.  Then a build with the timer exits with status 0; a build for
    the device cancels a timer that was never created.  (A server with a client
    that has finished does not get so far: [server_lives_until_a_client_finishes]
    below, and [ServerSystemProperties].) *)
Theorem stopped_server_leaves_the_socket USE_AESD_CHAR_DEVICE opts o r fd p rs :
  parseArgs opts default_options = inr o →
  (2 < r_open r)%Z → (2 < r_socket r)%Z → r_socket r ≠ r_open r → r_timer r ≠ 0%Z →
  startup USE_AESD_CHAR_DEVICE o r fresh_proc = Ok (inr fd) p →
  events_ok [] (Accepts <$> rs) →
  r_socket r ∉ r_accept <$> rs → r_open r ∉ r_accept <$> rs →
  let run := main USE_AESD_CHAR_DEVICE opts r in
  ∃ p1 p2, run (Accepts <$> rs) fresh_proc = Ok (inr ()) p1 ∧ clean_up p1 = Ok () p2 ∧
    r_open r ∈ fds p1 ∧ removed p2 = true ∧ r_open r ∉ fds p2 ∧ r_socket r ∈ fds p2 ∧
    (∀ x, x ≠ r_open r → x ∈ fds p2 ↔ x ∈ fds p1) ∧
    run ((Accepts <$> rs) ++ [Signalled]) fresh_proc =
      if decide (USE_AESD_CHAR_DEVICE = 0)%Z then Ok (inl EXIT_SUCCESS) p2 else Fault NoSuchThread.
Proof.
  intros Ho H1 H2 Hne Ht Hrun Hev Hsock Hopen run.
  assert (∀ events, run events fresh_proc = accept_loop events p) as Hmain.
  { intros events. unfold run, main. rewrite Ho. by rewrite (bind_Ok _ _ _ _ _ Hrun). }
  pose proof (startup_ok _ _ _ _ _ H1 H2 Hrun) as (_ & Hs0 & Hf0 & [Hin Hino] & _).
  pose proof (startup_waiting _ _ _ _ _ _ H1 H2 Hrun eq_refl) as Hw.
  destruct (accepts_run _ rs p [] Hw Hev) as (p1 & ls & Hrun1 & Hw1 & Hs1 & Hf1 & Hfd1).
  pose proof (clean_up_files _ p1 ls Hw1 ltac:(congruence) ltac:(lia)) as Hup.
  eexists p1, _. split; [|split; [exact Hup|]].
  { by rewrite Hmain, <-(app_nil_r (Accepts <$> rs)), Hrun1. }
  simpl. rewrite Hf1, Hf0, Hfd1 by done. split_and!; [done|done|set_solver| |set_solver|].
  { rewrite elem_of_difference, Hfd1 by done. set_solver. }
  rewrite Hmain, Hrun1. cbn [accept_loop].
  rewrite (bind_Ok _ _ p1 false p1) by (by rewrite <-(waiting_exit _ _ _ _ Hw1)).
  unfold signal_handler. rewrite (cleanUpAndExit_outcome _ _ _ Hup). simpl.
  rewrite (waiting_timer _ _ _ _ Hw1), Hf1, Hf0.
  by destruct (decide (USE_AESD_CHAR_DEVICE = 0)%Z); case_decide.
Qed.

(** The server lives until one of its clients has finished.  A process that
    has started keeps the clients that connect on its list, newest first,
    while none of them finishes.  After one has, the next client that connects
    and the next signal alike end it in a use after free: neither another
    client nor an orderly exit follows a finished client.  A signal before
    that exits with status 0 in a build with the timer, and cancels a timer that
    does not exist in the others. *)
Theorem server_lives_until_a_client_finishes USE_AESD_CHAR_DEVICE opts o r fd p events :
  parseArgs opts default_options = inr o →
  (2 < r_open r)%Z → (2 < r_socket r)%Z → r_timer r ≠ 0%Z →
  startup USE_AESD_CHAR_DEVICE o r fresh_proc = Ok (inr fd) p →
  events_ok [] events →
  let run := main USE_AESD_CHAR_DEVICE opts r events fresh_proc in
  match fate_of false events with
  | Crashes => run = Fault UseAfterFree
  | Exits => if decide (USE_AESD_CHAR_DEVICE = 0)%Z then ∃ p', run = Ok (inl EXIT_SUCCESS) p'
             else run = Fault NoSuchThread
  | Runs => ∃ p', run = Ok (inr ()) p' ∧ slist (conns p') connections (clients [] events)
  end.
Proof.
  intros Ho H1 H2 Ht Hrun Hev run.
  assert (run = accept_loop events p) as ->.
  { unfold run, main. rewrite Ho. by rewrite (bind_Ok _ _ _ _ _ Hrun). }
  eapply startup_waiting in Hrun; [|done..].
  pose proof (accept_loop_outcome _ events p [] false Hrun Hev) as Hout.
  destruct (fate_of false events); [done| |done].
  by destruct (decide (USE_AESD_CHAR_DEVICE = 0)%Z); case_decide.
Qed.

(** *** Concrete runs *)

Definition client_on (conn : positive) (fd : Z) : accept_answers := mk_accept fd 0 (Some conn) 0 fd.

(** Two clients connect, the second one finishes, the server is told to stop. *)
Definition a_short_life : list main_event :=
  [Accepts (client_on 1 5); Accepts (client_on 2 6); Finishes 2; Signalled].

Lemma server_lives_until_a_client_finishes_witness :
  main 1 [(112%Z, [57; 48; 48; 49])%Z] good_start a_short_life fresh_proc = Fault UseAfterFree.
Proof.
  destruct (startup 1 (mk_options 9001 0) good_start fresh_proc) as [[st|fd] p| |] eqn:Hrun;
    try (exfalso; by vm_compute in Hrun).
  apply (server_lives_until_a_client_finishes 1 [(112%Z, [57; 48; 48; 49])%Z] _ good_start fd p
    a_short_life eq_refl eq_refl eq_refl ltac:(done) Hrun).
  repeat split; simpl; try (intros _; eexists; split; [reflexivity|]); set_solver.
Defined.

(** Two clients connect, then the server is told to stop. *)
Lemma stopped_server_leaves_the_socket_witness :
  ∃ p2, 4%Z ∈ fds p2 ∧ 3%Z ∉ fds p2 ∧ removed p2 = true ∧
    main 0 [] good_start ((Accepts <$> [client_on 1 5; client_on 2 6]) ++ [Signalled]) fresh_proc =
      Ok (inl EXIT_SUCCESS) p2 ∧
    main 1 [] good_start ((Accepts <$> [client_on 1 5; client_on 2 6]) ++ [Signalled]) fresh_proc =
      Fault NoSuchThread.
Proof.
  assert (events_ok [] (Accepts <$> [client_on 1 5; client_on 2 6])) as Hev.
  { repeat split; simpl; (intros _; eexists; split; [reflexivity|]); set_solver. }
  destruct (startup 0 default_options good_start fresh_proc) as [[st|fd] p| |] eqn:Hrun;
    try (exfalso; by vm_compute in Hrun).
  destruct (startup 1 default_options good_start fresh_proc) as [[st|fd'] p'| |] eqn:Hrun';
    try (exfalso; by vm_compute in Hrun').
  destruct (stopped_server_leaves_the_socket 0 [] _ good_start fd p [client_on 1 5; client_on 2 6]
    eq_refl eq_refl eq_refl ltac:(done) ltac:(done) Hrun Hev) as (p1 & p2 & _ & _ & _ & ? & ? & ? & _ & H0);
    [by apply (bool_decide_unpack _)..|].
  destruct (stopped_server_leaves_the_socket 1 [] _ good_start fd' p' [client_on 1 5; client_on 2 6]
    eq_refl eq_refl eq_refl ltac:(done) ltac:(done) Hrun' Hev) as (? & ? & _ & _ & _ & _ & _ & _ & _ & Hdev);
    [by apply (bool_decide_unpack _)..|].
  by exists p2.
Defined.
