(* ===== verification/ServerSystem.v ===== *)
(** * The server as a system ([server/aesdsocket.c])

    The main thread and the connection threads together.  The main thread of
    [ServerMain] is cut behind [pthread_create], behind [pthread_mutex_lock]
    and in front of [collect_complete_threads]; between its steps the threads
    of [ServerClients] and, in a build with one, the timer of [ServerTimer] take
    theirs, and a signal may arrive in any of them.  A connection thread that returns sets
    [thread_complete] in the node the main thread has on its list. *)

From S2P Require Import Prelude CString Slist Connections ServerMain.
From S2P Require Import Memory CircularBuffer DeviceSpec Kernel CharDriver CharDriverSpec.
From S2P Require Import CharDriverSeek Schedules FileOps Server ServerSpec ServerProperties.
From S2P Require Import ServerClients ServerParts ServerSerial ServerSerialProperties ServerTimer.

(** A client that will connect: what the main thread's calls answer, and what
    the socket has for the connection's thread. *)
Record arrival := mk_arrival {
  answers : accept_answers;
  events : list sock_event;
  windows : list Z }.

Definition newcomer (v : arrival) : client :=
  mk_client (Receiving (replicate in_buffer_size NUL)) (events v) (windows v) [] false 0.

(** Where the main thread is: in front of [accept], of the lock, of the
    insertion, of the collection.  [conn] is its local variable. *)
Inductive main_point :=
  | Accepting
  | Spawned (conn : node_ptr)
  | Holding (conn : node_ptr)
  | Collecting.

(** The connection threads with what they share, the argument each of them was
    given, the timer, the process, and what is still to come. *)
Record system (F : Type) := mk_system {
  threads : server F;
  arguments : list node_ptr;
  ticker : clock;
  process : proc;
  at_main : main_point;
  arrivals : list arrival }.
Arguments mk_system {F} _ _ _ _ _ _.
Arguments threads {F} _.
Arguments arguments {F} _.
Arguments ticker {F} _.
Arguments process {F} _.
Arguments at_main {F} _.
Arguments arrivals {F} _.

(** The thread that the kernel picks for a signal. *)
Inductive receiver := ByMain | ByThread (i : nat) | ByTimer.

(** Whose turn it is. *)
Inductive who := Main | Thread (i : nat) | Timer | Signal (by_ : receiver).

Section system.
Context {F : Type} {HF : FileOps F} (utc_offset : Z → Z) (unspecified : list byte) (fuel : nat).
Abbreviation W A := (M (system F) A).
Implicit Types (w : system F) (y : server F) (c : client).

(** [should_exit] is one variable, that of the process.  The connection threads
    and the timer find its value when they take a step, and what they store
    there is stored in the process. *)
Definition shared w : server F :=
  let y := threads w in
  mk_server (s_file y) (s_lock y) (ServerMain.should_exit (process w)) (clients y).

Definition set_threads y w :=
  mk_system y (arguments w) (ticker w) (set_should_exit (s_exit y) (process w)) (at_main w) (arrivals w).
Definition set_process p w :=
  mk_system (threads w) (arguments w) (ticker w) p (at_main w) (arrivals w).
Definition set_main pt w :=
  mk_system (threads w) (arguments w) (ticker w) (process w) pt (arrivals w).
Definition set_arrivals vs w :=
  mk_system (threads w) (arguments w) (ticker w) (process w) (at_main w) vs.

Definition start_thread (conn : node_ptr) c w :=
  let y := threads w in
  mk_system (mk_server (s_file y) (s_lock y) (s_exit y) (clients y ++ [c]))
    (arguments w ++ [conn]) (ticker w) (process w) (Spawned conn) (arrivals w).

Definition on_process {A} (m : M proc A) : W A := λ w,
  match m (process w) with
  | Ok a p => Ok a (set_process p w)
  | Fault e => Fault e
  | Diverge => Diverge
  end.

(** A step of the loop in [main]; [inl] is the end of the process.  Without a
    client [accept] waits. *)
Definition main_turn : W (Z + ()) :=
  w ← gets id;
  match at_main w with
  | Accepting =>
     exiting ← on_process (gets ServerMain.should_exit);
     if (exiting : bool) then on_process (cleanUpAndExit EXIT_SUCCESS)
     else
       match arrivals w with
       | [] => mret (inr ())
       | v :: vs =>
          modify (set_arrivals vs);;
          if decide (r_accept (answers v) < 0)%Z then mret (inr ())
          else
            on_process (modify (on_fds (λ X : gset Z, {[r_accept (answers v)]} ∪ X)));;
            conn ← on_process (run_conns (open_connection (answers v)));
            match conn with
            | None => on_process (close (r_accept (answers v)));; mret (inr ())
            | Some conn => modify (start_thread conn (newcomer v));; mret (inr ())
            end
       end
  | Spawned conn =>
     on_process (run_conns pthread_mutex_lock);; modify (set_main (Holding conn));; mret (inr ())
  | Holding conn =>
     on_process (run_conns (insert_connection conn));; modify (set_main Collecting);; mret (inr ())
  | Collecting =>
     on_process (run_conns collect_complete_threads);; modify (set_main Accepting);; mret (inr ())
  end.

(** What a step that led to [y] does to the connection of thread [i]. *)
Definition report (i : nat) y : W () :=
  w ← gets id;
  match clients (threads w) !! i, clients y !! i, arguments w !! i with
  | Some c, Some c', Some conn =>
     if decide (complete c' = complete c) then mret () else on_process (finish_client conn)
  | _, _, _ => mret ()
  end.

Definition thread_turn (i : nat) : W (Z + ()) := λ w,
  match turn fuel i (shared w) with
  | Ok _ y => (report i y;; modify (set_threads y);; mret (inr ())) w
  | Fault e => Fault e
  | Diverge => Diverge
  end.

Definition timer_turn : W (Z + ()) := λ w,
  match site_turn utc_offset unspecified fuel None (mk_site (shared w) (ticker w)) with
  | Ok _ v => Ok (inr ()) (mk_system (base v) (arguments w) (timer_thread v)
                             (set_should_exit (s_exit (base v)) (process w)) (at_main w) (arrivals w))
  | Fault e => Fault e
  | Diverge => Diverge
  end.

(** A thread that runs can receive a signal. *)
Definition alive (by_ : receiver) w : bool :=
  match by_ with
  | ByMain => true
  | ByThread i => match clients (threads w) !! i with
                  | Some c => match point c with Finished => false | _ => true end
                  | None => false
                  end
  | ByTimer => match t_point (ticker w) with Stopped => false | _ => true end
  end.

(** The handler in a thread other than the main thread waits in the collection
    while the main thread has the lock.  The handler of the main thread has
    interrupted the one that it would wait for. *)
Definition waits_for_main (by_ : receiver) w : bool :=
  match by_ with ByMain => false | _ => connections_lock (env (conns (process w))) end.

(** The handler, run by the thread [by_] as one step. *)
Definition signal_turn (by_ : receiver) : W (Z + ()) :=
  w ← gets id;
  if negb (alive by_ w) || waits_for_main by_ w then mret (inr ())
  else
    on_process signal_handler.

Definition system_turn (t : who) : W (Z + ()) :=
  match t with
  | Main => main_turn
  | Thread i => thread_turn i
  | Timer => timer_turn
  | Signal by_ => signal_turn by_
  end.

Fixpoint run_system (schedule : list who) : W (Z + ()) :=
  match schedule with
  | [] => mret (inr ())
  | t :: schedule =>
     r ← system_turn t;
     match r with
     | inl status => mret (inl status)
     | inr _ => run_system schedule
     end
  end.

(** When the threads have seen the last change of [should_exit]. *)
Lemma shared_same w : s_exit (threads w) = ServerMain.should_exit (process w) → shared w = threads w.
Proof. unfold shared. destruct (threads w). by intros <-. Qed.

Lemma set_should_exit_same (p : proc) : set_should_exit (ServerMain.should_exit p) p = p.
Proof. by destruct p. Qed.

Lemma run_system_app schedule schedule' w w' :
  run_system schedule w = Ok (inr ()) w' →
  run_system (schedule ++ schedule') w = run_system schedule' w'.
Proof.
  revert w. induction schedule as [|t schedule IH]; intros w; simpl; [by intros [= ->]|].
  intros (r & w1 & Ht & Hrun)%bind_inv. rewrite (bind_Ok _ _ _ _ _ Ht).
  destruct r as [st|[]]; [done|]. by apply IH.
Qed.

(** A computation on the connections that takes the main thread to [pt]. *)
Definition conns_turn (m : CM ()) (pt : main_point) : W (Z + ()) := λ w,
  match m (conns (process w)) with
  | Ok _ s => Ok (inr ()) (set_main pt (set_process (set_conns s (process w)) w))
  | Fault e => Fault e
  | Diverge => Diverge
  end.

Lemma main_turn_conns w :
  match at_main w with
  | Accepting => True
  | Spawned conn => main_turn w = conns_turn pthread_mutex_lock (Holding conn) w
  | Holding conn => main_turn w = conns_turn (insert_connection conn) Collecting w
  | Collecting => main_turn w = conns_turn collect_complete_threads Accepting w
  end.
Proof.
  unfold main_turn, conns_turn, on_process, run_conns, mbind, M_bind, gets, modify.
  destruct (at_main w) as [|conn|conn|] eqn:Hpt; [done|simpl; rewrite Hpt..].
  - by destruct (pthread_mutex_lock _).
  - by destruct (insert_connection _ _).
  - by destruct (collect_complete_threads _).
Qed.

Lemma main_turn_accepts w v vs :
  at_main w = Accepting → ServerMain.should_exit (process w) = false → arrivals w = v :: vs →
  (0 ≤ r_accept (answers v))%Z →
  let p := on_fds (λ X : gset Z, {[r_accept (answers v)]} ∪ X) (process w) in
  main_turn w =
    match open_connection (answers v) (conns (process w)) with
    | Ok (Some conn) s => Ok (inr ()) (start_thread conn (newcomer v)
                                         (set_process (set_conns s p) (set_arrivals vs w)))
    | Ok None s => Ok (inr ()) (set_process (on_fds (λ X : gset Z, X ∖ {[r_accept (answers v)]})
                                               (set_conns s p)) (set_arrivals vs w))
    | Fault e => Fault e
    | Diverge => Diverge
    end.
Proof.
  intros Hpt He Hvs Ha p. unfold main_turn, on_process, run_conns, mbind, M_bind, gets, modify.
  simpl. rewrite Hpt, He, Hvs, decide_False by lia. simpl.
  by destruct (open_connection _ _) as [[conn|] s1|e|].
Qed.

(** The steps of the main thread, taken alone, are the turn of its loop. *)
Lemma main_turns_are_accept_client w v vs :
  at_main w = Accepting → ServerMain.should_exit (process w) = false → arrivals w = v :: vs →
  (0 ≤ r_accept (answers v))%Z → r_create (answers v) = 0%Z →
  match accept_client (answers v) (conns (process w)) with
  | Ok _ s => ∃ w', run_system (replicate 4 Main) w = Ok (inr ()) w' ∧ at_main w' = Accepting ∧
      process w' = set_conns s (on_fds (λ X : gset Z, {[r_accept (answers v)]} ∪ X) (process w))
  | Fault e => run_system (replicate 4 Main) w = Fault e
  | Diverge => run_system (replicate 4 Main) w = Diverge
  end.
Proof.
  intros Hpt He Hvs Ha Hcr. unfold accept_client. rewrite decide_False by lia.
  cbn [replicate run_system system_turn]. unfold mbind, M_bind.
  rewrite (main_turn_accepts w v vs) by done.
  destruct (open_connection (answers v) (conns (process w))) as [[conn|] s1|e|] eqn:Ho; [| |done..].
  2: { exfalso. unfold open_connection, mbind, M_bind in Ho.
       destruct (r_malloc (answers v)); [|done]. simpl in Ho. rewrite Hcr in Ho. simpl in Ho.
       by destruct (update_node _ _ _). }
  rewrite (main_turn_conns (start_thread _ _ _)). unfold conns_turn; simpl.
  destruct (pthread_mutex_lock s1) as [[] s2|e|]; [|done..].
  rewrite (main_turn_conns (set_main (Holding _) _)). unfold conns_turn; simpl.
  destruct (insert_connection conn s2) as [[] s3|e|]; [|done..].
  rewrite (main_turn_conns (set_main Collecting _)). unfold conns_turn; simpl.
  destruct (collect_complete_threads s3) as [[] s4|e|]; [|done..].
  eexists. split; [done|by split].
Qed.
End system.

(** ** A thread that returns has set [thread_complete] *)

Section done.
Context {F : Type} {HF : FileOps F} (fuel : nat).

(** A part of the thread sets the flag when it returns, and else leaves it. *)
Abbreviation sets_done := (keeps (F := F) thread_done (λ v, v = 1%Z)).

Definition at_end (pt : at_point) : bool := match pt with Finished => true | _ => false end.
Definition has_finished c : bool := at_end (point c).

Lemma done_thread_step pt : pt ≠ Finished → sets_done at_end (thread_step fuel pt).
Proof.
  intros Hpt. destruct pt as [b|n b|prev b|b|]; cbn [thread_step]; [..|done].
  - eapply keeps_bind; [by apply keeps_receive|..]; intros []; try done; try (intros _; by apply keeps_ret).
    intros _. by exists Finished.
  - apply keeps_then; [|by intros ?; apply keeps_ret]. unfold start_packet.
    apply keeps_then; [|intros ?; apply keeps_lift].
    apply keeps_then; [apply keeps_gets|]. intros []; [apply keeps_fault|by apply keeps_modify].
  - eapply keeps_bind; [by apply keeps_handle_next|..]; intros []; try done; try (intros _; by apply keeps_ret).
    intros _. by exists Finished.
  - apply keeps_then; [|by intros ?; apply keeps_ret].
    apply keeps_then; [apply keeps_gets|]. intros []; [by apply keeps_modify|apply keeps_fault].
Qed.

(** What a turn changes. *)
Lemma turn_report i y y' :
  turn fuel i y = Ok () y' →
  y' = y ∨ ∃ c c', clients y !! i = Some c ∧ clients y' = <[i := c']> (clients y) ∧
    has_finished c = false ∧ complete c' = if has_finished c' then 1%Z else complete c.
Proof.
  unfold turn. destruct (clients y !! i) as [c|] eqn:Hi; [|by intros [= ->]; left].
  destruct (blocked y c) eqn:Hb; [by intros [= ->]; left|].
  destruct (thread_step fuel (point c) (view y c)) as [pt s|e|] eqn:Hs; [|done..].
  intros [= <-]. right. exists c, (client_of pt s). split_and!; [done|done| |].
  - unfold has_finished, blocked in *. by destruct (point c).
  - apply done_thread_step in Hs; [by unfold has_finished; simpl; destruct (at_end pt)|].
    intros Hp. unfold blocked in Hb. by rewrite Hp in Hb.
Qed.
End done.
