(* ===== verification/ServerSystemInv.v ===== *)
(** * The invariant of the server as a system ([server/aesdsocket.c])

    What holds between two steps of [ServerSystem], whatever the schedule: for
    the connection threads the simulation of [ServerSerial], for the main
    thread the list of connections, whose flags say which threads have
    returned.  A step keeps it or ends the process. *)

From S2P Require Import Prelude CString Slist Connections ServerMain.
From S2P Require Import Memory CircularBuffer DeviceSpec Kernel CharDriver CharDriverSpec.
From S2P Require Import CharDriverSeek Schedules FileOps Server ServerSpec ServerProperties.
From S2P Require Import ServerClients ServerSerial ServerSerialProperties ServerTimer.
From S2P Require Import ServerSystem.

(** The node of a client that connects. *)
Definition place (v : arrival) : option positive :=
  if decide (connected (answers v)) then r_malloc (answers v) else None.

(** [malloc] finds memory that is not in use; the clients behave. *)
Fixpoint arrivals_ok (ls : list positive) (vs : list arrival) : Prop :=
  match vs with
  | [] => True
  | v :: vs =>
     ((0 ≤ r_accept (answers v))%Z → ∃ l, r_malloc (answers v) = Some l ∧ l ∉ ls) ∧
     arrivals_ok (ls ++ option_list (place v)) vs
  end.

(** The clients that will connect, as the sequential server sees them. *)
Definition expected (vs : list arrival) : list (list (list byte) * list byte) :=
  (λ v, (packets_of (events v), [])) <$> filter (λ v, connected (answers v)) vs.

(** The connections on the list, newest first: not the one whose insertion is
    still to come.  [ls]: those of the threads, in the order of their creation. *)
Definition listed (pt : main_point) (ls : list positive) : list positive :=
  match pt with Spawned _ | Holding _ => tail (reverse ls) | _ => reverse ls end.

Definition in_hand (pt : main_point) (ls : list positive) : Prop :=
  match pt with
  | Spawned conn | Holding conn => ∃ l, conn = Some l ∧ last ls = Some l
  | _ => True
  end.

Definition holds_connections (pt : main_point) : bool :=
  match pt with Holding _ => true | _ => false end.

(** The node of a thread's connection tells whether the thread has returned. *)
Definition flagged (ns : gmap positive connection) (l : positive) (c : client) : Prop :=
  ∃ n, ns !! l = Some n ∧ thread_complete n = if has_finished c then 1%Z else 0%Z.

Section invariant.
Context {F : Type} {HF : FileOps F} {HA : LogFile F} {HB : LogBound F}.
Context (utc_offset : Z → Z) (unspecified : list byte) (fuel : nat) (timer : Z).
Implicit Types (w : system F) (y : server F) (c : client) (a A : log F) (p P : Z).

(** The main thread's part: the connections [ls] and their flags. *)
Record main_ok w (ls : list positive) : Prop := {
  mo_exit : ServerMain.should_exit (process w) = false;
  mo_timer : ServerMain.timer_thread (process w) = timer;
  mo_lock : connections_lock (env (conns (process w))) = holds_connections (at_main w);
  mo_list : slist (conns (process w)) connections (listed (at_main w) ls);
  mo_hand : in_hand (at_main w) ls;
  mo_distinct : NoDup ls;
  mo_arguments : arguments w = Some <$> ls;
  mo_dom : dom (nodes (conns (process w))) = list_to_set ls;
  mo_flags : Forall2 (flagged (nodes (conns (process w)))) ls (clients (threads w));
  mo_clients : Forall (λ c, complete c = if has_finished c then 1%Z else 0%Z) (clients (threads w));
  mo_fresh : arrivals_ok ls (arrivals w);
  mo_behave : Forall (λ v, client_ok fuel (newcomer v)) (arrivals w) }.

(** The threads' part: they are where the sequential server, from [st], has
    served some packets of the clients that have connected, and some
    timestamps; a build has no timer, or its file keeps everything. *)
Record threads_ok (st : serial F) w : Prop := {
  to_reached : site_reached utc_offset fuel (expected (arrivals w)) (length (clients (threads w))) st
                 (mk_site (threads w) (ticker w));
  to_timer : t_point (ticker w) = Stopped ∨ KeepsAll F }.

Lemma threads_ok_same st w w' :
  threads w' = threads w → ticker w' = ticker w → expected (arrivals w') = expected (arrivals w) →
  threads_ok st w → threads_ok st w'.
Proof. intros Hy Ht Hv [Hs Hk]. split; by rewrite Ht, ?Hy, ?Hv. Qed.

(** *** A connection thread *)

(** Nobody has set [should_exit]. *)
Lemma threads_shared st w :
  threads_ok st w → ServerMain.should_exit (process w) = false → shared w = threads w.
Proof.
  intros [(_ & ext & h & A & P & cs & xs & out & order & [Hs _ _] & _) _] He. apply shared_same.
  rewrite He. apply Hs.
Qed.

Lemma set_threads_same w :
  s_exit (threads w) = ServerMain.should_exit (process w) → set_threads (threads w) w = w.
Proof. destruct w as [y args tk p pt vs]. unfold set_threads. simpl. intros ->. by rewrite set_should_exit_same. Qed.

Lemma threads_exit st w : threads_ok st w → s_exit (threads w) = false.
Proof. intros [(_ & ext & h & A & P & cs & xs & out & order & [Hs _ _] & _) _]. apply Hs. Qed.

Lemma threads_turn_ok st w i :
  (1023 ≤ line_max)%Z → threads_ok st w →
  ∃ y, turn fuel i (threads w) = Ok () y ∧ threads_ok st (set_threads y w).
Proof.
  intros Hmax [Hs Ht].
  destruct (wp_safe_inv _ _ _ (client_turn_reached utc_offset unspecified fuel _ _ _ _ i Hmax Hs))
    as ([] & v & Hrun & [Hn Hv] & _).
  unfold site_turn in Hrun. simpl in Hrun.
  destruct (turn fuel i (threads w)) as [[] y|e|]; [|done..]. injection Hrun as <-.
  exists y. split; [done|]. split; [by split|done].
Qed.

(** The flags are those of the threads when one of these has moved. *)
Lemma flags_insert (ns ns' : gmap positive connection) ls cl i l c' :
  NoDup ls → ls !! i = Some l → (∀ k, k ≠ l → ns' !! k = ns !! k) →
  Forall2 (flagged ns) ls cl → flagged ns' l c' → Forall2 (flagged ns') ls (<[i := c']> cl).
Proof.
  intros Hnd Hl Hk Hall Hn. pose proof (Forall2_length _ _ _ Hall) as Hlen.
  pose proof (lookup_lt_Some _ _ _ Hl).
  apply Forall2_same_length_lookup. split; [by rewrite length_insert|].
  intros j l' c Hj Hc. destruct (decide (i = j)) as [<-|Hne].
  - rewrite list_lookup_insert_eq in Hc by lia. simplify_eq. done.
  - rewrite list_lookup_insert_ne in Hc by done. unfold flagged. rewrite Hk.
    + exact (Forall2_lookup_lr _ _ _ _ _ _ Hall Hj Hc).
    + intros ->. apply Hne. by eapply NoDup_lookup.
Qed.

Lemma flags_same (ns ns' : gmap positive connection) ls cl :
  (∀ l n, l ∈ ls → ns !! l = Some n → ∃ n', ns' !! l = Some n' ∧
     thread_complete n' = thread_complete n) →
  Forall2 (flagged ns) ls cl → Forall2 (flagged ns') ls cl.
Proof.
  intros Hk Hall. apply Forall2_same_length_lookup.
  split; [by eapply Forall2_length|]. intros i l c Hl Hc.
  destruct (Forall2_lookup_lr _ _ _ _ _ _ Hall Hl Hc) as (n & Hn & Hfl).
  destruct (Hk l n) as (n' & Hn' & Heq); [by eapply list_elem_of_lookup_2|done|].
  exists n'. by rewrite Heq.
Qed.

Lemma thread_turn_ok st ls w i :
  (1023 ≤ line_max)%Z → threads_ok st w → main_ok w ls →
  ∃ w', thread_turn fuel i w = Ok (inr ()) w' ∧ threads_ok st w' ∧ main_ok w' ls ∧
    turn fuel i (threads w) = Ok () (threads w') ∧ at_main w' = at_main w ∧
    arrivals w' = arrivals w.
Proof.
  intros Hmax Ht Hm. destruct (threads_turn_ok st w i Hmax Ht) as (y & Hrun & Hy).
  pose proof (threads_exit _ _ Hy : s_exit y = false) as Hey. unfold thread_turn.
  rewrite (threads_shared st w Ht) by apply Hm. rewrite Hrun.
  destruct (turn_report fuel i _ _ Hrun) as [->|(c & c' & Hi & Hcl & Hnf & Hc')].
  { exists w. split_and!; [|done..]. trans (Ok (inr ()) (set_threads (threads w) w) : outcome _ (Z + ())).
    - unfold report, mbind, M_bind, gets, modify, mret, M_ret. simpl.
      destruct (clients (threads w) !! i) as [c|]; [|done]. destruct (arguments w !! i); [|done].
      by rewrite decide_True.
    - rewrite set_threads_same; [done|]. rewrite Hey. symmetry. apply Hm. }
  destruct Hm as [He Htm Hk Hl Hh Hnd Ha Hd Hf Hcs Hfr Hb].
  pose proof (lookup_lt_Some _ _ _ Hi) as Hlt.
  destruct (Forall2_lookup_r _ _ _ _ _ Hf Hi) as (l & Hli & n & Hn & Hfl).
  assert (arguments w !! i = Some (Some l)) as Hai by (by rewrite Ha, list_lookup_fmap, Hli).
  assert (clients y !! i = Some c') as Hyi by (by rewrite Hcl, list_lookup_insert_eq).
  assert (complete c = 0%Z) as Hc0.
  { by rewrite (proj1 (Forall_lookup _ _) Hcs i c Hi), Hnf. }
  assert (Forall (λ c, complete c = if has_finished c then 1%Z else 0%Z) (clients y)) as Hcs'.
  { rewrite Hcl. apply Forall_insert; [done|]. rewrite Hc', Hc0. by destruct (has_finished c'). }
  destruct (has_finished c') eqn:Hfin.
  - exists (set_threads y (set_process (set_conns (set_nodes <[l := set_thread_complete 1 n]>
      (conns (process w))) (on_fds (λ X : gset Z, X ∖ {[conn_fd n]}) (process w))) w)).
    split_and!; [|by apply (threads_ok_same st (set_threads y w))| |done..].
    { unfold report, mbind, M_bind, gets, modify, mret, M_ret. simpl. rewrite Hi, Hyi, Hai.
      rewrite decide_False by lia. unfold on_process. by rewrite (finish_client_run _ l n). }
    split; simpl; try done.
    + by apply slist_set_complete.
    + rewrite dom_insert_L, Hd. apply list_elem_of_lookup_2 in Hli. clear -Hli. set_solver.
    + rewrite Hcl. eapply flags_insert; [done|exact Hli| |exact Hf|].
      * intros k Hne. by rewrite lookup_insert_ne.
      * unfold flagged. rewrite lookup_insert_eq, Hfin. by eexists.
  - exists (set_threads y w). split_and!; [|by apply (threads_ok_same st (set_threads y w))| |done..].
    { unfold report, mbind, M_bind, gets, modify, mret, M_ret. simpl. rewrite Hi, Hyi, Hai.
      by rewrite decide_True by lia. }
    split; simpl; try done. rewrite Hcl. eapply flags_insert; [done|exact Hli|done|exact Hf|].
    exists n. rewrite Hfin. rewrite Hnf in Hfl. done.
Qed.

(** *** The timer *)

Lemma timer_turn_ok st ls w :
  (1023 ≤ line_max)%Z → threads_ok st w → main_ok w ls →
  ∃ w', timer_turn utc_offset unspecified fuel w = Ok (inr ()) w' ∧ threads_ok st w' ∧ main_ok w' ls.
Proof.
  intros Hmax Ht Hm. pose proof (threads_exit _ _ Ht) as Hey. pose proof (mo_exit _ _ Hm) as He.
  unfold timer_turn. rewrite (threads_shared st w Ht He). destruct Ht as [Hs Hk].
  destruct Hk as [Hstop|HK].
  { exists w. unfold site_turn, timer_waits. cbn [base timer_thread]. rewrite Hstop. cbn [base timer_thread].
    rewrite Hey, <-He, set_should_exit_same. destruct w. split_and!; [done|split; [done|by left]|done]. }
  destruct (wp_safe_inv _ _ _ (timer_turn_reached utc_offset unspecified fuel _ _ _ _ Hmax Hs))
    as ([] & v & Hrun & [Hn Hv] & _).
  assert (clients (base v) = clients (threads w)) as Hcl.
  { unfold site_turn in Hrun. simpl in Hrun. destruct (timer_waits _ _); [by injection Hrun as <-|].
    destruct (timer_step _ _ _ _); [by injection Hrun as <-|done..]. }
  assert (s_exit (base v) = false) as Hev
    by (destruct Hv as (? & ? & ? & ? & ? & ? & ? & ? & [Hs' _ _] & _); apply Hs').
  rewrite Hrun. eexists. split; [done|]. split.
  - split; simpl; [|by right]. rewrite Hcl. split; [exact Hn|]. by destruct v.
  - destruct Hm. split; simpl; try done; by rewrite Hcl.
Qed.

(** *** The main thread *)

Definition join y c : server F := mk_server (s_file y) (s_lock y) (s_exit y) (clients y ++ [c]).

Lemma server_sim_join ext h y A P cs v :
  server_sim fuel ext h y A P cs → client_ok fuel (newcomer v) →
  server_sim fuel ext h (join y (newcomer v)) A P (cs ++ [(packets_of (events v), [])]).
Proof.
  intros [He Hk Hx Hh Hf Ha Hlen Hcl] Hok. split; simpl; try done.
  - intros i Hi. rewrite length_app. specialize (Hh i Hi). lia.
  - by rewrite !length_app, Hlen.
  - intros i c x Hi Hc. apply lookup_snoc_Some in Hi as [[Hlt Hi]|[-> <-]].
    + rewrite lookup_app_l in Hc by lia. by apply Hcl.
    + rewrite lookup_app_r, Hlen, Nat.sub_diag in Hc by lia. injection Hc as <-. split; [done|].
      rewrite bool_decide_eq_false_2 by (intros Hn; specialize (Hh _ Hn); lia).
      split_and!; [done|apply length_replicate|done].
Qed.

(** The connections a collection looks at, and whether one of them is done. *)
Definition collectable w : list client :=
  let cl := clients (threads w) in
  match at_main w with Spawned _ | Holding _ => take (length cl - 1) cl | _ => cl end.

Definition some_finished w : bool := existsb has_finished (collectable w).

Lemma flags_complete (s : cstate) ls cl :
  Forall2 (flagged (nodes s)) ls cl →
  Exists (Connections.complete s) (reverse ls) ↔ existsb has_finished cl = true.
Proof.
  intros Hall. rewrite Exists_exists. setoid_rewrite elem_of_reverse.
  rewrite <-Exists_exists. induction Hall as [|l c ls cl (n & Hn & Hfl) _ IH]; simpl.
  { split; [by intros ?%Exists_nil|done]. }
  rewrite Exists_cons, orb_true_iff, IH. f_equiv. unfold Connections.complete. rewrite Hn.
  destruct (has_finished c); naive_solver lia.
Qed.

Lemma listed_complete w ls :
  main_ok w ls →
  Exists (Connections.complete (conns (process w))) (listed (at_main w) ls) ↔ some_finished w = true.
Proof.
  intros [_ _ _ _ Hh _ _ _ Hf _ _ _].
  assert (∀ l, last ls = Some l →
    Exists (Connections.complete (conns (process w))) (tail (reverse ls)) ↔
    existsb has_finished (take (length (clients (threads w)) - 1) (clients (threads w))) = true) as Htail.
  { intros l [ls' ->]%last_Some. rewrite reverse_snoc. simpl.
    apply Forall2_app_inv_l in Hf as (cl1 & cl2 & Hf & Hf2 & ->).
    apply Forall2_length in Hf2. rewrite length_app. simpl in Hf2.
    rewrite take_app_length' by lia. by apply flags_complete. }
  unfold listed, some_finished, collectable, in_hand in *.
  destruct (at_main w); [by apply flags_complete| | |by apply flags_complete];
    destruct Hh as (l & -> & Hl); by apply (Htail l).
Qed.

(** What a step of the main thread does besides the list. *)
Definition main_next w w' : Prop :=
  match at_main w with
  | Accepting =>
     match arrivals w with
     | [] => w' = w
     | v :: vs =>
        arrivals w' = vs ∧
        if decide (connected (answers v)) then
          threads w' = join (threads w) (newcomer v) ∧ ∃ conn, at_main w' = Spawned conn
        else threads w' = threads w ∧ at_main w' = Accepting
     end
  | Spawned conn => threads w' = threads w ∧ arrivals w' = arrivals w ∧ at_main w' = Holding conn
  | Holding _ => threads w' = threads w ∧ arrivals w' = arrivals w ∧ at_main w' = Collecting
  | Collecting => threads w' = threads w ∧ arrivals w' = arrivals w ∧ at_main w' = Accepting
  end.

Definition goes_on (st : serial F) w (r : outcome (system F) (Z + ())) : Prop :=
  ∃ w' ls', r = Ok (inr ()) w' ∧ threads_ok st w' ∧ main_ok w' ls' ∧ main_next w w'.


Lemma expected_cons v vs :
  expected (v :: vs) =
    if decide (connected (answers v)) then (packets_of (events v), []) :: expected vs else expected vs.
Proof. unfold expected. rewrite filter_cons. by case_decide. Qed.

(** [accept] or [pthread_create] fails. *)
Lemma refused_goes_on st ls w v vs :
  at_main w = Accepting → arrivals w = v :: vs → ¬ connected (answers v) →
  threads_ok st w → main_ok w ls → goes_on st w (main_turn w).
Proof.
  intros Hpt Hvs Hc Ht Hm. pose proof Hm as [He Htm Hk Hl Hh Hnd Ha Hd Hf Hcs Hfr Hb].
  rewrite Hvs in Hfr, Hb. destruct Hfr as [Hmal Hfr]. apply Forall_cons in Hb as [_ Hb].
  unfold place in Hfr. rewrite decide_False, app_nil_r in Hfr by done.
  assert (∃ X, main_turn w = Ok (inr ())
    (set_process (on_fds (λ _, X) (process w)) (set_arrivals vs w))) as [X ->].
  { destruct (decide (r_accept (answers v) < 0)%Z) as [Hn|Hn].
    { exists (fds (process w)). unfold main_turn, on_process, mbind, M_bind, gets, modify. simpl.
      rewrite Hpt, He, Hvs, decide_True by done. by destruct w as [? ? ? [] ? ?]. }
    destruct Hmal as (l & Hmal & Hin); [lia|]. rewrite (main_turn_accepts w v vs) by (done || lia).
    eexists. assert (wp (open_connection (answers v)) safe (λ r s', r = None ∧ s' = conns (process w))
      (conns (process w))) as (r & s' & -> & -> & ->)%wp_safe_inv; [|done].
    apply (wp_open_connection_failed _ _ l); [done|rewrite Hd; by rewrite elem_of_list_to_set| |done].
    intros Hcr. apply Hc. split; [lia|done]. }
  eexists _, ls. split; [done|]. split.
  { apply (threads_ok_same st w); [done|done| |exact Ht]. simpl. rewrite Hvs, expected_cons. by rewrite decide_False. }
  split; [by split|]. unfold main_next. rewrite Hpt, Hvs, decide_False by done. done.
Qed.

(** A client connects. *)
Lemma accepted_goes_on st ls w v vs :
  at_main w = Accepting → arrivals w = v :: vs → connected (answers v) →
  threads_ok st w → main_ok w ls → goes_on st w (main_turn w).
Proof.
  intros Hpt Hvs Hc Ht Hm. pose proof Hm as [He Htm Hk Hl Hh Hnd Ha Hd Hf Hcs Hfr Hb].
  rewrite Hvs in Hfr, Hb. destruct Hfr as [Hmal Hfr]. apply Forall_cons in Hb as [Hbv Hb].
  pose proof Hc as [Hacc Hcr]. destruct (Hmal Hacc) as (l & Hlm & Hin).
  unfold place in Hfr. rewrite decide_True, Hlm in Hfr by done. simpl in Hfr.
  assert (l ∉ dom (nodes (conns (process w)))) as Hdom.
  { rewrite Hd. by rewrite elem_of_list_to_set. }
  assert (∃ X, main_turn w = Ok (inr ()) (start_thread (Some l) (newcomer v)
    (set_process (set_conns (set_nodes <[l := new_connection (answers v)]> (conns (process w)))
       (on_fds (λ _, X) (process w))) (set_arrivals vs w)))) as [X ->].
  { rewrite (main_turn_accepts w v vs) by done. eexists.
    assert (wp (open_connection (answers v)) safe (λ r s', r = Some (Some l) ∧
      s' = set_nodes <[l := new_connection (answers v)]> (conns (process w)))
      (conns (process w))) as (r & s' & -> & -> & ->)%wp_safe_inv; [|done].
    by apply (wp_open_connection _ _ l). }
  eexists _, (ls ++ [l]). split; [done|]. split.
  { destruct Ht as [(Hn & ext & h & A & P & cs & xs & out & order & [Hy Hfits Hck] & Hst) Htk].
    rewrite Hvs, expected_cons, decide_True in Hfits, Hst by done. split; [|done]. split; [done|].
    exists ext, h, A, P, (cs ++ [(packets_of (events v), [])]), xs, out, order.
    unfold others in *. rewrite <-(assoc_L (++)).
    split; [|done]. split; [by apply server_sim_join|by rewrite <-(assoc_L (++))|done]. }
  split.
  { split; simpl; try done.
    - by rewrite Hk, Hpt.
    - rewrite reverse_snoc. rewrite Hpt in Hl. simpl in Hl. destruct Hl as [Hnd' Hch].
      split; [done|]. apply chain_insert; [simpl; by rewrite elem_of_reverse|done].
    - exists l. split; [done|]. by rewrite last_snoc.
    - apply NoDup_app. split_and!; [done| |apply NoDup_singleton]. clear -Hin; set_solver.
    - by rewrite Ha, fmap_app.
    - rewrite dom_insert_L, Hd, list_to_set_app_L. clear; set_solver.
    - apply Forall2_app.
      + eapply flags_same; [|exact Hf]. intros k n Hk' Hn. exists n. split; [|done].
        rewrite lookup_insert_ne; [done|]. by intros <-.
      + apply Forall2_cons. split; [|done]. unfold flagged. rewrite lookup_insert_eq. by eexists.
    - apply Forall_app. split; [done|]. by apply Forall_singleton. }
  unfold main_next. rewrite Hpt, Hvs, decide_True by done. split; [done|]. split; [done|]. by eexists.
Qed.

(** A step that leaves the threads and the arrivals alone. *)
Lemma locked_goes_on st ls w conn :
  at_main w = Spawned conn → threads_ok st w → main_ok w ls → goes_on st w (main_turn w).
Proof.
  intros Hpt Ht Hm. pose proof Hm as [He Htm Hk Hl Hh Hnd Ha Hd Hf Hcs Hfr Hb].
  rewrite Hpt in *. eexists _, ls. split.
  { pose proof (main_turn_conns w) as Hrun. rewrite Hpt in Hrun. rewrite Hrun.
    unfold conns_turn, pthread_mutex_lock, mbind, M_bind, gets. by rewrite Hk. }
  split; [by apply (threads_ok_same st w)|]. split; [by split|]. unfold main_next. by rewrite Hpt.
Qed.

Lemma inserted_goes_on st ls w conn :
  at_main w = Holding conn → threads_ok st w → main_ok w ls → goes_on st w (main_turn w).
Proof.
  intros Hpt Ht Hm. pose proof Hm as [He Htm Hk Hl Hh Hnd Ha Hd Hf Hcs Hfr Hb].
  rewrite Hpt in *. destruct Hh as (l & -> & [ls0 ->]%last_Some). simpl in Hl, Hk.
  rewrite reverse_snoc in Hl. simpl in Hl.
  assert (∃ c : connection, nodes (conns (process w)) !! l = Some c) as [c Hc].
  { apply Forall2_app_inv_l in Hf as (? & ? & _ & Hf & _). inversion Hf as [|? ? ? ? (n & Hn & _)]. eauto. }
  apply NoDup_app in Hnd as (Hnd1 & Hnd2 & Hnd3).
  assert (wp (insert_connection (Some l)) safe (λ _ s', slist s' connections (l :: reverse ls0) ∧
    env s' = mk_env false (joined (env (conns (process w)))) ∧
    nodes s' = <[l := set_sle_next (head (reverse ls0)) c]> (nodes (conns (process w))))
    (conns (process w))) as ([] & s' & Hrun & Hs' & He' & Hn')%wp_safe_inv.
  { apply (wp_insert_connection _ (reverse ls0) l c); [done|done| |done|done].
    rewrite elem_of_reverse. intros Hin. eapply Hnd2; [done|left]. }
  eexists _, (ls0 ++ [l]). split.
  { pose proof (main_turn_conns w) as Hmain. rewrite Hpt in Hmain. rewrite Hmain.
    unfold conns_turn. by rewrite Hrun. }
  split; [by apply (threads_ok_same st w)|]. split.
  { split; simpl; try done.
    - by rewrite He'.
    - by rewrite reverse_snoc.
    - by apply NoDup_app.
    - rewrite Hn', dom_insert_L, Hd, list_to_set_app_L. clear. set_solver.
    - eapply flags_same; [|exact Hf]. intros k n Hin Hk'. rewrite Hn'.
      destruct (decide (k = l)) as [->|Hne].
      + rewrite lookup_insert_eq. eexists. split; [done|]. simplify_eq. done.
      + rewrite lookup_insert_ne by done. by exists n. }
  unfold main_next. by rewrite Hpt.
Qed.

(** With a connection that is done the collection uses what it has freed. *)
Lemma collected st ls w :
  at_main w = Collecting → threads_ok st w → main_ok w ls →
  if some_finished w then main_turn w = Fault UseAfterFree else goes_on st w (main_turn w).
Proof.
  intros Hpt Ht Hm. pose proof (listed_complete w ls Hm) as Hx.
  pose proof Hm as [He Htm Hk Hl Hh Hnd Ha Hd Hf Hcs Hfr Hb]. rewrite Hpt in *.
  pose proof (collect_outcome _ _ Hl Hk) as Hc. simpl in Hc, Hx.
  pose proof (main_turn_conns w) as Hrun. rewrite Hpt in Hrun. unfold conns_turn in Hrun.
  rewrite Hrun, Hc. destruct (some_finished w).
  - by rewrite decide_True by tauto.
  - rewrite decide_False by (intros ?%Hx; done). eexists _, ls. split; [done|].
    split; [by apply (threads_ok_same st w)|]. split; [|unfold main_next; by rewrite Hpt].
    by split.
Qed.

(** *** How the process ends *)

Inductive ending := Crash (f : fault) | Exit (status : Z).

Definition ends_as (r : outcome (system F) (Z + ())) (e : ending) : Prop :=
  match e with Crash f => r = Fault f | Exit status => ∃ w, r = Ok (inl status) w end.

(** The steps that end the process: a collection with something to collect,
    and every signal that a thread handles. *)
Definition ends_at w (t : who) : option ending :=
  match t, at_main w with
  | Thread _, _ | Timer, _ => None
  | Main, Collecting => if some_finished w then Some (Crash UseAfterFree) else None
  | Main, _ => None
  | Signal ByMain, Holding _ => Some (Crash Deadlock)
  | Signal _, Holding _ => None
  | Signal by_, _ =>
     if alive by_ w then
       Some (if some_finished w then Crash UseAfterFree
             else if decide (timer = 0)%Z then Crash NoSuchThread else Exit EXIT_SUCCESS)
     else None
  end.

(** The handler outside the main thread's critical section. *)
Lemma handler_ends w ls :
  main_ok w ls → holds_connections (at_main w) = false →
  ends_as (on_process signal_handler w)
    (if some_finished w then Crash UseAfterFree
     else if decide (timer = 0)%Z then Crash NoSuchThread else Exit EXIT_SUCCESS).
Proof.
  intros Hm Hh. pose proof (listed_complete w ls Hm) as Hx.
  destruct Hm as [He Htm Hk Hl _ _ _ _ _ _ _ _]. unfold on_process. rewrite Hh in Hk.
  pose proof (collect_outcome _ _ Hl Hk) as Hc. destruct (some_finished w).
  - rewrite decide_True in Hc by tauto. simpl. by rewrite (handler_faults _ _ Hc).
  - rewrite decide_False in Hc by (intros ?%Hx; done).
    destruct (clean_up_runs _ _ Hc) as [p' Hup]. unfold signal_handler.
    rewrite (cleanUpAndExit_outcome _ _ p'), (clean_up_timer _ _ Hup), Htm by done.
    case_decide; [done|]. by eexists.
Qed.

(** What a thread does with a signal. *)
Lemma signal_turn_runs by_ w :
  signal_turn by_ w =
    if negb (alive by_ w) || waits_for_main by_ w then Ok (inr ()) w else on_process signal_handler w.
Proof. unfold signal_turn, mbind, M_bind, gets. by destruct (_ || _). Qed.

Lemma signal_ends w ls by_ :
  main_ok w ls →
  match ends_at w (Signal by_) with
  | Some e => ends_as (signal_turn by_ w) e
  | None => signal_turn by_ w = Ok (inr ()) w
  end.
Proof.
  intros Hm. rewrite signal_turn_runs. pose proof (mo_lock _ _ Hm) as Hk.
  pose proof (handler_ends w ls Hm) as Hend.
  assert (waits_for_main by_ w =
    match by_ with ByMain => false | _ => holds_connections (at_main w) end) as ->
    by (rewrite <-Hk; by destruct by_).
  unfold ends_at. destruct (at_main w) as [|conn|conn|]; simpl in Hk, Hend.
  3: { destruct by_; simpl; rewrite ?orb_true_r; [|done..].
       unfold on_process. by rewrite signal_in_critical_section_deadlocks. }
  all: specialize (Hend eq_refl); destruct (alive by_ w); by destruct by_.
Qed.
End invariant.

(** ** Runs of the system *)

Section runs.
Context {F : Type} {HF : FileOps F} {HA : LogFile F} {HB : LogBound F}.
Context (utc_offset : Z → Z) (unspecified : list byte) (fuel : nat) (timer : Z).
Context (long_lines : (1023 ≤ line_max)%Z).
Implicit Types (w : system F) (a A : log F) (p P : Z).

Definition system_ok (st : serial F) w : Prop :=
  threads_ok utc_offset fuel st w ∧ ∃ ls, main_ok fuel timer w ls.

Lemma main_turn_ok st w ls :
  threads_ok utc_offset fuel st w → main_ok fuel timer w ls →
  match ends_at timer w Main with
  | Some e => ends_as (main_turn w) e
  | None => goes_on utc_offset fuel timer st w (main_turn w)
  end.
Proof.
  intros Ht Hm. unfold ends_at. destruct (at_main w) as [|conn|conn|] eqn:Hpt.
  - destruct (arrivals w) as [|v vs] eqn:Hvs.
    + exists w, ls. split_and!; [|done|done|unfold main_next; by rewrite Hpt, Hvs].
      pose proof (mo_exit _ _ _ _ Hm) as He.
      unfold main_turn, on_process, mbind, M_bind, gets, set_process. simpl. rewrite Hpt, He, Hvs.
      destruct w as [? ? ? ? pt ?]. simpl in Hpt, Hvs. by subst.
    + destruct (decide (connected (answers v))).
      * by eapply accepted_goes_on.
      * by eapply refused_goes_on.
  - by eapply locked_goes_on.
  - by eapply inserted_goes_on.
  - pose proof (collected utc_offset fuel timer st ls w Hpt Ht Hm). by destruct (some_finished w).
Qed.

(** A step goes on, or ends the process the way [ends_at] says. *)
Lemma system_step st w t :
  system_ok st w →
  match ends_at timer w t with
  | Some e => ends_as (system_turn utc_offset unspecified fuel t w) e
  | None => ∃ w', system_turn utc_offset unspecified fuel t w = Ok (inr ()) w' ∧ system_ok st w'
  end.
Proof.
  intros [Ht [ls Hm]]. destruct t as [|i| |by_].
  - pose proof (main_turn_ok st w ls Ht Hm) as Hr. destruct (ends_at timer w Main); [done|].
    destruct Hr as (w' & ls' & Hr & Ht' & Hm' & _). exists w'. split; [done|]. split; [done|by exists ls'].
  - destruct (thread_turn_ok utc_offset unspecified fuel timer st ls w i long_lines Ht Hm) as (w' & Hr & Ht' & Hm' & _).
    exists w'. split; [done|]. split; [done|by exists ls].
  - destruct (timer_turn_ok utc_offset unspecified fuel timer st ls w long_lines Ht Hm)
      as (w' & Hr & Ht' & Hm'). exists w'. split; [done|]. split; [done|by exists ls].
  - pose proof (signal_ends utc_offset fuel timer w ls by_ Hm) as Hr.
    destruct (ends_at timer w (Signal by_)); [done|]. exists w. split; [done|]. split; [done|by exists ls].
Qed.

(** A schedule is run up to the first step that ends the process. *)
Lemma run_system_ok st schedule w0 :
  system_ok st w0 →
  ∃ done rest w, schedule = done ++ rest ∧ run_system utc_offset unspecified fuel done w0 = Ok (inr ()) w ∧
    system_ok st w ∧
    match rest with
    | [] => True
    | t :: _ => ∃ e, ends_at timer w t = Some e ∧ ends_as (run_system utc_offset unspecified fuel schedule w0) e
    end.
Proof.
  revert w0. induction schedule as [|t schedule IH]; intros w0 Hw0.
  { by exists [], [], w0. }
  pose proof (system_step st w0 t Hw0) as Hstep. destruct (ends_at timer w0 t) as [e|] eqn:He.
  - exists [], (t :: schedule), w0. split_and!; [done..|]. exists e. split; [done|].
    unfold ends_as in *. cbn [run_system]. destruct e as [f|status].
    + unfold mbind, M_bind. by rewrite Hstep.
    + destruct Hstep as [w Hrun]. exists w. by rewrite (bind_Ok _ _ _ _ _ Hrun).
  - destruct Hstep as (w1 & Hrun & Hw1). destruct (IH w1 Hw1) as (d & rest & w & -> & Hd & Hw & Hend).
    assert (∀ s, run_system utc_offset unspecified fuel (t :: s) w0 = run_system utc_offset unspecified fuel s w1) as Heq.
    { intros s. cbn [run_system]. by rewrite (bind_Ok _ _ _ _ _ Hrun). }
    exists (t :: d), rest, w. split; [done|]. by rewrite !Heq.
Qed.

(** *** Clients that connect one after the other *)

Definition nobody_finished w : Prop := existsb has_finished (clients (threads w)) = false.

Lemma main_turn_next st w :
  system_ok st w → ends_at timer w Main = None →
  ∃ w', system_turn utc_offset unspecified fuel Main w = Ok (inr ()) w' ∧ system_ok st w' ∧ main_next w w'.
Proof.
  intros [Ht [ls Hm]] He. pose proof (main_turn_ok st w ls Ht Hm) as Hr. rewrite He in Hr.
  destruct Hr as (w' & ls' & Hr & Ht' & Hm' & Hn). exists w'. split_and!; [done| |done].
  split; [done|by exists ls'].
Qed.

(** The steps of the main thread from [accept] to the collection. *)
Lemma connect_one st w v vs :
  system_ok st w → at_main w = Accepting → arrivals w = v :: vs → connected (answers v) →
  ∃ w', run_system utc_offset unspecified fuel (replicate 3 Main) w = Ok (inr ()) w' ∧ system_ok st w' ∧
    at_main w' = Collecting ∧ arrivals w' = vs ∧ threads w' = join (threads w) (newcomer v).
Proof.
  intros Hw Hpt Hvs Hc.
  destruct (main_turn_next st w Hw) as (w1 & Hr1 & Hw1 & Hn1); [by unfold ends_at; rewrite Hpt|].
  unfold main_next in Hn1. rewrite Hpt, Hvs, decide_True in Hn1 by done.
  destruct Hn1 as (Hvs1 & Ht1 & conn & Hpt1).
  destruct (main_turn_next st w1 Hw1) as (w2 & Hr2 & Hw2 & Hn2); [by unfold ends_at; rewrite Hpt1|].
  unfold main_next in Hn2. rewrite Hpt1 in Hn2. destruct Hn2 as (Ht2 & Hvs2 & Hpt2).
  destruct (main_turn_next st w2 Hw2) as (w3 & Hr3 & Hw3 & Hn3); [by unfold ends_at; rewrite Hpt2|].
  unfold main_next in Hn3. rewrite Hpt2 in Hn3. destruct Hn3 as (Ht3 & Hvs3 & Hpt3).
  exists w3. split_and!; [|done|done|congruence|congruence].
  cbn [replicate run_system]. rewrite (bind_Ok _ _ _ _ _ Hr1), (bind_Ok _ _ _ _ _ Hr2).
  by rewrite (bind_Ok _ _ _ _ _ Hr3).
Qed.

Lemma connect_all st vs vs' w :
  system_ok st w → at_main w = Accepting → arrivals w = vs ++ vs' →
  Forall (λ v, connected (answers v)) vs → nobody_finished w →
  ∃ w', run_system utc_offset unspecified fuel (replicate (4 * length vs) Main) w = Ok (inr ()) w' ∧ system_ok st w' ∧
    at_main w' = Accepting ∧ arrivals w' = vs' ∧
    threads w' = mk_server (s_file (threads w)) (s_lock (threads w)) (s_exit (threads w))
                   (clients (threads w) ++ (newcomer <$> vs)).
Proof.
  revert w. induction vs as [|v vs IH]; intros w Hw Hpt Hvs Hc Hn.
  { exists w. split_and!; [done..|]. rewrite app_nil_r. by destruct (threads w). }
  apply Forall_cons in Hc as [Hcv Hc].
  destruct (connect_one st w v (vs ++ vs') Hw Hpt Hvs Hcv) as (w3 & Hr3 & Hw3 & Hpt3 & Hvs3 & Ht3).
  assert (nobody_finished w3) as Hn3.
  { unfold nobody_finished in *. rewrite Ht3. simpl. by rewrite existsb_app, Hn. }
  destruct (main_turn_next st w3 Hw3) as (w4 & Hr4 & Hw4 & Hn4).
  { unfold ends_at, some_finished, collectable. rewrite Hpt3. unfold nobody_finished in Hn3. by rewrite Hn3. }
  unfold main_next in Hn4. rewrite Hpt3 in Hn4. destruct Hn4 as (Ht4 & Hvs4 & Hpt4).
  destruct (IH w4) as (w' & Hr & Hw' & Hpt' & Hvs' & Ht'); [done|done|congruence|done| |].
  { unfold nobody_finished in *. by rewrite Ht4. }
  exists w'. split_and!; [|done|done|done|].
  - replace (4 * length (v :: vs)) with (3 + (1 + 4 * length vs)) by (simpl; lia).
    rewrite !replicate_add, (run_system_app _ _ _ _ _ _ _ Hr3). cbn [replicate app run_system].
    by rewrite (bind_Ok _ _ _ _ _ Hr4).
  - rewrite Ht', Ht4, Ht3. simpl. by rewrite <-(assoc_L (++)).
Qed.

(** While only the connection threads move the system is [run_threads]. *)
Lemma threads_run st schedule w :
  system_ok st w →
  ∃ w', run_system utc_offset unspecified fuel (Thread <$> schedule) w = Ok (inr ()) w' ∧ system_ok st w' ∧
    run_threads fuel schedule (threads w) = Ok () (threads w') ∧ at_main w' = at_main w ∧
    arrivals w' = arrivals w.
Proof.
  revert w. induction schedule as [|i schedule IH]; intros w Hw.
  { by exists w. }
  pose proof Hw as [Ht [ls Hm]].
  destruct (thread_turn_ok utc_offset unspecified fuel timer st ls w i long_lines Ht Hm) as (w1 & Hr1 & Ht1 & Hm1 & Hy1 & Hpt1 & Hvs1).
  destruct (IH w1) as (w' & Hr & Hw' & Hy & Hpt & Hvs); [split; [done|by exists ls]|].
  exists w'. split_and!; [|done| |congruence|congruence].
  - cbn [fmap list_fmap run_system]. by rewrite (bind_Ok _ _ _ _ _ Hr1).
  - unfold run_threads. cbn [run_schedule]. by rewrite (bind_Ok _ _ _ _ _ Hy1).
Qed.

(** Once a thread has returned, the next client and the next signal alike end
    the process. *)
Lemma finished_cannot_go_on st w :
  system_ok st w → at_main w = Accepting → some_finished w = true →
  (∀ by_, alive by_ w = true →
     run_system utc_offset unspecified fuel [Signal by_] w = Fault UseAfterFree) ∧
  ∀ v vs, arrivals w = v :: vs → connected (answers v) →
    run_system utc_offset unspecified fuel (replicate 4 Main) w = Fault UseAfterFree.
Proof.
  intros Hw Hpt Hfin. split.
  - intros by_ Hal. pose proof (system_step st w (Signal by_) Hw) as Hsig. unfold ends_at in Hsig.
    rewrite Hpt, Hfin, Hal in Hsig.
    assert (signal_turn by_ w = Fault UseAfterFree) as Hrun by (by destruct by_). cbn [run_system system_turn]. unfold mbind, M_bind.
    by rewrite Hrun.
  - intros v vs Hvs Hcv.
    destruct (connect_one st w v vs Hw Hpt Hvs Hcv) as (w3 & Hr3 & Hw3 & Hpt3 & _ & Ht3).
    change (replicate 4 Main) with (replicate 3 Main ++ [Main]). rewrite (run_system_app _ _ _ _ _ _ _ Hr3).
    pose proof (system_step st w3 Main Hw3) as Hcol.
    assert (some_finished w3 = true) as Hfin3.
    { unfold some_finished, collectable in *. rewrite Hpt3, Ht3. rewrite Hpt in Hfin.
      simpl. by rewrite existsb_app, Hfin. }
    unfold ends_at in Hcol. rewrite Hpt3, Hfin3 in Hcol. simpl in Hcol.
    cbn [run_system system_turn]. unfold mbind, M_bind. by rewrite Hcol.
Qed.
End runs.
