(* ===== verification/ServerSystemProperties.v ===== *)
(** * Theorems about the whole server ([server/aesdsocket.c])

    From the start of the process, for every schedule of the main thread, the
    connection threads and signals: what the server does until a step ends the
    process, and which steps do. *)

From S2P Require Import Prelude Memory CircularBuffer DeviceSpec Kernel CharDriver CharDriverSpec.
From S2P Require Import CharDriverInv CharDriverWrite CharDriverSeek CharDriverModule.
From S2P Require Import CharDriverClient CharDriverProperties CharDriverFile.
From S2P Require Import Schedules FileOps CString Server ServerSpec ServerProperties ServerOnDriver.
From S2P Require Import Slist Connections ServerMain.
From S2P Require Import ServerClients ServerSerial ServerSerialProperties RegularFile.
From S2P Require Import Calendar Timer ServerTimer ServerSystem ServerSystemInv.

(** ** From the start of the process *)

Section start.
Context (USE_AESD_CHAR_DEVICE : Z).

(** The process is at the loop of [main]; nobody has connected.  A build for a
    regular file has created the timer: [buf] is its array, [nows] what [time]
    will return to it. *)
Definition system_started {F} (f : F) (p : proc) (buf : list byte) (nows : list Z)
    (vs : list arrival) : system F :=
  mk_system (mk_server f false false []) []
    (if decide (USE_AESD_CHAR_DEVICE = 0)%Z then mk_clock (Created buf) nows else mk_clock Stopped [])
    p Accepting vs.

Definition timer_of (r : start_answers) : Z :=
  if decide (USE_AESD_CHAR_DEVICE = 0)%Z then r_timer r else 0%Z.

(** The times the timer will write. *)
Definition ticks_of (xs : list tm) : list tm := if decide (USE_AESD_CHAR_DEVICE = 0)%Z then xs else [].

(** The sequential server's clients: those that will connect, and the timer. *)
Definition everybody (vs : list arrival) (xs : list tm) :=
  expected vs ++ [as_client (ticks_of xs) []].
End start.

(** A client that sends lines. *)
Definition visit (r : accept_answers) (peer : list (list byte) * list Z) : arrival :=
  mk_arrival r (Arrived <$> peer.1) peer.2.

Section system.
Context {F : Type} {HF : FileOps F} {HA : LogFile F} {HB : LogBound F}.
Context (utc_offset : Z → Z) (unspecified : list byte) (fuel : nat).
Context (long_lines : (1023 ≤ line_max)%Z).
Implicit Types (f : F) (w : system F) (a A : log F) (p P : Z) (pr : proc).

(** What the theorems assume of a start. *)
Record good_process USE_AESD_CHAR_DEVICE (o : options) (r : start_answers) pr (buf : list byte)
    (nows : list Z) (xs : list tm) : Prop := {
  gp_open : (2 < r_open r)%Z;
  gp_socket : (2 < r_socket r)%Z;
  gp_start : startup USE_AESD_CHAR_DEVICE o r fresh_proc = Ok (inr (r_socket r)) pr;
  gp_file : USE_AESD_CHAR_DEVICE = 0%Z → KeepsAll F;
  gp_buffer : length buf = sizeof_out_buffer;
  gp_times : times utc_offset nows xs }.

Lemma started_ok USE_AESD_CHAR_DEVICE o r pr buf nows xs f a p vs :
  good_process USE_AESD_CHAR_DEVICE o r pr buf nows xs →
  settled f a p → whole a → fits a (pending (everybody USE_AESD_CHAR_DEVICE vs xs)) →
  arrivals_ok [] vs → Forall (λ v, client_ok fuel (newcomer v)) vs →
  system_ok utc_offset fuel (timer_of USE_AESD_CHAR_DEVICE r)
    (a, p, everybody USE_AESD_CHAR_DEVICE vs xs) (system_started USE_AESD_CHAR_DEVICE f pr buf nows vs).
Proof.
  intros [Ho Hs Hrun HK Hbuf Hxs] Hf Ha Hfits Hvs Hok.
  apply startup_ok in Hrun as (_ & _ & _ & _ & Hsl & Hk & He & Hn & Ht); [|done..].
  unfold system_started, everybody, ticks_of, timer_of in *. split.
  - split; simpl; [|case_decide; [right; auto|by left]]. split; [done|].
    exists false, None, a, p, [], (if decide (USE_AESD_CHAR_DEVICE = 0)%Z then xs else []), [], [].
    split; [|done]. split; [by split|done|]. simpl. by case_decide.
  - exists []. split; simpl; try done; [constructor|by rewrite Hn, dom_empty_L].
Qed.

(** C11: the server with clients that behave: their sockets deliver bytes or
    [EAGAIN] until they are closed, never another error, and take what is sent
    to them ([client_ok]); [malloc] finds memory ([arrivals_ok]).  (What a
    failing read or send does is in [ServerProperties] and [ServerStuck].)  Whatever the schedule of the
    main thread, the connection threads, the timer and the signals, each handled
    as one step by whichever thread the kernel picks, the server that has started
    runs up to the first step that ends the process.  Until then no thread goes
    wrong or loops; the packets and timestamps take effect one after the other,
    as in the sequential server, to which the clients that have not connected
    yet are clients with nothing served and the timer is the last client; every
    client has been sent what this server sent it; the list holds the
    connections of all threads, the newest first and without the one whose
    insertion is still to come; and a node is marked complete exactly when its
    thread has returned.  Under these assumptions a step ends the process
    exactly if it is a collection and some listed thread has returned (the
    collection uses what it has freed), or a signal that a thread handles: in
    the main thread while this holds [connections_lock] the handler waits for
    ever (in another thread it waits for the main thread, and is no step yet);
    else with a listed thread that has returned it uses freed memory, and
    without one it exits or, without a timer, cancels no thread. *)
Theorem server_runs_until_a_step_ends_it USE_AESD_CHAR_DEVICE o r pr buf nows xs f a p vs schedule :
  good_process USE_AESD_CHAR_DEVICE o r pr buf nows xs →
  settled f a p → whole a → fits a (pending (everybody USE_AESD_CHAR_DEVICE vs xs)) →
  arrivals_ok [] vs → Forall (λ v, client_ok fuel (newcomer v)) vs →
  let start := system_started USE_AESD_CHAR_DEVICE f pr buf nows vs in
  ∃ done rest w ls order A P cs stamps,
    schedule = done ++ rest ∧
    run_system utc_offset unspecified fuel done start = Ok (inr ()) w ∧
    match rest with
    | [] => True
    | t :: _ => ∃ e, ends_at (timer_of USE_AESD_CHAR_DEVICE r) w t = Some e ∧
                     ends_as (run_system utc_offset unspecified fuel schedule start) e
    end ∧
    (∀ t, match ends_at (timer_of USE_AESD_CHAR_DEVICE r) w t with
          | Some e => ends_as (system_turn utc_offset unspecified fuel t w) e
          | None => ∃ w', system_turn utc_offset unspecified fuel t w = Ok (inr ()) w'
          end) ∧
    (A, P, cs ++ expected (arrivals w) ++ [stamps]) =
      serve_order order (a, p, everybody USE_AESD_CHAR_DEVICE vs xs) ∧
    (s_lock (threads w) = false → file_repr (s_file (threads w)) A P) ∧
    (∀ i c, clients (threads w) !! i = Some c → ∃ todo out, cs !! i = Some (todo, out) ∧
       replied c `prefix_of` out ∧ (s_lock (threads w) = false → replied c = out) ∧
       (point c = Finished → todo = [] ∧ replied c = out ∧ fd_closed c = true ∧ complete c = 1%Z)) ∧
    arguments w = Some <$> ls ∧
    slist (conns (process w)) connections (listed (at_main w) ls) ∧
    Forall2 (flagged (nodes (conns (process w)))) ls (clients (threads w)).
Proof.
  intros Hp Hf Ha Hfits Hvs Hok start.
  pose proof (started_ok _ _ _ _ _ _ _ f a p vs Hp Hf Ha Hfits Hvs Hok) as Hw0.
  destruct (run_system_ok utc_offset unspecified fuel _ long_lines _ schedule _ Hw0)
    as (d & rest & w & -> & Hd & Hw & Hend).
  assert (∀ t, match ends_at (timer_of USE_AESD_CHAR_DEVICE r) w t with
               | Some e => ends_as (system_turn utc_offset unspecified fuel t w) e
               | None => ∃ w', system_turn utc_offset unspecified fuel t w = Ok (inr ()) w'
               end) as Hsteps.
  { intros t. pose proof (system_step utc_offset unspecified fuel _ long_lines _ w t Hw) as Ht.
    destruct (ends_at _ w t); [done|]. destruct Ht as (w' & Ht & _). by exists w'. }
  destruct Hw as [[(_ & ext & h & A & P & cs & xs' & out & order & [Hy _ _] & Hst) _] [ls Hm]].
  exists d, rest, w, ls, order, A, P, cs, (as_client xs' out).
  split_and!; [done|done|done|done|done|by eapply sim_file| |by apply Hm..].
  intros i c. by eapply sim_replies.
Qed.

(** The clients that send lines. *)
Lemma visits rs peers :
  length rs = length peers → Forall connected rs →
  newcomer <$> zip_with visit rs peers = accepted <$> peers ∧
  Forall (λ v, connected (answers v)) (zip_with visit rs peers) ∧
  length (zip_with visit rs peers) = length peers ∧
  pending (expected (zip_with visit rs peers)) =
    sum_list_with (λ peer, length (concat peer.1)) peers.
Proof.
  intros Hlen Hrs. revert peers Hlen.
  induction Hrs as [|r rs Hr _ IH]; intros [|peer peers] [=]; [by split_and!|].
  destruct (IH peers) as (E & Hc & Hl & Hp); [done|]. cbn [zip_with fmap list_fmap sum_list_with].
  split_and!; [by rewrite <-E|by constructor|by simpl; rewrite Hl|].
  rewrite expected_cons, decide_True by done. unfold pending in *. cbn [sum_list_with events visit fst].
  by rewrite Hp, packets_arrived.
Qed.

(** C12: a server that has served its clients can do nothing more.  When any
    number of clients that send lines have connected, one after the other, and
    their threads have run under a fair schedule, all clients have seen one log:
    each has received the contents after each of its lines, and the file holds
    the lines of all in one order.  Then a signal, whichever thread handles it,
    ends the process in a use after free instead of an exit, and so does the
    next client that connects, before its thread has taken a step.  (The timer of a build that has one does
    not move in these runs.) *)
Theorem served_server_cannot_go_on USE_AESD_CHAR_DEVICE o r pr buf nows xs f a p rs peers next rounds :
  good_process USE_AESD_CHAR_DEVICE o r pr buf nows xs →
  let vs := zip_with visit rs peers in
  settled f a p → whole a → fits a (pending (everybody USE_AESD_CHAR_DEVICE (vs ++ next) xs)) →
  length rs = length peers → Forall connected rs → Forall polite peers →
  Forall (λ peer, 1024 + size_max + in_buffer_size + length peer.2 < fuel) peers →
  arrivals_ok [] (vs ++ next) → Forall (λ v, client_ok fuel (newcomer v)) next →
  fair (length peers) rounds →
  sum_list_with (λ peer, 1030 * length peer.1 + 1) peers ≤ length rounds →
  let start := system_started USE_AESD_CHAR_DEVICE f pr buf nows (vs ++ next) in
  let schedule := replicate (4 * length peers) Main ++ (Thread <$> concat rounds) in
  ∃ w merged, run_system utc_offset unspecified fuel schedule start = Ok (inr ()) w ∧
    (∃ p, file_repr (s_file (threads w)) (foldl append a merged.*2) p) ∧
    s_lock (threads w) = false ∧
    (∀ i peer, peers !! i = Some peer → lines_of i merged = peer.1 ∧
       ∃ c, clients (threads w) !! i = Some c ∧ point c = Finished ∧
            replied c = log_replies i a merged) ∧
    (peers ≠ [] →
       (∀ by_, alive by_ w = true →
          run_system utc_offset unspecified fuel (schedule ++ [Signal by_]) start = Fault UseAfterFree) ∧
       ∀ v vs', next = v :: vs' → connected (answers v) →
         run_system utc_offset unspecified fuel (schedule ++ replicate 4 Main) start = Fault UseAfterFree).
Proof.
  intros Hproc vs Hf Ha Hfits Hlen Hrs Hp Hfuel Hfresh Hnext Hfair Hsteps start schedule.
  destruct (visits rs peers Hlen Hrs) as (Hnew & Hconn & Hvl & Hpend). fold vs in Hnew, Hconn, Hvl, Hpend.
  assert (starting fuel (started f peers) a p) as Hstart.
  { apply started_starting; try done. eapply fits_less; [exact Hfits|]. rewrite <-Hpend.
    unfold everybody, expected, pending.
    rewrite filter_app, fmap_app, !sum_list_with_app. lia. }
  assert (system_ok utc_offset fuel (timer_of USE_AESD_CHAR_DEVICE r)
    (a, p, everybody USE_AESD_CHAR_DEVICE (vs ++ next) xs) start) as Hw0.
  { eapply started_ok; try done. apply Forall_app. split; [|done]. apply (Forall_fmap newcomer).
    rewrite Hnew. eapply Forall_impl; [apply (st_clients _ _ _ _ Hstart)|]. by intros c [_ Hc]. }
  destruct (connect_all utc_offset unspecified fuel _ _ vs next _ Hw0 eq_refl eq_refl Hconn eq_refl)
    as (w1 & Hr1 & Hw1 & Hpt1 & Hvs1 & Ht1).
  assert (threads w1 = started f peers) as Ht1'.
  { rewrite Ht1. simpl. by rewrite Hnew. }
  destruct (threads_run utc_offset unspecified fuel _ long_lines _ (concat rounds) w1 Hw1) as (w & Hr & Hw & Hy & Hpt & Hvs).
  destruct (clients_share_a_log fuel f a p rounds peers Hstart Hp long_lines Hfair Hsteps)
    as (y' & merged & Hrun' & Hfile & Hl & _ & Hall).
  rewrite Ht1', Hrun' in Hy. injection Hy as ->.
  assert (∀ s, run_system utc_offset unspecified fuel (schedule ++ s) start = run_system utc_offset unspecified fuel s w) as Hthen.
  { intros s. unfold schedule. rewrite <-Hvl, <-(assoc_L (++)), (run_system_app _ _ _ _ _ _ _ Hr1).
    by apply run_system_app. }
  exists w, merged. split_and!; [|done..|].
  { rewrite <-(app_nil_r schedule). by rewrite Hthen. }
  intros Hne. assert (some_finished w = true) as Hfin.
  { unfold some_finished, collectable. rewrite Hpt, Hpt1. destruct peers as [|peer peers]; [done|].
    destruct (Hall 0 peer eq_refl) as (_ & c & Hc & Hpc & _). apply existsb_exists. exists c.
    split; [by eapply list_elem_of_In, list_elem_of_lookup_2|]. unfold has_finished. by rewrite Hpc. }
  destruct (finished_cannot_go_on utc_offset unspecified fuel _ long_lines _ w Hw) as [Hsig Hnextc];
    [congruence|done|]. split; [intros by_ Hal; rewrite Hthen; by apply Hsig|]. intros v vs' Hn. rewrite Hthen. apply (Hnextc v vs'). congruence.
Qed.
End system.

(** ** A concrete run: two clients on the driver, and a third that is too late *)

Section runs.
#[local] Instance run_kernel : Kernel := calm.
#[local] Instance run_laws : KernelLaws run_kernel := sample_kernel_laws _ _ _.
#[local] Instance run_reliable : KernelReliable run_kernel := sample_kernel_reliable.

Definition joins (conn : positive) (fd : Z) : accept_answers := mk_accept fd 0 (Some conn) 0 fd.

Definition too_late : arrival := visit (joins 3 7) ([line_c], []).

Definition both_and_one : list arrival :=
  zip_with visit [joins 1 5; joins 2 6] peers ++ [too_late].

Lemma both_and_one_ok :
  arrivals_ok [] both_and_one ∧ Forall (λ v, client_ok plenty (newcomer v)) both_and_one.
Proof.
  split.
  - repeat split; simpl; (intros _; eexists; split; [reflexivity|]; set_solver).
  - pose proof (st_clients _ _ _ _ peers_started) as [[_ H1] [[_ H2] _]%Forall_cons]%Forall_cons.
    apply Forall_cons. split; [done|]. apply Forall_cons. split; [done|]. by apply Forall_singleton.
Qed.

(** The default build, which has no timer. *)
Lemma good_device_process pr fd :
  startup 1 (mk_options 9000 1) good_start fresh_proc = Ok (inr fd) pr →
  good_process (F := fd_state) (λ _, 0%Z) 1 (mk_options 9000 1) good_start pr (replicate 64 NUL) [] [].
Proof.
  intros Hrun. split; [done|done| |done|done|by constructor].
  by destruct (startup_ok 1 (mk_options 9000 1) good_start fd pr) as [-> _].
Qed.

(** The first client is served one packet while the second one connects; then
    the process is told to stop. *)
Definition busy : list who :=
  [Main; Main; Thread 0; Main; Thread 0; Main; Thread 0; Main; Thread 0; Signal (ByThread 1); Main].

Lemma server_runs_until_a_step_ends_it_witness :
  ∃ pr done rest w, startup 1 (mk_options 9000 1) good_start fresh_proc = Ok (inr 4%Z) pr ∧
    busy = done ++ rest ∧
    run_system (λ _, 0%Z) [] plenty done (system_started 1 opened pr (replicate 64 NUL) [] both_and_one) = Ok (inr ()) w.
Proof.
  destruct (startup 1 (mk_options 9000 1) good_start fresh_proc) as [[st|fd] pr| |] eqn:Hrun;
    try by vm_compute in Hrun.
  destruct both_and_one_ok as [Hok1 Hok2].
  destruct (server_runs_until_a_step_ends_it (λ _, 0%Z) [] plenty run_line_max 1 _ good_start pr _ [] []
    opened adev_empty 0 both_and_one busy (good_device_process _ _ Hrun))
    as (d & rest & w & ls & order & A & P & cs & stamps & Hsched & Hd & _);
    [split; [apply opened_repr|done]|done| |done|done|].
  { split; [apply adev_empty_wf|by split]. }
  exists pr, d, rest, w. split; [|by split]. f_equal. f_equal.
  by apply startup_ok in Hrun as [-> _].
Defined.

Lemma served_server_cannot_go_on_witness :
  ∃ pr schedule, startup 1 (mk_options 9000 1) good_start fresh_proc = Ok (inr 4%Z) pr ∧
    run_system (λ _, 0%Z) [] plenty (schedule ++ [Signal ByMain]) (system_started 1 opened pr (replicate 64 NUL) [] both_and_one) =
      Fault UseAfterFree ∧
    run_system (λ _, 0%Z) [] plenty (schedule ++ replicate 4 Main) (system_started 1 opened pr (replicate 64 NUL) [] both_and_one) =
      Fault UseAfterFree.
Proof.
  destruct (startup 1 (mk_options 9000 1) good_start fresh_proc) as [[st|fd] pr| |] eqn:Hrun;
    try by vm_compute in Hrun.
  destruct both_and_one_ok as [Hok1 Hok2].
  destruct (served_server_cannot_go_on (λ _, 0%Z) [] plenty run_line_max 1 _ good_start pr _ [] []
    opened adev_empty 0 [joins 1 5; joins 2 6] peers [too_late] alternating (good_device_process _ _ Hrun))
    as (w & merged & _ & _ & _ & _ & Hend);
    [split; [apply opened_repr|done]|done| |done| |apply peers_polite|apply peers_fuel
    |done| |apply alternating_fair| |].
  - split; [apply adev_empty_wf|by split].
  - by repeat constructor.
  - by apply Forall_app in Hok2 as [_ ?].
  - unfold alternating. rewrite length_replicate. by apply Nat.leb_le.
  - destruct Hend as [Hsig Hnext]; [done|].
    exists pr, (replicate (4 * length peers) Main ++ (Thread <$> concat alternating)).
    split; [by apply startup_ok in Hrun as [-> _]|]. split; [by apply (Hsig ByMain)|].
    apply (Hnext too_late []); [done|]. by split.
Defined.

(** A client that has gone before the main thread lists its connection is freed
    by the collection behind the insertion, in front of the next step of the
    walk. *)
Lemma hasty_client_ends_the_server :
  run_system (λ _, 0%Z) [] plenty [Main; Thread 0; Main; Main; Main]
    (system_started 1 opened fresh_proc [] [] [visit (joins 1 5) ([], [])]) = Fault UseAfterFree.
Proof. by vm_compute. Qed.
End runs.
